(* ===== verification/_CoqProject ===== *)
-Q . S2P
Prelude.v
Hoare.v
BTree.v
Codec.v
Ext.v
Scalar.v
Ordered.v
Path.v
IndexDef.v
Value.v
Archived.v
Access.v
Key.v
Dir.v
Engine.v
Acl.v
Integrity.v
Inode.v
PermStore.v
PermSpec.v
PermAuth.v
Registry.v
WriteBuffer.v
Ctx.v
Fs.v
Tree.v
Refine.v
FsSpec.v
Move.v
FsMove.v
TreeLaws.v
Grab.v
Write.v
Txn.v
Program.v
Octets.v
Typing.v
Text.v
Serde.v
SerdeDe.v
Export.v
ExportSpec.v
Protected.v
ProtectedErase.v
ProtectedGuard.v
ProtectedSeal.v
ProtectedKeep.v
Pattern.v
Maintenance.v
IndexSync.v
Reindex.v
IndexScan.v
Query.v
IndexAdmin.v
Cursor.v
Edge.v
Cache.v
ProtectedRead.v
Rooted.v
ProtectedTxn.v
ProtectedWrite.v
Versions.v
Database.v
Examples.v
IndexExamples.v
PermExamples.v
ProtectedExamples.v
DatabaseExamples.v
ExportExamples.v
