(* ===== verification/Prelude.v ===== *)
(** * ArborDb: a verification library

    ArborDb (crate [arbordb]) is an embedded database: every table is a virtual
    filesystem whose nodes ("a-nodes") are directories or files, and every file
    holds one document (a tree of lists, objects and scalars).  Nodes live in an
    ordered key-value engine under 128-bit keys; a directory's record maps names to
    child keys, a file's record is a flat binary image of its document.  This
    development translates the program's core into Rocq definitions and proves what
    they promise.  Paths below are relative to [src/crates/arbordb/src/].

    ** Conventions

    - A call returns [res A]: [Ok], [Err] with the program's error, [Panic] where
      the Rust code would panic, or [OutOfFuel] for the recursions that follow
      links read from storage.  A stateful call is a function of type [SM S A],
      from a state to a result and a state; [let?] and [let!] sequence them.
    - Machine integers are [Z] with their width written out ([as_u32], [as_u64],
      [to_be], [of_be]); [usize] is 64 bits wide.  Bytes are [Z], strings are their
      UTF-8 bytes, a [BTreeMap] is an association list kept in key order (BTree).
    - The configuration modelled has the default storage features on (the
      big-number scalars included).  The context, the transactions and the reads are
      modelled twice: as the build without [permissions] and [entry-timestamps] has
      them (Ctx, Fs, Write, Txn, Versions), and as the build with both has them (the
      Protected files and Database); ProtectedErase relates the two.  The indexes, the
      cursor, the rooted views and the exports are those of the first build.
    - Code outside the repository is a parameter: the engine (class [KV]: point
      reads, inserts, deletes; [OrdKV] adds ordered scans), the [lru] cache (class
      [Lru]), the calendar and big-number crates (class [Ext]), the decimal text of
      floats and of those crates' types (class [TextForms]), the cryptographic crates
      (class [Crypto]).  Their laws ([KVLaws], [OrdKVLaws], [LruLaws], [ExtLaws],
      [TextLaws], [NumberLaws], [CryptoLaws]) are what the crates document; each has a
      concrete model ([EngineModel], [CacheModel], [ExtModel], [TextModel],
      [CryptoModel]) used by the witnesses.

    ** The files, bottom up

    - Prelude: results, the state monad, big-endian integers, byte order.
      Hoare: triples over that monad.
      BTree: the sorted map and the binary search over a record table.
    - Codec ([codec/read.rs], [reader.rs], [putters.rs]): bounds-checked reads.
      [reads] says that a reader consumes an encoding exactly, [rsafe] that it
      never panics on arbitrary bytes; both compose through the monad.
    - Ext, Scalar ([data/scalar.rs], [time.rs]): scalars and their storage form.
    - Path ([path/]): value paths and access paths, parsed and printed.
    - Value ([value.rs]): documents and their path-addressed edits.
    - Archived ([codec/archived.rs]): the flat image of a document.  [repr] says
      that a value is laid out at an offset of a blob; encoding establishes it,
      navigation and decoding rely on it.
    - Access ([access/]): the read interface of one document as a record of
      operations, with the archived and the in-memory implementations.
    - Key ([key.rs]): the SplitMix64 key generator.
    - Dir ([codec/dir.rs], [engine/entry.rs]): directory records, entry framing.
    - Engine ([engine/functions.rs], [engine/features.rs]): the data table and the
      feature gate of a database file.
    - WriteBuffer, Ctx ([txn/context/write_buffer.rs], [ctx.rs]): the state of a
      write transaction (engine table, write-back buffers, generator) and its
      primitives.  [view] is the node a key stands for, buffered or stored; each
      primitive is proved to update the view in one way, whether it buffers or not.
    - Fs ([txn/context/table.rs]): store, patch, remove, move, copy, flush.
    - Tree, Refine, FsSpec, Move, FsMove, TreeLaws: the abstract filesystem
      [atree] (a tree of keyed nodes), the operations on it ([t_store], [t_rm],
      [t_mv], [t_cp], [t_ensure]), the simulation of Fs by them ([steps]), and the
      laws of the abstract operations in terms of path lookups.
    - Grab ([txn/grab.rs]): the read operations, over an interface ([Grab],
      [GrabLaws]) that write and read transactions implement.
    - Write ([txn/write.rs]), Txn: the public mutations and the commit; [txn c t]
      states that a transaction's state stands for exactly the tree [t].
    - Program: a whole transaction against the abstract program.
    - Cursor ([access/mut_cursor.rs]): scalar edits through a mutable cursor.
    - Edge: what the code does where the specification does not apply.
    - Cache, Versions ([cache.rs], [txn/read.rs], [db/inner.rs], [table.rs]): the
      shared cache and the interleaving of readers and commits.
    - Examples: the theorems at concrete inputs.
    - Ordered ([index/ordered.rs]): the byte encoding of scalars whose order is the
      order of the values.  IndexDef ([index/definitions/]): index definitions and
      column keys.  Registry ([index/registry/]): the registered indexes and their
      id allocator, in the metadata table.
    - Pattern ([index/pattern.rs]): which nodes an index covers and which a mutation
      can touch.  Maintenance ([index/maintenance.rs], [index/key.rs],
      [index/scan.rs]): entries removed, inserted and scanned, over an ordered
      key-value table (class OrdKV).  IndexSync and IndexScan: their theory.
    - Reindex ([txn/write.rs], [reindex_around]): the public mutations of an indexed
      table.  Query ([txn/grab.rs], [execute_query]).  IndexAdmin ([table.rs]):
      creating, back-filling and dropping indexes.  IndexExamples: witnesses of the
      index theorems, and two concrete runs that lose entries.
    - Acl ([acl.rs], [inode/acl.rs], [perm/access.rs], [perm/principal.rs]): graded
      rights, access-control lists, principals and the access decision.  Integrity
      ([crypto.rs], [perm/integrity.rs]): key wrapping and the integrity tags, over the
      primitives of class Crypto.  Inode ([inode/]): the record kept beside every
      a-node (timestamps, list, tags) and the operations on the inode table.
    - PermStore ([perm/store.rs]): users, groups and the keyring in the metadata table,
      with every administrative call.  PermSpec: the two maps they stand for and the
      update each call makes.  PermAuth: authentication and the promotion of a plain
      database.  PermExamples: witnesses under toy primitives (CryptoModel).
    - Octets, Typing: encoders write octets; what decoders return inhabits its Rust type.
    - Protected ([txn/context/ctx.rs], [table.rs]): the mutation context of a table with
      [permissions]: the plain context with the inode table and the memo of verified
      a-nodes.  Its theory: ProtectedErase (a success is the plain operation's),
      ProtectedGuard (a success was permitted), ProtectedSeal and ProtectedKeep (the
      integrity tags, checked and kept).
    - ProtectedRead ([txn/grab.rs]): the protected reads over an interface ([PGrab],
      [PGrabLaws]); ProtectedTxn ([txn/read.rs], [cache.rs]) and ProtectedWrite
      ([txn/write.rs]) implement it, with the transactions that run on it.
      ProtectedExamples: concrete inputs.
    - Rooted ([txn/rooted/], [txn/query.rs]): views of a transaction under a root, and
      the query builder.
    - Database ([db/database.rs], [db/inner.rs], [table.rs]): the shared state behind
      every handle, opening, promotion, authentication, the administrative calls and
      their authority, the starts and commits of transactions.  DatabaseExamples.
    - Text: the textual forms of scalars.  Serde ([serde/blob_ser.rs]): a [Serialize]
      value, as the tree of its calls, written into a blob or made a map key; [denote]
      is the document it stands for.  SerdeDe ([serde/blob_de.rs], [dynamic.rs]): a
      [Visitor] driven from a blob, and [Value] through both bridges.
    - Export ([export/]): JSON and YAML writers.  ExportSpec: reference readers of the
      two formats, and Base64.  ExportExamples.

    ** What the theorems show

    A write transaction is a sequence of abstract filesystem operations and its
    commit leaves exactly the resulting tree in the table
    ([Program.transaction_refines]); each mutation has a specification by path
    lookups, its failures included (Txn); edits through a cursor, patched in place
    or re-encoded, equal the edits of the document in memory (Cursor); reads answer
    from the tree and from the document (Grab); read transactions never mix
    versions (Versions).  Below, every encoding round-trips and every reader of
    stored bytes is shown not to panic on arbitrary bytes, except where it does
    ([Scalar.scalar_decode_panics]); what decoding returns is well typed whatever is
    stored ([Typing.decode_well_typed]).  Every mutation returns, with the fuel its
    tree needs ([Program.mutations_return]), and readers and commits never block each
    other for good ([Versions.calls_finish]).  Edge states the behaviours that lose
    data: a move or a copy onto an ancestor of its source, and scalar writes where no
    file is.
    For secondary indexes: encoded columns compare bytewise as the value tuples do,
    column by column in the declared directions ([IndexDef.column_key_order]);
    definitions and the registry round-trip, and creating or dropping an index keeps
    names unique per table and ids never reused.  Every mutation keeps every index in
    step with the tree or reports a genuine collision
    ([Reindex.indexed_mutations_spec]); a query answers exactly the covered records
    whose columns start with the prefix, in key order, under the root
    ([Query.query_spec]); a created index holds what the tree implies, and a dropped
    one leaves nothing behind.
    For permissions: the access decision is the stated policy ([Acl.authorize_spec]);
    inodes are updated one section at a time and survive storage
    ([Inode.inode_updates_spec]); the tags bind table, key, bytes and list, and a value
    tag is never a control tag ([Integrity.integrity_tags_spec]); every administrative
    call is one update of the user and group maps or fails as they say, and reseals
    ([PermSpec.admin_refines]); a session needs a password that unwraps the keyring and
    a store that verifies under the unwrapped key ([PermAuth.authenticate_spec]);
    along any run of handles, only an administrator changes the users and groups, and a
    guest changes nothing ([Database.authority]); a promoted database reopens to the
    same session ([Database.protect_and_reopen]).
    For the protected context: a mutation that succeeds was permitted on every a-node
    it changes ([ProtectedGuard.access_mediated]) and does to the tables what the plain
    one does ([ProtectedErase.protected_erasure]), so the theorems on plain
    transactions carry over; the tags stay right whatever is done
    ([ProtectedKeep.seals_kept]), an entry whose tag is not its own is never read
    ([ProtectedSeal.tampering_detected]), and every read walked, was authorized and
    verified ([ProtectedRead.reads_mediated]).
    A rooted view is a filesystem of its own ([Rooted.rooted_view_spec]).
    For the bridges: a serialized value is the blob of the document it denotes
    ([Serde.to_blob_refines]), documents, options, enums and map keys come back
    ([SerdeDe.value_through_serde], [SerdeDe.typed_reads], [SerdeDe.map_key_roundtrip]),
    and an export, read by the grammar of its format, is the document again
    ([ExportSpec.exports_read_back]).

    ** Bounds and fuel

    Blobs and directory records are assumed below 4 GiB where the program stores
    32-bit offsets without a check.  [cascade_delete], [deep_copy] and the decoding
    of a blob recurse along stored links: their fuel counts levels, and each theorem
    asks for the height of the tree or the depth of the document, which is enough.
    A transaction is assumed to draw keys its tree does not use ([unused]); the
    generator never repeats a key within 2^62 draws and never makes the root's key.

    ** Not modelled

    - [perm/pubkey.rs]: the public key rendered as text and files.
    - The typed data API ([data/], but for scalars) and the derive macro that generates
      its implementations.
    - The durability levels of [db/database.rs]: what a commit asks of the engine; the
      engine is a map, and crashes are not modelled.
    - [Display] and the [From] conversions of the error type; forwarding
      implementations ([Box], [Arc]) and conversion sugar ([Div], [IntoPath]). *)
From Stdlib Require Export ZArith Lia Sorted.
From stdpp Require Export base list gmap strings sorting.

Open Scope Z_scope.

(** ** Results *)

(** [src/crates/arbordb/src/error.rs], [AdbError].  The payload text of the
    source's messages is kept as the literal (or the format template) the source
    writes; interpolated values are dropped. *)
Inductive AdbError : Type :=
| Engine
| InvalidPath (msg : string)
| InvalidTableName (msg : string)
| ValueNotFound
| PathNotFound
| UnexpectedNode
| BadKey (msg : string)
| TypeMismatch (expected found : string)
| IndexOutOfRange (index len : Z)
| Corrupt (msg : string)
| UniqueViolation
| IndexNotFound
| IndexArity (expected got : Z)
| SchemaMismatch (msg : string)
| CannotAccess (msg : string)
| Conversion (msg : string)
| DatabaseProtected
| FeatureRequired
| AuthenticationFailed
| PermissionDenied (msg : string)
| NoPermissions
| Tampered (msg : string)
| Frozen
| Serde (msg : string).

(** Outcome of a call: [AdbResult]'s two cases, a Rust panic, or (for the
    recursions modelled with fuel) fuel exhaustion. *)
Inductive res (A : Type) : Type :=
| Ok (a : A)
| Err (e : AdbError)
| Panic
| OutOfFuel.
Arguments Ok {A} _.
Arguments Err {A} _.
Arguments Panic {A}.
Arguments OutOfFuel {A}.

Definition rbind {A B} (m : res A) (k : A → res B) : res B :=
  match m with
  | Ok a => k a
  | Err e => Err e
  | Panic => Panic
  | OutOfFuel => OutOfFuel
  end.

Declare Scope arbor_scope.
Delimit Scope arbor_scope with arbor.
Notation "'let?' x := m 'in' k" := (rbind m (λ x, k))
  (at level 10, x name, m at level 100, k at level 200) : arbor_scope.
Notation "'let?' ' p := m 'in' k" := (rbind m (λ x, match x with p => k end))
  (at level 10, p pattern, m at level 100, k at level 200) : arbor_scope.
Open Scope arbor_scope.

(** [Option::ok_or_else]. *)
Definition ok_or {A} (o : option A) (e : AdbError) : res A :=
  match o with Some a => Ok a | None => Err e end.

Definition is_ok {A} (m : res A) : bool :=
  match m with Ok _ => true | _ => false end.

(** A call that neither panics nor runs out of fuel. *)
Definition safe {A} (m : res A) : Prop :=
  match m with Ok _ | Err _ => True | _ => False end.

Lemma rbind_assoc {A B C} (m : res A) (f : A → res B) (g : B → res C) :
  rbind (rbind m f) g = rbind m (λ a, rbind (f a) g).
Proof. by destruct m. Qed.

Lemma rbind_Ok {A B} (m : res A) (k : A → res B) b :
  rbind m k = Ok b ↔ ∃ a, m = Ok a ∧ k a = Ok b.
Proof. destruct m; naive_solver. Qed.

Lemma safe_rbind {A B} (m : res A) (k : A → res B) :
  safe m → (∀ a, m = Ok a → safe (k a)) → safe (rbind m k).
Proof. destruct m; naive_solver. Qed.

Lemma safe_ok_or {A} (o : option A) e : safe (ok_or o e).
Proof. by destruct o. Qed.

(** ** Stateful calls

    A method on [&mut self] that returns [AdbResult]: the state is kept when the
    call fails, as the source keeps it. *)
Definition SM (S A : Type) : Type := S → res A * S.

Definition sret {S A} (a : A) : SM S A := λ s, (Ok a, s).
Definition serr {S A} (e : AdbError) : SM S A := λ s, (Err e, s).
Definition sbind {S A B} (m : SM S A) (k : A → SM S B) : SM S B := λ s,
  match m s with
  | (Ok a, s) => k a s
  | (Err e, s) => (Err e, s)
  | (Panic, s) => (Panic, s)
  | (OutOfFuel, s) => (OutOfFuel, s)
  end.
(** A call through [&self], and a plain state update. *)
Definition asks {S A} (f : S → res A) : SM S A := λ s, (f s, s).
Definition modify {S} (f : S → S) : SM S unit := λ s, (Ok tt, f s).

Notation "'let!' x := m 'in' k" := (sbind m (λ x, k))
  (at level 10, x name, m at level 100, k at level 200) : arbor_scope.
Notation "'let!' ' p := m 'in' k" := (sbind m (λ x, match x with p => k end))
  (at level 10, p pattern, m at level 100, k at level 200) : arbor_scope.

Lemma sbind_Ok {S A B} (m : SM S A) (k : A → SM S B) s a s' :
  m s = (Ok a, s') → sbind m k s = k a s'.
Proof. unfold sbind. by intros ->. Qed.

Lemma sbind_Err {S A B} (m : SM S A) (k : A → SM S B) s e s' :
  m s = (Err e, s') → sbind m k s = (Err e, s').
Proof. unfold sbind. by intros ->. Qed.

Lemma sbind_asks {S A B} (f : S → res A) (k : A → SM S B) s a :
  f s = Ok a → sbind (asks f) k s = k a s.
Proof. unfold sbind, asks. by intros ->. Qed.

Lemma sbind_modify {S B} (f : S → S) (k : unit → SM S B) s :
  sbind (modify f) k s = k tt (f s).
Proof. done. Qed.

Lemma sbind_assoc {S A B C} (m : SM S A) (f : A → SM S B) (g : B → SM S C) s :
  sbind (sbind m f) g s = sbind m (λ a, sbind (f a) g) s.
Proof. unfold sbind. by destruct (m s) as [[]]. Qed.

(** [for x in l { f(x)?; }] *)
Fixpoint for_each {S A} (l : list A) (f : A → SM S unit) : SM S unit :=
  match l with
  | [] => sret tt
  | x :: l => let! _ := f x in for_each l f
  end.

Lemma for_each_app {S A} (f : A → SM S unit) l1 l2 s :
  for_each (l1 ++ l2) f s = sbind (for_each l1 f) (λ _, for_each l2 f) s.
Proof.
  revert s; induction l1 as [|x l1 IH]; intros s; cbn [app for_each]; [done|].
  rewrite sbind_assoc. destruct (f x s) as [[a|e| |] s'] eqn:E.
  - rewrite !(sbind_Ok _ _ _ _ _ E). apply IH.
  - by rewrite !(sbind_Err _ _ _ _ _ E).
  - unfold sbind. by rewrite E.
  - unfold sbind. by rewrite E.
Qed.

Lemma for_each_ext {S A} (f g : A → SM S unit) l s :
  (∀ x, x ∈ l → ∀ s, f x s = g x s) → for_each l f s = for_each l g s.
Proof.
  revert s; induction l as [|x l IH]; intros s Hfg; cbn [for_each]; [done|].
  unfold sbind. rewrite Hfg by left. destruct (g x s) as [[] s']; [|done..].
  apply IH. intros y Hy. apply Hfg. by right.
Qed.

(** A loop of loops is one loop. *)
Lemma for_each_concat {S A B} (f : B → SM S unit) (g : A → list B) l s :
  for_each l (λ x, for_each (g x) f) s = for_each (concat (map g l)) f s.
Proof.
  revert s; induction l as [|x l IH]; intros s; cbn [for_each map concat]; [done|].
  rewrite for_each_app. unfold sbind. destruct (for_each (g x) f s) as [[] s']; [apply IH|done..].
Qed.

Lemma for_each_map {S A B} (f : B → SM S unit) (g : A → B) l s :
  for_each (map g l) f s = for_each l (λ x, f (g x)) s.
Proof.
  revert s; induction l as [|x l IH]; intros s; cbn [map for_each]; [done|].
  unfold sbind. destruct (f (g x) s) as [[] s']; [apply IH|done..].
Qed.

(** Loops of fallible steps: [iter().map(f).collect::<AdbResult<Vec<_>>>()]. *)
Fixpoint mapM_res {A B} (f : A → res B) (l : list A) : res (list B) :=
  match l with
  | [] => Ok []
  | x :: l => let? y := f x in let? ys := mapM_res f l in Ok (y :: ys)
  end.

Lemma mapM_res_Ok {A B} (f : A → res B) l ys :
  mapM_res f l = Ok ys ↔ Forall2 (λ x y, f x = Ok y) l ys.
Proof.
  revert ys; induction l as [|x l IH]; intros ys; simpl.
  - split; [by intros [= <-]|by inversion 1].
  - rewrite rbind_Ok; setoid_rewrite rbind_Ok; setoid_rewrite IH. split.
    + intros (y & ? & ys' & ? & [= <-]); by constructor.
    + inversion 1; subst; eauto 10.
Qed.

Lemma mapM_res_safe {A B} (f : A → res B) l :
  (∀ x, x ∈ l → safe (f x)) → safe (mapM_res f l).
Proof.
  induction l as [|x l IH]; intros Hf; simpl; [done|].
  apply safe_rbind; [apply Hf; set_solver|intros y _].
  apply safe_rbind; [apply IH; set_solver|done].
Qed.

(** Destructs one bind of a hypothesis that says the whole call returned [Ok]. *)
Ltac rinv H :=
  match type of H with
  | rbind _ _ = Ok _ =>
      let a := fresh "a" in let Ha := fresh "H" a in
      apply rbind_Ok in H as (a & Ha & H); simpl in H
  end.
Ltac rinvs H := repeat (rinv H).

Create HintDb arbor.
#[export] Hint Resolve safe_ok_or : arbor.

(** ** Machine integers and bytes *)

Abbreviation bytes := (list Z).

Definition USIZE_MAX : Z := 2 ^ 64 - 1.
Definition U32_MAX : Z := 2 ^ 32 - 1.
Definition U64_MAX : Z := 2 ^ 64 - 1.

(** [x as u32] and friends: truncation to the low bits. *)
Definition as_u32 (z : Z) : Z := z mod 2 ^ 32.
Definition as_u64 (z : Z) : Z := z mod 2 ^ 64.

(** A string literal's bytes. *)
Definition str (s : string) : bytes :=
  map (λ a, Z.of_N (Ascii.N_of_ascii a)) (String.list_ascii_of_string s).

Definition blen {A} (l : list A) : Z := Z.of_nat (length l).

Definition byte_ok (b : Z) : Prop := 0 ≤ b < 256.
Definition bytes_ok (bs : bytes) : Prop := Forall byte_ok bs.

#[export] Instance byte_ok_dec b : Decision (byte_ok b).
Proof. unfold byte_ok; apply _. Defined.

Definition unsigned_ok (w z : Z) : Prop := 0 ≤ z < 2 ^ w.
Definition signed_ok (w z : Z) : Prop := - 2 ^ (w - 1) ≤ z < 2 ^ (w - 1).
#[export] Instance unsigned_ok_dec w z : Decision (unsigned_ok w z).
Proof. unfold unsigned_ok; apply _. Defined.
#[export] Instance signed_ok_dec w z : Decision (signed_ok w z).
Proof. unfold signed_ok; apply _. Defined.

(** [to_be_bytes] for an [8 * n]-bit integer; two's complement for negatives. *)
Fixpoint to_be (n : nat) (z : Z) : bytes :=
  match n with
  | O => []
  | S n' => (z / 256 ^ Z.of_nat n') mod 256 :: to_be n' z
  end.

(** [from_be_bytes] for an unsigned integer. *)
Definition of_be (bs : bytes) : Z := fold_left (λ acc b, acc * 256 + b) bs 0.

(** Reinterpretation of an unsigned [w]-bit pattern as a signed integer. *)
Definition to_signed (w u : Z) : Z := if u <? 2 ^ (w - 1) then u else u - 2 ^ w.

Lemma length_to_be n z : length (to_be n z) = n.
Proof. induction n; simpl; congruence. Qed.

Lemma blen_to_be n z : blen (to_be n z) = Z.of_nat n.
Proof. by unfold blen; rewrite length_to_be. Qed.

Lemma to_be_bytes_ok n z : bytes_ok (to_be n z).
Proof.
  induction n; simpl; constructor; [|done].
  unfold byte_ok; apply Z.mod_pos_bound; lia.
Qed.

Lemma of_be_acc bs acc :
  fold_left (λ acc b, acc * 256 + b) bs acc = acc * 256 ^ blen bs + of_be bs.
Proof.
  unfold of_be. revert acc; induction bs as [|b bs IH]; intros acc; simpl.
  - unfold blen; simpl; lia.
  - change (fold_left _ bs (0 * 256 + b)) with (fold_left (λ acc b, acc * 256 + b) bs b).
    rewrite (IH (acc * 256 + b)), (IH b). unfold blen. simpl length.
    rewrite Nat2Z.inj_succ, Z.pow_succ_r by lia. ring.
Qed.

Lemma of_be_cons b bs : of_be (b :: bs) = b * 256 ^ blen bs + of_be bs.
Proof. unfold of_be at 1; simpl. by rewrite of_be_acc. Qed.

Lemma of_be_app a b : of_be (a ++ b) = of_be a * 256 ^ blen b + of_be b.
Proof. unfold of_be at 1. rewrite fold_left_app. apply of_be_acc. Qed.

Lemma pow256_pos n : 0 < 256 ^ Z.of_nat n.
Proof. apply Z.pow_pos_nonneg; lia. Qed.
#[export] Hint Resolve pow256_pos : arbor.

Lemma of_be_bound bs : bytes_ok bs → 0 ≤ of_be bs < 256 ^ blen bs.
Proof.
  unfold blen. induction 1 as [|b bs Hb Hbs IH]; [by compute|].
  rewrite of_be_cons. unfold byte_ok, blen in *. simpl length.
  rewrite Nat2Z.inj_succ, Z.pow_succ_r by lia.
  pose proof (pow256_pos (length bs)). nia.
Qed.

Lemma of_be_to_be n z : of_be (to_be n z) = z mod 256 ^ Z.of_nat n.
Proof.
  induction n as [|n IH]; simpl; [by rewrite Z.mod_1_r|].
  rewrite of_be_cons, IH, blen_to_be.
  change (Z.pos (Pos.of_succ_nat n)) with (Z.of_nat (S n)).
  rewrite Nat2Z.inj_succ, Z.pow_succ_r, (Z.mul_comm 256) by lia.
  rewrite Z.rem_mul_r by (pose proof (pow256_pos n); lia). ring.
Qed.

Lemma of_be_to_be_id n z : 0 ≤ z < 256 ^ Z.of_nat n → of_be (to_be n z) = z.
Proof. intros. rewrite of_be_to_be. by apply Z.mod_small. Qed.

Lemma to_be_mod n z : to_be n (z mod 256 ^ Z.of_nat n) = to_be n z.
Proof.
  cut (∀ m, (n ≤ m)%nat → to_be n (z mod 256 ^ Z.of_nat m) = to_be n z); [auto|].
  induction n as [|n IH]; intros m Hm; simpl; [done|].
  f_equal; [|apply IH; lia].
  replace (Z.of_nat m) with (Z.of_nat n + Z.of_nat (S (m - S n))) by lia.
  rewrite Z.pow_add_r by lia.
  pose proof (pow256_pos n). pose proof (pow256_pos (S (m - S n))).
  rewrite Z.rem_mul_r by lia.
  rewrite (Z.mul_comm (256 ^ _)), Z.div_add by lia.
  rewrite (Z.div_small (_ mod _)) by (apply Z.mod_pos_bound; lia).
  rewrite Z.add_0_l, Nat2Z.inj_succ, Z.pow_succ_r by lia.
  rewrite Z.rem_mul_r by (pose proof (pow256_pos (m - S n)); lia).
  rewrite (Z.mul_comm 256), Z.mod_add by lia. apply Z.mod_mod; lia.
Qed.

Lemma to_be_of_be bs : bytes_ok bs → to_be (length bs) (of_be bs) = bs.
Proof.
  induction 1 as [|b bs Hb Hbs IH]; simpl; [done|].
  rewrite of_be_cons. pose proof (pow256_pos (length bs)).
  destruct (of_be_bound bs Hbs). unfold byte_ok, blen in *. f_equal.
  - rewrite Z.div_add_l by lia. rewrite Z.div_small, Z.add_0_r by lia.
    apply Z.mod_small; lia.
  - transitivity (to_be (length bs) (of_be bs)); [|done].
    rewrite <- to_be_mod. f_equal. rewrite (Z.add_comm (_ * _)), Z.mod_add by lia.
    apply Z.mod_small; lia.
Qed.

Lemma pow256_pow2 n : 256 ^ Z.of_nat n = 2 ^ (8 * Z.of_nat n).
Proof. change 256 with (2 ^ 8). by rewrite <- Z.pow_mul_r by lia. Qed.

(** A signed integer survives its two's complement bytes. *)
Lemma to_signed_be n z :
  (0 < n)%nat → signed_ok (8 * Z.of_nat n) z →
  to_signed (8 * Z.of_nat n) (of_be (to_be n z)) = z.
Proof.
  intros Hn [Hlo Hhi]. rewrite of_be_to_be, pow256_pow2. unfold to_signed.
  set (w := 8 * Z.of_nat n) in *.
  assert (2 ^ w = 2 * 2 ^ (w - 1)) as E
    by (rewrite <- Z.pow_succ_r by lia; f_equal; lia).
  assert (0 < 2 ^ (w - 1)) by (apply Z.pow_pos_nonneg; lia).
  destruct (Z.ltb_spec z 0).
  - replace (z mod 2 ^ w) with (z + 2 ^ w)
      by (rewrite <- (Z.mod_add z 1) by lia; rewrite Z.mod_small; lia).
    destruct (Z.ltb_spec (z + 2 ^ w) (2 ^ (w - 1))); lia.
  - rewrite Z.mod_small by lia.
    destruct (Z.ltb_spec z (2 ^ (w - 1))); lia.
Qed.

(** ** Lexicographic order of byte strings

    The order of Rust's [<[u8] as Ord>::cmp] and of [str], of a [BTreeMap]
    keyed by strings, and of the engine's byte keys. *)
Fixpoint bytes_cmp (a b : bytes) : comparison :=
  match a, b with
  | [], [] => Eq
  | [], _ :: _ => Lt
  | _ :: _, [] => Gt
  | x :: a', y :: b' =>
      match x ?= y with Eq => bytes_cmp a' b' | c => c end
  end.

Definition blt (a b : bytes) : Prop := bytes_cmp a b = Lt.
#[export] Instance blt_dec a b : Decision (blt a b).
Proof. unfold blt; apply _. Defined.

Lemma bytes_cmp_refl a : bytes_cmp a a = Eq.
Proof. induction a; simpl; [done|]. by rewrite Z.compare_refl. Qed.

Lemma bytes_cmp_eq a b : bytes_cmp a b = Eq ↔ a = b.
Proof.
  split; [|intros ->; apply bytes_cmp_refl].
  revert b; induction a as [|x a IH]; intros [|y b]; simpl; try done.
  destruct (Z.compare_spec x y); naive_solver.
Qed.

Lemma bytes_cmp_antisym a b : bytes_cmp b a = CompOpp (bytes_cmp a b).
Proof.
  revert b; induction a as [|x a IH]; intros [|y b]; simpl; try done.
  rewrite (Z.compare_antisym x y). destruct (x ?= y); simpl; auto.
Qed.

Lemma bytes_cmp_gt a b : bytes_cmp a b = Gt ↔ blt b a.
Proof. unfold blt. rewrite (bytes_cmp_antisym a b). by destruct (bytes_cmp a b). Qed.

#[export] Instance blt_trans : Transitive blt.
Proof.
  intros a; unfold blt; induction a as [|x a IH]; intros [|y b] [|z c]; simpl; try done.
  destruct (Z.compare_spec x y), (Z.compare_spec y z), (Z.compare_spec x z);
    subst; try done; try lia; eauto.
Qed.

#[export] Instance blt_irrefl : Irreflexive blt.
Proof. intros a. unfold complement, blt. by rewrite bytes_cmp_refl. Qed.

#[export] Instance blt_strict : StrictOrder blt.
Proof. split; apply _. Qed.

Lemma blt_irreflexive a : ¬ blt a a.
Proof. unfold blt. by rewrite bytes_cmp_refl. Qed.

Lemma blt_asym a b : blt a b → ¬ blt b a.
Proof. intros H1 H2. apply (blt_irreflexive a). by transitivity b. Qed.

Lemma blt_total a b : blt a b ∨ a = b ∨ blt b a.
Proof.
  destruct (bytes_cmp a b) eqn:E.
  - right; left. by apply bytes_cmp_eq.
  - by left.
  - right; right. by apply bytes_cmp_gt.
Qed.

Lemma bytes_cmp_app p a b : bytes_cmp (p ++ a) (p ++ b) = bytes_cmp a b.
Proof. induction p; simpl; [done|]. by rewrite Z.compare_refl. Qed.

(** Neither string is a prefix of the other, or they are equal: the shape under
    which a comparison is settled before the shorter one ends. *)
Definition prefix_free (a b : bytes) : Prop := a `prefix_of` b → a = b.

Lemma bytes_cmp_app_ne a b x y :
  ¬ a `prefix_of` b → ¬ b `prefix_of` a →
  bytes_cmp (a ++ x) (b ++ y) = bytes_cmp a b.
Proof.
  revert b; induction a as [|c a IH]; intros [|d b] Ha Hb; simpl.
  - destruct Ha; apply prefix_nil.
  - destruct Ha; apply prefix_nil.
  - destruct Hb; apply prefix_nil.
  - destruct (Z.compare_spec c d) as [->| |]; try done.
    apply IH; intros ?; [apply Ha|apply Hb]; by apply prefix_cons.
Qed.

(** Strings of one length are ordered by their first difference. *)
Lemma bytes_cmp_app_len a b x y :
  length a = length b →
  bytes_cmp (a ++ x) (b ++ y) =
    match bytes_cmp a b with Eq => bytes_cmp x y | c => c end.
Proof.
  revert b; induction a as [|c a IH]; intros [|d b] Hl; simplify_eq/=; try done.
  destruct (c ?= d); auto.
Qed.

(** Big-endian bytes of two unsigned integers of one width compare as the
    integers do. *)
Lemma to_be_cmp n a b :
  0 ≤ a < 256 ^ Z.of_nat n → 0 ≤ b < 256 ^ Z.of_nat n →
  bytes_cmp (to_be n a) (to_be n b) = (a ?= b).
Proof.
  revert a b; induction n as [|n IH]; intros a b Ha Hb.
  - change (256 ^ Z.of_nat 0) with 1 in *.
    replace a with 0 by lia. by replace b with 0 by lia.
  - rewrite Nat2Z.inj_succ, Z.pow_succ_r in Ha, Hb by lia. simpl.
    pose proof (pow256_pos n) as Hp. set (q := 256 ^ Z.of_nat n) in *.
    rewrite <- (to_be_mod n a), <- (to_be_mod n b). fold q.
    pose proof (Z.div_mod a q ltac:(lia)). pose proof (Z.div_mod b q ltac:(lia)).
    pose proof (Z.mod_pos_bound a q Hp). pose proof (Z.mod_pos_bound b q Hp).
    assert (0 ≤ a / q < 256) by (split; [apply Z.div_pos|apply Z.div_lt_upper_bound]; lia).
    assert (0 ≤ b / q < 256) by (split; [apply Z.div_pos|apply Z.div_lt_upper_bound]; lia).
    rewrite (Z.mod_small (a / q)), (Z.mod_small (b / q)) by lia.
    rewrite IH by (fold q; lia).
    destruct (Z.compare_spec (a / q) (b / q)), (Z.compare_spec (a mod q) (b mod q)),
      (Z.compare_spec a b); try done; nia.
Qed.

(** ** Lists *)

Lemma blen_app {A} (a b : list A) : blen (a ++ b) = blen a + blen b.
Proof. unfold blen. rewrite length_app. lia. Qed.
Lemma blen_cons {A} (x : A) l : blen (x :: l) = 1 + blen l.
Proof. unfold blen. simpl length. lia. Qed.
Lemma blen_nil {A} : blen (@nil A) = 0.
Proof. done. Qed.
Lemma blen_nonneg {A} (l : list A) : 0 ≤ blen l.
Proof. unfold blen; lia. Qed.
#[export] Hint Resolve blen_nonneg : arbor.
#[export] Hint Rewrite @blen_app @blen_cons @blen_nil blen_to_be : arbor.
Ltac blen := autorewrite with arbor in *; try lia.

(** [concat] of a list of byte strings, left to right. *)
Lemma concat_snoc {A} (ls : list (list A)) l : concat (ls ++ [l]) = concat ls ++ l.
Proof. rewrite concat_app. simpl. by rewrite app_nil_r. Qed.

#[global] Arguments to_be : simpl never.
#[global] Arguments of_be : simpl never.
#[global] Arguments blen : simpl never.
#[global] Arguments bytes_cmp !_ !_ /.
