(* ===== verification/Hoare.v ===== *)
(** * Triples over the state and error monad

    [triple Inv p Q]: from a state that satisfies [Inv], whatever [p] answers, errors
    and exhausted fuel included, the state it leaves satisfies [Inv], and an answer
    satisfies [Q]. *)
From S2P Require Import Prelude.

Section triple.
Context {S : Type} (Inv : S → Prop).

Definition triple {A} (p : SM S A) (Q : A → Prop) : Prop :=
  ∀ s r s', Inv s → p s = (r, s') → Inv s' ∧ ∀ a, r = Ok a → Q a.

Lemma triple_bind {A B} (p : SM S A) (f : A → SM S B) Q R :
  triple p Q → (∀ a, Q a → triple (f a) R) → triple (sbind p f) R.
Proof.
  intros Hp Hf s r s' Hs. unfold sbind. destruct (p s) as [[a|e| |] s1] eqn:E; destruct (Hp _ _ _ Hs E) as [Hs1 Ha].
  - intros E'. eapply Hf; [by apply Ha|done|exact E'].
  - by intros [= <- <-].
  - by intros [= <- <-].
  - by intros [= <- <-].
Qed.

Lemma triple_weaken {A} (p : SM S A) (Q R : A → Prop) : triple p Q → (∀ a, Q a → R a) → triple p R.
Proof. intros Hp HQ s r s' Hs E. destruct (Hp _ _ _ Hs E) as [? Ha]. split; [done|]. intros a Hr. by apply HQ, Ha. Qed.

Lemma triple_ret {A} (a : A) (Q : A → Prop) : Q a → triple (sret a) Q.
Proof. intros HQ s r s' Hs [= <- <-]. split; [done|]. by intros b [= <-]. Qed.

Lemma triple_err {A} e (Q : A → Prop) : triple (serr e) Q.
Proof. by intros s r s' Hs [= <- <-]. Qed.

Lemma triple_fuel {A} (Q : A → Prop) : triple (λ s, (OutOfFuel, s)) Q.
Proof. by intros s r s' Hs [= <- <-]. Qed.

Lemma triple_asks {A} (f : S → res A) (Q : A → Prop) : (∀ s a, Inv s → f s = Ok a → Q a) → triple (asks f) Q.
Proof. intros HQ s r s' Hs [= <- <-]. split; [done|]. intros a. by apply (HQ s). Qed.

Lemma triple_const {A} (r : res A) (Q : A → Prop) : (∀ a, r = Ok a → Q a) → triple (asks (λ _, r)) Q.
Proof. intros HQ. apply triple_asks. intros s a _. apply HQ. Qed.

Lemma triple_modify (f : S → S) : (∀ s, Inv s → Inv (f s)) → triple (modify f) (λ _, True).
Proof. intros Hf s r s' Hs [= <- <-]. split; [by apply Hf|done]. Qed.

Lemma triple_for_each {A} (l : list A) (f : A → SM S unit) (P : A → Prop) :
  (∀ x, P x → triple (f x) (λ _, True)) → Forall P l → triple (for_each l f) (λ _, True).
Proof.
  intros Hf Hl. induction Hl as [|x l Hx Hl IH]; cbn [for_each]; [by apply triple_ret|].
  apply (triple_bind _ _ (λ _, True)); [by apply Hf|done].
Qed.

(** A branch on the state. *)
Lemma triple_case {A} (p : SM S A) (Q : A → Prop) : (∀ s, Inv s → ∃ q, p s = q s ∧ triple q Q) → triple p Q.
Proof. intros Hp s r s' Hs E. destruct (Hp s Hs) as (q & Eq & Hq). rewrite Eq in E. by eapply Hq. Qed.
End triple.

(** The head of a sequence by [tac], its answer kept for the rest. *)
Ltac tbind tac := eapply triple_bind; [tac|cbn beta].
