(* ===== verification/BTree.v ===== *)
(** * Ordered maps and binary search

    [BTreeMap<String, V>] of the Rust standard library as the list of its
    entries in key order (so iteration order and [PartialEq] are the source's),
    and the binary search both archived formats run over a name-sorted table. *)
From S2P Require Import Prelude.

Section btree.
Context {V : Type}.
Implicit Types (m : list (bytes * V)) (k : bytes).

Fixpoint bt_get m k : option V :=
  match m with
  | [] => None
  | (k', v) :: m' =>
      match bytes_cmp k k' with Eq => Some v | Lt => None | Gt => bt_get m' k end
  end.

Fixpoint bt_insert m k (v : V) : list (bytes * V) :=
  match m with
  | [] => [(k, v)]
  | (k', v') :: m' =>
      match bytes_cmp k k' with
      | Lt => (k, v) :: m
      | Eq => (k, v) :: m'
      | Gt => (k', v') :: bt_insert m' k v
      end
  end.

Fixpoint bt_remove m k : list (bytes * V) :=
  match m with
  | [] => []
  | (k', v') :: m' =>
      match bytes_cmp k k' with
      | Lt => m
      | Eq => m'
      | Gt => (k', v') :: bt_remove m' k
      end
  end.

(** [BTreeMap::extend] and [collect]: insertion of each pair in turn. *)
Definition bt_extend m (l : list (bytes * V)) : list (bytes * V) :=
  fold_left (λ m kv, bt_insert m kv.1 kv.2) l m.
Definition bt_collect (l : list (bytes * V)) : list (bytes * V) := bt_extend [] l.

(** The representation invariant: keys strictly increasing. *)
Definition bt_sorted m : Prop := StronglySorted blt (m.*1).

Definition bt_contains m k : bool :=
  match bt_get m k with Some _ => true | None => false end.

Lemma bt_sorted_nil : bt_sorted [].
Proof. constructor. Qed.

Lemma bt_sorted_cons k v m :
  bt_sorted ((k, v) :: m) ↔ bt_sorted m ∧ Forall (blt k) (m.*1).
Proof.
  unfold bt_sorted; simpl. split.
  - inversion 1; auto.
  - intros []; by constructor.
Qed.

Lemma bt_insert_keys m k v j : j ∈ (bt_insert m k v).*1 ↔ j = k ∨ j ∈ m.*1.
Proof.
  induction m as [|[k' v'] m IH]; simpl; [set_solver|].
  destruct (bytes_cmp k k') eqn:E; simpl; [|set_solver|set_solver].
  apply bytes_cmp_eq in E as ->. set_solver.
Qed.

Lemma bt_remove_keys m k j : j ∈ (bt_remove m k).*1 → j ∈ m.*1.
Proof.
  induction m as [|[k' v'] m IH]; simpl; [done|].
  destruct (bytes_cmp k k'); set_solver.
Qed.

Lemma bt_sorted_insert m k v : bt_sorted m → bt_sorted (bt_insert m k v).
Proof.
  induction m as [|[k' v'] m IH]; simpl; intros Hs.
  { apply bt_sorted_cons. split; [done|constructor]. }
  pose proof Hs as [Hm Hk]%bt_sorted_cons.
  destruct (bytes_cmp k k') eqn:E.
  - apply bytes_cmp_eq in E as ->. by apply bt_sorted_cons.
  - apply bt_sorted_cons; split; [done|]. simpl. constructor; [done|].
    eapply Forall_impl; [exact Hk|]. intros j ?. by transitivity k'.
  - apply bt_sorted_cons; split; [auto|]. apply Forall_forall.
    intros j [->|Hj]%bt_insert_keys; [by apply bytes_cmp_gt|].
    by eapply Forall_forall in Hk.
Qed.

Lemma bt_sorted_remove m k : bt_sorted m → bt_sorted (bt_remove m k).
Proof.
  induction m as [|[k' v'] m IH]; simpl; intros Hs; [done|].
  pose proof Hs as [Hm Hk]%bt_sorted_cons.
  destruct (bytes_cmp k k') eqn:E; [done|done|].
  apply bt_sorted_cons; split; [auto|]. apply Forall_forall.
  intros j Hj%bt_remove_keys. by eapply Forall_forall in Hk.
Qed.

Lemma bt_sorted_extend m l : bt_sorted m → bt_sorted (bt_extend m l).
Proof.
  unfold bt_extend. revert m; induction l; intros m ?; simpl; [done|].
  by apply IHl, bt_sorted_insert.
Qed.

Lemma bt_sorted_collect l : bt_sorted (bt_collect l).
Proof. apply bt_sorted_extend, bt_sorted_nil. Qed.

Lemma bt_get_lt m k : Forall (blt k) (m.*1) → bt_get m k = None.
Proof.
  destruct m as [|[k' v'] m]; simpl; [done|].
  inversion 1 as [|?? Hk _]; subst. by rewrite Hk.
Qed.

Lemma bt_get_insert m k v j :
  bt_sorted m → bt_get (bt_insert m k v) j = if decide (j = k) then Some v else bt_get m j.
Proof.
  induction m as [|[k' v'] m IH]; simpl; intros Hs.
  { case_decide; subst; [by rewrite bytes_cmp_refl|].
    destruct (bytes_cmp j k) eqn:E; [|done..]. by apply bytes_cmp_eq in E. }
  apply bt_sorted_cons in Hs as [Hm Hk]. destruct (bytes_cmp k k') eqn:E; simpl.
  - apply bytes_cmp_eq in E as ->. case_decide; subst; [by rewrite bytes_cmp_refl|].
    destruct (bytes_cmp j k') eqn:E; [|done..]. by apply bytes_cmp_eq in E.
  - case_decide; subst; [by rewrite bytes_cmp_refl|].
    destruct (bytes_cmp j k) eqn:E'.
    + by apply bytes_cmp_eq in E'.
    + assert (blt j k') as -> by (by transitivity k). done.
    + done.
  - rewrite IH by done. case_decide; subst; [by rewrite E|done].
Qed.

Lemma bt_get_insert_eq m k v : bt_sorted m → bt_get (bt_insert m k v) k = Some v.
Proof. intros. rewrite bt_get_insert by done. by case_decide. Qed.

Lemma bt_get_insert_ne m k v j :
  bt_sorted m → j ≠ k → bt_get (bt_insert m k v) j = bt_get m j.
Proof. intros. rewrite bt_get_insert by done. by case_decide. Qed.

Lemma bt_get_remove m k j :
  bt_sorted m → bt_get (bt_remove m k) j = if decide (j = k) then None else bt_get m j.
Proof.
  induction m as [|[k' v'] m IH]; simpl; intros Hs; [by case_decide|].
  apply bt_sorted_cons in Hs as [Hm Hk]. destruct (bytes_cmp k k') eqn:E; simpl.
  - apply bytes_cmp_eq in E as ->. case_decide; subst; [by apply bt_get_lt|].
    destruct (bytes_cmp j k') eqn:E; [|by apply bt_get_lt; eapply Forall_impl; [exact Hk|]; intros ? ?; by transitivity k'|done].
    by apply bytes_cmp_eq in E.
  - case_decide; subst; [by rewrite E|done].
  - rewrite IH by done. case_decide; subst; [by rewrite E|done].
Qed.

Lemma bt_elem_get m k v : bt_sorted m → (k, v) ∈ m ↔ bt_get m k = Some v.
Proof.
  induction m as [|[k' v'] m IH]; simpl; intros Hs; [set_solver|].
  apply bt_sorted_cons in Hs as [Hm Hk]. rewrite elem_of_cons, IH by done.
  destruct (bytes_cmp k k') eqn:E.
  - apply bytes_cmp_eq in E as ->. rewrite bt_get_lt by done. naive_solver.
  - rewrite bt_get_lt; [|eapply Forall_impl; [exact Hk|]; intros ??; by transitivity k'].
    split; [|done]. intros [[= -> ->]|]; [|done]. by rewrite bytes_cmp_refl in E.
  - split; [|auto]. intros [[= -> ->]|]; [|done]. by rewrite bytes_cmp_refl in E.
Qed.

Lemma bt_get_None m k : bt_sorted m → bt_get m k = None ↔ k ∉ m.*1.
Proof.
  intros Hs. split.
  - intros Hn ([k' v] & -> & Hin)%list_elem_of_fmap. apply bt_elem_get in Hin; simplify_eq/=; congruence.
  - intros Hn. destruct (bt_get m k) as [v|] eqn:E; [|done].
    apply bt_elem_get in E; [|done]. destruct Hn. apply list_elem_of_fmap. by exists (k, v).
Qed.

(** Two well-formed maps with the same lookups are the same list. *)
Lemma bt_ext m1 m2 :
  bt_sorted m1 → bt_sorted m2 → (∀ k, bt_get m1 k = bt_get m2 k) → m1 = m2.
Proof.
  revert m2; induction m1 as [|[k1 v1] m1 IH]; intros [|[k2 v2] m2] H1 H2 Hext; [done|..].
  - specialize (Hext k2). simpl in Hext. by rewrite bytes_cmp_refl in Hext.
  - specialize (Hext k1). simpl in Hext. by rewrite bytes_cmp_refl in Hext.
  - apply bt_sorted_cons in H1 as [H1 Hk1], H2 as [H2 Hk2].
    assert (k1 = k2) as ->.
    { destruct (blt_total k1 k2) as [Hlt|[?|Hlt]]; [|done|].
      - pose proof (Hext k1) as E. simpl in E. by rewrite bytes_cmp_refl, Hlt in E.
      - pose proof (Hext k2) as E. simpl in E. by rewrite bytes_cmp_refl, Hlt in E. }
    pose proof (Hext k2) as E. simpl in E. rewrite bytes_cmp_refl in E. simplify_eq.
    f_equal. apply IH; [done..|]. intros k. specialize (Hext k). simpl in Hext.
    destruct (bytes_cmp k k2) eqn:E; [|..|done].
    + apply bytes_cmp_eq in E as ->. by rewrite !bt_get_lt.
    + rewrite !bt_get_lt; [done|eapply Forall_impl; [first [exact Hk1|exact Hk2]|]; intros ??; by transitivity k2..].
Qed.

Lemma bt_insert_last m k v :
  Forall (λ j, blt j k) (m.*1) → bt_insert m k v = m ++ [(k, v)].
Proof.
  induction m as [|[k' v'] m IH]; simpl; [done|]. inversion 1 as [|?? Hk Hm]; subst.
  apply bytes_cmp_gt in Hk. rewrite Hk. f_equal. auto.
Qed.

Lemma bt_insert_after m k v ks : StronglySorted blt (m.*1 ++ k :: ks) → bt_insert m k v = m ++ [(k, v)].
Proof.
  intros Hs. apply bt_insert_last, Forall_forall. intros j Hj.
  eapply StronglySorted_app_1_elem_of; [exact Hs|exact Hj|]. set_solver.
Qed.

Lemma bt_extend_app m l : bt_sorted (m ++ l) → bt_extend m l = m ++ l.
Proof.
  revert m; induction l as [|[k v] l IH]; intros m Hs; unfold bt_extend; simpl.
  { by rewrite app_nil_r. }
  rewrite (bt_insert_after _ _ _ (l.*1)).
  - rewrite (cons_middle _ m l), app_assoc in *. by apply IH.
  - unfold bt_sorted in Hs. by rewrite fmap_app in Hs.
Qed.

(** Collecting entries that already are in key order gives them back. *)
Lemma bt_collect_sorted l : bt_sorted l → bt_collect l = l.
Proof. intros. unfold bt_collect. by rewrite bt_extend_app. Qed.

Lemma bt_remove_absent m k : bt_sorted m → bt_get m k = None → bt_remove m k = m.
Proof.
  intros Hs Hn. apply bt_ext; [by apply bt_sorted_remove|done|].
  intros j. rewrite bt_get_remove by done. case_decide; by subst.
Qed.

Lemma bt_insert_present m k v : bt_sorted m → bt_get m k = Some v → bt_insert m k v = m.
Proof.
  intros Hs Hn. apply bt_ext; [by apply bt_sorted_insert|done|].
  intros j. rewrite bt_get_insert by done. case_decide; by subst.
Qed.

Lemma bt_insert_insert m k v w :
  bt_sorted m → bt_insert (bt_insert m k v) k w = bt_insert m k w.
Proof.
  intros Hs. apply bt_ext; [by repeat apply bt_sorted_insert|by apply bt_sorted_insert|].
  intros j. rewrite !bt_get_insert by (try apply bt_sorted_insert; done). by case_decide.
Qed.

End btree.

#[export] Hint Resolve bt_sorted_nil bt_sorted_insert bt_sorted_remove bt_sorted_collect : arbor.

Lemma bt_sorted_fmap {V W} (f : V → W) (m : list (bytes * V)) :
  bt_sorted m → bt_sorted (map (λ kv, (kv.1, f kv.2)) m).
Proof.
  unfold bt_sorted. by replace (map (λ kv, (kv.1, f kv.2)) m).*1 with m.*1
    by (rewrite <- list_fmap_compose; done).
Qed.

Lemma bt_get_fmap {V W} (f : V → W) (m : list (bytes * V)) k :
  bt_get (map (λ kv, (kv.1, f kv.2)) m) k = f <$> bt_get m k.
Proof. induction m as [|[k' v] m IH]; simpl; [done|]. destruct (bytes_cmp k k'); done. Qed.

(** ** Binary search

    The loop [while lo < hi { let mid = lo + (hi - lo) / 2; match cmp(mid) ... }]
    of [ArchivedNode::get] and [ArchivedDir::get]; [probe mid] compares entry
    [mid]'s name with the needle. *)
Fixpoint bsearch (fuel : nat) (probe : Z → res comparison) (lo hi : Z) : res (option Z) :=
  if lo <? hi then
    match fuel with
    | O => OutOfFuel
    | S fuel =>
        let mid := lo + (hi - lo) / 2 in
        let? c := probe mid in
        match c with
        | Lt => bsearch fuel probe (mid + 1) hi
        | Gt => bsearch fuel probe lo mid
        | Eq => Ok (Some mid)
        end
    end
  else Ok None.

(** A table of fewer than [2^32] entries is searched in at most 32 probes. *)
Definition bsearch_fuel : nat := 32.

Lemma bsearch_safe fuel probe lo hi :
  0 ≤ lo → hi - lo < 2 ^ Z.of_nat fuel → (∀ i, lo ≤ i < hi → safe (probe i)) →
  safe (bsearch fuel probe lo hi).
Proof.
  revert lo hi; induction fuel as [|fuel IH]; intros lo hi Hlo Hf Hp; simpl;
    destruct (Z.ltb_spec lo hi); simpl; try done.
  - change (2 ^ Z.of_nat 0) with 1 in Hf. lia.
  - rewrite Nat2Z.inj_succ, Z.pow_succ_r in Hf by lia.
    pose proof (Z.div_mod (hi - lo) 2 ltac:(lia)).
    pose proof (Z.mod_pos_bound (hi - lo) 2 ltac:(lia)).
    apply safe_rbind; [apply Hp; lia|]. intros [] _; [done|apply IH|apply IH];
      try lia; intros; apply Hp; lia.
Qed.

Section bsearch_spec.
Context (ks : list bytes) (needle : bytes) (probe : Z → res comparison).
Hypothesis Hsorted : StronglySorted blt ks.
Hypothesis Hprobe : ∀ i k, ks !! i = Some k → probe (Z.of_nat i) = Ok (bytes_cmp k needle).

Lemma sorted_lookup_lt i j a b :
  ks !! i = Some a → ks !! j = Some b → (i < j)%nat → blt a b.
Proof using Hsorted.
  clear Hprobe. revert i j. induction Hsorted as [|k ks' Hs IH Hall]; intros i j Hi Hj Hij; [done|].
  destruct j as [|j]; [lia|]. destruct i as [|i]; simplify_eq/=.
  - eapply Forall_lookup_1 in Hall; eauto.
  - eapply IH; eauto. lia.
Qed.

Lemma bsearch_spec fuel lo hi :
  0 ≤ lo → hi ≤ Z.of_nat (length ks) → hi - lo < 2 ^ Z.of_nat fuel →
  (∀ i k, ks !! i = Some k → k = needle → lo ≤ Z.of_nat i < hi) →
  (∃ i, ks !! i = Some needle ∧ bsearch fuel probe lo hi = Ok (Some (Z.of_nat i))) ∨
  (needle ∉ ks ∧ bsearch fuel probe lo hi = Ok None).
Proof using Hsorted Hprobe.
  revert lo hi; induction fuel as [|fuel IH]; intros lo hi Hlo Hhi Hf Hin; simpl;
    (destruct (Z.ltb_spec lo hi) as [Hlt|Hge];
       [|right; split; [|done]; intros [i Hi]%list_elem_of_lookup; specialize (Hin _ _ Hi eq_refl); lia]).
  { change (2 ^ Z.of_nat 0) with 1 in Hf. lia. }
  rewrite Nat2Z.inj_succ, Z.pow_succ_r in Hf by lia.
  pose proof (Z.div_mod (hi - lo) 2 ltac:(lia)).
  pose proof (Z.mod_pos_bound (hi - lo) 2 ltac:(lia)).
  set (mid := lo + (hi - lo) / 2) in *.
  destruct (lookup_lt_is_Some_2 ks (Z.to_nat mid)) as [k Hk]; [lia|].
  assert (probe mid = Ok (bytes_cmp k needle)) as -> by
    (rewrite <- (Hprobe _ _ Hk); f_equal; lia). simpl.
  destruct (bytes_cmp k needle) eqn:E.
  - apply bytes_cmp_eq in E as ->. left. exists (Z.to_nat mid). split; [done|].
    do 2 f_equal; lia.
  - apply IH; [lia..|]. intros i k' Hi ->. specialize (Hin _ _ Hi eq_refl).
    assert (¬ (Z.of_nat i < mid + 1)); [|lia]. intros Hc.
    destruct (decide (i = Z.to_nat mid)) as [->|]; [simplify_eq; by apply blt_irreflexive in E|].
    assert (blt needle k) as Hx by (eapply sorted_lookup_lt; eauto; lia).
    by apply (blt_asym _ _ E).
  - apply bytes_cmp_gt in E. apply IH; [lia..|]. intros i k' Hi ->. specialize (Hin _ _ Hi eq_refl).
    assert (¬ (mid ≤ Z.of_nat i)); [|lia]. intros Hc.
    destruct (decide (i = Z.to_nat mid)) as [->|]; [simplify_eq; by apply blt_irreflexive in E|].
    assert (blt k needle) as Hx by (eapply sorted_lookup_lt; eauto; lia).
    by apply (blt_asym _ _ E).
Qed.
End bsearch_spec.
