(* ===== verification/Codec.v ===== *)
(** * The low-level codec

    [codec/putters.rs], [codec/read.rs], [codec/reader.rs]: the byte writers, the
    bounded random-access reads and the forward-only cursor every encoder and
    decoder of the database is built on, and the UTF-8 check of the Rust
    standard library ([std::str::from_utf8]). *)
From S2P Require Import Prelude.

(** ** UTF-8 *)

Definition in_range (lo hi b : Z) : bool := (lo <=? b) && (b <=? hi).
Definition utf8_cont (b : Z) : bool := in_range 128 191 b.

(** Well-formed UTF-8 byte sequences (Unicode 15, table 3-7). *)
Fixpoint utf8_valid (bs : bytes) : bool :=
  match bs with
  | [] => true
  | b0 :: r0 =>
      if in_range 0 127 b0 then utf8_valid r0
      else match r0 with
      | [] => false
      | b1 :: r1 =>
          if in_range 194 223 b0 then utf8_cont b1 && utf8_valid r1
          else match r1 with
          | [] => false
          | b2 :: r2 =>
              if b0 =? 224 then in_range 160 191 b1 && utf8_cont b2 && utf8_valid r2
              else if b0 =? 237 then in_range 128 159 b1 && utf8_cont b2 && utf8_valid r2
              else if in_range 225 239 b0 then utf8_cont b1 && utf8_cont b2 && utf8_valid r2
              else match r2 with
              | [] => false
              | b3 :: r3 =>
                  (if b0 =? 240 then in_range 144 191 b1
                   else if in_range 241 243 b0 then utf8_cont b1
                   else if b0 =? 244 then in_range 128 143 b1
                   else false)
                  && utf8_cont b2 && utf8_cont b3 && utf8_valid r3
              end
          end
      end
  end.

Definition from_utf8 (bs : bytes) (e : AdbError) : res bytes :=
  if utf8_valid bs then Ok bs else Err e.

(** ** Putters *)

Definition put_u32 (buf : bytes) (v : Z) : bytes := buf ++ to_be 4 v.

Definition put_bytes (buf bs : bytes) : bytes := put_u32 buf (as_u32 (blen bs)) ++ bs.

(** ** Bounded random-access reads *)

(** [blob.get(off..end)], after the overflow check on [off + len]. *)
Definition slice (blob : bytes) (off len : Z) : res bytes :=
  if USIZE_MAX <? off + len then Err (Corrupt "offset overflow in blob")
  else if off + len <=? blen blob
       then Ok (take (Z.to_nat len) (drop (Z.to_nat off) blob))
       else Err (Corrupt "blob is truncated").

Definition read_u8 (blob : bytes) (off : Z) : res Z :=
  let? bs := slice blob off 1 in
  match bs with b :: _ => Ok b | [] => Panic end.

Definition read_u32 (blob : bytes) (off : Z) : res Z :=
  let? bs := slice blob off 4 in Ok (of_be bs).

(** ** The cursor *)

Record Reader : Type := mkReader { r_buf : bytes; r_pos : Z }.

Definition Reader_new (buf : bytes) : Reader := mkReader buf 0.

Definition Reader_take (n : Z) (r : Reader) : res (bytes * Reader) :=
  let stop := r_pos r + n in
  if USIZE_MAX <? stop then Err (Corrupt "length overflow while decoding")
  else if blen (r_buf r) <? stop then Err (Corrupt "unexpected end of buffer while decoding")
  else Ok (take (Z.to_nat n) (drop (Z.to_nat (r_pos r)) (r_buf r)), mkReader (r_buf r) stop).

Definition Reader_u8 (r : Reader) : res (Z * Reader) :=
  let? '(bs, r) := Reader_take 1 r in
  match bs with b :: _ => Ok (b, r) | [] => Panic end.

Definition Reader_u32 (r : Reader) : res (Z * Reader) :=
  let? '(bs, r) := Reader_take 4 r in Ok (of_be bs, r).

Definition Reader_u64 (r : Reader) : res (Z * Reader) :=
  let? '(bs, r) := Reader_take 8 r in Ok (of_be bs, r).

Definition Reader_array (n : Z) (r : Reader) : res (bytes * Reader) := Reader_take n r.

Definition Reader_bytes (r : Reader) : res (bytes * Reader) :=
  let? '(n, r) := Reader_u32 r in Reader_take n r.

Definition Reader_position (r : Reader) : Z := r_pos r.

(** ** Lemmas: slices *)

Lemma take_drop_middle_app {A} (pre mid post : list A) :
  take (length mid) (drop (length pre) (pre ++ mid ++ post)) = mid.
Proof. by rewrite drop_app_length, take_app_length. Qed.

Lemma slice_app pre mid post off len :
  blen (pre ++ mid ++ post) ≤ USIZE_MAX → off = blen pre → len = blen mid →
  slice (pre ++ mid ++ post) off len = Ok mid.
Proof.
  intros Hb -> ->. unfold slice. rewrite !blen_app in *.
  pose proof (blen_nonneg post).
  destruct (Z.ltb_spec USIZE_MAX (blen pre + blen mid)); [lia|].
  destruct (Z.leb_spec (blen pre + blen mid) (blen pre + (blen mid + blen post))); [|lia].
  unfold blen. rewrite !Nat2Z.id. by rewrite take_drop_middle_app.
Qed.

Lemma slice_Ok blob off len bs :
  0 ≤ off → 0 ≤ len → slice blob off len = Ok bs → blen bs = len ∧ off + len ≤ blen blob.
Proof.
  unfold slice. intros ??. destruct (Z.ltb_spec USIZE_MAX (off + len)); [done|].
  destruct (Z.leb_spec (off + len) (blen blob)); [|done]. intros [= <-]. split; [|done].
  unfold blen in *. rewrite length_take, length_drop. lia.
Qed.

Lemma slice_safe blob off len : safe (slice blob off len).
Proof. unfold slice. by repeat case_match. Qed.

Lemma read_u8_safe blob off : 0 ≤ off → safe (read_u8 blob off).
Proof.
  intros. apply safe_rbind; [apply slice_safe|]. intros bs Hs.
  apply slice_Ok in Hs as [Hl _]; [|lia..]. destruct bs; [by compute in Hl|done].
Qed.

Lemma read_u32_safe blob off : safe (read_u32 blob off).
Proof. apply safe_rbind; [apply slice_safe|done]. Qed.
#[export] Hint Resolve slice_safe read_u8_safe read_u32_safe : arbor.

Lemma read_u8_app pre b post off :
  blen (pre ++ b :: post) ≤ USIZE_MAX → off = blen pre →
  read_u8 (pre ++ b :: post) off = Ok b.
Proof.
  intros Hb ->. unfold read_u8. change (b :: post) with ([b] ++ post) in *.
  by rewrite slice_app.
Qed.

Lemma read_u32_app pre v post off :
  blen (pre ++ to_be 4 v ++ post) ≤ USIZE_MAX → off = blen pre → unsigned_ok 32 v →
  read_u32 (pre ++ to_be 4 v ++ post) off = Ok v.
Proof.
  intros Hb -> Hv. unfold read_u32. rewrite slice_app by (rewrite ?blen_to_be; done).
  simpl rbind. by rewrite of_be_to_be_id.
Qed.

Lemma read_u32_bound blob off v :
  bytes_ok blob → 0 ≤ off → read_u32 blob off = Ok v → unsigned_ok 32 v.
Proof.
  unfold read_u32, slice. intros Hb Hoff.
  destruct (Z.ltb_spec USIZE_MAX (off + 4)); [done|].
  destruct (Z.leb_spec (off + 4) (blen blob)); [|done]. simpl rbind.
  set (s := take _ _). intros [= <-].
  assert (bytes_ok s) as Hs by (apply Forall_take, Forall_drop, Hb).
  assert (blen s = 4) as Hl.
  { unfold s, blen in *. rewrite length_take, length_drop. lia. }
  apply of_be_bound in Hs. by rewrite Hl in Hs.
Qed.

(** ** Lemmas: the cursor

    [reads f enc x]: started at [enc], wherever it sits in a buffer, the reader
    [f] returns [x] and stops right after [enc]. *)
Definition reads {A} (f : Reader → res (A * Reader)) (enc : bytes) (x : A) : Prop :=
  ∀ pre post, blen (pre ++ enc ++ post) ≤ USIZE_MAX →
    f (mkReader (pre ++ enc ++ post) (blen pre)) =
      Ok (x, mkReader (pre ++ enc ++ post) (blen pre + blen enc)).

Lemma reads_ret {A} (x : A) : reads (λ r, Ok (x, r)) [] x.
Proof. intros pre post _. by rewrite blen_nil, Z.add_0_r. Qed.

Lemma reads_bind {A B} (f : Reader → res (A * Reader)) (g : A → Reader → res (B * Reader)) e1 e2 x y :
  reads f e1 x → reads (g x) e2 y →
  reads (λ r, let? '(x, r) := f r in g x r) (e1 ++ e2) y.
Proof.
  intros Hf Hg pre post Hb.
  specialize (Hf pre (e2 ++ post)). specialize (Hg (pre ++ e1) post).
  rewrite <- !app_assoc in *. rewrite Hf by done. simpl.
  rewrite (blen_app pre e1) in Hg. rewrite Hg by done. rewrite (blen_app e1 e2).
  do 3 f_equal. lia.
Qed.

Lemma reads_take bs n : n = blen bs → reads (Reader_take n) bs bs.
Proof.
  intros -> pre post Hb. unfold Reader_take; simpl.
  pose proof (blen_nonneg post). rewrite !blen_app in *.
  destruct (Z.ltb_spec USIZE_MAX (blen pre + blen bs)); [lia|].
  destruct (Z.ltb_spec (blen pre + (blen bs + blen post)) (blen pre + blen bs)); [lia|].
  unfold blen at 1 2. rewrite !Nat2Z.id. by rewrite take_drop_middle_app.
Qed.

Lemma reads_array bs n : n = blen bs → reads (Reader_array n) bs bs.
Proof. apply reads_take. Qed.

Lemma reads_u8 b : reads Reader_u8 [b] b.
Proof. intros pre post Hb. unfold Reader_u8. by rewrite (reads_take [b]). Qed.

Lemma reads_u32 v : unsigned_ok 32 v → reads Reader_u32 (to_be 4 v) v.
Proof.
  intros Hv pre post Hb. unfold Reader_u32.
  rewrite (reads_take (to_be 4 v)) by (rewrite ?blen_to_be; done).
  simpl rbind. by rewrite of_be_to_be_id.
Qed.

Lemma reads_u64 v : unsigned_ok 64 v → reads Reader_u64 (to_be 8 v) v.
Proof.
  intros Hv pre post Hb. unfold Reader_u64.
  rewrite (reads_take (to_be 8 v)) by (rewrite ?blen_to_be; done).
  simpl rbind. by rewrite of_be_to_be_id.
Qed.

Lemma as_u32_small v : 0 ≤ v < 2 ^ 32 → as_u32 v = v.
Proof. apply Z.mod_small. Qed.

Lemma put_bytes_eq buf bs :
  blen bs < 2 ^ 32 → put_bytes buf bs = buf ++ (to_be 4 (blen bs) ++ bs).
Proof.
  intros. unfold put_bytes, put_u32. rewrite as_u32_small by (pose proof (blen_nonneg bs); lia).
  by rewrite app_assoc.
Qed.

Lemma reads_bytes bs : blen bs < 2 ^ 32 → reads Reader_bytes (to_be 4 (blen bs) ++ bs) bs.
Proof.
  intros. apply reads_bind with (x := blen bs).
  - apply reads_u32. pose proof (blen_nonneg bs). split; [done|lia].
  - by apply reads_take.
Qed.

(** The wire format of [put_bytes] read back by [Reader_bytes]. *)
Lemma put_bytes_reads buf bs :
  blen bs < 2 ^ 32 → put_bytes buf bs = buf ++ put_bytes [] bs ∧ reads Reader_bytes (put_bytes [] bs) bs.
Proof. intros. rewrite !put_bytes_eq by done. split; [done|]. by apply reads_bytes. Qed.

(** A reader that never panics, whatever the bytes, and never moves backwards. *)
Definition rsafe {A} (f : Reader → res (A * Reader)) : Prop :=
  ∀ r, 0 ≤ r_pos r → safe (f r) ∧
    ∀ x r', f r = Ok (x, r') → r_buf r' = r_buf r ∧ r_pos r ≤ r_pos r'.

Lemma rsafe_ret {A} (x : A) : rsafe (λ r, Ok (x, r)).
Proof. intros r Hr. split; [done|]. intros ?? [= <- <-]. split; [done|lia]. Qed.

Lemma rsafe_err {A} e : rsafe (λ r, @Err (A * Reader) e).
Proof. intros r Hr. by split. Qed.

Lemma rsafe_lift {A B} (m : res A) (k : A → Reader → res (B * Reader)) :
  safe m → (∀ a, m = Ok a → rsafe (k a)) → rsafe (λ r, let? a := m in k a r).
Proof. intros Hm Hk r Hr. destruct m; simpl in *; try done. by apply Hk. Qed.

Lemma rsafe_bind {A B} (f : Reader → res (A * Reader)) (g : A → Reader → res (B * Reader)) :
  rsafe f → (∀ x, rsafe (g x)) → rsafe (λ r, let? '(x, r) := f r in g x r).
Proof.
  intros Hf Hg r Hr. destruct (Hf r Hr) as [Hs Hm].
  destruct (f r) as [[x r1]|e| |]; simpl in *; try done.
  destruct (Hm _ _ eq_refl) as [E1 P1]. destruct (Hg x r1 ltac:(lia)) as [Hs2 Hm2].
  split; [done|]. intros y r' Hy. destruct (Hm2 _ _ Hy). split; [congruence|lia].
Qed.

Lemma Reader_take_Ok n r bs r' :
  0 ≤ n → 0 ≤ r_pos r → Reader_take n r = Ok (bs, r') →
  blen bs = n ∧ r_buf r' = r_buf r ∧ r_pos r' = r_pos r + n.
Proof.
  unfold Reader_take. intros ??. destruct (Z.ltb_spec USIZE_MAX (r_pos r + n)); [done|].
  destruct (Z.ltb_spec (blen (r_buf r)) (r_pos r + n)); [done|]. intros [= <- <-]. split; [|done].
  unfold blen in *. rewrite length_take, length_drop. lia.
Qed.

Lemma rsafe_take n : 0 ≤ n → rsafe (Reader_take n).
Proof.
  intros Hn r Hr. split.
  - unfold Reader_take. by repeat case_match.
  - intros x r' H. apply Reader_take_Ok in H as (_ & ? & ?); [|done..]. split; [done|lia].
Qed.

Lemma rsafe_u8 : rsafe Reader_u8.
Proof.
  intros r Hr. unfold Reader_u8. destruct (rsafe_take 1 ltac:(lia) r Hr) as [Hs Hm].
  destruct (Reader_take 1 r) as [[bs r1]|e| |] eqn:E; simpl in *; try done.
  apply Reader_take_Ok in E as (Hl & Hb & Hp); [|lia..].
  destruct bs; [by compute in Hl|]. split; [done|]. intros ?? [= <- <-]. split; [done|lia].
Qed.

Lemma rsafe_u32 : rsafe Reader_u32.
Proof. apply rsafe_bind; [by apply rsafe_take|]. intros; apply rsafe_ret. Qed.
Lemma rsafe_u64 : rsafe Reader_u64.
Proof. apply rsafe_bind; [by apply rsafe_take|]. intros; apply rsafe_ret. Qed.
Lemma rsafe_array n : 0 ≤ n → rsafe (Reader_array n).
Proof. apply rsafe_take. Qed.

(** A [u32] read from a buffer of bytes is non-negative, so the length prefix of
    [Reader_bytes] never makes [Reader_take] start before the buffer. *)
Lemma Reader_u32_nonneg r v r' :
  bytes_ok (r_buf r) → Reader_u32 r = Ok (v, r') → 0 ≤ v.
Proof.
  intros Hb. unfold Reader_u32, Reader_take.
  repeat case_match; try done. simpl rbind. intros [= <- <-].
  apply of_be_bound, Forall_take, Forall_drop, Hb.
Qed.
