(* ===== verification/Ext.v ===== *)
(** * Third-party value types

    The scalar types the database takes from other crates ([chrono],
    [num-bigint], [num-rational], [num-bigfloat]) are an interface: [Ext] lists
    the types and the functions the sources call on them, [ExtLaws] their
    documented behaviour.  [ext_model] is one concrete implementation, used to
    evaluate the development on concrete inputs and to show that the laws are
    satisfiable. *)
From S2P Require Import Prelude Codec.

Class Ext : Type := {
  (* chrono *)
  NaiveDate : Type;
  num_days_from_ce : NaiveDate → Z;
  from_num_days_from_ce_opt : Z → option NaiveDate;
  NaiveTime : Type;
  num_seconds_from_midnight : NaiveTime → Z;
  nanosecond : NaiveTime → Z;
  from_num_seconds_from_midnight_opt : Z → Z → option NaiveTime;
  DateTimeUtc : Type;
  dt_date : DateTimeUtc → NaiveDate;
  dt_time : DateTimeUtc → NaiveTime;
  dt_new : NaiveDate → NaiveTime → DateTimeUtc;
  TimeDelta : Type;
  td_num_seconds : TimeDelta → Z;
  td_subsec_nanos : TimeDelta → Z;
  (** [TimeDelta::seconds] and [+]; [None] is a panic. *)
  td_seconds : Z → option TimeDelta;
  td_nanoseconds : Z → TimeDelta;
  td_add : TimeDelta → TimeDelta → option TimeDelta;
  (* num-bigint: a [BigInt] is represented by the integer it denotes *)
  to_signed_bytes_be : Z → bytes;
  from_signed_bytes_be : bytes → Z;
  (** [magnitude().to_bytes_be()] *)
  mag_to_bytes_be : Z → bytes;
  (* num-rational *)
  BigRational : Type;
  numer : BigRational → Z;
  denom : BigRational → Z;
  (** [Ratio::new]; [None] is the panic on a zero denominator. *)
  rational_new : Z → Z → option BigRational;
  (* num-bigfloat *)
  BigFloat : Type;
  FLOAT_ZERO : BigFloat;
  FLOAT_NAN : BigFloat;
  INF_POS : BigFloat;
  INF_NEG : BigFloat;
  is_nan : BigFloat → bool;
  is_inf_pos : BigFloat → bool;
  is_inf_neg : BigFloat → bool;
  is_zero : BigFloat → bool;
  is_negative : BigFloat → bool;
  get_exponent : BigFloat → Z;
  (** [get_mantissa_bytes] into a buffer of [get_mantissa_len] bytes *)
  get_mantissa_bytes : BigFloat → bytes;
  bigfloat_from_bytes : bytes → Z → Z → BigFloat
}.

(** [TimeDelta]'s documented bound: at most [i64::MAX / 1000] seconds. *)
Definition TD_MAX_SECS : Z := 9223372036854775.

Class ExtLaws `{Ext} : Prop := {
  date_bound d : signed_ok 32 (num_days_from_ce d);
  date_inv d : from_num_days_from_ce_opt (num_days_from_ce d) = Some d;
  time_bound t : unsigned_ok 32 (num_seconds_from_midnight t) ∧ unsigned_ok 32 (nanosecond t);
  time_inv t :
    from_num_seconds_from_midnight_opt (num_seconds_from_midnight t) (nanosecond t) = Some t;
  dt_inv d : dt_new (dt_date d) (dt_time d) = d;
  td_bound d :
    - TD_MAX_SECS ≤ td_num_seconds d ≤ TD_MAX_SECS ∧ - 10 ^ 9 < td_subsec_nanos d < 10 ^ 9;
  (** seconds and sub-second part carry the same sign *)
  td_sign d :
    (0 ≤ td_num_seconds d ∧ 0 ≤ td_subsec_nanos d) ∨
    (td_num_seconds d ≤ 0 ∧ td_subsec_nanos d ≤ 0);
  td_inv d : ∃ s, td_seconds (td_num_seconds d) = Some s ∧
                  td_add s (td_nanoseconds (td_subsec_nanos d)) = Some d;
  td_seconds_panics s : td_seconds s = None ↔ ¬ (- TD_MAX_SECS ≤ s ≤ TD_MAX_SECS);
  bigint_bytes_ok z : bytes_ok (to_signed_bytes_be z);
  bigint_inv z : from_signed_bytes_be (to_signed_bytes_be z) = z;
  mag_bytes_ok z : bytes_ok (mag_to_bytes_be z);
  (** big-endian, without a leading zero byte *)
  mag_value z : z ≠ 0 → of_be (mag_to_bytes_be z) = Z.abs z;
  mag_minimal z : z ≠ 0 → ∃ b bs, mag_to_bytes_be z = b :: bs ∧ 0 < b;
  rational_lowest r : 0 < denom r ∧ Z.gcd (numer r) (denom r) = 1;
  rational_inv r : rational_new (numer r) (denom r) = Some r;
  rational_panics n d : rational_new n d = None ↔ d = 0;
  exponent_bound v : signed_ok 8 (get_exponent v);
  mantissa_bytes v : bytes_ok (get_mantissa_bytes v) ∧ blen (get_mantissa_bytes v) ≤ 40;
  nan_inv v : is_nan v = true → v = FLOAT_NAN;
  inf_pos_inv v : is_inf_pos v = true → v = INF_POS;
  inf_neg_inv v : is_inf_neg v = true → v = INF_NEG;
  zero_inv v : is_nan v = false → is_zero v = true → v = FLOAT_ZERO;
  bigfloat_inv v :
    is_nan v = false → is_inf_pos v = false → is_inf_neg v = false → is_zero v = false →
    bigfloat_from_bytes (get_mantissa_bytes v) (if is_negative v then -1 else 1)
      (get_exponent v) = v
}.

(** ** A model of the interface *)
Module ExtModel.

(** Minimal big-endian widths. *)
Definition nbytes (z : Z) : nat := Z.to_nat (Z.log2 z / 8 + 1).
Definition mag (z : Z) : bytes := to_be (nbytes (Z.abs z)) (Z.abs z).
Definition signed_width (z : Z) : nat := S (nbytes (Z.abs z)).
Definition signed_be (z : Z) : bytes := to_be (signed_width z) z.
Definition of_signed_be (bs : bytes) : Z := to_signed (8 * blen bs) (of_be bs).

Inductive bigfloat : Type :=
| BNan | BPosInf | BNegInf | BZero
| BFinite (neg : bool) (e : dsig (signed_ok 8)) (m : dsig (λ m : bytes, bytes_ok m ∧ blen m ≤ 40)).

Definition bf_exponent (v : bigfloat) : Z := match v with BFinite _ e _ => proj1_sig e | _ => 0 end.
Definition bf_mantissa (v : bigfloat) : bytes := match v with BFinite _ _ m => proj1_sig m | _ => [] end.

Definition bf_from_bytes (m : bytes) (sign e : Z) : bigfloat :=
  match decide (signed_ok 8 e), decide (bytes_ok m ∧ blen m ≤ 40) with
  | left He, left Hm => BFinite (sign <? 0) (dexist e He) (dexist m Hm)
  | _, _ => BZero
  end.

Definition lowest (nd : Z * Z) : Prop := 0 < nd.2 ∧ Z.gcd nd.1 nd.2 = 1.

Definition td_ok (n : Z) : Prop := Z.abs n ≤ TD_MAX_SECS * 10 ^ 9.
#[export] Instance td_ok_dec n : Decision (td_ok n).
Proof. unfold td_ok; apply _. Defined.
#[export] Instance lowest_dec nd : Decision (lowest nd).
Proof. unfold lowest; apply _. Defined.

Definition mk {A} (P : A → Prop) `{∀ x, Decision (P x)} (x : A) : option (dsig P) :=
  match decide (P x) with left H => Some (dexist x H) | right _ => None end.

Definition reduce (n d : Z) : Z * Z :=
  let g := Z.gcd n d in (Z.sgn d * (n / g), Z.sgn d * (d / g)).

Definition time_ok (t : Z * Z) : Prop :=
  0 ≤ t.1 < 86400 ∧ 0 ≤ t.2 < 2 * 10 ^ 9 ∧ (t.2 < 10 ^ 9 ∨ t.1 mod 60 = 59).
#[export] Instance time_ok_dec t : Decision (time_ok t).
Proof. unfold time_ok; apply _. Defined.

Lemma td_ok_0 : td_ok 0.
Proof. unfold td_ok, TD_MAX_SECS. lia. Qed.

Lemma lowest_one : lowest (0, 1).
Proof. split; done. Qed.

#[export] Instance ext_model : Ext := {|
  NaiveDate := dsig (signed_ok 32);
  num_days_from_ce d := proj1_sig d;
  from_num_days_from_ce_opt z := mk (signed_ok 32) z;
  NaiveTime := dsig time_ok;
  num_seconds_from_midnight t := (proj1_sig t).1;
  nanosecond t := (proj1_sig t).2;
  from_num_seconds_from_midnight_opt s n := mk time_ok (s, n);
  DateTimeUtc := dsig (signed_ok 32) * dsig time_ok;
  dt_date := fst;
  dt_time := snd;
  dt_new d t := (d, t);
  TimeDelta := dsig td_ok;
  td_num_seconds d := Z.quot (proj1_sig d) (10 ^ 9);
  td_subsec_nanos d := Z.rem (proj1_sig d) (10 ^ 9);
  td_seconds s := mk td_ok (s * 10 ^ 9);
  td_nanoseconds n := match mk td_ok n with Some d => d | None => dexist 0 td_ok_0 end;
  td_add a b := mk td_ok (proj1_sig a + proj1_sig b);
  to_signed_bytes_be := signed_be;
  from_signed_bytes_be := of_signed_be;
  mag_to_bytes_be := mag;
  BigRational := dsig lowest;
  numer r := (proj1_sig r).1;
  denom r := (proj1_sig r).2;
  rational_new n d :=
    if d =? 0 then None
    else Some (match mk lowest (reduce n d) with Some r => r | None => dexist (0, 1) lowest_one end);
  BigFloat := bigfloat;
  FLOAT_ZERO := BZero;
  FLOAT_NAN := BNan;
  INF_POS := BPosInf;
  INF_NEG := BNegInf;
  is_nan v := match v with BNan => true | _ => false end;
  is_inf_pos v := match v with BPosInf => true | _ => false end;
  is_inf_neg v := match v with BNegInf => true | _ => false end;
  is_zero v := match v with BZero => true | _ => false end;
  is_negative v := match v with BNegInf => true | BFinite neg _ _ => neg | _ => false end;
  get_exponent := bf_exponent;
  get_mantissa_bytes := bf_mantissa;
  bigfloat_from_bytes := bf_from_bytes
|}.

Lemma mk_proj {A} (P : A → Prop) `{∀ x, Decision (P x)} (d : dsig P) :
  mk P (proj1_sig d) = Some d.
Proof.
  unfold mk. destruct (decide _) as [H'|[]]; [|by apply proj2_dsig].
  f_equal. by apply dsig_eq.
Qed.

Lemma nbytes_bound z : 0 < z → 256 ^ (Z.of_nat (nbytes z) - 1) ≤ z < 256 ^ Z.of_nat (nbytes z).
Proof.
  intros Hz. unfold nbytes. pose proof (Z.log2_nonneg z).
  pose proof (Z.log2_spec z Hz) as [Hlo Hhi].
  pose proof (Z.div_mod (Z.log2 z) 8 ltac:(lia)).
  pose proof (Z.mod_pos_bound (Z.log2 z) 8 ltac:(lia)).
  rewrite Z2Nat.id by lia. change 256 with (2 ^ 8). rewrite <- !Z.pow_mul_r by lia. split.
  - etransitivity; [|exact Hlo]. apply Z.pow_le_mono_r; lia.
  - eapply Z.lt_le_trans; [exact Hhi|]. apply Z.pow_le_mono_r; lia.
Qed.

Lemma signed_be_inv z : of_signed_be (signed_be z) = z.
Proof.
  unfold of_signed_be, signed_be. rewrite blen_to_be.
  apply to_signed_be; [unfold signed_width; lia|]. unfold signed_width.
  destruct (decide (z = 0)) as [->|Hz]; [by compute|].
  pose proof (nbytes_bound (Z.abs z) ltac:(lia)) as [_ Hb].
  rewrite pow256_pow2 in Hb. unfold signed_ok.
  set (n := nbytes (Z.abs z)) in *.
  assert (2 ^ (8 * Z.of_nat n) ≤ 2 ^ (8 * Z.of_nat (S n) - 1))
    by (apply Z.pow_le_mono_r; lia). lia.
Qed.

Lemma mag_leading z : z ≠ 0 → ∃ b bs, mag z = b :: bs ∧ 0 < b.
Proof.
  intros Hz. unfold mag. pose proof (nbytes_bound (Z.abs z) ltac:(lia)) as [Hlo Hhi].
  destruct (nbytes (Z.abs z)) as [|n] eqn:E.
  { unfold nbytes in E. pose proof (Z.log2_nonneg (Z.abs z)).
    pose proof (Z.div_pos (Z.log2 (Z.abs z)) 8). lia. }
  unfold to_be; fold to_be. eexists _, _; split; [done|].
  replace (Z.of_nat (S n) - 1) with (Z.of_nat n) in Hlo by lia.
  rewrite Nat2Z.inj_succ, Z.pow_succ_r in Hhi by lia. pose proof (pow256_pos n).
  rewrite Z.mod_small; [apply Z.div_str_pos; lia|].
  split; [apply Z.div_pos; lia|apply Z.div_lt_upper_bound; lia].
Qed.

Lemma reduce_id (r : dsig lowest) : reduce (proj1_sig r).1 (proj1_sig r).2 = proj1_sig r.
Proof.
  unfold reduce. destruct (proj2_dsig r) as [Hd Hg]. rewrite Hg, !Z.div_1_r.
  destruct (proj1_sig r) as [n d]; simpl in *. rewrite Z.sgn_pos by done. f_equal; lia.
Qed.

#[export] Instance ext_model_laws : ExtLaws.
Proof.
  split; simpl.
  - intros d; apply (proj2_dsig d).
  - intros d; apply mk_proj.
  - intros t. destruct (proj2_dsig t) as (? & ? & _). unfold unsigned_ok. lia.
  - intros t. rewrite <- surjective_pairing. apply mk_proj.
  - by intros [].
  - intros d. pose proof (proj2_dsig d) as Hd. unfold td_ok, TD_MAX_SECS in *.
    pose proof (Z.quot_rem' (proj1_sig d) (10 ^ 9)).
    pose proof (Z.rem_bound_abs (proj1_sig d) (10 ^ 9) ltac:(lia)).
    destruct (Z.le_gt_cases 0 (proj1_sig d)).
    + pose proof (Z.rem_nonneg (proj1_sig d) (10 ^ 9) ltac:(lia) ltac:(lia)). lia.
    + pose proof (Z.rem_nonpos (proj1_sig d) (10 ^ 9) ltac:(lia) ltac:(lia)). lia.
  - intros d. destruct (Z.le_gt_cases 0 (proj1_sig d)); [left|right].
    + split; [apply Z.quot_pos; lia|apply Z.rem_nonneg; lia].
    + split; [|apply Z.rem_nonpos; lia].
      rewrite <- (Z.opp_involutive (proj1_sig d)), Z.quot_opp_l by lia.
      pose proof (Z.quot_pos (- proj1_sig d) (10 ^ 9)). lia.
  - intros d. pose proof (proj2_dsig d) as Hd.
    pose proof (Z.quot_rem' (proj1_sig d) (10 ^ 9)) as Hq.
    set (q := Z.quot _ _) in *. set (s := Z.rem _ _) in *.
    pose proof (Z.rem_bound_abs (proj1_sig d) (10 ^ 9) ltac:(lia)) as Hr. fold s in Hr.
    assert (td_ok (q * 10 ^ 9)) as Hqo.
    { unfold td_ok, TD_MAX_SECS in *. subst q s. destruct (Z.le_gt_cases 0 (proj1_sig d)).
      - pose proof (Z.rem_nonneg (proj1_sig d) (10 ^ 9) ltac:(lia) ltac:(lia)). lia.
      - pose proof (Z.rem_nonpos (proj1_sig d) (10 ^ 9) ltac:(lia) ltac:(lia)). lia. }
    assert (td_ok s) as Hso by (unfold td_ok, TD_MAX_SECS; lia).
    unfold mk at 1. destruct (decide (td_ok (q * 10 ^ 9))); [|done].
    eexists; split; [done|]. unfold mk at 2. destruct (decide (td_ok s)); [|done].
    change (proj1_sig (dexist (q * 10 ^ 9) t)) with (q * 10 ^ 9).
    change (proj1_sig (dexist s t0)) with s.
    replace (q * 10 ^ 9 + s) with (proj1_sig d) by lia. apply mk_proj.
  - intros s. unfold mk. destruct (decide _) as [Hd|Hd]; unfold td_ok, TD_MAX_SECS in *;
      split; try done; intros; lia.
  - intros; apply to_be_bytes_ok.
  - apply signed_be_inv.
  - intros; apply to_be_bytes_ok.
  - intros z Hz. apply of_be_to_be_id. pose proof (nbytes_bound (Z.abs z) ltac:(lia)). lia.
  - apply mag_leading.
  - intros r. apply (proj2_dsig r).
  - intros r. destruct (proj2_dsig r) as [Hd _].
    destruct (Z.eqb_spec (proj1_sig r).2 0); [lia|]. by rewrite reduce_id, mk_proj.
  - intros n d. destruct (Z.eqb_spec d 0); [done|]. split; [done|lia].
  - intros [| | | |? e ?]; try done. apply (proj2_dsig e).
  - intros [| | | |? ? m]; try by (split; [constructor|]). apply (proj2_dsig m).
  - by intros [].
  - by intros [].
  - by intros [].
  - by intros [].
  - intros [| | | |neg e m]; try done. intros _ _ _ _. unfold bf_from_bytes; simpl.
    pose proof (proj2_dsig e). pose proof (proj2_dsig m).
    destruct (decide (signed_ok 8 _)); [|done]. destruct (decide _); [|done].
    f_equal; [by destruct neg|by apply dsig_eq..].
Qed.
End ExtModel.
