(* ===== verification/Scalar.v ===== *)
(** * Scalars and their storage encoding

    [data/scalar.rs] and [time.rs]: the leaf values of a document, the byte
    codec [Scalar::encode] / [Scalar::decode], and the round trip between
    them.  The model is the build with the [bignum-as-scalar] features. *)
From S2P Require Import Prelude Codec Ext.

(** The storage tags, [mod tag]. *)
Module Tag.
Definition NULL : Z := 0.
Definition BOOL : Z := 1.
Definition I8 : Z := 2.
Definition I16 : Z := 3.
Definition I32 : Z := 4.
Definition I64 : Z := 5.
Definition I128 : Z := 6.
Definition U8 : Z := 7.
Definition U16 : Z := 8.
Definition U32 : Z := 9.
Definition U64 : Z := 10.
Definition U128 : Z := 11.
Definition F32 : Z := 12.
Definition F64 : Z := 13.
Definition STR : Z := 14.
Definition BYTES : Z := 15.
Definition UUID : Z := 16.
Definition DATE : Z := 17.
Definition TIME : Z := 18.
Definition DATETIME : Z := 19.
Definition DURATION : Z := 20.
Definition BIG_INT : Z := 21.
Definition BIG_FLOAT_ZERO : Z := 22.
Definition BIG_FLOAT_POS : Z := 23.
Definition BIG_FLOAT_NEG : Z := 24.
Definition BIG_FLOAT_NAN : Z := 25.
Definition BIG_FLOAT_INF_POS : Z := 26.
Definition BIG_FLOAT_INF_NEG : Z := 27.
Definition BIG_RATIONAL : Z := 28.
End Tag.

Section scalar.
Context `{Ext}.

(** Integers are carried as [Z], floats as their IEEE-754 bit pattern (what
    [to_be_bytes] writes), a UUID as its 128-bit value. *)
Inductive Scalar : Type :=
| Null
| Bool (v : bool)
| I8 (v : Z) | I16 (v : Z) | I32 (v : Z) | I64 (v : Z) | I128 (v : Z)
| U8 (v : Z) | U16 (v : Z) | U32 (v : Z) | U64 (v : Z) | U128 (v : Z)
| F32 (bits : Z) | F64 (bits : Z)
| Str (v : bytes)
| Bytes (v : bytes)
| Uuid (v : Z)
| Date (v : NaiveDate)
| Time (v : NaiveTime)
| DateTime (v : DateTimeUtc)
| Duration (v : TimeDelta)
| BigInt (v : Z)
| BigFloatS (v : BigFloat)
| Rational (v : BigRational).

Definition Scalar_type_str (s : Scalar) : string :=
  match s with
  | Null => "null" | Bool _ => "bool"
  | I8 _ => "i8" | I16 _ => "i16" | I32 _ => "i32" | I64 _ => "i64" | I128 _ => "i128"
  | U8 _ => "u8" | U16 _ => "u16" | U32 _ => "u32" | U64 _ => "u64" | U128 _ => "u128"
  | F32 _ => "f32" | F64 _ => "f64"
  | Str _ => "str" | Bytes _ => "bytes" | Uuid _ => "uuid"
  | Date _ => "date" | Time _ => "time" | DateTime _ => "datetime" | Duration _ => "duration"
  | BigInt _ => "bigint" | BigFloatS _ => "bigfloat" | Rational _ => "rational"
  end.

(** [Vec::push]. *)
Definition push (buf : bytes) (b : Z) : bytes := buf ++ [b].

Definition encode_float (buf : bytes) (v : BigFloat) : bytes :=
  if is_nan v then push buf Tag.BIG_FLOAT_NAN
  else if is_inf_pos v then push buf Tag.BIG_FLOAT_INF_POS
  else if is_inf_neg v then push buf Tag.BIG_FLOAT_INF_NEG
  else if is_zero v then push buf Tag.BIG_FLOAT_ZERO
  else
    let sign := if is_negative v then Tag.BIG_FLOAT_NEG else Tag.BIG_FLOAT_POS in
    let mantissa := get_mantissa_bytes v in
    put_bytes (push buf sign ++ to_be 1 (get_exponent v)) mantissa.

Definition Scalar_encode (s : Scalar) (buf : bytes) : bytes :=
  match s with
  | Null => push buf Tag.NULL
  | Bool v => push (push buf Tag.BOOL) (if v then 1 else 0)
  | I8 v => push buf Tag.I8 ++ to_be 1 v
  | I16 v => push buf Tag.I16 ++ to_be 2 v
  | I32 v => push buf Tag.I32 ++ to_be 4 v
  | I64 v => push buf Tag.I64 ++ to_be 8 v
  | I128 v => push buf Tag.I128 ++ to_be 16 v
  | U8 v => push (push buf Tag.U8) v
  | U16 v => push buf Tag.U16 ++ to_be 2 v
  | U32 v => push buf Tag.U32 ++ to_be 4 v
  | U64 v => push buf Tag.U64 ++ to_be 8 v
  | U128 v => push buf Tag.U128 ++ to_be 16 v
  | F32 v => push buf Tag.F32 ++ to_be 4 v
  | F64 v => push buf Tag.F64 ++ to_be 8 v
  | Str v => put_bytes (push buf Tag.STR) v
  | Bytes v => put_bytes (push buf Tag.BYTES) v
  | Uuid v => push buf Tag.UUID ++ to_be 16 v
  | Date v => push buf Tag.DATE ++ to_be 4 (num_days_from_ce v)
  | Time v =>
      (push buf Tag.TIME ++ to_be 4 (num_seconds_from_midnight v)) ++ to_be 4 (nanosecond v)
  | DateTime v =>
      ((push buf Tag.DATETIME ++ to_be 4 (num_days_from_ce (dt_date v)))
         ++ to_be 4 (num_seconds_from_midnight (dt_time v))) ++ to_be 4 (nanosecond (dt_time v))
  | Duration v =>
      (push buf Tag.DURATION ++ to_be 8 (td_num_seconds v)) ++ to_be 4 (td_subsec_nanos v)
  | BigInt v => put_bytes (push buf Tag.BIG_INT) (to_signed_bytes_be v)
  | BigFloatS v => encode_float buf v
  | Rational v =>
      put_bytes (put_bytes (push buf Tag.BIG_RATIONAL) (to_signed_bytes_be (numer v)))
        (to_signed_bytes_be (denom v))
  end.

(** [time.rs], [decode_time]. *)
Definition decode_time (r : Reader) : res (NaiveTime * Reader) :=
  let? '(secs, r) := Reader_u32 r in
  let? '(nanos, r) := Reader_u32 r in
  let? t := ok_or (from_num_seconds_from_midnight_opt secs nanos)
              (Corrupt "out-of-range time scalar") in
  Ok (t, r).

(** [iN::from_be_bytes(r.array()?)] and the unsigned form. *)
Definition r_signed (n : Z) (r : Reader) : res (Z * Reader) :=
  let? '(bs, r) := Reader_array n r in Ok (to_signed (8 * n) (of_be bs), r).
Definition r_unsigned (n : Z) (r : Reader) : res (Z * Reader) :=
  let? '(bs, r) := Reader_array n r in Ok (of_be bs, r).

Definition decode_date (msg : string) (r : Reader) : res (NaiveDate * Reader) :=
  let? '(days, r) := r_signed 4 r in
  let? d := ok_or (from_num_days_from_ce_opt days) (Corrupt msg) in
  Ok (d, r).

(** A library call that panics on [None]. *)
Definition unwrap_panic {A} (o : option A) : res A :=
  match o with Some a => Ok a | None => Panic end.

Definition rmap {A B} (f : A → B) (m : res (A * Reader)) : res (B * Reader) :=
  let? '(a, r) := m in Ok (f a, r).

Definition decode_float_body (sign : Z) (r : Reader) : res (Scalar * Reader) :=
  let? '(exponent, r) := r_signed 1 r in
  let? '(mantissa, r) := Reader_bytes r in
  Ok (BigFloatS (bigfloat_from_bytes mantissa sign exponent), r).

Definition Scalar_decode (r : Reader) : res (Scalar * Reader) :=
  let? '(tag, r) := Reader_u8 r in
  if tag =? Tag.NULL then Ok (Null, r)
  else if tag =? Tag.BOOL then rmap (λ b, Bool (negb (b =? 0))) (Reader_u8 r)
  else if tag =? Tag.I8 then rmap I8 (r_signed 1 r)
  else if tag =? Tag.I16 then rmap I16 (r_signed 2 r)
  else if tag =? Tag.I32 then rmap I32 (r_signed 4 r)
  else if tag =? Tag.I64 then rmap I64 (r_signed 8 r)
  else if tag =? Tag.I128 then rmap I128 (r_signed 16 r)
  else if tag =? Tag.U8 then rmap U8 (Reader_u8 r)
  else if tag =? Tag.U16 then rmap U16 (r_unsigned 2 r)
  else if tag =? Tag.U32 then rmap U32 (Reader_u32 r)
  else if tag =? Tag.U64 then rmap U64 (Reader_u64 r)
  else if tag =? Tag.U128 then rmap U128 (r_unsigned 16 r)
  else if tag =? Tag.F32 then rmap F32 (r_unsigned 4 r)
  else if tag =? Tag.F64 then rmap F64 (r_unsigned 8 r)
  else if tag =? Tag.STR then
    let? '(bs, r) := Reader_bytes r in
    let? s := from_utf8 bs (Corrupt "invalid utf-8 in string scalar") in
    Ok (Str s, r)
  else if tag =? Tag.BYTES then rmap Bytes (Reader_bytes r)
  else if tag =? Tag.UUID then rmap Uuid (r_unsigned 16 r)
  else if tag =? Tag.DATE then rmap Date (decode_date "out-of-range date scalar" r)
  else if tag =? Tag.TIME then rmap Time (decode_time r)
  else if tag =? Tag.DATETIME then
    let? '(date, r) := decode_date "out-of-range datetime scalar" r in
    let? '(time, r) := decode_time r in
    Ok (DateTime (dt_new date time), r)
  else if tag =? Tag.DURATION then
    let? '(secs, r) := r_signed 8 r in
    let? '(nanos, r) := r_signed 4 r in
    let? s := unwrap_panic (td_seconds secs) in
    let? d := unwrap_panic (td_add s (td_nanoseconds nanos)) in
    Ok (Duration d, r)
  else if tag =? Tag.BIG_INT then rmap (λ bs, BigInt (from_signed_bytes_be bs)) (Reader_bytes r)
  else if tag =? Tag.BIG_FLOAT_ZERO then Ok (BigFloatS FLOAT_ZERO, r)
  else if tag =? Tag.BIG_FLOAT_NAN then Ok (BigFloatS FLOAT_NAN, r)
  else if tag =? Tag.BIG_FLOAT_INF_POS then Ok (BigFloatS INF_POS, r)
  else if tag =? Tag.BIG_FLOAT_INF_NEG then Ok (BigFloatS INF_NEG, r)
  else if tag =? Tag.BIG_FLOAT_POS then decode_float_body 1 r
  else if tag =? Tag.BIG_FLOAT_NEG then decode_float_body (-1) r
  else if tag =? Tag.BIG_RATIONAL then
    let? '(num, r) := Reader_bytes r in
    let? '(den, r) := Reader_bytes r in
    let? q := unwrap_panic (rational_new (from_signed_bytes_be num) (from_signed_bytes_be den)) in
    Ok (Rational q, r)
  else Err (Corrupt "unknown scalar tag {other}").

(** The invariant the Rust types give: every integer in its width, every string
    valid UTF-8, every byte run shorter than its [u32] length prefix can hold. *)
Definition scalar_ok (s : Scalar) : Prop :=
  match s with
  | I8 v => signed_ok 8 v | I16 v => signed_ok 16 v | I32 v => signed_ok 32 v
  | I64 v => signed_ok 64 v | I128 v => signed_ok 128 v
  | U8 v => unsigned_ok 8 v | U16 v => unsigned_ok 16 v | U32 v => unsigned_ok 32 v
  | U64 v => unsigned_ok 64 v | U128 v => unsigned_ok 128 v
  | F32 v => unsigned_ok 32 v | F64 v => unsigned_ok 64 v
  | Str v => utf8_valid v = true ∧ bytes_ok v ∧ blen v < 2 ^ 32
  | Bytes v => bytes_ok v ∧ blen v < 2 ^ 32
  | Uuid v => unsigned_ok 128 v
  | BigInt v => blen (to_signed_bytes_be v) < 2 ^ 32
  | Rational v => blen (to_signed_bytes_be (numer v)) < 2 ^ 32 ∧
                  blen (to_signed_bytes_be (denom v)) < 2 ^ 32
  | _ => True
  end.

(** ** Encoding appends *)

Lemma put_bytes_app buf bs : put_bytes buf bs = buf ++ put_bytes [] bs.
Proof. unfold put_bytes, put_u32. by rewrite <- app_assoc. Qed.

Lemma Scalar_encode_app s buf : Scalar_encode s buf = buf ++ Scalar_encode s [].
Proof.
  destruct s; simpl; unfold encode_float; repeat case_match;
    unfold put_bytes, put_u32, push; cbn [app]; rewrite <- ?app_assoc; done.
Qed.

Lemma Scalar_encode_ne s : ∃ b bs, Scalar_encode s [] = b :: bs.
Proof.
  destruct s; simpl; unfold push, encode_float; repeat case_match;
    unfold put_bytes, put_u32, push; simpl; eauto.
Qed.

(** ** Round trip *)

Lemma reads_map {A B} (f : A → B) g enc x :
  reads g enc x → reads (λ r, rmap f (g r)) enc (f x).
Proof. intros Hg pre post Hb. unfold rmap. by rewrite Hg. Qed.

Lemma reads_signed n v :
  (0 < n)%nat → signed_ok (8 * Z.of_nat n) v → reads (r_signed (Z.of_nat n)) (to_be n v) v.
Proof.
  intros Hn Hv pre post Hb. unfold r_signed.
  rewrite (reads_array (to_be n v)) by (rewrite ?blen_to_be; done). simpl.
  by rewrite to_signed_be.
Qed.

Lemma reads_unsigned n v :
  unsigned_ok (8 * Z.of_nat n) v → reads (r_unsigned (Z.of_nat n)) (to_be n v) v.
Proof.
  intros Hv pre post Hb. unfold r_unsigned.
  rewrite (reads_array (to_be n v)) by (rewrite ?blen_to_be; done). simpl.
  rewrite of_be_to_be_id; [done|]. by rewrite pow256_pow2.
Qed.

Lemma reads_tag {A} (g : Z → Reader → res (A * Reader)) t enc x :
  reads (g t) enc x → reads (λ r, let? '(t, r) := Reader_u8 r in g t r) (t :: enc) x.
Proof. intros Hg. change (t :: enc) with ([t] ++ enc). eapply reads_bind; [apply reads_u8|done]. Qed.

Lemma reads_lift {A B} (m : res A) (k : A → Reader → res (B * Reader)) a enc x :
  m = Ok a → reads (k a) enc x → reads (λ r, let? a := m in k a r) enc x.
Proof. by intros ->. Qed.

Lemma put_bytes_nil bs : blen bs < 2 ^ 32 → put_bytes [] bs = to_be 4 (blen bs) ++ bs.
Proof. intros. by rewrite put_bytes_eq. Qed.

Context `{!ExtLaws}.

Lemma reads_time t :
  reads decode_time (to_be 4 (num_seconds_from_midnight t) ++ to_be 4 (nanosecond t)) t.
Proof.
  destruct (time_bound t). unfold decode_time.
  eapply reads_bind; [by apply reads_u32|].
  rewrite <- (app_nil_r (to_be 4 (nanosecond t))).
  eapply reads_bind; [by apply reads_u32|].
  eapply reads_lift; [by rewrite time_inv|apply reads_ret].
Qed.

Lemma reads_date msg d : reads (decode_date msg) (to_be 4 (num_days_from_ce d)) d.
Proof.
  unfold decode_date. rewrite <- (app_nil_r (to_be 4 _)).
  eapply reads_bind; [apply (reads_signed 4); [lia|apply date_bound]|].
  eapply reads_lift; [by rewrite date_inv|apply reads_ret].
Qed.

Lemma reads_float_body v :
  is_nan v = false → is_inf_pos v = false → is_inf_neg v = false → is_zero v = false →
  reads (decode_float_body (if is_negative v then -1 else 1))
    (to_be 1 (get_exponent v) ++ put_bytes [] (get_mantissa_bytes v)) (BigFloatS v).
Proof.
  intros H1 H2 H3 H4. destruct (mantissa_bytes v) as [_ Hl]. unfold decode_float_body.
  eapply reads_bind; [apply (reads_signed 1); [lia|apply exponent_bound]|].
  rewrite put_bytes_nil by lia. rewrite <- (app_nil_r (_ ++ _)).
  eapply reads_bind; [apply reads_bytes; lia|].
  rewrite <- (f_equal BigFloatS (bigfloat_inv v H1 H2 H3 H4)). apply reads_ret.
Qed.

Lemma reads_duration d :
  reads (λ r, let? '(secs, r) := r_signed 8 r in
              let? '(nanos, r) := r_signed 4 r in
              let? s := unwrap_panic (td_seconds secs) in
              let? d := unwrap_panic (td_add s (td_nanoseconds nanos)) in
              Ok (Duration d, r))
    (to_be 8 (td_num_seconds d) ++ to_be 4 (td_subsec_nanos d)) (Duration d).
Proof.
  destruct (td_bound d). destruct (td_inv d) as (s & Hs & Ha). unfold TD_MAX_SECS in *.
  eapply reads_bind; [apply (reads_signed 8); [lia|unfold signed_ok; lia]|].
  rewrite <- (app_nil_r (to_be 4 _)).
  eapply reads_bind; [apply (reads_signed 4); [lia|unfold signed_ok; lia]|].
  eapply reads_lift; [by rewrite Hs|]. eapply reads_lift; [by rewrite Ha|]. apply reads_ret.
Qed.

Lemma reads_str s :
  utf8_valid s = true → blen s < 2 ^ 32 →
  reads (λ r, let? '(bs, r) := Reader_bytes r in
              let? s := from_utf8 bs (Corrupt "invalid utf-8 in string scalar") in
              Ok (Str s, r)) (put_bytes [] s) (Str s).
Proof.
  intros Hu Hl. rewrite put_bytes_nil by done. rewrite <- (app_nil_r (_ ++ _)).
  eapply reads_bind; [by apply reads_bytes|].
  eapply reads_lift; [by unfold from_utf8; rewrite Hu|]. apply reads_ret.
Qed.

Lemma reads_rational q :
  scalar_ok (Rational q) →
  reads (λ r, let? '(num, r) := Reader_bytes r in
              let? '(den, r) := Reader_bytes r in
              let? q := unwrap_panic
                (rational_new (from_signed_bytes_be num) (from_signed_bytes_be den)) in
              Ok (Rational q, r))
    (put_bytes [] (to_signed_bytes_be (numer q)) ++ put_bytes [] (to_signed_bytes_be (denom q)))
    (Rational q).
Proof.
  intros [Hn Hd]. rewrite !put_bytes_nil by done.
  eapply reads_bind; [by apply reads_bytes|]. rewrite <- (app_nil_r (_ ++ _)).
  eapply reads_bind; [by apply reads_bytes|].
  eapply reads_lift; [by rewrite !bigint_inv, rational_inv|]. apply reads_ret.
Qed.

(** Whatever bytes surround it, an encoded scalar decodes to itself and the
    cursor stops right after it. *)
Lemma scalar_reads s : scalar_ok s → reads Scalar_decode (Scalar_encode s []) s.
Proof.
  intros Hs. unfold Scalar_decode.
  destruct s as [|[]|v|v|v|v|v|v|v|v|v|v|v|v|v|v|v|v|v|v|v|v|v|v];
    unfold Scalar_encode, push; rewrite ?app_nil_l, <- ?app_assoc;
    try (rewrite put_bytes_app); unfold push; rewrite ?app_nil_l; cbn [app];
    try (apply reads_tag; cbn [Z.eqb Pos.eqb Tag.NULL]; simpl in Hs).
  all: try (first [apply reads_ret
    | eapply reads_map, (reads_signed 1); [lia|done]
    | eapply reads_map, (reads_signed 2); [lia|done]
    | eapply reads_map, (reads_signed 4); [lia|done]
    | eapply reads_map, (reads_signed 8); [lia|done]
    | eapply reads_map, (reads_signed 16); [lia|done]
    | eapply reads_map, (reads_unsigned 2); done
    | eapply reads_map, (reads_unsigned 4); done
    | eapply reads_map, (reads_unsigned 8); done
    | eapply reads_map, (reads_unsigned 16); done
    | eapply reads_map, reads_u32; done | eapply reads_map, reads_u64; done
    | eapply reads_map, reads_u8 | eapply reads_map, reads_date | eapply reads_map, reads_time
    | apply reads_duration ]).
  - apply (reads_map (λ b, Bool (negb (b =? 0))) Reader_u8 [1] 1), reads_u8.
  - apply (reads_map (λ b, Bool (negb (b =? 0))) Reader_u8 [0] 0), reads_u8.
  - destruct Hs as (? & _ & ?). by apply reads_str.
  - destruct Hs as [_ ?]. rewrite put_bytes_nil by done. by eapply reads_map, reads_bytes.
  - eapply reads_bind; [apply reads_date|]. rewrite <- (app_nil_r (_ ++ _)).
    eapply reads_bind; [apply reads_time|]. rewrite dt_inv. apply reads_ret.
  - rewrite put_bytes_nil by done.
    rewrite <- (f_equal BigInt (bigint_inv v)).
    by apply (reads_map (λ bs, BigInt (from_signed_bytes_be bs))), reads_bytes.
  - unfold encode_float. destruct (is_nan v) eqn:E1.
    { rewrite (nan_inv v E1). apply (reads_tag _ Tag.BIG_FLOAT_NAN), reads_ret. }
    destruct (is_inf_pos v) eqn:E2.
    { rewrite (inf_pos_inv v E2). apply (reads_tag _ Tag.BIG_FLOAT_INF_POS), reads_ret. }
    destruct (is_inf_neg v) eqn:E3.
    { rewrite (inf_neg_inv v E3). apply (reads_tag _ Tag.BIG_FLOAT_INF_NEG), reads_ret. }
    destruct (is_zero v) eqn:E4.
    { rewrite (zero_inv v E1 E4). apply (reads_tag _ Tag.BIG_FLOAT_ZERO), reads_ret. }
    pose proof (reads_float_body v E1 E2 E3 E4) as Hb.
    rewrite put_bytes_app. unfold push. cbn [app].
    destruct (is_negative v); [apply (reads_tag _ Tag.BIG_FLOAT_NEG)|apply (reads_tag _ Tag.BIG_FLOAT_POS)]; exact Hb.
  - exact (reads_rational v Hs).
Qed.

(** A scalar survives storage: wherever its encoding sits in a buffer, decoding
    there gives the scalar back and leaves the cursor exactly after it, for every
    scalar kind; the encoding only appends. *)
Theorem scalar_roundtrip s pre post :
  scalar_ok s → blen (pre ++ Scalar_encode s [] ++ post) ≤ USIZE_MAX →
  Scalar_encode s pre = pre ++ Scalar_encode s [] ∧
  Scalar_decode (mkReader (Scalar_encode s pre ++ post) (blen pre)) =
    Ok (s, mkReader (Scalar_encode s pre ++ post) (blen (Scalar_encode s pre))).
Proof.
  intros Hs Hb. rewrite Scalar_encode_app. split; [done|]. rewrite <- app_assoc, blen_app.
  by apply scalar_reads.
Qed.

(** Some malformed scalar bytes are not reported but panic: a stored duration
    whose seconds are out of chrono's range, and a stored rational whose denominator
    is zero, make [decode] panic instead of answering [Corrupt]. *)
Theorem scalar_decode_panics secs nanos num :
  signed_ok 64 secs → signed_ok 32 nanos → ¬ (- TD_MAX_SECS ≤ secs ≤ TD_MAX_SECS) →
  blen (to_signed_bytes_be num) < 2 ^ 31 → blen (to_signed_bytes_be 0) < 2 ^ 31 →
  Scalar_decode (Reader_new (Tag.DURATION :: to_be 8 secs ++ to_be 4 nanos)) = Panic ∧
  Scalar_decode (Reader_new (Tag.BIG_RATIONAL ::
    put_bytes (put_bytes [] (to_signed_bytes_be num)) (to_signed_bytes_be 0))) = Panic.
Proof.
  intros Hs Hn Hr Hnum Hz. pose proof (blen_nonneg (to_signed_bytes_be num)). pose proof (blen_nonneg (to_signed_bytes_be 0)).
  assert (2 ^ 32 + 100 ≤ USIZE_MAX) as Hmax by by vm_compute.
  split; unfold Scalar_decode, Reader_new.
  - pose proof (reads_u8 Tag.DURATION [] (to_be 8 secs ++ to_be 4 nanos)) as E. cbn [app] in E. rewrite (@blen_nil Z) in E.
    rewrite E; [|rewrite blen_cons, blen_app, !blen_to_be; lia]. cbn [rbind]. cbn -[to_be r_signed td_seconds Z.add].
    pose proof (reads_signed 8 secs ltac:(lia) Hs [Tag.DURATION] (to_be 4 nanos)) as E1. cbn [app] in E1.
    rewrite Z.add_0_l.
    change (r_signed (Z.of_nat 8)) with (r_signed 8) in E1.
    rewrite E1; [|rewrite blen_cons, blen_app, !blen_to_be; lia]. cbn [rbind]. rewrite <- blen_app. cbn [app].
    pose proof (reads_signed 4 nanos ltac:(lia) Hn (Tag.DURATION :: to_be 8 secs) []) as E2.
    rewrite app_nil_r in E2. cbn [app] in E2. change (r_signed (Z.of_nat 4)) with (r_signed 4) in E2.
    rewrite E2; [|rewrite blen_cons, blen_app, !blen_to_be; lia]. cbn [rbind].
    by rewrite (proj2 (td_seconds_panics secs)).
  - assert (blen (to_signed_bytes_be num) < 2 ^ 32 ∧ blen (to_signed_bytes_be 0) < 2 ^ 32) as [Hnum' Hz'] by lia.
    rewrite (put_bytes_app (put_bytes [] _)), !put_bytes_nil by done.
    set (a := to_be 4 (blen (to_signed_bytes_be num)) ++ to_signed_bytes_be num).
    set (b := to_be 4 (blen (to_signed_bytes_be 0)) ++ to_signed_bytes_be 0).
    assert (blen a < 2 ^ 31 + 4 ∧ blen b < 2 ^ 31 + 4) as [Ha Hb] by (unfold a, b; rewrite !blen_app, !blen_to_be; lia).
    assert (blen (Tag.BIG_RATIONAL :: a ++ b) ≤ USIZE_MAX) as HL.
    { rewrite blen_cons, blen_app. clearbody a b. clear -Ha Hb Hmax.
      change (2 ^ 31) with 2147483648 in *. change (2 ^ 32) with 4294967296 in *. lia. }
    pose proof (reads_u8 Tag.BIG_RATIONAL [] (a ++ b)) as E. cbn [app] in E. rewrite (@blen_nil Z) in E.
    rewrite E by exact HL. cbn [rbind]. cbn -[Reader_bytes Z.add].
    pose proof (reads_bytes (to_signed_bytes_be num) Hnum' [Tag.BIG_RATIONAL] b) as E1. fold a in E1.
    cbn [app] in E1. rewrite Z.add_0_l.
    rewrite E1 by exact HL. cbn [rbind]. rewrite <- blen_app. cbn [app].
    pose proof (reads_bytes (to_signed_bytes_be 0) Hz' (Tag.BIG_RATIONAL :: a) []) as E2. fold b in E2.
    rewrite app_nil_r in E2. cbn [app] in E2.
    rewrite E2 by exact HL. cbn [rbind].
    rewrite !bigint_inv. by rewrite (proj2 (rational_panics num 0)).
Qed.

End scalar.

(** ** Witnesses *)

Module ScalarWitness.
Import ExtModel.

Lemma scalar_roundtrip_witness :
  let s := Str [104; 105] in
  Scalar_encode s [7] = [7] ++ Scalar_encode s [] ∧
  Scalar_decode (mkReader (Scalar_encode s [7] ++ [9]) 1) =
    Ok (s, mkReader (Scalar_encode s [7] ++ [9]) (blen (Scalar_encode s [7]))).
Proof.
  apply (scalar_roundtrip (Str [104; 105]) [7] [9]); [|by vm_compute].
  split_and!; [by vm_compute|repeat constructor; by vm_compute|by vm_compute].
Defined.

Lemma scalar_decode_panics_witness :
  Scalar_decode (Reader_new (Tag.DURATION :: to_be 8 (2 ^ 63 - 1) ++ to_be 4 0)) = Panic ∧
  Scalar_decode (Reader_new (Tag.BIG_RATIONAL ::
    put_bytes (put_bytes [] (to_signed_bytes_be 5)) (to_signed_bytes_be 0))) = Panic.
Proof.
  apply scalar_decode_panics; [by vm_compute|by vm_compute| |by vm_compute|by vm_compute].
  intros [_ Hh]. by vm_compute in Hh.
Defined.
End ScalarWitness.
