(* ===== verification/Ordered.v ===== *)
(** * Order-preserving index columns

    [index/ordered.rs]: the encoding of a scalar whose byte order is the order of
    the values, so that index keys can be compared bytewise.  The section [cmp_by]
    is the proof method: two encodings are related by the comparison of what they
    encode when they are equal, or differ at some byte in the right direction; the
    relation composes under concatenation and is reversed by complementing bytes,
    which is how descending columns and negative magnitudes are written. *)
From S2P Require Import Prelude Codec Ext Scalar.

(** ** The encoder *)

Module OTag.
Definition NULL : Z := 0.
Definition BOOL : Z := 1.
Definition I8 : Z := 2.
Definition I16 : Z := 3.
Definition I32 : Z := 4.
Definition I64 : Z := 5.
Definition I128 : Z := 6.
Definition U8 : Z := 7.
Definition U16 : Z := 8.
Definition U32 : Z := 9.
Definition U64 : Z := 10.
Definition U128 : Z := 11.
Definition F32 : Z := 12.
Definition F64 : Z := 13.
Definition STR : Z := 14.
Definition BYTES : Z := 15.
Definition UUID : Z := 16.
Definition DATE : Z := 17.
Definition TIME : Z := 18.
Definition DATETIME : Z := 19.
Definition DURATION : Z := 20.
Definition BIG_INT : Z := 21.
Definition BIG_FLOAT_NEG_INF : Z := 22.
Definition BIG_FLOAT_NEG : Z := 23.
Definition BIG_FLOAT_ZERO : Z := 24.
Definition BIG_FLOAT_POS : Z := 25.
Definition BIG_FLOAT_POS_INF : Z := 26.
Definition BIG_FLOAT_NAN : Z := 27.
Definition BIG_RATIONAL : Z := 28.
End OTag.

(** [!byte], on every byte. *)
Definition bnot (b : Z) : Z := 255 - b.
Definition inverted (bs : bytes) : bytes := map bnot bs.

Section ordered.
Context `{Ext}.

(** The first byte is xored with [0x80]; the slice is never empty. *)
Definition push_signed (out be : bytes) : bytes :=
  match be with
  | [] => out
  | b :: bs => (out ++ [Z.lxor b 128]) ++ bs
  end.

Definition signed (out : bytes) (tag : Z) (be : bytes) : bytes := push_signed (push out tag) be.
Definition unsigned (out : bytes) (tag : Z) (be : bytes) : bytes := push out tag ++ be.

Definition float_key (w bits : Z) : Z :=
  if Z.testbit bits (w - 1) then Z.lxor bits (Z.ones w) else Z.lor bits (2 ^ (w - 1)).
Definition float64 : Z → Z := float_key 64.
Definition float32 : Z → Z := float_key 32.

Fixpoint ordered_loop (out bs : bytes) : bytes :=
  match bs with
  | [] => out
  | b :: bs => ordered_loop (if b =? 0 then push (push out b) 255 else push out b) bs
  end.
Definition ordered_bytes (out bs : bytes) : bytes := push (push (ordered_loop out bs) 0) 1.

(** [len_be[start..]] with [start] the first non-zero byte's index. *)
Fixpoint trim_zeros (bs : bytes) : bytes :=
  match bs with
  | 0 :: bs => trim_zeros bs
  | _ => bs
  end.

Definition put_uint_be (out mag : bytes) : bytes :=
  let len_be := trim_zeros (to_be 8 (blen mag)) in
  (push out (blen len_be) ++ len_be) ++ mag.

Definition NEG : Z := 0.
Definition ZERO : Z := 1.
Definition POS : Z := 2.

Definition encode_signed_int (out : bytes) (v : Z) : bytes :=
  if v =? 0 then push out ZERO
  else if 0 <? v then put_uint_be (push out POS) (mag_to_bytes_be v)
  else push out NEG ++ inverted (put_uint_be [] (mag_to_bytes_be v)).

(** [while digits.len() > 1 && last == 0 { digits.pop(); }], on the reversed
    digits. *)
Fixpoint pop_zeros (rev_digits : bytes) : bytes :=
  match rev_digits with
  | 0 :: ((_ :: _) as t) => pop_zeros t
  | _ => rev_digits
  end.
Definition strip_zeros (digits : bytes) : bytes := rev (pop_zeros (rev digits)).

Definition as_i16 (z : Z) : Z := to_signed 16 (z mod 2 ^ 16).

Definition encode_bigfloat (out : bytes) (v : BigFloat) : bytes :=
  if is_nan v then push out OTag.BIG_FLOAT_NAN
  else if is_inf_pos v then push out OTag.BIG_FLOAT_POS_INF
  else if is_inf_neg v then push out OTag.BIG_FLOAT_NEG_INF
  else if is_zero v then push out OTag.BIG_FLOAT_ZERO
  else
    let digits := get_mantissa_bytes v in
    let n := blen digits in
    let digits := strip_zeros digits in
    let d := as_i16 (n - 1 + get_exponent v) in
    let body := ordered_bytes (push_signed [] (to_be 2 d)) digits in
    if is_negative v then push out OTag.BIG_FLOAT_NEG ++ inverted body
    else push out OTag.BIG_FLOAT_POS ++ body.

(** Rust's [/] truncates; a negative remainder is corrected downwards. *)
Definition floor_div (p q : Z) : Z * Z :=
  let trunc := Z.quot p q in
  let rem := p - trunc * q in
  if rem <? 0 then (trunc - 1, rem + q) else (trunc, rem).

(** The loop runs at most [fuel] times. *)
Fixpoint continued_fraction (fuel : nat) (p q : Z) : list Z :=
  match fuel with
  | O => []
  | S fuel =>
      let '(a, r) := floor_div p q in
      a :: (if r =? 0 then [] else continued_fraction fuel q r)
  end.

Definition CONTINUE : Z := 1.
Definition STOP_ODD : Z := 0.
Definition STOP_EVEN : Z := 2.

(** The terms after the first, from position [i]. *)
Fixpoint encode_terms (out : bytes) (i : nat) (terms : list Z) : bytes :=
  match terms with
  | [] => out
  | term :: terms =>
      let body := put_uint_be [] (mag_to_bytes_be term) in
      encode_terms (push out CONTINUE ++ (if Nat.odd i then inverted body else body)) (S i) terms
  end.

(** Euclid's algorithm on a denominator below [2^k] takes at most [2 k + 1] steps. *)
Definition cf_fuel (q : Z) : nat := S (2 * Z.to_nat (Z.log2 q + 1)).

Definition encode_rational (out : bytes) (v : BigRational) : bytes :=
  let terms := continued_fraction (cf_fuel (denom v)) (numer v) (denom v) in
  let out := encode_signed_int (push out OTag.BIG_RATIONAL) (default 0 (head terms)) in
  let out := encode_terms out 1 (tail terms) in
  push out (if Nat.even (length terms) then STOP_EVEN else STOP_ODD).

Definition encode_ascending (out : bytes) (s : Scalar) : bytes :=
  match s with
  | Null => push out OTag.NULL
  | Bool v => push (push out OTag.BOOL) (if v then 1 else 0)
  | I8 v => signed out OTag.I8 (to_be 1 v)
  | I16 v => signed out OTag.I16 (to_be 2 v)
  | I32 v => signed out OTag.I32 (to_be 4 v)
  | I64 v => signed out OTag.I64 (to_be 8 v)
  | I128 v => signed out OTag.I128 (to_be 16 v)
  | U8 v => push (push out OTag.U8) v
  | U16 v => unsigned out OTag.U16 (to_be 2 v)
  | U32 v => unsigned out OTag.U32 (to_be 4 v)
  | U64 v => unsigned out OTag.U64 (to_be 8 v)
  | U128 v => unsigned out OTag.U128 (to_be 16 v)
  | F32 v => unsigned out OTag.F32 (to_be 4 (float32 v))
  | F64 v => unsigned out OTag.F64 (to_be 8 (float64 v))
  | Str v => ordered_bytes (push out OTag.STR) v
  | Bytes v => ordered_bytes (push out OTag.BYTES) v
  | Uuid v => push out OTag.UUID ++ to_be 16 v
  | Date v => signed out OTag.DATE (to_be 4 (num_days_from_ce v))
  | Time v => (push out OTag.TIME ++ to_be 4 (num_seconds_from_midnight v)) ++ to_be 4 (nanosecond v)
  | DateTime v =>
      (push_signed (push out OTag.DATETIME) (to_be 4 (num_days_from_ce (dt_date v)))
         ++ to_be 4 (num_seconds_from_midnight (dt_time v))) ++ to_be 4 (nanosecond (dt_time v))
  | Duration v =>
      signed out OTag.DURATION (to_be 16 (td_num_seconds v * 1000000000 + td_subsec_nanos v))
  | BigInt v => encode_signed_int (push out OTag.BIG_INT) v
  | BigFloatS v => encode_bigfloat out v
  | Rational v => encode_rational out v
  end.

(** The bytes this call appended are inverted for a descending column. *)
Definition encode_scalar (out : bytes) (s : Scalar) (descending : bool) : bytes :=
  let start := length out in
  let out := encode_ascending out s in
  if descending then take start out ++ inverted (drop start out) else out.

(** ** Comparing encodings *)

(** [a] and [b] part at a byte where [a] has the smaller one. *)
Definition below (a b : bytes) : Prop :=
  ∃ p x y s t, a = p ++ x :: s ∧ b = p ++ y :: t ∧ x < y.

Definition cmp_by (a b : bytes) (c : comparison) : Prop :=
  match c with Eq => a = b | Lt => below a b | Gt => below b a end.

Definition lex (c d : comparison) : comparison := match c with Eq => d | Lt => Lt | Gt => Gt end.

Lemma below_app a b s t : below a b → below (a ++ s) (b ++ t).
Proof.
  intros (p & x & y & u & v & -> & -> & Hxy). exists p, x, y, (u ++ s), (v ++ t).
  by rewrite <- !app_assoc.
Qed.

Lemma below_prefix p a b : below a b → below (p ++ a) (p ++ b).
Proof.
  intros (q & x & y & u & v & -> & -> & Hxy). exists (p ++ q), x, y, u, v. by rewrite !app_assoc.
Qed.

Lemma below_inverted a b : below a b → below (inverted b) (inverted a).
Proof.
  intros (p & x & y & u & v & -> & -> & Hxy). unfold inverted. rewrite !map_app. cbn.
  eexists _, _, _, _, _. split_and!; [done|done|]. unfold bnot. lia.
Qed.

Lemma below_lt a b : below a b → bytes_cmp a b = Lt.
Proof.
  intros (p & x & y & u & v & -> & -> & Hxy). rewrite bytes_cmp_app. cbn.
  by rewrite (proj2 (Z.compare_lt_iff x y) Hxy).
Qed.

Lemma cmp_by_app a b c s t d : cmp_by a b c → cmp_by s t d → cmp_by (a ++ s) (b ++ t) (lex c d).
Proof.
  destruct c; cbn; [intros ->|intros Hb _; by apply below_app..].
  destruct d; cbn; [by intros ->|intros Hb; by apply below_prefix..].
Qed.

Lemma cmp_by_prefix p s t d : cmp_by s t d → cmp_by (p ++ s) (p ++ t) d.
Proof. by apply (cmp_by_app p p Eq). Qed.

Lemma cmp_by_inverted a b c : cmp_by a b c → cmp_by (inverted a) (inverted b) (CompOpp c).
Proof. destruct c; cbn; [by intros ->|apply below_inverted..]. Qed.

Lemma cmp_by_byte x y s t : x ≠ y → cmp_by (x :: s) (y :: t) (x ?= y).
Proof.
  intros Hxy. destruct (Z.compare_spec x y); [done| |]; [exists [], x, y, s, t|exists [], y, x, t, s]; done.
Qed.

Lemma cmp_by_byte_cons x y s t d : cmp_by s t d → cmp_by (x :: s) (y :: t) (lex (x ?= y) d).
Proof.
  intros Hd. destruct (decide (x = y)) as [->|Hne].
  - rewrite Z.compare_refl. by apply (cmp_by_prefix [y]).
  - assert (lex (x ?= y) d = (x ?= y)) as -> by (by destruct (Z.compare_spec x y)). by apply cmp_by_byte.
Qed.

(** The encodings compare as bytes the way the relation says. *)
Lemma cmp_by_cmp a b c : cmp_by a b c → bytes_cmp a b = c.
Proof.
  destruct c; cbn; [intros ->; apply bytes_cmp_refl|apply below_lt|].
  intros Hb. apply bytes_cmp_gt. by apply below_lt.
Qed.

Lemma cmp_by_len a b : length a = length b → cmp_by a b (bytes_cmp a b).
Proof.
  revert b; induction a as [|x a IH]; intros [|y b] Hl; try done. cbn in *.
  apply (cmp_by_byte_cons x y a b _ (IH b ltac:(lia))).
Qed.

Lemma cmp_by_to_be n a b :
  0 ≤ a < 256 ^ Z.of_nat n → 0 ≤ b < 256 ^ Z.of_nat n → cmp_by (to_be n a) (to_be n b) (a ?= b).
Proof. intros Ha Hb. rewrite <- (to_be_cmp n a b Ha Hb). apply cmp_by_len. by rewrite !length_to_be. Qed.

Lemma lex_assoc a b c : lex (lex a b) c = lex a (lex b c).
Proof. by destruct a. Qed.

Lemma lex_eq_r a : lex a Eq = a.
Proof. by destruct a. Qed.

(** ** Fixed-width bodies *)

Lemma forall_bytes (P : Z → bool) : forallb P (seqZ 0 256) = true → ∀ b, byte_ok b → P b = true.
Proof.
  intros Hf b Hb. rewrite forallb_forall in Hf. apply Hf, list_elem_of_In, elem_of_seqZ.
  unfold byte_ok in Hb. lia.
Qed.

(** Flipping the sign bit shifts the order of two's complement to that of
    unsigned integers. *)
Lemma push_signed_be out n z :
  (0 < n)%nat → push_signed out (to_be n z) = out ++ to_be n (z + 2 ^ (8 * Z.of_nat n - 1)).
Proof.
  destruct n as [|n]; [lia|]. intros _. unfold push_signed, to_be; fold to_be.
  rewrite <- app_assoc. cbn [app]. f_equal.
  replace (2 ^ (8 * Z.of_nat (S n) - 1)) with (128 * 256 ^ Z.of_nat n).
  2: { rewrite pow256_pow2. change 128 with (2 ^ 7). rewrite <- Z.pow_add_r by lia. f_equal. lia. }
  pose proof (pow256_pos n) as Hp. f_equal.
  - rewrite Z.div_add by lia. rewrite <- Zplus_mod_idemp_l.
    apply Z.eqb_eq. apply (forall_bytes (λ b, Z.lxor b 128 =? (b + 128) mod 256)); [by vm_compute|].
    apply Z.mod_pos_bound. lia.
  - rewrite <- (to_be_mod n z), <- (to_be_mod n (z + _)). by rewrite Z.mod_add by lia.
Qed.

Lemma cmp_by_signed out n a b :
  (0 < n)%nat → signed_ok (8 * Z.of_nat n) a → signed_ok (8 * Z.of_nat n) b →
  cmp_by (push_signed out (to_be n a)) (push_signed out (to_be n b)) (a ?= b).
Proof.
  intros Hn Ha Hb. rewrite !push_signed_be by done. apply cmp_by_prefix.
  set (k := 2 ^ (8 * Z.of_nat n - 1)). replace (a ?= b) with (a + k ?= b + k) by (destruct (Z.compare_spec (a + k) (b + k)), (Z.compare_spec a b); lia || done).
  assert (256 ^ Z.of_nat n = 2 * k) as E.
  { rewrite pow256_pow2. unfold k. rewrite <- Z.pow_succ_r by lia. f_equal. lia. }
  unfold signed_ok in *. fold k in Ha, Hb. apply cmp_by_to_be; lia.
Qed.

(** The rank of a float's bit pattern in the IEEE total order: sign and magnitude. *)
Definition float_rank (w bits : Z) : Z :=
  if bits <? 2 ^ (w - 1) then bits else 2 ^ (w - 1) - 1 - bits.

Lemma float_key_rank w bits :
  0 < w → unsigned_ok w bits → float_key w bits = float_rank w bits + 2 ^ (w - 1).
Proof.
  intros Hw [H0 H1]. unfold float_key, float_rank.
  assert (2 ^ w = 2 * 2 ^ (w - 1)) as Ew by (rewrite <- Z.pow_succ_r by lia; f_equal; lia).
  pose proof (Z.pow_pos_nonneg 2 (w - 1) ltac:(lia) ltac:(lia)) as Hp.
  rewrite Z.testbit_eqb by lia.
  destruct (Z.ltb_spec bits (2 ^ (w - 1))) as [Hlt|Hge].
  - rewrite Z.div_small by lia. change (0 mod 2 =? 1) with false. rewrite <- Z.add_nocarry_lor; [lia|].
    apply Z.bits_inj'. intros i Hi. rewrite Z.land_spec, Z.bits_0, Z.pow2_bits_eqb by lia.
    destruct (Z.eqb_spec (w - 1) i) as [<-|]; [|by rewrite andb_false_r].
    destruct (decide (bits = 0)) as [->|]; [by rewrite Z.bits_0|].
    rewrite Z.bits_above_log2; [done|lia|]. apply Z.log2_lt_pow2; lia.
  - assert (bits / 2 ^ (w - 1) = 1) as ->.
    { symmetry. apply (Z.div_unique _ _ _ (bits - 2 ^ (w - 1))); lia. }
    change (1 mod 2 =? 1) with true. rewrite Z.lxor_comm.
    assert (Z.lxor (Z.ones w) bits = Z.ones w - bits) as ->; [|rewrite Z.ones_equiv; lia].
    assert (∀ i, w ≤ i → Z.testbit bits i = false) as Hhi.
    { intros i Hi. apply Z.bits_above_log2; [lia|]. assert (Z.log2 bits < w) by (apply Z.log2_lt_pow2; lia). lia. }
    rewrite Z.sub_nocarry_ldiff; apply Z.bits_inj'; intros i Hi.
    + rewrite Z.lxor_spec, Z.ldiff_spec, Z.testbit_ones_nonneg by lia.
      destruct (Z.ltb_spec i w); [by destruct (Z.testbit bits i)|by rewrite Hhi].
    + rewrite Z.ldiff_spec, Z.testbit_ones_nonneg, Z.bits_0 by lia.
      destruct (Z.ltb_spec i w); [by rewrite andb_false_r|by rewrite Hhi].
Qed.

Lemma cmp_by_float n w a b :
  w = 8 * Z.of_nat n → (0 < n)%nat → unsigned_ok w a → unsigned_ok w b →
  cmp_by (to_be n (float_key w a)) (to_be n (float_key w b)) (float_rank w a ?= float_rank w b).
Proof.
  intros Ew Hn Ha Hb. rewrite !float_key_rank by (lia || done). set (k := 2 ^ (w - 1)).
  replace (float_rank w a ?= float_rank w b) with (float_rank w a + k ?= float_rank w b + k)
    by (destruct (Z.compare_spec (float_rank w a + k) (float_rank w b + k)), (Z.compare_spec (float_rank w a) (float_rank w b)); lia || done).
  assert (256 ^ Z.of_nat n = 2 * k) as E.
  { rewrite pow256_pow2, <- Ew. unfold k. rewrite <- Z.pow_succ_r by lia. f_equal. lia. }
  assert (2 ^ w = 2 * k) as E' by (by rewrite <- E, pow256_pow2, <- Ew).
  unfold unsigned_ok, float_rank in *. fold k.
  apply cmp_by_to_be; rewrite E; destruct (Z.ltb_spec a k), (Z.ltb_spec b k); lia.
Qed.

(** ** Byte strings *)

Fixpoint escaped (bs : bytes) : bytes :=
  match bs with
  | [] => [0; 1]
  | b :: bs => if b =? 0 then 0 :: 255 :: escaped bs else b :: escaped bs
  end.

Lemma ordered_bytes_eq out bs : ordered_bytes out bs = out ++ escaped bs.
Proof.
  unfold ordered_bytes, push. rewrite <- app_assoc. cbn.
  revert out; induction bs as [|b bs IH]; intros out; cbn [ordered_loop escaped]; [done|].
  rewrite IH. unfold push. destruct (Z.eqb_spec b 0) as [->|]; by rewrite <- ?app_assoc.
Qed.

Lemma cmp_by_escaped x y : bytes_ok x → bytes_ok y → cmp_by (escaped x) (escaped y) (bytes_cmp x y).
Proof.
  intros Hx. revert y; induction Hx as [|a x Ha Hx IH]; intros y Hy; destruct Hy as [|b y Hb Hy]; unfold byte_ok in *.
  - done.
  - cbn. destruct (Z.eqb_spec b 0) as [->|].
    + by exists [0], 1, 255, [], (escaped y).
    + exists [], 0, b, [1], (escaped y). split_and!; [done|done|lia].
  - cbn. destruct (Z.eqb_spec a 0) as [->|].
    + by exists [0], 1, 255, [], (escaped x).
    + exists [], 0, a, [1], (escaped x). split_and!; [done|done|lia].
  - cbn [escaped bytes_cmp]. destruct (Z.eqb_spec a 0) as [->|Ha0], (Z.eqb_spec b 0) as [->|Hb0].
    + rewrite Z.compare_refl. apply (cmp_by_prefix [0; 255]), IH, Hy.
    + assert ((0 ?= b) = Lt) as -> by (apply Z.compare_lt_iff; lia).
      eexists [], 0, b, _, _. split_and!; [done|done|lia].
    + assert ((a ?= 0) = Gt) as -> by (apply Z.compare_gt_iff; lia).
      eexists [], 0, a, _, _. split_and!; [done|done|lia].
    + apply (cmp_by_byte_cons a b _ _ _ (IH y Hy)).
Qed.

(** ** Magnitudes *)

(** A positive number's minimal bytes: no leading zero. *)
Definition minimal (bs : bytes) : Prop := bytes_ok bs ∧ ∃ b t, bs = b :: t ∧ 0 < b.

Lemma minimal_bound bs : minimal bs → 256 ^ (blen bs - 1) ≤ of_be bs < 256 ^ blen bs.
Proof.
  intros (Hok & b & t & -> & Hb). pose proof (of_be_bound _ Hok). split; [|lia].
  rewrite of_be_cons, blen_cons. replace (1 + blen t - 1) with (blen t) by lia.
  apply Forall_cons in Hok as [_ Hok]. pose proof (of_be_bound _ Hok). nia.
Qed.

Lemma minimal_len a b : minimal a → minimal b → blen a < blen b → of_be a < of_be b.
Proof.
  intros Ha Hb Hl. pose proof (minimal_bound _ Ha). pose proof (minimal_bound _ Hb).
  assert (256 ^ blen a ≤ 256 ^ (blen b - 1)) by (apply Z.pow_le_mono_r; lia). lia.
Qed.

(** Bytes of one length compare as the numbers they spell. *)
Lemma cmp_by_digits a b :
  bytes_ok a → bytes_ok b → length a = length b → cmp_by a b (of_be a ?= of_be b).
Proof.
  intros Ha Hb Hl. rewrite <- (to_be_of_be a Ha), <- (to_be_of_be b Hb) at 1. rewrite Hl.
  pose proof (of_be_bound a Ha). pose proof (of_be_bound b Hb). unfold blen in *. rewrite Hl in *.
  by apply cmp_by_to_be.
Qed.

(** A length written first decides; equal lengths leave it to the digits. *)
Lemma cmp_by_counted (f : Z → bytes) a b :
  (∀ x y, 0 < x < 2 ^ 64 → 0 < y < 2 ^ 64 → cmp_by (f x) (f y) (x ?= y)) →
  minimal a → minimal b → blen a < 2 ^ 64 → blen b < 2 ^ 64 →
  cmp_by (f (blen a) ++ a) (f (blen b) ++ b) (of_be a ?= of_be b).
Proof.
  intros Hf Ha Hb Hla Hlb.
  assert (∀ bs, minimal bs → 0 < blen bs) as Hpos.
  { intros bs (_ & x & t & -> & _). rewrite blen_cons. pose proof (blen_nonneg t). lia. }
  pose proof (Hf (blen a) (blen b) ltac:(split; [by apply Hpos|done]) ltac:(split; [by apply Hpos|done])) as Hlen.
  destruct (Z.compare_spec (blen a) (blen b)) as [E|Hl|Hl].
  - cbn in Hlen. rewrite Hlen. apply cmp_by_prefix, cmp_by_digits; [apply Ha|apply Hb|unfold blen in E; lia].
  - rewrite (proj2 (Z.compare_lt_iff _ _) (minimal_len a b Ha Hb Hl)). by apply below_app.
  - rewrite (proj2 (Z.compare_gt_iff _ _) (minimal_len b a Hb Ha Hl)). by apply below_app.
Qed.

Lemma trim_zeros_spec bs :
  bytes_ok bs → 0 < of_be bs → minimal (trim_zeros bs) ∧ of_be (trim_zeros bs) = of_be bs ∧ blen (trim_zeros bs) ≤ blen bs.
Proof.
  induction 1 as [|b bs Hb Hbs IH]; intros Hp; [by vm_compute in Hp|].
  rewrite of_be_cons in Hp. destruct (decide (b = 0)) as [->|Hne].
  - cbn [trim_zeros]. destruct IH as (? & E & ?); [lia|]. rewrite of_be_cons, blen_cons, E. split_and!; [done|lia|lia].
  - assert (trim_zeros (b :: bs) = b :: bs) as -> by by destruct b.
    split_and!; [|done|done]. split; [by constructor|]. exists b, bs. split; [done|]. unfold byte_ok in Hb. lia.
Qed.

Lemma put_uint_be_eq out mag :
  put_uint_be out mag = out ++ put_uint_be [] mag.
Proof. unfold put_uint_be, push. by rewrite <- !app_assoc. Qed.

Lemma cmp_by_uint a b :
  minimal a → minimal b → blen a < 2 ^ 64 → blen b < 2 ^ 64 →
  cmp_by (put_uint_be [] a) (put_uint_be [] b) (of_be a ?= of_be b).
Proof.
  apply (cmp_by_counted (λ n, push [] (blen (trim_zeros (to_be 8 n))) ++ trim_zeros (to_be 8 n))).
  intros x y Hx Hy.
  assert (∀ n, 0 < n < 2 ^ 64 → of_be (to_be 8 n) = n) as Hv.
  { intros n Hn. apply of_be_to_be_id. change (256 ^ Z.of_nat 8) with (2 ^ 64). lia. }
  destruct (trim_zeros_spec (to_be 8 x)) as (Hmx & Ex & Hlx); [apply to_be_bytes_ok|rewrite Hv by done; lia|].
  destruct (trim_zeros_spec (to_be 8 y)) as (Hmy & Ey & Hly); [apply to_be_bytes_ok|rewrite Hv by done; lia|].
  rewrite Hv in Ex, Ey by done. rewrite blen_to_be in Hlx, Hly. rewrite <- Ex, <- Ey at 3.
  apply (cmp_by_counted (λ n, push [] n)); [|done|done|change (2 ^ 64) with 18446744073709551616; lia..].
  intros n m _ _. unfold push; cbn [app]. rewrite <- (lex_eq_r (n ?= m)). by apply cmp_by_byte_cons.
Qed.

Context `{!ExtLaws}.

(** The program's big integers fit in memory. *)
Definition mag_ok (z : Z) : Prop := z ≠ 0 → blen (mag_to_bytes_be z) < 2 ^ 64.

Lemma mag_minimal_spec z : z ≠ 0 → minimal (mag_to_bytes_be z) ∧ of_be (mag_to_bytes_be z) = Z.abs z.
Proof.
  intros Hz. split; [|by apply mag_value]. split; [apply mag_bytes_ok|]. by apply mag_minimal.
Qed.

Lemma cmp_by_mag a b :
  0 < a → 0 < b → mag_ok a → mag_ok b →
  cmp_by (put_uint_be [] (mag_to_bytes_be a)) (put_uint_be [] (mag_to_bytes_be b)) (a ?= b).
Proof.
  intros Ha Hb Hoa Hob. destruct (mag_minimal_spec a ltac:(lia)) as [Hma Ea], (mag_minimal_spec b ltac:(lia)) as [Hmb Eb].
  pose proof (cmp_by_uint _ _ Hma Hmb (Hoa ltac:(lia)) (Hob ltac:(lia))) as Hc.
  rewrite Ea, Eb, !Z.abs_eq in Hc by lia. exact Hc.
Qed.

Lemma encode_signed_int_eq out v : encode_signed_int out v = out ++ encode_signed_int [] v.
Proof.
  unfold encode_signed_int. destruct (v =? 0); [done|].
  rewrite (put_uint_be_eq (push out POS)), (put_uint_be_eq (push [] POS)). unfold push.
  destruct (0 <? v); by rewrite <- ?app_assoc.
Qed.

Lemma cmp_by_signed_int a b :
  mag_ok a → mag_ok b → cmp_by (encode_signed_int [] a) (encode_signed_int [] b) (a ?= b).
Proof.
  intros Hoa Hob.
  set (cls z := if z =? 0 then ZERO else if 0 <? z then POS else NEG).
  set (rest z := if z =? 0 then [] else if 0 <? z then put_uint_be [] (mag_to_bytes_be z)
                 else inverted (put_uint_be [] (mag_to_bytes_be z))).
  assert (∀ z, encode_signed_int [] z = cls z :: rest z) as E.
  { intros z. unfold encode_signed_int, cls, rest. destruct (z =? 0); [done|].
    rewrite (put_uint_be_eq (push [] POS)). by destruct (0 <? z). }
  rewrite !E.
  assert ((a ?= b) = lex (cls a ?= cls b) (if cls a =? cls b then a ?= b else Eq)) as ->.
  { unfold cls. destruct (Z.eqb_spec a 0), (Z.ltb_spec 0 a), (Z.eqb_spec b 0), (Z.ltb_spec 0 b); try lia; cbn;
      destruct (Z.compare_spec a b); lia || done. }
  assert (cls a = cls b → cmp_by (rest a) (rest b) (a ?= b)) as Hr.
  { unfold cls, rest. intros Ec. destruct (Z.eqb_spec a 0) as [->|], (Z.eqb_spec b 0) as [->|]; try done;
      [by destruct (Z.ltb_spec 0 b)|by destruct (Z.ltb_spec 0 a)|].
    destruct (Z.ltb_spec 0 a), (Z.ltb_spec 0 b); try done.
    - by apply cmp_by_mag.
    - assert ((a ?= b) = CompOpp (- a ?= - b)) as ->
        by (rewrite <- Z.compare_antisym; destruct (Z.compare_spec a b), (Z.compare_spec (- b) (- a)); lia || done).
      apply cmp_by_inverted.
      destruct (mag_minimal_spec a ltac:(lia)) as [Hma Ea], (mag_minimal_spec b ltac:(lia)) as [Hmb Eb].
      pose proof (cmp_by_uint _ _ Hma Hmb (Hoa ltac:(lia)) (Hob ltac:(lia))) as Hc. rewrite Ea, Eb in Hc.
      by rewrite !Z.abs_neq in Hc by lia. }
  destruct (Z.eqb_spec (cls a) (cls b)) as [Ec|Hne].
  - apply cmp_by_byte_cons. by apply Hr.
  - assert (lex (cls a ?= cls b) Eq = (cls a ?= cls b)) as -> by apply lex_eq_r. by apply cmp_by_byte.
Qed.

Lemma mag_ok_mono x z : Z.abs x ≤ Z.abs z → mag_ok z → mag_ok x.
Proof.
  intros Hl Hz Hx. specialize (Hz ltac:(lia)). eapply Z.le_lt_trans; [|exact Hz].
  destruct (mag_minimal_spec x Hx) as [Hmx Ex], (mag_minimal_spec z ltac:(lia)) as [Hmz Ez].
  destruct (Z.le_gt_cases (blen (mag_to_bytes_be x)) (blen (mag_to_bytes_be z))) as [|Hgt]; [done|].
  pose proof (minimal_len _ _ Hmz Hmx ltac:(lia)). lia.
Qed.

(** ** Rationals *)

Lemma floor_step p q : 0 < q → floor_div p q = (p / q, p mod q).
Proof.
  intros Hq. unfold floor_div. pose proof (Z.quot_rem' p q) as E.
  pose proof (Z.rem_bound_abs p q ltac:(lia)) as Hb.
  replace (p - Z.quot p q * q) with (Z.rem p q) by lia.
  destruct (Z.ltb_spec (Z.rem p q) 0).
  - f_equal; [apply (Z.div_unique_pos p q _ (Z.rem p q + q))|apply (Z.mod_unique_pos p q (Z.quot p q - 1))]; lia.
  - f_equal; [apply (Z.div_unique_pos p q _ (Z.rem p q))|apply (Z.mod_unique_pos p q (Z.quot p q))]; lia.
Qed.

Lemma continued_fraction_eq fuel p q : 0 < q →
  continued_fraction (S fuel) p q = p / q :: (if p mod q =? 0 then [] else continued_fraction fuel q (p mod q)).
Proof. intros Hq. cbn [continued_fraction]. by rewrite (floor_step p q Hq). Qed.

(** The expansion of [p / q] ends within the fuel. *)
Fixpoint cf_ends (fuel : nat) (p q : Z) : Prop :=
  match fuel with
  | O => False
  | S fuel => p mod q = 0 ∨ cf_ends fuel q (p mod q)
  end.

Lemma cf_ends_pow k : ∀ p q, 0 < q < 2 ^ Z.of_nat k → cf_ends (S (2 * k)) p q.
Proof.
  induction k as [|k IH]; intros p q Hq; [lia|].
  replace (S (2 * S k)) with (S (S (S (2 * k)))) by lia. cbn [cf_ends].
  pose proof (Z.mod_pos_bound p q ltac:(lia)) as Hr. generalize dependent (p mod q). intros r Hr.
  destruct (decide (r = 0)) as [|Hr0]; [by left|right].
  pose proof (Z.mod_pos_bound q r ltac:(lia)) as Hs.
  destruct (decide (q mod r = 0)) as [|Hs0]; [by left|right].
  pose proof (Z.div_mod q r ltac:(lia)). assert (0 < q / r) by (apply Z.div_str_pos; lia).
  rewrite Nat2Z.inj_succ, Z.pow_succ_r in Hq by lia. apply IH. nia.
Qed.

Lemma cf_fuel_ends p q : 0 < q → cf_ends (cf_fuel q) p q.
Proof.
  intros Hq. unfold cf_fuel. apply cf_ends_pow. pose proof (Z.log2_nonneg q).
  rewrite Z2Nat.id by lia. rewrite Z.add_1_r.
  split; [done|]. by apply Z.log2_spec.
Qed.

(** What follows the first term: the terms from position [i], then the stop. *)
Fixpoint tail_enc (i : nat) (terms : list Z) : bytes :=
  match terms with
  | [] => [if Nat.even i then STOP_EVEN else STOP_ODD]
  | t :: terms =>
      let body := put_uint_be [] (mag_to_bytes_be t) in
      CONTINUE :: (if Nat.odd i then inverted body else body) ++ tail_enc (S i) terms
  end.

Lemma encode_terms_eq terms : ∀ out i,
  push (encode_terms out i terms) (if Nat.even (i + length terms) then STOP_EVEN else STOP_ODD) =
  out ++ tail_enc i terms.
Proof.
  induction terms as [|t terms IH]; intros out i; cbn [encode_terms tail_enc length].
  - by rewrite Nat.add_0_r.
  - rewrite Nat.add_succ_r, <- Nat.add_succ_l, IH. unfold push. by rewrite <- !app_assoc.
Qed.

Definition flip (i : nat) (c : comparison) : comparison := if Nat.odd i then c else CompOpp c.

Lemma cmp_swap a b c d : a = d → b = c → (a ?= b) = CompOpp (c ?= d).
Proof. intros -> ->. apply Z.compare_antisym. Qed.

Lemma cmp_by_flip i a b c : cmp_by a b (CompOpp c) →
  cmp_by (if Nat.odd i then inverted a else a) (if Nat.odd i then inverted b else b) (flip i c).
Proof.
  intros Hc. unfold flip. destruct (Nat.odd i); [|done]. rewrite <- (CompOpp_involutive c).
  by apply cmp_by_inverted.
Qed.

Lemma flip_lex i c d : flip i (lex c d) = lex (flip i c) (flip i d).
Proof. unfold flip. destruct (Nat.odd i), c; done. Qed.

Lemma flip_succ i c : flip (S i) c = flip i (CompOpp c).
Proof.
  unfold flip. rewrite Nat.odd_succ, <- Nat.negb_odd. by destruct (Nat.odd i); cbn; rewrite ?CompOpp_involutive.
Qed.

Lemma quotient_lt a1 a2 r1 r2 s1 s2 :
  0 < r1 → 0 < r2 → s1 < r1 → 0 ≤ s2 → a1 < a2 → r2 * (r1 * a1 + s1) < r1 * (r2 * a2 + s2).
Proof.
  intros H1 H2 Hs1 Hs2 Ha.
  assert (r2 * s1 < r2 * r1) by (apply Z.mul_lt_mono_pos_l; lia).
  assert ((r1 * r2) * (a1 + 1) ≤ (r1 * r2) * a2) by (apply Z.mul_le_mono_nonneg_l; nia).
  assert (0 ≤ r1 * s2) by nia. nia.
Qed.

(** The tails order the fractional parts [r / q], directly at odd positions and
    reversed at even ones. *)
Lemma cmp_by_tails f1 : ∀ f2 i q1 r1 q2 r2,
  0 ≤ r1 < q1 → 0 ≤ r2 < q2 → mag_ok q1 → mag_ok q2 →
  (r1 ≠ 0 → cf_ends f1 q1 r1) → (r2 ≠ 0 → cf_ends f2 q2 r2) →
  cmp_by (tail_enc i (if r1 =? 0 then [] else continued_fraction f1 q1 r1))
         (tail_enc i (if r2 =? 0 then [] else continued_fraction f2 q2 r2))
         (flip i (r1 * q2 ?= r2 * q1)).
Proof.
  assert (∀ i t, cmp_by [if Nat.even i then STOP_EVEN else STOP_ODD] (CONTINUE :: t) (flip i Lt)) as Hstop.
  { intros i t. unfold flip. rewrite <- Nat.negb_odd. destruct (Nat.odd i); cbn.
    - by exists [], 0, 1, [], t.
    - by exists [], 1, 2, t, []. }
  assert (∀ i t, cmp_by (CONTINUE :: t) [if Nat.even i then STOP_EVEN else STOP_ODD] (flip i Gt)) as Hstop'.
  { intros i t. unfold flip. rewrite <- Nat.negb_odd. destruct (Nat.odd i); cbn.
    - by exists [], 0, 1, [], t.
    - by exists [], 1, 2, t, []. }
  induction f1 as [|f1 IH]; intros f2 i q1 r1 q2 r2 H1 H2 Ho1 Ho2 He1 He2.
  { destruct (Z.eqb_spec r1 0) as [->|Hne]; [|by destruct (He1 Hne)].
    destruct (Z.eqb_spec r2 0) as [->|Hne2]; [by unfold flip; destruct (Nat.odd i)|].
    destruct f2; [by destruct (He2 Hne2)|]. rewrite continued_fraction_eq by lia. cbn [tail_enc].
    replace (0 * q2 ?= r2 * q1) with Lt by (symmetry; apply Z.compare_lt_iff; nia). apply Hstop. }
  destruct (Z.eqb_spec r1 0) as [->|Hne]; destruct (Z.eqb_spec r2 0) as [->|Hne2].
  - by unfold flip; destruct (Nat.odd i).
  - destruct f2; [by destruct (He2 Hne2)|]. rewrite continued_fraction_eq by lia. cbn [tail_enc].
    replace (0 * q2 ?= r2 * q1) with Lt by (symmetry; apply Z.compare_lt_iff; nia). apply Hstop.
  - rewrite continued_fraction_eq by lia. cbn [tail_enc].
    replace (r1 * q2 ?= 0 * q1) with Gt by (symmetry; apply Z.compare_gt_iff; nia). apply Hstop'.
  - destruct f2 as [|f2]; [by destruct (He2 Hne2)|]. rewrite !continued_fraction_eq by lia. cbn [tail_enc].
    specialize (He1 Hne). specialize (He2 Hne2). cbn [cf_ends] in He1, He2.
    pose proof (Z.div_mod q1 r1 ltac:(lia)) as D1. pose proof (Z.div_mod q2 r2 ltac:(lia)) as D2.
    pose proof (Z.mod_pos_bound q1 r1 ltac:(lia)) as B1. pose proof (Z.mod_pos_bound q2 r2 ltac:(lia)) as B2.
    assert (0 < q1 / r1 ∧ 0 < q2 / r2) as [P1 P2] by (split; apply Z.div_str_pos; lia).
    set (a1 := q1 / r1) in *. set (a2 := q2 / r2) in *. set (s1 := q1 mod r1) in *. set (s2 := q2 mod r2) in *.
    assert ((r1 * q2 ?= r2 * q1) = lex (CompOpp (a1 ?= a2)) (CompOpp (s1 * r2 ?= s2 * r1))) as ->.
    { destruct (Z.compare_spec a1 a2) as [E|Hlt|Hgt]; cbn.
      - rewrite <- Z.compare_antisym, D1, D2, E.
        destruct (Z.compare_spec (r1 * (r2 * a2 + s2)) (r2 * (r1 * a2 + s1))), (Z.compare_spec (s2 * r1) (s1 * r2)); nia || done.
      - apply Z.compare_gt_iff. rewrite D1, D2. apply quotient_lt; lia.
      - apply Z.compare_lt_iff. rewrite D1, D2. apply quotient_lt; lia. }
    rewrite flip_lex. apply (cmp_by_prefix [CONTINUE]). apply cmp_by_app.
    + apply cmp_by_flip. rewrite CompOpp_involutive. apply cmp_by_mag; try done.
      * apply (mag_ok_mono a1 q1); [nia|done].
      * apply (mag_ok_mono a2 q2); [nia|done].
    + rewrite <- flip_succ. apply IH; try done.
      * apply (mag_ok_mono r1 q1); [lia|done].
      * apply (mag_ok_mono r2 q2); [lia|done].
      * by destruct He1.
      * by destruct He2.
Qed.

Lemma cmp_by_rational v w :
  mag_ok (numer v) → mag_ok (denom v) → mag_ok (numer w) → mag_ok (denom w) →
  cmp_by (encode_rational [] v) (encode_rational [] w) (numer v * denom w ?= numer w * denom v).
Proof.
  assert (∀ u, ∃ f, (numer u mod denom u ≠ 0 → cf_ends f (denom u) (numer u mod denom u)) ∧
    encode_rational [] u = OTag.BIG_RATIONAL :: encode_signed_int [] (numer u / denom u) ++
      tail_enc 1 (if numer u mod denom u =? 0 then [] else continued_fraction f (denom u) (numer u mod denom u))) as Heq.
  { intros u. destruct (rational_lowest u) as [Hd _]. pose proof (cf_fuel_ends (numer u) _ Hd) as He.
    unfold encode_rational, cf_fuel in *. set (f := (2 * Z.to_nat (Z.log2 (denom u) + 1))%nat) in *.
    exists f. split; [by destruct He|]. rewrite continued_fraction_eq by done. cbn zeta. cbn [head tail default length].
    rewrite (encode_terms_eq _ _ 1). rewrite (encode_signed_int_eq (push [] _)). unfold push.
    by rewrite <- app_assoc. }
  intros Hnv Hdv Hnw Hdw. destruct (Heq v) as (f & He & ->), (Heq w) as (f' & He' & ->).
  destruct (rational_lowest v) as [Hv _], (rational_lowest w) as [Hw _].
  pose proof (Z.div_mod (numer v) (denom v) ltac:(lia)) as D1. pose proof (Z.div_mod (numer w) (denom w) ltac:(lia)) as D2.
  pose proof (Z.mod_pos_bound (numer v) (denom v) ltac:(lia)) as B1. pose proof (Z.mod_pos_bound (numer w) (denom w) ltac:(lia)) as B2.
  set (a1 := numer v / denom v) in *. set (a2 := numer w / denom w) in *.
  set (r1 := numer v mod denom v) in *. set (r2 := numer w mod denom w) in *.
  apply (cmp_by_prefix [OTag.BIG_RATIONAL]).
  assert ((numer v * denom w ?= numer w * denom v) = lex (a1 ?= a2) (flip 1 (r1 * denom w ?= r2 * denom v))) as ->.
  { unfold flip. cbn [Nat.odd Nat.even negb]. destruct (Z.compare_spec a1 a2) as [E|Hlt|Hgt]; cbn [lex].
    - rewrite D1, D2, E. destruct (Z.compare_spec ((denom v * a2 + r1) * denom w) ((denom w * a2 + r2) * denom v)),
        (Z.compare_spec (r1 * denom w) (r2 * denom v)); nia || done.
    - apply Z.compare_lt_iff. rewrite D1, D2, !(Z.mul_comm (_ + _)). apply quotient_lt; lia.
    - apply Z.compare_gt_iff. rewrite D1, D2, !(Z.mul_comm (_ + _)). apply quotient_lt; lia. }
  apply cmp_by_app.
  - apply cmp_by_signed_int.
    + apply (mag_ok_mono a1 (numer v)); [nia|done].
    + apply (mag_ok_mono a2 (numer w)); [nia|done].
  - by apply cmp_by_tails.
Qed.

(** ** Decimal floats *)

Fixpoint decimal (ds : bytes) : Z :=
  match ds with [] => 0 | x :: ds => x * 10 ^ blen ds + decimal ds end.

Definition digits_ok (ds : bytes) : Prop := Forall (λ x, 0 ≤ x ≤ 9) ds.

Lemma decimal_bound ds : digits_ok ds → 0 ≤ decimal ds < 10 ^ blen ds.
Proof.
  induction 1 as [|x ds Hx _ IH]; [by vm_compute|]. cbn [decimal]. rewrite blen_cons.
  pose proof (blen_nonneg ds). rewrite Z.pow_add_r by lia. change (10 ^ 1) with 10. nia.
Qed.

Lemma decimal_cmp a b :
  digits_ok a → digits_ok b → length a = length b → bytes_cmp a b = (decimal a ?= decimal b).
Proof.
  intros Ha. revert b; induction Ha as [|x a Hx Ha IH]; intros b Hb Hl; destruct Hb as [|y b Hy Hb]; try done.
  cbn in Hl. injection Hl as Hl. cbn [bytes_cmp decimal].
  pose proof (decimal_bound a Ha). pose proof (decimal_bound b Hb).
  assert (blen a = blen b) as El by (unfold blen; lia). rewrite El in *.
  pose proof (IH b Hb Hl) as IHb.
  destruct (Z.compare_spec x y) as [->|Hxy|Hxy].
  - rewrite IHb. destruct (Z.compare_spec (decimal a) (decimal b)),
      (Z.compare_spec (y * 10 ^ blen b + decimal a) (y * 10 ^ blen b + decimal b)); lia || done.
  - symmetry. apply Z.compare_lt_iff. nia.
  - symmetry. apply Z.compare_gt_iff. nia.
Qed.

(** Padded on the right to [K] digits. *)
Definition pad (K : nat) (ds : bytes) : bytes := ds ++ replicate (K - length ds) 0.

Lemma decimal_app a b : decimal (a ++ b) = decimal a * 10 ^ blen b + decimal b.
Proof.
  induction a as [|x a IH]; cbn [decimal app]; [lia|]. rewrite IH, blen_app.
  pose proof (blen_nonneg a). pose proof (blen_nonneg b). rewrite Z.pow_add_r by lia. ring.
Qed.

Lemma decimal_zeros n : decimal (replicate n 0) = 0.
Proof. induction n as [|n IH]; cbn [replicate decimal]; lia. Qed.

Lemma digits_ok_pad K ds : digits_ok ds → digits_ok (pad K ds).
Proof.
  intros Hd. apply Forall_app. split; [done|]. apply Forall_replicate. lia.
Qed.

(** No trailing zero. *)
Definition stripped (ds : bytes) : Prop := ∀ ds' , ds ≠ ds' ++ [0].

Lemma stripped_tail x ds : stripped (x :: ds) → stripped ds.
Proof. intros Hs ds' E. apply (Hs (x :: ds')). by rewrite E. Qed.

Lemma zeros_below m b k :
  digits_ok b → stripped b → b ≠ [] → m = (length b + k)%nat →
  bytes_cmp (replicate m 0) (b ++ replicate k 0) = Lt.
Proof.
  intros Hb. revert m; induction Hb as [|y b Hy Hb IH]; intros m Hs Hne Hm; [done|].
  cbn in Hm. subst m. cbn -[Z.compare]. destruct (Z.compare_spec 0 y) as [<-|Hlt|Hgt]; [|done|lia].
  apply IH; [by eapply stripped_tail| |done]. intros ->. by apply (Hs []).
Qed.

Lemma cmp_pad K a b :
  digits_ok a → digits_ok b → stripped a → stripped b → (length a ≤ K)%nat → (length b ≤ K)%nat →
  bytes_cmp (pad K a) (pad K b) = bytes_cmp a b.
Proof.
  unfold pad. intros Ha. revert K b; induction Ha as [|x a Hx Ha IH]; intros K b Hb Hsa Hsb Hla Hlb;
    destruct Hb as [|y b Hy Hb].
  - apply bytes_cmp_refl.
  - cbn [app length]. rewrite Nat.sub_0_r. apply (zeros_below K (y :: b) (K - S (length b))); [by constructor|done|done|].
    cbn in *. lia.
  - cbn [app length]. rewrite Nat.sub_0_r. cbn [bytes_cmp]. apply bytes_cmp_gt.
    apply (zeros_below K (x :: a) (K - S (length a))); [by constructor|done|done|]. cbn in *. lia.
  - cbn [length] in *. destruct K as [|K]; [lia|]. cbn [app bytes_cmp Nat.sub].
    rewrite (IH K b); try done; [by eapply stripped_tail|by eapply stripped_tail|lia|lia].
Qed.

Lemma pop_zeros_spec l : ∃ n l',
  pop_zeros l = l' ∧ l = replicate n 0 ++ l' ∧ ((∃ x, l' = [x]) ∨ l' = [] ∨ ∀ t, l' ≠ 0 :: t).
Proof.
  induction l as [|x l IH]; [exists 0%nat, []; auto|].
  destruct (decide (x = 0)) as [->|Hne].
  - destruct l as [|y l]; [exists 0%nat, [0]; eauto|].
    destruct IH as (n & l' & E & El & Hl). exists (S n), l'. split_and!; [done|cbn; by rewrite El|done].
  - assert (pop_zeros (x :: l) = x :: l) as E by by destruct x.
    exists 0%nat, (x :: l). split_and!; [done|done|]. right; right. intros t [= ? _]. done.
Qed.

Lemma strip_zeros_spec x ds :
  0 < x → ∃ n, x :: ds = strip_zeros (x :: ds) ++ replicate n 0 ∧ stripped (strip_zeros (x :: ds)).
Proof.
  intros Hx. unfold strip_zeros. destruct (pop_zeros_spec (rev (x :: ds))) as (n & l' & E & El & Hl).
  rewrite E. exists n.
  assert (x :: ds = rev l' ++ replicate n 0) as Ed.
  { rewrite <- (rev_involutive (x :: ds)), El, rev_app_distr. f_equal.
    clear. induction n as [|n IH]; [done|]. cbn. rewrite IH. by rewrite <- replicate_cons_app. }
  split; [done|]. intros ds' E'.
  assert (l' = 0 :: rev ds') as -> by (rewrite <- (rev_involutive l'), E', rev_app_distr; done).
  destruct Hl as [[y Hy]|[?|Hl]]; [|done|by eapply Hl].
  injection Hy as <- Hr. assert (ds' = []) as -> by (by rewrite <- (rev_involutive ds'), Hr).
  cbn in Ed. destruct n; injection Ed as ? ?; lia.
Qed.

Lemma pad_strip K x ds :
  0 < x → (length (x :: ds) ≤ K)%nat → pad K (strip_zeros (x :: ds)) = pad K (x :: ds).
Proof.
  intros Hx Hl. destruct (strip_zeros_spec x ds Hx) as (n & E & _). unfold pad.
  set (s := strip_zeros (x :: ds)) in *. rewrite E at 2. rewrite E in Hl |- *.
  rewrite length_app, length_replicate in *. rewrite <- app_assoc, <- replicate_add. do 2 f_equal. lia.
Qed.

Lemma strip_cmp K x a y b :
  0 < x → 0 < y → digits_ok (x :: a) → digits_ok (y :: b) →
  (length (x :: a) ≤ K)%nat → (length (y :: b) ≤ K)%nat →
  bytes_cmp (strip_zeros (x :: a)) (strip_zeros (y :: b)) = (decimal (pad K (x :: a)) ?= decimal (pad K (y :: b))).
Proof.
  intros Hx Hy Ha Hb Hla Hlb. destruct (strip_zeros_spec x a Hx) as (n & E & Hs), (strip_zeros_spec y b Hy) as (m & E' & Hs').
  rewrite <- (cmp_pad K _ _), !pad_strip; try done.
  - apply decimal_cmp; [by apply digits_ok_pad..|]. unfold pad. rewrite !length_app, !length_replicate. lia.
  - rewrite E in Ha. by apply Forall_app in Ha as [? _].
  - rewrite E' in Hb. by apply Forall_app in Hb as [? _].
  - rewrite E, length_app in Hla. lia.
  - rewrite E', length_app in Hlb. lia.
Qed.

(** A finite number's digits, with a significant leading one. *)
Definition bf_decimal (v : BigFloat) : Prop :=
  ∃ x ds, get_mantissa_bytes v = x :: ds ∧ 0 < x ∧ digits_ok (x :: ds).

Definition bf_finite (v : BigFloat) : bool := negb (is_nan v || is_inf_pos v || is_inf_neg v || is_zero v).
Definition bf_ok (v : BigFloat) : Prop := bf_finite v = true → bf_decimal v.

(** The number a finite float denotes, at the scale 10^168 (exponents are at least
    -128 and mantissas have at most 40 digits). *)
Definition bf_scaled (v : BigFloat) : Z :=
  if is_zero v then 0
  else (if is_negative v then -1 else 1) *
    (decimal (get_mantissa_bytes v) * 10 ^ (get_exponent v + 168)).

Definition bf_class (v : BigFloat) : Z :=
  if is_nan v then 3 else if is_inf_pos v then 2 else if is_inf_neg v then 0 else 1.

Definition bf_cmp (v w : BigFloat) : comparison :=
  lex (bf_class v ?= bf_class w) (if bf_class v =? 1 then bf_scaled v ?= bf_scaled w else Eq).

Definition bf_exp10 (v : BigFloat) : Z := blen (get_mantissa_bytes v) - 1 + get_exponent v.
Definition bf_body (v : BigFloat) : bytes :=
  push_signed [] (to_be 2 (as_i16 (bf_exp10 v))) ++ escaped (strip_zeros (get_mantissa_bytes v)).

Lemma bf_magnitude v : bf_decimal v →
  let K := 40%nat in let m := decimal (pad K (get_mantissa_bytes v)) in
  -128 ≤ bf_exp10 v ≤ 166 ∧ 10 ^ 39 ≤ m < 10 ^ 40 ∧
  decimal (get_mantissa_bytes v) * 10 ^ (get_exponent v + 168) = m * 10 ^ (bf_exp10 v + 129).
Proof.
  intros (x & ds & E & Hx & Hd) K m. destruct (mantissa_bytes v) as [_ Hl]. pose proof (exponent_bound v) as He.
  assert (-128 ≤ get_exponent v ≤ 127) as He' by (unfold signed_ok in He; lia).
  unfold m, bf_exp10. rewrite E in *. set (ms := x :: ds) in *.
  assert (1 ≤ blen ms) by (unfold ms; rewrite blen_cons; pose proof (blen_nonneg ds); lia).
  assert (blen (pad K ms) = 40) as Hp.
  { unfold pad. rewrite blen_app. unfold blen in *. rewrite length_replicate. unfold K. lia. }
  assert (decimal (pad K ms) = decimal ms * 10 ^ (40 - blen ms)) as Hdec.
  { unfold pad. rewrite decimal_app, decimal_zeros. unfold blen at 1. rewrite length_replicate, Z.add_0_r.
    do 2 f_equal. unfold blen, K in *. lia. }
  split_and!; [lia|lia| | |].
  - rewrite Hdec. unfold ms. cbn [decimal]. pose proof (decimal_bound ds) as Hb.
    rewrite Z.mul_add_distr_r, <- Z.mul_assoc, <- Z.pow_add_r by (unfold ms in *; rewrite ?blen_cons in *; pose proof (blen_nonneg ds); lia).
    unfold ms in *; rewrite blen_cons in *. replace (blen ds + (40 - (1 + blen ds))) with 39 by lia.
    apply Forall_cons in Hd as [? Hd]. specialize (Hb Hd).
    assert (0 ≤ 10 ^ (40 - (1 + blen ds))) by (apply Z.pow_nonneg; lia). nia.
  - pose proof (decimal_bound (pad K ms) (digits_ok_pad K ms Hd)) as Hb. rewrite Hp in Hb. lia.
  - rewrite Hdec, <- Z.mul_assoc, <- Z.pow_add_r by lia. do 2 f_equal. lia.
Qed.

Lemma scale_lt m1 m2 k1 k2 :
  10 ^ 39 ≤ m1 < 10 ^ 40 → 10 ^ 39 ≤ m2 < 10 ^ 40 → 0 ≤ k1 < k2 → m1 * 10 ^ k1 < m2 * 10 ^ k2.
Proof.
  intros H1 H2 Hk. replace k2 with (1 + (k1 + (k2 - k1 - 1))) by lia.
  rewrite Z.pow_add_r, Z.pow_add_r by lia. change (10 ^ 1) with 10.
  pose proof (Z.pow_pos_nonneg 10 k1 ltac:(lia) ltac:(lia)).
  pose proof (Z.pow_pos_nonneg 10 (k2 - k1 - 1) ltac:(lia) ltac:(lia)).
  change (10 ^ 40) with (10 * 10 ^ 39) in *. set (t := 10 ^ 39) in *. set (a := 10 ^ k1) in *. set (b := 10 ^ (k2 - k1 - 1)) in *.
  assert (m1 * a < 10 * t * a) by nia. assert (10 * t * a ≤ m2 * 10 * a) by nia. nia.
Qed.

Lemma as_i16_id z : -128 ≤ z ≤ 166 → as_i16 z = z.
Proof.
  intros Hz. unfold as_i16, to_signed. change (2 ^ (16 - 1)) with 32768. change (2 ^ 16) with 65536.
  destruct (Z.lt_ge_cases z 0).
  - replace (z mod 65536) with (z + 65536) by (rewrite <- (Z.mod_add z 1) by lia; rewrite Z.mod_small; lia).
    destruct (Z.ltb_spec (z + 65536) 32768); lia.
  - rewrite Z.mod_small by lia. destruct (Z.ltb_spec z 32768); lia.
Qed.

Lemma strip_bytes_ok x ds : 0 < x → digits_ok (x :: ds) → bytes_ok (strip_zeros (x :: ds)).
Proof.
  intros Hx Hd. destruct (strip_zeros_spec x ds Hx) as (n & E & _). rewrite E in Hd.
  apply Forall_app in Hd as [Hd _]. eapply Forall_impl; [exact Hd|]. unfold byte_ok. cbn. lia.
Qed.

Lemma cmp_by_bf_body v w : bf_decimal v → bf_decimal w →
  cmp_by (bf_body v) (bf_body w)
    (decimal (get_mantissa_bytes v) * 10 ^ (get_exponent v + 168) ?=
     decimal (get_mantissa_bytes w) * 10 ^ (get_exponent w + 168)).
Proof.
  intros Hv Hw. destruct (bf_magnitude v Hv) as (Bv & Mv & ->), (bf_magnitude w Hw) as (Bw & Mw & ->).
  unfold bf_body. rewrite !as_i16_id by done.
  destruct Hv as (x & a & Ev & Hx & Ha), Hw as (y & b & Ew & Hy & Hb).
  pose proof (mantissa_bytes v) as [_ Hlv]. pose proof (mantissa_bytes w) as [_ Hlw].
  rewrite Ev, Ew in *.
  set (m1 := decimal (pad 40 (x :: a))) in *. set (m2 := decimal (pad 40 (y :: b))) in *.
  assert ((m1 * 10 ^ (bf_exp10 v + 129) ?= m2 * 10 ^ (bf_exp10 w + 129)) = lex (bf_exp10 v ?= bf_exp10 w) (m1 ?= m2)) as ->.
  { destruct (Z.compare_spec (bf_exp10 v) (bf_exp10 w)) as [->|Hlt|Hgt]; cbn [lex].
    - pose proof (Z.pow_pos_nonneg 10 (bf_exp10 w + 129) ltac:(lia) ltac:(lia)).
      destruct (Z.compare_spec m1 m2) as [->|?|?]; [apply Z.compare_refl|apply Z.compare_lt_iff; nia|apply Z.compare_gt_iff; nia].
    - apply Z.compare_lt_iff, scale_lt; lia.
    - apply Z.compare_gt_iff, scale_lt; lia. }
  apply cmp_by_app.
  - apply cmp_by_signed; [lia|unfold signed_ok; lia..].
  - unfold m1, m2. rewrite <- strip_cmp; try done; [|unfold blen in *; lia..].
    apply cmp_by_escaped; by apply strip_bytes_ok.
Qed.

Definition bf_tag (v : BigFloat) : Z :=
  if is_nan v then OTag.BIG_FLOAT_NAN
  else if is_inf_pos v then OTag.BIG_FLOAT_POS_INF
  else if is_inf_neg v then OTag.BIG_FLOAT_NEG_INF
  else if is_zero v then OTag.BIG_FLOAT_ZERO
  else if is_negative v then OTag.BIG_FLOAT_NEG else OTag.BIG_FLOAT_POS.

Definition bf_rest (v : BigFloat) : bytes :=
  if bf_finite v then if is_negative v then inverted (bf_body v) else bf_body v else [].

Lemma encode_bigfloat_eq out v : encode_bigfloat out v = out ++ bf_tag v :: bf_rest v.
Proof.
  unfold encode_bigfloat, bf_tag, bf_rest, bf_finite, push, bf_body, bf_exp10.
  destruct (is_nan v), (is_inf_pos v), (is_inf_neg v), (is_zero v); cbn [negb orb]; try done.
  cbn zeta. rewrite ordered_bytes_eq. destruct (is_negative v); by rewrite <- app_assoc.
Qed.

Lemma bf_scaled_sign v : bf_ok v → bf_finite v = true →
  if is_negative v then bf_scaled v < 0 else 0 < bf_scaled v.
Proof.
  intros Hok Hf. destruct (bf_magnitude v (Hok Hf)) as (B & M & E). unfold bf_scaled. rewrite E.
  unfold bf_finite in Hf. destruct (is_zero v); [by destruct (is_nan v), (is_inf_pos v), (is_inf_neg v)|].
  pose proof (Z.pow_pos_nonneg 10 (bf_exp10 v + 129) ltac:(lia) ltac:(lia)).
  assert (0 < 10 ^ 39) by done. destruct (is_negative v); nia.
Qed.

Lemma cmp_by_bigfloat v w : bf_ok v → bf_ok w →
  cmp_by (encode_bigfloat [] v) (encode_bigfloat [] w) (bf_cmp v w).
Proof.
  intros Hv Hw. rewrite !encode_bigfloat_eq. cbn [app].
  pose proof (bf_scaled_sign v Hv) as Sv. pose proof (bf_scaled_sign w Hw) as Sw.
  destruct (bf_finite v) eqn:Fv; destruct (bf_finite w) eqn:Fw.
  - specialize (Sv eq_refl). specialize (Sw eq_refl).
    pose proof (cmp_by_bf_body v w (Hv Fv) (Hw Fw)) as Hb.
    unfold bf_cmp, bf_class, bf_tag, bf_rest, bf_scaled in *. rewrite Fv, Fw.
    unfold bf_finite in Fv, Fw.
    destruct (is_nan v), (is_inf_pos v), (is_inf_neg v), (is_zero v); try done.
    destruct (is_nan w), (is_inf_pos w), (is_inf_neg w), (is_zero w); try done. cbn [lex Z.compare Z.eqb Pos.eqb Pos.compare].
    set (m1 := decimal (get_mantissa_bytes v) * _) in *. set (m2 := decimal (get_mantissa_bytes w) * _) in *.
    destruct (is_negative v), (is_negative w).
    + apply (cmp_by_prefix [OTag.BIG_FLOAT_NEG]).
      replace (-1 * m1 ?= -1 * m2) with (CompOpp (m1 ?= m2)); [by apply cmp_by_inverted|].
      rewrite <- Z.compare_antisym. destruct (Z.compare_spec m2 m1), (Z.compare_spec (-1 * m1) (-1 * m2)); lia || done.
    + rewrite (proj2 (Z.compare_lt_iff _ _)) by lia. by apply (cmp_by_byte 23 25).
    + rewrite (proj2 (Z.compare_gt_iff _ _)) by lia. by apply (cmp_by_byte 25 23).
    + apply (cmp_by_prefix [OTag.BIG_FLOAT_POS]). by rewrite !Z.mul_1_l.
  - specialize (Sv eq_refl). unfold bf_cmp, bf_class, bf_tag, bf_rest, bf_scaled in *. rewrite Fv, Fw. unfold bf_finite in Fv, Fw.
    destruct (is_nan v), (is_inf_pos v), (is_inf_neg v), (is_zero v); try done.
    destruct (is_nan w), (is_inf_pos w), (is_inf_neg w), (is_zero w); try done; destruct (is_negative v); try by apply cmp_by_byte.
    + rewrite (proj2 (Z.compare_lt_iff _ 0)) by lia. by apply (cmp_by_byte 23 24).
    + rewrite (proj2 (Z.compare_gt_iff _ 0)) by lia. by apply (cmp_by_byte 25 24).
  - specialize (Sw eq_refl). unfold bf_cmp, bf_class, bf_tag, bf_rest, bf_scaled in *. rewrite Fv, Fw. unfold bf_finite in Fv, Fw.
    destruct (is_nan w), (is_inf_pos w), (is_inf_neg w), (is_zero w); try done.
    destruct (is_nan v), (is_inf_pos v), (is_inf_neg v), (is_zero v); try done; destruct (is_negative w); try by apply cmp_by_byte.
    + rewrite (proj2 (Z.compare_gt_iff 0 _)) by lia. by apply (cmp_by_byte 24 23).
    + rewrite (proj2 (Z.compare_lt_iff 0 _)) by lia. by apply (cmp_by_byte 24 25).
  - unfold bf_cmp, bf_class, bf_tag, bf_rest, bf_scaled in *. rewrite Fv, Fw. unfold bf_finite in Fv, Fw.
    destruct (is_nan v), (is_inf_pos v), (is_inf_neg v), (is_zero v); try done;
    destruct (is_nan w), (is_inf_pos w), (is_inf_neg w), (is_zero w); try done; by apply cmp_by_byte.
Qed.

(** ** The theorem *)

(** Values of one kind compare as their meaning does; kinds come in declaration
    order. *)
Definition kind_rank (s : Scalar) : Z :=
  match s with
  | Null => 0 | Bool _ => 1 | I8 _ => 2 | I16 _ => 3 | I32 _ => 4 | I64 _ => 5 | I128 _ => 6
  | U8 _ => 7 | U16 _ => 8 | U32 _ => 9 | U64 _ => 10 | U128 _ => 11 | F32 _ => 12 | F64 _ => 13
  | Str _ => 14 | Bytes _ => 15 | Uuid _ => 16 | Date _ => 17 | Time _ => 18 | DateTime _ => 19
  | Duration _ => 20 | BigInt _ => 21 | BigFloatS _ => 22 | Rational _ => 28
  end.

Definition time_cmp (a b : NaiveTime) : comparison :=
  lex (num_seconds_from_midnight a ?= num_seconds_from_midnight b) (nanosecond a ?= nanosecond b).
Definition date_cmp (a b : NaiveDate) : comparison := num_days_from_ce a ?= num_days_from_ce b.
Definition td_nanos (d : TimeDelta) : Z := td_num_seconds d * 10 ^ 9 + td_subsec_nanos d.

Definition scalar_cmp (x y : Scalar) : comparison :=
  match x, y with
  | Bool a, Bool b => Z.b2z a ?= Z.b2z b
  | I8 a, I8 b | I16 a, I16 b | I32 a, I32 b | I64 a, I64 b | I128 a, I128 b
  | U8 a, U8 b | U16 a, U16 b | U32 a, U32 b | U64 a, U64 b | U128 a, U128 b
  | Uuid a, Uuid b | BigInt a, BigInt b => a ?= b
  | F32 a, F32 b => float_rank 32 a ?= float_rank 32 b
  | F64 a, F64 b => float_rank 64 a ?= float_rank 64 b
  | Str a, Str b | Bytes a, Bytes b => bytes_cmp a b
  | Date a, Date b => date_cmp a b
  | Time a, Time b => time_cmp a b
  | DateTime a, DateTime b => lex (date_cmp (dt_date a) (dt_date b)) (time_cmp (dt_time a) (dt_time b))
  | Duration a, Duration b => td_nanos a ?= td_nanos b
  | BigFloatS a, BigFloatS b => bf_cmp a b
  | Rational a, Rational b => numer a * denom b ?= numer b * denom a
  | _, _ => kind_rank x ?= kind_rank y
  end.

(** What the program's types guarantee of a scalar, and magnitudes that fit in
    memory. *)
Definition sortable (s : Scalar) : Prop :=
  scalar_ok s ∧
  match s with
  | BigInt v => mag_ok v
  | BigFloatS v => bf_ok v
  | Rational v => mag_ok (numer v) ∧ mag_ok (denom v)
  | _ => True
  end.

Definition otag (s : Scalar) : Z := match s with BigFloatS v => bf_tag v | _ => kind_rank s end.

Lemma push_signed_app out be : push_signed out be = out ++ push_signed [] be.
Proof. destruct be; cbn; [by rewrite app_nil_r|by rewrite <- app_assoc]. Qed.

Lemma encode_ascending_eq s : ∃ t, ∀ out, encode_ascending out s = out ++ otag s :: t.
Proof.
  destruct s; cbn [encode_ascending otag kind_rank]; unfold signed, unsigned, push;
    try (eexists; intros out; rewrite ?(push_signed_app (out ++ [_])), ?(ordered_bytes_eq (out ++ [_])),
      <- ?app_assoc; reflexivity).
  - eexists; intros out. rewrite encode_signed_int_eq, <- app_assoc. reflexivity.
  - eexists; intros out. by rewrite encode_bigfloat_eq.
  - assert (∃ t ts, continued_fraction (cf_fuel (denom v)) (numer v) (denom v) = t :: ts) as (t & ts & E).
    { unfold cf_fuel. cbn [continued_fraction]. destruct (floor_div _ _). eauto. }
    eexists; intros out. unfold encode_rational. rewrite E. cbn zeta. cbn [length head tail default].
    rewrite (encode_terms_eq _ _ 1), encode_signed_int_eq. unfold push. rewrite <- !app_assoc. reflexivity.
Qed.

Lemma encode_ascending_app out s : encode_ascending out s = out ++ encode_ascending [] s.
Proof. destruct (encode_ascending_eq s) as [t E]. by rewrite !E. Qed.

Lemma cmp_by_time a b :
  cmp_by (to_be 4 (num_seconds_from_midnight a) ++ to_be 4 (nanosecond a))
         (to_be 4 (num_seconds_from_midnight b) ++ to_be 4 (nanosecond b)) (time_cmp a b).
Proof. destruct (time_bound a), (time_bound b). by apply cmp_by_app; apply cmp_by_to_be. Qed.

Lemma td_nanos_ok d : signed_ok 128 (td_nanos d).
Proof.
  destruct (td_bound d) as [H1 H2]. unfold signed_ok, td_nanos, TD_MAX_SECS in *.
  change (2 ^ (128 - 1)) with 170141183460469231731687303715884105728. change (10 ^ 9) with 1000000000 in *. lia.
Qed.

Lemma scalar_cmp_by x y :
  sortable x → sortable y → cmp_by (encode_ascending [] x) (encode_ascending [] y) (scalar_cmp x y).
Proof.
  intros [Hx Hx'] [Hy Hy']. destruct (decide (kind_rank x = kind_rank y)) as [Ek|Hne].
  - destruct x, y; try discriminate Ek; clear Ek; cbn [encode_ascending scalar_cmp scalar_ok] in *;
      unfold signed, unsigned, push; cbn [app];
      try (apply cmp_by_signed; [lia|assumption..]); try (apply (cmp_by_prefix [_]); by apply cmp_by_to_be).
    + done.
    + destruct v, v0; cbn; try done; by exists [1], 0, 1, [], [].
    + apply (cmp_by_prefix [_]). rewrite <- (lex_eq_r (v ?= v0)). by apply cmp_by_byte_cons.
    + apply (cmp_by_prefix [_]). apply (cmp_by_float 4 32); [done|lia|done|done].
    + apply (cmp_by_prefix [_]). apply (cmp_by_float 8 64); [done|lia|done|done].
    + rewrite !ordered_bytes_eq. apply cmp_by_prefix, cmp_by_escaped; naive_solver.
    + rewrite !ordered_bytes_eq. apply cmp_by_prefix, cmp_by_escaped; naive_solver.
    + apply cmp_by_signed; [lia|apply date_bound..].
    + apply (cmp_by_prefix [_]), cmp_by_time.
    + rewrite !(push_signed_app [_]), <- !app_assoc. apply cmp_by_prefix, cmp_by_app; [|apply cmp_by_time].
      apply cmp_by_signed; [lia|apply date_bound..].
    + apply cmp_by_signed; [lia|apply td_nanos_ok..].
    + rewrite !(encode_signed_int_eq [_]). by apply cmp_by_prefix, cmp_by_signed_int.
    + by apply cmp_by_bigfloat.
    + destruct Hx', Hy'. by apply cmp_by_rational.
  - assert (scalar_cmp x y = (kind_rank x ?= kind_rank y)) as -> by (by destruct x, y).
    assert (∀ v, 22 ≤ bf_tag v ≤ 27) as Hbt.
    { intros v. unfold bf_tag. destruct (is_nan v), (is_inf_pos v), (is_inf_neg v), (is_zero v), (is_negative v); by vm_compute. }
    assert (otag x ≠ otag y ∧ (kind_rank x ?= kind_rank y) = (otag x ?= otag y)) as [Hnt ->].
    { destruct x, y; try done; cbn [otag kind_rank] in *;
        try (match goal with |- context [bf_tag ?v] => specialize (Hbt v) end);
        (split; [lia|]); symmetry; first [apply Z.compare_lt_iff; lia|apply Z.compare_gt_iff; lia]. }
    destruct (encode_ascending_eq x) as [t ->], (encode_ascending_eq y) as [t' ->]. by apply cmp_by_byte.
Qed.

Lemma encode_scalar_eq out s desc :
  encode_scalar out s desc = out ++ (if desc then inverted (encode_ascending [] s) else encode_ascending [] s).
Proof.
  unfold encode_scalar. rewrite encode_ascending_app. destruct desc; [|done].
  by rewrite take_app_length, drop_app_length.
Qed.

Definition directed (desc : bool) (c : comparison) : comparison := if desc then CompOpp c else c.

Lemma encode_scalar_cmp_by desc x y :
  sortable x → sortable y →
  cmp_by (encode_scalar [] x desc) (encode_scalar [] y desc) (directed desc (scalar_cmp x y)).
Proof.
  intros Hx Hy. rewrite !encode_scalar_eq. pose proof (scalar_cmp_by x y Hx Hy) as Hc.
  destruct desc; [by apply cmp_by_inverted|done].
Qed.
End ordered.
