(* ===== verification/Path.v ===== *)
(** * Paths

    [path/]: the intra-value path [VPath] (names and list indices) and the access
    path [APath] (names only), their parsers with [.]/[..] normalization, and
    their [Display].  A path is the list of its segments; strings are their
    UTF-8 bytes, so splitting at an ASCII character is splitting at its byte. *)
From S2P Require Import Prelude Codec.

(** ASCII codes. *)
Definition SLASH : Z := 47.
Definition LBRACK : Z := 91.
Definition RBRACK : Z := 93.
Definition DOT : bytes := [46].
Definition DOTDOT : bytes := [46; 46].

(** ** Standard-library string functions *)

(** [str::split(c)]. *)
Fixpoint split_on (c : Z) (s : bytes) : list bytes :=
  match s with
  | [] => [[]]
  | b :: s =>
      if b =? c then [] :: split_on c s
      else match split_on c s with
           | [] => [[b]]
           | t :: ts => (b :: t) :: ts
           end
  end.

(** [str::find(c)]: the prefix before the first [c], and the rest from it. *)
Fixpoint find_split (c : Z) (s : bytes) : option (bytes * bytes) :=
  match s with
  | [] => None
  | b :: s' =>
      if b =? c then Some ([], s)
      else match find_split c s' with
           | Some (pre, rest) => Some (b :: pre, rest)
           | None => None
           end
  end.

(** [from_str] of an integer type: an optional [+], then at least one digit, no
    overflow of [max]. *)
Fixpoint parse_digits (max acc : Z) (s : bytes) : option Z :=
  match s with
  | [] => Some acc
  | b :: s =>
      if in_range 48 57 b then
        let acc := acc * 10 + (b - 48) in
        if acc <=? max then parse_digits max acc s else None
      else None
  end.
Definition parse_u64 (s : bytes) : option Z :=
  match s with
  | [] => None
  | 43 :: [] => None
  | 43 :: s => parse_digits U64_MAX 0 s
  | _ => parse_digits U64_MAX 0 s
  end.

(** [Display] of a [u64]: at most 20 decimal digits. *)
Fixpoint show_dec (fuel : nat) (z : Z) (acc : bytes) : bytes :=
  match fuel with
  | O => acc
  | S fuel => if z <? 10 then (48 + z) :: acc
              else show_dec fuel (z / 10) ((48 + z mod 10) :: acc)
  end.
Definition show_u64 (z : Z) : bytes := show_dec 20 z [].

(** ** Segments *)

Inductive Segment : Type :=
| Name (name : bytes)
| Index (i : Z).

Abbreviation VPath := (list Segment).
Abbreviation APath := (list bytes).

(** [path/functions.rs] *)
Definition reserved (b : Z) : bool := (b =? SLASH) || (b =? LBRACK) || (b =? RBRACK).

Definition validate_name (name : bytes) : res unit :=
  if existsb reserved name then Err (InvalidPath "reserved character in segment '{name}' of '{full}'")
  else if bool_decide (name = DOT ∨ name = DOTDOT)
       then Err (InvalidPath "reserved segment '{name}' in '{full}'")
       else Ok tt.

Fixpoint parse_brackets (fuel : nat) (rest : bytes) (out : VPath) : res VPath :=
  match rest with
  | [] => Ok out
  | c :: inner =>
      match fuel with
      | O => OutOfFuel
      | S fuel =>
          if negb (c =? LBRACK) then Err (InvalidPath "expected '[' in segment of '{full}'")
          else match find_split RBRACK inner with
               | None => Err (InvalidPath "unclosed '[' in '{full}'")
               | Some (digits, close_rest) =>
                   let? index := ok_or (parse_u64 digits)
                                   (InvalidPath "invalid index '{digits}' in '{full}'") in
                   parse_brackets fuel (drop 1 close_rest) (out ++ [Index index])
               end
      end
  end.

Definition parse_token (token : bytes) (out : VPath) : res VPath :=
  match find_split LBRACK token with
  | None => let? _ := validate_name token in Ok (out ++ [Name token])
  | Some (name, rest) =>
      let? out := match name with
                  | [] => Ok out
                  | _ => let? _ := validate_name name in Ok (out ++ [Name name])
                  end in
      parse_brackets (length rest) rest out
  end.

(** [SmallVec::pop]: drops the last element; [None] when there is none. *)
Definition pop {A} (l : list A) : option (list A) :=
  match rev l with [] => None | _ :: l => Some (rev l) end.

(** [FromStr for VPath], the loop over tokens and the whole parser. *)
Fixpoint vpath_tokens (tokens : list bytes) (segments : VPath) : res VPath :=
  match tokens with
  | [] => Ok segments
  | token :: tokens =>
      let? segments :=
        match token with
        | [] => Err (InvalidPath "empty segment in '{s}'")
        | _ =>
            if bool_decide (token = DOT) then Ok segments
            else if bool_decide (token = DOTDOT)
                 then ok_or (pop segments) (InvalidPath "'{s}' rises above the root")
                 else parse_token token segments
        end in
      vpath_tokens tokens segments
  end.
Definition VPath_parse (s : bytes) : res VPath :=
  match s with
  | [] => Ok []
  | _ => vpath_tokens (split_on SLASH s) []
  end.

(** [FromStr for APath]. *)
Fixpoint apath_tokens (tokens : list bytes) (names : APath) : res APath :=
  match tokens with
  | [] => Ok names
  | token :: tokens =>
      let? names :=
        match token with
        | [] => Err (InvalidPath "empty segment in '{s}'")
        | _ =>
            if bool_decide (token = DOT) then Ok names
            else if bool_decide (token = DOTDOT)
                 then ok_or (pop names) (InvalidPath "'{s}' rises above the root")
                 else let? _ := validate_name token in Ok (names ++ [token])
        end in
      apath_tokens tokens names
  end.
Definition APath_parse (s : bytes) : res APath :=
  match s with
  | [] => Ok []
  | _ => apath_tokens (split_on SLASH s) []
  end.

(** [Display]. *)
Fixpoint vpath_fmt (first : bool) (p : VPath) : bytes :=
  match p with
  | [] => []
  | Name n :: p => (if first then [] else [SLASH]) ++ n ++ vpath_fmt false p
  | Index i :: p => [LBRACK] ++ show_u64 i ++ [RBRACK] ++ vpath_fmt false p
  end.
Definition VPath_to_string (p : VPath) : bytes := vpath_fmt true p.

Fixpoint apath_fmt (first : bool) (p : APath) : bytes :=
  match p with
  | [] => []
  | n :: p => (if first then [] else [SLASH]) ++ n ++ apath_fmt false p
  end.
Definition APath_to_string (p : APath) : bytes := apath_fmt true p.

(** Construction: [push_name] / [child_name], [child_index], [join], [parent],
    [split_last]. *)
Definition VPath_push_name (p : VPath) (name : bytes) : VPath :=
  if bool_decide (name = DOT) then p
  else if bool_decide (name = DOTDOT) then default [] (pop p)
  else p ++ [Name name].
Definition VPath_child_index (p : VPath) (i : Z) : VPath := p ++ [Index i].
Definition VPath_join (p tail : VPath) : VPath := p ++ tail.
Definition VPath_parent (p : VPath) : option VPath := pop p.

Definition APath_push_name (p : APath) (name : bytes) : APath :=
  if bool_decide (name = DOT) then p
  else if bool_decide (name = DOTDOT) then default [] (pop p)
  else p ++ [name].
Definition APath_join (p tail : APath) : APath := p ++ tail.
Definition APath_parent (p : APath) : option APath := pop p.
Definition APath_split_last (p : APath) : option (APath * bytes) :=
  match rev p with [] => None | n :: h => Some (rev h, n) end.

(** [dst.names().starts_with(src.names())]. *)
Fixpoint names_start_with (p pre : APath) : bool :=
  match pre, p with
  | [], _ => true
  | _ :: _, [] => false
  | a :: pre, b :: p => bool_decide (a = b) && names_start_with p pre
  end.

(** ** Well-formed paths *)

Definition name_ok (n : bytes) : Prop :=
  n ≠ [] ∧ existsb reserved n = false ∧ n ≠ DOT ∧ n ≠ DOTDOT.
Definition segment_ok (s : Segment) : Prop :=
  match s with Name n => name_ok n | Index i => 0 ≤ i ≤ U64_MAX end.
Definition vpath_ok (p : VPath) : Prop := Forall segment_ok p.
Definition apath_ok (p : APath) : Prop := Forall name_ok p.

(** ** Lemmas *)

Lemma pop_snoc {A} (l : list A) x : pop (l ++ [x]) = Some l.
Proof. unfold pop. rewrite rev_unit. by rewrite rev_involutive. Qed.

Lemma pop_Some {A} (l l' : list A) : pop l = Some l' → ∃ x, l = l' ++ [x].
Proof.
  unfold pop. destruct (rev l) as [|x t] eqn:E; [done|]. intros [= <-]. exists x.
  rewrite <- (rev_involutive l), E. done.
Qed.

Lemma APath_split_last_snoc p n : APath_split_last (p ++ [n]) = Some (p, n).
Proof. unfold APath_split_last. rewrite rev_unit. by rewrite rev_involutive. Qed.

Lemma APath_split_last_Some p h n : APath_split_last p = Some (h, n) → p = h ++ [n].
Proof.
  unfold APath_split_last. destruct (rev p) as [|x t] eqn:E; [done|]. intros [= <- <-].
  rewrite <- (rev_involutive p), E. done.
Qed.

Lemma names_start_with_spec p pre : names_start_with p pre = true ↔ pre `prefix_of` p.
Proof.
  revert p; induction pre as [|a pre IH]; intros [|b p]; simpl.
  - split; [intros _; apply prefix_nil|done].
  - split; [intros _; apply prefix_nil|done].
  - split; [done|]. by intros ?%prefix_nil_not.
  - rewrite andb_true_iff, bool_decide_eq_true, IH. split.
    + intros [-> ?]. by apply prefix_cons.
    + intros Hp. split; [by eapply prefix_cons_inv_1|by eapply prefix_cons_inv_2].
Qed.

Lemma validate_name_ok n : name_ok n → validate_name n = Ok tt.
Proof.
  intros (_ & Hr & ? & ?). unfold validate_name. rewrite Hr.
  rewrite bool_decide_eq_false_2; [done|]. naive_solver.
Qed.

Lemma validate_name_inv n u : n ≠ [] → validate_name n = Ok u → name_ok n.
Proof.
  unfold validate_name. intros ?. destruct (existsb reserved n) eqn:E; [done|].
  case_bool_decide; [done|]. intros _. split; naive_solver.
Qed.

(** *** Numbers *)

Lemma parse_digits_app max a b acc x :
  parse_digits max acc a = Some x → parse_digits max acc (a ++ b) = parse_digits max x b.
Proof.
  revert acc; induction a as [|c a IH]; intros acc; simpl; [by intros [= ->]|].
  destruct (in_range 48 57 c); [|done].
  destruct (acc * 10 + (c - 48) <=? max); [|done]. apply IH.
Qed.

Lemma in_range_spec lo hi b : in_range lo hi b = true ↔ lo ≤ b ≤ hi.
Proof. unfold in_range. rewrite andb_true_iff, !Z.leb_le. done. Qed.

Lemma parse_show_dec max fuel z acc :
  0 ≤ z < 10 ^ Z.of_nat fuel → z ≤ max → (0 < fuel)%nat →
  parse_digits max 0 (show_dec fuel z acc) = parse_digits max z acc.
Proof.
  revert z acc; induction fuel as [|fuel IH]; intros z acc Hz Hm Hf; [lia|]; simpl.
  rewrite Nat2Z.inj_succ, Z.pow_succ_r in Hz by lia.
  destruct (Z.ltb_spec z 10).
  - cbn [parse_digits].
    assert (in_range 48 57 (48 + z) = true) as -> by (apply in_range_spec; lia). cbv zeta.
    replace (0 * 10 + (48 + z - 48)) with z by lia.
    destruct (Z.leb_spec z max); [done|lia].
  - destruct fuel as [|fuel]; [change (10 ^ Z.of_nat 0) with 1 in Hz; lia|].
    pose proof (Z.div_mod z 10 ltac:(lia)). pose proof (Z.mod_pos_bound z 10 ltac:(lia)).
    rewrite IH by lia. cbn [parse_digits]. cbv zeta.
    assert (in_range 48 57 (48 + z mod 10) = true) as -> by (apply in_range_spec; lia).
    replace (z / 10 * 10 + (48 + z mod 10 - 48)) with z by lia.
    destruct (Z.leb_spec z max); [done|lia].
Qed.

Lemma show_dec_digits fuel z acc :
  0 ≤ z → Forall (λ b, 48 ≤ b ≤ 57) acc → Forall (λ b, 48 ≤ b ≤ 57) (show_dec fuel z acc).
Proof.
  revert z acc; induction fuel as [|fuel IH]; intros z acc Hz Ha; simpl; [done|].
  destruct (Z.ltb_spec z 10); [constructor; [lia|done]|].
  pose proof (Z.mod_pos_bound z 10 ltac:(lia)).
  apply IH; [apply Z.div_pos; lia|]. constructor; [lia|done].
Qed.

Lemma show_dec_ne fuel z acc : (0 < fuel)%nat → show_dec fuel z acc ≠ [].
Proof.
  revert z acc; induction fuel as [|fuel IH]; intros z acc ?; [lia|]; simpl.
  destruct (z <? 10); [done|]. destruct fuel; [done|]. apply IH; lia.
Qed.

Lemma show_u64_digits z : 0 ≤ z → Forall (λ b, 48 ≤ b ≤ 57) (show_u64 z).
Proof. intros. by apply show_dec_digits. Qed.

Lemma parse_show_u64 z : 0 ≤ z ≤ U64_MAX → parse_u64 (show_u64 z) = Some z.
Proof.
  intros Hz. unfold parse_u64.
  pose proof (show_u64_digits z ltac:(lia)) as Hd.
  assert (parse_digits U64_MAX 0 (show_u64 z) = Some z) as Hp.
  { unfold show_u64. rewrite parse_show_dec; [done|..]; unfold U64_MAX in *; lia. }
  destruct (show_u64 z) as [|b s] eqn:E; [by apply show_dec_ne in E; [|lia]|].
  assert (b ≠ 43) by (inversion Hd; lia).
  destruct b as [|p|p]; try done.
  repeat (destruct p as [p|p|]; try done).
Qed.

(** *** Splitting *)

Lemma split_on_app c a b :
  c ∉ a → split_on c (a ++ c :: b) = a :: split_on c b.
Proof.
  induction a as [|x a IH]; intros Ha; simpl; [by rewrite Z.eqb_refl|].
  destruct (Z.eqb_spec x c); [set_solver|]. by rewrite IH by set_solver.
Qed.

Lemma split_on_none c a : c ∉ a → split_on c a = [a].
Proof.
  induction a as [|x a IH]; intros Ha; simpl; [done|].
  destruct (Z.eqb_spec x c); [set_solver|]. by rewrite IH by set_solver.
Qed.

Lemma find_split_app c a b : c ∉ a → find_split c (a ++ c :: b) = Some (a, c :: b).
Proof.
  induction a as [|x a IH]; intros Ha; simpl; [by rewrite Z.eqb_refl|].
  destruct (Z.eqb_spec x c); [set_solver|]. by rewrite IH by set_solver.
Qed.

Lemma find_split_none c a : c ∉ a → find_split c a = None.
Proof.
  induction a as [|x a IH]; intros Ha; simpl; [done|].
  destruct (Z.eqb_spec x c); [set_solver|]. by rewrite IH by set_solver.
Qed.

Lemma find_split_Some c s a b :
  find_split c s = Some (a, b) → s = a ++ b ∧ ∃ b', b = c :: b'.
Proof.
  revert a b; induction s as [|x s IH]; intros a b; simpl; [done|].
  destruct (Z.eqb_spec x c) as [->|].
  - intros [= <- <-]. eauto.
  - destruct (find_split c s) as [[a' b']|] eqn:E; [|done]. intros [= <- <-].
    destruct (IH _ _ eq_refl) as [-> ?]. done.
Qed.

Lemma name_ok_not_in n : name_ok n → SLASH ∉ n ∧ LBRACK ∉ n ∧ RBRACK ∉ n.
Proof.
  intros (_ & Hr & _). assert (∀ b, b ∈ n → reserved b = false) as Hall.
  { intros b Hb%list_elem_of_In. apply not_true_iff_false. intros Hx.
    apply not_true_iff_false in Hr. apply Hr. apply existsb_exists. eauto. }
  split_and!; intros Hin%Hall; done.
Qed.

Lemma digits_not_in z c : 0 ≤ z → ¬ 48 ≤ c ≤ 57 → c ∉ show_u64 z.
Proof. intros Hz Hc Hin. pose proof (show_u64_digits z Hz) as Hd. rewrite Forall_forall in Hd. naive_solver. Qed.

(** *** One token: a name (or nothing) followed by indices *)

Definition is_index (s : Segment) : Prop := match s with Index i => 0 ≤ i ≤ U64_MAX | _ => False end.

Fixpoint brackets (p : VPath) : bytes :=
  match p with
  | Index i :: p => [LBRACK] ++ show_u64 i ++ [RBRACK] ++ brackets p
  | _ => []
  end.

Lemma parse_brackets_ok p out fuel :
  Forall is_index p → (length (brackets p) ≤ fuel)%nat →
  parse_brackets fuel (brackets p) out = Ok (out ++ p).
Proof.
  intros Hp; revert out fuel; induction Hp as [|[n|i] p Hi Hp IH]; intros out fuel Hf; [|done|].
  - cbn [brackets]. rewrite app_nil_r. by destruct fuel.
  - simpl in Hf. destruct fuel as [|fuel]; [lia|]. simpl in Hi.
    cbn [brackets app parse_brackets]. rewrite Z.eqb_refl. cbn [negb].
    rewrite find_split_app by (apply digits_not_in; unfold RBRACK; lia).
    rewrite parse_show_u64 by done. cbn [ok_or rbind]. rewrite IH.
    + by rewrite <- app_assoc.
    + rewrite length_app in Hf. simpl in Hf. lia.
Qed.

Lemma brackets_no_slash p : Forall is_index p → SLASH ∉ brackets p.
Proof.
  induction 1 as [|[n|i] p Hi Hp IH]; simpl; [set_solver|done|]. simpl in Hi.
  pose proof (digits_not_in i SLASH ltac:(lia) ltac:(unfold SLASH; lia)).
  unfold SLASH, LBRACK, RBRACK in *. set_solver.
Qed.

(** The segments one token of the printed path stands for. *)
Inductive token_group : VPath → Prop :=
| group_name n p : name_ok n → Forall is_index p → token_group (Name n :: p)
| group_index i p : is_index (Index i) → Forall is_index p → token_group (Index i :: p).

Definition token_str (p : VPath) : bytes :=
  match p with Name n :: p => n ++ brackets p | p => brackets p end.

Lemma token_group_snoc p i : token_group p → is_index (Index i) → token_group (p ++ [Index i]).
Proof.
  intros [n q ? Hq|j q ? Hq] Hi; simpl; constructor; try done;
    (apply Forall_app; split; [done|]; constructor; done).
Qed.

Lemma brackets_app p q : Forall is_index p → brackets (p ++ q) = brackets p ++ brackets q.
Proof.
  induction 1 as [|[n|i] p Hi Hp IH]; simpl; [done..|]. rewrite IH.
  by rewrite <- app_assoc.
Qed.

Lemma token_str_snoc p i :
  token_group p → token_str (p ++ [Index i]) = token_str p ++ [LBRACK] ++ show_u64 i ++ [RBRACK].
Proof.
  intros [n q ? Hq|j q ? Hq]; simpl; rewrite brackets_app by done; simpl;
    rewrite <- ?app_assoc; simpl; rewrite <- ?app_assoc; done.
Qed.

Lemma parse_token_ok p out : token_group p → parse_token (token_str p) out = Ok (out ++ p).
Proof.
  intros [n q Hn Hq|j q Hj Hq]; unfold parse_token.
  - destruct (name_ok_not_in _ Hn) as (_ & Hb & _). simpl token_str.
    destruct q as [|[m|i] q]; [| by inversion Hq|].
    + simpl. rewrite app_nil_r, find_split_none by done. by rewrite validate_name_ok.
    + cbn [brackets app]. rewrite find_split_app by done.
      rewrite validate_name_ok by done. destruct n as [|c n]; [by destruct Hn|]. cbn [rbind].
      change (LBRACK :: _) with (brackets (Index i :: q)).
      rewrite parse_brackets_ok by done. by rewrite <- app_assoc.
  - unfold token_str. cbn [brackets app]. cbn [find_split]. rewrite Z.eqb_refl.
    cbn [rbind]. change (LBRACK :: _) with (brackets (Index j :: q)).
    apply parse_brackets_ok; [by constructor|done].
Qed.

Lemma token_str_shape p :
  token_group p → SLASH ∉ token_str p ∧ token_str p ≠ [] ∧ token_str p ≠ DOT ∧ token_str p ≠ DOTDOT.
Proof.
  intros [n q Hn Hq|j q Hj Hq].
  - pose proof (brackets_no_slash q Hq). destruct (name_ok_not_in _ Hn) as (? & _ & _).
    destruct Hn as (? & _ & ? & ?). simpl. split; [set_solver|].
    destruct q as [|[m|i] q]; simpl; [by rewrite app_nil_r|by inversion Hq|].
    split; [by destruct n|]. unfold DOT, DOTDOT, LBRACK. split; intros E.
    + apply (f_equal length) in E. rewrite length_app in E. simpl in E. rewrite length_app in E. simpl in E. lia.
    + apply (f_equal length) in E. rewrite length_app in E. simpl in E. rewrite length_app in E. simpl in E.
      destruct n; simpl in *; [done|lia].
  - split; [apply (brackets_no_slash (Index j :: q)); by constructor|]. simpl. done.
Qed.

Lemma vpath_fmt_tokens p : ∀ pre out,
  vpath_ok p → token_group pre →
  vpath_tokens (split_on SLASH (token_str pre ++ vpath_fmt false p)) out = Ok (out ++ pre ++ p).
Proof.
  induction p as [|[n|i] p IH]; intros pre out Hp Hpre;
    destruct (token_str_shape _ Hpre) as (Hs & Hne & Hd & Hdd).
  - cbn [vpath_fmt]. rewrite !app_nil_r, split_on_none by done. simpl.
    destruct (token_str pre) as [|c t] eqn:E; [done|]. rewrite <- E in *.
    rewrite !bool_decide_eq_false_2 by done. by rewrite parse_token_ok.
  - inversion Hp as [|?? Hn Hp']; subst. simpl in Hn. cbn [vpath_fmt app].
    rewrite split_on_app by done. simpl.
    destruct (token_str pre) as [|c t] eqn:E; [done|]. rewrite <- E in *.
    rewrite !bool_decide_eq_false_2 by done. rewrite parse_token_ok by done. cbn [rbind].
    specialize (IH [Name n] (out ++ pre) Hp' ltac:(by constructor)). simpl in IH.
    rewrite app_nil_r in IH. rewrite IH. by rewrite <- app_assoc.
  - inversion Hp as [|?? Hi Hp']; subst. cbn [vpath_fmt].
    specialize (IH (pre ++ [Index i]) out Hp' ltac:(by apply token_group_snoc)).
    rewrite token_str_snoc in IH by done. rewrite <- !app_assoc in IH. simpl in IH |- *.
    rewrite <- ?app_assoc in IH. done.
Qed.

Lemma vpath_roundtrip_lemma p : vpath_ok p → VPath_parse (VPath_to_string p) = Ok p.
Proof.
  destruct p as [|[n|i] p]; intros Hp; [done|..]; inversion Hp as [|?? Hs Hp']; subst.
  - unfold VPath_to_string, VPath_parse. cbn [vpath_fmt app].
    pose proof (vpath_fmt_tokens p [Name n] [] Hp' ltac:(by constructor)) as E.
    simpl in E. rewrite app_nil_r in E. destruct n as [|c n]; [by destruct Hs|]. done.
  - unfold VPath_to_string, VPath_parse. cbn [vpath_fmt app].
    pose proof (vpath_fmt_tokens p [Index i] [] Hp' ltac:(by constructor)) as E.
    simpl in E. rewrite <- ?app_assoc in E. simpl in E. done.
Qed.

Lemma apath_fmt_tokens p : ∀ n out,
  apath_ok p → name_ok n →
  apath_tokens (split_on SLASH (n ++ apath_fmt false p)) out = Ok (out ++ n :: p).
Proof.
  induction p as [|m p IH]; intros n out Hp Hn; destruct (name_ok_not_in _ Hn) as (Hs & _ & _);
    pose proof Hn as (Hne & _ & Hd & Hdd).
  - cbn [apath_fmt]. rewrite !app_nil_r, split_on_none by done. simpl.
    destruct n as [|c t] eqn:E; [done|]. rewrite <- E in *.
    rewrite !bool_decide_eq_false_2 by done. by rewrite validate_name_ok.
  - inversion Hp as [|?? Hm Hp']; subst. cbn [apath_fmt app]. rewrite split_on_app by done. simpl.
    destruct n as [|c t] eqn:E; [done|]. rewrite <- E in *.
    rewrite !bool_decide_eq_false_2 by done. rewrite validate_name_ok by done. cbn [rbind].
    rewrite IH by done. by rewrite <- app_assoc.
Qed.

Lemma apath_roundtrip_lemma p : apath_ok p → APath_parse (APath_to_string p) = Ok p.
Proof.
  destruct p as [|n p]; intros Hp; [done|]. inversion Hp as [|?? Hn Hp']; subst.
  unfold APath_to_string, APath_parse. cbn [apath_fmt app].
  pose proof (apath_fmt_tokens p n [] Hp' Hn) as E. destruct n as [|c n]; [by destruct Hn|]. done.
Qed.

(** *** Every parsed path is well formed *)

Lemma parse_digits_bound max s acc z : 0 ≤ acc ≤ max → parse_digits max acc s = Some z → 0 ≤ z ≤ max.
Proof.
  revert acc; induction s as [|b s IH]; intros acc Ha; simpl; [by intros [= <-]|].
  destruct (in_range 48 57 b) eqn:E; [|done]. apply in_range_spec in E.
  destruct (Z.leb_spec (acc * 10 + (b - 48)) max); [|done]. apply IH. lia.
Qed.

Lemma parse_u64_bound s z : parse_u64 s = Some z → 0 ≤ z ≤ U64_MAX.
Proof.
  assert (0 ≤ 0 ≤ U64_MAX) by (unfold U64_MAX; lia).
  unfold parse_u64. repeat case_match; try done; by apply (parse_digits_bound U64_MAX).
Qed.

Lemma parse_brackets_inv fuel rest out p :
  vpath_ok out → parse_brackets fuel rest out = Ok p → vpath_ok p.
Proof.
  revert rest out; induction fuel as [|fuel IH]; intros [|c rest] out Ho; simpl;
    try (by intros [= <-]).
  destruct (c =? LBRACK); simpl; [|done].
  destruct (find_split RBRACK rest) as [[d r]|]; [|done].
  destruct (parse_u64 d) as [i|] eqn:Ei; [|done]. cbn [ok_or rbind]. apply IH.
  apply Forall_app; split; [done|]. constructor; [|done]. by apply parse_u64_bound in Ei.
Qed.

Lemma parse_token_inv token out p :
  token ≠ [] → vpath_ok out → parse_token token out = Ok p → vpath_ok p.
Proof.
  intros Hne Ho. unfold parse_token. destruct (find_split LBRACK token) as [[n r]|].
  - intros Hp. rinv Hp. eapply parse_brackets_inv; [|exact Hp].
    destruct n as [|c n]; [by simplify_eq|]. rinv Ha. simplify_eq.
    apply Forall_app; split; [done|]. constructor; [|done]. by eapply validate_name_inv.
  - intros Hp. rinv Hp. simplify_eq. apply Forall_app; split; [done|].
    constructor; [|done]. by eapply validate_name_inv.
Qed.

Lemma pop_Forall {A} (P : A → Prop) l l' : Forall P l → pop l = Some l' → Forall P l'.
Proof. intros Hl (x & ->)%pop_Some. by apply Forall_app in Hl as [? _]. Qed.

Lemma vpath_tokens_inv tokens out p :
  vpath_ok out → vpath_tokens tokens out = Ok p → vpath_ok p.
Proof.
  revert out; induction tokens as [|t ts IH]; intros out Ho; simpl; [by intros [= <-]|].
  intros Hp. rinv Hp. eapply IH; [|exact Hp]. destruct t as [|c t]; [done|].
  case_bool_decide; [by simplify_eq|]. case_bool_decide.
  - destruct (pop out) eqn:E; simpl in Ha; simplify_eq. by eapply pop_Forall.
  - eapply parse_token_inv; [|exact Ho|exact Ha]; done.
Qed.

Lemma VPath_parse_ok s p : VPath_parse s = Ok p → vpath_ok p.
Proof. destruct s; simpl; [intros [= <-]; constructor|]. apply vpath_tokens_inv. constructor. Qed.

Lemma apath_tokens_inv tokens out p :
  apath_ok out → apath_tokens tokens out = Ok p → apath_ok p.
Proof.
  revert out; induction tokens as [|t ts IH]; intros out Ho; simpl; [by intros [= <-]|].
  intros Hp. rinv Hp. eapply IH; [|exact Hp]. destruct t as [|c t]; [done|].
  case_bool_decide; [by simplify_eq|]. case_bool_decide.
  - destruct (pop out) eqn:E; simpl in Ha; simplify_eq. by eapply pop_Forall.
  - rinv Ha. simplify_eq. apply Forall_app; split; [done|]. constructor; [|done].
    by eapply validate_name_inv.
Qed.

Lemma APath_parse_ok s p : APath_parse s = Ok p → apath_ok p.
Proof. destruct s; simpl; [intros [= <-]; constructor|]. apply apath_tokens_inv. constructor. Qed.

(** *** Parsing always returns *)

Lemma parse_brackets_safe fuel rest out :
  (length rest ≤ fuel)%nat → safe (parse_brackets fuel rest out).
Proof.
  revert rest out; induction fuel as [|fuel IH]; intros [|c rest] out Hf; simpl in *; try done; [lia|].
  destruct (c =? LBRACK); simpl; [|done].
  destruct (find_split RBRACK rest) as [[d r]|] eqn:E; [|done].
  apply safe_rbind; [apply safe_ok_or|]. intros i _. apply IH.
  apply find_split_Some in E as (-> & r' & ->). rewrite length_app in Hf. simpl in *.
  unfold drop. lia.
Qed.

Lemma validate_name_safe n : safe (validate_name n).
Proof. unfold validate_name. by repeat case_match. Qed.

Lemma parse_token_safe token out : safe (parse_token token out).
Proof.
  unfold parse_token. destruct (find_split LBRACK token) as [[n r]|].
  - apply safe_rbind; [|intros; by apply parse_brackets_safe].
    destruct n; [done|]. apply safe_rbind; [apply validate_name_safe|done].
  - apply safe_rbind; [apply validate_name_safe|done].
Qed.

Lemma VPath_parse_safe s : safe (VPath_parse s).
Proof.
  destruct s as [|c s]; [done|]. unfold VPath_parse. generalize (split_on SLASH (c :: s)).
  intros ts. generalize (@nil Segment). induction ts as [|t ts IH]; intros out; simpl; [done|].
  apply safe_rbind; [|intros; apply IH]. destruct t; [done|].
  case_bool_decide; [done|]. case_bool_decide; [apply safe_ok_or|apply parse_token_safe].
Qed.

Lemma APath_parse_safe s : safe (APath_parse s).
Proof.
  destruct s as [|c s]; [done|]. unfold APath_parse. generalize (split_on SLASH (c :: s)).
  intros ts. generalize (@nil bytes). induction ts as [|t ts IH]; intros out; simpl; [done|].
  apply safe_rbind; [|intros; apply IH]. destruct t; [done|].
  case_bool_decide; [done|]. case_bool_decide; [apply safe_ok_or|].
  apply safe_rbind; [apply validate_name_safe|done].
Qed.

(** ** Properties *)

(** Printing and parsing a path are inverse: every well-formed value path and
    access path is parsed back from its text, indices in brackets included. *)
Theorem path_roundtrip v a :
  vpath_ok v → apath_ok a →
  VPath_parse (VPath_to_string v) = Ok v ∧ APath_parse (APath_to_string a) = Ok a.
Proof. intros Hv Ha. split; [by apply vpath_roundtrip_lemma|by apply apath_roundtrip_lemma]. Qed.

(** Parsing any text never panics and only yields well-formed paths (no empty
    name, no [.] or [..], no reserved character, indices within 64 bits); since
    such a path prints back to itself, parsing, printing and parsing again is
    parsing once. *)
Theorem path_parse_total s :
  safe (VPath_parse s) ∧ safe (APath_parse s) ∧
  (∀ p, VPath_parse s = Ok p → vpath_ok p ∧ VPath_parse (VPath_to_string p) = Ok p) ∧
  (∀ p, APath_parse s = Ok p → apath_ok p ∧ APath_parse (APath_to_string p) = Ok p).
Proof.
  split_and!; [apply VPath_parse_safe|apply APath_parse_safe|intros p Hp..].
  - pose proof (VPath_parse_ok s p Hp). split; [done|]. by apply vpath_roundtrip_lemma.
  - pose proof (APath_parse_ok s p Hp). split; [done|]. by apply apath_roundtrip_lemma.
Qed.

Lemma path_roundtrip_witness :
  VPath_parse (VPath_to_string [Name [97]; Index 3; Name [98; 99]]) = Ok [Name [97]; Index 3; Name [98; 99]] ∧
  APath_parse (APath_to_string [[117; 115]; [120]]) = Ok [[117; 115]; [120]].
Proof. apply path_roundtrip; repeat constructor; by vm_compute. Defined.
