(* ===== verification/IndexDef.v ===== *)
(** * Index definitions

    [index/definitions/]: the description of a secondary index, its registry
    encoding, and the column encoding that index keys start with.  Column keys
    compare column by column in the declared directions. *)
From S2P Require Import Prelude Codec Ext Scalar Path Ordered.

(** ** Definitions *)

Inductive Direction := Asc | Desc.
#[export] Instance Direction_eq_dec : EqDecision Direction.
Proof. solve_decision. Defined.

Definition to_byte (d : Direction) : Z := match d with Asc => 0 | Desc => 1 end.
Definition from_byte (b : Z) : res Direction :=
  if b =? 0 then Ok Asc
  else if b =? 1 then Ok Desc
  else Err (Corrupt "unknown index direction {other}").

#[export] Instance Segment_eq_dec : EqDecision Segment.
Proof. solve_decision. Defined.

Record IndexColumn := mkIndexColumn { col_path : VPath; col_direction : Direction }.
#[export] Instance IndexColumn_eq_dec : EqDecision IndexColumn.
Proof. solve_decision. Defined.

Record IndexDef := mkIndexDef {
  def_name : bytes;
  def_pattern : bytes;
  def_columns : list IndexColumn;
  def_unique : bool;
}.
#[export] Instance IndexDef_eq_dec : EqDecision IndexDef.
Proof. solve_decision. Defined.

Definition read_string (r : Reader) : res (bytes * Reader) :=
  let? '(bs, r) := Reader_bytes r in
  let? s := from_utf8 bs (Corrupt "invalid utf-8 in index definition") in
  Ok (s, r).

(** [for _ in 0..count { .. }], collecting what each round reads. *)
Fixpoint read_n {A} (f : Reader → res (A * Reader)) (n : nat) (r : Reader) : res (list A * Reader) :=
  match n with
  | O => Ok ([], r)
  | S n =>
      let? '(x, r) := f r in
      let? '(xs, r) := read_n f n r in
      Ok (x :: xs, r)
  end.

Definition encode_column (buf : bytes) (c : IndexColumn) : bytes :=
  push (put_bytes buf (VPath_to_string (col_path c))) (to_byte (col_direction c)).

Definition IndexDef_encode (def : IndexDef) (buf : bytes) : bytes :=
  let buf := put_bytes buf (def_name def) in
  let buf := put_bytes buf (def_pattern def) in
  let buf := push buf (if def_unique def then 1 else 0) in
  let buf := put_u32 buf (as_u32 (blen (def_columns def))) in
  fold_left encode_column (def_columns def) buf.

Definition skip_column (r : Reader) : res (unit * Reader) :=
  let? '(_, r) := Reader_bytes r in
  let? '(_, r) := Reader_u8 r in
  Ok (tt, r).

Definition IndexDef_decode_name (r : Reader) : res (bytes * Reader) :=
  let? '(bs, r) := Reader_bytes r in
  let? name := from_utf8 bs (Corrupt "invalid utf-8 in index definition") in
  let? '(_, r) := Reader_bytes r in
  let? '(_, r) := Reader_u8 r in
  let? '(count, r) := Reader_u32 r in
  let? '(_, r) := read_n skip_column (Z.to_nat count) r in
  Ok (name, r).

Definition decode_column (r : Reader) : res (IndexColumn * Reader) :=
  let? '(s, r) := read_string r in
  let? path := VPath_parse s in
  let? '(b, r) := Reader_u8 r in
  let? direction := from_byte b in
  Ok (mkIndexColumn path direction, r).

Definition IndexDef_decode (r : Reader) : res (IndexDef * Reader) :=
  let? '(name, r) := read_string r in
  let? '(pattern, r) := read_string r in
  let? '(u, r) := Reader_u8 r in
  let? '(count, r) := Reader_u32 r in
  let? '(columns, r) := read_n decode_column (Z.to_nat count) r in
  Ok (mkIndexDef name pattern columns (negb (u =? 0)), r).

Section columns.
Context `{Ext}.

(** [for (value, column) in values.iter().zip(&self.columns)] *)
Fixpoint encode_columns_loop (cols : bytes) (values : list Scalar) (columns : list IndexColumn) : bytes :=
  match values, columns with
  | v :: values, c :: columns =>
      encode_columns_loop (encode_scalar cols v (bool_decide (col_direction c = Desc))) values columns
  | _, _ => cols
  end.

Definition encode_columns (def : IndexDef) (values : list Scalar) : bytes :=
  encode_columns_loop [] values (def_columns def).
End columns.

(** ** Reading back *)

Definition string_ok (s : bytes) : Prop := utf8_valid s = true ∧ blen s < 2 ^ 32.
Definition column_ok (c : IndexColumn) : Prop :=
  vpath_ok (col_path c) ∧ string_ok (VPath_to_string (col_path c)).
Definition def_ok (d : IndexDef) : Prop :=
  string_ok (def_name d) ∧ string_ok (def_pattern d) ∧ Forall column_ok (def_columns d) ∧
  blen (def_columns d) < 2 ^ 32.

Lemma reads_map_ret {A B} (f : Reader → res (A * Reader)) (g : A → B) e x :
  reads f e x → reads (λ r, let? '(x, r) := f r in Ok (g x, r)) e (g x).
Proof.
  intros Hf. rewrite <- (app_nil_r e). apply (reads_bind f (λ x r, Ok (g x, r))) with (x := x); [done|]. apply reads_ret.
Qed.

Lemma reads_string s : string_ok s → reads read_string (to_be 4 (blen s) ++ s) s.
Proof.
  intros [Hu Hl]. rewrite <- (app_nil_r (_ ++ s)).
  apply (reads_bind Reader_bytes (λ bs r, let? s := from_utf8 bs (Corrupt "invalid utf-8 in index definition") in Ok (s, r)))
    with (x := s); [by apply reads_bytes|].
  unfold from_utf8. rewrite Hu. apply reads_ret.
Qed.

Lemma reads_n {A} (f : Reader → res (A * Reader)) (enc : A → bytes) xs :
  (∀ x, x ∈ xs → reads f (enc x) x) → reads (read_n f (length xs)) (concat (map enc xs)) xs.
Proof.
  induction xs as [|x xs IH]; intros Hf; cbn [read_n length map concat]; [apply reads_ret|].
  apply (reads_bind f (λ x r, let? '(xs, r) := read_n f (length xs) r in Ok (x :: xs, r))) with (x := x).
  - apply Hf. left.
  - apply (reads_map_ret (read_n f (length xs)) (cons x)). apply IH. intros y Hy. apply Hf. by right.
Qed.

Lemma reads_skip_n {A B} (f : Reader → res (A * Reader)) (enc : B → bytes) xs y :
  (∀ x, x ∈ xs → reads f (enc x) y) →
  reads (read_n f (length xs)) (concat (map enc xs)) (replicate (length xs) y).
Proof.
  induction xs as [|x xs IH]; intros Hf; cbn [read_n length map concat replicate]; [apply reads_ret|].
  apply (reads_bind f (λ x r, let? '(xs, r) := read_n f (length xs) r in Ok (x :: xs, r))) with (x := y).
  - apply (Hf x). left.
  - apply (reads_map_ret (read_n f (length xs)) (cons y)). apply IH. intros z Hz. apply Hf. by right.
Qed.

Definition column_bytes (c : IndexColumn) : bytes :=
  to_be 4 (blen (VPath_to_string (col_path c))) ++ VPath_to_string (col_path c) ++ [to_byte (col_direction c)].

Lemma encode_columns_fold cs buf :
  Forall column_ok cs → fold_left encode_column cs buf = buf ++ concat (map column_bytes cs).
Proof.
  intros Hcs; revert buf; induction Hcs as [|c cs [_ [_ Hl]] _ IH]; intros buf; cbn [fold_left map concat].
  - by rewrite app_nil_r.
  - rewrite IH. unfold encode_column, column_bytes, push. rewrite put_bytes_eq by done. by rewrite <- !app_assoc.
Qed.

Definition def_bytes (d : IndexDef) : bytes :=
  (to_be 4 (blen (def_name d)) ++ def_name d) ++ (to_be 4 (blen (def_pattern d)) ++ def_pattern d) ++
  [if def_unique d then 1 else 0] ++ to_be 4 (blen (def_columns d)) ++ concat (map column_bytes (def_columns d)).

Lemma IndexDef_encode_eq d buf : def_ok d → IndexDef_encode d buf = buf ++ def_bytes d.
Proof.
  intros ([_ Hn] & [_ Hp] & Hc & Hl). unfold IndexDef_encode, def_bytes, push. rewrite encode_columns_fold by done.
  rewrite !put_bytes_eq by done. unfold put_u32. rewrite as_u32_small by (pose proof (blen_nonneg (def_columns d)); lia).
  by rewrite <- !app_assoc.
Qed.

Lemma reads_column c : column_ok c → reads decode_column (column_bytes c) c.
Proof.
  intros [Hp Hs]. unfold column_bytes. rewrite app_assoc.
  apply (reads_bind read_string (λ s r, let? path := VPath_parse s in let? '(b, r) := Reader_u8 r in
    let? direction := from_byte b in Ok (mkIndexColumn path direction, r))) with (x := VPath_to_string (col_path c)).
  - by apply reads_string.
  - rewrite vpath_roundtrip_lemma by done. cbn [rbind]. rewrite <- (app_nil_r [_]).
    apply (reads_bind Reader_u8 (λ b r, let? direction := from_byte b in Ok (mkIndexColumn (col_path c) direction, r)))
      with (x := to_byte (col_direction c)); [apply reads_u8|].
    destruct c as [p []]; apply reads_ret.
Qed.

Lemma reads_def d : def_ok d → reads IndexDef_decode (def_bytes d) d.
Proof.
  intros (Hn & Hp & Hc & Hl). unfold IndexDef_decode, def_bytes.
  apply (reads_bind read_string) with (x := def_name d); [by apply reads_string|].
  apply (reads_bind read_string) with (x := def_pattern d); [by apply reads_string|].
  apply (reads_bind Reader_u8) with (x := if def_unique d then 1 else 0); [apply reads_u8|].
  apply (reads_bind Reader_u32) with (x := blen (def_columns d)).
  { apply reads_u32. pose proof (blen_nonneg (def_columns d)). split; lia. }
  unfold blen at 1. rewrite Nat2Z.id.
  assert (d = mkIndexDef (def_name d) (def_pattern d) (def_columns d) (negb ((if def_unique d then 1 else 0) =? 0))) as Ed
    by (by destruct d as [? ? ? []]).
  assert (∀ c, c ∈ def_columns d → reads decode_column (column_bytes c) c) as Hr.
  { rewrite Forall_forall in Hc. intros c Hin. by apply reads_column, Hc. }
  apply reads_n in Hr.
  apply (reads_map_ret _ (λ cs, mkIndexDef (def_name d) (def_pattern d) cs (negb ((if def_unique d then 1 else 0) =? 0)))) in Hr.
  cbn beta in Hr. rewrite <- Ed in Hr. exact Hr.
Qed.

Lemma reads_def_name d : def_ok d → reads IndexDef_decode_name (def_bytes d) (def_name d).
Proof.
  intros ([Hu Hn] & [_ Hp] & Hc & Hl). unfold IndexDef_decode_name, def_bytes.
  apply (reads_bind Reader_bytes) with (x := def_name d); [by apply reads_bytes|].
  unfold from_utf8. rewrite Hu. cbn [rbind].
  apply (reads_bind Reader_bytes) with (x := def_pattern d); [by apply reads_bytes|].
  apply (reads_bind Reader_u8) with (x := if def_unique d then 1 else 0); [apply reads_u8|].
  apply (reads_bind Reader_u32) with (x := blen (def_columns d)).
  { apply reads_u32. pose proof (blen_nonneg (def_columns d)). split; lia. }
  unfold blen at 1. rewrite Nat2Z.id. rewrite <- (app_nil_r (concat _)).
  apply (reads_bind (read_n skip_column (length (def_columns d))) (λ _ r, Ok (def_name d, r)))
    with (x := replicate (length (def_columns d)) tt); [|apply reads_ret].
  apply (reads_skip_n skip_column column_bytes). intros c Hin. rewrite Forall_forall in Hc.
  destruct (Hc c Hin) as [_ [_ Hs]]. unfold column_bytes. rewrite app_assoc.
  apply (reads_bind Reader_bytes) with (x := VPath_to_string (col_path c)); [by apply reads_bytes|].
  apply (reads_map_ret Reader_u8 (λ _, tt) [to_byte (col_direction c)] (to_byte (col_direction c))). apply reads_u8.
Qed.

(** An index definition survives the registry: wherever its encoding sits, both
    decoders stop right after it, the full one giving the definition back and the
    presence check's one its name, for every definition whose column paths are
    well-formed paths. *)
Theorem index_def_roundtrip d pre post :
  def_ok d → blen (IndexDef_encode d pre ++ post) ≤ USIZE_MAX →
  let whole := IndexDef_encode d pre ++ post in
  IndexDef_decode (mkReader whole (blen pre)) = Ok (d, mkReader whole (blen (IndexDef_encode d pre))) ∧
  IndexDef_decode_name (mkReader whole (blen pre)) = Ok (def_name d, mkReader whole (blen (IndexDef_encode d pre))).
Proof.
  intros Hd Hb. cbn zeta. rewrite IndexDef_encode_eq in * by done. rewrite <- app_assoc in *. rewrite blen_app.
  split; [by apply reads_def|by apply reads_def_name].
Qed.

(** ** Column keys *)

Section column_order.
Context `{Ext} `{!ExtLaws}.

(** Tuples compare column by column, each in its direction. *)
Fixpoint tuple_cmp (cs : list IndexColumn) (xs ys : list Scalar) : comparison :=
  match cs, xs, ys with
  | c :: cs, x :: xs, y :: ys =>
      lex (directed (bool_decide (col_direction c = Desc)) (scalar_cmp x y)) (tuple_cmp cs xs ys)
  | _, _, _ => Eq
  end.

Lemma encode_columns_loop_eq xs : ∀ cs out,
  encode_columns_loop out xs cs = out ++ encode_columns_loop [] xs cs.
Proof.
  induction xs as [|x xs IH]; intros [|c cs] out; cbn [encode_columns_loop]; try by rewrite app_nil_r.
  rewrite IH, (IH cs (encode_scalar [] _ _)), app_assoc. f_equal. by rewrite !encode_scalar_eq.
Qed.

Lemma columns_cmp_by xs : ∀ cs ys,
  length xs = length ys → Forall sortable xs → Forall sortable ys →
  cmp_by (encode_columns_loop [] xs cs) (encode_columns_loop [] ys cs) (tuple_cmp cs xs ys).
Proof.
  induction xs as [|x xs IH]; intros [|c cs] [|y ys] Hl Hx Hy; try done.
  apply Forall_cons in Hx as [Hx Hxs], Hy as [Hy Hys]. cbn [encode_columns_loop tuple_cmp].
  rewrite encode_columns_loop_eq, (encode_columns_loop_eq ys). injection Hl as Hl.
  apply cmp_by_app; [by apply encode_scalar_cmp_by|by apply IH].
Qed.

(** C27: Index keys sort as their column tuples do: for any two tuples (of any mix of
    scalar kinds, big numbers, decimals and exact rationals included) the encoded
    columns, whatever follows them in the key, compare bytewise as the values
    compare column by column, a descending column reversed; equal encodings mean
    equal values. *)
Theorem column_key_order d xs ys s t :
  length xs = length ys → Forall sortable xs → Forall sortable ys →
  bytes_cmp (encode_columns d xs ++ s) (encode_columns d ys ++ t) =
    lex (tuple_cmp (def_columns d) xs ys) (bytes_cmp s t) ∧
  (encode_columns d xs = encode_columns d ys ↔ tuple_cmp (def_columns d) xs ys = Eq).
Proof.
  intros Hl Hx Hy. pose proof (columns_cmp_by xs (def_columns d) ys Hl Hx Hy) as Hc.
  change (encode_columns_loop [] xs (def_columns d)) with (encode_columns d xs) in Hc.
  change (encode_columns_loop [] ys (def_columns d)) with (encode_columns d ys) in Hc.
  destruct (tuple_cmp (def_columns d) xs ys); cbn [lex cmp_by] in *.
  - rewrite Hc. split; [apply bytes_cmp_app|done].
  - split; [by apply below_lt, below_app|]. split; [|done]. intros E. rewrite E in Hc.
    apply below_lt in Hc. by rewrite bytes_cmp_refl in Hc.
  - split; [by apply bytes_cmp_gt, below_lt, below_app|]. split; [|done]. intros E. rewrite E in Hc.
    apply below_lt in Hc. by rewrite bytes_cmp_refl in Hc.
Qed.
End column_order.
