(* ===== verification/Value.v ===== *)
(** * The dynamic document type

    [value.rs] and [vnode/kind.rs]: a document is a scalar leaf, a list or a map
    of named values.  A method taking [&mut self] returns the new value (and its
    result); [descend_mut], which returns a mutable borrow, returns the focused
    subtree together with the function that puts a new subtree back. *)
From S2P Require Import Prelude BTree Codec Ext Scalar Path.

Inductive NodeKind : Type := KLeaf | KList | KObject.

Section value.
Context `{Ext}.

#[local] Unset Elimination Schemes.
Inductive Value : Type :=
| Leaf (s : Scalar)
| List (l : list Value)
| Node (m : list (bytes * Value)).
#[local] Set Elimination Schemes.

Section value_ind.
Variable P : Value → Prop.
Hypothesis Hleaf : ∀ s, P (Leaf s).
Hypothesis Hlist : ∀ l, Forall P l → P (List l).
Hypothesis Hnode : ∀ m, Forall (λ kv, P kv.2) m → P (Node m).

Fixpoint Value_ind (v : Value) : P v :=
  match v with
  | Leaf s => Hleaf s
  | List l => Hlist l ((fix go l := match l return Forall P l with
                        | [] => Forall_nil_2 P
                        | v :: l => Forall_cons_2 P v l (Value_ind v) (go l)
                        end) l)
  | Node m => Hnode m ((fix go m := match m return Forall (λ kv, P kv.2) m with
                        | [] => Forall_nil_2 _
                        | kv :: m => Forall_cons_2 (λ kv, P kv.2) kv m (Value_ind kv.2) (go m)
                        end) m)
  end.
End value_ind.

(** ** Accessors *)

Definition leaf (v : Value) : option Scalar := match v with Leaf s => Some s | _ => None end.
Definition list_ (v : Value) : option (list Value) := match v with List l => Some l | _ => None end.
Definition node (v : Value) : option (list (bytes * Value)) :=
  match v with Node m => Some m | _ => None end.

Definition at_ (v : Value) (index : Z) : option Value :=
  match v with List l => l !! Z.to_nat index | _ => None end.

Definition contains_key (v : Value) (key : bytes) : bool :=
  match v with Node m => bt_contains m key | _ => false end.

Definition get (v : Value) (key : bytes) : option Value :=
  match v with Node m => bt_get m key | _ => None end.

Definition node_kind (v : Value) : NodeKind :=
  match v with Leaf _ => KLeaf | List _ => KList | Node _ => KObject end.

Definition len (v : Value) : Z :=
  match v with Leaf _ => 0 | List l => blen l | Node m => blen m end.

Definition is_empty (v : Value) : bool := len v =? 0.

Definition keys (v : Value) : list bytes := match v with Node m => m.*1 | _ => [] end.

(** ** In-memory updates *)

Definition default_value : Value := Leaf Null.

Definition clear (v : Value) : Value :=
  match v with Leaf _ => Leaf Null | List _ => List [] | Node _ => Node [] end.

Definition push_item (v x : Value) : Value :=
  match v with List l => List (l ++ [x]) | _ => v end.

Definition insert_key (v : Value) (key : bytes) (x : Value) : Value :=
  match v with Node m => Node (bt_insert m key x) | _ => v end.

(** [Vec::remove] panics out of bounds. *)
Definition remove_at (v : Value) (index : Z) : res Value :=
  match v with
  | List l => if index <? blen l then Ok (List (delete (Z.to_nat index) l)) else Panic
  | _ => Ok v
  end.

Definition remove_key (v : Value) (key : bytes) : Value :=
  match v with Node m => Node (bt_remove m key) | _ => v end.

Definition merge (v with_ : Value) : Value :=
  match v with
  | Leaf _ => with_
  | List l => match with_ with List l' => List (l ++ l') | w => List (l ++ [w]) end
  | Node m => match with_ with Node m' => Node (bt_extend m m') | w => w end
  end.

(** ** Path-addressed operations *)

Fixpoint subtree (v : Value) (base : VPath) : option Value :=
  match base with
  | [] => Some v
  | Name n :: base => match get v n with Some c => subtree c base | None => None end
  | Index i :: base => match at_ v i with Some c => subtree c base | None => None end
  end.

Fixpoint build_fresh (segments : VPath) (value : Value) : option Value :=
  match segments with
  | [] => Some value
  | Name n :: rest =>
      match build_fresh rest value with
      | Some c => Some (Node (bt_insert [] n c))
      | None => None
      end
  | Index i :: rest =>
      if i =? 0 then
        match build_fresh rest value with Some c => Some (List [c]) | None => None end
      else None
  end.

Fixpoint set_in (target : Value) (segments : VPath) (value : Value) : Value * bool :=
  match segments with
  | [] => (value, true)
  | first :: rest =>
      match target, first with
      | Node map, Name name =>
          match bt_get map name with
          | Some child =>
              let '(child, ok) := set_in child rest value in
              (Node (bt_insert map name child), ok)
          | None =>
              match build_fresh rest value with
              | Some sub => (Node (bt_insert map name sub), true)
              | None => (target, false)
              end
          end
      | List list, Index index =>
          match list !! Z.to_nat index with
          | Some child =>
              let '(child, ok) := set_in child rest value in
              (List (<[Z.to_nat index := child]> list), ok)
          | None =>
              if index =? blen list then
                match build_fresh rest value with
                | Some sub => (List (list ++ [sub]), true)
                | None => (target, false)
                end
              else (target, false)
          end
      | _, _ => (target, false)
      end
  end.

Fixpoint descend_mut (current : Value) (segments : VPath) : option (Value * (Value → Value)) :=
  match segments with
  | [] => Some (current, id)
  | segment :: rest =>
      match current, segment with
      | Node map, Name name =>
          match bt_get map name with
          | Some child =>
              match descend_mut child rest with
              | Some (x, put) => Some (x, λ y, Node (bt_insert map name (put y)))
              | None => None
              end
          | None => None
          end
      | List list, Index index =>
          match list !! Z.to_nat index with
          | Some child =>
              match descend_mut child rest with
              | Some (x, put) => Some (x, λ y, List (<[Z.to_nat index := put y]> list))
              | None => None
              end
          | None => None
          end
      | _, _ => None
      end
  end.

(** [split_last] on a path. *)
Definition vpath_split_last (p : VPath) : option (VPath * Segment) :=
  match rev p with [] => None | s :: h => Some (rev h, s) end.

Definition remove_in (target : Value) (segments : VPath) : Value * bool :=
  match vpath_split_last segments with
  | None => (default_value, true)
  | Some (head, last) =>
      match descend_mut target head with
      | None => (target, false)
      | Some (parent, put) =>
          match last, parent with
          | Name name, Node map => (put (Node (bt_remove map name)), bt_contains map name)
          | Index index, List list =>
              if index <? blen list then (put (List (delete (Z.to_nat index) list)), true)
              else (target, false)
          | _, _ => (target, false)
          end
      end
  end.

(** The public forms take the outcome of [into_value_path]. *)
Definition get_value (v : Value) (path : res VPath) : option Value :=
  match path with Ok p => subtree v p | _ => None end.
Definition set_value (v : Value) (path : res VPath) (x : Value) : Value * bool :=
  match path with Ok p => set_in v p x | _ => (v, false) end.
Definition remove_value (v : Value) (path : res VPath) : Value * bool :=
  match path with Ok p => remove_in v p | _ => (v, false) end.

(** ** Well-formed documents: map keys strictly increasing (the [BTreeMap]
    invariant) and valid strings, scalars in range. *)
Definition str_ok (s : bytes) : Prop := utf8_valid s = true ∧ bytes_ok s.

Fixpoint value_ok (v : Value) : Prop :=
  match v with
  | Leaf s => scalar_ok s
  | List l => (fix go l := match l with [] => True | v :: l => value_ok v ∧ go l end) l
  | Node m => bt_sorted m ∧
      (fix go m := match m with [] => True | kv :: m => (str_ok kv.1 ∧ value_ok kv.2) ∧ go m end) m
  end.

Lemma value_ok_list l : value_ok (List l) ↔ Forall value_ok l.
Proof.
  simpl. induction l; [split; [constructor|done]|]. rewrite Forall_cons. naive_solver.
Qed.

Lemma value_ok_node m :
  value_ok (Node m) ↔ bt_sorted m ∧ Forall (λ kv, str_ok kv.1 ∧ value_ok kv.2) m.
Proof.
  simpl. f_equiv. induction m as [|kv m IH]; [split; [constructor|done]|].
  rewrite Forall_cons. naive_solver.
Qed.

Definition seg_str_ok (s : Segment) : Prop := match s with Name n => str_ok n | Index i => 0 ≤ i end.
Definition vpath_str_ok (p : VPath) : Prop := Forall seg_str_ok p.

(** ** Lemmas *)

Lemma get_value_ok v n c : value_ok v → get v n = Some c → value_ok c.
Proof.
  destruct v as [| |m]; try done. simpl get. rewrite value_ok_node. intros [Hs Hm] Hg.
  apply bt_elem_get in Hg; [|done]. eapply Forall_forall in Hm; [|done]. apply Hm.
Qed.

Lemma at_value_ok v i c : value_ok v → at_ v i = Some c → value_ok c.
Proof.
  destruct v as [|l|]; try done. simpl at_. rewrite value_ok_list. intros Hl Hg.
  by eapply Forall_lookup_1.
Qed.

Lemma node_insert_ok m n c :
  value_ok (Node m) → str_ok n → value_ok c → value_ok (Node (bt_insert m n c)).
Proof.
  rewrite !value_ok_node. intros [Hs Hm] Hn Hc. split; [by apply bt_sorted_insert|].
  apply Forall_forall. intros [k x] Hin. apply bt_elem_get in Hin; [|by apply bt_sorted_insert].
  rewrite bt_get_insert in Hin by done. case_decide; simplify_eq; [done|].
  apply bt_elem_get in Hin; [|done]. by eapply Forall_forall in Hm.
Qed.

Lemma node_remove_ok m n : value_ok (Node m) → value_ok (Node (bt_remove m n)).
Proof.
  rewrite !value_ok_node. intros [Hs Hm]. split; [by apply bt_sorted_remove|].
  apply Forall_forall. intros [k x] Hin. apply bt_elem_get in Hin; [|by apply bt_sorted_remove].
  rewrite bt_get_remove in Hin by done. case_decide; simplify_eq.
  apply bt_elem_get in Hin; [|done]. by eapply Forall_forall in Hm.
Qed.

Lemma node_singleton_ok n c : str_ok n → value_ok c → value_ok (Node (bt_insert [] n c)).
Proof. intros. apply node_insert_ok; [|done..]. apply value_ok_node. split; constructor. Qed.

Lemma build_fresh_ok p x v :
  vpath_str_ok p → value_ok x → build_fresh p x = Some v → value_ok v.
Proof.
  revert v; induction p as [|[n|i] p IH]; intros v Hp Hx; simpl; [by intros [= <-]|..];
    inversion Hp; subst.
  - destruct (build_fresh p x); [|done]. intros [= <-]. apply node_singleton_ok; auto.
  - destruct (i =? 0); [|done]. destruct (build_fresh p x); [|done]. intros [= <-].
    apply value_ok_list. constructor; auto.
Qed.

Lemma set_in_ok v p x : value_ok v → vpath_str_ok p → value_ok x → value_ok (set_in v p x).1.
Proof.
  intros Hv Hp Hx. revert v Hv; induction Hp as [|s p Hs Hp IH]; intros v Hv; simpl; [done|].
  destruct v as [sc|l|m], s as [n|i]; try done.
  - destruct (l !! Z.to_nat i) as [c|] eqn:E.
    + assert (value_ok c) as Hc by (apply (at_value_ok (List l) i); [done|exact E]).
      specialize (IH c Hc). destruct (set_in c p x) as [c' b]. simpl in *.
      apply value_ok_list in Hv. apply value_ok_list. by apply Forall_insert.
    + destruct (i =? blen l); [|done]. destruct (build_fresh p x) eqn:Eb; [|done].
      apply value_ok_list in Hv. apply value_ok_list. apply Forall_app; split; [done|].
      constructor; [|done]. eapply build_fresh_ok; [exact Hp|exact Hx|exact Eb].
  - destruct (bt_get m n) as [c|] eqn:E.
    + assert (value_ok c) as Hc by (apply (get_value_ok (Node m) n); [done|exact E]).
      specialize (IH c Hc). destruct (set_in c p x) as [c' b]. by apply node_insert_ok.
    + destruct (build_fresh p x) eqn:Eb; [|done]. apply node_insert_ok; [done..|].
      eapply build_fresh_ok; [exact Hp|exact Hx|exact Eb].
Qed.

(** A rejected [set_value] changes nothing. *)
Lemma set_in_false v p x v' : value_ok v → set_in v p x = (v', false) → v' = v.
Proof.
  revert v v'; induction p as [|[n|i] p IH]; intros v v' Hv; simpl; [done|..];
    destruct v as [sc|l|m]; try by intros [= <-].
  - destruct (bt_get m n) as [c|] eqn:E.
    + assert (value_ok c) as Hc by (apply (get_value_ok (Node m) n); [done|exact E]).
      destruct (set_in c p x) as [c' b] eqn:Es. intros [= <- ->].
      rewrite (IH c c' Hc Es). apply value_ok_node in Hv as [Hv _]. by rewrite bt_insert_present.
    + destruct (build_fresh p x); by intros [= <-].
  - destruct (l !! Z.to_nat i) as [c|] eqn:E.
    + assert (value_ok c) as Hc by (apply (at_value_ok (List l) i); [done|exact E]).
      destruct (set_in c p x) as [c' b] eqn:Es. intros [= <- ->].
      rewrite (IH c c' Hc Es). by rewrite list_insert_id.
    + destruct (i =? blen l); [|by intros [= <-]]. destruct (build_fresh p x); by intros [= <-].
Qed.

Lemma build_fresh_get p x v : build_fresh p x = Some v → subtree v p = Some x.
Proof.
  revert v; induction p as [|[n|i] p IH]; intros v; simpl; [by intros [= <-]|..].
  - destruct (build_fresh p x) as [c|]; [|done]. intros [= <-]. simpl.
    rewrite bytes_cmp_refl. by apply IH.
  - destruct (Z.eqb_spec i 0) as [->|]; [|done]. destruct (build_fresh p x) as [c|]; [|done].
    intros [= <-]. simpl. by apply IH.
Qed.

(** An applied [set_value] is read back at its path. *)
Lemma set_in_get v p x v' : value_ok v → set_in v p x = (v', true) → subtree v' p = Some x.
Proof.
  revert v v'; induction p as [|[n|i] p IH]; intros v v' Hv; simpl; [by intros [= <-]|..];
    destruct v as [sc|l|m]; try done.
  - destruct (bt_get m n) as [c|] eqn:E.
    + assert (value_ok c) as Hc by (apply (get_value_ok (Node m) n); [done|exact E]).
      destruct (set_in c p x) as [c' b] eqn:Es. intros [= <- ->]. simpl.
      apply value_ok_node in Hv as [Hv _]. rewrite bt_get_insert_eq by done. by eapply IH.
    + destruct (build_fresh p x) as [c|] eqn:Eb; [|done]. intros [= <-]. simpl.
      apply value_ok_node in Hv as [Hv _]. rewrite bt_get_insert_eq by done. by apply build_fresh_get.
  - destruct (l !! Z.to_nat i) as [c|] eqn:E.
    + assert (value_ok c) as Hc by (apply (at_value_ok (List l) i); [done|exact E]).
      destruct (set_in c p x) as [c' b] eqn:Es. intros [= <- ->]. simpl.
      rewrite list_lookup_insert_eq by (by eapply lookup_lt_Some). by eapply IH.
    + destruct (Z.eqb_spec i (blen l)) as [->|]; [|done].
      destruct (build_fresh p x) as [c|] eqn:Eb; [|done]. intros [= <-]. simpl.
      unfold blen. rewrite Nat2Z.id, list_lookup_middle by done. by apply build_fresh_get.
Qed.

(** Two paths that part ways: neither is a prefix of the other. *)
Inductive diverge : VPath → VPath → Prop :=
| diverge_here a b p q : a ≠ b → diverge (a :: p) (b :: q)
| diverge_next a p q : diverge p q → diverge (a :: p) (a :: q).

Lemma build_fresh_diverge p q x v :
  vpath_str_ok p → vpath_str_ok q → diverge p q → build_fresh p x = Some v → subtree v q = None.
Proof.
  intros Hp Hq Hd; revert v Hp Hq;
    induction Hd as [a b p q Hab|a p q Hd IH]; intros v Hp Hq Hb;
    inversion Hp as [|?? Ha Hp']; inversion Hq as [|?? Hb' Hq']; subst; simpl in Hb;
    destruct a as [n|i].
  - destruct (build_fresh p x); [|done]. simplify_eq. destruct b as [n'|j]; [|done]. simpl.
    destruct (bytes_cmp n' n) eqn:E; [|done..]. apply bytes_cmp_eq in E. congruence.
  - destruct (Z.eqb_spec i 0) as [->|]; [|done]. destruct (build_fresh p x); [|done]. simplify_eq.
    destruct b as [n'|j]; [done|]. simpl in *.
    destruct (Z.to_nat j) eqn:E; [|done]. destruct Hab. f_equal; lia.
  - destruct (build_fresh p x) eqn:E; [|done]. simplify_eq. simpl. rewrite bytes_cmp_refl. eauto.
  - destruct (Z.eqb_spec i 0) as [->|]; [|done]. destruct (build_fresh p x) eqn:E; [|done].
    simplify_eq. simpl. eauto.
Qed.

(** [set_value] leaves every other path alone. *)
Lemma set_in_frame v p q x v' b :
  value_ok v → vpath_str_ok p → vpath_str_ok q → diverge p q →
  set_in v p x = (v', b) → subtree v' q = subtree v q.
Proof.
  intros Hv Hp Hq Hd; revert v v' Hv Hp Hq;
    induction Hd as [a c p q Hac|a p q Hd IH]; intros v v' Hv Hp Hq Hs;
    inversion Hp as [|?? Ha Hp']; inversion Hq as [|?? Hb' Hq']; subst; simpl in Hs;
    destruct v as [sc|l|m], a as [n|i]; simplify_eq/=; try done.
  - destruct (l !! Z.to_nat i) as [d|] eqn:E.
    + destruct (set_in d p x) as [d' b']. simplify_eq. destruct c as [n|j]; [done|]. simpl in *.
      rewrite list_lookup_insert_ne; [done|]. intros ?. destruct Hac. f_equal; lia.
    + destruct (Z.eqb_spec i (blen l)) as [->|]; [|by simplify_eq].
      destruct (build_fresh p x); simplify_eq; [|done]. destruct c as [n|j]; [done|]. simpl in *.
      destruct (decide (Z.to_nat j < length l)%nat); [by rewrite lookup_app_l|].
      rewrite !(proj2 (lookup_ge_None _ _)); [done|lia|]. rewrite length_app; simpl.
      assert (Z.to_nat j ≠ length l); [|lia]. intros ?. destruct Hac. unfold blen. f_equal; lia.
  - apply value_ok_node in Hv as [Hv _]. destruct (bt_get m n) as [d|] eqn:E.
    + destruct (set_in d p x) as [d' b']. simplify_eq. destruct c as [n'|j]; [|done]. simpl.
      rewrite bt_get_insert_ne by (done || congruence). done.
    + destruct (build_fresh p x); simplify_eq; [|done]. destruct c as [n'|j]; [|done]. simpl.
      rewrite bt_get_insert_ne by (done || congruence). done.
  - destruct (l !! Z.to_nat i) as [d|] eqn:E.
    + assert (value_ok d) as Hd' by (apply (at_value_ok (List l) i); [done|exact E]).
      destruct (set_in d p x) as [d' b'] eqn:Es. simplify_eq. simpl.
      rewrite list_lookup_insert_eq by (by eapply lookup_lt_Some). by eapply IH.
    + destruct (Z.eqb_spec i (blen l)) as [->|]; [|by simplify_eq/=; rewrite E].
      destruct (build_fresh p x) as [d|] eqn:Eb; simplify_eq/=; [|by rewrite E].
      unfold blen. rewrite Nat2Z.id, list_lookup_middle by done.
      exact (build_fresh_diverge p q x d Hp' Hq' Hd Eb).
  - pose proof Hv as [Hv' _]%value_ok_node. destruct (bt_get m n) as [d|] eqn:E.
    + assert (value_ok d) as Hd' by (apply (get_value_ok (Node m) n); [done|exact E]).
      destruct (set_in d p x) as [d' b'] eqn:Es. simplify_eq. simpl.
      rewrite bt_get_insert_eq by done. by eapply IH.
    + destruct (build_fresh p x) as [d|] eqn:Eb; simplify_eq/=; [|by rewrite E].
      rewrite bt_get_insert_eq by done. exact (build_fresh_diverge p q x d Hp' Hq' Hd Eb).
Qed.

(** ** Removal *)

Lemma vpath_split_last_snoc p s : vpath_split_last (p ++ [s]) = Some (p, s).
Proof. unfold vpath_split_last. rewrite rev_unit. by rewrite rev_involutive. Qed.

Lemma descend_mut_subtree v p x put :
  value_ok v → descend_mut v p = Some (x, put) →
  subtree v p = Some x ∧ value_ok x ∧ ∀ y q, subtree (put y) (p ++ q) = subtree y q.
Proof.
  revert v x put; induction p as [|[n|i] p IH]; intros v x put Hv; simpl.
  { intros [= <- <-]. done. }
  - destruct v as [| |m]; try done. simpl. destruct (bt_get m n) as [c|] eqn:E; [|done].
    destruct (descend_mut c p) as [[x' put']|] eqn:Ed; [|done]. intros [= <- <-].
    assert (value_ok c) as Hc by (apply (get_value_ok (Node m) n); [done|exact E]).
    destruct (IH _ _ _ Hc Ed) as (? & ? & Hput). split_and!; [done..|].
    intros y q. apply value_ok_node in Hv as [Hv _]. simpl. by rewrite bt_get_insert_eq.
  - destruct v as [|l|]; try done. simpl. destruct (l !! Z.to_nat i) as [c|] eqn:E; [|done].
    destruct (descend_mut c p) as [[x' put']|] eqn:Ed; [|done]. intros [= <- <-].
    assert (value_ok c) as Hc by (apply (at_value_ok (List l) i); [done|exact E]).
    destruct (IH _ _ _ Hc Ed) as (? & ? & Hput). split_and!; [done..|].
    intros y q. simpl. by rewrite list_lookup_insert_eq by (by eapply lookup_lt_Some).
Qed.

Lemma descend_mut_put_ok v p x put y :
  value_ok v → vpath_str_ok p → descend_mut v p = Some (x, put) → value_ok y → value_ok (put y).
Proof.
  intros Hv Hp; revert v x put Hv; induction Hp as [|s p Hs Hp IH]; intros v x put Hv; simpl.
  { by intros [= <- <-]. }
  destruct v as [|l|m], s as [n|i]; try done.
  - destruct (l !! Z.to_nat i) as [c|] eqn:E; [|done].
    destruct (descend_mut c p) as [[x' put']|] eqn:Ed; [|done]. intros [= <- <-] Hy.
    assert (value_ok c) as Hc by (apply (at_value_ok (List l) i); [done|exact E]).
    apply value_ok_list in Hv. apply value_ok_list. apply Forall_insert; eauto.
  - destruct (bt_get m n) as [c|] eqn:E; [|done].
    destruct (descend_mut c p) as [[x' put']|] eqn:Ed; [|done]. intros [= <- <-] Hy.
    assert (value_ok c) as Hc by (apply (get_value_ok (Node m) n); [done|exact E]).
    apply node_insert_ok; eauto.
Qed.

Lemma remove_in_name v p n v' :
  value_ok v → remove_in v (p ++ [Name n]) = (v', true) → subtree v' (p ++ [Name n]) = None.
Proof.
  intros Hv. unfold remove_in. rewrite vpath_split_last_snoc.
  destruct (descend_mut v p) as [[x put]|] eqn:E; [|done].
  destruct (descend_mut_subtree _ _ _ _ Hv E) as (_ & Hx & Hput).
  destruct x as [| |m]; try done. intros [= <- _]. rewrite Hput. simpl.
  apply value_ok_node in Hx as [Hx _]. rewrite bt_get_remove by done. by case_decide.
Qed.

Lemma remove_in_ok v p : value_ok v → vpath_str_ok p → value_ok (remove_in v p).1.
Proof.
  intros Hv Hp. unfold remove_in. destruct (vpath_split_last p) as [[h s]|] eqn:Es; [|done].
  assert (p = h ++ [s]) as ->.
  { unfold vpath_split_last in Es. destruct (rev p) as [|y t] eqn:E; [done|]. simplify_eq.
    rewrite <- (rev_involutive p), E. done. }
  apply Forall_app in Hp as [Hh Hs].
  destruct (descend_mut v h) as [[x put]|] eqn:E; [|done].
  destruct (descend_mut_subtree _ _ _ _ Hv E) as (_ & Hx & _).
  destruct s as [n|i], x as [|l|m]; try done; simpl.
  - eapply descend_mut_put_ok; [exact Hv|exact Hh|exact E|]. by apply node_remove_ok.
  - destruct (i <? blen l); [|done]. simpl. eapply descend_mut_put_ok; [exact Hv|exact Hh|exact E|].
    apply value_ok_list in Hx. apply value_ok_list. by apply Forall_delete.
Qed.

(** ** Properties *)

(** [set_value]: when it applies, the new value is read back at the path and
    every path that parts from it reads as before; when it is refused the document
    is unchanged; either way the document stays well formed. *)
Theorem set_value_spec v p x :
  value_ok v → vpath_str_ok p → value_ok x →
  let '(v', ok) := set_value v (Ok p) x in
  value_ok v' ∧ (if ok then get_value v' (Ok p) = Some x else v' = v) ∧
  ∀ q, vpath_str_ok q → diverge p q → get_value v' (Ok q) = get_value v (Ok q).
Proof.
  intros Hv Hp Hx. cbn [set_value get_value]. pose proof (set_in_ok v p x Hv Hp Hx) as Hok.
  destruct (set_in v p x) as [v' ok] eqn:E. split_and!; [done| |].
  - destruct ok; [by apply (set_in_get v)|by apply (set_in_false v p x)].
  - intros q Hq Hd. by apply (set_in_frame v p q x v' ok).
Qed.

Lemma descend_mut_frame v p x put : ∀ q y,
  value_ok v → vpath_str_ok p → vpath_str_ok q → descend_mut v p = Some (x, put) → diverge p q →
  subtree (put y) q = subtree v q.
Proof.
  revert v x put; induction p as [|s p IH]; intros v x put q y Hv Hp Hq Hd Hdiv; [by inversion Hdiv|].
  inversion Hp as [|?? Hs Hp']; subst. cbn [descend_mut] in Hd. destruct s as [n|i].
  - destruct v as [| |m]; try done. destruct (bt_get m n) as [c|] eqn:E; [|done].
    destruct (descend_mut c p) as [[x' put']|] eqn:Ed; [|done]. injection Hd as <- <-.
    assert (value_ok c) as Hc by (apply (get_value_ok (Node m) n); [done|exact E]).
    apply value_ok_node in Hv as [Hv _].
    inversion Hdiv as [? b ? q' Hab|? ? q' Hdiv']; subst; inversion Hq; subst.
    + destruct b as [n'|j]; [|done]. simpl. rewrite bt_get_insert_ne by (done || congruence). done.
    + simpl. rewrite bt_get_insert_eq, E by done. by eapply IH.
  - destruct v as [|l|]; try done. destruct (l !! Z.to_nat i) as [c|] eqn:E; [|done].
    destruct (descend_mut c p) as [[x' put']|] eqn:Ed; [|done]. injection Hd as <- <-.
    assert (value_ok c) as Hc by (apply (at_value_ok (List l) i); [done|exact E]).
    inversion Hdiv as [? b ? q' Hab|? ? q' Hdiv']; subst; inversion Hq; subst.
    + destruct b as [n'|j]; [done|]. simpl in *. rewrite list_lookup_insert_ne; [done|].
      intros ?. destruct Hab. f_equal; lia.
    + simpl. rewrite list_lookup_insert_eq, E by (by eapply lookup_lt_Some). by eapply IH.
Qed.

(** [remove_value] of a named member: it answers whether the member was there,
    the member is gone afterwards, everything that parts from its parent's path is
    untouched, and the document stays well formed. *)
Theorem remove_value_spec v p n :
  value_ok v → vpath_str_ok (p ++ [Name n]) →
  let '(v', removed) := remove_value v (Ok (p ++ [Name n])) in
  value_ok v' ∧
  removed = bool_decide (is_Some (get_value v (Ok (p ++ [Name n])))) ∧
  get_value v' (Ok (p ++ [Name n])) = None ∧
  ∀ q, vpath_str_ok q → diverge p q → get_value v' (Ok q) = get_value v (Ok q).
Proof.
  intros Hv Hp. cbn [remove_value get_value]. pose proof (remove_in_ok v _ Hv Hp) as Hok.
  unfold remove_in in *. rewrite vpath_split_last_snoc in *.
  apply Forall_app in Hp as [Hp Hn].
  assert (∀ w a b, subtree w (a ++ b) = match subtree w a with Some c => subtree c b | None => None end) as Happ.
  { clear. intros w a b. revert w; induction a as [|[m|i] a IH]; intros w; simpl; [done|..].
    - destruct (get w m); [apply IH|done].
    - destruct (at_ w i); [apply IH|done]. }
  destruct (descend_mut v p) as [[x put]|] eqn:E.
  - destruct (descend_mut_subtree _ _ _ _ Hv E) as (Hx & Hxok & Hput). rewrite Happ, Hx.
    destruct x as [s|l|m]; [by rewrite Happ, Hx|by rewrite Happ, Hx|].
    split_and!; [done| | |].
    + cbn. unfold bt_contains. destruct (bt_get m n); by vm_compute.
    + rewrite Hput. simpl. apply value_ok_node in Hxok as [Hm _]. rewrite bt_get_remove by done. by case_decide.
    + intros q Hq Hdiv. simpl. by apply (descend_mut_frame v p (Node m)).
  - assert (subtree v (p ++ [Name n]) = None) as Hnone.
    { rewrite Happ. clear -E. destruct (subtree v p) as [c|] eqn:Hs; [|done]. exfalso.
      revert v c E Hs; induction p as [|[m|i] p IH]; intros v c; simpl; [done|..].
      - destruct v as [| |mm]; simpl; try done. destruct (bt_get mm m) as [d|]; [|done].
        destruct (descend_mut d p) as [[? ?]|] eqn:Ed; [done|]. intros _. by apply IH.
      - destruct v as [|l|]; simpl; try done. destruct (l !! Z.to_nat i) as [d|]; [|done].
        destruct (descend_mut d p) as [[? ?]|] eqn:Ed; [done|]. intros _. by apply IH. }
    rewrite Hnone. by split_and!.
Qed.
End value.

(** ** Witnesses *)

Module ValueWitness.
Import ExtModel.

Definition doc : Value := Node [([97], List [Leaf Null]); ([98], Leaf (Bool true))].

Lemma sample_ok : value_ok doc.
Proof. vm_compute. repeat (split || constructor). all: done. Qed.

Lemma set_value_spec_witness :
  let '(v', ok) := set_value doc (Ok [Name [97]; Index 1]) (Leaf (Bool false)) in
  value_ok v' ∧ (if ok then get_value v' (Ok [Name [97]; Index 1]) = Some (Leaf (Bool false)) else v' = doc) ∧
  ∀ q, vpath_str_ok q → diverge [Name [97]; Index 1] q → get_value v' (Ok q) = get_value doc (Ok q).
Proof. apply (set_value_spec doc); [exact sample_ok|repeat constructor; by vm_compute|done]. Defined.

Lemma remove_value_spec_witness :
  let '(v', removed) := remove_value doc (Ok ([] ++ [Name [98]])) in
  value_ok v' ∧ removed = bool_decide (is_Some (get_value doc (Ok ([] ++ [Name [98]])))) ∧
  get_value v' (Ok ([] ++ [Name [98]])) = None ∧
  ∀ q, vpath_str_ok q → diverge [] q → get_value v' (Ok q) = get_value doc (Ok q).
Proof. apply (remove_value_spec doc [] [98]); [exact sample_ok|repeat constructor; by vm_compute]. Defined.
End ValueWitness.
