(* ===== verification/Archived.v ===== *)
(** * The zero-copy value format

    [codec/archived.rs]: [encode] lays a [Value] out children-first with absolute
    offsets, [ArchivedValue] / [ArchivedNode] navigate the blob in place.  A
    cursor [ArchivedNode { blob, off }] is the pair of its fields.

    The central definition of the proofs is [repr blob off v]: the vnode that
    starts at [off] in [blob] stands for [v].  The encoder establishes it and
    every navigation step is refined by the corresponding step on [Value]. *)
From S2P Require Import Prelude BTree Codec Ext Scalar Path Value.

Definition FORMAT_VERSION : Z := 1.
Definition HEADER_LEN : Z := 5.
Definition LEAF : Z := 0.
Definition LIST : Z := 1.
Definition NODE : Z := 2.

Section archived.
Context `{Ext}.

(** ** Emission *)

(** The current write position (the [debug_assert] on 4 GiB is not part of a
    release build; the truncation of [as u32] is). *)
Definition offset (buf : bytes) : Z := as_u32 (blen buf).

Definition begin_blob : bytes := [FORMAT_VERSION] ++ to_be 4 0.

Definition patch_root (buf : bytes) (root : Z) : bytes :=
  take 1 buf ++ to_be 4 root ++ drop 5 buf.

Definition push_leaf (buf : bytes) (s : Scalar) : bytes * Z :=
  (Scalar_encode s (push buf LEAF), offset buf).

Definition push_list (buf : bytes) (children : list Z) : bytes * Z :=
  (fold_left put_u32 children (put_u32 (push buf LIST) (as_u32 (blen children))), offset buf).

(** The name bytes and the records of an object's entry table. *)
Fixpoint push_names (buf : bytes) (entries : list (bytes * Z)) : bytes * list (Z * Z * Z) :=
  match entries with
  | [] => (buf, [])
  | (name, child_off) :: entries =>
      let name_off := offset buf in
      let '(buf, records) := push_names (buf ++ name) entries in
      (buf, (name_off, as_u32 (blen name), child_off) :: records)
  end.

Definition put_record (buf : bytes) (r : Z * Z * Z) : bytes :=
  let '(name_off, name_len, child_off) := r in
  put_u32 (put_u32 (put_u32 buf name_off) name_len) child_off.

Definition push_object (buf : bytes) (entries : list (bytes * Z)) : bytes * Z :=
  let '(buf, records) := push_names buf entries in
  (fold_left put_record records (put_u32 (push buf NODE) (as_u32 (blen records))), offset buf).

Fixpoint push_value (value : Value) (buf : bytes) : bytes * Z :=
  match value with
  | Leaf s => push_leaf buf s
  | List items =>
      let '(buf, offs) :=
        (fix go items buf :=
           match items with
           | [] => (buf, [])
           | x :: xs =>
               let '(buf, o) := push_value x buf in
               let '(buf, os) := go xs buf in (buf, o :: os)
           end) items buf in
      push_list buf offs
  | Node map =>
      let '(buf, entries) :=
        (fix go map buf :=
           match map with
           | [] => (buf, [])
           | kv :: xs =>
               let '(buf, o) := push_value kv.2 buf in
               let '(buf, os) := go xs buf in (buf, (kv.1, o) :: os)
           end) map buf in
      push_object buf entries
  end.

Definition encode (value : Value) : bytes :=
  let '(buf, root) := push_value value begin_blob in patch_root buf root.

(** ** Navigation *)

Definition node_kind_at (blob : bytes) (off : Z) : res NodeKind :=
  let? t := read_u8 blob off in
  if t =? LEAF then Ok KLeaf
  else if t =? LIST then Ok KList
  else if t =? NODE then Ok KObject
  else Err (Corrupt "unknown value vnode tag {other}").

(** [blob.get(off..)]. *)
Definition tail_from (blob : bytes) (off : Z) : res bytes :=
  if off <=? blen blob then Ok (drop (Z.to_nat off) blob)
  else Err (Corrupt "value blob is truncated").

Definition node_scalar (blob : bytes) (off : Z) : res Scalar :=
  let? t := read_u8 blob off in
  if negb (t =? LEAF) then Err (Corrupt "a scalar was read from a non-leaf vnode")
  else
    let? body := tail_from blob (off + 1) in
    let? '(s, _) := Scalar_decode (Reader_new body) in Ok s.

Definition node_scalar_if_leaf (blob : bytes) (off : Z) : res (option Scalar) :=
  let? t := read_u8 blob off in
  if negb (t =? LEAF) then Ok None
  else
    let? body := tail_from blob (off + 1) in
    let? '(s, _) := Scalar_decode (Reader_new body) in Ok (Some s).

Definition node_leaf_scalar_span (blob : bytes) (off : Z) : res (option (Z * Z)) :=
  let? t := read_u8 blob off in
  if negb (t =? LEAF) then Ok None
  else
    let scalar_off := off + 1 in
    let? body := tail_from blob scalar_off in
    let? '(_, r) := Scalar_decode (Reader_new body) in
    Ok (Some (scalar_off, Reader_position r)).

Definition node_len (blob : bytes) (off : Z) : res Z :=
  let? t := read_u8 blob off in
  if negb (t =? LIST) then Err (Corrupt "the length of a non-list vnode was requested")
  else read_u32 blob (off + 1).

Definition node_at (blob : bytes) (off index : Z) : res (option Z) :=
  let? t := read_u8 blob off in
  if negb (t =? LIST) then Ok None
  else
    let? count := read_u32 blob (off + 1) in
    if count <=? index then Ok None
    else let? child := read_u32 blob (off + 5 + index * 4) in Ok (Some child).

Definition entry_name_bytes (blob : bytes) (entry : Z) : res bytes :=
  let? name_off := read_u32 blob entry in
  let? name_len := read_u32 blob (entry + 4) in
  slice blob name_off name_len.

Definition entry_name (blob : bytes) (entry : Z) : res bytes :=
  let? bs := entry_name_bytes blob entry in
  from_utf8 bs (Corrupt "invalid utf-8 in a field name").

Definition node_get (blob : bytes) (off : Z) (name : bytes) : res (option Z) :=
  let? t := read_u8 blob off in
  if negb (t =? NODE) then Ok None
  else
    let? count := read_u32 blob (off + 1) in
    let table := off + 5 in
    let probe mid := let? e := entry_name_bytes blob (table + mid * 12) in Ok (bytes_cmp e name) in
    let? found := bsearch bsearch_fuel probe 0 count in
    match found with
    | None => Ok None
    | Some mid => let? child := read_u32 blob (table + mid * 12 + 8) in Ok (Some child)
    end.

(** [for i in 0..count] over the entry table. *)
Fixpoint entries_from (blob : bytes) (table : Z) (i : Z) (n : nat) : res (list (bytes * Z)) :=
  match n with
  | O => Ok []
  | S n =>
      let entry := table + i * 12 in
      let? name := entry_name blob entry in
      let? child := read_u32 blob (entry + 8) in
      let? rest := entries_from blob table (i + 1) n in
      Ok ((name, child) :: rest)
  end.

Definition node_entries (blob : bytes) (off : Z) : res (list (bytes * Z)) :=
  let? t := read_u8 blob off in
  if negb (t =? NODE) then Err (Corrupt "the entries of a non-object vnode were requested")
  else
    let? count := read_u32 blob (off + 1) in
    entries_from blob (off + 5) 0 (Z.to_nat count).

Definition node_object_keys (blob : bytes) (off : Z) : res (list bytes) :=
  let? es := node_entries blob off in Ok (es.*1).

Fixpoint navigate (blob : bytes) (off : Z) (at_path : VPath) : res (option Z) :=
  match at_path with
  | [] => Ok (Some off)
  | segment :: rest =>
      let? next := match segment with
                   | Name n => node_get blob off n
                   | Index i => node_at blob off i
                   end in
      match next with
      | Some child => navigate blob child rest
      | None => Ok None
      end
  end.

(** [for i in 0..count] over a list's elements. *)
Fixpoint items_from (blob : bytes) (off : Z) (f : Z → res Value) (i : Z) (n : nat) : res (list Value) :=
  match n with
  | O => Ok []
  | S n =>
      let? c := node_at blob off i in
      let? c := ok_or c (Corrupt "list element missing") in
      let? x := f c in
      let? xs := items_from blob off f (i + 1) n in
      Ok (x :: xs)
  end.

Definition map_entries (f : Z → res Value) (es : list (bytes * Z)) : res (list (bytes * Value)) :=
  mapM_res (λ e, let? x := f e.2 in Ok (e.1, x)) es.

(** [to_value]: the recursion follows offsets read from the blob, so it is
    modelled with fuel (one unit per nesting level). *)
Fixpoint node_to_value (fuel : nat) (blob : bytes) (off : Z) : res Value :=
  match fuel with
  | O => OutOfFuel
  | S fuel =>
      let? k := node_kind_at blob off in
      match k with
      | KLeaf => let? s := node_scalar blob off in Ok (Leaf s)
      | KList =>
          let? count := node_len blob off in
          let? items := items_from blob off (node_to_value fuel blob) 0 (Z.to_nat count) in
          Ok (List items)
      | KObject =>
          let? es := node_entries blob off in
          let? m := map_entries (node_to_value fuel blob) es in
          Ok (Node (bt_collect m))
      end
  end.

(** [ArchivedValue::new]: the checked header gives the root offset. *)
Definition archived_new (blob : bytes) : res Z :=
  let? version := ok_or (head blob) (Corrupt "empty value blob") in
  if negb (version =? FORMAT_VERSION)
  then Err (SchemaMismatch "value blob format version {version}, expected {FORMAT_VERSION}")
  else read_u32 blob 1.

Definition decode (fuel : nat) (blob : bytes) : res Value :=
  let? root := archived_new blob in node_to_value fuel blob root.

Definition archived_leaf_scalar_span (blob : bytes) (at_path : VPath) : res (option (Z * Z)) :=
  let? root := archived_new blob in
  let? n := navigate blob root at_path in
  match n with
  | Some off => node_leaf_scalar_span blob off
  | None => Ok None
  end.

(** ** The representation predicate *)

Definition rec_bytes (r : Z * Z * Z) : bytes :=
  let '(a, b, c) := r in to_be 4 a ++ to_be 4 b ++ to_be 4 c.

Definition u32_ok (z : Z) : Prop := unsigned_ok 32 z.

Inductive repr (blob : bytes) : Z → Value → Prop :=
| repr_leaf pre post s :
    blob = pre ++ [LEAF] ++ Scalar_encode s [] ++ post →
    repr blob (blen pre) (Leaf s)
| repr_list pre post offs l :
    blob = pre ++ [LIST] ++ to_be 4 (blen l) ++ concat (map (to_be 4) offs) ++ post →
    Forall u32_ok offs → Forall2 (repr blob) offs l →
    repr blob (blen pre) (List l)
| repr_node pre post recs m :
    blob = pre ++ [NODE] ++ to_be 4 (blen m) ++ concat (map rec_bytes recs) ++ post →
    Forall (λ r, u32_ok r.1.1 ∧ u32_ok r.1.2 ∧ u32_ok r.2) recs →
    Forall2 (λ r kv, r.1.2 = blen kv.1 ∧
                     ∃ p q, blob = p ++ kv.1 ++ q ∧ r.1.1 = blen p) recs m →
    Forall2 (λ r kv, repr blob r.2 kv.2) recs m →
    repr blob (blen pre) (Node m).

Lemma repr_leaf_inv blob off s :
  repr blob off (Leaf s) →
  ∃ pre post, off = blen pre ∧ blob = pre ++ [LEAF] ++ Scalar_encode s [] ++ post.
Proof. inversion 1; eauto. Qed.

Lemma repr_list_inv blob off l :
  repr blob off (List l) →
  ∃ pre post offs, off = blen pre ∧
    blob = pre ++ [LIST] ++ to_be 4 (blen l) ++ concat (map (to_be 4) offs) ++ post ∧
    Forall u32_ok offs ∧ Forall2 (repr blob) offs l.
Proof. inversion 1; subst; eauto 10. Qed.

Lemma repr_node_inv blob off m :
  repr blob off (Node m) →
  ∃ pre post recs, off = blen pre ∧
    blob = pre ++ [NODE] ++ to_be 4 (blen m) ++ concat (map rec_bytes recs) ++ post ∧
    Forall (λ r, u32_ok r.1.1 ∧ u32_ok r.1.2 ∧ u32_ok r.2) recs ∧
    Forall2 (λ r kv, r.1.2 = blen kv.1 ∧
                     ∃ p q, blob = p ++ kv.1 ++ q ∧ r.1.1 = blen p) recs m ∧
    Forall2 (λ r kv, repr blob r.2 kv.2) recs m.
Proof. inversion 1; subst; eexists _, _, _; split_and!; done. Qed.

(** More bytes at the end change nothing. *)
Lemma repr_app blob more off v : repr blob off v → repr (blob ++ more) off v.
Proof.
  revert off; induction v as [s|l IH|m IH] using Value_ind; intros off Hr; inversion Hr; subst.
  - apply repr_leaf with (post := post ++ more). by rewrite <- !app_assoc.
  - eapply repr_list with (post := post ++ more) (offs := offs); [by rewrite <- !app_assoc|done|].
    set (blob := pre ++ _) in *. clearbody blob. clear -IH H4.
    induction H4; constructor; inversion IH; auto.
  - eapply repr_node with (post := post ++ more) (recs := recs); [by rewrite <- !app_assoc|done|..].
    + eapply Forall2_impl; [eassumption|]. simpl. intros r kv (? & p & q & -> & ?). split; [done|].
      exists p, (q ++ more). by rewrite <- !app_assoc.
    + set (blob := pre ++ _) in *. clearbody blob. clear -IH H5.
      induction H5; constructor; inversion IH; auto.
Qed.

(** ** Emission establishes the representation *)

Fixpoint push_items (items : list Value) (buf : bytes) : bytes * list Z :=
  match items with
  | [] => (buf, [])
  | x :: xs =>
      let '(buf, o) := push_value x buf in
      let '(buf, os) := push_items xs buf in (buf, o :: os)
  end.

Fixpoint push_entries (map : list (bytes * Value)) (buf : bytes) : bytes * list (bytes * Z) :=
  match map with
  | [] => (buf, [])
  | kv :: xs =>
      let '(buf, o) := push_value kv.2 buf in
      let '(buf, os) := push_entries xs buf in (buf, (kv.1, o) :: os)
  end.

Lemma push_value_list items buf :
  push_value (List items) buf = let '(buf, offs) := push_items items buf in push_list buf offs.
Proof. done. Qed.

Lemma push_value_node map buf :
  push_value (Node map) buf = let '(buf, es) := push_entries map buf in push_object buf es.
Proof. done. Qed.

Lemma fold_put_u32 l buf : fold_left put_u32 l buf = buf ++ concat (map (to_be 4) l).
Proof.
  revert buf; induction l as [|x l IH]; intros buf; simpl; [by rewrite app_nil_r|].
  rewrite IH. unfold put_u32. by rewrite <- app_assoc.
Qed.

Lemma fold_put_record l buf : fold_left put_record l buf = buf ++ concat (map rec_bytes l).
Proof.
  revert buf; induction l as [|[[a b] c] l IH]; intros buf; simpl; [by rewrite app_nil_r|].
  rewrite IH. unfold put_u32. by rewrite <- !app_assoc.
Qed.

Lemma push_list_eq buf offs :
  push_list buf offs =
    (buf ++ [LIST] ++ to_be 4 (as_u32 (blen offs)) ++ concat (map (to_be 4) offs), offset buf).
Proof. unfold push_list. rewrite fold_put_u32. unfold put_u32, push. by rewrite <- !app_assoc. Qed.

(** The names of an object, one after the other. *)
Definition names_bytes (es : list (bytes * Z)) : bytes := concat (es.*1).

Fixpoint records_of (start : Z) (es : list (bytes * Z)) : list (Z * Z * Z) :=
  match es with
  | [] => []
  | (n, c) :: es => (as_u32 start, as_u32 (blen n), c) :: records_of (start + blen n) es
  end.

Lemma push_names_eq es buf :
  push_names buf es = (buf ++ names_bytes es, records_of (blen buf) es).
Proof.
  revert buf; induction es as [|[n c] es IH]; intros buf; simpl.
  - unfold names_bytes. simpl. by rewrite app_nil_r.
  - rewrite IH. unfold names_bytes. simpl. rewrite blen_app, <- app_assoc. done.
Qed.

Lemma push_object_eq buf es :
  push_object buf es =
    (buf ++ names_bytes es ++ [NODE] ++ to_be 4 (as_u32 (blen es))
       ++ concat (map rec_bytes (records_of (blen buf) es)),
     offset (buf ++ names_bytes es)).
Proof.
  unfold push_object. rewrite push_names_eq, fold_put_record.
  assert (∀ s, blen (records_of s es) = blen es) as ->.
  { induction es as [|[n c] es IH]; intros s; simpl; [done|]. by rewrite !blen_cons, IH. }
  unfold put_u32, push. by rewrite <- !app_assoc.
Qed.

(** The emitted bytes and offset depend only on the write position. *)
Definition emits (f : bytes → bytes * Z) : Prop :=
  ∀ n, ∃ e o, ∀ buf, blen buf = n → f buf = (buf ++ e, o).

Lemma push_value_emits v : emits (push_value v).
Proof.
  induction v as [s|l IH|m IH] using Value_ind; intros n.
  - exists ([LEAF] ++ Scalar_encode s []), (as_u32 n). intros buf <-. simpl.
    unfold push_leaf. rewrite Scalar_encode_app. unfold push. by rewrite <- app_assoc.
  - assert (∃ e os, ∀ buf, blen buf = n → push_items l buf = (buf ++ e, os)) as (e & os & Hl).
    { revert n; induction IH as [|x l Hx _ IHl]; intros n.
      - exists [], []. intros. simpl. by rewrite app_nil_r.
      - destruct (Hx n) as (e1 & o & H1). destruct (IHl (n + blen e1)) as (e2 & os & H2).
        exists (e1 ++ e2), (o :: os). intros buf Hn. simpl. rewrite H1 by done.
        rewrite H2 by (rewrite blen_app; lia). by rewrite app_assoc. }
    eexists _, _. intros buf Hn. rewrite push_value_list, Hl, push_list_eq by done.
    rewrite <- app_assoc. unfold offset. rewrite blen_app, Hn. done.
  - assert (∃ e es, ∀ buf, blen buf = n → push_entries m buf = (buf ++ e, es)) as (e & es & Hl).
    { revert n; induction IH as [|kv l Hx _ IHl]; intros n.
      - exists [], []. intros. simpl. by rewrite app_nil_r.
      - destruct (Hx n) as (e1 & o & H1). destruct (IHl (n + blen e1)) as (e2 & es & H2).
        exists (e1 ++ e2), ((kv.1, o) :: es). intros buf Hn. simpl. rewrite H1 by done.
        rewrite H2 by (rewrite blen_app; lia). by rewrite app_assoc. }
    eexists _, _. intros buf Hn. rewrite push_value_node, Hl, push_object_eq by done.
    rewrite <- app_assoc. unfold offset. rewrite !blen_app, Hn. done.
Qed.

Lemma push_value_ext v buf : ∃ e, (push_value v buf).1 = buf ++ e.
Proof. destruct (push_value_emits v (blen buf)) as (e & o & He). exists e. by rewrite He. Qed.

Lemma push_items_ext l buf : ∃ e, (push_items l buf).1 = buf ++ e.
Proof.
  revert buf; induction l as [|x l IH]; intros buf; simpl; [exists []; by rewrite app_nil_r|].
  destruct (push_value_ext x buf) as [e1 H1]. destruct (push_value x buf) as [b1 o].
  simpl in *. subst. destruct (IH (buf ++ e1)) as [e2 H2].
  destruct (push_items l (buf ++ e1)). simpl in *. subst. exists (e1 ++ e2). by rewrite app_assoc.
Qed.

Lemma push_entries_ext l buf : ∃ e, (push_entries l buf).1 = buf ++ e.
Proof.
  revert buf; induction l as [|x l IH]; intros buf; simpl; [exists []; by rewrite app_nil_r|].
  destruct (push_value_ext x.2 buf) as [e1 H1]. destruct (push_value x.2 buf) as [b1 o].
  simpl in *. subst. destruct (IH (buf ++ e1)) as [e2 H2].
  destruct (push_entries l (buf ++ e1)). simpl in *. subst. exists (e1 ++ e2). by rewrite app_assoc.
Qed.

Lemma offset_small buf : blen buf < 2 ^ 32 → offset buf = blen buf.
Proof. intros. apply as_u32_small. pose proof (blen_nonneg buf). lia. Qed.

Lemma blen_concat_map {A} (f : A → bytes) k l :
  (∀ x, blen (f x) = k) → blen (concat (map f l)) = k * blen l.
Proof.
  intros Hf. induction l as [|x l IH]; [unfold blen; cbn; lia|]. cbn [map concat].
  rewrite blen_app, blen_cons, Hf, IH. lia.
Qed.

Lemma blen_rec_bytes r : blen (rec_bytes r) = 12.
Proof. destruct r as [[a b] c]. unfold rec_bytes. by rewrite !blen_app, !blen_to_be. Qed.

Lemma blen_Forall2 {A B} (P : A → B → Prop) l k : Forall2 P l k → blen l = blen k.
Proof. intros Hf%Forall2_length. unfold blen. by rewrite Hf. Qed.

Lemma push_items_repr l buf :
  Forall (λ v, ∀ buf, blen (push_value v buf).1 < 2 ^ 32 →
            repr (push_value v buf).1 (push_value v buf).2 v ∧ u32_ok (push_value v buf).2) l →
  blen (push_items l buf).1 < 2 ^ 32 →
  Forall2 (repr (push_items l buf).1) (push_items l buf).2 l ∧ Forall u32_ok (push_items l buf).2.
Proof.
  intros Hl; revert buf; induction Hl as [|x l Hx _ IH]; intros buf Hb; simpl in *; [by split|].
  specialize (Hx buf). destruct (push_value x buf) as [b1 o].
  specialize (IH b1). destruct (push_items_ext l b1) as [e2 H2].
  destruct (push_items l b1) as [b2 os]. simpl in *. subst.
  rewrite blen_app in Hb. pose proof (blen_nonneg e2).
  destruct Hx as [Hr Ho]; [lia|]. destruct IH as [? ?]; [rewrite blen_app; lia|].
  split; constructor; try done. by apply repr_app.
Qed.

Lemma push_entries_repr l buf :
  Forall (λ kv, ∀ buf, blen (push_value kv.2 buf).1 < 2 ^ 32 →
            repr (push_value kv.2 buf).1 (push_value kv.2 buf).2 kv.2 ∧
            u32_ok (push_value kv.2 buf).2) l →
  blen (push_entries l buf).1 < 2 ^ 32 →
  Forall2 (λ e kv, e.1 = kv.1 ∧ u32_ok e.2 ∧ repr (push_entries l buf).1 e.2 kv.2)
    (push_entries l buf).2 l.
Proof.
  intros Hl; revert buf; induction Hl as [|x l Hx _ IH]; intros buf Hb; simpl in *; [done|].
  specialize (Hx buf). destruct (push_value x.2 buf) as [b1 o].
  specialize (IH b1). destruct (push_entries_ext l b1) as [e2 H2].
  destruct (push_entries l b1) as [b2 os]. simpl in *. subst.
  rewrite blen_app in Hb. pose proof (blen_nonneg e2).
  destruct Hx as [Hr Ho]; [lia|]. specialize (IH ltac:(rewrite blen_app; lia)).
  constructor; [|done]. simpl. split_and!; [done..|]. by apply repr_app.
Qed.

Lemma records_of_spec pre es post :
  blen (pre ++ names_bytes es ++ post) < 2 ^ 32 →
  Forall2 (λ r e, (r.1.2 = blen e.1 ∧
                   ∃ p q, pre ++ names_bytes es ++ post = p ++ e.1 ++ q ∧ r.1.1 = blen p) ∧
                  r.2 = e.2 ∧ u32_ok r.1.1 ∧ u32_ok r.1.2)
    (records_of (blen pre) es) es.
Proof.
  revert pre; induction es as [|[n c] es IH]; intros pre Hb; simpl; [done|].
  unfold names_bytes in *; simpl in *. change (list_fmap (bytes * Z)%type bytes fst es) with (es.*1) in *.
  rewrite !blen_app in Hb.
  pose proof (blen_nonneg pre). pose proof (blen_nonneg n). pose proof (blen_nonneg post).
  pose proof (blen_nonneg (concat (es.*1))).
  specialize (IH (pre ++ n)). rewrite <- app_assoc in *. rewrite !blen_app in IH.
  constructor; simpl.
  - rewrite !as_u32_small by lia. split_and!; [done| |done|unfold u32_ok, unsigned_ok; lia..].
    exists pre, (concat (es.*1) ++ post). done.
  - apply IH. lia.
Qed.

(** A vnode over children that are already written. *)
Definition written (out : bytes * Z) (v : Value) : Prop := repr out.1 out.2 v ∧ u32_ok out.2.

Lemma push_leaf_repr buf s : blen (push_leaf buf s).1 < 2 ^ 32 → written (push_leaf buf s) (Leaf s).
Proof.
  unfold written, push_leaf. cbn [fst snd]. rewrite Scalar_encode_app. unfold push. rewrite !blen_app. intros Hb.
  pose proof (blen_nonneg buf). pose proof (blen_nonneg (Scalar_encode s [])).
  rewrite blen_cons, blen_nil in Hb. rewrite offset_small by lia.
  split; [|unfold u32_ok, unsigned_ok; lia].
  apply repr_leaf with (post := []). by rewrite app_nil_r, <- app_assoc.
Qed.

Lemma push_list_repr b offs l : Forall2 (repr b) offs l → Forall u32_ok offs →
  blen (push_list b offs).1 < 2 ^ 32 → written (push_list b offs) (List l).
Proof.
  intros Hf Hu. unfold written. rewrite push_list_eq. cbn [fst snd]. intros Hb.
  rewrite !blen_app, blen_cons, blen_nil, blen_to_be in Hb.
  rewrite (blen_concat_map (to_be 4) 4) in Hb by (intros; by rewrite blen_to_be).
  pose proof (blen_nonneg b). pose proof (blen_nonneg offs). rewrite offset_small by lia.
  pose proof (blen_Forall2 _ _ _ Hf) as Hlen.
  split; [|unfold u32_ok, unsigned_ok; lia]. rewrite as_u32_small, Hlen by lia.
  eapply repr_list with (post := []) (offs := offs); [by rewrite !app_nil_r|done|].
  eapply Forall2_impl; [exact Hf|]. intros. by apply repr_app.
Qed.

Lemma push_object_repr b es m : Forall2 (λ e kv, e.1 = kv.1 ∧ u32_ok e.2 ∧ repr b e.2 kv.2) es m →
  blen (push_object b es).1 < 2 ^ 32 → written (push_object b es) (Node m).
Proof.
  intros Hi. unfold written. rewrite push_object_eq. cbn [fst snd]. intros Hb.
  set (tbl := concat (map rec_bytes _)) in *.
  assert (blen (b ++ names_bytes es) + 5 + blen tbl < 2 ^ 32) as Hb'.
  { rewrite !blen_app, blen_cons, blen_nil, blen_to_be in Hb. rewrite blen_app. lia. }
  pose proof (blen_nonneg tbl). pose proof (blen_nonneg (b ++ names_bytes es)).
  pose proof (blen_nonneg (names_bytes es)). pose proof (blen_nonneg b).
  rewrite blen_app in Hb'. rewrite offset_small by (rewrite blen_app; lia).
  pose proof (blen_Forall2 _ _ _ Hi) as Hlen.
  pose proof (records_of_spec b es ([NODE] ++ to_be 4 (as_u32 (blen es)) ++ tbl) Hb) as Hrec.
  pose proof (blen_Forall2 _ _ _ Hrec) as Hlen'.
  assert (blen tbl = 12 * blen es) as Htbl.
  { unfold tbl. rewrite (blen_concat_map rec_bytes 12); [lia|apply blen_rec_bytes]. }
  split; [|unfold u32_ok, unsigned_ok; rewrite blen_app; lia].
  assert (as_u32 (blen es) = blen m) as Ecount by (rewrite as_u32_small by lia; lia).
  eapply repr_node with (post := []) (recs := records_of (blen b) es).
  - fold tbl. rewrite app_nil_r, <- app_assoc, Ecount. done.
  - apply Forall_forall. intros r Hr. apply list_elem_of_lookup in Hr as [i Hr].
    destruct (Forall2_lookup_l _ _ _ _ _ Hrec Hr) as (e & He & _ & -> & ? & ?).
    destruct (Forall2_lookup_l _ _ _ _ _ Hi He) as (kv & _ & _ & ? & _). done.
  - eapply Forall2_trans; [|exact Hrec|exact Hi]. simpl.
    intros r e kv (? & _) (<- & _). done.
  - eapply Forall2_trans; [|exact Hrec|exact Hi]. simpl.
    intros r e kv (_ & -> & _) (_ & _ & ?). by apply repr_app.
Qed.

Lemma push_value_repr v : ∀ buf,
  blen (push_value v buf).1 < 2 ^ 32 →
  repr (push_value v buf).1 (push_value v buf).2 v ∧ u32_ok (push_value v buf).2.
Proof.
  induction v as [s|l IH|m IH] using Value_ind; intros buf Hb.
  - by apply push_leaf_repr.
  - rewrite push_value_list in *. pose proof (push_items_repr l buf IH) as Hi.
    destruct (push_items l buf) as [b offs]. pose proof (push_list_eq b offs) as E. cbn [fst snd] in *.
    destruct Hi as [Hf Hu]; [|by apply push_list_repr]. rewrite E in Hb. cbn [fst] in Hb. rewrite blen_app in Hb.
    pose proof (blen_nonneg ([LIST] ++ to_be 4 (as_u32 (blen offs)) ++ concat (map (to_be 4) offs))). lia.
  - rewrite push_value_node in *. pose proof (push_entries_repr m buf IH) as Hi.
    destruct (push_entries m buf) as [b es]. pose proof (push_object_eq b es) as E. cbn [fst snd] in *.
    apply push_object_repr; [|done]. apply Hi. rewrite E in Hb. cbn [fst] in Hb. rewrite blen_app in Hb.
    pose proof (blen_nonneg (names_bytes es ++ [NODE] ++ to_be 4 (as_u32 (blen es)) ++ concat (map rec_bytes (records_of (blen b) es)))). lia.
Qed.

(** The blob [encode] builds, header included. *)
Lemma encode_repr v :
  blen (encode v) < 2 ^ 32 →
  ∃ root body, encode v = [FORMAT_VERSION] ++ to_be 4 root ++ body ∧ u32_ok root ∧
               repr (encode v) root v.
Proof.
  unfold encode. destruct (push_value_emits v 5) as (e & root & He).
  rewrite (He begin_blob) by done. unfold patch_root, begin_blob. cbn [app].
  set (hdr := [FORMAT_VERSION] ++ to_be 4 root).
  intros Hb. exists root, e.
  assert (take 1 (FORMAT_VERSION :: to_be 4 0 ++ e) ++ to_be 4 root ++
          drop 5 (FORMAT_VERSION :: to_be 4 0 ++ e) = hdr ++ e) as Eq.
  { unfold hdr. rewrite <- app_assoc. f_equal. }
  rewrite Eq in *. split; [by unfold hdr; rewrite <- app_assoc|].
  pose proof (push_value_repr v hdr) as Hr. rewrite He in Hr by done. simpl in Hr.
  destruct Hr; [done|]. done.
Qed.

(** Nesting levels of a value: the fuel its materialisation needs. *)
Fixpoint depth (v : Value) : nat :=
  match v with
  | Leaf _ => 1
  | List l => S (list_max (map depth l))
  | Node m => S (list_max (map (λ kv, depth kv.2) m))
  end.

Lemma list_max_in (l : list nat) n : n ∈ l → (n ≤ list_max l)%nat.
Proof. induction 1 as [|? ? ? ? IH]; simpl; lia. Qed.

Lemma depth_list l v : v ∈ l → (depth v < depth (List l))%nat.
Proof.
  intros Hin. cbn [depth]. apply Nat.lt_succ_r, list_max_in.
  apply (list_elem_of_fmap_2 depth _ _ Hin).
Qed.

Lemma depth_node m kv : kv ∈ m → (depth kv.2 < depth (Node m))%nat.
Proof.
  intros Hin. cbn [depth]. apply Nat.lt_succ_r, list_max_in.
  apply (list_elem_of_fmap_2 (λ kv : bytes * Value, depth kv.2) _ _ Hin).
Qed.

(** ** Navigation reads the representation *)

Section reading.
Context (blob : bytes).
Hypothesis Hblob : blen blob < 2 ^ 32.

Lemma small_usize : blen blob ≤ USIZE_MAX.
Proof using Hblob. clear -Hblob. unfold USIZE_MAX. lia. Qed.

Lemma split_concat {A} (f : A → bytes) k (l : list A) (i : nat) x :
  (∀ x, blen (f x) = k) → l !! i = Some x →
  ∃ a b, concat (map f l) = a ++ f x ++ b ∧ blen a = k * Z.of_nat i.
Proof using Type.
  intros Hf Hx. exists (concat (map f (take i l))), (concat (map f (drop (S i) l))). split.
  - rewrite <- (take_drop_middle l i x Hx) at 1. rewrite map_app, concat_app. done.
  - rewrite (blen_concat_map f k) by done. unfold blen. rewrite length_take.
    apply lookup_lt_Some in Hx. lia.
Qed.

Lemma read_u8_at pre b post : blob = pre ++ b :: post → read_u8 blob (blen pre) = Ok b.
Proof using Hblob. pose proof small_usize. intros E. rewrite E in *. by apply read_u8_app. Qed.

Lemma read_u32_at pre v post off :
  blob = pre ++ to_be 4 v ++ post → u32_ok v → off = blen pre → read_u32 blob off = Ok v.
Proof using Hblob. pose proof small_usize. intros E ? ->. rewrite E in *. by apply read_u32_app. Qed.

Lemma slice_at p x q : blob = p ++ x ++ q → slice blob (blen p) (blen x) = Ok x.
Proof using Hblob. pose proof small_usize. intros E. rewrite E in *. by apply slice_app. Qed.

Lemma read_table pre {A} (f : A → bytes) k l post i x a v b off :
  blob = pre ++ concat (map f l) ++ post → (∀ x, blen (f x) = k) → l !! i = Some x →
  f x = a ++ to_be 4 v ++ b → u32_ok v → off = blen pre + k * Z.of_nat i + blen a →
  read_u32 blob off = Ok v.
Proof using Hblob.
  intros E Hk Hx Hf Hv ->. destruct (split_concat f k l i x Hk Hx) as (c & d & Hc & Hl).
  rewrite Hc, Hf in E. eapply (read_u32_at (pre ++ c ++ a)); [|done|].
  - rewrite E, <- !app_assoc. done.
  - rewrite !blen_app. lia.
Qed.

Lemma kind_at_repr off v : repr blob off v → node_kind_at blob off = Ok (node_kind v).
Proof using Hblob.
  destruct 1; unfold node_kind_at;
    (erewrite read_u8_at; [|match goal with E : blob = _ |- _ => simpl in E; exact E end]);
    done.
Qed.

Lemma count_lt {A} (l : list A) k pre t cnt tbl post :
  blob = pre ++ [t] ++ cnt ++ tbl ++ post → blen tbl = k * blen l → 1 ≤ k → u32_ok (blen l).
Proof using Hblob.
  intros E Hk H1. pose proof Hblob as Hb. rewrite E in Hb. rewrite !blen_app in Hb.
  pose proof (blen_nonneg l). pose proof (blen_nonneg pre). pose proof (blen_nonneg cnt).
  pose proof (blen_nonneg post). pose proof (blen_nonneg [t]).
  unfold u32_ok, unsigned_ok. nia.
Qed.

(** What each step returns, against the same step on the value. *)
Definition step_ok (r : res (option Z)) (o : option Value) : Prop :=
  match o with
  | Some c => ∃ off, r = Ok (Some off) ∧ repr blob off c
  | None => r = Ok None
  end.

Lemma node_at_table pre post offs (l : list Value) i :
  blob = pre ++ [LIST] ++ to_be 4 (blen l) ++ concat (map (to_be 4) offs) ++ post →
  Forall u32_ok offs → length offs = length l → 0 ≤ i →
  node_at blob (blen pre) i = Ok (offs !! Z.to_nat i).
Proof using Hblob.
  intros E Hu Hl Hi. unfold node_at. erewrite read_u8_at by exact E. cbn [rbind].
  rewrite Z.eqb_refl. cbn [negb].
  assert (u32_ok (blen l)) as Hcount.
  { eapply count_lt with (k := 4); [exact E| |lia].
    rewrite (blen_concat_map (to_be 4) 4); [unfold blen; lia|intros; apply blen_to_be]. }
  erewrite (read_u32_at (pre ++ [LIST])); [|by rewrite <- app_assoc|done|rewrite blen_app; done].
  cbn [rbind]. destruct (Z.leb_spec (blen l) i).
  { rewrite (proj2 (lookup_ge_None _ _)); [done|]. unfold blen in *. lia. }
  destruct (lookup_lt_is_Some_2 offs (Z.to_nat i)) as [o Ho]; [unfold blen in *; lia|]. rewrite Ho.
  erewrite (read_table (pre ++ [LIST] ++ to_be 4 (blen l)) (to_be 4) 4 offs); [done|..].
  - rewrite E, <- !app_assoc. done.
  - intros; apply blen_to_be.
  - exact Ho.
  - rewrite app_nil_r. instantiate (1 := []). done.
  - by eapply Forall_lookup_1 in Hu.
  - rewrite !blen_app, blen_to_be, blen_cons, !blen_nil. lia.
Qed.

Lemma at_repr off v i : 0 ≤ i → repr blob off v → step_ok (node_at blob off i) (at_ v i).
Proof using Hblob.
  intros Hi Hr. destruct Hr as [pre post s E|pre post offs l E Hu Hf|pre post recs m E Hu _ _].
  - unfold node_at. erewrite read_u8_at by exact E. done.
  - rewrite (node_at_table _ _ _ _ i E Hu (Forall2_length _ _ _ Hf) Hi). cbn [at_].
    destruct (l !! Z.to_nat i) as [c|] eqn:Hc; simpl.
    + destruct (Forall2_lookup_r _ _ _ _ _ Hf Hc) as (o & Ho & Hro). rewrite Ho. by exists o.
    + rewrite (proj2 (lookup_ge_None _ _)); [done|]. apply lookup_ge_None in Hc.
      by rewrite (Forall2_length _ _ _ Hf).
  - unfold node_at. erewrite read_u8_at by exact E. done.
Qed.

Lemma record_reads pre t cnt recs post i r :
  blob = pre ++ [t] ++ to_be 4 cnt ++ concat (map rec_bytes recs) ++ post →
  recs !! i = Some r → u32_ok r.1.1 ∧ u32_ok r.1.2 ∧ u32_ok r.2 →
  let entry := blen pre + 5 + Z.of_nat i * 12 in
  read_u32 blob entry = Ok r.1.1 ∧ read_u32 blob (entry + 4) = Ok r.1.2 ∧
  read_u32 blob (entry + 8) = Ok r.2.
Proof using Hblob.
  intros E Hr (Ha & Hb & Hc). destruct r as [[a b] c]; simpl in *.
  assert (blob = (pre ++ [t] ++ to_be 4 cnt) ++ concat (map rec_bytes recs) ++ post) as E'
    by (rewrite E, <- !app_assoc; done).
  pose proof (λ x v y off, read_table _ rec_bytes 12 recs post i _ x v y off E' blen_rec_bytes Hr) as Hrd.
  assert (blen (pre ++ [t] ++ to_be 4 cnt) = blen pre + 5) as Hpre
    by (rewrite !blen_app, blen_to_be, blen_cons, blen_nil; lia).
  rewrite Hpre in Hrd. split_and!.
  - apply (Hrd [] a (to_be 4 b ++ to_be 4 c)); [done|done|rewrite blen_nil; lia].
  - apply (Hrd (to_be 4 a) b (to_be 4 c)); [done|done|rewrite blen_to_be; lia].
  - apply (Hrd (to_be 4 a ++ to_be 4 b) c []);
      [by rewrite app_nil_r, <- app_assoc|done|rewrite blen_app, !blen_to_be; lia].
Qed.

(** The entry table of an object vnode. *)
Lemma node_table pre post recs (m : list (bytes * Value)) :
  blob = pre ++ [NODE] ++ to_be 4 (blen m) ++ concat (map rec_bytes recs) ++ post →
  Forall (λ r, u32_ok r.1.1 ∧ u32_ok r.1.2 ∧ u32_ok r.2) recs →
  Forall2 (λ r kv, r.1.2 = blen kv.1 ∧
             ∃ p q, blob = p ++ kv.1 ++ q ∧ r.1.1 = blen p) recs m →
  read_u8 blob (blen pre) = Ok NODE ∧ read_u32 blob (blen pre + 1) = Ok (blen m) ∧
  u32_ok (blen m) ∧
  ∀ i kv, m !! i = Some kv →
    let entry := blen pre + 5 + Z.of_nat i * 12 in
    entry_name_bytes blob entry = Ok kv.1 ∧
    ∃ r, recs !! i = Some r ∧ read_u32 blob (entry + 8) = Ok r.2.
Proof using Hblob.
  intros E Hu Hn. pose proof (blen_Forall2 _ _ _ Hn) as Hl.
  assert (u32_ok (blen m)) as Hcount.
  { eapply count_lt with (k := 12); [exact E| |lia].
    rewrite (blen_concat_map rec_bytes 12); [lia|apply blen_rec_bytes]. }
  split_and!; [by erewrite read_u8_at by exact E| |done|].
  { eapply (read_u32_at (pre ++ [NODE])); [by rewrite <- app_assoc|done|by rewrite blen_app]. }
  intros i kv Hkv. destruct (Forall2_lookup_r _ _ _ _ _ Hn Hkv) as (r & Hr & Hlen & p & q & Hp & Hoff).
  destruct (record_reads _ _ _ _ _ _ _ E Hr (Forall_lookup_1 _ _ _ _ Hu Hr)) as (R1 & R2 & R3).
  split; [|by eauto].
  unfold entry_name_bytes. rewrite R1. cbn [rbind]. rewrite R2. cbn [rbind].
  rewrite Hoff, Hlen. by eapply slice_at.
Qed.

(** The binary search over an object's entry table. *)
Lemma node_get_table pre post recs (m : list (bytes * Value)) n :
  blob = pre ++ [NODE] ++ to_be 4 (blen m) ++ concat (map rec_bytes recs) ++ post →
  Forall (λ r, u32_ok r.1.1 ∧ u32_ok r.1.2 ∧ u32_ok r.2) recs →
  Forall2 (λ r kv, r.1.2 = blen kv.1 ∧
             ∃ p q, blob = p ++ kv.1 ++ q ∧ r.1.1 = blen p) recs m →
  bt_sorted m →
  (∃ i c r, m !! i = Some (n, c) ∧ recs !! i = Some r ∧
            node_get blob (blen pre) n = Ok (Some r.2)) ∨
  (n ∉ m.*1 ∧ node_get blob (blen pre) n = Ok None).
Proof using Hblob.
  intros E Hu Hn Hs. destruct (node_table _ _ _ _ E Hu Hn) as (R8 & R32 & Hcount & Htbl).
  unfold node_get. rewrite R8. cbn [rbind]. rewrite Z.eqb_refl. cbn [negb]. rewrite R32. cbn [rbind].
  destruct (bsearch_spec (m.*1) n
    (λ mid, let? e := entry_name_bytes blob (blen pre + 5 + mid * 12) in Ok (bytes_cmp e n)))
    with (fuel := bsearch_fuel) (lo := 0) (hi := blen m) as [(i & Hi & ->)|(Hnot & ->)].
  - exact Hs.
  - intros i k Hk. rewrite list_lookup_fmap in Hk. destruct (m !! i) as [kv|] eqn:Ei; [|done].
    simplify_eq/=. destruct (Htbl _ _ Ei) as [-> _]. done.
  - lia.
  - unfold blen. by rewrite length_fmap.
  - unfold u32_ok, unsigned_ok in Hcount. rewrite Z.sub_0_r. apply Hcount.
  - intros i k Hk _. apply lookup_lt_Some in Hk. rewrite length_fmap in Hk. unfold blen. lia.
  - rewrite list_lookup_fmap in Hi. destruct (m !! i) as [[k c]|] eqn:Ei; [|done]. simplify_eq/=.
    destruct (Htbl _ _ Ei) as [_ (r & Hr & Ho)]. left. exists i, c, r.
    cbn [rbind]. by rewrite Ho.
  - right. done.
Qed.

Lemma get_repr off v n : value_ok v → repr blob off v → step_ok (node_get blob off n) (get v n).
Proof using Hblob.
  intros Hok Hr. destruct Hr as [pre post s E|pre post offs l E _ _|pre post recs m E Hu Hn Hc].
  - unfold node_get. erewrite read_u8_at by exact E. done.
  - unfold node_get. erewrite read_u8_at by exact E. done.
  - apply value_ok_node in Hok as [Hs _]. cbn [get].
    destruct (node_get_table _ _ _ _ n E Hu Hn Hs) as [(i & c & r & Hi & Hri & ->)|[Hnot ->]].
    + assert (bt_get m n = Some c) as ->.
      { apply bt_elem_get; [done|]. by eapply list_elem_of_lookup_2. }
      exists r.2. split; [done|]. apply (Forall2_lookup_lr _ _ _ _ _ _ Hc Hri Hi).
    + apply bt_get_None in Hnot; [|done]. by rewrite Hnot.
Qed.

Lemma navigate_repr p : ∀ off v,
  vpath_str_ok p → value_ok v → repr blob off v → step_ok (navigate blob off p) (subtree v p).
Proof using Hblob.
  induction p as [|[n|i] p IH]; intros off v Hp Hok Hr; simpl.
  - eauto.
  - inversion Hp; subst. pose proof (get_repr _ _ n Hok Hr) as Hg. destruct (get v n) as [c|] eqn:Eg; simpl in Hg.
    + destruct Hg as (o & -> & Ho). cbn [rbind]. apply IH; [done| |done]. by eapply get_value_ok.
    + rewrite Hg. done.
  - inversion Hp; subst. pose proof (at_repr _ _ i ltac:(done) Hr) as Hg. destruct (at_ v i) as [c|] eqn:Eg; simpl in Hg.
    + destruct Hg as (o & -> & Ho). cbn [rbind]. apply IH; [done| |done]. by eapply at_value_ok.
    + rewrite Hg. done.
Qed.

Lemma entries_repr (pre : bytes) (m : list (bytes * Value)) (n i : nat) :
  (∀ i kv, m !! i = Some kv →
    let entry := blen pre + 5 + Z.of_nat i * 12 in
    entry_name_bytes blob entry = Ok kv.1 ∧
    ∃ c, read_u32 blob (entry + 8) = Ok c ∧ repr blob c kv.2) →
  Forall (λ kv : bytes * Value, str_ok kv.1) m → (i + n)%nat = length m →
  ∃ es, entries_from blob (blen pre + 5) (Z.of_nat i) n = Ok es ∧
        Forall2 (λ e kv, e.1 = kv.1 ∧ repr blob e.2 kv.2) es (drop i m).
Proof using Type.
  intros Htbl Hstr; revert i; induction n as [|n IH]; intros i Hl; simpl.
  - exists []. rewrite drop_ge by lia. done.
  - destruct (lookup_lt_is_Some_2 m i) as [kv Hkv]; [lia|].
    destruct (Htbl _ _ Hkv) as (Hn & c & Hc & Hr). unfold entry_name. rewrite Hn. cbn [rbind].
    destruct (Forall_lookup_1 _ _ _ _ Hstr Hkv) as [Hu _]. unfold from_utf8. rewrite Hu. cbn [rbind].
    rewrite Hc. cbn [rbind]. destruct (IH (S i)) as (es & He & Hf); [lia|].
    replace (Z.of_nat i + 1) with (Z.of_nat (S i)) by lia. rewrite He. cbn [rbind].
    eexists; split; [done|]. rewrite (drop_S _ _ _ Hkv). by constructor.
Qed.

Lemma node_entries_repr off m :
  value_ok (Node m) → repr blob off (Node m) →
  ∃ es, node_entries blob off = Ok es ∧ Forall2 (λ e kv, e.1 = kv.1 ∧ repr blob e.2 kv.2) es m.
Proof using Hblob.
  intros Hok (pre & post & recs & -> & E & Hu & Hn & Hc)%repr_node_inv.
  destruct (node_table _ _ _ _ E Hu Hn) as (R8 & R32 & _ & Htbl).
  unfold node_entries. rewrite R8. cbn [rbind]. rewrite Z.eqb_refl. cbn [negb]. rewrite R32. cbn [rbind].
  apply (entries_repr pre m (Z.to_nat (blen m)) 0); [| |unfold blen; lia].
  { intros i kv Hkv. destruct (Htbl _ _ Hkv) as (? & r & Hri & ?). split; [done|].
    exists r.2. split; [done|]. by eapply Forall2_lookup_lr in Hc. }
  apply value_ok_node in Hok as [_ Hok]. eapply Forall_impl; [exact Hok|]. naive_solver.
Qed.

(** ** Scalars and materialisation *)

Context `{!ExtLaws}.

Lemma tail_at pre x : blob = pre ++ x → tail_from blob (blen pre) = Ok x.
Proof using Type.
  intros E. unfold tail_from. rewrite E, blen_app. pose proof (blen_nonneg x).
  destruct (Z.leb_spec (blen pre) (blen pre + blen x)); [|lia].
  unfold blen. by rewrite Nat2Z.id, drop_app_length.
Qed.

Lemma leaf_reads off s :
  scalar_ok s → repr blob off (Leaf s) →
  read_u8 blob off = Ok LEAF ∧
  ∃ body, tail_from blob (off + 1) = Ok body ∧
          Scalar_decode (Reader_new body) = Ok (s, mkReader body (blen (Scalar_encode s []))).
Proof using All.
  intros Hs (pre & post & -> & E)%repr_leaf_inv. split; [by erewrite read_u8_at by exact E|].
  exists (Scalar_encode s [] ++ post). split.
  - assert (blob = (pre ++ [LEAF]) ++ Scalar_encode s [] ++ post) as E' by by rewrite <- app_assoc.
    rewrite <- (tail_at _ _ E'). by rewrite blen_app.
  - pose proof small_usize as Hu. rewrite E, !blen_app in Hu.
    pose proof (blen_nonneg pre). pose proof (blen_nonneg [LEAF]).
    apply (scalar_reads s Hs [] post). cbn [app]. rewrite blen_app. lia.
Qed.

Lemma node_scalar_repr off s : scalar_ok s → repr blob off (Leaf s) → node_scalar blob off = Ok s.
Proof using All.
  intros Hs Hr. destruct (leaf_reads _ _ Hs Hr) as (H8 & body & Ht & Hd).
  unfold node_scalar. rewrite H8. cbn [rbind]. cbn. rewrite Ht. cbn [rbind]. by rewrite Hd.
Qed.

Lemma node_span_repr off s :
  scalar_ok s → repr blob off (Leaf s) →
  node_leaf_scalar_span blob off = Ok (Some (off + 1, blen (Scalar_encode s []))).
Proof using All.
  intros Hs Hr. destruct (leaf_reads _ _ Hs Hr) as (H8 & body & Ht & Hd).
  unfold node_leaf_scalar_span. rewrite H8. cbn [rbind]. cbn. rewrite Ht. cbn [rbind]. by rewrite Hd.
Qed.

Lemma scalar_if_leaf_repr off v :
  value_ok v → repr blob off v → node_scalar_if_leaf blob off = Ok (leaf v).
Proof using All.
  intros Hv Hr. destruct v as [s|l|m].
  - destruct (leaf_reads _ _ Hv Hr) as (H8 & body & Ht & Hd).
    unfold node_scalar_if_leaf. rewrite H8. cbn [rbind]. cbn. rewrite Ht. cbn [rbind]. by rewrite Hd.
  - apply repr_list_inv in Hr as (pre & post & offs & -> & E & _).
    unfold node_scalar_if_leaf. by erewrite read_u8_at by exact E.
  - apply repr_node_inv in Hr as (pre & post & offs & -> & E & _).
    unfold node_scalar_if_leaf. by erewrite read_u8_at by exact E.
Qed.

Lemma node_len_repr off l : repr blob off (List l) → node_len blob off = Ok (blen l).
Proof using Hblob.
  intros (pre & post & offs & -> & E & _ & Hf)%repr_list_inv. unfold node_len.
  erewrite read_u8_at by exact E. cbn [rbind]. cbn.
  eapply (read_u32_at (pre ++ [LIST])); [by rewrite <- app_assoc| |by rewrite blen_app].
  eapply count_lt with (k := 4); [exact E| |lia].
  rewrite (blen_concat_map (to_be 4) 4); [|intros; apply blen_to_be].
  by rewrite (blen_Forall2 _ _ _ Hf).
Qed.

Lemma items_repr off l (f : Z → res Value) n i :
  repr blob off (List l) → (∀ c v, v ∈ l → repr blob c v → f c = Ok v) →
  (i + n)%nat = length l →
  items_from blob off f (Z.of_nat i) n = Ok (drop i l).
Proof using Hblob.
  intros Hr Hf; revert i; induction n as [|n IH]; intros i Hl; cbn [items_from].
  - by rewrite drop_ge by lia.
  - destruct (lookup_lt_is_Some_2 l i) as [v Hv]; [lia|].
    pose proof (at_repr off (List l) (Z.of_nat i) ltac:(lia) Hr) as Ha. cbn [at_] in Ha.
    rewrite Nat2Z.id, Hv in Ha. destruct Ha as (c & -> & Hc). cbn [rbind ok_or].
    rewrite (Hf c v); [|by eapply list_elem_of_lookup_2|done]. cbn [rbind].
    replace (Z.of_nat i + 1) with (Z.of_nat (S i)) by lia. rewrite IH by lia. cbn [rbind].
    by rewrite (drop_S _ _ _ Hv).
Qed.

Lemma map_entries_repr (f : Z → res Value) es m :
  Forall2 (λ e kv, e.1 = kv.1 ∧ repr blob e.2 kv.2) es m →
  (∀ c kv, kv ∈ m → repr blob c kv.2 → f c = Ok kv.2) →
  map_entries f es = Ok m.
Proof using Type.
  unfold map_entries. induction 1 as [|e kv es m [He Hr] _ IH]; intros Hf; cbn [mapM_res]; [done|].
  rewrite (Hf _ kv); [|left|done]. cbn [rbind]. rewrite IH; [|intros; apply Hf; [by right|done]].
  cbn [rbind]. rewrite He. by destruct kv.
Qed.

Lemma to_value_repr v : ∀ fuel off,
  (depth v ≤ fuel)%nat → value_ok v → repr blob off v → node_to_value fuel blob off = Ok v.
Proof using All.
  induction v as [s|l IH|m IH] using Value_ind; intros [|fuel] off Hd Hok Hr;
    try (simpl in Hd; lia); cbn [node_to_value];
    rewrite (kind_at_repr _ _ Hr); cbn [rbind node_kind].
  - by rewrite (node_scalar_repr off s Hok Hr).
  - rewrite (node_len_repr _ _ Hr). cbn [rbind]. apply value_ok_list in Hok.
    rewrite (items_repr off l _ (Z.to_nat (blen l)) 0 Hr); [done| |unfold blen; lia].
    intros c v Hin Hc. rewrite Forall_forall in IH. rewrite Forall_forall in Hok.
    apply IH; auto. pose proof (depth_list _ _ Hin). lia.
  - destruct (node_entries_repr _ _ Hok Hr) as (es & -> & Hf). cbn [rbind].
    apply value_ok_node in Hok as [Hs Hok]. rewrite (map_entries_repr _ es m Hf).
    + cbn [rbind]. by rewrite bt_collect_sorted.
    + intros c kv Hin Hc. rewrite Forall_forall in IH. rewrite Forall_forall in Hok.
      apply IH; auto; [|by apply Hok]. pose proof (depth_node _ _ Hin). lia.
Qed.
End reading.

(** ** Same-width overwrites

    Replacing a leaf by a scalar of the same encoded width changes the emitted
    bytes only inside that leaf, and navigation finds the leaf at exactly that
    position. *)

Lemma as_u32_ok z : u32_ok (as_u32 z).
Proof. unfold u32_ok, unsigned_ok, as_u32. apply Z.mod_pos_bound. lia. Qed.

Lemma push_value_off_ok v buf : u32_ok (push_value v buf).2.
Proof.
  destruct v as [s|l|m].
  - apply as_u32_ok.
  - rewrite push_value_list. destruct (push_items l buf). apply as_u32_ok.
  - rewrite push_value_node. destruct (push_entries m buf) as [b es]. rewrite push_object_eq. apply as_u32_ok.
Qed.

Lemma push_items_emits l n :
  ∃ e os, length os = length l ∧ Forall u32_ok os ∧
    ∀ buf, blen buf = n → push_items l buf = (buf ++ e, os).
Proof.
  revert n; induction l as [|x l IH]; intros n.
  - exists [], []. split_and!; [done..|]. intros. cbn. by rewrite app_nil_r.
  - destruct (push_value_emits x n) as (e1 & o & H1).
    destruct (IH (n + blen e1)) as (e2 & os & Hl & Hu & H2).
    assert (0 ≤ n ∨ n < 0) as [Hn|Hn] by lia; last first.
    { exists [], (replicate (S (length l)) 0). rewrite length_replicate. split_and!; [done|..].
      - apply Forall_replicate. done.
      - intros buf Hb. pose proof (blen_nonneg buf). lia. }
    assert (u32_ok o) as Ho.
    { pose proof (push_value_off_ok x (replicate (Z.to_nat n) 0)) as Ho.
      rewrite H1 in Ho; [done|]. unfold blen. rewrite length_replicate. lia. }
    exists (e1 ++ e2), (o :: os). split_and!; [cbn; by rewrite Hl|by constructor|].
    intros buf Hb. cbn [push_items]. rewrite H1 by done.
    rewrite H2 by (rewrite blen_app; lia). by rewrite app_assoc.
Qed.

Lemma push_entries_items m buf :
  push_entries m buf =
    let '(b, os) := push_items (m.*2) buf in (b, zip (m.*1) os).
Proof.
  revert buf; induction m as [|kv m IH]; intros buf; [done|]. cbn [push_entries fmap list_fmap push_items].
  destruct (push_value kv.2 buf) as [b o]. rewrite IH.
  destruct (push_items (m.*2) b) as [b' os]. done.
Qed.

Lemma push_items_app l1 l2 buf :
  push_items (l1 ++ l2) buf =
    let '(b, os1) := push_items l1 buf in
    let '(b, os2) := push_items l2 b in (b, os1 ++ os2).
Proof.
  revert buf; induction l1 as [|x l1 IH]; intros buf; cbn [app push_items].
  - by destruct (push_items l2 buf).
  - destruct (push_value x buf) as [b o]. rewrite IH.
    destruct (push_items l1 b) as [b1 os1]. destruct (push_items l2 b1). done.
Qed.


Section hole.
Context (s0 : Scalar).

Definition same_width (s : Scalar) : Prop := blen (Scalar_encode s []) = blen (Scalar_encode s0 []).

(** Emitting [f s] at position [n]: [a], the leaf, [b], whatever the scalar. *)
Definition hole (f : Scalar → Value) (n : Z) (a b : bytes) (o : Z) : Prop :=
  ∀ s buf, same_width s → blen buf = n →
    push_value (f s) buf = (buf ++ (a ++ [LEAF] ++ Scalar_encode s [] ++ b), o).

Definition lands (p : VPath) (n : Z) (a b : bytes) (o : Z) : Prop :=
  ∀ buf more, blen buf = n →
    let blob := buf ++ (a ++ [LEAF] ++ Scalar_encode s0 [] ++ b) ++ more in
    blen blob < 2 ^ 32 → navigate blob o p = Ok (Some (n + blen a)).

Lemma hole_off_ok f n a b o : 0 ≤ n → hole f n a b o → u32_ok o.
Proof.
  intros Hn Hh. pose proof (push_value_off_ok (f s0) (replicate (Z.to_nat n) 0)) as Ho.
  rewrite Hh in Ho; [done|done|]. unfold blen. rewrite length_replicate. lia.
Qed.

Lemma items_hole f l1 l2 n (P : Z → bytes → bytes → Z → Prop) :
  0 ≤ n → (∀ k, 0 ≤ k → ∃ a b o, hole f k a b o ∧ P k a b o) →
  ∃ e1 e2 os1 os2 a b o,
    P (n + blen e1) a b o ∧ length os1 = length l1 ∧ length os2 = length l2 ∧
    Forall u32_ok (os1 ++ o :: os2) ∧
    ∀ s buf, same_width s → blen buf = n →
      push_items (l1 ++ f s :: l2) buf =
        (buf ++ ((e1 ++ a) ++ [LEAF] ++ Scalar_encode s [] ++ (b ++ e2)), os1 ++ o :: os2).
Proof.
  intros Hn Hf. destruct (push_items_emits l1 n) as (e1 & os1 & Hl1 & Hu1 & H1).
  pose proof (blen_nonneg e1). destruct (Hf (n + blen e1)) as (a & b & o & Hh & HP); [lia|].
  destruct (push_items_emits l2 (n + blen e1 + blen (a ++ [LEAF] ++ Scalar_encode s0 [] ++ b)))
    as (e2 & os2 & Hl2 & Hu2 & H2).
  exists e1, e2, os1, os2, a, b, o. split_and!; [done..| |].
  { apply Forall_app. split; [done|]. constructor; [|done]. eapply hole_off_ok; [|exact Hh]. lia. }
  intros s buf Hw Hb. rewrite push_items_app, H1 by done. cbn [push_items].
  rewrite Hh by (rewrite ?blen_app; done || lia).
  rewrite H2; [by rewrite <- !app_assoc|].
  rewrite !blen_app in *. rewrite Hw, Hb. lia.
Qed.

Lemma records_of_lookup start es i r :
  records_of start es !! i = Some r → ∃ e, es !! i = Some e ∧ r.2 = e.2.
Proof.
  revert start i; induction es as [|[n c] es IH]; intros start [|i] Hr; try done; cbn in *.
  - simplify_eq. eauto.
  - by apply IH in Hr.
Qed.

Lemma push_object_hole P Q k es n :
  (∀ s buf, same_width s → blen buf = n →
     P s buf = (buf ++ (k ++ [LEAF] ++ Scalar_encode s [] ++ Q), es)) →
  ∃ T o, let N := n + blen (k ++ [LEAF] ++ Scalar_encode s0 [] ++ Q) in
    T = names_bytes es ++ [NODE] ++ to_be 4 (as_u32 (blen es))
          ++ concat (map rec_bytes (records_of N es)) ∧
    o = as_u32 (N + blen (names_bytes es)) ∧
    ∀ s buf, same_width s → blen buf = n →
      (let '(b, es) := P s buf in push_object b es) =
        (buf ++ (k ++ [LEAF] ++ Scalar_encode s [] ++ (Q ++ T)), o).
Proof.
  intros HP. eexists _, _. split_and!; [done..|]. intros s buf Hw Hb.
  rewrite HP, push_object_eq by done. rewrite <- !app_assoc.
  assert (blen (buf ++ k ++ [LEAF] ++ Scalar_encode s [] ++ Q) =
          n + blen (k ++ [LEAF] ++ Scalar_encode s0 [] ++ Q)) as ->.
  { rewrite !blen_app, Hw, Hb. lia. }
  f_equal. unfold offset. f_equal. rewrite !blen_app, Hw, Hb. lia.
Qed.

Lemma bt_insert_middle (m1 m2 : list (bytes * Value)) k c x :
  bt_sorted (m1 ++ (k, c) :: m2) →
  bt_insert (m1 ++ (k, c) :: m2) k x = m1 ++ (k, x) :: m2.
Proof.
  intros Hs. induction m1 as [|[j y] m1 IH]; cbn [app bt_insert].
  - by rewrite bytes_cmp_refl.
  - change (bt_sorted ((j, y) :: (m1 ++ (k, c) :: m2))) in Hs. apply bt_sorted_cons in Hs as [Hs Hj].
    assert (blt j k) as Hlt%bytes_cmp_gt.
    { rewrite fmap_app in Hj. apply Forall_app in Hj as [_ Hj]. by inversion Hj. }
    rewrite Hlt. by rewrite IH.
Qed.

Lemma sorted_index (m1 m2 : list (bytes * Value)) k c i x :
  bt_sorted (m1 ++ (k, c) :: m2) → (m1 ++ (k, c) :: m2) !! i = Some (k, x) → i = length m1.
Proof.
  intros Hs Hi. set (m := m1 ++ _) in *.
  assert (m !! length m1 = Some (k, c)) as Hj by (apply list_lookup_middle; done).
  assert (m.*1 !! i = Some k) as Hi' by by rewrite list_lookup_fmap, Hi.
  assert (m.*1 !! length m1 = Some k) as Hj' by by rewrite list_lookup_fmap, Hj.
  destruct (Nat.lt_trichotomy i (length m1)) as [Hlt|[->|Hlt]]; [|done|]; exfalso;
    apply (blt_irreflexive k).
  - exact (sorted_lookup_lt _ Hs _ _ _ _ Hi' Hj' Hlt).
  - exact (sorted_lookup_lt _ Hs _ _ _ _ Hj' Hi' Hlt).
Qed.

(** The records of an emitted entry table, against the entries' names. *)
Lemma object_table_ok (m : list (bytes * Value)) os base post :
  length os = length m → Forall u32_ok os →
  let es := zip (m.*1) os in
  let blob := base ++ names_bytes es ++ [NODE] ++ to_be 4 (as_u32 (blen es))
                ++ concat (map rec_bytes (records_of (blen base) es)) ++ post in
  blen blob < 2 ^ 32 →
  blen es = blen m ∧ u32_ok (blen m) ∧ 0 ≤ blen (base ++ names_bytes es) < 2 ^ 32 ∧
  Forall (λ r, u32_ok r.1.1 ∧ u32_ok r.1.2 ∧ u32_ok r.2) (records_of (blen base) es) ∧
  Forall2 (λ r kv, r.1.2 = blen kv.1 ∧
             ∃ p q, blob = p ++ kv.1 ++ q ∧ r.1.1 = blen p) (records_of (blen base) es) m.
Proof.
  intros Hl Hu es blob Hb.
  assert (length es = length m) as Hle by (unfold es; rewrite length_zip, length_fmap; lia).
  pose proof (records_of_spec base es _ Hb) as Hrec. fold blob in Hrec.
  assert (Forall2 (λ (e : bytes * Z) (kv : bytes * Value), e.1 = kv.1) es m) as Hes.
  { apply Forall2_same_length_lookup_2; [done|]. intros i [e1 e2] kv He Hkv. unfold es in He.
    apply lookup_zip_Some in He as [He _]. rewrite list_lookup_fmap, Hkv in He. by inversion He. }
  split_and!; [unfold blen; by rewrite Hle|..].
  - pose proof (blen_Forall2 _ _ _ Hrec) as Hr. unfold blob in Hb. rewrite !blen_app in Hb.
    rewrite (blen_concat_map rec_bytes 12) in Hb by apply blen_rec_bytes.
    pose proof (blen_nonneg base). pose proof (blen_nonneg (names_bytes es)). pose proof (blen_nonneg post).
    pose proof (blen_nonneg [NODE]). pose proof (blen_nonneg (to_be 4 (as_u32 (blen es)))).
    pose proof (blen_nonneg m). unfold u32_ok, unsigned_ok, blen in *. lia.
  - apply blen_nonneg.
  - unfold blob in Hb. rewrite app_assoc, blen_app in Hb. pose proof (blen_nonneg (base ++ names_bytes es)).
    match type of Hb with _ + blen ?x < _ => pose proof (blen_nonneg x) end. lia.
  - apply Forall_forall. intros r Hr. apply list_elem_of_lookup in Hr as [i Hr].
    destruct (Forall2_lookup_l _ _ _ _ _ Hrec Hr) as ([e1 e2] & He & _ & -> & ? & ?).
    split_and!; [done..|]. unfold es in He. apply lookup_zip_Some in He as [_ He].
    by eapply Forall_lookup_1 in Hu.
  - eapply Forall2_trans; [|exact Hrec|exact Hes]. simpl. intros r e kv (? & _) <-. done.
Qed.

Definition filler (v : Value) (p : VPath) (s : Scalar) : Value := (set_in v p (Leaf s)).1.

Lemma node_step m k c p n :
  value_ok (Node m) → bt_get m k = Some c → 0 ≤ n →
  (∀ j, 0 ≤ j → ∃ a b o, hole (filler c p) j a b o ∧ lands p j a b o) →
  ∃ a b o, hole (filler (Node m) (Name k :: p)) n a b o ∧ lands (Name k :: p) n a b o.
Proof.
  intros [Hs _]%value_ok_node Hg Hn IH.
  pose proof Hg as Hin. apply bt_elem_get in Hin; [|done].
  apply list_elem_of_split in Hin as (m1 & m2 & Em).
  destruct (items_hole (filler c p) (m1.*2) (m2.*2) n (lands p) Hn IH)
    as (e1 & e2 & os1 & os2 & a & b & o & Hland & Hl1 & Hl2 & Hu & Hit).
  rewrite !length_fmap in *. set (os := os1 ++ o :: os2) in *. set (es := zip (m.*1) os).
  destruct (push_object_hole (λ s buf, push_entries (m1 ++ (k, filler c p s) :: m2) buf)
              (b ++ e2) (e1 ++ a) es n) as (T & o' & HT & Ho' & HP).
  { intros s buf Hw Hb. rewrite push_entries_items.
    assert ((m1 ++ (k, filler c p s) :: m2).*2 = m1.*2 ++ filler c p s :: m2.*2) as ->
      by by rewrite fmap_app.
    rewrite Hit by done. unfold es. by rewrite Em, !fmap_app. }
  exists (e1 ++ a), ((b ++ e2) ++ T), o'. split.
  - intros s buf Hw Hb. rewrite <- (HP s buf Hw Hb). unfold filler at 1. cbn [set_in].
    rewrite Hg. unfold filler. destruct (set_in c p (Leaf s)) as [c' ok]. cbn [fst].
    subst m. rewrite bt_insert_middle by done. by rewrite push_value_node.
  - intros buf more Hb blob Hblob. cbn [navigate].
    set (X := (e1 ++ a) ++ [LEAF] ++ Scalar_encode s0 [] ++ b ++ e2) in *.
    assert (length os = length m) as Hlos.
    { unfold os. rewrite Em, !length_app. cbn. lia. }
    assert (blob = (buf ++ X) ++ names_bytes es ++ [NODE] ++ to_be 4 (as_u32 (blen es))
                ++ concat (map rec_bytes (records_of (blen (buf ++ X)) es)) ++ more) as E1.
    { unfold blob. rewrite HT. rewrite blen_app, Hb. unfold X. rewrite <- !app_assoc. done. }
    pose proof (object_table_ok m os (buf ++ X) more Hlos Hu) as Hobj. cbn zeta in Hobj.
    fold es in Hobj. rewrite <- E1 in Hobj.
    destruct (Hobj Hblob) as (Hle & Hcm & Hpre & Hr & Hr2).
    assert (o' = blen ((buf ++ X) ++ names_bytes es)) as ->.
    { rewrite Ho', as_u32_small; rewrite !blen_app, Hb in *; unfold X in *; lia. }
    destruct (node_get_table blob Hblob ((buf ++ X) ++ names_bytes es) more
                (records_of (blen (buf ++ X)) es) m k) as [(i & c' & r & Hi & Hri & ->)|[Hnot _]];
      [| done | done | done | | ].
    + rewrite E1 at 1. rewrite Hle, as_u32_small by (unfold u32_ok, unsigned_ok in Hcm; lia).
      by rewrite <- !app_assoc.
    + rewrite Em in Hi, Hs. pose proof (sorted_index _ _ _ _ _ _ Hs Hi) as ->.
      apply records_of_lookup in Hri as ([n' o2] & He & ->). unfold es in He.
      apply lookup_zip_Some in He as [_ He]. unfold os in He.
      rewrite <- Hl1, list_lookup_middle in He by done. injection He as <-. cbn [snd rbind].
      assert (blob = (buf ++ e1) ++ (a ++ [LEAF] ++ Scalar_encode s0 [] ++ b) ++ (e2 ++ T ++ more)) as E2.
      { unfold blob, X. by rewrite <- !app_assoc. }
      rewrite E2 in *. rewrite Hland; [|rewrite blen_app; lia|done]. rewrite blen_app. do 2 f_equal. lia.
    + apply bt_get_None in Hnot; [congruence|done].
Qed.

Lemma list_step l i c p n :
  l !! Z.to_nat i = Some c → 0 ≤ i → 0 ≤ n →
  (∀ j, 0 ≤ j → ∃ a b o, hole (filler c p) j a b o ∧ lands p j a b o) →
  ∃ a b o, hole (filler (List l) (Index i :: p)) n a b o ∧ lands (Index i :: p) n a b o.
Proof.
  intros Hg Hi Hn IH.
  pose proof (take_drop_middle l _ _ Hg) as El.
  set (l1 := take (Z.to_nat i) l) in *. set (l2 := drop (S (Z.to_nat i)) l) in *.
  assert (length l1 = Z.to_nat i) as Hll1.
  { unfold l1. rewrite length_take. apply lookup_lt_Some in Hg. lia. }
  destruct (items_hole (filler c p) l1 l2 n (lands p) Hn IH)
    as (e1 & e2 & os1 & os2 & a & b & o & Hland & Hl1 & Hl2 & Hu & Hit).
  set (os := os1 ++ o :: os2) in *.
  assert (length os = length l) as Hlos.
  { unfold os. rewrite <- El, !length_app. cbn. lia. }
  set (T := [LIST] ++ to_be 4 (as_u32 (blen os)) ++ concat (map (to_be 4) os)).
  set (X s := (e1 ++ a) ++ [LEAF] ++ Scalar_encode s [] ++ b ++ e2) in *.
  exists (e1 ++ a), ((b ++ e2) ++ T), (as_u32 (n + blen (X s0))). split.
  - intros s buf Hw Hb. unfold filler at 1. cbn [set_in].
    rewrite Hg. unfold filler in Hit. specialize (Hit s buf Hw Hb).
    destruct (set_in c p (Leaf s)) as [c' ok]. cbn [fst] in *.
    rewrite <- El, <- Hll1, insert_app_r_alt, Nat.sub_diag by lia. cbn [insert list_insert].
    rewrite push_value_list, Hit, push_list_eq. fold (X s). unfold offset. f_equal.
    + unfold X, T. by rewrite <- !app_assoc.
    + f_equal. unfold X. rewrite !blen_app, Hw, Hb. lia.
  - intros buf more Hb blob Hblob. cbn [navigate].
    assert (blob = (buf ++ X s0) ++ [LIST] ++ to_be 4 (as_u32 (blen os)) ++ concat (map (to_be 4) os) ++ more) as E1.
    { unfold blob, X, T. rewrite <- !app_assoc. done. }
    assert (blen (buf ++ X s0) + 4 * blen os < 2 ^ 32 ∧ 0 ≤ blen os ∧ 0 ≤ blen (buf ++ X s0)) as (Hbd & ? & ?).
    { split; [|split; apply blen_nonneg]. rewrite E1, !blen_app in Hblob.
      rewrite (blen_concat_map (to_be 4) 4) in Hblob by (intros; apply blen_to_be).
      rewrite blen_app. pose proof (blen_nonneg [LIST]). pose proof (blen_nonneg more).
      pose proof (blen_nonneg (to_be 4 (as_u32 (blen os)))). lia. }
    rewrite as_u32_small by (rewrite blen_app, Hb in *; lia).
    replace (n + blen (X s0)) with (blen (buf ++ X s0)) by (rewrite blen_app; lia).
    rewrite (node_at_table blob Hblob (buf ++ X s0) more os l i); [|..|done]; [|..|exact Hlos]; [| |exact Hu]; last first.
    { rewrite E1 at 1. rewrite as_u32_small by lia. by replace (blen os) with (blen l) by (unfold blen; lia). }
    rewrite <- Hll1, <- Hl1. unfold os. rewrite list_lookup_middle by done. cbn [rbind].
    assert (blob = (buf ++ e1) ++ (a ++ [LEAF] ++ Scalar_encode s0 [] ++ b) ++ (e2 ++ T ++ more)) as E2.
    { unfold blob. by rewrite <- !app_assoc. }
    rewrite E2 in *. rewrite Hland; [|rewrite blen_app; lia|done]. rewrite blen_app. do 2 f_equal. lia.
Qed.

Lemma push_patch p : ∀ v n,
  value_ok v → vpath_str_ok p → subtree v p = Some (Leaf s0) → 0 ≤ n →
  ∃ a b o, hole (filler v p) n a b o ∧ lands p n a b o.
Proof.
  induction p as [|[k|i] p IH]; intros v n Hok Hp Hv Hn; cbn [subtree] in Hv.
  - simplify_eq. exists [], [], (as_u32 n). split.
    + intros s buf Hw Hb. cbn. unfold push_leaf. rewrite Scalar_encode_app. unfold push, offset.
      rewrite Hb, app_nil_r. by rewrite <- app_assoc.
    + intros buf more Hb blob Hblob. cbn [navigate]. rewrite blen_nil, Z.add_0_r, as_u32_small; [done|].
      unfold blob in Hblob. rewrite blen_app in Hblob.
      match type of Hblob with _ + blen ?x < _ => pose proof (blen_nonneg x) end. lia.
  - inversion Hp; subst. destruct v as [| |m]; cbn [get] in Hv; try done.
    destruct (bt_get m k) as [c|] eqn:Hg; [|done]. eapply node_step; [done..|].
    intros j Hj. apply IH; [|done..]. by eapply (get_value_ok (Node m) k).
  - inversion Hp; subst. destruct v as [|l|]; cbn [at_] in Hv; try done.
    destruct (l !! Z.to_nat i) as [c|] eqn:Hg; [|done]. eapply list_step; [done..|].
    intros j Hj. apply IH; [|done..]. by eapply (at_value_ok (List l) i).
Qed.
End hole.

Lemma set_in_same v p x : value_ok v → subtree v p = Some x → set_in v p x = (v, true).
Proof.
  revert v; induction p as [|[n|i] p IH]; intros v Hok Hv; cbn [subtree set_in] in *; [by simplify_eq|..].
  - destruct v as [| |m]; cbn [get] in Hv; try done. destruct (bt_get m n) as [c|] eqn:Hg; [|done].
    rewrite IH; [|by eapply (get_value_ok (Node m) n)|done].
    apply value_ok_node in Hok as [Hs _]. by rewrite bt_insert_present.
  - destruct v as [|l|]; cbn [at_] in Hv; try done. destruct (l !! Z.to_nat i) as [c|] eqn:Hg; [|done].
    rewrite IH; [|by eapply (at_value_ok (List l) i)|done]. by rewrite list_insert_id.
Qed.

Lemma patch_root_eq body root :
  patch_root (begin_blob ++ body) root = [FORMAT_VERSION] ++ to_be 4 root ++ body.
Proof. done. Qed.

Lemma archived_new_encoded root body :
  blen ([FORMAT_VERSION] ++ to_be 4 root ++ body) < 2 ^ 32 → u32_ok root →
  archived_new ([FORMAT_VERSION] ++ to_be 4 root ++ body) = Ok root.
Proof.
  intros Hb Hr. unfold archived_new. cbn [app head ok_or rbind]. rewrite Z.eqb_refl. cbn [negb].
  apply (read_u32_app [FORMAT_VERSION]); [|done..]. unfold USIZE_MAX. cbn [app] in *. lia.
Qed.

(** The header of an encoded value leads to a vnode that stands for it. *)
Lemma encode_new v :
  blen (encode v) < 2 ^ 32 →
  ∃ root, archived_new (encode v) = Ok root ∧ repr (encode v) root v.
Proof.
  intros Hb. destruct (encode_repr v Hb) as (root & body & E & Hu & Hr).
  exists root. split; [|done]. rewrite E in *. by apply archived_new_encoded.
Qed.

Lemma encode_patch `{!ExtLaws} v p s0 s :
  value_ok v → vpath_str_ok p → subtree v p = Some (Leaf s0) → scalar_ok s0 → same_width s0 s →
  blen (encode v) < 2 ^ 32 →
  ∃ A B, encode v = A ++ Scalar_encode s0 [] ++ B ∧
         encode (set_in v p (Leaf s)).1 = A ++ Scalar_encode s [] ++ B ∧
         archived_leaf_scalar_span (encode v) p = Ok (Some (blen A, blen (Scalar_encode s0 []))).
Proof.
  intros Hok Hp Hv Hs Hw Hb.
  destruct (push_patch s0 p v 5 Hok Hp Hv) as (a & b & o & Hh & Hl); [lia|].
  assert (u32_ok o) as Ho by (eapply hole_off_ok; [|exact Hh]; lia).
  assert (∀ t, same_width s0 t →
    encode (filler v p t) = [FORMAT_VERSION] ++ to_be 4 o ++ (a ++ [LEAF] ++ Scalar_encode t [] ++ b)) as He.
  { intros t Ht. unfold encode. rewrite (Hh t begin_blob Ht) by done. apply patch_root_eq. }
  assert (filler v p s0 = v) as Ev by (unfold filler; by rewrite set_in_same).
  pose proof (He s0 eq_refl) as E0. rewrite Ev in E0.
  exists (([FORMAT_VERSION] ++ to_be 4 o ++ a) ++ [LEAF]), b. split_and!.
  - rewrite E0, <- !app_assoc. done.
  - change (set_in v p (Leaf s)).1 with (filler v p s). rewrite He, <- !app_assoc by done. done.
  - specialize (Hl ([FORMAT_VERSION] ++ to_be 4 o) []).
    rewrite app_nil_r, <- app_assoc, <- E0 in Hl. specialize (Hl eq_refl Hb).
    unfold archived_leaf_scalar_span. rewrite E0 in Hb. pose proof (archived_new_encoded _ _ Hb Ho) as Hnew.
    rewrite <- E0 in Hnew, Hb. rewrite Hnew. cbn [rbind]. rewrite Hl. cbn [rbind].
    rewrite (node_span_repr (encode v) Hb _ s0 Hs).
    + f_equal. f_equal. f_equal. rewrite !blen_app, blen_to_be. unfold blen. cbn. lia.
    + assert (5 + blen a = blen ([FORMAT_VERSION] ++ to_be 4 o ++ a)) as ->
        by (rewrite !blen_app, blen_to_be, blen_cons, blen_nil; lia).
      apply repr_leaf with (post := b). rewrite E0, <- !app_assoc. done.
Qed.

(** ** Navigating arbitrary bytes *)

Lemma node_get_safe blob off n : bytes_ok blob → 0 ≤ off → safe (node_get blob off n).
Proof.
  intros Hb Ho. unfold node_get. apply safe_rbind; [auto with arbor|]. intros t _.
  destruct (negb _); [done|]. apply safe_rbind; [auto with arbor|]. intros count Hc.
  apply read_u32_bound in Hc; [|done|lia].
  apply safe_rbind; [apply bsearch_safe; [lia|unfold unsigned_ok in Hc; change (2 ^ Z.of_nat bsearch_fuel) with (2 ^ 32); lia|]|].
  - intros. apply safe_rbind; [|done]. unfold entry_name_bytes.
    repeat (apply safe_rbind; [auto with arbor|]; intros). auto with arbor.
  - intros [mid|] _; [|done]. apply safe_rbind; [auto with arbor|done].
Qed.

Lemma node_at_safe blob off i : 0 ≤ off → safe (node_at blob off i).
Proof.
  intros Ho. unfold node_at. repeat (apply safe_rbind; [auto with arbor|]; intros; try case_match); done.
Qed.

Lemma read_u32_nonneg blob off v : bytes_ok blob → 0 ≤ off → read_u32 blob off = Ok v → 0 ≤ v.
Proof. intros ?? Hr. apply read_u32_bound in Hr; [|done..]. by destruct Hr. Qed.

Lemma bsearch_in fuel probe lo hi mid :
  bsearch fuel probe lo hi = Ok (Some mid) → lo ≤ mid < hi.
Proof.
  revert lo hi; induction fuel as [|fuel IH]; intros lo hi; cbn [bsearch];
    destruct (Z.ltb_spec lo hi); try done.
  pose proof (Z.div_mod (hi - lo) 2 ltac:(lia)).
  pose proof (Z.mod_pos_bound (hi - lo) 2 ltac:(lia)).
  intros (c & _ & Hc)%rbind_Ok. destruct c; [simplify_eq; lia|apply IH in Hc; lia..].
Qed.

Lemma node_get_off blob off n c : bytes_ok blob → 0 ≤ off → node_get blob off n = Ok (Some c) → 0 ≤ c.
Proof.
  intros Hb Ho. unfold node_get. intros (t & _ & Hg)%rbind_Ok. destruct (negb _); [done|].
  apply rbind_Ok in Hg as (count & _ & Hg). apply rbind_Ok in Hg as ([mid|] & Hm & Hg); [|done].
  apply bsearch_in in Hm. apply rbind_Ok in Hg as (c' & Hc & [= <-]).
  eapply read_u32_nonneg; [done| |exact Hc]. lia.
Qed.

Lemma node_at_off blob off i c :
  bytes_ok blob → 0 ≤ off → 0 ≤ i → node_at blob off i = Ok (Some c) → 0 ≤ c.
Proof.
  intros Hb Ho Hi. unfold node_at. intros (t & _ & Hg)%rbind_Ok. destruct (negb _); [done|].
  apply rbind_Ok in Hg as (count & _ & Hg). destruct (_ <=? _); [done|].
  apply rbind_Ok in Hg as (c' & Hc & [= <-]). eapply read_u32_nonneg; [done| |exact Hc]. lia.
Qed.

Lemma navigate_safe blob p : ∀ off,
  bytes_ok blob → 0 ≤ off → vpath_str_ok p → safe (navigate blob off p).
Proof.
  induction p as [|[n|i] p IH]; intros off Hb Ho Hp; cbn [navigate]; [done|..]; inversion Hp; subst.
  - apply safe_rbind; [by apply node_get_safe|]. intros [c|] Hc; [|done].
    apply IH; [done| |done]. by eapply node_get_off.
  - apply safe_rbind; [by apply node_at_safe|]. intros [c|] Hc; [|done].
    apply IH; [done| |done]. by apply (node_at_off _ _ i _ Hb Ho).
Qed.

Lemma archived_new_safe blob : bytes_ok blob → safe (archived_new blob) ∧ ∀ r, archived_new blob = Ok r → 0 ≤ r.
Proof.
  intros Hb. unfold archived_new. destruct (head blob); cbn; [|done].
  destruct (negb _); [done|]. split; [apply read_u32_safe|]. intros r Hr.
  eapply read_u32_nonneg; [exact Hb| |exact Hr]. lia.
Qed.
End archived.
