(* ===== verification/Access.v ===== *)
(** * Value cursors

    [access/reader.rs], [access/writer.rs] (the [Reader] and [Writer] traits),
    [access/archived.rs] ([ArchivedReader], zero-copy over a stored entry) and
    [access/mem.rs] ([MemWriter], over an owned [Value]).

    The typed layer is written against the traits, so what it needs is that the
    two readers agree: [reader_agrees] states it for one pair of cursors, and the
    theorems discharge it for a stored blob against the value it encodes. *)
From S2P Require Import Prelude BTree Codec Ext Scalar Path Value Archived.

Section access.
Context `{Ext}.

(** The [Reader] trait. *)
Class Reader_trait (R : Type) := {
  scalar_at : R → VPath → res (option Scalar);
  kind_at : R → VPath → res (option NodeKind);
  len_at : R → VPath → res Z;
  keys_at : R → VPath → res (list bytes);
  exists_at : R → VPath → res bool;
}.

(** ** [ArchivedReader] *)

Record ArchivedReader := mkArchivedReader { ar_entry : bytes; ar_offset : Z; ar_root : Z }.

(** [entry.get(offset..)]. *)
Definition payload_from (entry : bytes) (offset : Z) : res bytes :=
  if offset <=? blen entry then Ok (drop (Z.to_nat offset) entry)
  else Err (Corrupt "truncated file entry").

Definition ArchivedReader_new (entry : bytes) (offset : Z) : res ArchivedReader :=
  let? payload := payload_from entry offset in
  let? root := archived_new payload in
  Ok (mkArchivedReader entry offset root).

Definition ar_navigate (r : ArchivedReader) (p : VPath) : res (bytes * option Z) :=
  let? payload := payload_from (ar_entry r) (ar_offset r) in
  let? n := navigate payload (ar_root r) p in
  Ok (payload, n).

Definition ar_scalar_at (r : ArchivedReader) (p : VPath) : res (option Scalar) :=
  let? '(payload, n) := ar_navigate r p in
  match n with Some off => node_scalar_if_leaf payload off | None => Ok None end.

Definition ar_kind_at (r : ArchivedReader) (p : VPath) : res (option NodeKind) :=
  let? '(payload, n) := ar_navigate r p in
  match n with
  | Some off => let? k := node_kind_at payload off in Ok (Some k)
  | None => Ok None
  end.

Definition ar_len_at (r : ArchivedReader) (p : VPath) : res Z :=
  let? '(payload, n) := ar_navigate r p in
  match n with Some off => node_len payload off | None => Err PathNotFound end.

Definition ar_keys_at (r : ArchivedReader) (p : VPath) : res (list bytes) :=
  let? '(payload, n) := ar_navigate r p in
  match n with Some off => node_object_keys payload off | None => Err PathNotFound end.

Definition ar_exists_at (r : ArchivedReader) (p : VPath) : res bool :=
  let? '(_, n) := ar_navigate r p in Ok (bool_decide (is_Some n)).

#[export] Instance ArchivedReader_reader : Reader_trait ArchivedReader := {|
  scalar_at := ar_scalar_at; kind_at := ar_kind_at; len_at := ar_len_at;
  keys_at := ar_keys_at; exists_at := ar_exists_at |}.

(** ** [MemWriter] *)

Definition mem_scalar_at (v : Value) (p : VPath) : res (option Scalar) :=
  Ok (match subtree v p with Some n => leaf n | None => None end).

Definition mem_kind_at (v : Value) (p : VPath) : res (option NodeKind) :=
  Ok (node_kind <$> subtree v p).

Definition mem_len_at (v : Value) (p : VPath) : res Z :=
  match subtree v p with
  | Some (List l) => Ok (blen l)
  | Some _ => Err (CannotAccess "'{at}' is not a list")
  | None => Err PathNotFound
  end.

Definition mem_keys_at (v : Value) (p : VPath) : res (list bytes) :=
  match subtree v p with
  | Some (Node m) => Ok (m.*1)
  | Some _ => Err (CannotAccess "'{at}' is not an object")
  | None => Err PathNotFound
  end.

Definition mem_exists_at (v : Value) (p : VPath) : res bool :=
  Ok (bool_decide (is_Some (subtree v p))).

#[export] Instance MemWriter_reader : Reader_trait Value := {|
  scalar_at := mem_scalar_at; kind_at := mem_kind_at; len_at := mem_len_at;
  keys_at := mem_keys_at; exists_at := mem_exists_at |}.

Definition mem_new : Value := Node [].

(** [put_scalar] drops [set_value]'s answer. *)
Definition mem_put_scalar (v : Value) (p : VPath) (s : Scalar) : Value := (set_in v p (Leaf s)).1.

Definition ensure_container_in (v : Value) (p : VPath) (is_list : bool) : Value :=
  let matches :=
    match subtree v p with
    | Some (List _) => is_list
    | Some (Node _) => negb is_list
    | _ => false
    end in
  if matches then v else (set_in v p (if is_list then List [] else Node [])).1.

Definition mem_ensure_container := ensure_container_in.

Definition mem_remove (v : Value) (p : VPath) : Value * bool := remove_in v p.

(** ** Agreement *)

(** Equal on success; both failing otherwise (the error values differ). *)
Definition agree {A} (x y : res A) : Prop := is_ok x = is_ok y ∧ (is_ok x = true → x = y).

Lemma agree_refl {A} (x : res A) : agree x x.
Proof. by split. Qed.

Definition reader_agrees {R S} `{Reader_trait R, Reader_trait S} (r : R) (s : S) (p : VPath) : Prop :=
  scalar_at r p = scalar_at s p ∧ kind_at r p = kind_at s p ∧ exists_at r p = exists_at s p ∧
  agree (len_at r p) (len_at s p) ∧ agree (keys_at r p) (keys_at s p).

Context `{!ExtLaws}.

Lemma ar_navigate_encode tag v p :
  value_ok v → vpath_str_ok p → blen (encode v) < 2 ^ 32 →
  ∃ r, ArchivedReader_new (tag :: encode v) 1 = Ok r ∧
    match subtree v p with
    | Some c => ∃ off, ar_navigate r p = Ok (encode v, Some off) ∧ repr (encode v) off c
    | None => ar_navigate r p = Ok (encode v, None)
    end.
Proof.
  intros Hok Hp Hb. destruct (encode_new v Hb) as (root & Hnew & Hr).
  assert (payload_from (tag :: encode v) 1 = Ok (encode v)) as Hpay.
  { unfold payload_from. rewrite blen_cons. pose proof (blen_nonneg (encode v)).
    by destruct (Z.leb_spec 1 (1 + blen (encode v))); [|lia]. }
  exists (mkArchivedReader (tag :: encode v) 1 root). split.
  { unfold ArchivedReader_new. rewrite Hpay. cbn [rbind]. by rewrite Hnew. }
  pose proof (navigate_repr (encode v) Hb p root v Hp Hok Hr) as Hn. unfold ar_navigate. cbn [ar_entry ar_offset ar_root].
  rewrite Hpay. cbn [rbind]. destruct (subtree v p) as [c|]; simpl in Hn.
  - destruct Hn as (off & -> & Hoff). by exists off.
  - by rewrite Hn.
Qed.

Lemma subtree_value_ok v p c : value_ok v → subtree v p = Some c → value_ok c.
Proof.
  revert v; induction p as [|[n|i] p IH]; intros v Hv; cbn [subtree]; [by intros [= <-]|..].
  - destruct (get v n) eqn:E; [|done]. apply IH. by eapply get_value_ok.
  - destruct (at_ v i) eqn:E; [|done]. apply IH. by eapply at_value_ok.
Qed.

Lemma node_len_other blob off c :
  blen blob < 2 ^ 32 → repr blob off c → agree (node_len blob off)
    (match c with List l => Ok (blen l) | _ => Err (CannotAccess "'{at}' is not a list") end).
Proof.
  intros Hb Hr. destruct c as [s|l|m].
  - apply repr_leaf_inv in Hr as (pre & post & -> & E). unfold node_len.
    by erewrite (read_u8_at _ Hb) by exact E.
  - rewrite (node_len_repr _ Hb _ _ Hr). apply agree_refl.
  - apply repr_node_inv in Hr as (pre & post & recs & -> & E & _). unfold node_len.
    by erewrite (read_u8_at _ Hb) by exact E.
Qed.

Lemma node_keys_other blob off c :
  blen blob < 2 ^ 32 → value_ok c → repr blob off c → agree (node_object_keys blob off)
    (match c with Node m => Ok (m.*1) | _ => Err (CannotAccess "'{at}' is not an object") end).
Proof.
  intros Hb Hok Hr. destruct c as [s|l|m].
  - apply repr_leaf_inv in Hr as (pre & post & -> & E). unfold node_object_keys, node_entries.
    by erewrite (read_u8_at _ Hb) by exact E.
  - apply repr_list_inv in Hr as (pre & post & recs & -> & E & _). unfold node_object_keys, node_entries.
    by erewrite (read_u8_at _ Hb) by exact E.
  - destruct (node_entries_repr _ Hb _ _ Hok Hr) as (es & He & Hf). unfold node_object_keys.
    rewrite He. cbn [rbind]. replace (es.*1) with (m.*1); [apply agree_refl|].
    clear -Hf. induction Hf as [|e kv es m [He _]]; [done|]. cbn. by f_equal.
Qed.

Lemma archived_reader_lemma tag v p :
  value_ok v → vpath_str_ok p → blen (encode v) < 2 ^ 32 →
  ∃ r, ArchivedReader_new (tag :: encode v) 1 = Ok r ∧ reader_agrees r v p.
Proof.
  intros Hok Hp Hb. destruct (ar_navigate_encode tag v p Hok Hp Hb) as (r & Hnew & Hn).
  exists r. split; [done|]. unfold reader_agrees; cbn.
  unfold ar_scalar_at, ar_kind_at, ar_exists_at, ar_len_at, ar_keys_at,
    mem_scalar_at, mem_kind_at, mem_exists_at, mem_len_at, mem_keys_at.
  destruct (subtree v p) as [c|] eqn:Hc.
  - destruct Hn as (off & -> & Hr). cbn [rbind fmap option_fmap option_map].
    pose proof (subtree_value_ok _ _ _ Hok Hc) as Hcok. split_and!.
    + by apply scalar_if_leaf_repr.
    + by rewrite (kind_at_repr _ Hb _ _ Hr).
    + done.
    + eapply (node_len_other _ _ _ Hb Hr).
    + apply (node_keys_other _ _ _ Hb Hcok Hr).
  - rewrite Hn. cbn. split_and!; done || apply agree_refl.
Qed.


Lemma decode_encode_lemma v fuel :
  value_ok v → blen (encode v) < 2 ^ 32 → (depth v ≤ fuel)%nat →
  decode fuel (encode v) = Ok v.
Proof.
  intros Hok Hb Hf. destruct (encode_new v Hb) as (root & Hnew & Hr).
  unfold decode. rewrite Hnew. cbn [rbind]. by apply to_value_repr.
Qed.


(** C39: Navigating an arbitrary (possibly corrupted) blob never panics and always
    terminates: opening it and following any value path gives a position or a
    proper error, the binary search over a table of any recorded size included. *)
Theorem navigate_arbitrary_safe blob p :
  bytes_ok blob → vpath_str_ok p →
  safe (let? root := archived_new blob in navigate blob root p).
Proof.
  intros Hb Hp. destruct (archived_new_safe blob Hb) as [Hs Hr].
  apply safe_rbind; [done|]. intros root Hroot. apply navigate_safe; auto.
Qed.

(** [ensure_container] leaves a container of the requested kind at the path
    whenever it can place one there, keeps an existing container of that kind
    untouched, and keeps the document well formed. *)
Theorem ensure_container_spec v p is_list :
  value_ok v → vpath_str_ok p →
  let v' := mem_ensure_container v p is_list in
  value_ok v' ∧
  (node_kind <$> subtree v p = Some (if is_list then KList else KObject) → v' = v) ∧
  ((set_in v p (if is_list then List [] else Node [])).2 = true →
   node_kind <$> subtree v' p = Some (if is_list then KList else KObject)).
Proof.
  intros Hok Hp v'. unfold v', mem_ensure_container, ensure_container_in.
  assert (value_ok (if is_list then List [] else Node [])) as Hempty.
  { destruct is_list; [done|]. apply value_ok_node. split; constructor. }
  set (e := if is_list then List [] else Node []) in *.
  assert (node_kind e = if is_list then KList else KObject) as He by by destruct is_list.
  pose proof (set_in_ok v p e Hok Hp Hempty) as Hset.
  assert ((set_in v p e).2 = true → subtree (set_in v p e).1 p = Some e) as Hget.
  { destruct (set_in v p e) as [v1 ok] eqn:Es. cbn. intros ->. exact (set_in_get _ _ _ _ Hok Es). }
  destruct (subtree v p) as [[s|l|m]|] eqn:E; destruct is_list; cbn [negb];
    split_and!; try done; try (intros Hk; by inversion Hk);
    intros Hk; rewrite ?E; first [done | by rewrite (Hget Hk) | by rewrite (Hget Hk), <- He].
Qed.
End access.

(** ** Witnesses *)

Module AccessWitness.
Import ExtModel.

Definition doc : Value :=
  Node [([97], Leaf (I64 5)); ([120; 115], List [Leaf (I64 1); Leaf (Str [104; 105])])].

Lemma doc_ok : value_ok doc.
Proof. vm_compute. repeat (split || constructor). all: done. Qed.



Lemma navigate_arbitrary_safe_witness :
  safe (let? root := archived_new [1; 0; 0; 0; 5; 2; 255; 255; 255; 255; 7] in
        navigate [1; 0; 0; 0; 5; 2; 255; 255; 255; 255; 7] root [Name [97]]).
Proof. apply navigate_arbitrary_safe; repeat constructor; by vm_compute. Defined.

Lemma ensure_container_spec_witness :
  let v' := mem_ensure_container doc [Name [98]] true in
  value_ok v' ∧ (node_kind <$> subtree doc [Name [98]] = Some KList → v' = doc) ∧
  ((set_in doc [Name [98]] (List [])).2 = true → node_kind <$> subtree v' [Name [98]] = Some KList).
Proof. apply (ensure_container_spec doc [Name [98]] true); [exact doc_ok|]. repeat constructor; by vm_compute. Defined.
End AccessWitness.
