(* ===== verification/Key.v ===== *)
(** * A-node keys

    [key.rs]: an [AKey] wraps a UUID, represented here by its [u128] value.  Fresh
    keys are two consecutive draws of the split-mix64 generator whose state is
    thread local; the state is passed explicitly. *)
From S2P Require Import Prelude.

Abbreviation AKey := Z (only parsing).

(** [Uuid::nil()]. *)
Definition ROOT : AKey := 0.

Definition akey_ok (k : AKey) : Prop := unsigned_ok 128 k.

Definition wrapping_mul64 (a b : Z) : Z := as_u64 (a * b).

Definition GOLDEN : Z := 0x9E3779B97F4A7C15.

(** The seed drops the all-zero state. *)
Definition seed (uuid_v7 : Z) : Z :=
  Z.lor (Z.lxor (as_u64 uuid_v7) (as_u64 (Z.shiftr uuid_v7 64))) 1.

(** One draw: the result and the next state. *)
Definition split_mix64 (state : Z) : Z * Z :=
  let next := as_u64 (state + GOLDEN) in
  let z := next in
  let z := wrapping_mul64 (Z.lxor z (Z.shiftr z 30)) 0xBF58476D1CE4E5B9 in
  let z := wrapping_mul64 (Z.lxor z (Z.shiftr z 27)) 0x94D049BB133111EB in
  (Z.lxor z (Z.shiftr z 31), next).

Definition generate (state : Z) : AKey * Z :=
  let '(hi, state) := split_mix64 state in
  let '(lo, state) := split_mix64 state in
  (Z.lor (Z.shiftl hi 64) lo, state).

Definition into_bytes (k : AKey) : bytes := to_be 16 k.
Definition from_bytes (bs : bytes) : AKey := of_be bs.

Definition try_from_bytes (bs : bytes) : res AKey :=
  if negb (blen bs =? 16) then Err (BadKey "bytes with length different from 16")
  else Ok (from_bytes bs).

Lemma from_into_bytes k : akey_ok k → from_bytes (into_bytes k) = k.
Proof. intros Hk. apply of_be_to_be_id. exact Hk. Qed.

(** ** The finalizer is a bijection on 64-bit words *)

Definition word (z : Z) : Prop := 0 ≤ z < 2 ^ 64.

Lemma word_testbit z : word z → ∀ i, 64 ≤ i → Z.testbit z i = false.
Proof.
  intros [H0 H1] i Hi. destruct (Z.eq_dec z 0) as [->|]; [apply Z.bits_0|].
  apply Z.bits_above_log2; [done|]. assert (Z.log2 z < 64) by (apply Z.log2_lt_pow2; lia). lia.
Qed.

Lemma word_of_testbit z : 0 ≤ z → (∀ i, 64 ≤ i → Z.testbit z i = false) → word z.
Proof.
  intros H0 Hb. split; [done|]. destruct (Z.eq_dec z 0) as [->|Hz]; [by compute|].
  apply Z.log2_lt_pow2; [lia|]. destruct (Z.lt_ge_cases (Z.log2 z) 64) as [|Hge]; [done|].
  specialize (Hb _ Hge). by rewrite Z.bit_log2 in Hb by lia.
Qed.

Lemma xorshift_word z k : 0 < k → word z → word (Z.lxor z (Z.shiftr z k)).
Proof.
  intros Hk Hz. apply word_of_testbit.
  - apply Z.lxor_nonneg. rewrite Z.shiftr_nonneg. tauto.
  - intros i Hi. rewrite Z.lxor_spec, Z.shiftr_spec by lia.
    rewrite !(word_testbit z Hz) by lia. done.
Qed.

(** [z ^ (z >> k)] determines [z] from the top bit down. *)
Lemma xorshift_inj k x y :
  0 < k → word x → word y →
  Z.lxor x (Z.shiftr x k) = Z.lxor y (Z.shiftr y k) → x = y.
Proof.
  intros Hk Hx Hy E. apply Z.bits_inj'. intros i Hi.
  assert (∀ n j, Z.of_nat n = 64 - j → 0 ≤ j → Z.testbit x j = Z.testbit y j) as Hgen.
  { intros n. induction (lt_wf n) as [n _ IH]. intros j Hn Hj.
    assert (Z.testbit (Z.lxor x (Z.shiftr x k)) j = Z.testbit (Z.lxor y (Z.shiftr y k)) j) as Eb by by rewrite E.
    rewrite !Z.lxor_spec, !Z.shiftr_spec in Eb by done.
    assert (Z.testbit x (j + k) = Z.testbit y (j + k)) as Ek.
    { destruct (Z.lt_ge_cases 64 (j + k)).
      - by rewrite !word_testbit by (done || lia).
      - apply (IH (Z.to_nat (64 - (j + k)))); lia. }
    rewrite Ek in Eb. destruct (Z.testbit x j), (Z.testbit y j), (Z.testbit y (j + k)); done. }
  destruct (Z.lt_ge_cases 64 i).
  - by rewrite !word_testbit by (done || lia).
  - apply (Hgen (Z.to_nat (64 - i))); lia.
Qed.

Lemma as_u64_word z : word (as_u64 z).
Proof. apply Z.mod_pos_bound. lia. Qed.

(** An odd multiplier is invertible modulo [2^64]: [inv] is its inverse. *)
Lemma mul64_inj c inv x y :
  as_u64 (c * inv) = 1 → word x → word y →
  wrapping_mul64 x c = wrapping_mul64 y c → x = y.
Proof.
  intros Hc Hx Hy E. unfold wrapping_mul64, as_u64 in *.
  assert (∀ z, word z → (z * c) mod 2 ^ 64 * inv mod 2 ^ 64 = z) as Hinv.
  { intros z Hz. rewrite Z.mul_mod_idemp_l, <- Z.mul_assoc by lia.
    rewrite <- Z.mul_mod_idemp_r, Hc, Z.mul_1_r by lia. by apply Z.mod_small. }
  rewrite <- (Hinv x Hx), <- (Hinv y Hy). by rewrite E.
Qed.

Definition INV1 : Z := 0x96DE1B173F119089.
Definition INV2 : Z := 0x319642B2D24D8EC3.

Lemma split_mix64_word s : word (split_mix64 s).1.
Proof. apply xorshift_word; [lia|]. apply as_u64_word. Qed.

Lemma split_mix64_inj s t :
  word s → word t → (split_mix64 s).1 = (split_mix64 t).1 → s = t.
Proof.
  intros Hs Ht E. unfold split_mix64 in E. cbn [fst] in E.
  apply xorshift_inj in E; [|lia|apply as_u64_word..].
  apply (mul64_inj _ INV2) in E; [|by vm_compute|apply xorshift_word, as_u64_word; lia..].
  apply xorshift_inj in E; [|lia|apply as_u64_word..].
  apply (mul64_inj _ INV1) in E; [|by vm_compute|apply xorshift_word, as_u64_word; lia..].
  apply xorshift_inj in E; [|lia|apply as_u64_word..].
  unfold as_u64 in E. destruct Hs, Ht.
  assert ((s - t) mod 2 ^ 64 = 0) as Hm.
  { replace (s - t) with ((s + GOLDEN) - (t + GOLDEN)) by lia.
    rewrite Zminus_mod, E, Z.sub_diag. done. }
  apply Z.mod_divide in Hm as [q Hq]; [|lia]. nia.
Qed.

(** ** Consecutive keys *)

(** The generator state after [n] draws. *)
Definition state_at (s n : Z) : Z := as_u64 (s + n * GOLDEN).

Lemma split_mix64_state s n : (split_mix64 (state_at s n)).2 = state_at s (n + 1).
Proof.
  unfold split_mix64, state_at, as_u64. cbn [snd]. rewrite Z.add_mod_idemp_l by lia. f_equal. lia.
Qed.

Lemma state_at_0 s : word s → state_at s 0 = s.
Proof. intros. unfold state_at, as_u64. rewrite Z.mul_0_l, Z.add_0_r. by apply Z.mod_small. Qed.

Lemma state_at_inj s i j :
  0 ≤ i < 2 ^ 64 → 0 ≤ j < 2 ^ 64 → state_at s i = state_at s j → i = j.
Proof.
  intros Hi Hj E. unfold state_at, as_u64 in E.
  assert (wrapping_mul64 i GOLDEN = wrapping_mul64 j GOLDEN) as Em.
  { unfold wrapping_mul64, as_u64.
    replace (i * GOLDEN) with ((s + i * GOLDEN) - s) by lia.
    replace (j * GOLDEN) with ((s + j * GOLDEN) - s) by lia.
    by rewrite Zminus_mod, E, <- Zminus_mod. }
  by apply (mul64_inj _ 0xF1DE83E19937733D) in Em; [|by vm_compute|..].
Qed.

(** Key number [i] drawn from state [s]. *)
Definition nth_key (s i : Z) : AKey := (generate (state_at s (2 * i))).1.

Lemma generate_state s n : (generate (state_at s n)).2 = state_at s (n + 2).
Proof.
  unfold generate. pose proof (split_mix64_state s n) as H1.
  destruct (split_mix64 (state_at s n)) as [hi st1]. cbn in H1. subst st1.
  pose proof (split_mix64_state s (n + 1)) as H2.
  destruct (split_mix64 (state_at s (n + 1))) as [lo st2]. cbn in *. subst. f_equal. lia.
Qed.

Lemma lor_shift hi lo : word lo → Z.lor (Z.shiftl hi 64) lo = hi * 2 ^ 64 + lo.
Proof.
  intros Hlo. rewrite Z.shiftl_mul_pow2 by lia.
  assert (Z.land (hi * 2 ^ 64) lo = 0) as Hland.
  { apply Z.bits_inj'. intros i Hi. rewrite Z.land_spec, Z.bits_0.
    destruct (Z.lt_ge_cases i 64);
      [by rewrite Z.mul_pow2_bits_low|by rewrite (word_testbit lo Hlo), andb_false_r]. }
  by rewrite Z.add_nocarry_lxor, Z.lxor_lor.
Qed.

Lemma generate_eq s n :
  (generate (state_at s n)).1 =
    (split_mix64 (state_at s n)).1 * 2 ^ 64 + (split_mix64 (state_at s (n + 1))).1.
Proof.
  unfold generate. pose proof (split_mix64_state s n) as H1.
  destruct (split_mix64 (state_at s n)) as [hi st1] eqn:E1. cbn in H1. subst st1.
  pose proof (split_mix64_word (state_at s (n + 1))) as Hw.
  destruct (split_mix64 (state_at s (n + 1))) as [lo st2] eqn:E2. cbn in *. by apply lor_shift.
Qed.

Lemma key_split h1 l1 h2 l2 :
  word l1 → word l2 → h1 * 2 ^ 64 + l1 = h2 * 2 ^ 64 + l2 → h1 = h2 ∧ l1 = l2.
Proof. unfold word. intros. lia. Qed.

Lemma nth_key_inj s i j :
  0 ≤ i < 2 ^ 63 → 0 ≤ j < 2 ^ 63 → nth_key s i = nth_key s j → i = j.
Proof.
  intros Hi Hj E. unfold nth_key in E. rewrite !generate_eq in E.
  apply key_split in E as [E _]; [|apply split_mix64_word..].
  apply split_mix64_inj in E; [|apply as_u64_word..].
  apply state_at_inj in E; lia.
Qed.

Lemma nth_key_not_root s i : nth_key s i ≠ ROOT.
Proof.
  unfold nth_key. rewrite generate_eq. intros E.
  apply (key_split _ _ 0 0) in E as [E1 E2]; [|apply split_mix64_word|by split].
  assert ((split_mix64 (as_u64 (- GOLDEN))).1 = 0) as Hz by by vm_compute.
  rewrite <- Hz in E1. apply split_mix64_inj in E1; [|apply as_u64_word..].
  pose proof (split_mix64_state s (2 * i)) as Hst. rewrite E1 in Hst.
  rewrite <- Hst in E2. revert E2. by vm_compute.
Qed.

Lemma nth_key_ok s i : akey_ok (nth_key s i).
Proof.
  unfold nth_key. rewrite generate_eq.
  pose proof (split_mix64_word (state_at s (2 * i))). pose proof (split_mix64_word (state_at s (2 * i + 1))).
  unfold word, akey_ok, unsigned_ok in *. lia.
Qed.

(** Keys drawn from one generator do not repeat: any two of the first [2^63]
    keys after any state are different, every key is a valid 128-bit value, and
    none of them is the root's reserved key. *)
Theorem generated_keys_distinct s i j :
  0 ≤ i < 2 ^ 63 → 0 ≤ j < 2 ^ 63 →
  (nth_key s i = nth_key s j → i = j) ∧ nth_key s i ≠ ROOT ∧ akey_ok (nth_key s i) ∧
  (generate (state_at s (2 * i))).2 = state_at s (2 * (i + 1)).
Proof.
  intros Hi Hj. split_and!.
  - by apply nth_key_inj.
  - apply nth_key_not_root.
  - apply nth_key_ok.
  - rewrite generate_state. f_equal. lia.
Qed.

Lemma generated_keys_distinct_witness :
  (nth_key (seed 12345) 0 = nth_key (seed 12345) 1 → 0 = 1) ∧ nth_key (seed 12345) 0 ≠ ROOT ∧
  akey_ok (nth_key (seed 12345) 0) ∧
  (generate (state_at (seed 12345) (2 * 0))).2 = state_at (seed 12345) (2 * (0 + 1)).
Proof. apply generated_keys_distinct; by vm_compute. Defined.

(** A key and its sixteen bytes determine each other. *)
Theorem akey_bytes_roundtrip k bs :
  (akey_ok k → blen (into_bytes k) = 16 ∧ try_from_bytes (into_bytes k) = Ok k) ∧
  (bytes_ok bs → ∀ k', try_from_bytes bs = Ok k' → akey_ok k' ∧ into_bytes k' = bs).
Proof.
  split.
  - intros Hk. unfold try_from_bytes, into_bytes. rewrite blen_to_be. split; [done|].
    cbn. by rewrite from_into_bytes.
  - intros Hb k'. unfold try_from_bytes. destruct (Z.eqb_spec (blen bs) 16) as [Hl|]; [|done].
    intros [= <-]. pose proof (of_be_bound bs Hb) as Hbd. rewrite Hl in Hbd. split; [exact Hbd|].
    unfold into_bytes, from_bytes. rewrite <- (to_be_of_be bs Hb) at 2. f_equal.
    unfold blen in Hl. lia.
Qed.
