(* ===== verification/Dir.v ===== *)
(** * Directory blobs and a-node entries

    [codec/dir.rs] ([encode_dir], [ArchivedDir]) and [engine/entry.rs] (the tagged
    blob stored for an a-node: a directory or a file).  A directory's children are
    a [BTreeMap<SmolStr, AKey>], here a name-sorted association list. *)
From S2P Require Import Prelude BTree Codec Key.

(** ** [codec/dir.rs] *)

Definition ENTRY : Z := 24.

Abbreviation Children := (list (bytes * Z)) (only parsing).

(** The loop of [encode_dir]: the entry table and the names written so far. *)
Fixpoint encode_dir_loop (names_start : Z) (out names : bytes) (children : Children) : bytes :=
  match children with
  | [] => out ++ names
  | (name, akey) :: rest =>
      let name_off := as_u32 (names_start + blen names) in
      let out := put_u32 out name_off in
      let out := put_u32 out (as_u32 (blen name)) in
      let out := out ++ into_bytes akey in
      encode_dir_loop names_start out (names ++ name) rest
  end.

Definition encode_dir (children : Children) : bytes :=
  let count := blen children in
  let names_start := 4 + count * ENTRY in
  encode_dir_loop names_start (put_u32 [] (as_u32 count)) [] children.

(** [ArchivedDir::new] checks the count header only. *)
Definition ArchivedDir_new (blob : bytes) : res bytes :=
  let? _ := read_u32 blob 0 in Ok blob.

Definition dir_len (blob : bytes) : res Z := read_u32 blob 0.

Definition dir_entry_name_bytes (blob : bytes) (entry : Z) : res bytes :=
  let? name_off := read_u32 blob entry in
  let? name_len := read_u32 blob (entry + 4) in
  slice blob name_off name_len.

Definition dir_entry_name (blob : bytes) (entry : Z) : res bytes :=
  let? bs := dir_entry_name_bytes blob entry in
  from_utf8 bs (Corrupt "invalid utf-8 in a directory name").

Definition dir_entry_akey (blob : bytes) (entry : Z) : res AKey :=
  let? bs := slice blob (entry + 8) 16 in Ok (from_bytes bs).

Definition dir_get (blob : bytes) (name : bytes) : res (option AKey) :=
  let? count := dir_len blob in
  let probe mid := let? e := dir_entry_name_bytes blob (4 + mid * ENTRY) in Ok (bytes_cmp e name) in
  let? found := bsearch bsearch_fuel probe 0 count in
  match found with
  | None => Ok None
  | Some mid => let? k := dir_entry_akey blob (4 + mid * ENTRY) in Ok (Some k)
  end.

Fixpoint dir_entries_from (blob : bytes) (i : Z) (n : nat) : res (list (bytes * AKey)) :=
  match n with
  | O => Ok []
  | S n =>
      let entry := 4 + i * ENTRY in
      let? name := dir_entry_name blob entry in
      let? akey := dir_entry_akey blob entry in
      let? rest := dir_entries_from blob (i + 1) n in
      Ok ((name, akey) :: rest)
  end.

Definition dir_entries (blob : bytes) : res (list (bytes * AKey)) :=
  let? count := dir_len blob in dir_entries_from blob 0 (Z.to_nat count).

(** ** [engine/entry.rs] *)

Inductive EntryKind := KDir | KFile.
#[export] Instance EntryKind_eq_dec : EqDecision EntryKind.
Proof. solve_decision. Defined.

Definition TAG_DIR : Z := 0.
Definition TAG_FILE : Z := 1.

(** One line of a listing. *)
Record Entry := mkEntry { entry_name : bytes; entry_kind : EntryKind }.

Definition dir_entry (dir_blob : bytes) : bytes := TAG_DIR :: dir_blob.
Definition file_entry (value_blob : bytes) : bytes := TAG_FILE :: value_blob.

Definition kind_of_tag (tag : Z) : res EntryKind :=
  if tag =? TAG_DIR then Ok KDir
  else if tag =? TAG_FILE then Ok KFile
  else Err (Corrupt "unknown a-node entry tag {other}").

Definition get_entry_kind (entry : bytes) : res EntryKind :=
  match entry with
  | [] => Err (Corrupt "empty a-node entry")
  | tag :: _ => kind_of_tag tag
  end.

Definition entry_split (entry : bytes) : res (EntryKind * bytes) :=
  match entry with
  | [] => Err (Corrupt "empty a-node entry")
  | tag :: payload => let? kind := kind_of_tag tag in Ok (kind, payload)
  end.

(** ** The emitted directory *)

Definition dir_rec (off : Z) (e : bytes * AKey) : bytes :=
  to_be 4 (as_u32 off) ++ to_be 4 (as_u32 (blen e.1)) ++ into_bytes e.2.

Fixpoint dir_table (off : Z) (children : Children) : bytes :=
  match children with
  | [] => []
  | e :: rest => dir_rec off e ++ dir_table (off + blen e.1) rest
  end.

Lemma encode_dir_loop_eq start children out names :
  encode_dir_loop start out names children =
    out ++ dir_table (start + blen names) children ++ names ++ concat (children.*1).
Proof.
  revert out names; induction children as [|[n k] children IH]; intros out names; cbn [encode_dir_loop dir_table].
  - cbn. by rewrite app_nil_r.
  - rewrite IH. unfold put_u32, dir_rec. cbn [fst snd]. rewrite blen_app, <- !app_assoc.
    do 4 f_equal. rewrite Z.add_assoc. cbn [fmap list_fmap concat]. by rewrite <- ?app_assoc.
Qed.

Lemma encode_dir_eq children :
  encode_dir children =
    to_be 4 (as_u32 (blen children))
      ++ dir_table (4 + blen children * ENTRY) children ++ concat (children.*1).
Proof. unfold encode_dir. rewrite encode_dir_loop_eq, blen_nil, Z.add_0_r. done. Qed.

Lemma blen_dir_rec off e : blen (dir_rec off e) = ENTRY.
Proof. unfold dir_rec, into_bytes. by rewrite !blen_app, !blen_to_be. Qed.

Lemma blen_dir_table off children : blen (dir_table off children) = blen children * ENTRY.
Proof.
  revert off; induction children as [|e c IH]; intros off; cbn [dir_table]; [done|].
  rewrite blen_app, blen_dir_rec, IH, blen_cons. unfold ENTRY. lia.
Qed.

Lemma dir_table_app off a b :
  dir_table off (a ++ b) = dir_table off a ++ dir_table (off + blen (concat (a.*1))) b.
Proof.
  revert off; induction a as [|e a IH]; intros off; cbn [app dir_table].
  - cbn. by rewrite blen_nil, Z.add_0_r.
  - rewrite IH, <- app_assoc. cbn [fmap list_fmap concat]. rewrite blen_app. do 3 f_equal. lia.
Qed.

(** A directory the format can hold: valid names and keys in name order, and a
    blob addressable by 32-bit offsets. *)
Definition dir_name_ok (n : bytes) : Prop := utf8_valid n = true ∧ bytes_ok n.

Definition dir_ok (m : Children) : Prop :=
  bt_sorted m ∧ Forall (λ e, dir_name_ok e.1 ∧ akey_ok e.2) m ∧ blen (encode_dir m) < 2 ^ 32.

Lemma blen_encode_dir m :
  blen (encode_dir m) = 4 + blen m * ENTRY + blen (concat (m.*1)).
Proof. rewrite encode_dir_eq, !blen_app, blen_to_be, blen_dir_table. lia. Qed.

Section reading.
Context (m : Children).
Hypothesis Hok : dir_ok m.
Let blob := encode_dir m.

Lemma dir_size : blen blob < 2 ^ 32 ∧ 0 ≤ blen m < 2 ^ 32 ∧ blen blob ≤ USIZE_MAX.
Proof using Hok.
  destruct Hok as (_ & _ & Hb). fold blob in Hb. pose proof (blen_encode_dir m) as He. fold blob in He.
  pose proof (blen_nonneg m). pose proof (blen_nonneg (concat (m.*1))). unfold ENTRY, USIZE_MAX in *. lia.
Qed.

Lemma dir_len_eq : dir_len blob = Ok (blen m).
Proof using Hok.
  destruct dir_size as (Hb & Hm & Hu). unfold dir_len, blob in *. rewrite encode_dir_eq in *.
  rewrite as_u32_small in * by done. apply (read_u32_app []); done.
Qed.

(** What the record of child [i] holds. *)
Lemma dir_record i e :
  m !! i = Some e →
  let entry := 4 + Z.of_nat i * ENTRY in
  dir_entry_name_bytes blob entry = Ok e.1 ∧ dir_entry_akey blob entry = Ok e.2.
Proof using Hok.
  intros Hi entry. destruct dir_size as (Hb & Hm & Hu).
  pose proof (take_drop_middle m i e Hi) as Em.
  set (a := take i m) in *. set (b := drop (S i) m) in *.
  assert (length a = i) as Hla by (unfold a; rewrite length_take; apply lookup_lt_Some in Hi; lia).
  set (start := 4 + blen m * ENTRY).
  assert (blob = to_be 4 (as_u32 (blen m)) ++ dir_table start a
            ++ dir_rec (start + blen (concat (a.*1))) e
            ++ dir_table (start + blen (concat (a.*1)) + blen e.1) b
            ++ concat (a.*1) ++ e.1 ++ concat (b.*1)) as E.
  { unfold blob. rewrite encode_dir_eq. fold start. rewrite <- Em at 2 3. rewrite dir_table_app, fmap_app, concat_app.
    cbn [dir_table fmap list_fmap concat]. by rewrite <- !app_assoc. }
  set (noff := start + blen (concat (a.*1))) in *.
  set (pre := to_be 4 (as_u32 (blen m)) ++ dir_table start a) in *.
  set (rest := dir_table (noff + blen e.1) b ++ concat (a.*1) ++ e.1 ++ concat (b.*1)) in *.
  assert (blen pre = entry) as Hpre.
  { unfold pre. rewrite blen_app, blen_to_be, blen_dir_table. unfold entry, blen. rewrite Hla. lia. }
  assert (blob = pre ++ dir_rec noff e ++ rest) as E1.
  { unfold pre, rest. rewrite E, <- !app_assoc. done. }
  set (pre2 := pre ++ dir_rec noff e ++ dir_table (noff + blen e.1) b ++ concat (a.*1)).
  assert (blob = pre2 ++ e.1 ++ concat (b.*1)) as E2.
  { unfold pre2. rewrite E1. unfold rest. rewrite <- !app_assoc. done. }
  assert (blen pre2 = noff) as Hpre2.
  { unfold pre2. rewrite !blen_app, Hpre, blen_dir_rec, blen_dir_table. unfold noff, start, entry.
    assert (blen m = Z.of_nat i + 1 + blen b) as -> by (rewrite <- Em; unfold blen; rewrite length_app; cbn; lia).
    unfold ENTRY. lia. }
  assert (0 ≤ noff < 2 ^ 32 ∧ 0 ≤ blen e.1 < 2 ^ 32) as [Hn1 Hn2].
  { rewrite E2, !blen_app in Hb. pose proof (blen_nonneg pre2). pose proof (blen_nonneg e.1).
    pose proof (blen_nonneg (concat (b.*1))). lia. }
  assert (akey_ok e.2) as Hk.
  { destruct Hok as (_ & Hf & _). eapply Forall_lookup_1 in Hf as [_ Hk]; [|exact Hi]. exact Hk. }
  unfold dir_rec in E1. rewrite !as_u32_small in E1 by done.
  assert (read_u32 blob entry = Ok noff) as R1.
  { rewrite E1 in Hu |- *. rewrite <- !app_assoc in *. apply read_u32_app; done. }
  assert (read_u32 blob (entry + 4) = Ok (blen e.1)) as R2.
  { assert (blob = (pre ++ to_be 4 noff) ++ to_be 4 (blen e.1) ++ (into_bytes e.2 ++ rest)) as E3
      by (rewrite E1, <- !app_assoc; done).
    rewrite E3 in Hu |- *. apply read_u32_app; [done| |done]. rewrite blen_app, blen_to_be. lia. }
  split.
  - unfold dir_entry_name_bytes. rewrite R1. cbn [rbind]. rewrite R2. cbn [rbind].
    rewrite E2 in Hu |- *. by apply slice_app.
  - unfold dir_entry_akey.
    assert (blob = (pre ++ to_be 4 noff ++ to_be 4 (blen e.1)) ++ into_bytes e.2 ++ rest) as E3
      by (rewrite E1, <- !app_assoc; done).
    rewrite E3 in Hu |- *. rewrite slice_app; [|done|rewrite !blen_app, !blen_to_be; lia|done].
    cbn [rbind]. by rewrite from_into_bytes.
Qed.

Lemma dir_get_lemma n : dir_get blob n = Ok (bt_get m n).
Proof using Hok.
  unfold dir_get. rewrite dir_len_eq. cbn [rbind]. destruct dir_size as (Hb & Hm & Hu).
  pose proof Hok as (Hs & _).
  destruct (bsearch_spec (m.*1) n
    (λ mid, let? e := dir_entry_name_bytes blob (4 + mid * ENTRY) in Ok (bytes_cmp e n)))
    with (fuel := bsearch_fuel) (lo := 0) (hi := blen m) as [(i & Hi & ->)|(Hnot & ->)].
  - exact Hs.
  - intros i k Hk. rewrite list_lookup_fmap in Hk. destruct (m !! i) as [e|] eqn:Ei; [|done].
    cbn in Hk. injection Hk as <-. by destruct (dir_record i e Ei) as [-> _].
  - lia.
  - unfold blen. by rewrite length_fmap.
  - rewrite Z.sub_0_r. apply Hm.
  - intros i k Hk _. apply lookup_lt_Some in Hk. rewrite length_fmap in Hk. unfold blen. lia.
  - rewrite list_lookup_fmap in Hi. destruct (m !! i) as [[k c]|] eqn:Ei; [|done].
    cbn in Hi. injection Hi as ->. destruct (dir_record i _ Ei) as [_ Hk]. cbn [rbind]. rewrite Hk. cbn.
    do 2 f_equal. symmetry. apply bt_elem_get; [done|]. by eapply list_elem_of_lookup_2.
  - cbn. f_equal. symmetry. by apply bt_get_None.
Qed.

Lemma dir_entries_from_eq n i :
  (i + n)%nat = length m → dir_entries_from blob (Z.of_nat i) n = Ok (drop i m).
Proof using Hok.
  revert i; induction n as [|n IH]; intros i Hl; cbn [dir_entries_from].
  - by rewrite drop_ge by lia.
  - destruct (lookup_lt_is_Some_2 m i) as [e He]; [lia|].
    destruct (dir_record i e He) as [Hn Hk]. unfold dir_entry_name. rewrite Hn. cbn [rbind].
    destruct Hok as (_ & Hf & _). eapply Forall_lookup_1 in Hf as [[Hutf _] _]; [|exact He].
    unfold from_utf8. rewrite Hutf. cbn [rbind]. rewrite Hk. cbn [rbind].
    replace (Z.of_nat i + 1) with (Z.of_nat (S i)) by lia. rewrite IH by lia. cbn [rbind].
    rewrite (drop_S _ _ _ He). by destruct e.
Qed.

Lemma dir_entries_lemma : dir_entries blob = Ok m.
Proof using Hok.
  unfold dir_entries. rewrite dir_len_eq. cbn [rbind].
  rewrite (dir_entries_from_eq _ 0); [done|]. unfold blen. lia.
Qed.

Lemma ArchivedDir_new_ok : ArchivedDir_new blob = Ok blob.
Proof using Hok. unfold ArchivedDir_new. pose proof dir_len_eq as Hl. unfold dir_len in Hl. by rewrite Hl. Qed.
End reading.

(** ** Arbitrary directory blobs *)

Lemma dir_get_safe blob n : bytes_ok blob → safe (dir_get blob n).
Proof.
  intros Hb. unfold dir_get. apply safe_rbind; [apply read_u32_safe|]. intros count Hc.
  apply read_u32_bound in Hc; [|done|lia].
  apply safe_rbind; [apply bsearch_safe;
    [lia|unfold unsigned_ok in Hc; change (2 ^ Z.of_nat bsearch_fuel) with (2 ^ 32); lia|]|].
  - intros. apply safe_rbind; [|done]. unfold dir_entry_name_bytes.
    repeat (apply safe_rbind; [auto with arbor|]; intros). auto with arbor.
  - intros [mid|] _; [|done]. apply safe_rbind; [|done]. apply safe_rbind; [auto with arbor|done].
Qed.

Lemma dir_entries_safe blob : safe (dir_entries blob).
Proof.
  unfold dir_entries. apply safe_rbind; [apply read_u32_safe|]. intros count _.
  generalize (Z.to_nat count) 0. intros n. induction n as [|n IH]; intros i; cbn [dir_entries_from]; [done|].
  apply safe_rbind; [|intros; apply safe_rbind; [|intros; by apply safe_rbind]].
  - unfold dir_entry_name, dir_entry_name_bytes. apply safe_rbind.
    + repeat (apply safe_rbind; [auto with arbor|]; intros). auto with arbor.
    + intros. unfold from_utf8. by case_match.
  - apply safe_rbind; [auto with arbor|done].
Qed.

(** C28: A directory blob gives back exactly the map it was built from: listing
    returns the children in name order, and the zero-copy binary search for any
    name returns the child stored under it, or nothing. *)
Theorem encode_dir_roundtrip m n :
  dir_ok m →
  ArchivedDir_new (encode_dir m) = Ok (encode_dir m) ∧
  dir_entries (encode_dir m) = Ok m ∧ dir_get (encode_dir m) n = Ok (bt_get m n).
Proof.
  intros Hok. split_and!; [by apply ArchivedDir_new_ok|by apply dir_entries_lemma|by apply dir_get_lemma].
Qed.

Lemma encode_dir_roundtrip_witness :
  let m := [([97], 1); ([98], 2); ([99; 100], 3)] in
  ArchivedDir_new (encode_dir m) = Ok (encode_dir m) ∧
  dir_entries (encode_dir m) = Ok m ∧ dir_get (encode_dir m) [99; 100] = Ok (bt_get m [99; 100]).
Proof.
  apply encode_dir_roundtrip. split_and!; [repeat constructor; by vm_compute| |by vm_compute].
  repeat constructor; by vm_compute.
Defined.

(** Reading a corrupted directory blob or entry is safe: looking a name up,
    listing, and splitting off the kind tag terminate with a result or a
    [Corrupt] error on every byte string; they never panic. *)
Theorem dir_reads_safe blob n :
  bytes_ok blob →
  safe (dir_get blob n) ∧ safe (dir_entries blob) ∧ safe (entry_split blob) ∧
  (∀ k p, entry_split blob = Ok (k, p) ↔
          blob = match k with KDir => dir_entry p | KFile => file_entry p end).
Proof.
  intros Hb. split_and!; [by apply dir_get_safe|apply dir_entries_safe|..].
  - unfold entry_split, kind_of_tag. destruct blob; [done|]. by repeat case_match.
  - intros k p. unfold entry_split, kind_of_tag, dir_entry, file_entry. destruct blob as [|t q].
    { split; [done|]. by destruct k. }
    destruct (Z.eqb_spec t TAG_DIR) as [->|]; [|destruct (Z.eqb_spec t TAG_FILE) as [->|]];
      cbn; split; destruct k; intros; simplify_eq; try done; by destruct (eq_refl t).
Qed.

Lemma dir_reads_safe_witness :
  safe (dir_get [255; 255; 255; 255; 0] [97]) ∧ safe (dir_entries [255; 255; 255; 255; 0]) ∧
  safe (entry_split [255; 255; 255; 255; 0]) ∧
  (∀ k p, entry_split [255; 255; 255; 255; 0] = Ok (k, p) ↔
          [255; 255; 255; 255; 0] = match k with KDir => dir_entry p | KFile => file_entry p end).
Proof. apply dir_reads_safe. repeat constructor; by vm_compute. Defined.
