(* ===== verification/Engine.v ===== *)
(** * The storage engine boundary

    [engine/functions.rs] and [engine/features.rs].  The engine itself (redb) is a
    library: a table of a transaction is an abstract key-value store [KV] with the
    point operations the program calls, and [KVLaws] is what redb documents of
    them (a read sees the latest insert or remove of that key in the transaction,
    other keys are unaffected).  I/O failures of the engine are not modelled: the
    point operations always succeed. *)
From S2P Require Import Prelude BTree Codec Key Dir.

Class KV (T K V : Type) := {
  kv_get : T → K → option V;
  kv_insert : T → K → V → T;
  kv_remove : T → K → T;
}.

Class KVLaws (T K V : Type) `{KV T K V} `{EqDecision K} := {
  kv_get_insert t k v j : kv_get (kv_insert t k v) j = if decide (j = k) then Some v else kv_get t j;
  kv_get_remove t k j : kv_get (kv_remove t k) j = if decide (j = k) then None else kv_get t j;
}.

(** A finite map is such a store. *)
Module EngineModel.
#[export] Instance gmap_kv {K V} `{Countable K} : KV (gmap K V) K V := {|
  kv_get m k := m !! k; kv_insert m k v := <[k := v]> m; kv_remove m k := delete k m |}.
#[export] Instance gmap_kv_laws {K V} `{Countable K} : KVLaws (gmap K V) K V.
Proof.
  split; intros t k; intros; cbn; case_decide; subst.
  - apply lookup_insert_eq.
  - by apply lookup_insert_ne.
  - apply lookup_delete_eq.
  - by apply lookup_delete_ne.
Qed.
End EngineModel.

(** ** Tables read in key order

    The index and inode tables are also iterated: [kv_range t lo] is [table.range(lo..)]: the entries from [lo] on, in key order. *)
Class OrdKV (I : Type) := {
  ordkv_kv :: KV I bytes bytes;
  kv_range : I → bytes → list (bytes * bytes);
}.

Class OrdKVLaws (I : Type) `{OrdKV I} := {
  ordkv_laws :: KVLaws I bytes bytes;
  kv_range_sorted t lo : bt_sorted (kv_range t lo);
  kv_range_elem t lo k v : (k, v) ∈ kv_range t lo ↔ kv_get t k = Some v ∧ ¬ blt k lo;
}.

(** A sorted list is such a table. *)
Module IndexTableModel.
Definition sorted_table : Type := { m : list (bytes * bytes) | bt_sorted m }.
#[export] Instance sorted_table_kv : KV sorted_table bytes bytes := {|
  kv_get m k := bt_get (`m) k;
  kv_insert m k v := exist _ (bt_insert (`m) k v) (bt_sorted_insert (`m) k v (proj2_sig m));
  kv_remove m k := exist _ (bt_remove (`m) k) (bt_sorted_remove (`m) k (proj2_sig m)) |}.
#[export] Instance sorted_table_ordkv : OrdKV sorted_table := {|
  kv_range m lo := List.filter (λ kv, negb (bool_decide (blt kv.1 lo))) (`m) |}.
#[export] Instance sorted_table_laws : OrdKVLaws sorted_table.
Proof.
  split.
  - split; intros [m Hm] k; intros; cbn; [by apply bt_get_insert|by apply bt_get_remove].
  - intros [m Hm] lo. cbn. unfold bt_sorted in *. induction m as [|[k v] m IH]; cbn in *; [constructor|].
    apply StronglySorted_inv in Hm as [Hm Hk]. destruct (negb _); [|by apply IH]. cbn.
    constructor; [by apply IH|]. rewrite Forall_forall in Hk |- *. intros j (kv & -> & Hin)%list_elem_of_fmap.
    apply Hk, list_elem_of_fmap. exists kv. split; [done|]. apply list_elem_of_In, List.filter_In in Hin as [? _].
    by apply list_elem_of_In.
  - intros [m Hm] lo k v. cbn. rewrite list_elem_of_In, List.filter_In, negb_true_iff, bool_decide_eq_false, <- list_elem_of_In.
    by rewrite bt_elem_get.
Qed.
Definition empty_table : sorted_table := exist _ [] (SSorted_nil blt).
End IndexTableModel.

(** ** [engine/functions.rs]: reads of the data table *)

Section data_table.
Context {T : Type} `{KV T Z bytes}.

Definition read_entry (t : T) (akey : AKey) : res (option bytes) := Ok (kv_get t akey).

Definition fetch_entry_kind (t : T) (akey : AKey) : res (option EntryKind) :=
  match kv_get t akey with
  | Some entry => let? k := get_entry_kind entry in Ok (Some k)
  | None => Ok None
  end.

Definition child_of (t : T) (parent : AKey) (name : bytes) : res (option AKey) :=
  match kv_get t parent with
  | None => Ok None
  | Some entry =>
      let? '(kind, payload) := entry_split entry in
      match kind with
      | KFile => Ok None
      | KDir => let? d := ArchivedDir_new payload in dir_get d name
      end
  end.
End data_table.

(** ** [engine/features.rs] and [bootstrap_metadata] *)

Section metadata.
Context {T : Type} `{KV T bytes bytes}.

(** The build's [cfg!(feature = ..)] answers. *)
Record Build := { permissions : bool; entry_timestamps : bool }.

Definition s_permissions : bytes := str "permissions".
Definition s_entry_timestamps : bytes := str "entry-timestamps".

Definition is_compiled (b : Build) (name : bytes) : bool :=
  if decide (name = s_permissions) then permissions b
  else if decide (name = s_entry_timestamps) then entry_timestamps b
  else false.

Fixpoint features_loop (r : Reader) (n : nat) : res (list bytes) :=
  match n with
  | O => Ok []
  | S n =>
      let? '(bs, r) := Reader_bytes r in
      let? name := from_utf8 bs (Corrupt "invalid utf-8 in the required-features record") in
      let? rest := features_loop r n in
      Ok (name :: rest)
  end.

Definition features_decode (bs : bytes) : res (list bytes) :=
  let? '(count, r) := Reader_u32 (Reader_new bs) in features_loop r (Z.to_nat count).

(** [constants.rs]. *)
Definition META_REQUIRED_FEATURES_KEY : bytes := str "requirements".
Definition META_FORMAT_VERSION_KEY : bytes := str "format_version".
Definition DB_FORMAT_VERSION : Z := 1.

Definition features_list (meta : T) : res (list bytes) :=
  match kv_get meta META_REQUIRED_FEATURES_KEY with
  | Some bs => features_decode bs
  | None => Ok []
  end.

Fixpoint check_names (b : Build) (names : list bytes) : res unit :=
  match names with
  | [] => Ok tt
  | name :: rest =>
      if is_compiled b name then check_names b rest
      else if decide (name = s_permissions) then Err DatabaseProtected
      else Err FeatureRequired
  end.

Definition features_check (b : Build) (meta : T) : res unit :=
  let? names := features_list meta in check_names b names.

(** [features::require]. *)
Definition features_encode (names : list bytes) : bytes :=
  fold_left put_bytes names (put_u32 [] (as_u32 (blen names))).

Definition features_require (meta : T) (name : bytes) : res T :=
  let? names := features_list meta in
  if bool_decide (name ∈ names) then Ok meta
  else Ok (kv_insert meta META_REQUIRED_FEATURES_KEY (features_encode (names ++ [name]))).

(** [bootstrap_metadata]: the committed metadata table, or the error that aborts
    the transaction. *)
Definition bootstrap_metadata (b : Build) (meta : T) : res T :=
  let? current :=
    match kv_get meta META_FORMAT_VERSION_KEY with
    | Some bs =>
        if blen bs =? 8 then Ok (Some (of_be bs))
        else Err (Corrupt "invalid on-disk format version")
    | None => Ok None
    end in
  let? meta :=
    match current with
    | Some version =>
        if DB_FORMAT_VERSION <? version
        then Err (SchemaMismatch "on-disk format version {version} is newer than this build's {FORMAT_VERSION}")
        else Ok meta
    | None => Ok (kv_insert meta META_FORMAT_VERSION_KEY (to_be 8 DB_FORMAT_VERSION))
    end in
  let? _ := features_check b meta in
  Ok meta.

(** ** The feature record *)

Definition feature_ok (n : bytes) : Prop := utf8_valid n = true ∧ blen n < 2 ^ 32.

Lemma features_encode_eq names buf :
  Forall feature_ok names →
  fold_left put_bytes names buf = buf ++ concat (map (λ n, to_be 4 (blen n) ++ n) names).
Proof.
  intros Hf; revert buf; induction Hf as [|n names [_ Hn] _ IH]; intros buf; cbn [fold_left map concat].
  - by rewrite app_nil_r.
  - rewrite IH, put_bytes_eq by done. by rewrite <- !app_assoc.
Qed.

Lemma features_loop_reads names :
  Forall feature_ok names →
  ∀ pre, blen (pre ++ concat (map (λ n, to_be 4 (blen n) ++ n) names)) ≤ USIZE_MAX →
    features_loop (mkReader (pre ++ concat (map (λ n, to_be 4 (blen n) ++ n) names)) (blen pre))
      (length names) = Ok names.
Proof.
  induction 1 as [|n names [Hu Hn] _ IH]; intros pre Hb; cbn [map concat features_loop length]; [done|].
  cbn [map concat] in Hb. rewrite (reads_bytes n Hn pre) by done. cbn [rbind].
  unfold from_utf8. rewrite Hu. cbn [rbind].
  rewrite app_assoc in Hb |- *. rewrite <- blen_app. by rewrite IH.
Qed.

Lemma features_roundtrip names :
  Forall feature_ok names → blen names < 2 ^ 32 → blen (features_encode names) ≤ USIZE_MAX →
  features_decode (features_encode names) = Ok names.
Proof.
  intros Hf Hl Hb. unfold features_decode, features_encode in *. rewrite features_encode_eq in * by done.
  pose proof (blen_nonneg names). unfold put_u32 in *. rewrite as_u32_small in * by lia.
  cbn [app] in *. unfold Reader_new.
  pose proof (reads_u32 (blen names) ltac:(split; lia) []) as Hr. cbn [app] in Hr. rewrite blen_nil in Hr.
  rewrite Hr by done. cbn [rbind]. rewrite Z.add_0_l.
  replace (Z.to_nat (blen names)) with (length names) by (unfold blen; by rewrite Nat2Z.id).
  by apply (features_loop_reads names Hf (to_be 4 (blen names))).
Qed.

Lemma check_names_Ok b names : check_names b names = Ok tt ↔ Forall (λ n, is_compiled b n = true) names.
Proof.
  induction names as [|n names IH]; cbn [check_names]; [by split|]. rewrite Forall_cons, <- IH.
  destruct (is_compiled b n); [naive_solver|]. case_decide; naive_solver.
Qed.

Context `{!KVLaws T bytes bytes}.

(** Opening a database: on success the metadata table records a format version
    this build understands, every feature it requires is compiled in, nothing
    but the version key was touched, and opening again changes nothing. *)
Theorem bootstrap_metadata_spec b meta meta' :
  bootstrap_metadata b meta = Ok meta' →
  (∃ bs, kv_get meta' META_FORMAT_VERSION_KEY = Some bs ∧ blen bs = 8 ∧ of_be bs ≤ DB_FORMAT_VERSION) ∧
  (∃ names, features_list meta' = Ok names ∧ Forall (λ n, is_compiled b n = true) names) ∧
  (∀ k, k ≠ META_FORMAT_VERSION_KEY → kv_get meta' k = kv_get meta k) ∧
  bootstrap_metadata b meta' = Ok meta'.
Proof.
  unfold bootstrap_metadata. intros (cur & Hcur & (m1 & Hm1 & ([] & Hc & [= <-])%rbind_Ok)%rbind_Ok)%rbind_Ok.
  pose proof Hc as Hc'. unfold features_check in Hc. apply rbind_Ok in Hc as (names & Hn & Hc).
  apply check_names_Ok in Hc.
  assert ((∃ bs, kv_get m1 META_FORMAT_VERSION_KEY = Some bs ∧ blen bs = 8 ∧ of_be bs ≤ DB_FORMAT_VERSION) ∧
          (∀ k, k ≠ META_FORMAT_VERSION_KEY → kv_get m1 k = kv_get meta k)) as [(bs & Hbs & Hl & Hv) Hframe].
  { destruct (kv_get meta META_FORMAT_VERSION_KEY) as [bs|] eqn:Hk.
    - destruct (Z.eqb_spec (blen bs) 8); [|done]. injection Hcur as <-.
      destruct (Z.ltb_spec DB_FORMAT_VERSION (of_be bs)); [done|]. injection Hm1 as <-. eauto.
    - injection Hcur as <-. injection Hm1 as <-. split.
      + exists (to_be 8 DB_FORMAT_VERSION). rewrite kv_get_insert, decide_True by done. by vm_compute.
      + intros k Hk'. by rewrite kv_get_insert, decide_False. }
  split_and!; [by exists bs|by exists names|done|].
  rewrite Hbs. rewrite (proj2 (Z.eqb_eq _ _) Hl). cbn [rbind].
  rewrite (proj2 (Z.ltb_ge _ _) Hv). cbn [rbind]. by rewrite Hc'.
Qed.

(** Requiring a feature is recorded and enforced: afterwards the record lists the old
    names and the new one, nothing else of the table has changed, and requiring it again
    changes nothing. *)
Lemma features_require_spec meta names name :
  features_list meta = Ok names → Forall feature_ok names → feature_ok name →
  blen names + 1 < 2 ^ 32 → blen (features_encode (names ++ [name])) ≤ USIZE_MAX →
  ∃ meta', features_require meta name = Ok meta' ∧
    features_list meta' = Ok (if bool_decide (name ∈ names) then names else names ++ [name]) ∧
    (∀ k, k ≠ META_REQUIRED_FEATURES_KEY → kv_get meta' k = kv_get meta k) ∧
    features_require meta' name = Ok meta'.
Proof.
  intros Hl Hf Hn Hlen Hb. unfold features_require at 1. rewrite Hl. cbn [rbind].
  case_bool_decide as Hin; eexists; (split; [done|]).
  - rewrite Hl. split_and!; [done..|]. unfold features_require. rewrite Hl. cbn. by rewrite bool_decide_true.
  - assert (features_list (kv_insert meta META_REQUIRED_FEATURES_KEY (features_encode (names ++ [name]))) =
            Ok (names ++ [name])) as Hl'.
    { unfold features_list. rewrite kv_get_insert, decide_True by done. apply features_roundtrip; [|rewrite blen_app; exact Hlen|done].
      apply Forall_app. split; [done|]. by apply Forall_singleton. }
    split_and!; [done|intros k Hk; by rewrite kv_get_insert, decide_False|].
    unfold features_require at 1. rewrite Hl'. cbn. by rewrite bool_decide_true by set_solver.
Qed.
End metadata.

(** ** Witnesses *)

Module EngineWitness.
Import EngineModel.

Definition default_build : Build := {| permissions := false; entry_timestamps := false |}.

Lemma bootstrap_metadata_spec_witness :
  let meta' := <[META_FORMAT_VERSION_KEY := to_be 8 1]> (∅ : gmap bytes bytes) in
  (∃ bs, kv_get meta' META_FORMAT_VERSION_KEY = Some bs ∧ blen bs = 8 ∧ of_be bs ≤ DB_FORMAT_VERSION) ∧
  (∃ names, features_list meta' = Ok names ∧ Forall (λ n, is_compiled default_build n = true) names) ∧
  (∀ k, k ≠ META_FORMAT_VERSION_KEY → kv_get meta' k = kv_get (∅ : gmap bytes bytes) k) ∧
  bootstrap_metadata default_build meta' = Ok meta'.
Proof. apply (bootstrap_metadata_spec default_build ∅). by vm_compute. Defined.
End EngineWitness.
