(* ===== verification/Acl.v ===== *)
(** * Access control

    [acl.rs], [inode/acl.rs], [perm/constants.rs], [perm/principal.rs] and
    [perm/access.rs]: graded rights, access-control lists with their stored form, the
    identity a handle acts as, and the decision whether it may touch an a-node.
    [permitted] states the policy as rules; [authorize] is proved to decide it. *)
From S2P Require Import Prelude Codec IndexDef Key.

(** ** [acl.rs] *)

(** [Rights::{None, Access, Modify, Delete}], in the order [PartialOrd] derives. *)
Inductive Rights := RNone | RAccess | RModify | RDelete.
#[export] Instance Rights_eq_dec : EqDecision Rights.
Proof. solve_decision. Defined.

Definition grade (r : Rights) : Z :=
  match r with RNone => 0 | RAccess => 1 | RModify => 2 | RDelete => 3 end.

Definition to_bits (r : Rights) : Z :=
  match r with RNone => 0 | RAccess => 1 | RModify => 3 | RDelete => 7 end.

Definition from_bits (bits : Z) : Rights :=
  if Z.land bits 7 =? 7 then RDelete
  else if Z.land bits 3 =? 3 then RModify
  else if Z.land bits 1 =? 1 then RAccess
  else RNone.

Definition includes (r needed : Rights) : bool := grade needed <=? grade r.

Definition max_rights (a b : Rights) : Rights := if grade a <=? grade b then b else a.

Inductive AclClass := ClassUser | ClassGroup (name : bytes) | ClassOther.

(** ** [inode/acl.rs] *)

Record Acl := mkAcl {
  acl_owner_uid : Z;
  acl_owner : Rights;
  acl_group : gmap Z Rights;
  acl_other : Rights;
}.

Definition default_for (owner_uid : Z) : Acl := mkAcl owner_uid RDelete ∅ RAccess.

Definition set_owner_uid (uid : Z) (a : Acl) : Acl := mkAcl uid (acl_owner a) (acl_group a) (acl_other a).
Definition set_owner_rights (r : Rights) (a : Acl) : Acl := mkAcl (acl_owner_uid a) r (acl_group a) (acl_other a).
Definition set_other_rights (r : Rights) (a : Acl) : Acl := mkAcl (acl_owner_uid a) (acl_owner a) (acl_group a) r.
Definition set_groups (g : gmap Z Rights) (a : Acl) : Acl := mkAcl (acl_owner_uid a) (acl_owner a) g (acl_other a).

Definition group_rights (gid : Z) (a : Acl) : Rights := default RNone (acl_group a !! gid).

Definition set_group_rights (gid : Z) (r : Rights) (a : Acl) : Acl :=
  if bool_decide (r = RNone) then set_groups (delete gid (acl_group a)) a
  else set_groups (<[gid := r]> (acl_group a)) a.

(** [self.group.entry(gid).or_insert(Rights::Access)] *)
Definition acl_add_group (gid : Z) (a : Acl) : Acl :=
  match acl_group a !! gid with
  | Some _ => a
  | None => set_groups (<[gid := RAccess]> (acl_group a)) a
  end.

Definition acl_remove_group (gid : Z) (a : Acl) : Acl := set_groups (delete gid (acl_group a)) a.

Definition has_group (gid : Z) (a : Acl) : bool := bool_decide (is_Some (acl_group a !! gid)).

(** The map in ascending key order, as a [BTreeMap] iterates. *)
Definition by_gid (p q : Z * Rights) : Prop := p.1 ≤ q.1.
#[export] Instance by_gid_dec p q : Decision (by_gid p q).
Proof. unfold by_gid. apply _. Defined.
Definition ascending (g : gmap Z Rights) : list (Z * Rights) := merge_sort by_gid (map_to_list g).

Definition group_ids (a : Acl) : list Z := (ascending (acl_group a)).*1.

Definition effective_rights (uid : Z) (gids : list Z) (a : Acl) : Rights :=
  if uid =? acl_owner_uid a then acl_owner a
  else
    match omap (λ gid, acl_group a !! gid) gids with
    | [] => acl_other a
    | r :: rs => fold_left max_rights rs r
    end.

Definition acl_encode (a : Acl) : bytes :=
  let out := to_be 4 (acl_owner_uid a) ++ [to_bits (acl_owner a)] ++ [to_bits (acl_other a)] in
  let out := out ++ to_be 4 (as_u32 (Z.of_nat (size (acl_group a)))) in
  fold_left (λ out p, out ++ to_be 4 p.1 ++ [to_bits p.2]) (ascending (acl_group a)) out.

Fixpoint decode_groups (n : nat) (group : gmap Z Rights) (r : Reader) : res (gmap Z Rights * Reader) :=
  match n with
  | O => Ok (group, r)
  | S n =>
      let? '(gid, r) := Reader_u32 r in
      let? '(bits, r) := Reader_u8 r in
      decode_groups n (<[gid := from_bits bits]> group) r
  end.

Definition acl_decode_at (r : Reader) : res (Acl * Reader) :=
  let? '(owner_uid, r) := Reader_u32 r in
  let? '(owner, r) := Reader_u8 r in
  let? '(other, r) := Reader_u8 r in
  let? '(count, r) := Reader_u32 r in
  let? '(group, r) := decode_groups (Z.to_nat count) ∅ r in
  Ok (mkAcl owner_uid (from_bits owner) group (from_bits other), r).

Definition acl_decode (body : bytes) : res Acl :=
  let? '(a, _) := acl_decode_at (Reader_new body) in Ok a.

(** ** [perm/constants.rs] and [perm/principal.rs] *)

Definition MASTER_UID : Z := 0.
Definition GUEST_UID : Z := 1.
Definition MASTER_GID : Z := 0.
Definition SUPER_GID : Z := 1.

Record Session := mkSession {
  s_name : bytes;
  s_uid : Z;
  s_gids : list Z;
  s_key : bytes;
  s_sign_seed : bytes;
}.

(** [signer] is the expansion of [s_sign_seed]. *)
Inductive Principal := Unrestricted | Guest (pubkey : bytes) | User (session : Session).

Definition is_master (s : Session) : bool := s_uid s =? MASTER_UID.
Definition in_master_group (s : Session) : bool := bool_decide (MASTER_GID ∈ s_gids s).
Definition in_super_group (s : Session) : bool := bool_decide (SUPER_GID ∈ s_gids s).

(** ** [perm/access.rs] *)

Definition denied : AdbError := PermissionDenied "{needed:?} access is not permitted here".

Definition is_guest (p : Principal) : bool := match p with Guest _ => true | _ => false end.

Definition authorize (p : Principal) (akey : AKey) (acl : option Acl) (needed : Rights) : res unit :=
  if is_guest p && (grade RAccess <? grade needed) then Err denied
  else if akey =? ROOT then Ok tt
  else
    match p with
    | Unrestricted => Ok tt
    | _ =>
        if match p with User s => is_master s | _ => false end then Ok tt
        else
          match acl with
          | None => if match p with User s => in_master_group s | _ => false end then Ok tt else Err denied
          | Some acl =>
              let '(uid, gids) := match p with User s => (s_uid s, s_gids s) | _ => (GUEST_UID, []) end in
              if includes (effective_rights uid gids acl) needed then Ok tt else Err denied
          end
    end.

Definition authorize_chown (p : Principal) (acl : Acl) : res unit :=
  let allowed :=
    match p with
    | Unrestricted => true
    | User s => if is_master s || in_master_group s then true else s_uid s =? acl_owner_uid acl
    | Guest _ => false
    end in
  if (allowed : bool) then Ok tt
  else Err (PermissionDenied "changing the owner requires ownership or administration").

(** ** The stored form *)

Lemma from_to_bits r : from_bits (to_bits r) = r.
Proof. by destruct r. Qed.

Definition acl_ok (a : Acl) : Prop :=
  unsigned_ok 32 (acl_owner_uid a) ∧ map_Forall (λ gid _, unsigned_ok 32 gid) (acl_group a) ∧
  10 + 5 * Z.of_nat (size (acl_group a)) < 2 ^ 32.

#[export] Instance acl_ok_dec a : Decision (acl_ok a).
Proof. unfold acl_ok. apply _. Defined.

Lemma ascending_perm g : ascending g ≡ₚ map_to_list g.
Proof. apply merge_sort_Permutation. Qed.

Lemma length_ascending g : length (ascending g) = size g.
Proof. by rewrite ascending_perm, length_map_to_list. Qed.

Lemma elem_of_ascending g gid r : (gid, r) ∈ ascending g ↔ g !! gid = Some r.
Proof. rewrite ascending_perm. apply elem_of_map_to_list. Qed.

Definition put_groups (g : gmap Z Rights) (l : list (Z * Rights)) : gmap Z Rights :=
  fold_left (λ g p, <[p.1 := p.2]> g) l g.

(** Inserting distinct keys one by one, in whatever order, builds the map of them. *)
Lemma put_groups_lookup l : ∀ g gid, NoDup l.*1 →
  put_groups g l !! gid = match (list_to_map l : gmap Z Rights) !! gid with Some r => Some r | None => g !! gid end.
Proof.
  induction l as [|[k r] l IH]; intros g gid Hnd; cbn [put_groups fold_left fmap list_fmap fst snd] in *; [by rewrite list_to_map_nil, lookup_empty|].
  apply NoDup_cons in Hnd as [Hk Hnd]. change (fold_left _ l ?g) with (put_groups g l). rewrite IH by done.
  rewrite list_to_map_cons. destruct (decide (gid = k)) as [->|Hne].
  - rewrite !lookup_insert_eq. by rewrite (not_elem_of_list_to_map_1 l k Hk).
  - by rewrite !lookup_insert_ne by done.
Qed.

Lemma put_ascending g : put_groups ∅ (ascending g) = g.
Proof.
  apply map_eq. intros gid.
  assert (NoDup (ascending g).*1) as Hnd by (rewrite (ascending_perm g); apply NoDup_fst_map_to_list).
  rewrite put_groups_lookup by done. rewrite lookup_empty.
  rewrite (list_to_map_proper _ (map_to_list g)); [|done|apply ascending_perm].
  rewrite list_to_map_to_list. by destruct (g !! gid).
Qed.

Definition pair_bytes (p : Z * Rights) : bytes := to_be 4 p.1 ++ [to_bits p.2].

Lemma reads_groups l : ∀ g, Forall (λ p, unsigned_ok 32 p.1) l →
  reads (decode_groups (length l) g) (concat (map pair_bytes l)) (put_groups g l).
Proof.
  induction l as [|[gid r] l IH]; intros g Hl; cbn [decode_groups length map concat]; [apply reads_ret|].
  apply Forall_cons in Hl as [Hg Hl]. unfold pair_bytes at 1. rewrite <- app_assoc.
  apply (reads_bind Reader_u32) with (x := gid); [by apply reads_u32|].
  apply (reads_bind Reader_u8) with (x := to_bits r); [apply reads_u8|].
  rewrite from_to_bits. by apply IH.
Qed.

Definition acl_bytes (a : Acl) : bytes :=
  to_be 4 (acl_owner_uid a) ++ [to_bits (acl_owner a)] ++ [to_bits (acl_other a)] ++
  to_be 4 (Z.of_nat (size (acl_group a))) ++ concat (map pair_bytes (ascending (acl_group a))).

Lemma acl_encode_eq a : acl_ok a → acl_encode a = acl_bytes a.
Proof.
  intros (_ & _ & Hs). unfold acl_encode, acl_bytes. rewrite as_u32_small by lia.
  assert (∀ l out, fold_left (λ out p, out ++ to_be 4 p.1 ++ [to_bits p.2]) l out = out ++ concat (map pair_bytes l)) as Hf.
  { induction l as [|p l IH]; intros out; cbn [fold_left map concat]; [by rewrite app_nil_r|].
    rewrite IH. unfold pair_bytes at 2. by rewrite <- !app_assoc. }
  rewrite Hf. by rewrite <- !app_assoc.
Qed.

Lemma acl_bytes_length a : blen (acl_bytes a) = 10 + 5 * Z.of_nat (size (acl_group a)).
Proof.
  unfold acl_bytes. rewrite !blen_app, !blen_to_be. rewrite <- (length_ascending (acl_group a)).
  assert (∀ l, blen (concat (map pair_bytes l)) = 5 * Z.of_nat (length l)) as ->.
  { induction l as [|p l IH]; cbn [map concat length]; [done|]. unfold pair_bytes at 1.
    rewrite !blen_app, blen_to_be, IH. change (blen [to_bits p.2]) with 1. lia. }
  change (blen [to_bits (acl_owner a)]) with 1. change (blen [to_bits (acl_other a)]) with 1. lia.
Qed.

Lemma reads_acl a : acl_ok a → reads acl_decode_at (acl_bytes a) a.
Proof.
  intros (Ho & Hg & Hs). unfold acl_decode_at, acl_bytes.
  apply (reads_bind Reader_u32) with (x := acl_owner_uid a); [by apply reads_u32|].
  apply (reads_bind Reader_u8) with (x := to_bits (acl_owner a)); [apply reads_u8|].
  apply (reads_bind Reader_u8) with (x := to_bits (acl_other a)); [apply reads_u8|].
  apply (reads_bind Reader_u32) with (x := Z.of_nat (size (acl_group a))); [apply reads_u32; split; lia|].
  rewrite Nat2Z.id, <- (length_ascending (acl_group a)), !from_to_bits.
  assert (reads (decode_groups (length (ascending (acl_group a))) ∅)
    (concat (map pair_bytes (ascending (acl_group a)))) (acl_group a)) as Hr.
  { rewrite <- (put_ascending (acl_group a)) at 3. apply reads_groups. apply Forall_forall. intros [gid r] Hin.
    apply elem_of_ascending in Hin. by apply (Hg gid r Hin). }
  pose proof (reads_map_ret _ (λ g, mkAcl (acl_owner_uid a) (acl_owner a) g (acl_other a)) _ _ Hr) as Hm.
  cbn beta in Hm. by destruct a.
Qed.

Lemma acl_roundtrip a : acl_ok a → acl_decode (acl_encode a) = Ok a.
Proof.
  intros Hok. rewrite acl_encode_eq by done. pose proof (reads_acl a Hok [] []) as Hr.
  rewrite app_nil_r in Hr. unfold acl_decode, Reader_new. cbn [app] in Hr. change (@blen Z []) with 0 in Hr.
  rewrite Hr; [done|]. rewrite acl_bytes_length. destruct Hok as (_ & _ & ?). unfold USIZE_MAX. lia.
Qed.

Lemma default_for_ok uid : unsigned_ok 32 uid → acl_ok (default_for uid).
Proof. intros Hu. split; [done|]. split; [apply map_Forall_empty|done]. Qed.

(** ** The effective grade *)

Lemma fold_max_spec rs : ∀ r,
  let m := fold_left max_rights rs r in (m = r ∨ m ∈ rs) ∧ grade r ≤ grade m ∧ Forall (λ x, grade x ≤ grade m) rs.
Proof.
  induction rs as [|x rs IH]; intros r; cbn zeta in *; cbn [fold_left]; [split_and!; [by left|done|constructor]|].
  specialize (IH (max_rights r x)) as (Hin & Hge & Hall). revert Hin Hge Hall.
  generalize (fold_left max_rights rs (max_rights r x)). intros m Hin Hge Hall.
  assert (grade r ≤ grade (max_rights r x) ∧ grade x ≤ grade (max_rights r x) ∧ (max_rights r x = r ∨ max_rights r x = x)) as (Hr & Hx & He).
  { unfold max_rights. destruct (Z.leb_spec (grade r) (grade x)); split_and!; auto; lia. }
  split_and!; [|lia|constructor; [lia|done]].
  destruct Hin as [->|Hin]; [destruct He as [->| ->]; [by left|right; by left]|right; by right].
Qed.

Lemma effective_spec uid gids a :
  let r := effective_rights uid gids a in
  (uid = acl_owner_uid a → r = acl_owner a) ∧
  (uid ≠ acl_owner_uid a → (∀ gid, gid ∈ gids → acl_group a !! gid = None) → r = acl_other a) ∧
  (uid ≠ acl_owner_uid a → ∀ gid x, gid ∈ gids → acl_group a !! gid = Some x →
     grade x ≤ grade r ∧ ∃ g, g ∈ gids ∧ acl_group a !! g = Some r).
Proof.
  cbn zeta. unfold effective_rights. destruct (Z.eqb_spec uid (acl_owner_uid a)) as [->|Hne]; [by split_and!|].
  assert (∀ x, x ∈ omap (λ gid, acl_group a !! gid) gids ↔ ∃ gid, gid ∈ gids ∧ acl_group a !! gid = Some x) as Hin.
  { intros x. apply list_elem_of_omap. }
  destruct (omap _ gids) as [|r rs]; (split; [done|split]).
  - done.
  - intros _ gid x Hg Hx. assert (x ∈ []) as []%elem_of_nil. apply Hin. eauto.
  - intros _ Hno. destruct (proj1 (Hin r)) as (gid & Hg & Hr); [by left|]. by rewrite (Hno gid Hg) in Hr.
  - intros _ gid x Hg Hx. destruct (fold_max_spec rs r) as (Hm & Hge & Hall). split.
    + assert (x ∈ r :: rs) as [->|Hx']%elem_of_cons by (apply Hin; eauto); [done|].
      rewrite Forall_forall in Hall. by apply Hall.
    + apply Hin. destruct Hm as [->|Hm]; [by left|by right].
Qed.

(** ** The policy *)

(** Who may exercise the grade [needed] on the a-node [k], whose list is [acl]. *)
Inductive permitted : Principal → AKey → option Acl → Rights → Prop :=
| pm_unrestricted k acl n : permitted Unrestricted k acl n
| pm_master s k acl n : s_uid s = MASTER_UID → permitted (User s) k acl n
| pm_root s acl n : permitted (User s) ROOT acl n
| pm_root_guest pk acl n : grade n ≤ grade RAccess → permitted (Guest pk) ROOT acl n
| pm_no_list s k n : MASTER_GID ∈ s_gids s → permitted (User s) k None n
| pm_owner s k a n : s_uid s = acl_owner_uid a → grade n ≤ grade (acl_owner a) → permitted (User s) k (Some a) n
| pm_group s k a n gid r : s_uid s ≠ acl_owner_uid a → gid ∈ s_gids s → acl_group a !! gid = Some r →
    grade n ≤ grade r → permitted (User s) k (Some a) n
| pm_other s k a n : s_uid s ≠ acl_owner_uid a → (∀ gid, gid ∈ s_gids s → acl_group a !! gid = None) →
    grade n ≤ grade (acl_other a) → permitted (User s) k (Some a) n
| pm_guest pk k a n : grade n ≤ grade RAccess →
    grade n ≤ grade (if GUEST_UID =? acl_owner_uid a then acl_owner a else acl_other a) →
    permitted (Guest pk) k (Some a) n.

Lemma effective_permits s k a n :
  includes (effective_rights (s_uid s) (s_gids s) a) n = true → permitted (User s) k (Some a) n.
Proof.
  intros Hi. apply Z.leb_le in Hi. destruct (effective_spec (s_uid s) (s_gids s) a) as (Ho & Hn & Hg).
  destruct (decide (s_uid s = acl_owner_uid a)) as [E|Hne]; [apply pm_owner; [done|by rewrite <- Ho]|].
  destruct (decide (Exists (λ gid, is_Some (acl_group a !! gid)) (s_gids s))) as [He|He].
  - apply Exists_exists in He as (gid & Hin & x & Hx). destruct (Hg Hne gid x Hin Hx) as [_ (g & Hing & Hr)].
    by eapply pm_group.
  - rewrite <- Forall_Exists_neg, Forall_forall in He.
    assert (∀ gid, gid ∈ s_gids s → acl_group a !! gid = None) as Hno by (intros gid Hin; apply eq_None_not_Some, He, Hin).
    apply pm_other; [done..|]. by rewrite <- Hn.
Qed.

Lemma permits_effective s a n k : s_uid s ≠ MASTER_UID → k ≠ ROOT →
  permitted (User s) k (Some a) n → includes (effective_rights (s_uid s) (s_gids s) a) n = true.
Proof.
  intros Hm Hk Hp. apply Z.leb_le. destruct (effective_spec (s_uid s) (s_gids s) a) as (Ho & Hn & Hg).
  inversion Hp; subst; try done.
  - by rewrite Ho.
  - match goal with Hr : acl_group a !! ?g = Some ?r, Hi : ?g ∈ _ |- _ => destruct (Hg ltac:(done) g r Hi Hr) end. lia.
  - by rewrite Hn.
Qed.

Lemma authorize_decides p k acl n :
  (authorize p k acl n = Ok tt ∧ permitted p k acl n) ∨ (authorize p k acl n = Err denied ∧ ¬ permitted p k acl n).
Proof.
  unfold authorize. destruct p as [|pk|s]; cbn [is_guest andb].
  - left. split; [by destruct (k =? ROOT)|constructor].
  - destruct (Z.ltb_spec (grade RAccess) (grade n)) as [Hlt|Hle].
    { right. split; [done|]. intros Hp. inversion Hp; subst; lia. }
    destruct (Z.eqb_spec k ROOT) as [->|Hk]; [left; split; [done|by constructor]|].
    destruct acl as [a|]; [|right; split; [done|]; intros Hp; by inversion Hp].
    unfold effective_rights. cbn [omap list_omap].
    destruct (includes _ n) eqn:Hi.
    + left. split; [done|]. apply Z.leb_le in Hi. by apply pm_guest.
    + right. split; [done|]. intros Hp. inversion Hp; subst; [done|]. apply Z.leb_gt in Hi. lia.
  - destruct (Z.eqb_spec k ROOT) as [->|Hk]; [left; split; [done|apply pm_root]|].
    unfold is_master. destruct (Z.eqb_spec (s_uid s) MASTER_UID) as [Hm|Hm]; [left; split; [done|by apply pm_master]|].
    destruct acl as [a|].
    + destruct (includes _ n) eqn:Hi; [left; split; [done|by apply effective_permits]|right; split; [done|]].
      intros Hp. apply permits_effective in Hp; [congruence|done..].
    + unfold in_master_group. case_bool_decide; [left; split; [done|by apply pm_no_list]|right; split; [done|]].
      intros Hp. by inversion Hp; subst.
Qed.

Lemma permitted_weaker p k acl n weaker : grade weaker ≤ grade n → permitted p k acl n → permitted p k acl weaker.
Proof. intros Hle Hp. inversion Hp; subst; econstructor; eauto; lia. Qed.

Lemma guest_read_only pk k acl n : permitted (Guest pk) k acl n → grade n ≤ grade RAccess.
Proof. by inversion 1. Qed.

(** C36: The access decision is exactly the policy: unrestricted handles and the master
    user pass everywhere; anybody may access the root, any user may do anything to it;
    an a-node without a list is for the master group; otherwise the owner's grade, else
    the strongest grade of a shared group, else everyone's grade must include the
    needed one.  A grade includes every weaker grade, the guest never gets beyond
    reading whatever a list says, and only the master user, a master-group member or
    the owner may change the owner. *)
Theorem authorize_spec p k acl n :
  ((authorize p k acl n = Ok tt ∧ permitted p k acl n) ∨ (authorize p k acl n = Err denied ∧ ¬ permitted p k acl n)) ∧
  (∀ weaker, grade weaker ≤ grade n → authorize p k acl n = Ok tt → authorize p k acl weaker = Ok tt) ∧
  (is_guest p = true → grade RAccess < grade n → authorize p k acl n = Err denied) ∧
  (∀ a, authorize_chown p a = Ok tt ↔
     p = Unrestricted ∨ ∃ s, p = User s ∧ (s_uid s = MASTER_UID ∨ MASTER_GID ∈ s_gids s ∨ s_uid s = acl_owner_uid a)).
Proof.
  pose proof (authorize_decides p k acl) as Hd. split_and!; [apply Hd| | |].
  - intros weaker Hle Ha. destruct (Hd n) as [[_ Hp]|[E _]]; [|congruence].
    destruct (Hd weaker) as [[E _]|[_ Hn]]; [done|]. by destruct Hn; eapply permitted_weaker.
  - intros Hg Hlt. destruct (Hd n) as [[_ Hp]|[E _]]; [|done]. destruct p; try done. apply guest_read_only in Hp. lia.
  - intros a. unfold authorize_chown. destruct p as [|pk|s]; [naive_solver|naive_solver|].
    unfold is_master, in_master_group. destruct (Z.eqb_spec (s_uid s) MASTER_UID); cbn [orb]; [naive_solver|].
    case_bool_decide; cbn [orb]; [naive_solver|]. destruct (Z.eqb_spec (s_uid s) (acl_owner_uid a)); naive_solver.
Qed.
