(* ===== verification/Integrity.v ===== *)
(** * Cryptographic boundary and integrity tags

    [crypto.rs] and [perm/integrity.rs].  The primitives (BLAKE3, Ed25519, Argon2id,
    XChaCha20-Poly1305) are libraries: class [Crypto], with their documented behaviour
    in [CryptoLaws].  What the program builds on them is modelled: the key wrapping, and
    the messages the value tags and the control tag bind.  Those messages are proved
    unambiguous: no two different values, and no value and control plane, are ever
    hashed as the same bytes. *)
From S2P Require Import Prelude Codec Key.

Class Crypto := {
  (** [Hasher::new()] and [Hasher::new_keyed(&k)], fed the message and finalized. *)
  blake3 : bytes → bytes;
  blake3_keyed : bytes → bytes → bytes;
  (** [SigningKey::from_bytes(seed).verifying_key()], [.sign(msg)]. *)
  ed25519_public : bytes → bytes;
  ed25519_sign : bytes → bytes → bytes;
  (** [VerifyingKey::from_bytes] succeeds; [verify_strict]. *)
  ed25519_valid : bytes → bool;
  ed25519_verify_strict : bytes → bytes → bytes → bool;
  (** [Argon2::hash_password_into] of 32 bytes under the pinned parameters. *)
  argon2id : Z → Z → Z → bytes → bytes → option bytes;
  (** [XChaCha20Poly1305]: key, nonce, text. *)
  aead_encrypt : bytes → bytes → bytes → option bytes;
  aead_decrypt : bytes → bytes → bytes → option bytes;
}.

Class CryptoLaws `{Crypto} := {
  blake3_len msg : blen (blake3 msg) = 32;
  blake3_keyed_len k msg : blen (blake3_keyed k msg) = 32;
  ed25519_public_len seed : blen (ed25519_public seed) = 32;
  ed25519_sign_len seed msg : blen (ed25519_sign seed msg) = 64;
  ed25519_public_valid seed : ed25519_valid (ed25519_public seed) = true;
  ed25519_correct seed msg : ed25519_verify_strict (ed25519_public seed) msg (ed25519_sign seed msg) = true;
  aead_correct k n text c : aead_encrypt k n text = Some c → aead_decrypt k n c = Some text;
}.

(** ** [crypto.rs] *)

Definition KEY_LEN : Z := 32.
Definition SEED_LEN : Z := 32.
Definition PUBKEY_LEN : Z := 32.
Definition SIG_LEN : Z := 64.
Definition SALT_LEN : Z := 16.
Definition NONCE_LEN : Z := 24.
Definition KDF_M_COST : Z := 19 * 1024.
Definition KDF_T_COST : Z := 2.
Definition KDF_P_COST : Z := 1.

Section crypto.
Context `{Crypto}.

(** Random bytes are an input; [None] is a failure of the generator. *)
Definition random_bytes (entropy : option bytes) : res bytes :=
  ok_or entropy (CannotAccess "secure RNG failed: {e}").

Definition public_key (seed : bytes) : bytes := ed25519_public seed.

Definition verify (pubkey msg sig : bytes) : bool :=
  if ed25519_valid pubkey then ed25519_verify_strict pubkey msg sig else false.

Definition derive_kek (password salt : bytes) : res bytes :=
  ok_or (argon2id KDF_M_COST KDF_T_COST KDF_P_COST password salt) (CannotAccess "key derivation failed: {e}").

Definition wrap_key (salt nonce : option bytes) (password key : bytes) : res ((bytes * bytes) * bytes) :=
  let? salt := random_bytes salt in
  let? nonce := random_bytes nonce in
  let? kek := derive_kek password salt in
  let? ciphertext := ok_or (aead_encrypt kek nonce key) (CannotAccess "wrapping the integrity key failed") in
  Ok ((salt, nonce), ciphertext).

Definition unwrap_key (password salt nonce ciphertext : bytes) : res bytes :=
  let? kek := derive_kek password salt in
  if negb (blen nonce =? NONCE_LEN) then Err AuthenticationFailed
  else ok_or (aead_decrypt kek nonce ciphertext) AuthenticationFailed.

(** ** [perm/integrity.rs] *)

Definition MAC_LEN : Z := 32.
Definition DOMAIN_VALUE : Z := 1.
Definition DOMAIN_CONTROL : Z := 2.

(** [k.copy_from_slice(key)] panics unless the key has the length of the array. *)
Definition keyed (key : bytes) (msg : bytes) : res bytes :=
  if blen key =? MAC_LEN then Ok (blake3_keyed key msg) else Panic.

Definition field (msg bs : bytes) : bytes := (msg ++ to_be 8 (as_u64 (blen bs))) ++ bs.

Definition absorb_value (table : bytes) (akey : AKey) (blob acl : bytes) : bytes :=
  let msg := [DOMAIN_VALUE] in
  let msg := field msg table in
  let msg := msg ++ into_bytes akey in
  let msg := field msg blob in
  field msg acl.

Definition mac_value (key table : bytes) (akey : AKey) (blob acl : bytes) : res bytes :=
  keyed key (absorb_value table akey blob acl).

Definition value_digest (table : bytes) (akey : AKey) (blob acl : bytes) : bytes :=
  blake3 (absorb_value table akey blob acl).

Definition sign_value (seed table : bytes) (akey : AKey) (blob acl : bytes) : bytes :=
  ed25519_sign seed (value_digest table akey blob acl).

Definition verify_value (pubkey table : bytes) (akey : AKey) (blob acl sig : bytes) : bool :=
  verify pubkey (value_digest table akey blob acl) sig.

Definition control_message (epoch : Z) (users groups pubkey : bytes) : bytes :=
  let msg := [DOMAIN_CONTROL] ++ to_be 8 epoch in
  let msg := field msg users in
  let msg := field msg groups in
  field msg pubkey.

Definition mac_control (key : bytes) (epoch : Z) (users groups pubkey : bytes) : res bytes :=
  keyed key (control_message epoch users groups pubkey).

(** [for (x, y) in a.iter().zip(b.iter()) { diff |= x ^ y; }] *)
Definition ct_eq (a b : bytes) : bool :=
  if negb (blen a =? blen b) then false
  else fold_left (λ diff xy, Z.lor diff (Z.lxor xy.1 xy.2)) (zip a b) 0 =? 0.
End crypto.

(** ** Lemmas *)

Lemma ct_eq_loop l : ∀ d, fold_left (λ diff xy, Z.lor diff (Z.lxor xy.1 xy.2)) l d = 0 ↔ d = 0 ∧ Forall (λ xy, xy.1 = xy.2) l.
Proof.
  induction l as [|[x y] l IH]; intros d; cbn [fold_left fst snd]; [split; [by split|by intros []]|].
  rewrite IH, Z.lor_eq_0_iff, Z.lxor_eq_0_iff, Forall_cons. cbn. tauto.
Qed.

Lemma ct_eq_spec a b : ct_eq a b = bool_decide (a = b).
Proof.
  unfold ct_eq. destruct (Z.eqb_spec (blen a) (blen b)) as [El|Hne]; cbn [negb].
  - apply eq_true_iff_eq. rewrite bool_decide_eq_true, Z.eqb_eq, ct_eq_loop. split.
    + intros [_ Hz]. revert b El Hz. induction a as [|x a IH]; intros [|y b] El Hz; try done.
      cbn [zip zip_with] in Hz. apply Forall_cons in Hz as [Hxy Hz]. cbn in Hxy. subst y. f_equal.
      apply IH; [|done]. rewrite !blen_cons in El. lia.
    + intros ->. split; [done|]. clear El. induction b as [|y b IH]; [constructor|]. cbn [zip zip_with]. by constructor.
  - rewrite bool_decide_false; [done|]. congruence.
Qed.

Lemma to_be_inj n a b : 0 ≤ a < 256 ^ Z.of_nat n → 0 ≤ b < 256 ^ Z.of_nat n → to_be n a = to_be n b → a = b.
Proof. intros Ha Hb E. apply (f_equal of_be) in E. by rewrite !of_be_to_be_id in E. Qed.

(** A length-delimited field at the front determines itself and the rest. *)
Lemma field_inj a b u v : blen a < 2 ^ 64 → blen b < 2 ^ 64 →
  (to_be 8 (as_u64 (blen a)) ++ a) ++ u = (to_be 8 (as_u64 (blen b)) ++ b) ++ v → a = b ∧ u = v.
Proof.
  intros Ha Hb. unfold as_u64. pose proof (blen_nonneg a). pose proof (blen_nonneg b). rewrite !Z.mod_small by lia.
  rewrite <- !app_assoc. intros E. apply app_inj_1 in E as [El E]; [|by rewrite !length_to_be].
  apply to_be_inj in El; [|change (256 ^ Z.of_nat 8) with (2 ^ 64); lia..].
  apply app_inj_1 in E; [done|]. unfold blen in El. lia.
Qed.

Definition fits64 (bs : bytes) : Prop := blen bs < 2 ^ 64.

Lemma field_eq msg bs : field msg bs = msg ++ (to_be 8 (as_u64 (blen bs)) ++ bs).
Proof. unfold field. by rewrite <- app_assoc. Qed.

Lemma value_message_inj t1 k1 b1 a1 t2 k2 b2 a2 :
  Forall fits64 [t1; b1; a1; t2; b2; a2] → akey_ok k1 → akey_ok k2 →
  absorb_value t1 k1 b1 a1 = absorb_value t2 k2 b2 a2 → t1 = t2 ∧ k1 = k2 ∧ b1 = b2 ∧ a1 = a2.
Proof.
  rewrite !Forall_cons. intros (Ht1 & Hb1 & Ha1 & Ht2 & Hb2 & Ha2 & _) Hk1 Hk2.
  unfold absorb_value. rewrite !field_eq, <- !app_assoc. cbn [app]. intros E. apply (f_equal tail) in E. cbn [tail] in E.
  rewrite !(app_assoc (to_be 8 (as_u64 _))) in E.
  apply field_inj in E as [-> E]; [|done..]. unfold into_bytes in E.
  apply app_inj_1 in E as [Ek E]; [|by rewrite !length_to_be]. apply to_be_inj in Ek; [|done..].
  apply field_inj in E as [-> E]; [|done..].
  rewrite <- (app_nil_r (to_be 8 (as_u64 (blen a1)) ++ a1)), <- (app_nil_r (to_be 8 (as_u64 (blen a2)) ++ a2)) in E.
  by apply field_inj in E as [-> _].
Qed.

Lemma control_message_inj e1 u1 g1 p1 e2 u2 g2 p2 :
  Forall fits64 [u1; g1; p1; u2; g2; p2] → unsigned_ok 64 e1 → unsigned_ok 64 e2 →
  control_message e1 u1 g1 p1 = control_message e2 u2 g2 p2 → e1 = e2 ∧ u1 = u2 ∧ g1 = g2 ∧ p1 = p2.
Proof.
  rewrite !Forall_cons. intros (Hu1 & Hg1 & Hp1 & Hu2 & Hg2 & Hp2 & _) He1 He2.
  unfold control_message. rewrite !field_eq, <- !app_assoc. cbn [app]. intros E. apply (f_equal tail) in E. cbn [tail] in E.
  apply app_inj_1 in E as [Ee E]; [|by rewrite !length_to_be]. apply to_be_inj in Ee; [|done..].
  rewrite !(app_assoc (to_be 8 (as_u64 _))) in E.
  apply field_inj in E as [-> E]; [|done..]. apply field_inj in E as [-> E]; [|done..].
  rewrite <- (app_nil_r (to_be 8 (as_u64 (blen p1)) ++ p1)), <- (app_nil_r (to_be 8 (as_u64 (blen p2)) ++ p2)) in E.
  by apply field_inj in E as [-> _].
Qed.

Lemma domains_differ t k b a e u g p : absorb_value t k b a ≠ control_message e u g p.
Proof. unfold absorb_value, control_message. rewrite !field_eq, <- !app_assoc. cbn [app]. intros E. by apply (f_equal (hd 0)) in E. Qed.

Section tags.
Context `{Crypto} `{!CryptoLaws}.

Lemma keyed_Ok key msg : blen key = KEY_LEN → keyed key msg = Ok (blake3_keyed key msg).
Proof. unfold keyed. by intros ->. Qed.

Lemma mac_value_len key t k b a tag : mac_value key t k b a = Ok tag → blen tag = MAC_LEN.
Proof. unfold mac_value, keyed. case_match; [|done]. intros [= <-]. apply blake3_keyed_len. Qed.

Lemma sign_value_len seed t k b a : blen (sign_value seed t k b a) = 64.
Proof. apply ed25519_sign_len. Qed.

Lemma sign_verifies seed t k b a : verify_value (public_key seed) t k b a (sign_value seed t k b a) = true.
Proof. unfold verify_value, verify, public_key, sign_value. by rewrite ed25519_public_valid, ed25519_correct. Qed.

End tags.

(** Toy primitives with those laws: they only serve to evaluate the development. *)
Module CryptoModel.
Definition mix (bs : bytes) : Z := fold_left (λ acc b, (acc * 257 + b + 1) mod 2 ^ 61) bs 7.
#[export] Instance toy_crypto : Crypto := {|
  blake3 msg := to_be 32 (mix msg);
  blake3_keyed k msg := to_be 32 (mix (k ++ msg));
  ed25519_public seed := to_be 32 (mix seed);
  ed25519_sign seed msg := to_be 32 (mix seed) ++ to_be 32 (mix msg);
  ed25519_valid _ := true;
  ed25519_verify_strict pk msg sig := bool_decide (sig = pk ++ to_be 32 (mix msg));
  argon2id m t p password salt := Some (to_be 32 (mix (password ++ [m mod 256; t; p] ++ salt)));
  aead_encrypt k n text := Some (k ++ n ++ text);
  aead_decrypt k n c := if bool_decide (take (length (k ++ n)) c = k ++ n) then Some (drop (length (k ++ n)) c) else None
|}.
#[export] Instance toy_laws : CryptoLaws.
Proof.
  split; intros; cbn -[to_be]; rewrite ?blen_app, ?blen_to_be; try done.
  - by rewrite bool_decide_true.
  - match goal with E : aead_encrypt _ _ _ = _ |- _ => injection E as <- end.
    rewrite app_assoc, take_app_length, drop_app_length. by rewrite bool_decide_true.
Qed.
End CryptoModel.
