(* ===== verification/Inode.v ===== *)
(** * Inodes

    [inode/]: the per-a-node metadata of the builds with timestamps and permissions: a
    blob of tagged sections (timestamps, access-control list, integrity tag, signature),
    the unknown ones copied through, and the reads and updates of the [$inodes] table.
    The table is proved to be a finite map of inodes, each operation an update of one
    section of one entry. *)
From S2P Require Import Prelude BTree Codec IndexDef Key Engine Acl Integrity.

(** ** [underlying_timestamps.rs] *)

Record UnderlyingTimestamps := mkTimes { t_created : Z; t_modified : Z; t_accessed : Z }.

(** [u64 as i64] *)
Definition as_i64 (u : Z) : Z := to_signed 64 u.

Definition times_decode_at (r : Reader) : res (UnderlyingTimestamps * Reader) :=
  let? '(created, r) := Reader_u64 r in
  let? '(modified, r) := Reader_u64 r in
  let? '(accessed, r) := Reader_u64 r in
  Ok (mkTimes (as_i64 created) (as_i64 modified) (as_i64 accessed), r).

Definition times_decode (body : bytes) : res UnderlyingTimestamps :=
  let? '(t, _) := times_decode_at (Reader_new body) in Ok t.

Definition times_encode (t : UnderlyingTimestamps) : bytes :=
  to_be 8 (t_created t) ++ to_be 8 (t_modified t) ++ to_be 8 (t_accessed t).

Definition set_accessed (when : Z) (t : UnderlyingTimestamps) : UnderlyingTimestamps :=
  mkTimes (t_created t) (t_modified t) when.

(** [datetime.rs], [NodeTimestamps]: created, modified, accessed. *)
Definition NodeTimestamps (DateTime : Type) : Type := (DateTime * DateTime) * DateTime.

(** [chrono]'s conversion is a parameter. *)
Definition into_node_times {DateTime} (from_timestamp_millis : Z → option DateTime) (t : UnderlyingTimestamps)
    : res (NodeTimestamps DateTime) :=
  let to_dt millis := ok_or (from_timestamp_millis millis) (Corrupt "out-of-range inode timestamp") in
  let? created := to_dt (t_created t) in
  let? modified := to_dt (t_modified t) in
  let? accessed := to_dt (t_accessed t) in
  Ok ((created, modified), accessed).

(** ** [node.rs] *)

Definition SECTION_TIMESTAMPS : Z := 0.
Definition SECTION_ACL : Z := 1.
Definition SECTION_MAC : Z := 2.
Definition SECTION_SIG : Z := 3.

Record Inode := mkInode {
  timestamps : option UnderlyingTimestamps;
  acl : option Acl;
  mac : option bytes;
  sig : option bytes;
  extra : list (Z * bytes);
}.

Definition default_inode : Inode := mkInode None None None None [].

Definition set_timestamps (t : UnderlyingTimestamps) (i : Inode) := mkInode (Some t) (acl i) (mac i) (sig i) (extra i).
Definition inode_set_acl (a : Acl) (i : Inode) := mkInode (timestamps i) (Some a) (mac i) (sig i) (extra i).
Definition set_mac (m : bytes) (i : Inode) := mkInode (timestamps i) (acl i) (Some m) (sig i) (extra i).
Definition set_sig (s : bytes) (i : Inode) := mkInode (timestamps i) (acl i) (mac i) (Some s) (extra i).
Definition push_extra (tag : Z) (body : bytes) (i : Inode) :=
  mkInode (timestamps i) (acl i) (mac i) (sig i) (extra i ++ [(tag, body)]).

(** [body.try_into()] of an array of length [n]. *)
Definition try_into_array (n : Z) (body : bytes) (e : AdbError) : res bytes :=
  if blen body =? n then Ok body else Err e.

Definition decode_section (tag : Z) (body : bytes) (i : Inode) : res Inode :=
  if tag =? SECTION_TIMESTAMPS then let? t := times_decode body in Ok (set_timestamps t i)
  else if tag =? SECTION_ACL then let? a := acl_decode body in Ok (inode_set_acl a i)
  else if tag =? SECTION_MAC then
    let? m := try_into_array MAC_LEN body (Corrupt "inode MAC section has a bad length") in Ok (set_mac m i)
  else if tag =? SECTION_SIG then
    let? s := try_into_array SIG_LEN body (Corrupt "inode signature section has a bad length") in Ok (set_sig s i)
  else Ok (push_extra tag body i).

Fixpoint decode_sections (n : nat) (i : Inode) (r : Reader) : res (Inode * Reader) :=
  match n with
  | O => Ok (i, r)
  | S n =>
      let? '(tag, r) := Reader_u8 r in
      let? '(body, r) := Reader_bytes r in
      let? i := decode_section tag body i in
      decode_sections n i r
  end.

Definition inode_decode (bs : bytes) : res Inode :=
  let? '(count, r) := Reader_u8 (Reader_new bs) in
  let? '(i, _) := decode_sections (Z.to_nat count) default_inode r in
  Ok i.

Definition sections (i : Inode) : list (Z * bytes) :=
  let sections := match timestamps i with Some times => [(SECTION_TIMESTAMPS, times_encode times)] | None => [] end in
  let sections := sections ++ match acl i with Some acl => [(SECTION_ACL, acl_encode acl)] | None => [] end in
  let sections := sections ++ match mac i with Some mac => [(SECTION_MAC, mac)] | None => [] end in
  let sections := sections ++ match sig i with Some sig => [(SECTION_SIG, sig)] | None => [] end in
  sections ++ extra i.

(** [sections.len() as u8] *)
Definition inode_encode (i : Inode) : bytes :=
  fold_left (λ out s, put_bytes (out ++ [s.1]) s.2) (sections i) [blen (sections i) mod 256].

(** ** [functions.rs] *)

Definition inode_key (table : bytes) (akey : AKey) : bytes := put_bytes [] table ++ into_bytes akey.

Section functions.
Context {I : Type} `{OrdKV I}.
Implicit Type i : I.

(** [match inodes.get(key)? { Some(guard) => Inode::decode(..)?, None => Inode::default() }] *)
Definition load_inode (key : bytes) i : res Inode :=
  match kv_get i key with Some bs => inode_decode bs | None => Ok default_inode end.

(** [created] and [accessed] are kept when known. *)
Definition stamped (now : Z) (x : Inode) : Inode :=
  let '(created, accessed) := match timestamps x with Some t => (t_created t, t_accessed t) | None => (now, now) end in
  set_timestamps (mkTimes created now accessed) x.

Definition touch (table : bytes) (akey : AKey) (now : Z) : SM I unit :=
  let key := inode_key table akey in
  let! inode := asks (load_inode key) in
  modify (λ i, kv_insert i key (inode_encode (stamped now inode))).

Definition acl_bytes_of (x : Inode) : bytes := match acl x with Some a => acl_encode a | None => [] end.

Definition stamp_and_seal (table : bytes) (akey : AKey) (now : Z) (owner : option Z)
    (seal : bytes → res (bytes * bytes)) : SM I unit :=
  let key := inode_key table akey in
  let! inode := asks (load_inode key) in
  let inode := stamped now inode in
  let inode :=
    match owner, acl inode with
    | Some owner, None => inode_set_acl (default_for owner) inode
    | _, _ => inode
    end in
  let! '(mac, sig) := asks (λ _, seal (acl_bytes_of inode)) in
  let inode := set_sig sig (set_mac mac inode) in
  modify (λ i, kv_insert i key (inode_encode inode)).

Definition inode_forget (table : bytes) (akey : AKey) : SM I unit :=
  modify (λ i, kv_remove i (inode_key table akey)).

Definition bump_access (table : bytes) (akey : AKey) (when : Z) : SM I unit :=
  let key := inode_key table akey in
  let! guard := asks (λ i, Ok (kv_get i key)) in
  match guard with
  | None => sret tt
  | Some bs =>
      let! inode := asks (λ _, inode_decode bs) in
      match timestamps inode with
      | Some times =>
          if t_accessed times <? when then
            modify (λ i, kv_insert i key (inode_encode (set_timestamps (set_accessed when times) inode)))
          else sret tt
      | None => modify (λ i, kv_insert i key (inode_encode (set_timestamps (mkTimes when when when) inode)))
      end
  end.

Definition read_timestamps {DateTime} (from_timestamp_millis : Z → option DateTime) (table : bytes) (akey : AKey) i
    : res (option (NodeTimestamps DateTime)) :=
  match kv_get i (inode_key table akey) with
  | None => Ok None
  | Some bs =>
      let? inode := inode_decode bs in
      match timestamps inode with
      | Some times => let? t := into_node_times from_timestamp_millis times in Ok (Some t)
      | None => Ok None
      end
  end.

Definition read_acl (table : bytes) (akey : AKey) i : res (option Acl) :=
  match kv_get i (inode_key table akey) with
  | None => Ok None
  | Some bs => let? inode := inode_decode bs in Ok (acl inode)
  end.

Definition Meta : Type := (option Acl * option bytes) * option bytes.

Definition decode_meta (bs : bytes) : res Meta :=
  let? inode := inode_decode bs in Ok ((acl inode, mac inode), sig inode).

Definition read_meta (table : bytes) (akey : AKey) i : res Meta :=
  match kv_get i (inode_key table akey) with
  | None => Ok ((None, None), None)
  | Some bs => decode_meta bs
  end.

Definition read_inode_bytes (table : bytes) (akey : AKey) i : res (option bytes) :=
  Ok (kv_get i (inode_key table akey)).

Definition set_default_acl (table : bytes) (akey : AKey) (owner : Z) : SM I unit :=
  let key := inode_key table akey in
  let! inode := asks (load_inode key) in
  match acl inode with
  | Some _ => sret tt
  | None => modify (λ i, kv_insert i key (inode_encode (inode_set_acl (default_for owner) inode)))
  end.

(** [set_acl], [seal_mac] and [seal_sig] replace one section. *)
Definition set_acl (table : bytes) (akey : AKey) (a : Acl) : SM I unit :=
  let key := inode_key table akey in
  let! inode := asks (load_inode key) in
  modify (λ i, kv_insert i key (inode_encode (inode_set_acl a inode))).

Definition seal_mac (table : bytes) (akey : AKey) (mac : bytes) : SM I unit :=
  let key := inode_key table akey in
  let! inode := asks (load_inode key) in
  modify (λ i, kv_insert i key (inode_encode (set_mac mac inode))).

Definition seal_sig (table : bytes) (akey : AKey) (sig : bytes) : SM I unit :=
  let key := inode_key table akey in
  let! inode := asks (load_inode key) in
  modify (λ i, kv_insert i key (inode_encode (set_sig sig inode))).

(** The pass over the table collects the rewritten blobs, then inserts them. *)
Fixpoint strip_updates (gid : Z) (items : list (bytes * bytes)) (updates : list (bytes * bytes))
    : res (list (bytes * bytes)) :=
  match items with
  | [] => Ok updates
  | (key, value) :: items =>
      let? inode := inode_decode value in
      strip_updates gid items
        (match acl inode with
         | Some a =>
             if has_group gid a then updates ++ [(key, inode_encode (inode_set_acl (acl_remove_group gid a) inode))]
             else updates
         | None => updates
         end)
  end.

Definition strip_group (gid : Z) : SM I unit :=
  let! updates := asks (λ i, strip_updates gid (kv_range i []) []) in
  for_each updates (λ kv, modify (λ i, kv_insert i kv.1 kv.2)).
End functions.

(** ** The stored form *)

Definition times_ok (t : UnderlyingTimestamps) : Prop :=
  signed_ok 64 (t_created t) ∧ signed_ok 64 (t_modified t) ∧ signed_ok 64 (t_accessed t).

(** An unknown section of another build: its tag is none of the four known here. *)
Definition extra_ok (s : Z * bytes) : Prop := 4 ≤ s.1 < 256 ∧ blen s.2 < 2 ^ 32.

Definition opt_ok {A} (P : A → Prop) (o : option A) : Prop := match o with Some a => P a | None => True end.

Record inode_ok (x : Inode) : Prop := {
  io_times : opt_ok times_ok (timestamps x);
  io_acl : opt_ok acl_ok (acl x);
  io_mac : opt_ok (λ m, blen m = MAC_LEN) (mac x);
  io_sig : opt_ok (λ s, blen s = SIG_LEN) (sig x);
  io_extra : Forall extra_ok (extra x);
  io_count : blen (extra x) ≤ 251;
}.

Lemma signed_of_be z : signed_ok 64 z → as_i64 (of_be (to_be 8 z)) = z.
Proof.
  intros Hz. rewrite of_be_to_be. unfold as_i64, to_signed. change (256 ^ Z.of_nat 8) with (2 ^ 64).
  unfold signed_ok in Hz. change (64 - 1) with 63 in *. destruct (Z.lt_ge_cases z 0).
  - assert (z mod 2 ^ 64 = z + 2 ^ 64) as ->.
    { rewrite <- (Z.mod_small (z + 2 ^ 64) (2 ^ 64)) by lia. by rewrite <- (Z.mul_1_l (2 ^ 64)) at 2; rewrite Z.mod_add by lia. }
    destruct (Z.ltb_spec (z + 2 ^ 64) (2 ^ 63)); lia.
  - rewrite Z.mod_small by lia. destruct (Z.ltb_spec z (2 ^ 63)); lia.
Qed.

Lemma reads_i64 z : signed_ok 64 z → reads Reader_u64 (to_be 8 z) (of_be (to_be 8 z)).
Proof.
  intros Hz pre post Hb. unfold Reader_u64. rewrite (reads_take (to_be 8 z)) by (rewrite ?blen_to_be; done). done.
Qed.

Lemma reads_times t : times_ok t → reads times_decode_at (times_encode t) t.
Proof.
  intros (H1 & H2 & H3). unfold times_decode_at, times_encode.
  apply (reads_bind Reader_u64) with (x := of_be (to_be 8 (t_created t))); [by apply reads_i64|].
  apply (reads_bind Reader_u64) with (x := of_be (to_be 8 (t_modified t))); [by apply reads_i64|].
  pose proof (reads_map_ret _ (λ a, mkTimes (t_created t) (t_modified t) (as_i64 a)) _ _ (reads_i64 _ H3)) as Hr.
  cbn beta in Hr. rewrite !signed_of_be in * by done. by destruct t.
Qed.

(** A reader run on exactly the bytes it expects. *)
Lemma reads_whole {A} (f : Reader → res (A * Reader)) enc x :
  reads f enc x → blen enc ≤ USIZE_MAX → f (Reader_new enc) = Ok (x, mkReader enc (blen enc)).
Proof.
  intros Hf Hb. specialize (Hf [] []). rewrite app_nil_r in Hf. cbn [app] in Hf.
  change (@blen Z []) with 0 in Hf. by apply Hf.
Qed.

Lemma times_roundtrip t : times_ok t → times_decode (times_encode t) = Ok t.
Proof.
  intros Ht. unfold times_decode. rewrite (reads_whole _ _ _ (reads_times t Ht)); [done|].
  unfold times_encode. by rewrite !blen_app, !blen_to_be.
Qed.

Fixpoint fold_sections (l : list (Z * bytes)) (x : Inode) : res Inode :=
  match l with
  | [] => Ok x
  | s :: l => let? x := decode_section s.1 s.2 x in fold_sections l x
  end.

Lemma fold_sections_app l1 l2 : ∀ x, fold_sections (l1 ++ l2) x = rbind (fold_sections l1 x) (fold_sections l2).
Proof.
  induction l1 as [|s l1 IH]; intros x; cbn [app fold_sections]; [done|].
  destruct (decode_section s.1 s.2 x); cbn [rbind]; [apply IH|done..].
Qed.

Definition section_bytes (s : Z * bytes) : bytes := [s.1] ++ (to_be 4 (blen s.2) ++ s.2).
Definition section_ok (s : Z * bytes) : Prop := byte_ok s.1 ∧ blen s.2 < 2 ^ 32.

Lemma reads_sections l : ∀ x y, Forall section_ok l → fold_sections l x = Ok y →
  reads (decode_sections (length l) x) (concat (map section_bytes l)) y.
Proof.
  induction l as [|s l IH]; intros x y Hl Hf; cbn [decode_sections length map concat fold_sections] in *.
  { injection Hf as ->. apply reads_ret. }
  apply Forall_cons in Hl as [[Ht Hs] Hl]. unfold section_bytes at 1. rewrite <- !app_assoc.
  apply (reads_bind Reader_u8) with (x := s.1); [apply reads_u8|]. rewrite app_assoc.
  apply (reads_bind Reader_bytes) with (x := s.2); [by apply reads_bytes|].
  destruct (decode_section s.1 s.2 x) as [x1|e| |]; cbn [rbind] in *; [by apply IH|done..].
Qed.

Lemma fold_extra l : ∀ x, Forall extra_ok l →
  fold_sections l x = Ok (mkInode (timestamps x) (acl x) (mac x) (sig x) (extra x ++ l)).
Proof.
  induction l as [|[tag body] l IH]; intros x Hl; cbn [fold_sections fst snd].
  { rewrite app_nil_r. by destruct x. }
  apply Forall_cons in Hl as [[Ht _] Hl]. cbn [fst] in Ht. unfold decode_section, SECTION_TIMESTAMPS, SECTION_ACL, SECTION_MAC, SECTION_SIG.
  destruct (Z.eqb_spec tag 0); [lia|]. destruct (Z.eqb_spec tag 1); [lia|].
  destruct (Z.eqb_spec tag 2); [lia|]. destruct (Z.eqb_spec tag 3); [lia|].
  cbn [rbind]. rewrite IH by done. unfold push_extra. cbn [timestamps acl mac sig extra]. by rewrite <- app_assoc.
Qed.

Lemma sections_fold x : inode_ok x → fold_sections (sections x) default_inode = Ok x.
Proof.
  intros [Ht Ha Hm Hs He _]. unfold sections. rewrite !fold_sections_app.
  assert (fold_sections match timestamps x with Some times => [(SECTION_TIMESTAMPS, times_encode times)] | None => [] end
    default_inode = Ok (mkInode (timestamps x) None None None [])) as ->.
  { destruct (timestamps x) as [t|]; [|done]. cbn -[times_decode times_encode]. by rewrite times_roundtrip. }
  cbn [rbind].
  assert (∀ t, fold_sections match acl x with Some acl => [(SECTION_ACL, acl_encode acl)] | None => [] end
    (mkInode t None None None []) = Ok (mkInode t (acl x) None None [])) as ->.
  { intros t. destruct (acl x) as [a|]; [|done]. cbn -[acl_decode acl_encode]. by rewrite acl_roundtrip. }
  cbn [rbind].
  assert (∀ t a, fold_sections match mac x with Some mac => [(SECTION_MAC, mac)] | None => [] end
    (mkInode t a None None []) = Ok (mkInode t a (mac x) None [])) as ->.
  { intros t a. destruct (mac x) as [m|]; [|done]. cbn in Hm. cbn -[blen]. unfold try_into_array. by rewrite Hm. }
  cbn [rbind].
  assert (∀ t a m, fold_sections match sig x with Some sig => [(SECTION_SIG, sig)] | None => [] end
    (mkInode t a m None []) = Ok (mkInode t a m (sig x) [])) as ->.
  { intros t a m. destruct (sig x) as [s|]; [|done]. cbn in Hs. cbn -[blen]. unfold try_into_array. by rewrite Hs. }
  cbn [rbind]. rewrite fold_extra by done. by destruct x.
Qed.

Lemma sections_ok x : inode_ok x → Forall section_ok (sections x).
Proof.
  intros [Ht Ha Hm Hs He _]. unfold sections. rewrite !Forall_app. split_and!.
  - destruct (timestamps x) as [t|]; [|constructor]. apply Forall_singleton. split; [done|].
    cbn [snd]. unfold times_encode. by rewrite !blen_app, !blen_to_be.
  - destruct (acl x) as [a|]; [|constructor]. apply Forall_singleton. split; [done|]. cbn [snd opt_ok] in *.
    rewrite acl_encode_eq, acl_bytes_length by done. apply Ha.
  - destruct (mac x) as [m|]; [|constructor]. apply Forall_singleton. cbn in Hm. split; [done|]. cbn [snd]. by rewrite Hm.
  - destruct (sig x) as [s|]; [|constructor]. apply Forall_singleton. cbn in Hs. split; [done|]. cbn [snd]. by rewrite Hs.
  - eapply Forall_impl; [exact He|]. intros s [? ?]. split; [|done]. unfold byte_ok. lia.
Qed.

Lemma sections_count x : inode_ok x → blen (sections x) ≤ 255.
Proof.
  intros [_ _ _ _ _ Hc]. unfold sections. rewrite !blen_app.
  destruct (timestamps x), (acl x), (mac x), (sig x); cbn [blen length]; unfold blen in *; cbn [length]; lia.
Qed.

Lemma sections_size l : Forall section_ok l → blen (concat (map section_bytes l)) ≤ blen l * 2 ^ 33.
Proof.
  induction 1 as [|s l [_ Hs] _ IH]; cbn [map concat]; [done|]. unfold section_bytes at 1.
  rewrite !blen_app, blen_to_be, (blen_cons s l). change (blen [s.1]) with 1. lia.
Qed.

Lemma inode_encode_eq x : inode_ok x →
  inode_encode x = [blen (sections x)] ++ concat (map section_bytes (sections x)).
Proof.
  intros Hx. unfold inode_encode. pose proof (sections_count x Hx). pose proof (blen_nonneg (sections x)).
  rewrite Z.mod_small by lia. pose proof (sections_ok x Hx) as Hok. clear -Hok. generalize [blen (sections x)]. revert Hok.
  induction 1 as [|s l [_ Hs] _ IH]; intros out; cbn [fold_left map concat]; [by rewrite app_nil_r|].
  rewrite put_bytes_eq, IH by done. unfold section_bytes at 2. by rewrite <- !app_assoc.
Qed.

Lemma inode_roundtrip_lemma x : inode_ok x → inode_decode (inode_encode x) = Ok x.
Proof.
  intros Hx. pose proof (sections_count x Hx) as Hc. rewrite inode_encode_eq by done. unfold inode_decode.
  assert (reads (λ r, let? '(count, r) := Reader_u8 r in decode_sections (Z.to_nat count) default_inode r)
    ([blen (sections x)] ++ concat (map section_bytes (sections x))) x) as Hr.
  { apply (reads_bind Reader_u8) with (x := blen (sections x)); [apply reads_u8|]. unfold blen at 1. rewrite Nat2Z.id.
    apply reads_sections; [by apply sections_ok|by apply sections_fold]. }
  apply reads_whole in Hr.
  - destruct (Reader_u8 _) as [[n r]|e| |]; cbn [rbind] in *; [|done..]. by rewrite Hr.
  - pose proof (sections_size _ (sections_ok x Hx)). rewrite blen_app. change (blen [blen (sections x)]) with 1.
    unfold USIZE_MAX. lia.
Qed.

(** ** The table as a map of inodes *)

Abbreviation Inodes := (gmap (bytes * Z) Inode).

Definition key_ok (k : bytes * Z) : Prop := blen k.1 < 2 ^ 32 ∧ akey_ok k.2.

Lemma inode_key_inj j k : key_ok j → key_ok k → inode_key j.1 j.2 = inode_key k.1 k.2 → j = k.
Proof.
  intros [Hj1 Hj2] [Hk1 Hk2]. unfold inode_key, into_bytes. rewrite !put_bytes_eq by done. cbn [app].
  rewrite <- !app_assoc. intros E. apply app_inj_1 in E as [El E]; [|by rewrite !length_to_be].
  assert (blen j.1 = blen k.1) as Eb.
  { apply (f_equal of_be) in El. pose proof (blen_nonneg j.1). pose proof (blen_nonneg k.1).
    rewrite !of_be_to_be_id in El by (change (256 ^ Z.of_nat 4) with (2 ^ 32); lia). done. }
  apply app_inj_1 in E as [Et Ek]; [|unfold blen in Eb; lia].
  apply (f_equal of_be) in Ek. rewrite !of_be_to_be_id in Ek by done. destruct j, k. cbn in *. congruence.
Qed.

Section table.
Context {I : Type} `{OrdKV I} `{!OrdKVLaws I}.
Implicit Types (i : I) (m : Inodes) (k : bytes * Z).

Record holds_inodes i m : Prop := {
  hi_some k x : m !! k = Some x → key_ok k ∧ inode_ok x ∧
    ∃ bs, kv_get i (inode_key k.1 k.2) = Some bs ∧ inode_decode bs = Ok x;
  hi_only key bs : kv_get i key = Some bs → ∃ k, is_Some (m !! k) ∧ key = inode_key k.1 k.2;
}.

Lemma holds_get i m k : holds_inodes i m → key_ok k →
  match m !! k with
  | Some x => inode_ok x ∧ ∃ bs, kv_get i (inode_key k.1 k.2) = Some bs ∧ inode_decode bs = Ok x
  | None => kv_get i (inode_key k.1 k.2) = None
  end.
Proof.
  intros [Hs Ho] Hk. destruct (m !! k) as [x|] eqn:E; [by apply (Hs k x)|].
  destruct (kv_get i (inode_key k.1 k.2)) as [bs|] eqn:Eg; [|done].
  destruct (Ho _ _ Eg) as (j & [x Hx] & Ek). apply inode_key_inj in Ek as ->; [congruence|done|]. by apply (Hs j x).
Qed.

Lemma holds_load i m k : holds_inodes i m → key_ok k →
  load_inode (inode_key k.1 k.2) i = Ok (default default_inode (m !! k)).
Proof.
  intros Hh Hk. unfold load_inode. pose proof (holds_get i m k Hh Hk) as Hg. destruct (m !! k) as [x|].
  - by destruct Hg as (_ & bs & -> & ->).
  - by rewrite Hg.
Qed.

Lemma holds_insert i m k x : holds_inodes i m → key_ok k → inode_ok x →
  holds_inodes (kv_insert i (inode_key k.1 k.2) (inode_encode x)) (<[k := x]> m).
Proof.
  intros [Hs Ho] Hk Hx. split.
  - intros j y. destruct (decide (j = k)) as [->|Hne].
    + rewrite lookup_insert_eq. intros [= <-]. split_and!; [done|done|]. eexists.
      rewrite kv_get_insert, decide_True by done. split; [done|]. by apply inode_roundtrip_lemma.
    + rewrite lookup_insert_ne by done. intros Hj. destruct (Hs j y Hj) as (Hkj & Hy & bs & Hg & Hd). split_and!; [done|done|].
      exists bs. rewrite kv_get_insert, decide_False; [done|]. intros Ek. by apply inode_key_inj in Ek.
  - intros key bs. rewrite kv_get_insert. case_decide as E; [intros [= <-]|intros Hg].
    + exists k. rewrite lookup_insert_eq. eauto.
    + destruct (Ho _ _ Hg) as (j & Hj & ->). exists j. split; [|done].
      rewrite lookup_insert_ne; [done|]. intros ->. by destruct E.
Qed.

Lemma holds_remove i m k : holds_inodes i m → key_ok k →
  holds_inodes (kv_remove i (inode_key k.1 k.2)) (delete k m).
Proof.
  intros [Hs Ho] Hk. split.
  - intros j y. destruct (decide (j = k)) as [->|Hne]; [by rewrite lookup_delete_eq|].
    rewrite lookup_delete_ne by done. intros Hj. destruct (Hs j y Hj) as (Hkj & Hy & bs & Hg & Hd). split_and!; [done|done|].
    exists bs. rewrite kv_get_remove, decide_False; [done|]. intros Ek. by apply inode_key_inj in Ek.
  - intros key bs. rewrite kv_get_remove. case_decide as E; [done|intros Hg].
    destruct (Ho _ _ Hg) as (j & Hj & ->). exists j. split; [|done].
    rewrite lookup_delete_ne; [done|]. intros ->. by destruct E.
Qed.

(** The one shape of the section updates. *)
Lemma holds_update i m k f : holds_inodes i m → key_ok k →
  let x := default default_inode (m !! k) in inode_ok (f x) →
  ∃ i', (let! inode := asks (load_inode (inode_key k.1 k.2)) in
         modify (λ i, kv_insert i (inode_key k.1 k.2) (inode_encode (f inode)))) i = (Ok tt, i') ∧
    holds_inodes i' (<[k := f x]> m).
Proof.
  intros Hh Hk x Hx. rewrite (sbind_asks _ _ _ _ (holds_load i m k Hh Hk)). eexists. split; [done|].
  by apply holds_insert.
Qed.

Lemma default_inode_ok : inode_ok default_inode.
Proof. by split. Qed.

Lemma holds_ok i m k : holds_inodes i m → inode_ok (default default_inode (m !! k)).
Proof. intros Hh. destruct (m !! k) as [x|] eqn:E; [|apply default_inode_ok]. by apply (hi_some _ _ Hh k x). Qed.

Lemma stamped_ok now x : inode_ok x → signed_ok 64 now → inode_ok (stamped now x).
Proof.
  intros [Ht Ha Hm Hs He Hc] Hn. unfold stamped. destruct (timestamps x) as [t|]; split; cbn; try done.
  destruct Ht as (? & ? & ?). by split_and!.
Qed.

(** ** What the operations do to the map *)

Definition seal_inode (now : Z) (owner : option Z) (mac_ sig_ : bytes) (x : Inode) : Inode :=
  let x := stamped now x in
  let x := match owner, acl x with Some o, None => inode_set_acl (default_for o) x | _, _ => x end in
  set_sig sig_ (set_mac mac_ x).

(** The list the new tags are to bind. *)
Definition sealed_acl (now : Z) (owner : option Z) (x : Inode) : bytes :=
  acl_bytes_of (match owner, acl x with Some o, None => inode_set_acl (default_for o) (stamped now x) | _, _ => stamped now x end).

Definition bumped (when : Z) (x : Inode) : Inode :=
  match timestamps x with
  | Some t => if t_accessed t <? when then set_timestamps (set_accessed when t) x else x
  | None => set_timestamps (mkTimes when when when) x
  end.

Definition with_default_acl (owner : Z) (x : Inode) : Inode :=
  match acl x with Some _ => x | None => inode_set_acl (default_for owner) x end.

Definition stripped (gid : Z) (x : Inode) : Inode :=
  match acl x with
  | Some a => if has_group gid a then inode_set_acl (acl_remove_group gid a) x else x
  | None => x
  end.

Lemma stamped_acl now x : acl (stamped now x) = acl x.
Proof. unfold stamped. by destruct (timestamps x). Qed.

Lemma stamp_and_seal_lemma i m k now owner seal mac_ sig_ :
  holds_inodes i m → key_ok k → signed_ok 64 now → opt_ok (unsigned_ok 32) owner →
  let x := default default_inode (m !! k) in
  seal (sealed_acl now owner x) = Ok (mac_, sig_) → blen mac_ = MAC_LEN → blen sig_ = SIG_LEN →
  ∃ i', stamp_and_seal k.1 k.2 now owner seal i = (Ok tt, i') ∧
    holds_inodes i' (<[k := seal_inode now owner mac_ sig_ x]> m).
Proof.
  intros Hh Hk Hn Ho x Hseal Hm Hs. unfold stamp_and_seal.
  rewrite (sbind_asks _ _ _ _ (holds_load i m k Hh Hk)). fold x. rewrite stamped_acl.
  unfold sealed_acl in Hseal.
  assert (inode_ok (seal_inode now owner mac_ sig_ x)) as Hok.
  { pose proof (stamped_ok now x (holds_ok i m k Hh) Hn) as Hst. unfold seal_inode. rewrite stamped_acl.
    assert (inode_ok (match owner, acl x with Some o, None => inode_set_acl (default_for o) (stamped now x) | _, _ => stamped now x end)) as [].
    { destruct owner as [o|]; [|done]. destruct (acl x); [done|]. destruct Hst. by split. }
    by split. }
  unfold seal_inode in *. rewrite stamped_acl in *.
  set (y := match owner, acl x with Some o, None => inode_set_acl (default_for o) (stamped now x) | _, _ => stamped now x end) in *.
  rewrite (sbind_asks _ _ _ (mac_, sig_)) by exact Hseal. eexists. split; [done|]. by apply holds_insert.
Qed.

Lemma set_default_acl_lemma i m k owner : holds_inodes i m → key_ok k → unsigned_ok 32 owner →
  ∃ i', set_default_acl k.1 k.2 owner i = (Ok tt, i') ∧
    holds_inodes i' (match m !! k with
                     | Some x => <[k := with_default_acl owner x]> m
                     | None => <[k := with_default_acl owner default_inode]> m end).
Proof.
  intros Hh Hk Ho. unfold set_default_acl. rewrite (sbind_asks _ _ _ _ (holds_load i m k Hh Hk)).
  pose proof (holds_ok i m k Hh) as Hx. unfold with_default_acl.
  destruct (m !! k) as [x|] eqn:E; cbn [default id] in *.
  - destruct (acl x) as [a|]; [exists i; by rewrite insert_id|]. eexists. split; [done|]. apply holds_insert; [done..|].
    destruct Hx. by split.
  - eexists. split; [done|]. apply holds_insert; [done..|]. destruct default_inode_ok. by split.
Qed.

Lemma bump_access_lemma i m k when : holds_inodes i m → key_ok k → signed_ok 64 when →
  ∃ i', bump_access k.1 k.2 when i = (Ok tt, i') ∧ holds_inodes i' (alter (bumped when) k m).
Proof.
  intros Hh Hk Hw. unfold bump_access. rewrite (sbind_asks (λ i, Ok (kv_get i (inode_key k.1 k.2))) _ i _ eq_refl).
  pose proof (holds_get i m k Hh Hk) as Hg. destruct (m !! k) as [x|] eqn:E.
  - destruct Hg as (Hx & bs & -> & Hd). rewrite (sbind_asks _ _ _ x) by done.
    assert (alter (bumped when) k m = <[k := bumped when x]> m) as ->.
    { apply map_eq. intros j. destruct (decide (j = k)) as [->|Hne].
      - by rewrite lookup_alter_eq, lookup_insert_eq, E.
      - by rewrite lookup_alter_ne, lookup_insert_ne by done. }
    unfold bumped. destruct (timestamps x) as [t|] eqn:Et.
    + destruct (Z.ltb_spec (t_accessed t) when); [|exists i; by rewrite insert_id].
      eexists. split; [done|]. apply holds_insert; [done..|]. destruct Hx as [Ht]. rewrite Et in Ht. destruct Ht as (? & ? & ?).
      by split.
    + eexists. split; [done|]. apply holds_insert; [done..|]. destruct Hx. by split.
  - rewrite Hg. exists i. split; [done|].
    assert (alter (bumped when) k m = m) as ->; [|done].
    apply map_eq. intros j. destruct (decide (j = k)) as [->|Hne]; [by rewrite lookup_alter_eq, E|by rewrite lookup_alter_ne].
Qed.

(** ** Dropping a group from every list *)

Lemma stripped_ok gid x : inode_ok x → inode_ok (stripped gid x).
Proof.
  intros [Ht Ha Hm Hs He Hc]. unfold stripped. destruct (acl x) as [a|] eqn:E; [|by split; rewrite ?E].
  unfold has_group. case_bool_decide as Hg; [|by split; rewrite ?E]. split; try done. cbn.
  destruct Ha as (Ho & Hg' & Hz). split_and!; [done| |].
  - by apply map_Forall_delete.
  - cbn [acl_group acl_remove_group set_groups]. destruct Hg as [r Hr]. rewrite (map_size_delete_Some _ _ (mk_is_Some _ _ Hr)). lia.
Qed.

Lemma strip_updates_spec gid items : ∀ updates,
  (∀ key bs, (key, bs) ∈ items → ∃ x, inode_decode bs = Ok x) →
  ∃ l, strip_updates gid items updates = Ok (updates ++ l) ∧
    ∀ key v, (key, v) ∈ l ↔ ∃ bs x a, (key, bs) ∈ items ∧ inode_decode bs = Ok x ∧ acl x = Some a ∧
      has_group gid a = true ∧ v = inode_encode (stripped gid x).
Proof.
  induction items as [|[key bs] items IH]; intros updates Hd; cbn [strip_updates].
  { exists []. rewrite app_nil_r. split; [done|]. intros ? ?. split; [by intros ?%elem_of_nil|].
    intros (? & ? & ? & []%elem_of_nil & _). }
  destruct (Hd key bs) as [x Hx]; [by left|]. rewrite Hx. cbn [rbind].
  set (new := match acl x with Some a => if has_group gid a then [(key, inode_encode (stripped gid x))] else [] | None => [] end).
  destruct (IH (updates ++ new)) as (l & El & Hl); [intros k' b' Hin; apply (Hd k' b'); by right|].
  exists (new ++ l). split.
  - rewrite app_assoc, <- El. f_equal. unfold new, stripped. destruct (acl x) as [a|]; [|by rewrite app_nil_r].
    destruct (has_group gid a); [done|by rewrite app_nil_r].
  - intros k' v. rewrite elem_of_app, Hl. split.
    + intros [Hin|(b' & y & a & Hin & Hy)]; [|exists b', y, a; split; [by right|done]].
      unfold new in Hin. destruct (acl x) as [a|] eqn:Ea; [|by apply elem_of_nil in Hin].
      destruct (has_group gid a) eqn:Eg; [|by apply elem_of_nil in Hin]. apply list_elem_of_singleton in Hin as [= -> ->].
      exists bs, x, a. split; [by left|done].
    + intros (b' & y & a & [[= -> ->]|Hin]%elem_of_cons & Hy & Ha & Hg & ->); [left|right; by exists b', y, a].
      assert (y = x) as -> by congruence. unfold new. rewrite Ha, Hg. by left.
Qed.

Lemma inserts_spec (updates : list (bytes * bytes)) : ∀ i,
  ∃ i', for_each updates (λ kv, modify (λ i, kv_insert i kv.1 kv.2)) i = (Ok tt, i') ∧
    ∀ key, (kv_get i' key = kv_get i key ∧ ∀ v, (key, v) ∉ updates) ∨ (∃ v, (key, v) ∈ updates ∧ kv_get i' key = Some v).
Proof.
  induction updates as [|[k0 v0] updates IH]; intros i; cbn [for_each].
  { exists i. split; [done|]. intros key. left. split; [done|]. by intros v ?%elem_of_nil. }
  rewrite sbind_modify. destruct (IH (kv_insert i k0 v0)) as (i' & E & Hi). exists i'. split; [done|].
  intros key. destruct (Hi key) as [[Hg Hno]|(v & Hin & Hv)]; [|right; exists v; split; [by right|done]].
  rewrite kv_get_insert in Hg. case_decide as Ek.
  - right. exists v0. split; [subst key; by left|done].
  - left. split; [done|]. intros v [[= -> ->]|Hin]%elem_of_cons; [done|]. by apply (Hno v).
Qed.

Lemma strip_group_lemma i m gid : holds_inodes i m →
  ∃ i', strip_group gid i = (Ok tt, i') ∧ holds_inodes i' (stripped gid <$> m).
Proof.
  intros Hh. pose proof Hh as [Hs Ho].
  assert (∀ key bs, (key, bs) ∈ kv_range i [] ↔ kv_get i key = Some bs) as Hr.
  { intros key bs. rewrite kv_range_elem. split; [tauto|]. intros Hg. split; [done|]. intros Hlt. by destruct key. }
  destruct (strip_updates_spec gid (kv_range i []) []) as (l & El & Hl).
  { intros key bs Hg%Hr. destruct (Ho _ _ Hg) as (k & [x Hx] & ->). destruct (Hs k x Hx) as (_ & _ & b & Hb & Hd).
    exists x. congruence. }
  unfold strip_group. rewrite (sbind_asks _ _ _ l) by exact El.
  destruct (inserts_spec l i) as (i' & E & Hi). exists i'. split; [done|]. split.
  - intros k y. rewrite lookup_fmap_Some. intros (x & <- & Hx). destruct (Hs k x Hx) as (Hk & Hok & b & Hb & Hd).
    split_and!; [done|by apply stripped_ok|]. destruct (Hi (inode_key k.1 k.2)) as [[Hg Hno]|(v & Hin & Hv)].
    + exists b. split; [congruence|]. rewrite Hd. f_equal. unfold stripped. destruct (acl x) as [a|] eqn:Ea; [|done].
      destruct (has_group gid a) eqn:Eg; [|done]. destruct (Hno (inode_encode (stripped gid x))). apply Hl.
      exists b, x, a. split_and!; [by apply Hr|done..].
    + apply Hl in Hin as (b' & x' & a & Hin & Hd' & _ & _ & ->). apply Hr in Hin.
      assert (x' = x) as -> by congruence. eexists. split; [done|]. by apply inode_roundtrip_lemma, stripped_ok.
  - intros key bs Hg. assert (∃ b, kv_get i key = Some b) as [b Hb].
    { destruct (Hi key) as [[Hg' _]|(v & Hin & _)]; [by exists bs; congruence|].
      apply Hl in Hin as (b & _ & _ & Hin & _). exists b. by apply Hr. }
    destruct (Ho _ _ Hb) as (k & [x Hx] & ->). exists k. split; [|done]. rewrite lookup_fmap, Hx. by eexists.
Qed.
End table.

Section claims.
Context {I : Type} `{OrdKV I} `{!OrdKVLaws I}.
Implicit Types (i : I) (m : Inodes) (k : bytes * Z).

(** C37: The inode table is a map from a-nodes to inodes, and every operation updates
    exactly what it names: a write moves the modification time (and stamps the
    creation and access times, an owner's default list and both tags where they are
    missing or due), an access time never moves back and never resurrects an entry,
    each setter replaces one section and keeps every other one, the sections of other
    builds included, removal drops the one entry, and dropping a group takes it out of
    every list and changes nothing else. *)
Theorem inode_updates_spec i m k :
  holds_inodes i m → key_ok k →
  let x := default default_inode (m !! k) in
  let becomes (op : SM I unit) m' := ∃ i', op i = (Ok tt, i') ∧ holds_inodes i' m' in
  (∀ now, signed_ok 64 now → becomes (touch k.1 k.2 now) (<[k := stamped now x]> m)) ∧
  (∀ now owner seal mac_ sig_, signed_ok 64 now → opt_ok (unsigned_ok 32) owner →
     seal (sealed_acl now owner x) = Ok (mac_, sig_) → blen mac_ = MAC_LEN → blen sig_ = SIG_LEN →
     becomes (stamp_and_seal k.1 k.2 now owner seal) (<[k := seal_inode now owner mac_ sig_ x]> m)) ∧
  (∀ when, signed_ok 64 when → becomes (bump_access k.1 k.2 when) (alter (bumped when) k m)) ∧
  becomes (inode_forget k.1 k.2) (delete k m) ∧
  (∀ owner, unsigned_ok 32 owner → becomes (set_default_acl k.1 k.2 owner) (<[k := with_default_acl owner x]> m)) ∧
  (∀ a, acl_ok a → becomes (set_acl k.1 k.2 a) (<[k := inode_set_acl a x]> m)) ∧
  (∀ tag, blen tag = MAC_LEN → becomes (seal_mac k.1 k.2 tag) (<[k := set_mac tag x]> m)) ∧
  (∀ tag, blen tag = SIG_LEN → becomes (seal_sig k.1 k.2 tag) (<[k := set_sig tag x]> m)) ∧
  (∀ gid, becomes (strip_group gid) (stripped gid <$> m)) ∧
  read_acl k.1 k.2 i = Ok (m !! k ≫= acl) ∧
  read_meta k.1 k.2 i = Ok ((m !! k ≫= acl, m !! k ≫= mac), m !! k ≫= sig) ∧
  (∀ DateTime (millis : Z → option DateTime), read_timestamps millis k.1 k.2 i =
     match m !! k ≫= timestamps with Some t => rbind (into_node_times millis t) (λ t, Ok (Some t)) | None => Ok None end).
Proof.
  intros Hh Hk x becomes. pose proof (holds_ok i m k Hh) as Hx. fold x in Hx. pose proof (holds_get i m k Hh Hk) as Hg.
  pose proof Hx as [Ht Ha Hm Hs He Hc].
  split_and!.
  - intros now Hn. apply (holds_update i m k (stamped now)); [done..|]. by apply stamped_ok.
  - intros now owner seal mac_ sig_ Hn Ho Hseal ??. by apply (stamp_and_seal_lemma i m k now owner seal).
  - intros when Hw. by apply bump_access_lemma.
  - eexists. split; [done|]. by apply holds_remove.
  - intros owner Ho. destruct (set_default_acl_lemma i m k owner Hh Hk Ho) as (i' & E & Hi). exists i'. split; [done|].
    unfold x. by destruct (m !! k).
  - intros a Hok. apply (holds_update i m k (inode_set_acl a)); [done..|]. by split.
  - intros tag Hl. apply (holds_update i m k (set_mac tag)); [done..|]. by split.
  - intros tag Hl. apply (holds_update i m k (set_sig tag)); [done..|]. by split.
  - intros gid. by apply strip_group_lemma.
  - unfold read_acl. destruct (m !! k) as [y|]; [|by rewrite Hg]. destruct Hg as (_ & bs & -> & ->). done.
  - unfold read_meta, decode_meta. destruct (m !! k) as [y|]; [|by rewrite Hg]. destruct Hg as (_ & bs & -> & ->). done.
  - intros D millis. unfold read_timestamps. destruct (m !! k) as [y|]; [|by rewrite Hg]. destruct Hg as (_ & bs & -> & ->). done.
Qed.
End claims.
