(* ===== verification/PermStore.v ===== *)
(** * Users, groups and the keyring

    [perm/store.rs]: the users, the groups and the wrapped secrets of a protected
    database, two blobs of the metadata table sealed by a control tag.  Each
    administrative call runs in one engine transaction: it is a function from the
    committed metadata table to the table it commits, and an error commits nothing. *)
From S2P Require Import Prelude Codec IndexDef BTree Key Dir Engine Acl Integrity Inode.

Definition META_USERS_KEY : bytes := str "users".
Definition META_GROUPS_KEY : bytes := str "groups".
Definition META_EPOCH_KEY : bytes := str "epoch".
Definition META_CONTROL_MAC_KEY : bytes := str "control_mac".
Definition META_PUBKEY_KEY : bytes := str "pubkey".

Definition MASTER_USER : bytes := str "master".
Definition GUEST_USER : bytes := str "guest".
Definition MASTER_GROUP : bytes := str "master".
Definition SUPER_GROUP : bytes := str "super".

Record KeyringEntry := mkKeyring { k_salt : bytes; k_nonce : bytes; k_wrapped : bytes }.

Record UserRecord := mkUser {
  u_name : bytes;
  u_uid : Z;
  u_frozen : bool;
  u_gids : list Z;
  u_keyring : option KeyringEntry;
}.

Record Users := mkUsers { next_uid : Z; users : list UserRecord }.

Record GroupRecord := mkGroup { g_name : bytes; g_gid : Z }.

Record Groups := mkGroups { next_gid : Z; groups : list GroupRecord }.

(** ** The stored form *)

Definition utf8 (bs : bytes) : res bytes := from_utf8 bs (Corrupt "invalid utf-8 in the permission store").

Definition decode_keyring_at (r : Reader) : res (option KeyringEntry * Reader) :=
  let? '(tag, r) := Reader_u8 r in
  if tag =? 0 then Ok (None, r)
  else
    let? '(salt, r) := Reader_array SALT_LEN r in
    let? '(nonce, r) := Reader_array NONCE_LEN r in
    let? '(wrapped, r) := Reader_bytes r in
    Ok (Some (mkKeyring salt nonce wrapped), r).

Definition decode_user_at (r : Reader) : res (UserRecord * Reader) :=
  let? '(bs, r) := Reader_bytes r in
  let? name := utf8 bs in
  let? '(uid, r) := Reader_u32 r in
  let? '(frozen, r) := Reader_u8 r in
  let? '(gid_count, r) := Reader_u32 r in
  let? '(gids, r) := read_n Reader_u32 (Z.to_nat gid_count) r in
  let? '(keyring, r) := decode_keyring_at r in
  Ok (mkUser name uid (negb (frozen =? 0)) gids keyring, r).

Definition Users_decode (bs : bytes) : res Users :=
  let? '(next, r) := Reader_u32 (Reader_new bs) in
  let? '(count, r) := Reader_u32 r in
  let? '(us, _) := read_n decode_user_at (Z.to_nat count) r in
  Ok (mkUsers next us).

Definition encode_keyring (buf : bytes) (k : option KeyringEntry) : bytes :=
  match k with
  | None => buf ++ [0]
  | Some e => put_bytes (((buf ++ [1]) ++ k_salt e) ++ k_nonce e) (k_wrapped e)
  end.

Definition encode_user (buf : bytes) (u : UserRecord) : bytes :=
  let buf := put_bytes buf (u_name u) in
  let buf := put_u32 buf (u_uid u) in
  let buf := buf ++ [if u_frozen u then 1 else 0] in
  let buf := put_u32 buf (as_u32 (blen (u_gids u))) in
  let buf := fold_left put_u32 (u_gids u) buf in
  encode_keyring buf (u_keyring u).

Definition Users_encode (us : Users) : bytes :=
  fold_left encode_user (users us) (put_u32 (put_u32 [] (next_uid us)) (as_u32 (blen (users us)))).

Definition decode_group_at (r : Reader) : res (GroupRecord * Reader) :=
  let? '(bs, r) := Reader_bytes r in
  let? name := utf8 bs in
  let? '(gid, r) := Reader_u32 r in
  Ok (mkGroup name gid, r).

Definition Groups_decode (bs : bytes) : res Groups :=
  let? '(next, r) := Reader_u32 (Reader_new bs) in
  let? '(count, r) := Reader_u32 r in
  let? '(gs, _) := read_n decode_group_at (Z.to_nat count) r in
  Ok (mkGroups next gs).

Definition encode_group (buf : bytes) (g : GroupRecord) : bytes := put_u32 (put_bytes buf (g_name g)) (g_gid g).

Definition Groups_encode (gs : Groups) : bytes :=
  fold_left encode_group (groups gs) (put_u32 (put_u32 [] (next_gid gs)) (as_u32 (blen (groups gs)))).

(** ** Secrets *)

Definition SECRET_LEN : Z := KEY_LEN + SEED_LEN.

Definition split_secrets (plaintext : bytes) : res (bytes * bytes) :=
  if negb (blen plaintext =? SECRET_LEN) then Err (Corrupt "the wrapped secrets have the wrong length")
  else Ok (take (Z.to_nat KEY_LEN) plaintext, drop (Z.to_nat KEY_LEN) plaintext).

Definition is_protected_user (uid : Z) : bool := (uid =? MASTER_UID) || (uid =? GUEST_UID).
Definition is_protected_group (gid : Z) : bool := (gid =? MASTER_GID) || (gid =? SUPER_GID).

(** [names.sort()] *)
Definition name_le (a b : bytes) : Prop := ¬ blt b a.
#[export] Instance name_le_dec a b : Decision (name_le a b).
Proof. unfold name_le. apply _. Defined.
Definition sort_names (names : list bytes) : list bytes := merge_sort name_le names.

(** The edit of the first record that satisfies [p], through [iter_mut().find(..)]. *)
Fixpoint edit_first {A} (p : A → bool) (f : A → A) (l : list A) : list A :=
  match l with
  | [] => []
  | x :: l => if p x then f x :: l else x :: edit_first p f l
  end.

Definition named_user (name : bytes) (u : UserRecord) : bool := bool_decide (u_name u = name).
Definition named_group (name : bytes) (g : GroupRecord) : bool := bool_decide (g_name g = name).
Definition with_uid (uid : Z) (u : UserRecord) : bool := u_uid u =? uid.
Definition with_gid (gid : Z) (g : GroupRecord) : bool := g_gid g =? gid.

Definition set_keyring (k : KeyringEntry) (u : UserRecord) : UserRecord :=
  mkUser (u_name u) (u_uid u) (u_frozen u) (u_gids u) (Some k).
Definition set_user_name (name : bytes) (u : UserRecord) : UserRecord :=
  mkUser name (u_uid u) (u_frozen u) (u_gids u) (u_keyring u).
Definition set_gids (gids : list Z) (u : UserRecord) : UserRecord :=
  mkUser (u_name u) (u_uid u) (u_frozen u) gids (u_keyring u).
Definition retain_gids (gid : Z) (gids : list Z) : list Z := List.filter (λ g, negb (g =? gid)) gids.

Section store.
Context `{Crypto} {M : Type} `{KV M bytes bytes}.
Implicit Types (meta : M) (key seed name : bytes).

(** [copy_from_slice] into the two halves of the bundle. *)
Definition wrap_secrets (salt nonce : option bytes) (password key seed : bytes) : res KeyringEntry :=
  if (blen key =? KEY_LEN) && (blen seed =? SEED_LEN) then
    let? '((salt, nonce), wrapped) := wrap_key salt nonce password (key ++ seed) in
    Ok (mkKeyring salt nonce wrapped)
  else Panic.

Definition Users_load meta : res Users :=
  match kv_get meta META_USERS_KEY with Some bs => Users_decode bs | None => Ok (mkUsers 2 []) end.

Definition Users_store (us : Users) meta : M := kv_insert meta META_USERS_KEY (Users_encode us).

Definition Groups_load meta : res Groups :=
  match kv_get meta META_GROUPS_KEY with Some bs => Groups_decode bs | None => Ok (mkGroups 2 []) end.

Definition Groups_store (gs : Groups) meta : M := kv_insert meta META_GROUPS_KEY (Groups_encode gs).

Definition read_pubkey_bytes meta : bytes := default [] (kv_get meta META_PUBKEY_KEY).

Definition load_pubkey meta : res bytes :=
  let bs := read_pubkey_bytes meta in
  if blen bs =? PUBKEY_LEN then Ok bs else Err (Corrupt "the public verification key is missing or malformed").

Definition read_epoch meta : res Z :=
  match kv_get meta META_EPOCH_KEY with
  | Some bs => if blen bs =? 8 then Ok (of_be bs) else Err (Corrupt "the control epoch has the wrong length")
  | None => Ok 0
  end.

(** [epoch + 1] wraps at 64 bits. *)
Definition seal_control (key : bytes) meta : res M :=
  let users := default [] (kv_get meta META_USERS_KEY) in
  let groups := default [] (kv_get meta META_GROUPS_KEY) in
  let pubkey := read_pubkey_bytes meta in
  let? epoch := read_epoch meta in
  let epoch := as_u64 (epoch + 1) in
  let meta := kv_insert meta META_EPOCH_KEY (to_be 8 epoch) in
  let? tag := mac_control key epoch users groups pubkey in
  Ok (kv_insert meta META_CONTROL_MAC_KEY tag).

Definition verify_control meta (key : bytes) : res unit :=
  let users := default [] (kv_get meta META_USERS_KEY) in
  let groups := default [] (kv_get meta META_GROUPS_KEY) in
  let pubkey := read_pubkey_bytes meta in
  let? epoch := read_epoch meta in
  let? expected := mac_control key epoch users groups pubkey in
  match kv_get meta META_CONTROL_MAC_KEY with
  | Some tag => if ct_eq tag expected then Ok tt else Err (Tampered "the permission store failed its integrity check")
  | None => Err (Tampered "the permission store failed its integrity check")
  end.

Definition is_protected meta : res bool :=
  let? names := features_list meta in Ok (bool_decide (s_permissions ∈ names)).

Definition authenticate meta (user password : bytes) : res Session :=
  let? us := Users_load meta in
  let? record := ok_or (List.find (named_user user) (users us)) AuthenticationFailed in
  let? keyring := ok_or (u_keyring record) AuthenticationFailed in
  let? secret := unwrap_key password (k_salt keyring) (k_nonce keyring) (k_wrapped keyring) in
  let? '(key, seed) := split_secrets secret in
  let? _ := verify_control meta key in
  Ok (mkSession (u_name record) (u_uid record) (u_gids record) key seed).

Definition change_user_password (session : Session) (salt nonce : option bytes) (new_password : bytes) meta : res M :=
  let? k := wrap_secrets salt nonce new_password (s_key session) (s_sign_seed session) in
  let? us := Users_load meta in
  let? _ := ok_or (List.find (with_uid (s_uid session)) (users us))
                  (Corrupt "the authenticated user is missing from the store") in
  let us := mkUsers (next_uid us) (edit_first (with_uid (s_uid session)) (set_keyring k) (users us)) in
  seal_control (s_key session) (Users_store us meta).

(** [next_gid += 1], [next_uid += 1] wrap at 32 bits. *)
Definition new_group (name : bytes) meta : res (Z * M) :=
  let? gs := Groups_load meta in
  if existsb (named_group name) (groups gs) then Err (CannotAccess "a group named '{name}' already exists")
  else
    let gid := next_gid gs in
    let gs := mkGroups (as_u32 (next_gid gs + 1)) (groups gs ++ [mkGroup name gid]) in
    Ok (gid, Groups_store gs meta).

Definition add_user key seed (salt nonce : option bytes) name (password : bytes) (create_group : bool) meta : res M :=
  let? k := wrap_secrets salt nonce password key seed in
  let? us := Users_load meta in
  if existsb (named_user name) (users us) then Err (CannotAccess "a user named '{name}' already exists")
  else
    let uid := next_uid us in
    let next := as_u32 (next_uid us + 1) in
    let? '(gids, meta) :=
      if create_group then let? '(gid, meta) := new_group name meta in Ok ([gid], meta)
      else Ok ([], meta) in
    let us := mkUsers next (users us ++ [mkUser name uid false gids (Some k)]) in
    seal_control key (Users_store us meta).

Definition add_group key name meta : res M :=
  let? '(_, meta) := new_group name meta in seal_control key meta.

Definition rename_user key (old new : bytes) meta : res M :=
  let? us := Users_load meta in
  if existsb (named_user new) (users us) then Err (CannotAccess "a user named '{new}' already exists")
  else
    let? record := ok_or (List.find (named_user old) (users us)) (CannotAccess "no user named '{old}'") in
    if is_protected_user (u_uid record) then Err (PermissionDenied "the built-in user '{old}' cannot be renamed")
    else
      let us := mkUsers (next_uid us) (edit_first (named_user old) (set_user_name new) (users us)) in
      seal_control key (Users_store us meta).

Definition rename_group key (old new : bytes) meta : res M :=
  let? gs := Groups_load meta in
  if existsb (named_group new) (groups gs) then Err (CannotAccess "a group named '{new}' already exists")
  else
    let? record := ok_or (List.find (named_group old) (groups gs)) (CannotAccess "no group named '{old}'") in
    if is_protected_group (g_gid record) then Err (PermissionDenied "the built-in group '{old}' cannot be renamed")
    else
      let gs := mkGroups (next_gid gs) (edit_first (named_group old) (λ g, mkGroup new (g_gid g)) (groups gs)) in
      seal_control key (Groups_store gs meta).

Definition assign key (user group : bytes) meta : res M :=
  let? us := Users_load meta in
  let? gs := Groups_load meta in
  let? gid := ok_or (g_gid <$> List.find (named_group group) (groups gs)) (CannotAccess "no group named '{group}'") in
  let? record := ok_or (List.find (named_user user) (users us)) (CannotAccess "no user named '{user}'") in
  if u_frozen record then Err Frozen
  else if bool_decide (gid ∈ u_gids record) then Ok meta
  else
    let us := mkUsers (next_uid us) (edit_first (named_user user) (λ u, set_gids (u_gids u ++ [gid]) u) (users us)) in
    seal_control key (Users_store us meta).

Definition unassign key (user group : bytes) meta : res M :=
  let? us := Users_load meta in
  let? gs := Groups_load meta in
  let? gid := ok_or (g_gid <$> List.find (named_group group) (groups gs)) (CannotAccess "no group named '{group}'") in
  let? record := ok_or (List.find (named_user user) (users us)) (CannotAccess "no user named '{user}'") in
  if bool_decide (gid ∈ u_gids record) then
    let us := mkUsers (next_uid us)
      (edit_first (named_user user) (λ u, set_gids (retain_gids gid (u_gids u)) u) (users us)) in
    seal_control key (Users_store us meta)
  else Ok meta.

(** The metadata half of [remove_group]: the gid it frees and the table. *)
Definition remove_group_meta key name meta : res (Z * M) :=
  let? gs := Groups_load meta in
  let? gid := ok_or (g_gid <$> List.find (named_group name) (groups gs)) (CannotAccess "no group named '{name}'") in
  if is_protected_group gid then Err (PermissionDenied "the built-in group '{name}' cannot be removed")
  else
    let? us := Users_load meta in
    let us := mkUsers (next_uid us) (map (λ u, set_gids (retain_gids gid (u_gids u)) u) (users us)) in
    let meta := Users_store us meta in
    let gs := mkGroups (next_gid gs) (List.filter (λ g, negb (with_gid gid g)) (groups gs)) in
    let? meta := seal_control key (Groups_store gs meta) in
    Ok (gid, meta).

Definition forget_user key (uid : Z) meta : res M :=
  let? us := Users_load meta in
  let us := mkUsers (next_uid us) (List.filter (λ u, negb (with_uid uid u)) (users us)) in
  seal_control key (Users_store us meta).

(** ** Listings *)

Definition list_users meta : res (list bytes) :=
  let? us := Users_load meta in Ok (sort_names (map u_name (users us))).

Definition list_groups meta : res (list bytes) :=
  let? gs := Groups_load meta in Ok (sort_names (map g_name (groups gs))).

Definition user_groups meta (user : bytes) : res (list bytes) :=
  let? us := Users_load meta in
  let? gs := Groups_load meta in
  let? record := ok_or (List.find (named_user user) (users us)) (CannotAccess "no user named '{user}'") in
  Ok (sort_names (map g_name (List.filter (λ g, bool_decide (g_gid g ∈ u_gids record)) (groups gs)))).

Definition group_members meta (group : bytes) : res (list bytes) :=
  let? us := Users_load meta in
  let? gs := Groups_load meta in
  let? gid := ok_or (g_gid <$> List.find (named_group group) (groups gs)) (CannotAccess "no group named '{group}'") in
  Ok (sort_names (map u_name (List.filter (λ u, bool_decide (gid ∈ u_gids u)) (users us)))).

Definition uid_of meta name : res (option Z) :=
  let? us := Users_load meta in Ok (u_uid <$> List.find (named_user name) (users us)).

Definition gid_of meta name : res (option Z) :=
  let? gs := Groups_load meta in Ok (g_gid <$> List.find (named_group name) (groups gs)).

Definition name_of_user meta (uid : Z) : res (option bytes) :=
  let? us := Users_load meta in Ok (u_name <$> List.find (with_uid uid) (users us)).

Definition name_of_group meta (gid : Z) : res (option bytes) :=
  let? gs := Groups_load meta in Ok (g_name <$> List.find (with_gid gid) (groups gs)).

(** ** Promotion, and the removal of a group from every list *)

Context {I : Type} `{OrdKV I}.

(** The back-fill of one table's rows. *)
Definition backfill_row key seed (table : bytes) (row : AKey * bytes) : SM I unit :=
  let '(akey, entry) := row in
  let! _ := if akey =? ROOT then sret tt else set_default_acl table akey MASTER_UID in
  let! acl := asks (λ i, let? acl := read_acl table akey i in Ok (default [] (acl_encode <$> acl))) in
  let! tag := asks (λ _, mac_value key table akey entry acl) in
  let! _ := seal_mac table akey tag in
  seal_sig table akey (sign_value seed table akey entry acl).

(** The four random draws, the user tables with their rows, and the two tables of the
    transaction. *)
Definition promote_to_master (key seed salt nonce : option bytes) (password : bytes)
    (tables : list (bytes * list (AKey * bytes))) (meta : M) (i : I) : res (Session * (M * I)) :=
  let? key := random_bytes key in
  let? seed := random_bytes seed in
  let pubkey := public_key seed in
  let? k := wrap_secrets salt nonce password key seed in
  match kv_get meta META_USERS_KEY with
  | Some _ => Err (CannotAccess "the database is already protected")
  | None =>
      let us := mkUsers 2 [mkUser MASTER_USER MASTER_UID false [MASTER_GID] (Some k);
                           mkUser GUEST_USER GUEST_UID true [] None] in
      let gs := mkGroups 2 [mkGroup MASTER_GROUP MASTER_GID; mkGroup SUPER_GROUP SUPER_GID] in
      let meta := Groups_store gs (Users_store us meta) in
      let? meta := features_require meta s_permissions in
      let meta := kv_insert meta META_PUBKEY_KEY pubkey in
      let? meta := seal_control key meta in
      match for_each tables (λ t, for_each t.2 (backfill_row key seed t.1)) i with
      | (Ok _, i) => Ok (mkSession MASTER_USER MASTER_UID [MASTER_GID] key seed, (meta, i))
      | (Err e, _) => Err e
      | (Panic, _) => Panic
      | (OutOfFuel, _) => OutOfFuel
      end
  end.

Definition remove_group key name (meta : M) (i : I) : res (M * I) :=
  let? '(gid, meta) := remove_group_meta key name meta in
  match strip_group gid i with
  | (Ok _, i) => Ok (meta, i)
  | (Err e, _) => Err e
  | (Panic, _) => Panic
  | (OutOfFuel, _) => OutOfFuel
  end.
End store.
