(* ===== verification/PermSpec.v ===== *)
(** * The permission store as a directory

    What [PermStore] promises: the users and the groups are two finite maps by name
    ([Directory]), every administrative call is one update of them ([a_admin]) that
    keeps the directory well-formed and the store sealed, and only the right password
    opens a session. *)
From S2P Require Import Prelude Codec IndexDef BTree Key Dir Engine Acl Integrity Inode PermStore.

(** ** Lists of named records as maps *)

Section named.
Context {A : Type} (name : A → bytes).

Definition by_name (l : list A) : gmap bytes A := list_to_map (map (λ x, (name x, x)) l).

Lemma by_name_keys l : (map (λ x, (name x, x)) l).*1 = map name l.
Proof. induction l as [|x l IH]; cbn; [done|by rewrite <- IH]. Qed.

Lemma by_name_lookup l n x : NoDup (map name l) → by_name l !! n = Some x ↔ x ∈ l ∧ name x = n.
Proof.
  intros Hnd. unfold by_name. rewrite <- elem_of_list_to_map by by rewrite by_name_keys.
  rewrite list_elem_of_fmap. split; [by intros (y & [= -> ->] & Hy)|intros [Hx <-]; by exists x].
Qed.

Lemma by_name_None l n : by_name l !! n = None ↔ n ∉ map name l.
Proof. unfold by_name. by rewrite <- not_elem_of_list_to_map, by_name_keys. Qed.

(** Two maps with the same bindings, the second given by its own. *)
Lemma by_name_ext l m : NoDup (map name l) → (∀ n x, m !! n = Some x ↔ x ∈ l ∧ name x = n) → by_name l = m.
Proof.
  intros Hnd Hm. apply map_eq. intros n. apply option_eq. intros x. by rewrite by_name_lookup, Hm.
Qed.

Lemma find_by_name l n : NoDup (map name l) → List.find (λ x, bool_decide (name x = n)) l = by_name l !! n.
Proof.
  intros Hnd. destruct (List.find _ l) as [x|] eqn:E.
  - apply List.find_some in E as [Hx Hn]. apply bool_decide_eq_true in Hn. symmetry. apply by_name_lookup; [done|].
    split; [by apply list_elem_of_In|done].
  - symmetry. apply by_name_None. intros (x & -> & Hx)%list_elem_of_fmap. apply list_elem_of_In in Hx.
    pose proof (List.find_none _ _ E x Hx) as Hf. cbn beta in Hf. by rewrite bool_decide_true in Hf.
Qed.

Lemma existsb_by_name l n : NoDup (map name l) →
  existsb (λ x, bool_decide (name x = n)) l = bool_decide (is_Some (by_name l !! n)).
Proof.
  intros Hnd. rewrite <- find_by_name by done. clear Hnd. induction l as [|x l IH]; [done|].
  cbn [existsb List.find]. by destruct (bool_decide (name x = n)).
Qed.

Lemma by_name_snoc l x : name x ∉ map name l → by_name (l ++ [x]) = <[name x := x]> (by_name l).
Proof. intros Hx. unfold by_name. rewrite map_app. cbn [map]. apply list_to_map_snoc. by rewrite by_name_keys. Qed.

Lemma by_name_map f l : (∀ x, name (f x) = name x) → by_name (map f l) = f <$> by_name l.
Proof.
  intros Hf. unfold by_name. induction l as [|x l IH]; cbn [map]; [by rewrite list_to_map_nil, fmap_empty|].
  by rewrite !list_to_map_cons, fmap_insert, Hf, IH.
Qed.

Lemma names_map f l : (∀ x, name (f x) = name x) → map name (map f l) = map name l.
Proof. intros Hf. rewrite map_map. by apply map_ext. Qed.

Lemma names_filter p l : NoDup (map name l) → NoDup (map name (List.filter p l)).
Proof.
  induction l as [|x l IH]; cbn [map List.filter]; [done|]. intros [Hx Hnd]%NoDup_cons. destruct (p x); [|by apply IH].
  cbn [map]. apply NoDup_cons. split; [|by apply IH]. intros (y & E & Hy)%list_elem_of_fmap. apply Hx.
  apply list_elem_of_fmap. exists y. split; [done|]. apply list_elem_of_In, List.filter_In in Hy as [Hy _]. by apply list_elem_of_In.
Qed.

Lemma by_name_filter p l : NoDup (map name l) → by_name (List.filter p l) = filter (λ kv, p kv.2 = true) (by_name l).
Proof.
  intros Hnd. apply by_name_ext; [by apply names_filter|]. intros n x. rewrite map_lookup_filter_Some, by_name_lookup by done.
  rewrite (list_elem_of_In (List.filter p l)), List.filter_In, <- list_elem_of_In. cbn. tauto.
Qed.

(** An edit of the record named [n], in place. *)
Lemma edit_first_spec n f l : NoDup (map name l) →
  (∃ l1 x l2, l = l1 ++ x :: l2 ∧ name x = n ∧ edit_first (λ x, bool_decide (name x = n)) f l = l1 ++ f x :: l2) ∨
  (n ∉ map name l ∧ edit_first (λ x, bool_decide (name x = n)) f l = l).
Proof.
  induction l as [|x l IH]; cbn [map edit_first]; intros Hnd; [right; split; [by intros ?%elem_of_nil|done]|].
  apply NoDup_cons in Hnd as [_ Hnd]. case_bool_decide as E; [left; by exists [], x, l|].
  destruct (IH Hnd) as [(l1 & y & l2 & -> & Hy & ->)|[Hn ->]]; [left; by exists (x :: l1), y, l2|right].
  split; [|done]. intros [->|?]%elem_of_cons; done.
Qed.

Lemma by_name_mid l1 x l2 : NoDup (map name (l1 ++ x :: l2)) →
  by_name (l1 ++ x :: l2) = <[name x := x]> (by_name (l1 ++ l2)) ∧ name x ∉ map name (l1 ++ l2) ∧ NoDup (map name (l1 ++ l2)).
Proof.
  rewrite map_app, map_cons, <- Permutation_middle, <- map_app, NoDup_cons. intros [Hx Hnd]. split; [|done].
  apply by_name_ext; [by rewrite map_app, map_cons, <- Permutation_middle, <- map_app, NoDup_cons|].
  intros n y. rewrite lookup_insert_Some, by_name_lookup by done. rewrite !elem_of_app, elem_of_cons. split.
  - intros [[<- <-]|(Hne & Hy & <-)]; tauto.
  - assert (∀ z, z ∈ l1 ++ l2 → name x ≠ name z) as Hz.
    { intros z Hz E. apply Hx. rewrite E. apply list_elem_of_fmap. by exists z. }
    intros [[Hy|[->|Hy]] <-]; [right|by left|right]; (split_and!; [apply Hz; rewrite elem_of_app; tauto|tauto|done]).
Qed.

(** The edit keeps the name, or gives a new one nobody has. *)
Lemma by_name_edit n n' f l x : NoDup (map name l) → by_name l !! n = Some x →
  (∀ y, name y = n → name (f y) = n') → (n' = n ∨ n' ∉ map name l) →
  let l' := edit_first (λ x, bool_decide (name x = n)) f l in
  by_name l' = <[n' := f x]> (delete n (by_name l)) ∧ NoDup (map name l').
Proof.
  intros Hnd Hl Hf Hn' l'. unfold l'. destruct (edit_first_spec n f l Hnd) as [(l1 & y & l2 & -> & Hy & ->)|[Hno _]].
  2: { apply by_name_None in Hno. congruence. }
  assert (y = x) as ->.
  { enough (Some y = Some x) by congruence. rewrite <- Hl. symmetry. apply by_name_lookup; [done|]. split; [|done].
    apply elem_of_app. right. by left. }
  destruct (by_name_mid l1 x l2 Hnd) as (E & Hx & Hnd').
  assert (NoDup (map name (l1 ++ f x :: l2))) as Hnd2.
  { rewrite map_app, map_cons, <- Permutation_middle, <- map_app, NoDup_cons. split; [|done]. rewrite (Hf x Hy).
    destruct Hn' as [->|Hn']; [by rewrite <- Hy|]. intros Hin. apply Hn'.
    rewrite map_app, map_cons, elem_of_app, elem_of_cons. rewrite map_app, elem_of_app in Hin. tauto. }
  split; [|done]. rewrite E. destruct (by_name_mid l1 (f x) l2 Hnd2) as (-> & _ & _). rewrite (Hf x Hy), <- Hy.
  rewrite delete_insert_eq, delete_id; [done|]. by apply by_name_None.
Qed.
End named.

(** ** The stored form *)

Definition keyring_wf (k : KeyringEntry) : Prop :=
  blen (k_salt k) = SALT_LEN ∧ blen (k_nonce k) = NONCE_LEN ∧ blen (k_wrapped k) < 2 ^ 32.

Record user_wf (u : UserRecord) : Prop := {
  uw_name : string_ok (u_name u);
  uw_uid : unsigned_ok 32 (u_uid u);
  uw_gids : Forall (unsigned_ok 32) (u_gids u);
  uw_count : blen (u_gids u) < 2 ^ 32;
  uw_keyring : opt_ok keyring_wf (u_keyring u);
}.

Definition group_wf (g : GroupRecord) : Prop := string_ok (g_name g) ∧ unsigned_ok 32 (g_gid g).

Definition keyring_bytes (k : option KeyringEntry) : bytes :=
  match k with
  | None => [0]
  | Some e => [1] ++ k_salt e ++ k_nonce e ++ (to_be 4 (blen (k_wrapped e)) ++ k_wrapped e)
  end.

Definition user_bytes (u : UserRecord) : bytes :=
  (to_be 4 (blen (u_name u)) ++ u_name u) ++ to_be 4 (u_uid u) ++ [if u_frozen u then 1 else 0] ++
  to_be 4 (blen (u_gids u)) ++ concat (map (to_be 4) (u_gids u)) ++ keyring_bytes (u_keyring u).

Definition group_bytes (g : GroupRecord) : bytes := (to_be 4 (blen (g_name g)) ++ g_name g) ++ to_be 4 (g_gid g).

(** The size of a stored list of records. *)
Definition stored_size {A} (enc : A → bytes) (l : list A) : Z := 8 + blen (concat (map enc l)).

Record users_wf (us : Users) : Prop := {
  us_next : unsigned_ok 32 (next_uid us);
  us_wf : Forall user_wf (users us);
  us_count : blen (users us) < 2 ^ 32;
  us_size : stored_size user_bytes (users us) ≤ USIZE_MAX;
}.

Record groups_wf (gs : Groups) : Prop := {
  gs_next : unsigned_ok 32 (next_gid gs);
  gs_wf : Forall group_wf (groups gs);
  gs_count : blen (groups gs) < 2 ^ 32;
  gs_size : stored_size group_bytes (groups gs) ≤ USIZE_MAX;
}.

Lemma encode_user_eq buf u : user_wf u → encode_user buf u = buf ++ user_bytes u.
Proof.
  intros [[_ Hn] _ _ Hc Hk]. unfold encode_user, user_bytes, put_u32. rewrite put_bytes_eq by done.
  rewrite as_u32_small by (pose proof (blen_nonneg (u_gids u)); lia).
  assert (∀ l b, fold_left put_u32 l b = b ++ concat (map (to_be 4) l)) as Hf.
  { induction l as [|g l IH]; intros b; cbn [fold_left map concat]; [by rewrite app_nil_r|]. rewrite IH. unfold put_u32. by rewrite <- app_assoc. }
  change (fold_left (λ buf v, buf ++ to_be 4 v)) with (fold_left put_u32). rewrite Hf.
  unfold encode_keyring, keyring_bytes. destruct (u_keyring u) as [k|].
  - destruct Hk as (_ & _ & Hw). rewrite put_bytes_eq by done. by rewrite <- !app_assoc.
  - by rewrite <- !app_assoc.
Qed.

Lemma encode_list_eq {A} (enc : bytes → A → bytes) (eb : A → bytes) (wf : A → Prop) l :
  (∀ b x, wf x → enc b x = b ++ eb x) → Forall wf l → ∀ b, fold_left enc l b = b ++ concat (map eb l).
Proof.
  intros He. induction 1 as [|x l Hx _ IH]; intros b; cbn [fold_left map concat]; [by rewrite app_nil_r|].
  by rewrite IH, He, <- app_assoc.
Qed.

Lemma encode_group_eq buf g : group_wf g → encode_group buf g = buf ++ group_bytes g.
Proof. intros [[_ Hn] _]. unfold encode_group, group_bytes, put_u32. rewrite put_bytes_eq by done. by rewrite <- !app_assoc. Qed.

Lemma reads_utf8 s {B} (k : bytes → Reader → res (B * Reader)) e x :
  string_ok s → reads (k s) e x →
  reads (λ r, let? '(bs, r) := Reader_bytes r in let? name := utf8 bs in k name r) ((to_be 4 (blen s) ++ s) ++ e) x.
Proof.
  intros [Hu Hs] Hk. apply (reads_bind Reader_bytes) with (x := s); [by apply reads_bytes|].
  unfold utf8, from_utf8. by rewrite Hu.
Qed.

Lemma reads_keyring k : opt_ok keyring_wf k → reads decode_keyring_at (keyring_bytes k) k.
Proof.
  intros Hk. unfold decode_keyring_at, keyring_bytes. destruct k as [e|].
  - destruct Hk as (Hs & Hn & Hw). apply (reads_bind Reader_u8) with (x := 1); [apply reads_u8|]. cbn [Z.eqb].
    apply (reads_bind (Reader_array SALT_LEN)) with (x := k_salt e); [by apply reads_array|].
    apply (reads_bind (Reader_array NONCE_LEN)) with (x := k_nonce e); [by apply reads_array|].
    pose proof (reads_map_ret _ (λ w, Some (mkKeyring (k_salt e) (k_nonce e) w)) _ _ (reads_bytes _ Hw)) as Hr.
    cbn beta in Hr. by destruct e.
  - rewrite <- (app_nil_r [0]). apply (reads_bind Reader_u8) with (x := 0); [apply reads_u8|apply reads_ret].
Qed.

Lemma unsigned_blen {A} (l : list A) : blen l < 2 ^ 32 → unsigned_ok 32 (blen l).
Proof. pose proof (blen_nonneg l). split; lia. Qed.

Lemma reads_user u : user_wf u → reads decode_user_at (user_bytes u) u.
Proof.
  intros [Hn Hu Hg Hc Hk]. unfold decode_user_at, user_bytes. apply reads_utf8; [done|].
  apply (reads_bind Reader_u32) with (x := u_uid u); [by apply reads_u32|].
  apply (reads_bind Reader_u8) with (x := if u_frozen u then 1 else 0); [apply reads_u8|].
  apply (reads_bind Reader_u32) with (x := blen (u_gids u)); [by apply reads_u32, unsigned_blen|].
  unfold blen at 1. rewrite Nat2Z.id.
  apply (reads_bind (read_n Reader_u32 (length (u_gids u)))) with (x := u_gids u).
  { apply reads_n. intros g Hin. apply reads_u32. rewrite Forall_forall in Hg. by apply Hg. }
  pose proof (reads_map_ret _ (λ k, mkUser (u_name u) (u_uid u) (negb ((if u_frozen u then 1 else 0) =? 0)) (u_gids u) k) _ _
    (reads_keyring _ Hk)) as Hr. cbn beta in Hr. by destruct u as [? ? [] ? ?].
Qed.

Lemma reads_group g : group_wf g → reads decode_group_at (group_bytes g) g.
Proof.
  intros [Hn Hg]. unfold decode_group_at, group_bytes. apply reads_utf8; [done|].
  pose proof (reads_map_ret _ (mkGroup (g_name g)) _ _ (reads_u32 _ Hg)) as Hr. by destruct g.
Qed.

(** Two counters, then the records: the shape of both blobs. *)
Lemma reads_table {A B} (dec : Reader → res (A * Reader)) (eb : A → bytes) (mk : Z → list A → B) n l :
  unsigned_ok 32 n → blen l < 2 ^ 32 → (∀ x, x ∈ l → reads dec (eb x) x) →
  reads (λ r, let? '(next, r) := Reader_u32 r in
              let? '(count, r) := Reader_u32 r in
              let? '(l, r) := read_n dec (Z.to_nat count) r in Ok (mk next l, r))
    (to_be 4 n ++ to_be 4 (blen l) ++ concat (map eb l)) (mk n l).
Proof.
  intros Hn Hl Hd. apply (reads_bind Reader_u32) with (x := n); [by apply reads_u32|].
  apply (reads_bind Reader_u32) with (x := blen l); [by apply reads_u32, unsigned_blen|].
  unfold blen at 1. rewrite Nat2Z.id. apply (reads_map_ret _ (mk n)). by apply reads_n.
Qed.

Lemma Users_roundtrip us : users_wf us → Users_decode (Users_encode us) = Ok us.
Proof.
  intros [Hn Hwf Hc Hs]. unfold Users_encode. rewrite (encode_list_eq encode_user user_bytes user_wf _ encode_user_eq Hwf).
  rewrite as_u32_small by (pose proof (blen_nonneg (users us)); lia). unfold put_u32. cbn [app]. rewrite <- app_assoc.
  pose proof (reads_table decode_user_at user_bytes mkUsers (next_uid us) (users us) Hn Hc) as Hr.
  rewrite Forall_forall in Hwf. specialize (Hr (λ x Hx, reads_user x (Hwf x Hx))). apply reads_whole in Hr.
  - unfold Users_decode. destruct (Reader_u32 _) as [[a r]|e| |]; cbn [rbind] in *; try done.
    destruct (Reader_u32 r) as [[b r']|e| |]; cbn [rbind] in *; try done.
    destruct (read_n _ _ r') as [[l r'']|e| |]; cbn [rbind] in *; try done. injection Hr as -> -> _. by destruct us.
  - unfold stored_size in Hs. rewrite !blen_app, !blen_to_be. lia.
Qed.

Lemma Groups_roundtrip gs : groups_wf gs → Groups_decode (Groups_encode gs) = Ok gs.
Proof.
  intros [Hn Hwf Hc Hs]. unfold Groups_encode. rewrite (encode_list_eq encode_group group_bytes group_wf _ encode_group_eq Hwf).
  rewrite as_u32_small by (pose proof (blen_nonneg (groups gs)); lia). unfold put_u32. cbn [app]. rewrite <- app_assoc.
  pose proof (reads_table decode_group_at group_bytes mkGroups (next_gid gs) (groups gs) Hn Hc) as Hr.
  rewrite Forall_forall in Hwf. specialize (Hr (λ x Hx, reads_group x (Hwf x Hx))). apply reads_whole in Hr.
  - unfold Groups_decode. destruct (Reader_u32 _) as [[a r]|e| |]; cbn [rbind] in *; try done.
    destruct (Reader_u32 r) as [[b r']|e| |]; cbn [rbind] in *; try done.
    destruct (read_n _ _ r') as [[l r'']|e| |]; cbn [rbind] in *; try done. injection Hr as -> -> _. by destruct gs.
  - unfold stored_size in Hs. rewrite !blen_app, !blen_to_be. lia.
Qed.

(** ** The directory *)

Record Directory := mkDirectory {
  a_users : gmap bytes UserRecord;
  a_groups : gmap bytes GroupRecord;
  a_next_uid : Z;
  a_next_gid : Z;
}.

Definition has_gid (groups : gmap bytes GroupRecord) (gid : Z) : Prop := ∃ n g, groups !! n = Some g ∧ g_gid g = gid.

Record user_fine (D : Directory) (n : bytes) (u : UserRecord) : Prop := {
  uf_name : u_name u = n;
  uf_wf : user_wf u;
  uf_below : u_uid u < a_next_uid D;
  uf_frozen : u_frozen u = true ↔ u_uid u = GUEST_UID;
  uf_gids gid : gid ∈ u_gids u → has_gid (a_groups D) gid;
}.

Record group_fine (D : Directory) (n : bytes) (g : GroupRecord) : Prop := {
  gf_name : g_name g = n;
  gf_wf : group_wf g;
  gf_below : g_gid g < a_next_gid D;
}.

Record directory_ok (D : Directory) : Prop := {
  do_users n u : a_users D !! n = Some u → user_fine D n u;
  do_groups n g : a_groups D !! n = Some g → group_fine D n g;
  do_uids m n u v : a_users D !! m = Some u → a_users D !! n = Some v → u_uid u = u_uid v → m = n;
  do_gids m n g h : a_groups D !! m = Some g → a_groups D !! n = Some h → g_gid g = g_gid h → m = n;
  do_next : 2 ≤ a_next_uid D < 2 ^ 32 ∧ 2 ≤ a_next_gid D < 2 ^ 32;
  do_master : ∃ u k, a_users D !! MASTER_USER = Some u ∧ u_uid u = MASTER_UID ∧ u_keyring u = Some k;
  do_guest : a_users D !! GUEST_USER = Some (mkUser GUEST_USER GUEST_UID true [] None);
  do_master_group : a_groups D !! MASTER_GROUP = Some (mkGroup MASTER_GROUP MASTER_GID);
  do_super_group : a_groups D !! SUPER_GROUP = Some (mkGroup SUPER_GROUP SUPER_GID);
}.

(** The administrative calls, [remove_group] and [remove_user] by what they do here. *)
Inductive AdminOp :=
| AddUser (seed : bytes) (salt nonce : option bytes) (name password : bytes) (create_group : bool)
| AddGroup (name : bytes)
| RenameUser (old new : bytes)
| RenameGroup (old new : bytes)
| Assign (user group : bytes)
| Unassign (user group : bytes)
| RemoveGroup (name : bytes)
| ForgetUser (uid : Z)
| ChangePassword (session : Session) (salt nonce : option bytes) (new_password : bytes).

Definition set_users (us : gmap bytes UserRecord) (D : Directory) := mkDirectory us (a_groups D) (a_next_uid D) (a_next_gid D).
Definition set_groups_ (gs : gmap bytes GroupRecord) (D : Directory) := mkDirectory (a_users D) gs (a_next_uid D) (a_next_gid D).

Definition a_new_group (name : bytes) (D : Directory) : res (Z * Directory) :=
  match a_groups D !! name with
  | Some _ => Err (CannotAccess "a group named '{name}' already exists")
  | None => Ok (a_next_gid D, mkDirectory (a_users D) (<[name := mkGroup name (a_next_gid D)]> (a_groups D))
                                (a_next_uid D) (a_next_gid D + 1))
  end.

Section spec.
Context `{Crypto}.

Definition a_admin (key : bytes) (op : AdminOp) (D : Directory) : res Directory :=
  match op with
  | AddUser seed salt nonce name password create_group =>
      let? k := wrap_secrets salt nonce password key seed in
      match a_users D !! name with
      | Some _ => Err (CannotAccess "a user named '{name}' already exists")
      | None =>
          let? '(gids, D) := if create_group then let? '(gid, D) := a_new_group name D in Ok ([gid], D) else Ok ([], D) in
          Ok (mkDirectory (<[name := mkUser name (a_next_uid D) false gids (Some k)]> (a_users D)) (a_groups D)
                (a_next_uid D + 1) (a_next_gid D))
      end
  | AddGroup name => let? '(_, D) := a_new_group name D in Ok D
  | RenameUser old new =>
      match a_users D !! new, a_users D !! old with
      | Some _, _ => Err (CannotAccess "a user named '{new}' already exists")
      | None, None => Err (CannotAccess "no user named '{old}'")
      | None, Some u =>
          if is_protected_user (u_uid u) then Err (PermissionDenied "the built-in user '{old}' cannot be renamed")
          else Ok (set_users (<[new := set_user_name new u]> (delete old (a_users D))) D)
      end
  | RenameGroup old new =>
      match a_groups D !! new, a_groups D !! old with
      | Some _, _ => Err (CannotAccess "a group named '{new}' already exists")
      | None, None => Err (CannotAccess "no group named '{old}'")
      | None, Some g =>
          if is_protected_group (g_gid g) then Err (PermissionDenied "the built-in group '{old}' cannot be renamed")
          else Ok (set_groups_ (<[new := mkGroup new (g_gid g)]> (delete old (a_groups D))) D)
      end
  | Assign user group =>
      match a_groups D !! group, a_users D !! user with
      | None, _ => Err (CannotAccess "no group named '{group}'")
      | Some _, None => Err (CannotAccess "no user named '{user}'")
      | Some g, Some u =>
          if u_frozen u then Err Frozen
          else if bool_decide (g_gid g ∈ u_gids u) then Ok D
          else Ok (set_users (<[user := set_gids (u_gids u ++ [g_gid g]) u]> (a_users D)) D)
      end
  | Unassign user group =>
      match a_groups D !! group, a_users D !! user with
      | None, _ => Err (CannotAccess "no group named '{group}'")
      | Some _, None => Err (CannotAccess "no user named '{user}'")
      | Some g, Some u => Ok (set_users (<[user := set_gids (retain_gids (g_gid g) (u_gids u)) u]> (a_users D)) D)
      end
  | RemoveGroup name =>
      match a_groups D !! name with
      | None => Err (CannotAccess "no group named '{name}'")
      | Some g =>
          if is_protected_group (g_gid g) then Err (PermissionDenied "the built-in group '{name}' cannot be removed")
          else Ok (mkDirectory ((λ u, set_gids (retain_gids (g_gid g) (u_gids u)) u) <$> a_users D)
                     (delete name (a_groups D)) (a_next_uid D) (a_next_gid D))
      end
  | ForgetUser uid => Ok (set_users (filter (λ nu, u_uid nu.2 ≠ uid) (a_users D)) D)
  | ChangePassword session salt nonce new_password =>
      let? k := wrap_secrets salt nonce new_password (s_key session) (s_sign_seed session) in
      if decide (map_Forall (λ _ u, u_uid u ≠ s_uid session) (a_users D))
      then Err (Corrupt "the authenticated user is missing from the store")
      else Ok (set_users ((λ u, if u_uid u =? s_uid session then set_keyring k u else u) <$> a_users D) D)
  end.

(** The arguments a call may be given; the built-in users are screened by the caller
    of [forget_user], and no session is the guest's. *)
Definition admin_ok (key : bytes) (op : AdminOp) : Prop :=
  match op with
  | AddUser seed salt nonce name password _ =>
      string_ok name ∧ blen seed = SEED_LEN ∧ ∀ k, wrap_secrets salt nonce password key seed = Ok k → keyring_wf k
  | AddGroup name => string_ok name
  | RenameUser _ new | RenameGroup _ new => string_ok new
  | Assign _ _ | Unassign _ _ | RemoveGroup _ => True
  | ForgetUser uid => uid ≠ MASTER_UID ∧ uid ≠ GUEST_UID
  | ChangePassword session salt nonce password =>
      s_key session = key ∧ blen (s_sign_seed session) = SEED_LEN ∧ s_uid session ≠ GUEST_UID ∧
      ∀ k, wrap_secrets salt nonce password key (s_sign_seed session) = Ok k → keyring_wf k
  end.

Lemma retain_gids_elem gid l g : g ∈ retain_gids gid l ↔ g ∈ l ∧ g ≠ gid.
Proof.
  unfold retain_gids. rewrite list_elem_of_In, List.filter_In, <- list_elem_of_In, negb_true_iff, Z.eqb_neq. done.
Qed.

Lemma retain_gids_id gid l : gid ∉ l → retain_gids gid l = l.
Proof.
  unfold retain_gids. induction l as [|g l IH]; [done|]. intros [Hne Hl]%not_elem_of_cons. cbn [List.filter].
  destruct (Z.eqb_spec g gid); [by subst|]. cbn [negb]. by rewrite IH.
Qed.

Lemma retain_gids_length gid l : blen (retain_gids gid l) ≤ blen l.
Proof. unfold retain_gids, blen. pose proof (List.filter_length_le (λ g, negb (g =? gid)) l). lia. Qed.

Lemma user_fine_same D D' n u :
  a_next_uid D ≤ a_next_uid D' → (∀ gid, has_gid (a_groups D) gid → has_gid (a_groups D') gid) →
  user_fine D n u → user_fine D' n u.
Proof. intros Hn Hg [? ? ? ? Hgids]. split; try done; [lia|]. auto. Qed.

Lemma user_fine_gids D n u gids :
  Forall (unsigned_ok 32) gids → blen gids < 2 ^ 32 → (∀ gid, gid ∈ gids → has_gid (a_groups D) gid) →
  user_fine D n u → user_fine D n (set_gids gids u).
Proof. intros Hu Hb Hg [? [] ? ? _]. by split. Qed.

Lemma group_gid D gid : directory_ok D → has_gid (a_groups D) gid → unsigned_ok 32 gid ∧ gid < a_next_gid D.
Proof. intros Hd (n & g & Hg & <-). destruct (do_groups D Hd n g Hg) as [_ [_ ?] ?]. done. Qed.

(** Replacing one user record by one with the same id. *)
Lemma directory_ok_set D n u v : directory_ok D → a_users D !! n = Some u →
  user_fine D n v → u_uid v = u_uid u → n ≠ GUEST_USER → (n = MASTER_USER → is_Some (u_keyring v)) →
  directory_ok (set_users (<[n := v]> (a_users D)) D).
Proof.
  intros Hd Hu Hv Euid Hng Hk. pose proof Hd as [Hus Hgs Hui Hgi Hnx (mu & k & Hm & Hmu & Hmk) Hgu Hmg Hsg].
  split; cbn [a_users a_groups a_next_uid a_next_gid set_users]; try done.
  - intros m w. destruct (decide (m = n)) as [->|Hne].
    + rewrite lookup_insert_eq. intros [= <-]. by destruct Hv.
    + rewrite lookup_insert_ne by done. intros Hw. by destruct (Hus m w Hw).
  - intros m g Hg. by destruct (Hgs m g Hg).
  - intros m m' w w'. rewrite !lookup_insert_Some. intros [[<- <-]|[Hm1 Hw]] [[<- <-]|[Hm2 Hw']] E; [done|..|by eapply Hui].
    + rewrite Euid in E. by eapply Hui.
    + rewrite Euid in E. by eapply Hui.
  - destruct (decide (n = MASTER_USER)) as [->|Hne].
    + destruct (Hk eq_refl) as [k' Hk']. exists v, k'. rewrite lookup_insert_eq. split_and!; [done|congruence|done].
    + exists mu, k. by rewrite lookup_insert_ne.
  - by rewrite lookup_insert_ne.
Qed.

Lemma not_guest D n u : directory_ok D → a_users D !! n = Some u → u_uid u ≠ GUEST_UID → n ≠ GUEST_USER.
Proof. intros Hd Hu Hne ->. rewrite (do_guest D Hd) in Hu. by injection Hu as <-. Qed.

Lemma a_new_group_ok D name gid D' : directory_ok D → string_ok name → a_next_gid D < U32_MAX →
  a_new_group name D = Ok (gid, D') →
  directory_ok D' ∧ gid = a_next_gid D ∧ has_gid (a_groups D') gid ∧ a_users D' = a_users D ∧ a_next_uid D' = a_next_uid D.
Proof.
  intros Hd Hn Hlt. unfold a_new_group. destruct (a_groups D !! name) as [|] eqn:E; [done|]. intros [= <- <-].
  pose proof Hd as [Hus Hgs Hui Hgi [Hnu Hng] Hm Hgu Hmg Hsg]. unfold U32_MAX in Hlt.
  split_and!; try done; [|exists name, (mkGroup name (a_next_gid D)); cbn; by rewrite lookup_insert_eq].
  assert (∀ m g, a_groups D !! m = Some g → <[name := mkGroup name (a_next_gid D)]> (a_groups D) !! m = Some g) as Hkeep.
  { intros m g Hg. rewrite lookup_insert_ne; [done|]. intros ->. congruence. }
  split; cbn [a_users a_groups a_next_uid a_next_gid]; try done.
  - intros m u Hu. eapply user_fine_same; [| |by apply Hus]; [done|]. intros g (x & y & Hxy & Hg). exists x, y. split; [by apply Hkeep|done].
  - intros m g. rewrite lookup_insert_Some. intros [[<- <-]|[_ Hg]].
    + split; [done| |cbn; lia]. split; [done|]. split; cbn; lia.
    + destruct (Hgs m g Hg). split; cbn; [done..|lia].
  - intros m m' g g'. rewrite !lookup_insert_Some. intros [[<- <-]|[Hne Hg]] [[<- <-]|[Hne' Hg']] Eg; cbn in Eg; [done|..|by eapply Hgi].
    + destruct (Hgs _ _ Hg') as [_ _ ?]. lia.
    + destruct (Hgs _ _ Hg) as [_ _ ?]. lia.
  - split; [done|lia].
  - by apply Hkeep.
  - by apply Hkeep.
Qed.

(** ** Every update keeps the directory well-formed *)

Definition directory_room (D : Directory) : Prop :=
  a_next_uid D < U32_MAX ∧ a_next_gid D < U32_MAX ∧
  ∀ n u, a_users D !! n = Some u → blen (u_gids u) + 1 < 2 ^ 32.

Lemma add_user_ok D name gids k : directory_ok D → string_ok name → a_next_uid D < U32_MAX →
  a_users D !! name = None → keyring_wf k → Forall (unsigned_ok 32) gids → blen gids < 2 ^ 32 →
  (∀ gid, gid ∈ gids → has_gid (a_groups D) gid) →
  directory_ok (mkDirectory (<[name := mkUser name (a_next_uid D) false gids (Some k)]> (a_users D)) (a_groups D)
                  (a_next_uid D + 1) (a_next_gid D)).
Proof.
  intros Hd Hn Hlt Hnone Hk Hg Hc Hgids. pose proof Hd as [Hus Hgs Hui Hgi [Hnu Hng] (mu & mk & Hm & Hmk) Hgu Hmg Hsg].
  unfold U32_MAX in Hlt.
  assert (∀ m u, a_users D !! m = Some u → <[name := mkUser name (a_next_uid D) false gids (Some k)]> (a_users D) !! m = Some u) as Hkeep.
  { intros m u Hu. rewrite lookup_insert_ne; [done|]. intros ->. congruence. }
  split; cbn [a_users a_groups a_next_uid a_next_gid]; try done.
  - intros m u. rewrite lookup_insert_Some. intros [[<- <-]|[_ Hu]].
    + split; cbn; [done| |lia| |done].
      * split; [done|split; cbn; lia|done|done|done].
      * split; [done|]. unfold GUEST_UID. lia.
    + eapply user_fine_same; [| |by apply Hus]; [cbn; lia|done].
  - intros m g Hm'. by destruct (Hgs m g Hm').
  - intros m m' u u'. rewrite !lookup_insert_Some. intros [[<- <-]|[Hne Hu]] [[<- <-]|[Hne' Hu']] Eu; cbn in Eu; [done|..|by eapply Hui].
    + destruct (Hus _ _ Hu') as [_ _ ? _ _]. lia.
    + destruct (Hus _ _ Hu) as [_ _ ? _ _]. lia.
  - split; [lia|done].
  - exists mu, mk. split; [by apply Hkeep|done].
  - by apply Hkeep.
Qed.

Lemma rename_user_ok D old new u : directory_ok D → string_ok new → a_users D !! new = None →
  a_users D !! old = Some u → is_protected_user (u_uid u) = false →
  directory_ok (set_users (<[new := set_user_name new u]> (delete old (a_users D))) D).
Proof.
  intros Hd Hn Hnone Hu Hp. pose proof Hd as [Hus Hgs Hui Hgi Hnx (mu & mk & Hm & Hmu & Hmk) Hgu Hmg Hsg].
  apply orb_false_iff in Hp as [Hp1%Z.eqb_neq Hp2%Z.eqb_neq].
  assert (∀ m w, m ≠ old → a_users D !! m = Some w →
    <[new := set_user_name new u]> (delete old (a_users D)) !! m = Some w) as Hkeep.
  { intros m w Hne Hw. rewrite lookup_insert_ne by (intros ->; congruence). by rewrite lookup_delete_ne. }
  assert (∀ m w, <[new := set_user_name new u]> (delete old (a_users D)) !! m = Some w →
    ∃ m0 w0, a_users D !! m0 = Some w0 ∧ u_uid w0 = u_uid w ∧ (m0 = old ∧ m = new ∨ m0 = m)) as Hback.
  { intros m w. rewrite lookup_insert_Some, lookup_delete_Some. intros [[<- <-]|(_ & _ & Hw)]; [by exists old, u; auto|by exists m, w; auto]. }
  split; cbn [a_users a_groups a_next_uid a_next_gid set_users]; try done.
  - intros m w. rewrite lookup_insert_Some, lookup_delete_Some. intros [[<- <-]|(_ & _ & Hw)].
    + destruct (Hus old u Hu) as [_ [] ? ? ?]. by split.
    + by destruct (Hus m w Hw).
  - intros m g Hg. by destruct (Hgs m g Hg).
  - intros m m' w w' Hw Hw' E. destruct (Hback m w Hw) as (m0 & w0 & Hm0 & Ew0 & Hc).
    destruct (Hback m' w' Hw') as (m1 & w1 & Hm1 & Ew1 & Hc').
    assert (m0 = m1) as -> by (eapply Hui; [done..|congruence]).
    destruct Hc as [[-> ->]|<-], Hc' as [[? ->]|<-]; try done; exfalso; subst.
    + rewrite lookup_insert_ne, lookup_delete_eq in Hw'; [done|]. intros ->. congruence.
    + rewrite lookup_insert_ne, lookup_delete_eq in Hw; [done|]. intros ->. congruence.
  - exists mu, mk. split; [|done]. apply Hkeep; [|done]. intros <-. congruence.
  - apply Hkeep; [|done]. intros <-. rewrite Hgu in Hu. by injection Hu as <-.
Qed.

Lemma rename_group_ok D old new g : directory_ok D → string_ok new → a_groups D !! new = None →
  a_groups D !! old = Some g → is_protected_group (g_gid g) = false →
  directory_ok (set_groups_ (<[new := mkGroup new (g_gid g)]> (delete old (a_groups D))) D).
Proof.
  intros Hd Hn Hnone Hg Hp. pose proof Hd as [Hus Hgs Hui Hgi Hnx Hm Hgu Hmg Hsg].
  apply orb_false_iff in Hp as [Hp1%Z.eqb_neq Hp2%Z.eqb_neq].
  assert (∀ m w, m ≠ old → a_groups D !! m = Some w →
    <[new := mkGroup new (g_gid g)]> (delete old (a_groups D)) !! m = Some w) as Hkeep.
  { intros m w Hne Hw. rewrite lookup_insert_ne by (intros ->; congruence). by rewrite lookup_delete_ne. }
  assert (∀ m w, <[new := mkGroup new (g_gid g)]> (delete old (a_groups D)) !! m = Some w →
    ∃ m0 w0, a_groups D !! m0 = Some w0 ∧ g_gid w0 = g_gid w ∧ (m0 = old ∧ m = new ∨ m0 = m)) as Hback.
  { intros m w. rewrite lookup_insert_Some, lookup_delete_Some. intros [[<- <-]|(_ & _ & Hw)]; [by exists old, g; auto|by exists m, w; auto]. }
  split; cbn [a_users a_groups a_next_uid a_next_gid set_groups_]; try done.
  - intros m u Hu. eapply user_fine_same; [| |by apply Hus]; [done|]. intros gid (n & h & Hh & <-).
    destruct (decide (n = old)) as [->|Hne].
    + exists new, (mkGroup new (g_gid g)). cbn. rewrite lookup_insert_eq. split; [done|]. cbn. congruence.
    + exists n, h. split; [by apply Hkeep|done].
  - intros m w. rewrite lookup_insert_Some, lookup_delete_Some. intros [[<- <-]|(_ & _ & Hw)].
    + destruct (Hgs old g Hg) as [_ [_ ?] ?]. by split.
    + by destruct (Hgs m w Hw).
  - intros m m' w w' Hw Hw' E. destruct (Hback m w Hw) as (m0 & w0 & Hm0 & Ew0 & Hc).
    destruct (Hback m' w' Hw') as (m1 & w1 & Hm1 & Ew1 & Hc').
    assert (m0 = m1) as -> by (eapply Hgi; [done..|congruence]).
    destruct Hc as [[-> ->]|<-], Hc' as [[? ->]|<-]; try done; exfalso; subst.
    + rewrite lookup_insert_ne, lookup_delete_eq in Hw'; [done|]. intros ->. congruence.
    + rewrite lookup_insert_ne, lookup_delete_eq in Hw; [done|]. intros ->. congruence.
  - apply Hkeep; [|done]. intros <-. rewrite Hmg in Hg. by injection Hg as <-.
  - apply Hkeep; [|done]. intros <-. rewrite Hsg in Hg. by injection Hg as <-.
Qed.

Lemma remove_group_ok D name g : directory_ok D → a_groups D !! name = Some g → is_protected_group (g_gid g) = false →
  directory_ok (mkDirectory ((λ u, set_gids (retain_gids (g_gid g) (u_gids u)) u) <$> a_users D)
                  (delete name (a_groups D)) (a_next_uid D) (a_next_gid D)).
Proof.
  intros Hd Hg Hp. pose proof Hd as [Hus Hgs Hui Hgi Hnx (mu & mk & Hm & Hmu & Hmk) Hgu Hmg Hsg].
  apply orb_false_iff in Hp as [Hp1%Z.eqb_neq Hp2%Z.eqb_neq].
  split; cbn [a_users a_groups a_next_uid a_next_gid]; try done.
  - intros m w. rewrite lookup_fmap_Some. intros (u & <- & Hu). destruct (Hus m u Hu) as [? [] ? ? Hin]. split; try done.
    + split; try done; cbn.
      * rewrite Forall_forall in * |- *. intros gid [Hi _]%retain_gids_elem. auto.
      * pose proof (retain_gids_length (g_gid g) (u_gids u)). lia.
    + cbn. intros gid [Hi Hne]%retain_gids_elem. destruct (Hin gid Hi) as (n & h & Hh & Eh). exists n, h. split; [|done].
      rewrite lookup_delete_ne; [done|]. intros ->. congruence.
  - intros m w. rewrite lookup_delete_Some. intros [_ Hw]. by destruct (Hgs m w Hw).
  - intros m n u v. rewrite !lookup_fmap_Some. intros (u0 & <- & Hu0) (v0 & <- & Hv0). cbn. by apply Hui.
  - intros m n h h'. rewrite !lookup_delete_Some. intros [_ Hh] [_ Hh']. by apply Hgi.
  - exists (set_gids (retain_gids (g_gid g) (u_gids mu)) mu), mk. rewrite lookup_fmap, Hm. done.
  - by rewrite lookup_fmap, Hgu.
  - rewrite lookup_delete_ne; [done|]. intros ->. rewrite Hmg in Hg. by injection Hg as <-.
  - rewrite lookup_delete_ne; [done|]. intros ->. rewrite Hsg in Hg. by injection Hg as <-.
Qed.

Lemma forget_user_ok D uid : directory_ok D → uid ≠ MASTER_UID → uid ≠ GUEST_UID →
  directory_ok (set_users (filter (λ nu, u_uid nu.2 ≠ uid) (a_users D)) D).
Proof.
  intros Hd Hm0 Hg0. pose proof Hd as [Hus Hgs Hui Hgi Hnx (mu & mk & Hm & Hmu & Hmk) Hgu Hmg Hsg].
  split; cbn [a_users a_groups a_next_uid a_next_gid set_users]; try done.
  - intros m u [Hu _]%map_lookup_filter_Some. by destruct (Hus m u Hu).
  - intros m g Hg. by destruct (Hgs m g Hg).
  - intros m n u v [Hu _]%map_lookup_filter_Some [Hv _]%map_lookup_filter_Some. by apply Hui.
  - exists mu, mk. split; [|done]. apply map_lookup_filter_Some. split; [done|]. cbn. congruence.
  - apply map_lookup_filter_Some. split; [done|]. cbn. congruence.
Qed.

Lemma change_password_ok D uid k : directory_ok D → uid ≠ GUEST_UID → keyring_wf k →
  directory_ok (set_users ((λ u, if u_uid u =? uid then set_keyring k u else u) <$> a_users D) D).
Proof.
  intros Hd Hne Hk. pose proof Hd as [Hus Hgs Hui Hgi Hnx (mu & mk & Hm & Hmu & Hmk) Hgu Hmg Hsg].
  assert (∀ u, u_uid (if u_uid u =? uid then set_keyring k u else u) = u_uid u) as Eu by (intros u; by destruct (u_uid u =? uid)).
  split; cbn [a_users a_groups a_next_uid a_next_gid set_users]; try done.
  - intros m w. rewrite lookup_fmap_Some. intros (u & <- & Hu). destruct (Hus m u Hu) as [? [] ? ? ?].
    destruct (u_uid u =? uid); (split; try done; by split).
  - intros m g Hg. by destruct (Hgs m g Hg).
  - intros m n u v. rewrite !lookup_fmap_Some. intros (u0 & <- & Hu0) (v0 & <- & Hv0). rewrite !Eu. by apply Hui.
  - exists (if u_uid mu =? uid then set_keyring k mu else mu). rewrite lookup_fmap, Hm. cbn -[Z.eqb]. destruct (u_uid mu =? uid); [exists k|exists mk]; done.
  - rewrite lookup_fmap, Hgu. cbn -[Z.eqb GUEST_UID]. destruct (Z.eqb_spec GUEST_UID uid); [by subst|done].
Qed.

Lemma a_admin_ok key op D D' : directory_ok D → directory_room D → admin_ok key op →
  a_admin key op D = Ok D' → directory_ok D'.
Proof.
  intros Hd (Hnu & Hng & Hgn) Hok. pose proof Hd as [Hus Hgs _ _ _ _ _ _ _].
  destruct op as [seed salt nonce name pw cg|name|old new|old new|user group|user group|name|uid|s salt nonce pw]; cbn [a_admin admin_ok] in *.
  - destruct Hok as (Hn & _ & Hk). destruct (wrap_secrets _ _ _ _ _) as [k|e| |]; cbn [rbind]; try done.
    specialize (Hk k eq_refl). destruct (a_users D !! name) eqn:E; [done|].
    destruct cg; cbn [rbind].
    + destruct (a_new_group name D) as [[gid D1]|e| |] eqn:Eg; cbn [rbind]; try done. intros [= <-].
      destruct (a_new_group_ok D name gid D1 Hd Hn Hng Eg) as (Hd1 & Egid & Hhas & Eu & En).
      destruct (group_gid D1 gid Hd1 Hhas). rewrite <- Eu in E. rewrite <- En in Hnu.
      apply add_user_ok; try done; [by apply Forall_singleton|]. by intros g ->%list_elem_of_singleton.
    + intros [= <-]. apply add_user_ok; try done. by intros g ?%elem_of_nil.
  - destruct (a_new_group name D) as [[gid D1]|e| |] eqn:Eg; cbn [rbind]; try done. intros [= <-].
    by apply (a_new_group_ok D name gid D1 Hd Hok Hng Eg).
  - destruct (a_users D !! new) eqn:En; [done|]. destruct (a_users D !! old) as [u|] eqn:Eo; [|done].
    destruct (is_protected_user (u_uid u)) eqn:Ep; [done|]. intros [= <-]. by apply rename_user_ok.
  - destruct (a_groups D !! new) eqn:En; [done|]. destruct (a_groups D !! old) as [g|] eqn:Eo; [|done].
    destruct (is_protected_group (g_gid g)) eqn:Ep; [done|]. intros [= <-]. by apply rename_group_ok.
  - destruct (a_groups D !! group) as [g|] eqn:Eg; [|done]. destruct (a_users D !! user) as [u|] eqn:Eu; [|done].
    destruct (u_frozen u) eqn:Ef; [done|]. case_bool_decide; [by intros [= <-]|]. intros [= <-].
    pose proof (Hus user u Eu) as Hfu. pose proof Hfu as [_ [_ _ Hu32 _ _] _ Hfz Hin].
    assert (has_gid (a_groups D) (g_gid g)) as Hh by (by exists group, g). destruct (group_gid D _ Hd Hh) as [Hg32 _].
    apply (directory_ok_set D user u); try done.
    + apply user_fine_gids; [|rewrite blen_app; by apply (Hgn user u)| |done].
      * apply Forall_app. split; [done|]. by apply Forall_singleton.
      * intros gid [Hi|Hi%list_elem_of_singleton]%elem_of_app; [by apply Hin|by subst].
    + eapply not_guest; [done..|]. intros E. rewrite (proj2 Hfz E) in Ef. done.
    + intros ->. destruct (do_master D Hd) as (mu & mk & Hm & _ & Hk). rewrite Eu in Hm. injection Hm as ->. cbn. by rewrite Hk.
  - destruct (a_groups D !! group) as [g|] eqn:Eg; [|done]. destruct (a_users D !! user) as [u|] eqn:Eu; [|done]. intros [= <-].
    pose proof (Hus user u Eu) as Hfu. pose proof Hfu as [_ [_ _ Hu32 Hc _] _ Hfz Hin].
    destruct (decide (user = GUEST_USER)) as [->|Hne].
    { rewrite (do_guest D Hd) in Eu. injection Eu as <-. cbn. rewrite insert_id by apply Hd. by destruct D. }
    apply (directory_ok_set D user u); try done.
    + apply user_fine_gids; [| | |done].
      * rewrite Forall_forall in Hu32 |- *. intros gid [Hi _]%retain_gids_elem. auto.
      * pose proof (retain_gids_length (g_gid g) (u_gids u)). lia.
      * intros gid [Hi _]%retain_gids_elem. auto.
    + intros ->. destruct (do_master D Hd) as (mu & mk & Hm & _ & Hk). rewrite Eu in Hm. injection Hm as ->. cbn. by rewrite Hk.
  - destruct (a_groups D !! name) as [g|] eqn:Eg; [|done]. destruct (is_protected_group (g_gid g)) eqn:Ep; [done|].
    intros [= <-]. by apply remove_group_ok.
  - intros [= <-]. destruct Hok. by apply forget_user_ok.
  - destruct Hok as (<- & _ & Hne & Hk). destruct (wrap_secrets _ _ _ _ _) as [k|e| |]; cbn [rbind]; try done.
    destruct (decide _); [done|]. intros [= <-]. apply change_password_ok; [done..|]. by apply Hk.
Qed.
End spec.

(** ** Stores and their directory *)

Definition dir_of (us : Users) (gs : Groups) : Directory :=
  mkDirectory (by_name u_name (users us)) (by_name g_name (groups gs)) (next_uid us) (next_gid gs).

Definition names_ok (us : Users) (gs : Groups) : Prop :=
  NoDup (map u_name (users us)) ∧ NoDup (map g_name (groups gs)).

Definition sizes_ok (us : Users) (gs : Groups) (users_slack count_slack : Z) : Prop :=
  blen (users us) + count_slack < 2 ^ 32 ∧ blen (groups gs) + count_slack < 2 ^ 32 ∧
  stored_size user_bytes (users us) + users_slack ≤ USIZE_MAX ∧
  stored_size group_bytes (groups gs) + users_slack ≤ USIZE_MAX.

Lemma stored_size_nonneg {A} (enc : A → bytes) l : 8 ≤ stored_size enc l.
Proof. unfold stored_size. pose proof (blen_nonneg (concat (map enc l))). lia. Qed.

Lemma stored_size_mid {A} (enc : A → bytes) l1 x l2 :
  stored_size enc (l1 ++ x :: l2) = stored_size enc (l1 ++ l2) + blen (enc x).
Proof. unfold stored_size. rewrite !map_app, map_cons, !concat_app. cbn [concat]. rewrite !blen_app. lia. Qed.

Lemma stored_size_map {A} (enc : A → bytes) f l :
  Forall (λ x, blen (enc (f x)) ≤ blen (enc x)) l → stored_size enc (map f l) ≤ stored_size enc l.
Proof.
  unfold stored_size. induction 1 as [|x l Hx _ IH]; [done|]. cbn [map concat]. rewrite !blen_app. lia.
Qed.

Lemma stored_size_filter {A} (enc : A → bytes) p l : stored_size enc (List.filter p l) ≤ stored_size enc l.
Proof.
  unfold stored_size. induction l as [|x l IH]; [done|]. cbn [List.filter]. destruct (p x); cbn [map concat]; rewrite ?blen_app.
  - lia.
  - pose proof (blen_nonneg (enc x)). lia.
Qed.

Lemma user_bytes_len u : user_wf u → blen (user_bytes u) ≤ 2 ^ 35.
Proof.
  intros [[_ Hn] _ _ Hc Hk]. unfold user_bytes. rewrite !blen_app, !blen_to_be.
  assert (blen (concat (map (to_be 4) (u_gids u))) = 4 * blen (u_gids u)) as ->.
  { generalize (u_gids u). induction l as [|g l IH]; [done|]. cbn [map concat]. rewrite blen_app, blen_to_be, blen_cons, IH. lia. }
  change (blen [if u_frozen u then 1 else 0]) with 1. unfold keyring_bytes. destruct (u_keyring u) as [k|]; [|change (blen [0]) with 1; lia].
  destruct Hk as (Hs & Hno & Hw). rewrite !blen_app, blen_to_be, Hs, Hno. change (blen [1]) with 1. unfold SALT_LEN, NONCE_LEN. lia.
Qed.

Lemma group_bytes_len g : group_wf g → blen (group_bytes g) ≤ 2 ^ 35.
Proof. intros [[_ Hn] _]. unfold group_bytes. rewrite !blen_app, !blen_to_be. lia. Qed.

Lemma keyed_user_bytes u gid : blen (user_bytes (set_gids (retain_gids gid (u_gids u)) u)) ≤ blen (user_bytes u).
Proof.
  unfold user_bytes. cbn [u_name u_uid u_frozen u_gids u_keyring set_gids]. rewrite !blen_app, !blen_to_be.
  assert (∀ l, blen (concat (map (to_be 4) l)) = 4 * blen l) as Hl.
  { induction l as [|g l IH]; [done|]. cbn [map concat]. rewrite blen_app, blen_to_be, blen_cons, IH. lia. }
  rewrite !Hl. pose proof (retain_gids_length gid (u_gids u)). lia.
Qed.

(** Finding by id, where ids are distinct. *)
Lemma edit_by_id {A} (id : A → Z) n f l : NoDup (map id l) →
  edit_first (λ x, id x =? n) f l = map (λ x, if id x =? n then f x else x) l.
Proof.
  induction l as [|x l IH]; cbn [edit_first map]; [done|]. intros [Hx Hnd]%NoDup_cons.
  destruct (Z.eqb_spec (id x) n) as [E|Hne]; [|by rewrite IH]. f_equal. rewrite <- (map_id l) at 1. apply map_ext_in.
  intros y Hy. destruct (Z.eqb_spec (id y) n) as [E'|]; [|done]. destruct Hx. rewrite E, <- E'. apply list_elem_of_fmap.
  exists y. split; [done|]. by apply list_elem_of_In.
Qed.

Lemma ids_nodup {A} (name : A → bytes) (id : A → Z) l : NoDup (map name l) →
  (∀ m n x y, by_name name l !! m = Some x → by_name name l !! n = Some y → id x = id y → m = n) → NoDup (map id l).
Proof.
  intros Hnd Hinj. assert (∀ x y, x ∈ l → y ∈ l → id x = id y → name x = name y) as Hi.
  { intros x y Hx Hy E. apply (Hinj (name x) (name y) x y); [by apply by_name_lookup..|done]. }
  clear Hinj. induction l as [|x l IH]; cbn [map] in *; [constructor|]. apply NoDup_cons in Hnd as [Hx Hnd]. apply NoDup_cons. split.
  - intros (y & E & Hy)%list_elem_of_fmap. apply Hx. apply list_elem_of_fmap. exists y. split; [|done].
    apply Hi; [by left|by right|done].
  - apply IH; [done|]. intros y z Hy Hz. apply Hi; by right.
Qed.

Lemma kv_insert_eq {T K V} `{KVLaws T K V} (t : T) k v : kv_get (kv_insert t k v) k = Some v.
Proof. by rewrite kv_get_insert, decide_True. Qed.
Lemma kv_insert_ne {T K V} `{KVLaws T K V} (t : T) k v j : j ≠ k → kv_get (kv_insert t k v) j = kv_get t j.
Proof. intros Hj. by rewrite kv_get_insert, decide_False. Qed.

(** Reads of a metadata table after writes at literal keys. *)
Ltac read_back := repeat (rewrite kv_insert_eq || rewrite kv_insert_ne by (by vm_compute)).

Section store_spec.
Context `{Crypto} `{!CryptoLaws} {M : Type} `{KV M bytes bytes} `{!KVLaws M bytes bytes}.
Implicit Types (meta : M) (key : bytes).

(** The metadata table holds the users [us] and the groups [gs], sealed under [key]. *)
Record holds_store meta key (us : Users) (gs : Groups) : Prop := {
  hs_users : kv_get meta META_USERS_KEY = Some (Users_encode us);
  hs_groups : kv_get meta META_GROUPS_KEY = Some (Groups_encode gs);
  hs_names : names_ok us gs;
  hs_sizes : sizes_ok us gs 0 0;
  hs_ok : directory_ok (dir_of us gs);
  hs_sealed : verify_control meta key = Ok tt;
  hs_key : blen key = KEY_LEN;
}.

Lemma users_wf_of us gs : names_ok us gs → sizes_ok us gs 0 0 → directory_ok (dir_of us gs) → users_wf us ∧ groups_wf gs.
Proof.
  intros [Hun Hgn] (Hcu & Hcg & Hsu & Hsg) [Hus Hgs _ _ Hnx _ _ _ _]. cbn in *. split; split; try (unfold unsigned_ok; lia).
  - apply Forall_forall. intros u Hu. apply (Hus (u_name u) u). by apply by_name_lookup.
  - apply Forall_forall. intros g Hg. apply (Hgs (g_name g) g). by apply by_name_lookup.
Qed.

Lemma holds_users meta key us gs : holds_store meta key us gs → Users_load meta = Ok us ∧ Groups_load meta = Ok gs.
Proof.
  intros [Hu Hg Hn Hs Hd _ _]. destruct (users_wf_of us gs Hn Hs Hd). unfold Users_load, Groups_load. rewrite Hu, Hg.
  split; [by apply Users_roundtrip|by apply Groups_roundtrip].
Qed.

Lemma sealed_epoch meta key : verify_control meta key = Ok tt → ∃ e, read_epoch meta = Ok e.
Proof. unfold verify_control. destruct (read_epoch meta) as [e|e| |]; [by exists e|done..]. Qed.

Lemma seal_control_spec meta key e : blen key = KEY_LEN → read_epoch meta = Ok e →
  ∃ meta', seal_control key meta = Ok meta' ∧ verify_control meta' key = Ok tt ∧
    ∀ k, k ≠ META_EPOCH_KEY → k ≠ META_CONTROL_MAC_KEY → kv_get meta' k = kv_get meta k.
Proof.
  intros Hk He. unfold seal_control. rewrite He. cbn [rbind]. unfold mac_control. rewrite keyed_Ok by done. cbn [rbind].
  eexists. split; [done|]. split.
  - unfold verify_control, read_pubkey_bytes, read_epoch, mac_control. read_back. rewrite blen_to_be. change (Z.of_nat 8 =? 8) with true. cbn [rbind].
    rewrite of_be_to_be_id by (apply Z.mod_pos_bound; lia). rewrite keyed_Ok by done. cbn [rbind].
    rewrite ct_eq_spec. by rewrite bool_decide_true.
  - intros k Hne1 Hne2. by rewrite !kv_insert_ne.
Qed.

(** Whatever was written, sealing makes a store of it. *)
Lemma seal_holds meta key us gs : blen key = KEY_LEN → (∃ e, read_epoch meta = Ok e) →
  kv_get meta META_USERS_KEY = Some (Users_encode us) → kv_get meta META_GROUPS_KEY = Some (Groups_encode gs) →
  names_ok us gs → sizes_ok us gs 0 0 → directory_ok (dir_of us gs) →
  ∃ meta', seal_control key meta = Ok meta' ∧ holds_store meta' key us gs.
Proof.
  intros Hk [e He] Hu Hg Hn Hs Hd. destruct (seal_control_spec meta key e Hk He) as (meta' & E & Hv & Hsame).
  exists meta'. split; [done|]. split; try done; rewrite Hsame; done.
Qed.

Lemma read_epoch_insert meta k v : k ≠ META_EPOCH_KEY → read_epoch (kv_insert meta k v) = read_epoch meta.
Proof. intros Hk. unfold read_epoch. by rewrite kv_get_insert, decide_False. Qed.

Lemma commit_users meta key us gs us' : holds_store meta key us gs →
  NoDup (map u_name (users us')) → sizes_ok us' gs 0 0 → directory_ok (dir_of us' gs) →
  ∃ meta', seal_control key (Users_store us' meta) = Ok meta' ∧ holds_store meta' key us' gs.
Proof.
  intros [Hu Hg [_ Hn] _ _ Hv Hk] Hn' Hs' Hd'. apply seal_holds; try done.
  - unfold Users_store. rewrite read_epoch_insert by (by vm_compute). by eapply sealed_epoch.
  - unfold Users_store. by read_back.
  - unfold Users_store. by read_back.
Qed.

Lemma commit_both meta key us gs us' gs' : holds_store meta key us gs →
  names_ok us' gs' → sizes_ok us' gs' 0 0 → directory_ok (dir_of us' gs') →
  (∃ meta', seal_control key (Users_store us' (Groups_store gs' meta)) = Ok meta' ∧ holds_store meta' key us' gs') ∧
  (∃ meta', seal_control key (Groups_store gs' (Users_store us' meta)) = Ok meta' ∧ holds_store meta' key us' gs').
Proof.
  intros [Hu Hg _ _ _ Hv Hk] Hn' Hs' Hd'. pose proof (sealed_epoch _ _ Hv) as He.
  split; apply seal_holds; try done; unfold Users_store, Groups_store; rewrite ?read_epoch_insert by (by vm_compute); try done;
    by read_back.
Qed.

Lemma commit_groups meta key us gs gs' : holds_store meta key us gs →
  NoDup (map g_name (groups gs')) → sizes_ok us gs' 0 0 → directory_ok (dir_of us gs') →
  ∃ meta', seal_control key (Groups_store gs' meta) = Ok meta' ∧ holds_store meta' key us gs'.
Proof.
  intros [Hu Hg [Hn _] _ _ Hv Hk] Hn' Hs' Hd'. apply seal_holds; try done.
  - unfold Groups_store. rewrite read_epoch_insert by (by vm_compute). by eapply sealed_epoch.
  - unfold Groups_store. by read_back.
  - unfold Groups_store. by read_back.
Qed.

(** ** Each call against its update *)

Definition run_admin key (op : AdminOp) meta : res M :=
  match op with
  | AddUser seed salt nonce name password create_group => add_user key seed salt nonce name password create_group meta
  | AddGroup name => add_group key name meta
  | RenameUser old new => rename_user key old new meta
  | RenameGroup old new => rename_group key old new meta
  | Assign user group => assign key user group meta
  | Unassign user group => unassign key user group meta
  | RemoveGroup name => let? '(_, meta) := remove_group_meta key name meta in Ok meta
  | ForgetUser uid => forget_user key uid meta
  | ChangePassword session salt nonce password => change_user_password session salt nonce password meta
  end.

(** The call does what the directory update says, or fails as it does. *)
Definition refines meta key us gs (op : AdminOp) : Prop :=
  match a_admin key op (dir_of us gs) with
  | Ok D => ∃ meta' us' gs', run_admin key op meta = Ok meta' ∧ holds_store meta' key us' gs' ∧ dir_of us' gs' = D
  | Err e => run_admin key op meta = Err e
  | _ => False
  end.

Context (meta : M) (key : bytes) (us : Users) (gs : Groups).
Hypothesis Hstore : holds_store meta key us gs.
Hypothesis Hsizes : sizes_ok us gs (2 ^ 36) 1.
Hypothesis Hroom : directory_room (dir_of us gs).

Lemma unames : NoDup (map u_name (users us)).
Proof using Hstore. apply Hstore. Qed.
Lemma gnames : NoDup (map g_name (groups gs)).
Proof using Hstore. apply Hstore. Qed.

Lemma user_named n : List.find (named_user n) (users us) = by_name u_name (users us) !! n.
Proof using Hstore. apply find_by_name, unames. Qed.
Lemma group_named n : List.find (named_group n) (groups gs) = by_name g_name (groups gs) !! n.
Proof using Hstore. apply find_by_name, gnames. Qed.
Lemma user_exists n : existsb (named_user n) (users us) = bool_decide (is_Some (by_name u_name (users us) !! n)).
Proof using Hstore. apply existsb_by_name, unames. Qed.
Lemma group_exists n : existsb (named_group n) (groups gs) = bool_decide (is_Some (by_name g_name (groups gs) !! n)).
Proof using Hstore. apply existsb_by_name, gnames. Qed.

Lemma wrap_cases salt nonce password seed : blen seed = SEED_LEN →
  match wrap_secrets salt nonce password key seed with Ok _ | Err _ => True | _ => False end.
Proof using Hstore.
  intros Hs. unfold wrap_secrets. rewrite Hs, (hs_key _ _ _ _ Hstore). cbn [Z.eqb andb].
  unfold wrap_key, random_bytes, derive_kek. destruct salt, nonce; cbn [ok_or rbind]; try done.
  destruct (argon2id _ _ _ _ _); cbn [ok_or rbind]; [|done]. by destruct (aead_encrypt _ _ _).
Qed.

(** The directory after an edit of one user's record. *)
Lemma edit_user n n' f u : by_name u_name (users us) !! n = Some u →
  (∀ y, u_name y = n → u_name (f y) = n') → (n' = n ∨ n' ∉ map u_name (users us)) → user_wf (f u) →
  let us' := mkUsers (next_uid us) (edit_first (named_user n) f (users us)) in
  dir_of us' gs = set_users (<[n' := f u]> (delete n (by_name u_name (users us)))) (dir_of us gs) ∧
  NoDup (map u_name (users us')) ∧ sizes_ok us' gs 0 0.
Proof using Hstore Hsizes.
  intros Hu Hf Hn' Hwf us'. destruct (by_name_edit u_name n n' f (users us) u unames Hu Hf Hn') as [E Hnd].
  change (edit_first (λ x, bool_decide (u_name x = n)) f (users us)) with (users us') in E, Hnd.
  split_and!; [|done|].
  - unfold dir_of, set_users. by rewrite E.
  - destruct Hsizes as (Hz1 & Hz2 & Hz3 & Hz4).
    destruct (edit_first_spec u_name n f (users us) unames) as [(l1 & x & l2 & El & Hx & Ee)|[Hno _]].
    2: { apply by_name_None in Hno. congruence. }
    assert (x = u) as ->.
    { enough (Some x = Some u) by congruence. rewrite <- Hu. symmetry. apply by_name_lookup; [apply unames|]. split; [|done].
      rewrite El. apply elem_of_app. right. by left. }
    change (edit_first (λ x, bool_decide (u_name x = n)) f (users us)) with (users us') in Ee.
    unfold sizes_ok. rewrite Ee. rewrite El in Hz1, Hz3. rewrite stored_size_mid in Hz3 |- *.
    pose proof (user_bytes_len (f u) Hwf). pose proof (blen_nonneg (user_bytes u)).
    rewrite blen_app, blen_cons in *. split_and!; lia.
Qed.

Lemma found_user n u : by_name u_name (users us) !! n = Some u → user_wf u ∧ u_name u = n.
Proof using Hstore. intros Hu. by destruct (do_users _ (hs_ok _ _ _ _ Hstore) n u Hu). Qed.

Lemma refines_new_group name : string_ok name →
  match a_new_group name (dir_of us gs) with
  | Ok (gid, D) => ∃ gs', new_group name meta = Ok (gid, Groups_store gs' meta) ∧ dir_of us gs' = D ∧ gid = next_gid gs ∧
      NoDup (map g_name (groups gs')) ∧ sizes_ok us gs' (2 ^ 35) 0 ∧ next_uid us = a_next_uid D
  | Err e => new_group name meta = Err e
  | _ => False
  end.
Proof using Hstore Hsizes Hroom.
  intros Hn. destruct (holds_users _ _ _ _ Hstore) as [_ El]. unfold new_group, a_new_group. rewrite El. cbn [rbind].
  rewrite group_exists. cbn [dir_of a_groups a_users a_next_gid a_next_uid].
  destruct (by_name g_name (groups gs) !! name) as [g|] eqn:E; [by rewrite bool_decide_true|].
  rewrite bool_decide_false by (by intros [? ?]).
  destruct Hroom as (_ & Hng & _). cbn in Hng. unfold U32_MAX in Hng. destruct (do_next _ (hs_ok _ _ _ _ Hstore)) as [_ Hg2]. cbn in Hg2.
  unfold as_u32. rewrite Z.mod_small by lia. apply by_name_None in E. eexists. split; [done|]. split_and!.
  - unfold dir_of. cbn [groups next_gid]. by rewrite by_name_snoc.
  - done.
  - cbn [groups]. rewrite map_app. cbn [map]. rewrite <- Permutation_cons_append. apply NoDup_cons. split; [done|apply gnames].
  - destruct Hsizes as (Hz1 & Hz2 & Hz3 & Hz4). unfold sizes_ok. cbn [groups]. rewrite stored_size_mid, app_nil_r, blen_app.
    change (blen [mkGroup name (next_gid gs)]) with 1.
    assert (group_wf (mkGroup name (next_gid gs))) as Hwf by (split; [done|split; cbn; lia]).
    pose proof (group_bytes_len _ Hwf). split_and!; lia.
  - done.
Qed.

Lemma refines_add_user seed salt nonce name password cg :
  admin_ok key (AddUser seed salt nonce name password cg) → refines meta key us gs (AddUser seed salt nonce name password cg).
Proof using Type*.
  intros Hok. pose proof Hok as (Hn & Hs & Hk). destruct (holds_users _ _ _ _ Hstore) as [El _].
  pose proof (λ D', a_admin_ok key _ (dir_of us gs) D' (hs_ok _ _ _ _ Hstore) Hroom Hok) as Hdir.
  unfold refines. cbn [a_admin run_admin] in *. unfold add_user. pose proof (wrap_cases salt nonce password seed Hs) as Hw.
  destruct (wrap_secrets _ _ _ _ _) as [k|e| |]; cbn [rbind] in *; [|done..]. specialize (Hk k eq_refl).
  rewrite El. cbn [rbind]. rewrite user_exists. cbn [dir_of a_users] in *.
  destruct (by_name u_name (users us) !! name) as [u|] eqn:E; [by rewrite bool_decide_true|].
  rewrite bool_decide_false by (by intros [? ?]). apply by_name_None in E.
  destruct Hroom as (Hnu & _ & _). cbn in Hnu. unfold U32_MAX in Hnu. destruct (do_next _ (hs_ok _ _ _ _ Hstore)) as [Hu2 Hg2]. cbn in Hu2, Hg2.
  assert (∀ gids gs', Forall (unsigned_ok 32) gids → blen gids < 2 ^ 32 → NoDup (map g_name (groups gs')) → sizes_ok us gs' (2 ^ 35) 0 →
    let us' := mkUsers (as_u32 (next_uid us + 1)) (users us ++ [mkUser name (next_uid us) false gids (Some k)]) in
    dir_of us' gs' = mkDirectory (<[name := mkUser name (next_uid us) false gids (Some k)]> (by_name u_name (users us)))
      (by_name g_name (groups gs')) (next_uid us + 1) (next_gid gs') ∧ names_ok us' gs' ∧ sizes_ok us' gs' 0 0) as Hnew.
  { intros gids gs' Hg32 Hgc Hgn Hsz us'. split_and!.
    - unfold dir_of, us'. cbn [users next_uid]. rewrite by_name_snoc by done. unfold as_u32. by rewrite Z.mod_small by lia.
    - split; [|done]. cbn [users us']. rewrite map_app. cbn [map]. rewrite <- Permutation_cons_append. apply NoDup_cons. split; [done|apply unames].
    - destruct Hsz as (Hz1 & Hz2 & Hz3 & Hz4). destruct Hsizes as (Hz5 & _). unfold sizes_ok, us'. cbn [users]. rewrite stored_size_mid, app_nil_r, blen_app.
      change (blen [mkUser name (next_uid us) false gids (Some k)]) with 1.
      assert (user_wf (mkUser name (next_uid us) false gids (Some k))) as Hwf by (split; cbn; try done; split; lia).
      pose proof (user_bytes_len _ Hwf). split_and!; lia. }
  destruct cg.
  - pose proof (refines_new_group name Hn) as Hng. cbn [dir_of] in *.
    destruct (a_new_group name _) as [[gid D]|e| |]; [|by rewrite Hng|done..]. cbn [rbind] in *.
    destruct Hng as (gs' & -> & ED & -> & Hgn & Hsz & Enu). cbn [rbind]. rewrite <- ED in *. cbn [dir_of a_users a_groups a_next_uid a_next_gid] in *.
    destruct (Hnew [next_gid gs] gs') as (Ed & Hnm & Hso); try done.
    { apply Forall_singleton. split; lia. }
    destruct (commit_both meta key us gs _ gs' Hstore Hnm Hso) as [(meta' & Em & Hm) _]; [rewrite Ed; by apply Hdir|].
    eexists _, _, _. split; [exact Em|]. split; [exact Hm|exact Ed].
  - cbn [rbind] in *. destruct (Hnew [] gs) as (Ed & Hnm & Hso); try done.
    { apply gnames. }
    { destruct Hsizes as (?&?&?&?). unfold sizes_ok. split_and!; lia. }
    destruct (commit_users meta key us gs _ Hstore (proj1 Hnm) Hso) as (meta' & Em & Hm); [rewrite Ed; by apply Hdir|].
    eexists _, _, _. split; [exact Em|]. split; [exact Hm|exact Ed].
Qed.

(** An edit of one user's record, committed. *)
Lemma commit_edit n n' f u : by_name u_name (users us) !! n = Some u →
  (∀ y, u_name y = n → u_name (f y) = n') → (n' = n ∨ n' ∉ map u_name (users us)) →
  let D := set_users (<[n' := f u]> (delete n (by_name u_name (users us)))) (dir_of us gs) in directory_ok D →
  ∃ meta' us' gs',
    seal_control key (Users_store (mkUsers (next_uid us) (edit_first (named_user n) f (users us))) meta) = Ok meta' ∧
    holds_store meta' key us' gs' ∧ dir_of us' gs' = D.
Proof using Type*.
  intros Hu Hf Hn' D HD. assert (user_wf (f u)) as Hwf.
  { eapply (uf_wf D n'), (do_users D HD). cbn. apply lookup_insert_eq. }
  destruct (edit_user n n' f u Hu Hf Hn' Hwf) as (E & Hnd & Hs).
  destruct (commit_users meta key us gs _ Hstore Hnd Hs) as (meta' & Em & Hm); [by rewrite E|].
  by exists meta', (mkUsers (next_uid us) (edit_first (named_user n) f (users us))), gs.
Qed.

Lemma refines_assign user group : refines meta key us gs (Assign user group).
Proof using Type*.
  pose proof (λ D', a_admin_ok key (Assign user group) (dir_of us gs) D' (hs_ok _ _ _ _ Hstore) Hroom I) as Hdir.
  destruct (holds_users _ _ _ _ Hstore) as [El Eg]. unfold refines. cbn [a_admin run_admin] in *. unfold assign.
  rewrite El, Eg. cbn [rbind]. rewrite group_named, user_named. cbn [dir_of a_users a_groups] in *.
  destruct (by_name g_name (groups gs) !! group) as [g|]; cbn [fmap option_fmap option_map ok_or rbind]; [|done].
  destruct (by_name u_name (users us) !! user) as [u|] eqn:Eu; cbn [ok_or rbind]; [|done]. destruct (u_frozen u); [done|].
  case_bool_decide; [by exists meta, us, gs|]. specialize (Hdir _ eq_refl). rewrite <- insert_delete_eq in Hdir |- *.
  apply (commit_edit user user (λ u, set_gids (u_gids u ++ [g_gid g]) u)); auto.
Qed.

Lemma refines_unassign user group : refines meta key us gs (Unassign user group).
Proof using Type*.
  pose proof (λ D', a_admin_ok key (Unassign user group) (dir_of us gs) D' (hs_ok _ _ _ _ Hstore) Hroom I) as Hdir.
  destruct (holds_users _ _ _ _ Hstore) as [El Eg]. unfold refines. cbn [a_admin run_admin] in *. unfold unassign.
  rewrite El, Eg. cbn [rbind]. rewrite group_named, user_named. cbn [dir_of a_users a_groups] in *.
  destruct (by_name g_name (groups gs) !! group) as [g|]; cbn [fmap option_fmap option_map ok_or rbind]; [|done].
  destruct (by_name u_name (users us) !! user) as [u|] eqn:Eu; cbn [ok_or rbind]; [|done].
  case_bool_decide as Hin.
  - specialize (Hdir _ eq_refl). rewrite <- insert_delete_eq in Hdir |- *.
    apply (commit_edit user user (λ u, set_gids (retain_gids (g_gid g) (u_gids u)) u)); auto.
  - exists meta, us, gs. split_and!; [done..|]. rewrite retain_gids_id by done. destruct u as [un uu uf ug uk]. cbn [set_gids u_name u_uid u_frozen u_gids u_keyring].
    by rewrite insert_id.
Qed.

Lemma refines_rename_user old new : string_ok new → refines meta key us gs (RenameUser old new).
Proof using Type*.
  intros Hn. pose proof (λ D', a_admin_ok key (RenameUser old new) (dir_of us gs) D' (hs_ok _ _ _ _ Hstore) Hroom Hn) as Hdir.
  destruct (holds_users _ _ _ _ Hstore) as [El _]. unfold refines. cbn [a_admin run_admin] in *. unfold rename_user.
  rewrite El. cbn [rbind]. rewrite user_exists, user_named. cbn [dir_of a_users a_groups] in *.
  destruct (by_name u_name (users us) !! new) as [v|] eqn:En; [by rewrite bool_decide_true|].
  rewrite bool_decide_false by (by intros [? ?]).
  destruct (by_name u_name (users us) !! old) as [u|] eqn:Eu; cbn [ok_or rbind]; [|done].
  destruct (is_protected_user (u_uid u)); [done|]. apply by_name_None in En.
  apply (commit_edit old new (set_user_name new)); auto.
Qed.

(** An edit of the groups, committed. *)
Lemma commit_groups_dir gs' D : NoDup (map g_name (groups gs')) →
  blen (groups gs') ≤ blen (groups gs) + 1 → stored_size group_bytes (groups gs') ≤ stored_size group_bytes (groups gs) + 2 ^ 36 →
  dir_of us gs' = D → directory_ok D →
  ∃ meta' us' gs2, seal_control key (Groups_store gs' meta) = Ok meta' ∧ holds_store meta' key us' gs2 ∧ dir_of us' gs2 = D.
Proof using Type*.
  intros Hnd Hc Hs <- HD. destruct Hsizes as (Hz1 & Hz2 & Hz3 & Hz4).
  destruct (commit_groups meta key us gs gs' Hstore Hnd) as (meta' & Em & Hm); [unfold sizes_ok; split_and!; lia|done|].
  by exists meta', us, gs'.
Qed.

Lemma refines_add_group name : string_ok name → refines meta key us gs (AddGroup name).
Proof using Type*.
  intros Hn. pose proof (λ D', a_admin_ok key (AddGroup name) (dir_of us gs) D' (hs_ok _ _ _ _ Hstore) Hroom Hn) as Hdir.
  pose proof (refines_new_group name Hn) as Hng. unfold refines. cbn [a_admin run_admin] in *. unfold add_group.
  destruct (a_new_group name _) as [[gid D]|e| |]; [|by rewrite Hng|done..]. cbn [rbind] in *.
  destruct Hng as (gs' & -> & ED & _ & Hgn & Hsz & _). cbn [rbind]. specialize (Hdir _ eq_refl). rewrite <- ED in *.
  destruct (commit_groups meta key us gs gs' Hstore Hgn) as (meta' & Em & Hm); [|done|by exists meta', us, gs'].
  destruct Hsz as (?&?&?&?). unfold sizes_ok. split_and!; lia.
Qed.

Lemma refines_rename_group old new : string_ok new → refines meta key us gs (RenameGroup old new).
Proof using Type*.
  intros Hn. pose proof (λ D', a_admin_ok key (RenameGroup old new) (dir_of us gs) D' (hs_ok _ _ _ _ Hstore) Hroom Hn) as Hdir.
  destruct (holds_users _ _ _ _ Hstore) as [_ El]. unfold refines. cbn [a_admin run_admin] in *. unfold rename_group.
  rewrite El. cbn [rbind]. rewrite group_exists, group_named. cbn [dir_of a_users a_groups] in *.
  destruct (by_name g_name (groups gs) !! new) as [v|] eqn:En; [by rewrite bool_decide_true|].
  rewrite bool_decide_false by (by intros [? ?]).
  destruct (by_name g_name (groups gs) !! old) as [g|] eqn:Eg; cbn [ok_or rbind]; [|done].
  destruct (is_protected_group (g_gid g)); [done|]. apply by_name_None in En. specialize (Hdir _ eq_refl).
  destruct (by_name_edit g_name old new (λ g, mkGroup new (g_gid g)) (groups gs) g gnames Eg) as [E Hnd]; [done|by right|].
  pose proof (edit_first_spec g_name old (λ g, mkGroup new (g_gid g)) (groups gs) gnames) as Hedit.
  change (λ x, bool_decide (g_name x = old)) with (named_group old) in *.
  apply commit_groups_dir; cbn [groups]; try done; [| |unfold dir_of; cbn [groups next_gid]; by rewrite E].
  - destruct Hedit as [(l1 & x & l2 & El' & _ & ->)|[_ ->]]; [|lia]. rewrite El', !blen_app, !blen_cons. lia.
  - destruct Hedit as [(l1 & x & l2 & El' & Ex & ->)|[_ ->]]; [|lia]. rewrite El', !stored_size_mid.
    assert (group_wf (mkGroup new (g_gid x))) as Hwf; [|pose proof (group_bytes_len _ Hwf); pose proof (blen_nonneg (group_bytes x)); lia].
    split; [done|]. assert (by_name g_name (groups gs) !! old = Some x) as Hx.
    { apply by_name_lookup; [apply gnames|]. split; [|done]. rewrite El'. apply elem_of_app. right. by left. }
    apply (do_groups _ (hs_ok _ _ _ _ Hstore) old x Hx).
Qed.

(** Edits of the users alone that keep every name. *)
Lemma commit_users_dir us' D : NoDup (map u_name (users us')) → blen (users us') ≤ blen (users us) →
  stored_size user_bytes (users us') ≤ stored_size user_bytes (users us) + 2 ^ 36 →
  dir_of us' gs = D → directory_ok D →
  ∃ meta' us2 gs', seal_control key (Users_store us' meta) = Ok meta' ∧ holds_store meta' key us2 gs' ∧ dir_of us2 gs' = D.
Proof using Type*.
  intros Hnd Hc Hs <- HD. destruct Hsizes as (Hz1 & Hz2 & Hz3 & Hz4).
  destruct (commit_users meta key us gs us' Hstore Hnd) as (meta' & Em & Hm); [unfold sizes_ok; split_and!; lia|done|].
  by exists meta', us', gs.
Qed.

Lemma blen_map {A B} (f : A → B) l : blen (map f l) = blen l.
Proof. unfold blen. by rewrite length_map. Qed.

Lemma blen_filter {A} p (l : list A) : blen (List.filter p l) ≤ blen l.
Proof. unfold blen. pose proof (List.filter_length_le p l). lia. Qed.

(** The group of an id is the group of a name. *)
Lemma groups_without name g : by_name g_name (groups gs) !! name = Some g →
  by_name g_name (List.filter (λ h, negb (with_gid (g_gid g) h)) (groups gs)) = delete name (by_name g_name (groups gs)).
Proof using Hstore.
  intros Hg. rewrite by_name_filter by apply gnames. apply map_eq. intros n. apply option_eq. intros h.
  rewrite map_lookup_filter_Some, lookup_delete_Some, negb_true_iff. cbn. unfold with_gid. rewrite Z.eqb_neq. split.
  - intros [Hh Hne]. split; [|done]. intros <-. congruence.
  - intros [Hne Hh]. split; [done|]. intros E. apply Hne. by eapply (do_gids _ (hs_ok _ _ _ _ Hstore)).
Qed.

Lemma refines_remove_group name : refines meta key us gs (RemoveGroup name).
Proof using Type*.
  pose proof (λ D', a_admin_ok key (RemoveGroup name) (dir_of us gs) D' (hs_ok _ _ _ _ Hstore) Hroom I) as Hdir.
  destruct (holds_users _ _ _ _ Hstore) as [El Eg]. unfold refines. cbn [a_admin run_admin] in *. unfold remove_group_meta.
  rewrite Eg. cbn [rbind]. rewrite group_named. cbn [dir_of a_users a_groups a_next_uid a_next_gid] in *.
  destruct (by_name g_name (groups gs) !! name) as [g|] eqn:E; cbn [fmap option_fmap option_map ok_or rbind]; [|done].
  destruct (is_protected_group (g_gid g)); [done|]. rewrite El. cbn [rbind]. specialize (Hdir _ eq_refl).
  set (us' := mkUsers (next_uid us) (map (λ u, set_gids (retain_gids (g_gid g) (u_gids u)) u) (users us))).
  set (gs' := mkGroups (next_gid gs) (List.filter (λ h, negb (with_gid (g_gid g) h)) (groups gs))).
  assert (dir_of us' gs' = mkDirectory ((λ u, set_gids (retain_gids (g_gid g) (u_gids u)) u) <$> by_name u_name (users us))
            (delete name (by_name g_name (groups gs))) (next_uid us) (next_gid gs)) as ED.
  { unfold dir_of. cbn [us' gs' users groups next_uid next_gid]. by rewrite by_name_map, (groups_without name g E). }
  destruct (commit_both meta key us gs us' gs' Hstore) as [_ (meta' & Em & Hm)]; [| |by rewrite ED|].
  - split; cbn [us' gs' users groups]; [rewrite names_map by done; apply unames|apply names_filter, gnames].
  - destruct Hsizes as (Hz1 & Hz2 & Hz3 & Hz4). unfold sizes_ok. cbn [us' gs' users groups]. rewrite blen_map.
    pose proof (blen_filter (λ h, negb (with_gid (g_gid g) h)) (groups gs)).
    pose proof (stored_size_filter group_bytes (λ h, negb (with_gid (g_gid g) h)) (groups gs)).
    pose proof (stored_size_map user_bytes (λ u, set_gids (retain_gids (g_gid g) (u_gids u)) u) (users us)) as Hm'.
    rewrite Forall_forall in Hm'. specialize (Hm' (λ u _, keyed_user_bytes u (g_gid g))). split_and!; lia.
  - rewrite Em. cbn [rbind]. by exists meta', us', gs'.
Qed.

Lemma refines_forget_user uid : uid ≠ MASTER_UID ∧ uid ≠ GUEST_UID → refines meta key us gs (ForgetUser uid).
Proof using Type*.
  intros Hok. pose proof (λ D', a_admin_ok key (ForgetUser uid) (dir_of us gs) D' (hs_ok _ _ _ _ Hstore) Hroom Hok) as Hdir.
  destruct (holds_users _ _ _ _ Hstore) as [El Eg]. unfold refines. cbn [a_admin run_admin] in *. unfold forget_user.
  rewrite El. cbn [rbind]. specialize (Hdir _ eq_refl). apply commit_users_dir; cbn [users]; try done.
  - apply names_filter, unames.
  - apply blen_filter.
  - pose proof (stored_size_filter user_bytes (λ u, negb (with_uid uid u)) (users us)). lia.
  - unfold dir_of, set_users. cbn [users next_uid a_users a_groups a_next_uid a_next_gid]. f_equal.
    rewrite by_name_filter by apply unames. apply map_filter_ext. intros n u _. cbn. unfold with_uid.
    by rewrite negb_true_iff, Z.eqb_neq.
Qed.

Lemma user_with uid : is_Some (List.find (with_uid uid) (users us)) ↔ ¬ map_Forall (λ _ u, u_uid u ≠ uid) (by_name u_name (users us)).
Proof using Hstore.
  split.
  - intros [u Hu]. apply List.find_some in Hu as [Hu Hid%Z.eqb_eq]. intros Hf. apply (Hf (u_name u) u); [|done].
    apply by_name_lookup; [apply unames|]. split; [by apply list_elem_of_In|done].
  - intros Hno. destruct (List.find (with_uid uid) (users us)) as [u|] eqn:E; [by exists u|]. destruct Hno.
    intros n u Hu Eid. apply by_name_lookup in Hu as [Hu _]; [|apply unames]. apply list_elem_of_In in Hu.
    pose proof (List.find_none _ _ E u Hu) as Hf. unfold with_uid in Hf. by rewrite Eid, Z.eqb_refl in Hf.
Qed.

Lemma edit_first_mid {A} p (f : A → A) l :
  (∃ l1 x l2, l = l1 ++ x :: l2 ∧ edit_first p f l = l1 ++ f x :: l2) ∨ edit_first p f l = l.
Proof.
  induction l as [|x l IH]; [by right|]. cbn [edit_first]. destruct (p x); [left; by exists [], x, l|].
  destruct IH as [(l1 & y & l2 & -> & E)|E]; rewrite E; [left; by exists (x :: l1), y, l2|by right].
Qed.

Lemma refines_change_password session salt nonce password :
  admin_ok key (ChangePassword session salt nonce password) → refines meta key us gs (ChangePassword session salt nonce password).
Proof using Type*.
  intros Hok. pose proof (λ D', a_admin_ok key _ (dir_of us gs) D' (hs_ok _ _ _ _ Hstore) Hroom Hok) as Hdir.
  destruct Hok as (Ekey & Hseed & Hne & Hk). destruct (holds_users _ _ _ _ Hstore) as [El _].
  unfold refines. cbn [a_admin run_admin] in *. unfold change_user_password. rewrite Ekey in *.
  pose proof (wrap_cases salt nonce password (s_sign_seed session) Hseed) as Hw.
  destruct (wrap_secrets _ _ _ _ _) as [k|e| |]; cbn [rbind] in *; [|done..]. specialize (Hk k eq_refl).
  rewrite El. cbn [rbind]. pose proof (user_with (s_uid session)) as Hwith. cbn [dir_of a_users] in *.
  destruct (decide (map_Forall _ _)) as [Hf|Hf].
  { destruct (List.find _ _) as [u|]; [by destruct (proj1 Hwith (ex_intro _ u eq_refl))|done]. }
  destruct (proj2 Hwith Hf) as [u0 ->]. cbn [ok_or rbind]. specialize (Hdir _ eq_refl).
  assert (edit_first (with_uid (s_uid session)) (set_keyring k) (users us) =
    map (λ u, if u_uid u =? s_uid session then set_keyring k u else u) (users us)) as Eedit.
  { apply edit_by_id, (ids_nodup u_name); [apply unames|apply (do_uids _ (hs_ok _ _ _ _ Hstore))]. }
  assert (∀ u, u_name (if u_uid u =? s_uid session then set_keyring k u else u) = u_name u) as Hname by (intros u; by destruct (_ =? _)).
  apply commit_users_dir; cbn [users]; try done.
  - rewrite Eedit, names_map by done. apply unames.
  - rewrite Eedit. unfold blen. by rewrite length_map.
  - destruct (edit_first_mid (with_uid (s_uid session)) (set_keyring k) (users us)) as [(l1 & x & l2 & El' & Ee2)|Ee2]; rewrite Ee2; [|lia].
    rewrite El', !stored_size_mid. assert (by_name u_name (users us) !! u_name x = Some x) as Hx.
    { apply by_name_lookup; [apply unames|]. split; [|done]. rewrite El'. apply elem_of_app. right. by left. }
    destruct (found_user _ _ Hx) as [[] _]. assert (user_wf (set_keyring k x)) as Hwf by done.
    pose proof (user_bytes_len _ Hwf). pose proof (blen_nonneg (user_bytes x)). lia.
  - unfold dir_of, set_users. cbn [users next_uid a_users a_groups a_next_uid a_next_gid]. by rewrite Eedit, by_name_map.
Qed.

Lemma refines_op op : admin_ok key op → refines meta key us gs op.
Proof using Type*.
  destruct op as [seed salt nonce name pw cg|name|old new|old new|user group|user group|name|uid|s salt nonce pw]; intros Hok.
  - by apply refines_add_user.
  - by apply refines_add_group.
  - by apply refines_rename_user.
  - by apply refines_rename_group.
  - apply refines_assign.
  - apply refines_unassign.
  - apply refines_remove_group.
  - by apply refines_forget_user.
  - by apply refines_change_password.
Qed.

(** C34: Every administrative call on the users and the groups refines its update of the
    directory: over a sealed store that holds the users [us] and the groups [gs], adding,
    renaming and removing users and groups, assigning and unassigning members and changing
    a password either fails with exactly the error the two maps call for, or commits a
    store that holds exactly the updated maps, is again well-formed (unique names and ids,
    every membership an existing group, the built-in users and groups in place, the guest
    frozen with no password) and is sealed under the same key at the next epoch. *)
Theorem admin_refines op : admin_ok key op → refines meta key us gs op.
Proof using Type*. apply refines_op. Qed.
End store_spec.
