(* ===== verification/PermAuth.v ===== *)
(** * Sessions and the promotion of a database

    Who [authenticate] lets in, and what [promote_to_master] makes of a database: the
    first users and groups sealed under a fresh key, and both integrity tags on every
    a-node that was there before. *)
From S2P Require Import Prelude Codec IndexDef BTree Key Dir Engine Acl Integrity Inode PermStore PermSpec.

Section auth.
Context `{Crypto} `{!CryptoLaws} {M : Type} `{KV M bytes bytes} `{!KVLaws M bytes bytes}.
Implicit Types (meta : M) (key seed user password : bytes).

Lemma wrap_secrets_opens salt nonce password key seed k :
  wrap_secrets salt nonce password key seed = Ok k → keyring_wf k →
  unwrap_key password (k_salt k) (k_nonce k) (k_wrapped k) = Ok (key ++ seed) ∧
  split_secrets (key ++ seed) = Ok (key, seed).
Proof.
  unfold wrap_secrets. destruct (Z.eqb_spec (blen key) KEY_LEN) as [Hk|]; [|done].
  destruct (Z.eqb_spec (blen seed) SEED_LEN) as [Hs|]; [|done]. cbn [andb]. unfold wrap_key, random_bytes.
  destruct salt as [salt|]; cbn [ok_or rbind]; [|done]. destruct nonce as [nonce|]; cbn [ok_or rbind]; [|done].
  destruct (derive_kek password salt) as [kek|e| |] eqn:Ek; cbn [rbind]; [|done..].
  destruct (aead_encrypt kek nonce (key ++ seed)) as [c|] eqn:Ec; cbn [ok_or rbind]; [|done].
  intros [= <-] (_ & Hn & _). cbn [k_salt k_nonce k_wrapped] in *. split.
  - unfold unwrap_key. rewrite Ek. cbn [rbind]. rewrite Hn. cbn [Z.eqb negb]. by rewrite (aead_correct _ _ _ _ Ec).
  - unfold split_secrets, SECRET_LEN. rewrite blen_app, Hk, Hs. change (negb (KEY_LEN + SEED_LEN =? KEY_LEN + SEED_LEN)) with false. cbn match.
    assert (Z.to_nat KEY_LEN = length key) as -> by (unfold blen in Hk; lia).
    by rewrite take_app_length, drop_app_length.
Qed.

Lemma authenticate_opens meta key us gs user password u k salt nonce seed :
  holds_store meta key us gs → by_name u_name (users us) !! user = Some u → u_keyring u = Some k →
  wrap_secrets salt nonce password key seed = Ok k →
  authenticate meta user password = Ok (mkSession user (u_uid u) (u_gids u) key seed).
Proof.
  intros Hst Hu Hk Hw. destruct (holds_users _ _ _ _ Hst) as [El _]. unfold authenticate. rewrite El. cbn [rbind].
  rewrite (user_named meta key us gs Hst), Hu. cbn [ok_or rbind]. rewrite Hk. cbn [ok_or rbind].
  destruct (found_user meta key us gs Hst user u Hu) as [[_ _ _ _ Hkw] En]. rewrite Hk in Hkw.
  destruct (wrap_secrets_opens salt nonce password key seed k Hw Hkw) as [-> E]. cbn [rbind]. rewrite E. cbn [rbind].
  by rewrite (hs_sealed _ _ _ _ Hst), En.
Qed.

Lemma authenticate_inv meta user password s : authenticate meta user password = Ok s →
  ∃ us u k, Users_load meta = Ok us ∧ u ∈ users us ∧ u_keyring u = Some k ∧
    u_name u = user ∧ s = mkSession user (u_uid u) (u_gids u) (s_key s) (s_sign_seed s) ∧
    (∃ secret, unwrap_key password (k_salt k) (k_nonce k) (k_wrapped k) = Ok secret ∧ secret = s_key s ++ s_sign_seed s) ∧
    verify_control meta (s_key s) = Ok tt.
Proof.
  unfold authenticate. destruct (Users_load meta) as [us|e| |] eqn:El; cbn [rbind]; [|done..].
  destruct (List.find (named_user user) (users us)) as [u|] eqn:Ef; cbn [ok_or rbind]; [|done].
  apply List.find_some in Ef as [Hin Hn%bool_decide_eq_true]. destruct (u_keyring u) as [k|] eqn:Ek; cbn [ok_or rbind]; [|done].
  destruct (unwrap_key _ _ _ _) as [secret|e| |] eqn:Eu; cbn [rbind]; [|done..].
  unfold split_secrets. destruct (negb _); cbn [rbind]; [done|].
  destruct (verify_control meta _) as [[]|e| |] eqn:Ev; cbn [rbind]; [|done..]. intros [= <-].
  exists us, u, k. cbn [s_key s_sign_seed]. split_and!; try done; [by apply list_elem_of_In|by rewrite Hn|].
  exists secret. split; [done|]. by rewrite take_drop.
Qed.

(** What a metadata table stores under the sealed keys. *)
Definition sealed_part meta (k : bytes) : bytes := default [] (kv_get meta k).

Definition sealed_keys : list bytes := [META_USERS_KEY; META_GROUPS_KEY; META_PUBKEY_KEY].

Definition stored_ok meta : Prop :=
  Forall fits64 (map (sealed_part meta) sealed_keys) ∧ opt_ok bytes_ok (kv_get meta META_EPOCH_KEY).

(** A table sealed under [key] whose tag was kept is the table that was sealed. *)
Lemma same_seal key meta meta' :
  blen key = KEY_LEN → verify_control meta key = Ok tt → verify_control meta' key = Ok tt →
  kv_get meta' META_CONTROL_MAC_KEY = kv_get meta META_CONTROL_MAC_KEY →
  stored_ok meta → stored_ok meta' →
  (read_epoch meta' = read_epoch meta ∧ Forall (λ k, sealed_part meta' k = sealed_part meta k) sealed_keys) ∨
  ∃ x y : bytes, x ≠ y ∧ blake3_keyed key x = blake3_keyed key y.
Proof.
  intros Hk. unfold verify_control, read_pubkey_bytes, mac_control.
  assert (∀ m e, opt_ok bytes_ok (kv_get m META_EPOCH_KEY) → read_epoch m = Ok e → unsigned_ok 64 e) as He.
  { intros m e Hm. unfold read_epoch. destruct (kv_get m META_EPOCH_KEY) as [bs|]; [|by intros [= <-]].
    destruct (Z.eqb_spec (blen bs) 8) as [Hb|]; [|done]. intros [= <-]. pose proof (of_be_bound bs Hm) as Hbd.
    rewrite Hb in Hbd. exact Hbd. }
  destruct (read_epoch meta) as [e|x| |] eqn:E1; cbn [rbind]; [|done..]. rewrite keyed_Ok by done. cbn [rbind].
  destruct (kv_get meta META_CONTROL_MAC_KEY) as [tag|]; [|done]. rewrite ct_eq_spec. case_bool_decide as Et; [|done]. intros _.
  destruct (read_epoch meta') as [e'|x| |] eqn:E2; cbn [rbind]; [|done..]. rewrite keyed_Ok by done. cbn [rbind].
  destruct (kv_get meta' META_CONTROL_MAC_KEY) as [tag'|]; [|done]. rewrite ct_eq_spec. case_bool_decide as Et'; [|done].
  intros _ [= Eq]. subst tag tag'. unfold stored_ok, sealed_keys. cbn [map].
  rewrite !Forall_cons. intros [(Hu & Hg & Hp & _) Hb] [(Hu' & Hg' & Hp' & _) Hb'].
  match type of Eq with blake3_keyed _ ?x = blake3_keyed _ ?y => destruct (decide (x = y)) as [Em|Hne]; [left|right; by exists x, y] end.
  apply control_message_inj in Em as (-> & ? & ? & ?); [split; [done|by repeat constructor]|by repeat constructor|by apply (He meta')|by apply (He meta)].
Qed.

(** A user without a password opens no session. *)
Lemma authenticate_refused meta key us gs user password : holds_store meta key us gs →
  by_name u_name (users us) !! user ≫= u_keyring = None → authenticate meta user password = Err AuthenticationFailed.
Proof.
  intros Hst Hn. destruct (holds_users _ _ _ _ Hst) as [El _]. unfold authenticate. rewrite El. cbn [rbind]. rewrite (user_named meta key us gs Hst).
  destruct (by_name u_name (users us) !! user) as [u|]; [|done]. cbn [mbind option_bind] in Hn. cbn [ok_or rbind]. by rewrite Hn.
Qed.

Lemma guest_refused meta key us gs password : holds_store meta key us gs → authenticate meta GUEST_USER password = Err AuthenticationFailed.
Proof.
  intros Hst. eapply authenticate_refused; [done|]. pose proof (do_guest _ (hs_ok _ _ _ _ Hst)) as Hg. cbn [dir_of a_users] in Hg. by rewrite Hg.
Qed.

(** C35: A session is opened only by a password that unwraps the keyring of the named
    user, over a table its own key seals.  Over a sealed store an unknown user and one
    without a password (the guest) are refused, and the password the secrets were wrapped
    under opens a session with the user's id, memberships, key and seed; over any table,
    a session carries exactly the key and seed its keyring unwraps to and the identity
    the table gives, and the table verifies under that key.  So under the stored control
    tag an altered epoch, user list, group list or public key opens no session with this
    key, short of two messages with one keyed BLAKE3 hash. *)
Theorem authenticate_spec meta key us gs user password :
  holds_store meta key us gs →
  (by_name u_name (users us) !! user ≫= u_keyring = None → authenticate meta user password = Err AuthenticationFailed) ∧
  authenticate meta GUEST_USER password = Err AuthenticationFailed ∧
  (∀ u k salt nonce seed, by_name u_name (users us) !! user = Some u → u_keyring u = Some k →
     wrap_secrets salt nonce password key seed = Ok k →
     authenticate meta user password = Ok (mkSession user (u_uid u) (u_gids u) key seed)) ∧
  (∀ meta' s, authenticate meta' user password = Ok s →
     (∃ us' u k, Users_load meta' = Ok us' ∧ u ∈ users us' ∧ u_keyring u = Some k ∧ u_name u = user ∧
        s = mkSession user (u_uid u) (u_gids u) (s_key s) (s_sign_seed s) ∧
        (∃ secret, unwrap_key password (k_salt k) (k_nonce k) (k_wrapped k) = Ok secret ∧ secret = s_key s ++ s_sign_seed s) ∧
        verify_control meta' (s_key s) = Ok tt) ∧
     (s_key s = key → kv_get meta' META_CONTROL_MAC_KEY = kv_get meta META_CONTROL_MAC_KEY →
      stored_ok meta → stored_ok meta' →
      (read_epoch meta' = read_epoch meta ∧ Forall (λ k, sealed_part meta' k = sealed_part meta k) sealed_keys) ∨
      ∃ x y : bytes, x ≠ y ∧ blake3_keyed key x = blake3_keyed key y)).
Proof.
  intros Hst. split_and!; [by eapply authenticate_refused|by eapply guest_refused| |].
  - intros u k salt nonce seed Hu Hk Hw. by eapply authenticate_opens.
  - intros meta' s Hs. pose proof (authenticate_inv _ _ _ _ Hs) as Hinv. split; [done|].
    destruct Hinv as (_ & _ & _ & _ & _ & _ & _ & _ & _ & Hv). intros Ek Htag. rewrite Ek in Hv. apply same_seal; [apply Hst|apply Hst|done..].
Qed.
End auth.

(** ** Promotion *)

Section promotion.
Context `{Crypto} `{!CryptoLaws} {M : Type} `{KV M bytes bytes} `{!KVLaws M bytes bytes}.
Context {I : Type} `{OrdKV I} `{!OrdKVLaws I}.
Implicit Types (meta : M) (i : I) (m : Inodes) (key seed table : bytes).

(** The inode of a sealed entry: both tags bind the entry and the list. *)
Definition sealed_entry key pubkey table (akey : AKey) (entry : bytes) (x : Inode) : Prop :=
  ∃ tag sg, mac x = Some tag ∧ mac_value key table akey entry (acl_bytes_of x) = Ok tag ∧
    sig x = Some sg ∧ verify_value pubkey table akey entry (acl_bytes_of x) sg = true.

(** The list of an a-node once promoted: its own, or the master's default. *)
Definition promoted_acl (akey : AKey) (x : option Inode) : option Acl :=
  match x ≫= acl with
  | Some a => Some a
  | None => if akey =? ROOT then None else Some (default_for MASTER_UID)
  end.

Lemma holds_read_acl i m k : holds_inodes i m → key_ok k → read_acl k.1 k.2 i = Ok (m !! k ≫= acl).
Proof.
  intros Hh Hk. pose proof (holds_get i m k Hh Hk) as Hg. unfold read_acl. destruct (m !! k); [|by rewrite Hg].
  by destruct Hg as (_ & bs & -> & ->).
Qed.

Lemma backfill_row_spec i m key seed table akey entry :
  holds_inodes i m → key_ok (table, akey) → blen key = KEY_LEN →
  ∃ i' x, backfill_row key seed table (akey, entry) i = (Ok tt, i') ∧ holds_inodes i' (<[(table, akey) := x]> m) ∧
    sealed_entry key (public_key seed) table akey entry x ∧ acl x = promoted_acl akey (m !! (table, akey)) ∧
    timestamps x = m !! (table, akey) ≫= timestamps.
Proof.
  intros Hh Hk Hkey. set (k := (table, akey)) in *. unfold backfill_row.
  assert (∃ i1 m1, (if akey =? ROOT then sret tt else set_default_acl table akey MASTER_UID) i = (Ok tt, i1) ∧
    holds_inodes i1 m1 ∧ m1 !! k ≫= acl = promoted_acl akey (m !! k) ∧ m1 !! k ≫= timestamps = m !! k ≫= timestamps ∧
    ∀ x, <[k := x]> m1 = <[k := x]> m) as (i1 & m1 & E1 & Hh1 & Ha & Ht & Hm1).
  { unfold promoted_acl. destruct (akey =? ROOT); [exists i, m; split_and!; try done; by destruct (m !! k ≫= acl)|].
    destruct (set_default_acl_lemma i m k MASTER_UID Hh Hk) as (i1 & E & Hi); [by split|]. exists i1. eexists. split; [exact E|].
    split; [exact Hi|]. destruct (m !! k) as [x|]; cbn [mbind option_bind].
    - rewrite lookup_insert_eq. cbn [mbind option_bind]. unfold with_default_acl.
      destruct (acl x) eqn:Ea; (split_and!; [cbn; try done|done|]); intros; by rewrite insert_insert_eq.
    - rewrite lookup_insert_eq. split_and!; try done. intros. by rewrite insert_insert_eq. }
  unfold sbind at 1. rewrite E1.
  set (y := default default_inode (m1 !! k)). assert (acl y = promoted_acl akey (m !! k) ∧ timestamps y = m !! k ≫= timestamps) as [Hay Hty].
  { rewrite <- Ha, <- Ht. unfold y. by destruct (m1 !! k). }
  rewrite (sbind_asks _ _ _ (acl_bytes_of y)).
  2: { pose proof (holds_read_acl i1 m1 k Hh1 Hk) as Hr. cbn [fst snd k] in Hr. rewrite Hr. cbn [rbind]. unfold acl_bytes_of. rewrite Hay, <- Ha.
       by destruct (m1 !! k ≫= acl). }
  assert (mac_value key table akey entry (acl_bytes_of y) = Ok (blake3_keyed key (absorb_value table akey entry (acl_bytes_of y)))) as Em.
  { by apply keyed_Ok. }
  rewrite (sbind_asks (λ _ : I, mac_value key table akey entry (acl_bytes_of y)) _ _ _ Em).
  set (tag := blake3_keyed _ _) in *. set (sg := sign_value seed table akey entry (acl_bytes_of y)).
  pose proof (holds_ok i1 m1 k Hh1) as Hoky. fold y in Hoky.
  destruct (holds_update i1 m1 k (set_mac tag) Hh1 Hk) as (i2 & E2 & Hh2).
  { destruct Hoky. split; try done. cbn. apply blake3_keyed_len. }
  unfold sbind at 1, seal_mac. cbn [fst snd k] in E2. rewrite E2.
  destruct (holds_update i2 _ k (set_sig sg) Hh2 Hk) as (i3 & E3 & Hh3).
  { rewrite lookup_insert_eq. cbn [default from_option id]. destruct Hoky. split; try done; cbn; [apply blake3_keyed_len|apply sign_value_len]. }
  exists i3, (set_sig sg (set_mac tag y)). rewrite lookup_insert_eq, insert_insert_eq, Hm1 in Hh3. split_and!; try done.
  exists tag, sg. split_and!; try done. apply sign_verifies.
Qed.

(** What the back-fill leaves for the rows of [l]. *)
Definition backfilled key pubkey (l : list (bytes * (AKey * bytes))) m m' : Prop :=
  (∀ table akey entry, (table, (akey, entry)) ∈ l →
     ∃ x, m' !! (table, akey) = Some x ∧ sealed_entry key pubkey table akey entry x ∧
       acl x = promoted_acl akey (m !! (table, akey)) ∧ timestamps x = m !! (table, akey) ≫= timestamps) ∧
  (∀ k, k ∉ map (λ r, (r.1, r.2.1)) l → m' !! k = m !! k).

Lemma backfill_rows_spec key seed l : blen key = KEY_LEN → NoDup (map (λ r, (r.1, r.2.1)) l) →
  Forall (λ r, key_ok (r.1, r.2.1)) l → ∀ i m, holds_inodes i m →
  ∃ i' m', for_each l (λ r, backfill_row key seed r.1 r.2) i = (Ok tt, i') ∧ holds_inodes i' m' ∧
    backfilled key (public_key seed) l m m'.
Proof.
  intros Hkey. induction l as [|[table [akey entry]] l IH]; cbn [map for_each]; intros Hnd Hok i m Hh.
  { exists i, m. split_and!; [done|done|]. split; [by intros ??? ?%elem_of_nil|done]. }
  apply NoDup_cons in Hnd as [Hnew Hnd]. apply Forall_cons in Hok as [Hk Hok]. cbn [fst snd] in *.
  destruct (backfill_row_spec i m key seed table akey entry Hh Hk Hkey) as (i1 & x & E & Hh1 & Hx & Ha & Ht).
  destruct (IH Hnd Hok i1 _ Hh1) as (i2 & m2 & E2 & Hh2 & Hin & Hout). exists i2, m2.
  unfold sbind. rewrite E, E2. split_and!; [done|done|]. split.
  - intros t k e [[= -> -> ->]|Hl]%elem_of_cons.
    + exists x. split; [|done]. rewrite Hout by done. apply lookup_insert_eq.
    + destruct (Hin t k e Hl) as (y & Hy & Hs & Hay & Hty).
      assert ((table, akey) ≠ (t, k)) as Hne.
      { intros [= -> ->]. apply Hnew. apply list_elem_of_fmap. by exists (t, (k, e)). }
      rewrite lookup_insert_ne in Hay, Hty by done. by exists y.
  - intros k [Hne Hk']%not_elem_of_cons. rewrite Hout by done. by rewrite lookup_insert_ne.
Qed.

(** ** The first directory *)

Definition first_users (k : KeyringEntry) : Users :=
  mkUsers 2 [mkUser MASTER_USER MASTER_UID false [MASTER_GID] (Some k); mkUser GUEST_USER GUEST_UID true [] None].

Definition first_groups : Groups := mkGroups 2 [mkGroup MASTER_GROUP MASTER_GID; mkGroup SUPER_GROUP SUPER_GID].

Lemma first_names k : names_ok (first_users k) first_groups.
Proof. split; (apply NoDup_cons; split; [by intros ?%list_elem_of_singleton|apply NoDup_singleton]). Qed.

Lemma literal_ok (s : bytes) : utf8_valid s = true → blen s < 2 ^ 32 → string_ok s.
Proof. by split. Qed.

Lemma first_sizes k : keyring_wf k → sizes_ok (first_users k) first_groups 0 0.
Proof.
  intros (Hs & Hn & Hw). unfold sizes_ok, stored_size, first_users, first_groups. cbn [users groups map concat].
  split_and!; [done|done| |by vm_compute]. rewrite app_nil_r, blen_app. unfold user_bytes at 1. unfold keyring_bytes.
  cbn [u_name u_uid u_frozen u_gids u_keyring]. rewrite !blen_app, !blen_to_be, Hs, Hn.
  change (blen (user_bytes (mkUser GUEST_USER GUEST_UID true [] None))) with 19.
  change (blen MASTER_USER) with 6. change (blen [0]) with 1. change (blen [1]) with 1.
  change (blen (concat (map (to_be 4) [MASTER_GID]))) with 4. unfold SALT_LEN, NONCE_LEN, USIZE_MAX. lia.
Qed.

Lemma first_directory k : keyring_wf k → directory_ok (dir_of (first_users k) first_groups).
Proof.
  intros Hk. pose proof (first_names k) as [Hu Hg].
  set (u0 := mkUser MASTER_USER MASTER_UID false [MASTER_GID] (Some k)). set (u1 := mkUser GUEST_USER GUEST_UID true [] None).
  set (g0 := mkGroup MASTER_GROUP MASTER_GID). set (g1 := mkGroup SUPER_GROUP SUPER_GID).
  assert (∀ n u, a_users (dir_of (first_users k) first_groups) !! n = Some u ↔ (u = u0 ∨ u = u1) ∧ u_name u = n) as Hus.
  { intros n u. cbn [dir_of a_users]. rewrite by_name_lookup by done. cbn [first_users users].
    by rewrite elem_of_cons, list_elem_of_singleton. }
  assert (∀ n g, a_groups (dir_of (first_users k) first_groups) !! n = Some g ↔ (g = g0 ∨ g = g1) ∧ g_name g = n) as Hgs.
  { intros n g. cbn [dir_of a_groups]. rewrite by_name_lookup by done. cbn [first_groups groups].
    by rewrite elem_of_cons, list_elem_of_singleton. }
  split.
  - intros n u [[->| ->] <-]%Hus; split; try done.
    + split; try done. by apply Forall_singleton.
    + intros gid ->%list_elem_of_singleton. exists MASTER_GROUP, g0. split; [|done]. apply Hgs. auto.
    + by intros gid ?%elem_of_nil.
  - intros n g [[->| ->] <-]%Hgs; split; try done; (split; [by apply literal_ok; vm_compute|done]).
  - intros m n u v [[->| ->] <-]%Hus [[->| ->] <-]%Hus; done.
  - intros m n g h [[->| ->] <-]%Hgs [[->| ->] <-]%Hgs; done.
  - done.
  - exists u0, k. split_and!; [apply Hus; auto|done..].
  - apply Hus. auto.
  - apply Hgs. auto.
  - apply Hgs. auto.
Qed.

Lemma wrap_secrets_lens salt nonce password key seed k :
  wrap_secrets salt nonce password key seed = Ok k → blen key = KEY_LEN ∧ blen seed = SEED_LEN.
Proof.
  unfold wrap_secrets. destruct (Z.eqb_spec (blen key) KEY_LEN); [|done]. by destruct (Z.eqb_spec (blen seed) SEED_LEN).
Qed.

(** The rows of the tables, one list. *)
Definition all_rows (tables : list (bytes * list (AKey * bytes))) : list (bytes * (AKey * bytes)) :=
  concat (map (λ t, map (λ row, (t.1, row)) t.2) tables).

Lemma for_each_rows key seed tables i :
  for_each tables (λ t, for_each t.2 (backfill_row key seed t.1)) i = for_each (all_rows tables) (λ r, backfill_row key seed r.1 r.2) i.
Proof.
  unfold all_rows. rewrite <- for_each_concat. apply for_each_ext. intros t _ i'.
  by rewrite (for_each_map (λ r, backfill_row key seed r.1 r.2) (λ row, (t.1, row))).
Qed.

(** The list of required features has room for one more name. *)
Definition features_fit (names : list bytes) : Prop :=
  Forall feature_ok names ∧ blen names + 1 < 2 ^ 32 ∧ blen (features_encode (names ++ [s_permissions])) ≤ USIZE_MAX.

(** What promotion writes into the metadata: the store's own entries and the feature. *)
Definition promoted_keys : list bytes :=
  [META_USERS_KEY; META_GROUPS_KEY; META_EPOCH_KEY; META_CONTROL_MAC_KEY; META_PUBKEY_KEY; META_REQUIRED_FEATURES_KEY].

Definition promoted_from meta (names : list bytes) meta' : Prop :=
  features_list meta' = Ok (if bool_decide (s_permissions ∈ names) then names else names ++ [s_permissions]) ∧
  ∀ k, k ∉ promoted_keys → kv_get meta' k = kv_get meta k.

Lemma promoted_meta key pubkey k meta names :
  blen key = KEY_LEN → blen pubkey = PUBKEY_LEN → keyring_wf k → features_list meta = Ok names →
  (∃ e, read_epoch meta = Ok e) → features_fit names →
  ∃ meta2 meta', features_require (Groups_store first_groups (Users_store (first_users k) meta)) s_permissions = Ok meta2 ∧
    seal_control key (kv_insert meta2 META_PUBKEY_KEY pubkey) = Ok meta' ∧
    holds_store meta' key (first_users k) first_groups ∧ is_protected meta' = Ok true ∧ load_pubkey meta' = Ok pubkey ∧
    promoted_from meta names meta'.
Proof.
  intros Hk Hp Hw Hf [e He] (Hok & Hc & Hs).
  set (meta1 := Groups_store first_groups (Users_store (first_users k) meta)).
  assert (features_list meta1 = Ok names ∧ read_epoch meta1 = Ok e) as [Hf1 He1].
  { unfold features_list, read_epoch in *. unfold meta1, Groups_store, Users_store. by read_back. }
  destruct (features_require_spec meta1 names s_permissions Hf1 Hok) as (meta2 & Er & El & Hframe & _); [by split; vm_compute|done..|].
  assert (read_epoch (kv_insert meta2 META_PUBKEY_KEY pubkey) = Ok e) as He2.
  { unfold read_epoch in *. read_back. by rewrite Hframe. }
  destruct (seal_control_spec _ key e Hk He2) as (meta' & Em & Hv & Hsame). exists meta2, meta'. split_and!; try done.
  - split; try done.
    + rewrite Hsame by done. read_back. rewrite Hframe by done. unfold meta1, Groups_store, Users_store. by read_back.
    + rewrite Hsame by done. read_back. rewrite Hframe by done. unfold meta1, Groups_store, Users_store. by read_back.
    + apply first_names.
    + by apply first_sizes.
    + by apply first_directory.
  - unfold is_protected, features_list in *. rewrite Hsame by done. read_back. rewrite El. cbn [rbind]. f_equal.
    apply bool_decide_eq_true. case_bool_decide; [done|]. apply elem_of_app. right. by left.
  - unfold load_pubkey, read_pubkey_bytes. rewrite Hsame by done. read_back. cbn [default from_option id]. by rewrite Hp.
  - split; [unfold features_list in *; rewrite Hsame by done; read_back; exact El|]. intros j Hj. unfold promoted_keys in Hj. rewrite !not_elem_of_cons in Hj. destruct Hj as (Hu & Hg & Hep & Hc' & Hpk & Hr & _).
    rewrite Hsame, kv_insert_ne, Hframe by done. unfold meta1, Groups_store, Users_store. by rewrite !kv_insert_ne.
Qed.

(** Promotion makes a protected database of a plain one.  With the randomness it
    draws, it succeeds and returns the master's session; the metadata then holds exactly
    the built-in users and groups, sealed under the new key, with the public key beside
    them and [permissions] among the required features; the password it was given opens
    that very session; every entry that was in a user table carries both tags over its
    bytes and its list, its own or the master's default (none on a root), its timestamps
    unchanged; no other inode is touched; and promoting again fails. *)
Lemma promote_spec key seed salt nonce password tables meta i m names k :
  kv_get meta META_USERS_KEY = None → features_list meta = Ok names → features_fit names → (∃ e, read_epoch meta = Ok e) →
  wrap_secrets (Some salt) (Some nonce) password key seed = Ok k → keyring_wf k →
  holds_inodes i m → NoDup (map (λ r, (r.1, r.2.1)) (all_rows tables)) → Forall (λ r, key_ok (r.1, r.2.1)) (all_rows tables) →
  ∃ meta' i' m',
    let session := mkSession MASTER_USER MASTER_UID [MASTER_GID] key seed in
    promote_to_master (Some key) (Some seed) (Some salt) (Some nonce) password tables meta i = Ok (session, (meta', i')) ∧
    holds_store meta' key (first_users k) first_groups ∧ is_protected meta' = Ok true ∧
    load_pubkey meta' = Ok (public_key seed) ∧
    authenticate meta' MASTER_USER password = Ok session ∧
    holds_inodes i' m' ∧ backfilled key (public_key seed) (all_rows tables) m m' ∧ promoted_from meta names meta' ∧
    (∀ key' seed' salt' nonce' password' tables' k', wrap_secrets salt' nonce' password' key' seed' = Ok k' →
       promote_to_master (Some key') (Some seed') salt' nonce' password' tables' meta' i' =
         Err (CannotAccess "the database is already protected")).
Proof.
  intros Hnone Hf Hfit He Hw Hkw Hh Hnd Hok. destruct (wrap_secrets_lens _ _ _ _ _ _ Hw) as [Hkey Hseed].
  destruct (promoted_meta key (public_key seed) k meta names) as (meta2 & meta' & Er & Em & Hst & Hprot & Hpub & Hfrom); try done.
  { apply ed25519_public_len. }
  destruct (backfill_rows_spec key seed (all_rows tables) Hkey Hnd Hok i m Hh) as (i' & m' & Ei & Hh' & Hb).
  exists meta', i', m'. intros session. split_and!; try done.
  - unfold promote_to_master, random_bytes. cbn [ok_or rbind]. rewrite Hw. cbn [rbind]. rewrite Hnone.
    fold (first_users k). fold first_groups. rewrite Er. cbn [rbind]. rewrite Em. cbn [rbind]. by rewrite for_each_rows, Ei.
  - apply (authenticate_opens meta' key (first_users k) first_groups MASTER_USER password
             (mkUser MASTER_USER MASTER_UID false [MASTER_GID] (Some k)) k (Some salt) (Some nonce)); [done| |done|exact Hw].
    cbn [first_users users]. apply by_name_lookup; [apply first_names|]. split; [by left|done].
  - intros key' seed' salt' nonce' password' tables' k' Hw'. unfold promote_to_master, random_bytes. cbn [ok_or rbind].
    rewrite Hw'. cbn [rbind]. by rewrite (hs_users _ _ _ _ Hst).
Qed.
End promotion.
