(* ===== verification/Registry.v ===== *)
(** * The index registry

    [index/registry/repository.rs]: every index definition of the database in one
    metadata value, with a monotonic id allocator.  [reg_ok] is its invariant (names
    unique per table, ids distinct and below the allocator); each operation is
    proved against the decoded registry. *)
From S2P Require Import Prelude Codec Scalar Path IndexDef Engine.

Definition META_INDEX_REGISTRY_KEY : bytes := str "index_registry".

Record IndexEntry := mkIndexEntry { e_table : bytes; e_id : Z; e_def : IndexDef }.

Record Registry := mkRegistry { next_id : Z; entries : list IndexEntry }.

Definition decode_entry_at (r : Reader) : res (IndexEntry * Reader) :=
  let? '(bs, r) := Reader_bytes r in
  let? table := from_utf8 bs (Corrupt "invalid utf-8 in index registry") in
  let? '(id, r) := Reader_u32 r in
  let? '(def, r) := IndexDef_decode r in
  Ok (mkIndexEntry table id def, r).

Definition Registry_decode (data : bytes) : res Registry :=
  let? '(next, r) := Reader_u32 (Reader_new data) in
  let? '(count, r) := Reader_u32 r in
  let? '(es, _) := read_n decode_entry_at (Z.to_nat count) r in
  Ok (mkRegistry next es).

Definition encode_entry (buf : bytes) (e : IndexEntry) : bytes :=
  let buf := put_bytes buf (e_table e) in
  let buf := put_u32 buf (e_id e) in
  IndexDef_encode (e_def e) buf.

Definition Registry_encode (reg : Registry) : res bytes :=
  if U32_MAX <? blen (entries reg) then Err (Corrupt "index registry exceeds u32::MAX entries")
  else
    let buf := put_u32 [] (next_id reg) in
    let buf := put_u32 buf (blen (entries reg)) in
    Ok (fold_left encode_entry (entries reg) buf).

Definition is_index (table name : bytes) (e : IndexEntry) : bool :=
  bool_decide (e_table e = table) && bool_decide (def_name (e_def e) = name).

Section registry.
Context {T : Type} `{KV T bytes bytes}.

Definition Registry_load (meta : T) : res Registry :=
  match kv_get meta META_INDEX_REGISTRY_KEY with
  | Some bs => Registry_decode bs
  | None => Ok (mkRegistry 0 [])
  end.

Definition Registry_store (reg : Registry) (meta : T) : res T :=
  let? bs := Registry_encode reg in Ok (kv_insert meta META_INDEX_REGISTRY_KEY bs).

Definition registry_lookup (meta : T) (table name : bytes) : res (option IndexEntry) :=
  let? reg := Registry_load meta in
  Ok (List.find (is_index table name) (entries reg)).

Definition registry_for_table (meta : T) (table : bytes) : res (list IndexEntry) :=
  let? reg := Registry_load meta in
  Ok (List.filter (λ e, bool_decide (e_table e = table)) (entries reg)).

(** The scan stops at the first match. *)
Fixpoint has_loop (table name : bytes) (n : nat) (r : Reader) : res bool :=
  match n with
  | O => Ok false
  | S n =>
      let? '(bs, r) := Reader_bytes r in
      let? tbl := from_utf8 bs (Corrupt "invalid utf-8 in index registry") in
      let same_table := bool_decide (tbl = table) in
      let? '(_, r) := Reader_u32 r in
      let? '(entry_name, r) := IndexDef_decode_name r in
      if same_table && bool_decide (entry_name = name) then Ok true
      else has_loop table name n r
  end.

Definition registry_has (meta : T) (table name : bytes) : res bool :=
  match kv_get meta META_INDEX_REGISTRY_KEY with
  | None => Ok false
  | Some bs =>
      let? '(_, r) := Reader_u32 (Reader_new bs) in
      let? '(count, r) := Reader_u32 r in
      has_loop table name (Z.to_nat count) r
  end.

Definition registry_any (meta : T) : res bool :=
  match kv_get meta META_INDEX_REGISTRY_KEY with
  | None => Ok false
  | Some bs =>
      let? '(_, r) := Reader_u32 (Reader_new bs) in
      let? '(count, _) := Reader_u32 r in
      Ok (0 <? count)
  end.

(** [iter().position(..)] and [Vec::remove]. *)
Fixpoint remove_first (p : IndexEntry → bool) (l : list IndexEntry) : option (IndexEntry * list IndexEntry) :=
  match l with
  | [] => None
  | e :: l =>
      if p e then Some (e, l)
      else match remove_first p l with Some (x, l) => Some (x, e :: l) | None => None end
  end.

Definition registry_delete (meta : T) (table name : bytes) : res (option IndexEntry * T) :=
  let? reg := Registry_load meta in
  match remove_first (is_index table name) (entries reg) with
  | None => Ok (None, meta)
  | Some (entry, rest) =>
      let? meta := Registry_store (mkRegistry (next_id reg) rest) meta in
      Ok (Some entry, meta)
  end.

Definition registry_create (meta : T) (table : bytes) (def : IndexDef) : res (bool * T) :=
  let? reg := Registry_load meta in
  match List.find (is_index table (def_name def)) (entries reg) with
  | Some entry =>
      if decide (e_def entry = def) then Ok (false, meta)
      else Err (SchemaMismatch "index '{name}' on table '{table}' already exists with a different definition")
  | None =>
      let id := next_id reg in
      if next_id reg =? U32_MAX then Err (Corrupt "index registry id counter overflow")
      else
        let reg := mkRegistry (next_id reg + 1) (entries reg ++ [mkIndexEntry table id def]) in
        let? meta := Registry_store reg meta in
        Ok (true, meta)
  end.

(** ** The invariant *)

Definition entry_wf (e : IndexEntry) : Prop :=
  string_ok (e_table e) ∧ unsigned_ok 32 (e_id e) ∧ def_ok (e_def e).

Definition reg_size (es : list IndexEntry) : Z :=
  8 + blen (concat (map (λ e, (to_be 4 (blen (e_table e)) ++ e_table e) ++ to_be 4 (e_id e) ++ def_bytes (e_def e)) es)).

Record reg_ok (reg : Registry) : Prop := {
  reg_next : unsigned_ok 32 (next_id reg);
  reg_wf : Forall entry_wf (entries reg);
  reg_ids : NoDup (map e_id (entries reg));
  reg_below : Forall (λ e, e_id e < next_id reg) (entries reg);
  reg_names : NoDup (map (λ e, (e_table e, def_name (e_def e))) (entries reg));
  reg_count : blen (entries reg) < 2 ^ 32;
  reg_fits : reg_size (entries reg) ≤ USIZE_MAX;
}.

(** The metadata table stores the registry [reg]. *)
Definition holds_registry (meta : T) (reg : Registry) : Prop :=
  reg_ok reg ∧ Registry_load meta = Ok reg ∧
  match kv_get meta META_INDEX_REGISTRY_KEY with
  | Some bs => Registry_encode reg = Ok bs
  | None => reg = mkRegistry 0 []
  end.

Definition entry_bytes (e : IndexEntry) : bytes :=
  (to_be 4 (blen (e_table e)) ++ e_table e) ++ to_be 4 (e_id e) ++ def_bytes (e_def e).

Lemma encode_entries_fold es buf :
  Forall entry_wf es → fold_left encode_entry es buf = buf ++ concat (map entry_bytes es).
Proof.
  intros Hes; revert buf; induction Hes as [|e es ([_ Ht] & Hid & Hd) _ IH]; intros buf; cbn [fold_left map concat].
  - by rewrite app_nil_r.
  - rewrite IH. unfold encode_entry, entry_bytes. rewrite put_bytes_eq, IndexDef_encode_eq by done.
    unfold put_u32. by rewrite <- !app_assoc.
Qed.

Lemma Registry_encode_eq reg : reg_ok reg →
  Registry_encode reg = Ok (to_be 4 (next_id reg) ++ to_be 4 (blen (entries reg)) ++ concat (map entry_bytes (entries reg))).
Proof.
  intros [_ Hwf _ _ _ Hc _]. unfold Registry_encode. destruct (Z.ltb_spec U32_MAX (blen (entries reg))) as [Hlt|_].
  { unfold U32_MAX in Hlt. lia. }
  rewrite encode_entries_fold by done. unfold put_u32. by rewrite <- app_assoc.
Qed.

Lemma reads_entry e : entry_wf e → reads decode_entry_at (entry_bytes e) e.
Proof.
  intros ([Hu Ht] & Hid & Hd). unfold decode_entry_at, entry_bytes.
  apply (reads_bind Reader_bytes) with (x := e_table e); [by apply reads_bytes|].
  unfold from_utf8. rewrite Hu. cbn [rbind].
  apply (reads_bind Reader_u32) with (x := e_id e); [by apply reads_u32|].
  assert (e = mkIndexEntry (e_table e) (e_id e) (e_def e)) as Ee by by destruct e.
  pose proof (reads_map_ret _ (mkIndexEntry (e_table e) (e_id e)) _ _ (reads_def _ Hd)) as Hr.
  cbn beta in Hr. by rewrite <- Ee in Hr.
Qed.

(** Everything that reads the registry starts with its two counters. *)
Lemma read_counters reg bs (k : Reader → res (bool)) :
  reg_ok reg → Registry_encode reg = Ok bs →
  ∃ pre, bs = pre ++ concat (map entry_bytes (entries reg)) ∧ blen bs ≤ USIZE_MAX ∧
    Reader_u32 (Reader_new bs) = Ok (next_id reg, mkReader bs 4) ∧
    Reader_u32 (mkReader bs 4) = Ok (blen (entries reg), mkReader bs (blen pre)).
Proof.
  intros Hok. rewrite (Registry_encode_eq reg Hok). intros [= <-]. destruct Hok as [Hn Hwf _ _ _ Hc Hf].
  unfold reg_size in Hf. change (map _ (entries reg)) with (map entry_bytes (entries reg)) in Hf.
  exists (to_be 4 (next_id reg) ++ to_be 4 (blen (entries reg))). rewrite <- app_assoc.
  assert (blen (to_be 4 (next_id reg) ++ to_be 4 (blen (entries reg)) ++ concat (map entry_bytes (entries reg))) ≤ USIZE_MAX) as Hb
    by (rewrite !blen_app, !blen_to_be; lia).
  split_and!; [done|done| |].
  - pose proof (reads_u32 _ Hn [] (to_be 4 (blen (entries reg)) ++ concat (map entry_bytes (entries reg))) Hb) as Hr.
    cbn [app] in Hr. rewrite (@blen_nil Z), blen_to_be in Hr. exact Hr.
  - assert (unsigned_ok 32 (blen (entries reg))) as Hc' by (pose proof (blen_nonneg (entries reg)); split; lia).
    pose proof (reads_u32 _ Hc' (to_be 4 (next_id reg)) (concat (map entry_bytes (entries reg))) Hb) as Hr.
    rewrite blen_app, !blen_to_be in *. exact Hr.
Qed.

Lemma Registry_roundtrip reg bs : reg_ok reg → Registry_encode reg = Ok bs → Registry_decode bs = Ok reg.
Proof.
  intros Hok He. destruct (read_counters reg bs (λ _, Ok true) Hok He) as (pre & E & Hb & H1 & H2).
  unfold Registry_decode. rewrite H1. cbn [rbind]. rewrite H2. cbn [rbind].
  unfold blen at 1. rewrite Nat2Z.id.
  assert (reads (read_n decode_entry_at (length (entries reg))) (concat (map entry_bytes (entries reg))) (entries reg)) as Hr.
  { apply reads_n. intros e Hin. apply reads_entry. pose proof (reg_wf reg Hok) as Hwf. rewrite Forall_forall in Hwf. by apply Hwf. }
  specialize (Hr pre []). rewrite app_nil_r in Hr. rewrite E in Hb |- *. rewrite Hr by done. by destruct reg.
Qed.

Lemma has_loop_spec table name es : ∀ pre,
  Forall entry_wf es → blen (pre ++ concat (map entry_bytes es)) ≤ USIZE_MAX →
  has_loop table name (length es) (mkReader (pre ++ concat (map entry_bytes es)) (blen pre)) =
    Ok (existsb (is_index table name) es).
Proof.
  induction es as [|e es IH]; intros pre Hwf Hb; cbn [has_loop map concat length existsb]; [done|].
  apply Forall_cons in Hwf as [([Hu Ht] & Hid & Hd) Hwf]. cbn [map concat] in Hb.
  set (rest := concat (map entry_bytes es)) in *. unfold entry_bytes in Hb |- *.
  pose proof (reads_bytes (e_table e) Ht pre ((to_be 4 (e_id e) ++ def_bytes (e_def e)) ++ rest)) as H1.
  pose proof (reads_u32 _ Hid (pre ++ to_be 4 (blen (e_table e)) ++ e_table e) (def_bytes (e_def e) ++ rest)) as H2.
  pose proof (reads_def_name _ Hd ((pre ++ to_be 4 (blen (e_table e)) ++ e_table e) ++ to_be 4 (e_id e)) rest) as H3.
  rewrite <- !app_assoc in *. rewrite !blen_app in *.
  rewrite H1 by done. cbn [rbind]. unfold from_utf8. rewrite Hu. cbn [rbind].
  rewrite H2 by done. cbn [rbind]. rewrite !Z.add_assoc in *. rewrite H3 by done. cbn [rbind]. unfold is_index at 1.
  destruct (bool_decide (e_table e = table) && bool_decide (def_name (e_def e) = name)); [done|]. cbn [orb].
  specialize (IH (pre ++ (to_be 4 (blen (e_table e)) ++ e_table e) ++ to_be 4 (e_id e) ++ def_bytes (e_def e)) Hwf).
  rewrite <- !app_assoc, !blen_app, !Z.add_assoc in IH. by apply IH.
Qed.

Lemma holds_blob meta reg : holds_registry meta reg →
  match kv_get meta META_INDEX_REGISTRY_KEY with
  | Some bs => Registry_encode reg = Ok bs
  | None => entries reg = [] ∧ next_id reg = 0
  end.
Proof. intros (_ & _ & Hm). destruct (kv_get meta _); [done|]. by subst reg. Qed.

(** Every question about the registered indexes is answered from the one stored
    record: a lookup finds the entry of that table and name, the presence check
    (which decodes names only and stops early) agrees with the lookup, a table's
    indexes are its entries in registration order, and the open-time flag says
    whether there is any entry. *)
Theorem registry_reads_agree meta reg table name :
  holds_registry meta reg →
  ∃ found, registry_lookup meta table name = Ok found ∧
    (∀ e, found = Some e ↔ e ∈ entries reg ∧ e_table e = table ∧ def_name (e_def e) = name) ∧
    registry_has meta table name = Ok (bool_decide (is_Some found)) ∧
    (∃ es, registry_for_table meta table = Ok es ∧ es `sublist_of` entries reg ∧
       ∀ e, e ∈ es ↔ e ∈ entries reg ∧ e_table e = table) ∧
    registry_any meta = Ok (bool_decide (entries reg ≠ [])).
Proof.
  intros Hh. pose proof (holds_blob meta reg Hh) as Hm. destruct Hh as (Hok & Hload & _).
  unfold registry_lookup, registry_for_table. rewrite Hload. cbn [rbind].
  assert (∀ e, is_index table name e = true ↔ e_table e = table ∧ def_name (e_def e) = name) as Hi.
  { intros e. unfold is_index. rewrite andb_true_iff, !bool_decide_eq_true. done. }
  eexists. split; [done|]. split_and!.
  - intros e. split.
    + intros [Hin Hp]%List.find_some. split; [by apply list_elem_of_In|by apply Hi].
    + intros (Hin & Hp). destruct (List.find (is_index table name) (entries reg)) as [x|] eqn:Ef.
      * apply List.find_some in Ef as [Hx Hpx]. apply list_elem_of_In in Hx. apply Hi in Hpx.
        f_equal. pose proof (reg_names reg Hok) as Hnd.
        apply list_elem_of_lookup in Hin as [i Hin]. apply list_elem_of_lookup in Hx as [j Hx].
        assert (i = j) as ->; [|congruence].
        eapply (NoDup_lookup _ _ _ (e_table e, def_name (e_def e)) Hnd).
        -- by rewrite list_lookup_fmap, Hin.
        -- rewrite list_lookup_fmap, Hx. cbn. destruct Hp, Hpx. congruence.
      * exfalso. apply list_elem_of_In in Hin. apply (List.find_none _ _ Ef e) in Hin as Hf.
        apply Hi in Hp. congruence.
  - assert (bool_decide (is_Some (List.find (is_index table name) (entries reg))) = existsb (is_index table name) (entries reg)) as ->.
    { clear. induction (entries reg) as [|e es IH]; [done|]. cbn. by destruct (is_index table name e). }
    unfold registry_has. destruct (kv_get meta META_INDEX_REGISTRY_KEY) as [bs|].
    + destruct (read_counters reg bs (λ _, Ok true) Hok Hm) as (pre & E & Hb & H1 & H2).
      rewrite H1. cbn [rbind]. rewrite H2. cbn [rbind]. unfold blen at 1. rewrite Nat2Z.id, E in *.
      apply has_loop_spec; [apply Hok|done].
    + by destruct Hm as [-> _].
  - eexists. split; [done|]. split.
    + clear. induction (entries reg) as [|e es IH]; cbn; [done|].
      case_bool_decide; [by apply sublist_skip|by apply sublist_cons].
    + intros e. rewrite !list_elem_of_In, List.filter_In, bool_decide_eq_true. done.
  - unfold registry_any. destruct (kv_get meta META_INDEX_REGISTRY_KEY) as [bs|].
    + destruct (read_counters reg bs (λ _, Ok true) Hok Hm) as (pre & E & Hb & H1 & H2).
      rewrite H1. cbn [rbind]. rewrite H2. cbn [rbind]. by destruct (entries reg).
    + by destruct Hm as [-> _].
Qed.

Context `{!KVLaws T bytes bytes}.

Lemma store_holds meta reg : reg_ok reg →
  ∃ meta', Registry_store reg meta = Ok meta' ∧ holds_registry meta' reg ∧
    ∀ k, k ≠ META_INDEX_REGISTRY_KEY → kv_get meta' k = kv_get meta k.
Proof.
  intros Hok. pose proof (Registry_encode_eq reg Hok) as E. unfold Registry_store. rewrite E. cbn [rbind].
  eexists. split; [done|]. unfold holds_registry, Registry_load. rewrite !kv_get_insert, decide_True by done.
  split_and!; [done|by eapply Registry_roundtrip|done|].
  intros k Hk. by rewrite kv_get_insert, decide_False.
Qed.

Lemma remove_first_spec p l :
  match remove_first p l with
  | None => Forall (λ e, p e = false) l
  | Some (e, rest) => ∃ l1 l2, l = l1 ++ e :: l2 ∧ rest = l1 ++ l2 ∧ p e = true ∧ Forall (λ e, p e = false) l1
  end.
Proof.
  induction l as [|e l IH]; cbn [remove_first]; [constructor|]. destruct (p e) eqn:Ep.
  - exists [], l. auto.
  - destruct (remove_first p l) as [[x rest]|]; [|by constructor].
    destruct IH as (l1 & l2 & -> & -> & Hx & Hl1). exists (e :: l1), l2. split_and!; auto.
Qed.

(** Dropping an entry keeps the invariant. *)
Lemma reg_ok_remove n l1 e l2 : reg_ok (mkRegistry n (l1 ++ e :: l2)) → reg_ok (mkRegistry n (l1 ++ l2)).
Proof.
  intros [Hn Hwf Hids Hb Hnm Hc Hf]. cbn [next_id entries] in *.
  rewrite map_app, map_cons, <- Permutation_middle, <- map_app, NoDup_cons in Hids.
  rewrite map_app, map_cons, <- Permutation_middle, <- map_app, NoDup_cons in Hnm.
  rewrite blen_app, blen_cons in Hc.
  assert (reg_size (l1 ++ l2) ≤ reg_size (l1 ++ e :: l2)) as Hsz.
  { unfold reg_size. rewrite !map_app, map_cons, !concat_app. cbn [concat]. rewrite !blen_app.
    pose proof (blen_nonneg (to_be 4 (blen (e_table e)))). pose proof (blen_nonneg (e_table e)).
    pose proof (blen_nonneg (to_be 4 (e_id e))). pose proof (blen_nonneg (def_bytes (e_def e))). lia. }
  apply Forall_app in Hwf as [? [_ ?]%Forall_cons], Hb as [? [_ ?]%Forall_cons].
  split; cbn [next_id entries]; [done|by apply Forall_app|apply Hids|by apply Forall_app|apply Hnm| |lia].
  rewrite blen_app. lia.
Qed.

Lemma is_index_spec t n x : is_index t n x = true ↔ e_table x = t ∧ def_name (e_def x) = n.
Proof. unfold is_index. rewrite andb_true_iff, !bool_decide_eq_true. done. Qed.

Lemma registry_create_lemma meta reg table def :
  holds_registry meta reg → string_ok table → def_ok def →
  let e := mkIndexEntry table (next_id reg) def in
  match List.find (is_index table (def_name def)) (entries reg) with
  | Some old =>
      registry_create meta table def =
        (if decide (e_def old = def) then Ok (false, meta)
         else Err (SchemaMismatch "index '{name}' on table '{table}' already exists with a different definition"))
  | None =>
      next_id reg < U32_MAX → blen (entries reg) + 1 < 2 ^ 32 → reg_size (entries reg ++ [e]) ≤ USIZE_MAX →
      ∃ meta', registry_create meta table def = Ok (true, meta') ∧
        holds_registry meta' (mkRegistry (next_id reg + 1) (entries reg ++ [e])) ∧
        ∀ k, k ≠ META_INDEX_REGISTRY_KEY → kv_get meta' k = kv_get meta k
  end.
Proof.
  intros (Hok & Hload & _) Ht Hd e. unfold registry_create. rewrite Hload. cbn [rbind].
  destruct (List.find _ _) as [old|] eqn:Ef; [done|]. intros Hnext Hcount Hsize.
  destruct (Z.eqb_spec (next_id reg) U32_MAX); [lia|].
  destruct (store_holds meta (mkRegistry (next_id reg + 1) (entries reg ++ [e]))) as (meta' & E & Hh & Hfr).
  { destruct Hok as [Hn Hwf Hids Hb Hnm Hc Hf]. unfold U32_MAX, unsigned_ok in *.
    split; cbn [next_id entries]; try done; rewrite ?map_app, ?blen_app.
    - split; lia.
    - apply Forall_app. split; [done|]. apply Forall_singleton. unfold entry_wf, unsigned_ok. cbn. by destruct Ht.
    - apply NoDup_app. split_and!; [done| |apply NoDup_singleton]. cbn. intros i Hin Hi'%list_elem_of_singleton. subst i.
      apply list_elem_of_fmap in Hin as (x & Ex & Hx). rewrite Forall_forall in Hb. specialize (Hb x Hx). lia.
    - apply Forall_app. split; [|by apply Forall_singleton; cbn; lia]. eapply Forall_impl; [exact Hb|]. cbn. lia.
    - apply NoDup_app. split_and!; [done| |apply NoDup_singleton]. cbn. intros i Hin Hi'%list_elem_of_singleton. subst i.
      apply list_elem_of_fmap in Hin as (x & Ex & Hx). apply list_elem_of_In, (List.find_none _ _ Ef) in Hx.
      injection Ex as E1 E2. assert (is_index table (def_name def) x = true) by (by apply is_index_spec). congruence.
    - done. }
  cbn zeta. fold e. rewrite E. cbn [rbind]. eauto.
Qed.

Lemma registry_delete_lemma meta reg table name :
  holds_registry meta reg →
  match remove_first (is_index table name) (entries reg) with
  | None => registry_delete meta table name = Ok (None, meta) ∧
      ∀ x, x ∈ entries reg → ¬ (e_table x = table ∧ def_name (e_def x) = name)
  | Some (x, rest) =>
      ∃ meta', registry_delete meta table name = Ok (Some x, meta') ∧
        holds_registry meta' (mkRegistry (next_id reg) rest) ∧ Permutation (entries reg) (x :: rest) ∧
        e_table x = table ∧ def_name (e_def x) = name ∧
        ∀ k, k ≠ META_INDEX_REGISTRY_KEY → kv_get meta' k = kv_get meta k
  end.
Proof.
  intros (Hok & Hload & _). unfold registry_delete. rewrite Hload. cbn [rbind].
  pose proof (remove_first_spec (is_index table name) (entries reg)) as Hr.
  destruct (remove_first _ _) as [[x rest]|].
  - destruct Hr as (l1 & l2 & El & -> & Hx & _). apply is_index_spec in Hx as [Hx1 Hx2].
    destruct (store_holds meta (mkRegistry (next_id reg) (l1 ++ l2))) as (meta' & E & Hh & Hfr).
    { apply (reg_ok_remove _ _ x). rewrite <- El. by destruct reg. }
    rewrite E. cbn [rbind]. exists meta'. split_and!; try done. rewrite El. symmetry. apply Permutation_middle.
  - split; [done|]. intros x Hin Hp. rewrite Forall_forall in Hr. specialize (Hr x Hin). apply is_index_spec in Hp. congruence.
Qed.

(** Registering and dropping indexes keeps the registry's invariant: a new name
    gets the allocator's id, which no entry ever had, and is appended; registering
    the same definition again changes nothing and a different one under the name is
    refused; dropping returns and removes exactly the named entry and never moves
    the allocator back; no other metadata is touched. *)
Theorem registry_updates_spec meta reg table def name :
  holds_registry meta reg → string_ok table → def_ok def →
  let e := mkIndexEntry table (next_id reg) def in
  match List.find (is_index table (def_name def)) (entries reg) with
  | Some old =>
      registry_create meta table def =
        (if decide (e_def old = def) then Ok (false, meta)
         else Err (SchemaMismatch "index '{name}' on table '{table}' already exists with a different definition"))
  | None =>
      next_id reg < U32_MAX → blen (entries reg) + 1 < 2 ^ 32 → reg_size (entries reg ++ [e]) ≤ USIZE_MAX →
      ∃ meta', registry_create meta table def = Ok (true, meta') ∧
        holds_registry meta' (mkRegistry (next_id reg + 1) (entries reg ++ [e])) ∧
        ∀ k, k ≠ META_INDEX_REGISTRY_KEY → kv_get meta' k = kv_get meta k
  end ∧
  match remove_first (is_index table name) (entries reg) with
  | None => registry_delete meta table name = Ok (None, meta) ∧
      ∀ x, x ∈ entries reg → ¬ (e_table x = table ∧ def_name (e_def x) = name)
  | Some (x, rest) =>
      ∃ meta', registry_delete meta table name = Ok (Some x, meta') ∧
        holds_registry meta' (mkRegistry (next_id reg) rest) ∧ Permutation (entries reg) (x :: rest) ∧
        e_table x = table ∧ def_name (e_def x) = name ∧
        ∀ k, k ≠ META_INDEX_REGISTRY_KEY → kv_get meta' k = kv_get meta k
  end.
Proof. intros Hh Ht Hd e. split; [by apply registry_create_lemma|by apply registry_delete_lemma]. Qed.
End registry.
