(* ===== verification/WriteBuffer.v ===== *)
(** * The write-back cache of a write transaction

    [txn/context/write_buffer.rs].  The [Mutex]es are only taken single threaded
    and the atomics only order themselves, so the buffer is a plain record; the
    [HashMap]s are finite maps. *)
From S2P Require Import Prelude BTree Key Dir.

Record WriteBuffer := mkWriteBuffer {
  buffering : bool;
  dirs_dirty : bool;
  dirs : gmap Z Children;
  files_dirty : bool;
  files : gmap Z bytes;
  structure : Z;
}.

Definition WriteBuffer_new (b : bool) : WriteBuffer := mkWriteBuffer b false ∅ false ∅ 0.

Definition active (wb : WriteBuffer) : bool := buffering wb.
Definition dirty (wb : WriteBuffer) : bool := dirs_dirty wb.

(** [read] and [write] apply a function under the lock. *)
Definition wb_read {R} (wb : WriteBuffer) (f : gmap Z Children → R) : R := f (dirs wb).
Definition wb_write (wb : WriteBuffer) (f : gmap Z Children → gmap Z Children) : WriteBuffer :=
  mkWriteBuffer (buffering wb) true (f (dirs wb)) (files_dirty wb) (files wb) (structure wb).

Definition file_get (wb : WriteBuffer) (akey : AKey) : option bytes :=
  if negb (files_dirty wb) then None else files wb !! akey.

Definition file_put (wb : WriteBuffer) (akey : AKey) (entry : bytes) : WriteBuffer :=
  mkWriteBuffer (buffering wb) (dirs_dirty wb) (dirs wb) true (<[akey := entry]> (files wb)) (structure wb).

Definition file_forget (wb : WriteBuffer) (akey : AKey) : WriteBuffer :=
  if files_dirty wb then
    mkWriteBuffer (buffering wb) (dirs_dirty wb) (dirs wb) (files_dirty wb) (delete akey (files wb)) (structure wb)
  else wb.

Definition structure_epoch (wb : WriteBuffer) : Z := structure wb.

(** [AtomicU64::fetch_add] wraps. *)
Definition bump_structure (wb : WriteBuffer) : WriteBuffer :=
  mkWriteBuffer (buffering wb) (dirs_dirty wb) (dirs wb) (files_dirty wb) (files wb) (as_u64 (structure wb + 1)).

Definition forget (wb : WriteBuffer) (akey : AKey) : WriteBuffer :=
  let wb :=
    if dirty wb then
      mkWriteBuffer (buffering wb) (dirs_dirty wb) (delete akey (dirs wb)) (files_dirty wb) (files wb) (structure wb)
    else wb in
  if files_dirty wb then
    mkWriteBuffer (buffering wb) (dirs_dirty wb) (dirs wb) (files_dirty wb) (delete akey (files wb)) (structure wb)
  else wb.

Definition wb_take (wb : WriteBuffer) : (gmap Z Children * gmap Z bytes) * WriteBuffer :=
  ((dirs wb, files wb), mkWriteBuffer (buffering wb) false ∅ false ∅ (structure wb)).

Definition wb_take_and_disable (wb : WriteBuffer) : (gmap Z Children * gmap Z bytes) * WriteBuffer :=
  wb_take (mkWriteBuffer false (dirs_dirty wb) (dirs wb) (files_dirty wb) (files wb) (structure wb)).

(** The lock-free flags tell the truth, and nothing is buffered while buffering
    is off. *)
Definition wb_ok (wb : WriteBuffer) : Prop :=
  (dirs_dirty wb = false → dirs wb = ∅) ∧ (files_dirty wb = false → files wb = ∅) ∧
  (buffering wb = false → dirs wb = ∅ ∧ files wb = ∅).

Lemma file_get_spec wb k : wb_ok wb → file_get wb k = files wb !! k.
Proof.
  intros (_ & Hf & _). unfold file_get. destruct (files_dirty wb); [done|].
  by rewrite Hf, lookup_empty.
Qed.

(** The gated directory lookup every reader makes. *)
Lemma gated_dirs wb k : wb_ok wb →
  (if dirty wb then wb_read wb (λ d, d !! k) else None) = dirs wb !! k.
Proof.
  intros (Hd & _). unfold dirty, wb_read. destruct (dirs_dirty wb); [done|]. by rewrite Hd, lookup_empty.
Qed.

Lemma file_forget_spec wb k : wb_ok wb →
  wb_ok (file_forget wb k) ∧ dirs (file_forget wb k) = dirs wb ∧
  files (file_forget wb k) = delete k (files wb) ∧
  buffering (file_forget wb k) = buffering wb ∧ structure (file_forget wb k) = structure wb.
Proof.
  intros (Hd & Hf & Hb). unfold file_forget. destruct (files_dirty wb) eqn:E; cbn.
  - split_and!; try done. unfold wb_ok; cbn. split_and!; [done|done|].
    intros [-> ->]%Hb. by rewrite delete_empty.
  - assert (files wb = ∅) as Hfe by auto.
    split_and!; try done; by rewrite Hfe, delete_empty.
Qed.

Lemma forget_spec wb k : wb_ok wb →
  wb_ok (forget wb k) ∧ dirs (forget wb k) = delete k (dirs wb) ∧
  files (forget wb k) = delete k (files wb) ∧
  buffering (forget wb k) = buffering wb ∧ structure (forget wb k) = structure wb.
Proof.
  intros (Hd & Hf & Hb).
  assert (dirs_dirty wb = false → delete k (dirs wb) = dirs wb) as Hd'.
  { intros E. by rewrite Hd, delete_empty. }
  assert (files_dirty wb = false → delete k (files wb) = files wb) as Hf'.
  { intros E. by rewrite Hf, delete_empty. }
  assert (buffering wb = false → delete k (dirs wb) = ∅ ∧ delete k (files wb) = ∅) as Hb'.
  { intros E. destruct (Hb E) as [-> ->]. by rewrite !delete_empty. }
  unfold forget, dirty, wb_ok.
  destruct (dirs_dirty wb) eqn:E1, (files_dirty wb) eqn:E2; cbn; rewrite ?E1, ?E2; cbn; rewrite ?E1, ?E2;
    try rewrite (Hd' eq_refl) in *; try rewrite (Hf' eq_refl) in *; split_and!; auto; done.
Qed.
