(* ===== verification/Ctx.v ===== *)
(** * The mutation context

    [txn/context/ctx.rs] for the build without [permissions] and
    [entry-timestamps]: the data table of the transaction together with its
    write-back cache.  [rng] is the thread-local key generator of [key.rs], passed
    explicitly.

    The proofs view a context as one map from keys to nodes ([view]): the buffered
    directories, then the buffered files, then the decoded engine entries.  Every
    read answers from that map and every write updates it at one key. *)
From S2P Require Import Prelude BTree Codec Key Dir Engine WriteBuffer Path.

Section ctx.
Context {T : Type} `{KV T Z bytes}.

Record Ctx := mkCtx { data : T; wb : WriteBuffer; rng : Z }.

Definition set_wb (f : WriteBuffer → WriteBuffer) (c : Ctx) : Ctx := mkCtx (data c) (f (wb c)) (rng c).

(** [AKey::generate]. *)
Definition fresh_key : SM Ctx AKey := λ c,
  let '(k, s) := generate (rng c) in (Ok k, mkCtx (data c) (wb c) s).

Definition put_entry (akey : AKey) (entry : bytes) : SM Ctx unit := λ c,
  (Ok tt, mkCtx (kv_insert (data c) akey entry) (file_forget (wb c) akey) (rng c)).

Definition ctx_buffering (c : Ctx) : bool := active (wb c).

Definition put_file_edit (akey : AKey) (entry : bytes) : SM Ctx unit := λ c,
  if ctx_buffering c then (Ok tt, set_wb (λ b, file_put b akey entry) c)
  else put_entry akey entry c.

Definition remove_entry (akey : AKey) : SM Ctx unit := λ c,
  (Ok tt, mkCtx (kv_remove (data c) akey) (forget (wb c) akey) (rng c)).

Definition read_verified (akey : AKey) (c : Ctx) : res (option bytes) :=
  match file_get (wb c) akey with
  | Some entry => Ok (Some entry)
  | None => read_entry (data c) akey
  end.

(** [self.dirs.dirty() && self.dirs.read(|dirs| dirs.contains_key(&akey))]. *)
Definition buffered_dir (akey : AKey) (c : Ctx) : bool :=
  dirty (wb c) && wb_read (wb c) (λ d, bool_decide (is_Some (d !! akey))).

(** [self.dirs.dirty() && let Some(x) = self.dirs.read(|dirs| dirs.get(&akey)...)]. *)
Definition buffered_children (akey : AKey) (c : Ctx) : option Children :=
  if dirty (wb c) then wb_read (wb c) (λ d, d !! akey) else None.

Definition has_entry (akey : AKey) (c : Ctx) : res bool :=
  if buffered_dir akey c then Ok true
  else Ok (bool_decide (is_Some (kv_get (data c) akey))).

Definition with_entry {R} (akey : AKey) (f : bytes → res R) (c : Ctx) : res (option R) :=
  match file_get (wb c) akey with
  | Some entry => let? r := f entry in Ok (Some r)
  | None =>
      match kv_get (data c) akey with
      | None => Ok None
      | Some entry => let? r := f entry in Ok (Some r)
      end
  end.

Definition child (parent : AKey) (name : bytes) (c : Ctx) : res (option AKey) :=
  match buffered_children parent c with
  | Some children => Ok (bt_get children name)
  | None =>
      let? r := with_entry parent (λ entry,
        let? '(kind, payload) := entry_split entry in
        match kind with
        | KFile => Ok None
        | KDir => let? d := ArchivedDir_new payload in dir_get d name
        end) c in
      Ok (mjoin r)
  end.

Definition kind (akey : AKey) (c : Ctx) : res (option EntryKind) :=
  if buffered_dir akey c then Ok (Some KDir)
  else with_entry akey (λ entry, let? '(k, _) := entry_split entry in Ok k) c.

Definition dir_children (akey : AKey) (c : Ctx) : res Children :=
  match buffered_children akey c with
  | Some children => Ok children
  | None =>
      let? r := with_entry akey (λ entry,
        let? '(kind, payload) := entry_split entry in
        match kind with
        | KFile => Err (CannotAccess "a path component is a file, not a directory")
        | KDir =>
            let? d := ArchivedDir_new payload in
            let? es := dir_entries d in Ok (bt_collect es)
        end) c in
      Ok (default [] r)
  end.

Definition cascade_children (akey : AKey) (c : Ctx) : res (option (list AKey)) :=
  match buffered_children akey c with
  | Some children => Ok (Some (children.*2))
  | None =>
      with_entry akey (λ entry,
        let? '(kind, payload) := entry_split entry in
        match kind with
        | KFile => Ok []
        | KDir =>
            let? d := ArchivedDir_new payload in
            let? es := dir_entries d in Ok (es.*2)
        end) c
  end.

Definition ctx_structure_epoch (c : Ctx) : Z := structure_epoch (wb c).

Definition ctx_bump_structure : SM Ctx unit := modify (set_wb bump_structure).

Definition buffer_dir (akey : AKey) (m : Children) : SM Ctx unit :=
  modify (set_wb (λ b, wb_write b (λ d, <[akey := m]> d))).

(** The common body of [dir_link] and [dir_unlink]: seed the parent's buffered map
    on first touch, then edit it in place. *)
Definition edit_buffered (parent : AKey) (f : Children → Children) : SM Ctx unit :=
  let! seed := asks (λ c,
    if buffered_dir parent c then Ok None
    else let? m := dir_children parent c in Ok (Some m)) in
  λ c,
    let children :=
      match seed with
      | Some loaded => Some (default loaded (dirs (wb c) !! parent))
      | None => dirs (wb c) !! parent
      end in
    match children with
    | None => (Panic, c)
    | Some m => (Ok tt, set_wb (λ b, wb_write b (λ d, <[parent := f m]> d)) c)
    end.

Definition dir_link (parent : AKey) (name : bytes) (ch : AKey) : SM Ctx unit :=
  edit_buffered parent (λ m, bt_insert m name ch).

Definition dir_unlink (parent : AKey) (name : bytes) : SM Ctx unit :=
  edit_buffered parent (λ m, bt_remove m name).

Fixpoint resolve_from (akey : AKey) (names : APath) (c : Ctx) : res (option AKey) :=
  match names with
  | [] => Ok (Some akey)
  | name :: rest =>
      let? next := child akey name c in
      match next with
      | Some ch => resolve_from ch rest c
      | None => Ok None
      end
  end.

Definition resolve (path : APath) (c : Ctx) : res (option AKey) := resolve_from ROOT path c.

(** ** The view *)

Inductive node := NDir (m : Children) | NFile (b : bytes).

Definition decode_entry (entry : bytes) : option node :=
  match entry_split entry with
  | Ok (KFile, payload) => Some (NFile payload)
  | Ok (KDir, payload) =>
      match dir_entries payload with Ok m => Some (NDir m) | _ => None end
  | _ => None
  end.

Definition engine_view (t : T) (k : AKey) : option node := kv_get t k ≫= decode_entry.

Definition view (c : Ctx) (k : AKey) : option node :=
  match dirs (wb c) !! k with
  | Some m => Some (NDir m)
  | None =>
      match files (wb c) !! k with
      | Some e => decode_entry e
      | None => engine_view (data c) k
      end
  end.

Definition upd (v : AKey → option node) (k : AKey) (x : option node) (j : AKey) : option node :=
  if decide (j = k) then x else v j.

(** A stored entry: a directory the format can hold, or a file. *)
Definition entry_ok (e : bytes) : Prop :=
  (∃ m, dir_ok m ∧ e = dir_entry (encode_dir m)) ∨ (∃ b, e = file_entry b).

Definition ctx_ok (c : Ctx) : Prop :=
  wb_ok (wb c) ∧
  (∀ k m, dirs (wb c) !! k = Some m → dir_ok m ∧ files (wb c) !! k = None) ∧
  (∀ k e, files (wb c) !! k = Some e →
     (∃ b, e = file_entry b) ∧ ∃ b, kv_get (data c) k = Some (file_entry b)) ∧
  (∀ k e, kv_get (data c) k = Some e → entry_ok e) ∧
  word (rng c).

Lemma decode_dir m : dir_ok m → decode_entry (dir_entry (encode_dir m)) = Some (NDir m).
Proof. intros Hm. unfold decode_entry, entry_split, dir_entry. cbn. by rewrite dir_entries_lemma. Qed.

Lemma decode_file b : decode_entry (file_entry b) = Some (NFile b).
Proof. done. Qed.

Lemma buffered_children_spec k c : ctx_ok c → buffered_children k c = dirs (wb c) !! k.
Proof. intros (Hw & _). by apply gated_dirs. Qed.

Lemma buffered_dir_spec k c : ctx_ok c → buffered_dir k c = bool_decide (is_Some (dirs (wb c) !! k)).
Proof.
  intros Hc. rewrite <- (buffered_children_spec k c Hc). unfold buffered_dir, buffered_children, wb_read.
  by destruct (dirty (wb c)).
Qed.

(** The entry an unbuffered key reads, against the view. *)
Lemma with_entry_spec {R} k (f : bytes → res R) c :
  ctx_ok c → dirs (wb c) !! k = None →
  match view c k with
  | None => with_entry k f c = Ok None
  | Some (NDir m) => dir_ok m ∧ with_entry k f c = rbind (f (dir_entry (encode_dir m))) (λ r, Ok (Some r))
  | Some (NFile b) => with_entry k f c = rbind (f (file_entry b)) (λ r, Ok (Some r))
  end.
Proof.
  intros (Hw & Hd & Hf & He & _) Hk. unfold view, with_entry. rewrite Hk, (file_get_spec _ _ Hw).
  destruct (files (wb c) !! k) as [e|] eqn:Ef.
  - destruct (Hf _ _ Ef) as [[b ->] _]. done.
  - unfold engine_view. destruct (kv_get (data c) k) as [e|] eqn:Eg; [|done].
    destruct (He _ _ Eg) as [(m & Hm & ->)|(b & ->)]; cbn [mbind option_bind].
    + by rewrite decode_dir.
    + done.
Qed.

Lemma view_buffered c k m : dirs (wb c) !! k = Some m → view c k = Some (NDir m).
Proof. unfold view. by intros ->. Qed.

Ltac buffered_cases c k Hc :=
  rewrite ?(buffered_children_spec k c Hc), ?(buffered_dir_spec k c Hc);
  let Hk := fresh "Hk" in
  destruct (dirs (wb c) !! k) as [?|] eqn:Hk;
  [rewrite (view_buffered _ _ _ Hk)|].

Lemma child_spec c k n : ctx_ok c →
  child k n c = Ok (match view c k with Some (NDir m) => bt_get m n | _ => None end).
Proof.
  intros Hc. unfold child. buffered_cases c k Hc; [done|].
  pose proof (with_entry_spec k (λ entry,
        let? '(kind, payload) := entry_split entry in
        match kind with
        | KFile => Ok None
        | KDir => let? d := ArchivedDir_new payload in dir_get d n
        end) c Hc Hk) as Hw.
  destruct (view c k) as [[m|b]|].
  - destruct Hw as [Hm ->]. cbn. rewrite ArchivedDir_new_ok by done. cbn. by rewrite dir_get_lemma.
  - by rewrite Hw.
  - by rewrite Hw.
Qed.

Definition node_entry_kind (x : node) : EntryKind := match x with NDir _ => KDir | NFile _ => KFile end.

Lemma kind_spec c k : ctx_ok c → kind k c = Ok (node_entry_kind <$> view c k).
Proof.
  intros Hc. unfold kind. buffered_cases c k Hc; [by rewrite bool_decide_true by eauto|].
  rewrite bool_decide_false by (by intros [? ?]).
  pose proof (with_entry_spec k (λ entry, let? '(k, _) := entry_split entry in Ok k) c Hc Hk) as Hw.
  destruct (view c k) as [[m|b]|]; [destruct Hw as [_ ->]|rewrite Hw..]; done.
Qed.

Lemma dir_children_spec c k : ctx_ok c →
  dir_children k c =
    match view c k with
    | Some (NDir m) => Ok m
    | Some (NFile _) => Err (CannotAccess "a path component is a file, not a directory")
    | None => Ok []
    end.
Proof.
  intros Hc. unfold dir_children. buffered_cases c k Hc; [done|].
  match goal with |- context [with_entry k ?f c] => pose proof (with_entry_spec k f c Hc Hk) as Hw end.
  destruct (view c k) as [[m|b]|].
  - destruct Hw as [Hm ->]. cbn. rewrite ArchivedDir_new_ok by done. cbn. rewrite dir_entries_lemma by done.
    cbn. rewrite bt_collect_sorted by apply Hm. done.
  - by rewrite Hw.
  - by rewrite Hw.
Qed.

Lemma cascade_children_spec c k : ctx_ok c →
  cascade_children k c =
    Ok (match view c k with
        | Some (NDir m) => Some (m.*2) | Some (NFile _) => Some [] | None => None end).
Proof.
  intros Hc. unfold cascade_children. buffered_cases c k Hc; [done|].
  match goal with |- context [with_entry k ?f c] => pose proof (with_entry_spec k f c Hc Hk) as Hw end.
  destruct (view c k) as [[m|b]|].
  - destruct Hw as [Hm ->]. cbn. rewrite ArchivedDir_new_ok by done. cbn. by rewrite dir_entries_lemma.
  - by rewrite Hw.
  - by rewrite Hw.
Qed.

Lemma has_entry_spec c k : ctx_ok c → has_entry k c = Ok (bool_decide (is_Some (view c k))).
Proof.
  intros Hc. unfold has_entry. buffered_cases c k Hc; [by rewrite !bool_decide_true by eauto|].
  rewrite bool_decide_false by (by intros [? ?]). f_equal.
  destruct Hc as (Hw & Hd & Hf & He & _). unfold view. rewrite Hk.
  destruct (files (wb c) !! k) as [e|] eqn:Ef.
  - destruct (Hf _ _ Ef) as [[b ->] [b' ->]]. by rewrite !bool_decide_true by eauto.
  - unfold engine_view. destruct (kv_get (data c) k) as [e|] eqn:Eg; [|done].
    destruct (He _ _ Eg) as [(m & Hm & ->)|(b & ->)]; cbn [mbind option_bind]; [rewrite decode_dir by done|];
      by rewrite !bool_decide_true by eauto.
Qed.

(** A file reads back as its entry; a directory does so only when it is not
    buffered. *)
Lemma read_verified_file c k b : ctx_ok c → view c k = Some (NFile b) →
  read_verified k c = Ok (Some (file_entry b)).
Proof.
  intros (Hw & Hd & Hf & He & _) Hv. unfold view in Hv. unfold read_verified.
  rewrite (file_get_spec _ _ Hw). destruct (dirs (wb c) !! k); [done|].
  destruct (files (wb c) !! k) as [e|] eqn:Ef.
  - destruct (Hf _ _ Ef) as [[b' ->] _]. rewrite decode_file in Hv. by simplify_eq.
  - unfold read_entry. unfold engine_view in Hv. destruct (kv_get (data c) k) as [e|] eqn:Eg; [|done].
    cbn [mbind option_bind] in Hv. destruct (He _ _ Eg) as [(m & Hm & ->)|(b' & ->)].
    + by rewrite decode_dir in Hv.
    + rewrite decode_file in Hv. by simplify_eq.
Qed.

Lemma read_verified_none c k : ctx_ok c → view c k = None → read_verified k c = Ok None.
Proof.
  intros (Hw & Hd & Hf & He & _) Hv. unfold view in Hv. unfold read_verified.
  rewrite (file_get_spec _ _ Hw). destruct (dirs (wb c) !! k); [done|].
  destruct (files (wb c) !! k) as [e|] eqn:Ef.
  - destruct (Hf _ _ Ef) as [[b' ->] _]. done.
  - unfold read_entry. unfold engine_view in Hv. destruct (kv_get (data c) k) as [e|] eqn:Eg; [|done].
    cbn [mbind option_bind] in Hv. destruct (He _ _ Eg) as [(m & Hm & ->)|(b' & ->)]; [by rewrite decode_dir in Hv|done].
Qed.

(** The pure walk over the view. *)
Fixpoint vresolve (v : AKey → option node) (k : AKey) (names : APath) : option AKey :=
  match names with
  | [] => Some k
  | n :: rest =>
      match v k with
      | Some (NDir m) => match bt_get m n with Some ch => vresolve v ch rest | None => None end
      | _ => None
      end
  end.

Lemma resolve_spec c p : ctx_ok c → resolve p c = Ok (vresolve (view c) ROOT p).
Proof.
  intros Hc. unfold resolve. generalize ROOT. induction p as [|n p IH]; intros k; cbn; [done|].
  rewrite (child_spec c k n Hc). cbn. destruct (view c k) as [[m|]|]; [|done..].
  destruct (bt_get m n); [apply IH|done].
Qed.

(** ** Writes update the view at one key *)

Context `{!KVLaws T Z bytes}.

Lemma upd_eq v k x : upd v k x k = x.
Proof. unfold upd. by case_decide. Qed.
Lemma upd_ne v k x j : j ≠ k → upd v k x j = v j.
Proof. unfold upd. by case_decide. Qed.

Definition updates (c c' : Ctx) (k : AKey) (x : option node) : Prop :=
  ctx_ok c' ∧ (∀ j, view c' j = upd (view c) k x j) ∧
  rng c' = rng c ∧ buffering (wb c') = buffering (wb c).

Lemma fresh_key_spec c : ctx_ok c →
  ∃ c', fresh_key c = (Ok (nth_key (rng c) 0), c') ∧ ctx_ok c' ∧ (∀ j, view c' j = view c j) ∧
        rng c' = state_at (rng c) 2 ∧ wb c' = wb c ∧ data c' = data c.
Proof.
  intros Hc. pose proof Hc as (Hw & Hd & Hf & He & Hr). unfold fresh_key.
  assert (generate (rng c) = (nth_key (rng c) 0, state_at (rng c) 2)) as ->.
  { unfold nth_key. rewrite Z.mul_0_r. rewrite <- (state_at_0 (rng c)) at 1 by done.
    pose proof (generate_state (rng c) 0) as Hs. rewrite Z.add_0_l in Hs.
    destruct (generate (state_at (rng c) 0)); cbn in *. by subst. }
  eexists; split_and!; [done| |done..]. split_and!; try done. cbn. apply as_u64_word.
Qed.

Lemma put_entry_file c k b : ctx_ok c → dirs (wb c) !! k = None →
  ∃ c', put_entry k (file_entry b) c = (Ok tt, c') ∧ updates c c' k (Some (NFile b)) ∧
        structure (wb c') = structure (wb c).
Proof.
  intros (Hw & Hd & Hf & He & Hr) Hk. unfold put_entry.
  destruct (file_forget_spec (wb c) k Hw) as (Hw' & Ed & Ef & Eb & Es).
  eexists; split_and!; [done| |done]. split_and!; try done.
  - unfold ctx_ok; cbn. rewrite Ed, Ef. split_and!; try done.
    + intros j m Hj. destruct (Hd _ _ Hj). split; [done|]. by rewrite lookup_delete_None; right.
    + intros j e [Hj Hje]%lookup_delete_Some. rewrite kv_get_insert, decide_False by done. by apply Hf.
    + intros j e. rewrite kv_get_insert. case_decide; [intros [= <-]; right; eauto|apply He].
  - intros j. unfold view, upd; cbn. rewrite Ed, Ef. unfold engine_view. rewrite kv_get_insert.
    case_decide as Hj.
    + subst. by rewrite Hk, lookup_delete_eq.
    + by rewrite lookup_delete_ne by done.
Qed.

Lemma put_file_edit_spec c k b : ctx_ok c → (∃ b0, view c k = Some (NFile b0)) →
  ∃ c', put_file_edit k (file_entry b) c = (Ok tt, c') ∧ updates c c' k (Some (NFile b)) ∧
        structure (wb c') = structure (wb c).
Proof.
  intros Hc [b0 Hv].
  assert (dirs (wb c) !! k = None) as Hk.
  { destruct (dirs (wb c) !! k) eqn:E; [|done]. by rewrite (view_buffered _ _ _ E) in Hv. }
  unfold put_file_edit. destruct (ctx_buffering c) eqn:Ebuf; [|by apply put_entry_file].
  pose proof Hc as ((Hw1 & Hw2 & Hw3) & Hd & Hf & He & Hr).
  eexists; split_and!; [done| |done]. split_and!; try done.
  - unfold ctx_ok, set_wb, wb_ok; cbn. split_and!; try done.
    + unfold ctx_buffering, active in Ebuf. by rewrite Ebuf.
    + intros j m Hj. destruct (Hd _ _ Hj). split; [done|]. rewrite lookup_insert_ne; [done|]. intros ->. congruence.
    + intros j e. rewrite lookup_insert_Some. intros [[<- <-]|[Hne Hj]].
      * split; [by eauto|]. unfold view in Hv. rewrite Hk in Hv.
        destruct (files (wb c) !! k) as [e'|] eqn:Ef; [by apply (Hf _ _ Ef)|].
        unfold engine_view in Hv. destruct (kv_get (data c) k) as [e'|] eqn:Eg; [|done].
        destruct (He _ _ Eg) as [(m & Hm & ->)|(b' & ->)]; [|by eauto].
        cbn [mbind option_bind] in Hv. by rewrite decode_dir in Hv.
      * by apply Hf.
  - intros j. unfold view, upd, set_wb; cbn. case_decide as Hj.
    + subst. by rewrite Hk, lookup_insert_eq.
    + by rewrite lookup_insert_ne by done.
Qed.

Lemma remove_entry_spec c k : ctx_ok c →
  ∃ c', remove_entry k c = (Ok tt, c') ∧ updates c c' k None ∧ structure (wb c') = structure (wb c).
Proof.
  intros (Hw & Hd & Hf & He & Hr). unfold remove_entry.
  destruct (forget_spec (wb c) k Hw) as (Hw' & Ed & Ef & Eb & Es).
  eexists; split_and!; [done| |done]. split_and!; try done.
  - unfold ctx_ok; cbn. rewrite Ed, Ef. split_and!; try done.
    + intros j m [_ Hj]%lookup_delete_Some. destruct (Hd _ _ Hj). split; [done|].
      by rewrite lookup_delete_None; right.
    + intros j e [Hj Hje]%lookup_delete_Some. rewrite kv_get_remove, decide_False by done. by apply Hf.
    + intros j e. rewrite kv_get_remove. case_decide; [done|apply He].
  - intros j. unfold view, upd; cbn. rewrite Ed, Ef. unfold engine_view. rewrite kv_get_remove.
    case_decide as Hj.
    + subst. by rewrite !lookup_delete_eq.
    + by rewrite !lookup_delete_ne by done.
Qed.

Lemma not_file_unbuffered c k : ctx_ok c → (∀ b, view c k ≠ Some (NFile b)) → files (wb c) !! k = None.
Proof.
  intros (Hw & Hd & Hf & He & Hr) Hv. destruct (files (wb c) !! k) as [e|] eqn:Ef; [|done].
  destruct (Hf _ _ Ef) as [[b ->] _]. destruct (dirs (wb c) !! k) as [m|] eqn:Ed.
  - destruct (Hd _ _ Ed). congruence.
  - destruct (Hv b). unfold view. by rewrite Ed, Ef.
Qed.

Lemma buffer_dir_spec c k m : ctx_ok c → dir_ok m → buffering (wb c) = true →
  (∀ b, view c k ≠ Some (NFile b)) →
  ∃ c', buffer_dir k m c = (Ok tt, c') ∧ updates c c' k (Some (NDir m)) ∧
        structure (wb c') = structure (wb c).
Proof.
  intros Hc Hm Hb Hv. pose proof (not_file_unbuffered c k Hc Hv) as Hfile.
  pose proof Hc as ((Hw1 & Hw2 & Hw3) & Hd & Hf & He & Hr).
  unfold buffer_dir, modify. eexists; split_and!; [done| |done]. split_and!; try done.
  - unfold ctx_ok, set_wb, wb_ok, wb_write; cbn. split_and!; try done.
    + by rewrite Hb.
    + intros j m'. rewrite lookup_insert_Some. intros [[<- <-]|[_ Hj]]; [done|by apply Hd].
  - intros j. unfold view, upd, set_wb, wb_write; cbn. case_decide as Hj.
    + subst. by rewrite lookup_insert_eq.
    + by rewrite lookup_insert_ne by done.
Qed.

Lemma edit_buffered_spec c k f m : ctx_ok c → buffering (wb c) = true →
  (view c k = Some (NDir m) ∨ view c k = None ∧ m = []) → dir_ok (f m) →
  ∃ c', edit_buffered k f c = (Ok tt, c') ∧ updates c c' k (Some (NDir (f m))) ∧
        structure (wb c') = structure (wb c).
Proof.
  intros Hc Hb Hv Hm.
  assert (∀ b, view c k ≠ Some (NFile b)) as Hnf by (intros b; destruct Hv as [->|[-> _]]; done).
  destruct (buffer_dir_spec c k (f m) Hc Hm Hb Hnf) as (c' & E & Hu & Hs).
  exists c'. split_and!; [|done..]. unfold buffer_dir, modify in E. injection E as <-.
  unfold edit_buffered, sbind, asks. rewrite (buffered_dir_spec k c Hc).
  destruct (dirs (wb c) !! k) as [m'|] eqn:Ek.
  - rewrite bool_decide_true by eauto. cbn.
    rewrite (view_buffered _ _ _ Ek) in Hv. destruct Hv as [[= ->]|[? _]]; [|done]. done.
  - rewrite bool_decide_false by (by intros [? ?]). rewrite (dir_children_spec c k Hc).
    destruct Hv as [->|[-> ->]]; cbn; unfold set_wb, wb_write; cbn in *; by rewrite ?Ek.
Qed.

Lemma edit_buffered_file c k f b : ctx_ok c → view c k = Some (NFile b) →
  edit_buffered k f c = (Err (CannotAccess "a path component is a file, not a directory"), c).
Proof.
  intros Hc Hv. unfold edit_buffered, sbind, asks. rewrite (buffered_dir_spec k c Hc).
  destruct (dirs (wb c) !! k) as [m'|] eqn:Ek; [by rewrite (view_buffered _ _ _ Ek) in Hv|].
  rewrite bool_decide_false by (by intros [? ?]). by rewrite (dir_children_spec c k Hc), Hv.
Qed.

Lemma put_entry_dir c k m : ctx_ok c → dir_ok m → dirs (wb c) !! k = None →
  ∃ c', put_entry k (dir_entry (encode_dir m)) c = (Ok tt, c') ∧ updates c c' k (Some (NDir m)) ∧
        structure (wb c') = structure (wb c).
Proof.
  intros (Hw & Hd & Hf & He & Hr) Hm Hk. unfold put_entry.
  destruct (file_forget_spec (wb c) k Hw) as (Hw' & Ed & Ef & Eb & Es).
  eexists; split_and!; [done| |done]. split_and!; try done.
  - unfold ctx_ok; cbn. rewrite Ed, Ef. split_and!; try done.
    + intros j m' Hj. destruct (Hd _ _ Hj). split; [done|]. by rewrite lookup_delete_None; right.
    + intros j e [Hj Hje]%lookup_delete_Some. rewrite kv_get_insert, decide_False by done. by apply Hf.
    + intros j e. rewrite kv_get_insert. case_decide; [intros [= <-]; left; eauto|apply He].
  - intros j. unfold view, upd; cbn. rewrite Ed, Ef. unfold engine_view. rewrite kv_get_insert.
    case_decide as Hj.
    + subst. rewrite Hk, lookup_delete_eq. cbn [mbind option_bind]. by apply decode_dir.
    + by rewrite lookup_delete_ne by done.
Qed.

Lemma bump_spec c : ctx_ok c →
  ∃ c', ctx_bump_structure c = (Ok tt, c') ∧ ctx_ok c' ∧ (∀ j, view c' j = view c j) ∧
        rng c' = rng c ∧ buffering (wb c') = buffering (wb c) ∧
        structure (wb c') = as_u64 (structure (wb c) + 1).
Proof. intros Hc. eexists; split_and!; [done|exact Hc|done..]. Qed.
End ctx.
Arguments Ctx T : clear implicits.
