(* ===== verification/Fs.v ===== *)
(** * The filesystem operations of a write transaction

    [txn/context/table.rs]: storing, patching, removing, moving and copying a-nodes
    over a [Ctx].  The two recursions that follow stored links ([cascade_delete],
    [deep_copy]) carry fuel, one unit per directory level. *)
From S2P Require Import Prelude BTree Codec Ext Scalar Path Value Archived Key Dir Engine WriteBuffer Ctx.

Section fs.
Context `{Ext} {T : Type} `{KV T Z bytes}.
Abbreviation C := (Ctx T) (only parsing).

Definition put_dir (akey : AKey) (m : Children) : SM (Ctx T) unit := λ c,
  if ctx_buffering c then buffer_dir akey m c
  else put_entry akey (dir_entry (encode_dir m)) c.

(** The flush writes whatever order the maps iterate in. *)
Definition flush_buffered (ds : list (Z * Children)) (fs : list (Z * bytes)) : SM (Ctx T) unit :=
  let! _ := for_each ds (λ d, put_entry d.1 (dir_entry (encode_dir d.2))) in
  for_each fs (λ f, put_entry f.1 f.2).

Definition link_child (parent : AKey) (name : bytes) (ch : AKey) : SM (Ctx T) unit :=
  let! _ := ctx_bump_structure in
  λ c, if ctx_buffering c then dir_link parent name ch c
       else (let! m := asks (dir_children parent) in
             put_dir parent (bt_insert m name ch)) c.

Definition unlink_child (parent : AKey) (name : bytes) : SM (Ctx T) unit :=
  let! _ := ctx_bump_structure in
  λ c, if ctx_buffering c then dir_unlink parent name c
       else (let! m := asks (dir_children parent) in
             put_dir parent (bt_remove m name)) c.

Definition ensure_root : SM (Ctx T) unit :=
  let! present := asks (has_entry ROOT) in
  if present then sret tt else put_dir ROOT [].

Fixpoint ensure_dir_from (akey : AKey) (names : APath) : SM (Ctx T) AKey :=
  match names with
  | [] => sret akey
  | name :: rest =>
      let! found := asks (child akey name) in
      match found with
      | Some ch =>
          let! k := asks (kind ch) in
          if bool_decide (k = Some KDir) then ensure_dir_from ch rest
          else serr (CannotAccess "'{name}' is a file, not a directory")
      | None =>
          let! ch := fresh_key in
          let! _ := put_dir ch [] in
          let! _ := link_child akey name ch in
          ensure_dir_from ch rest
      end
  end.

Definition ensure_dir (path : APath) : SM (Ctx T) AKey :=
  let! _ := ensure_root in ensure_dir_from ROOT path.

Fixpoint cascade_delete (fuel : nat) (akey : AKey) : SM (Ctx T) unit :=
  match fuel with
  | O => λ c, (OutOfFuel, c)
  | S fuel =>
      let! children := asks (cascade_children akey) in
      match children with
      | None => sret tt
      | Some children =>
          let! _ := for_each children (cascade_delete fuel) in
          remove_entry akey
      end
  end.

Section fuel.
Context (fuel : nat).

(** [path.split_last().expect(..)]: the callers rule the root out. *)
Definition split_last_or_panic (path : APath) : SM (Ctx T) (APath * bytes) :=
  asks (λ _, match APath_split_last path with Some x => Ok x | None => Panic end).

(** [store_blob_into] once the parent directory is there. *)
Definition store_under (parent : AKey) (name : bytes) (value_blob : bytes) : SM (Ctx T) unit :=
  let! found := asks (child parent name) in
  let! akey :=
    match found with
    | Some n =>
        let! k := asks (kind n) in
        if bool_decide (k = Some KFile) then sret n
        else
          let! _ := cascade_delete fuel n in
          let! fresh := fresh_key in
          let! _ := link_child parent name fresh in
          sret fresh
    | None =>
        let! fresh := fresh_key in
        let! _ := link_child parent name fresh in
        sret fresh
    end in
  put_entry akey (file_entry value_blob).

Definition store_blob_into (path : APath) (value_blob : bytes) : SM (Ctx T) unit :=
  let! '(parent_path, name) := split_last_or_panic path in
  let! parent := ensure_dir parent_path in
  store_under parent name value_blob.

Definition store_value_into (path : APath) (value : Value) : SM (Ctx T) unit :=
  store_blob_into path (encode value).

Definition resolve_and_read (path : APath) (c : Ctx T) : res (option AKey * option bytes) :=
  let? akey := resolve path c in
  match akey with
  | Some k => let? entry := read_verified k c in Ok (akey, entry)
  | None => Ok (akey, None)
  end.

Definition resolve_target (path : APath) (hint : option (AKey * Z)) (c : Ctx T)
    : res (option AKey * option bytes) :=
  match hint with
  | Some (key, epoch) =>
      if epoch =? ctx_structure_epoch c then
        let? entry := read_verified key c in
        match entry with
        | Some entry => Ok (Some key, Some entry)
        | None => resolve_and_read path c
        end
      else resolve_and_read path c
  | None => resolve_and_read path c
  end.

(** [entry[start..start + n].copy_from_slice(&encoded)]. *)
Definition overwrite (entry : bytes) (start : Z) (encoded : bytes) : bytes :=
  take (Z.to_nat start) entry ++ encoded ++ drop (Z.to_nat start + length encoded) entry.

(** The answer and the entry, which is patched only when the answer is [true]. *)
Definition patch_scalar (entry : bytes) (at_path : VPath) (scalar : Scalar) : res (bool * bytes) :=
  let encoded := Scalar_encode scalar [] in
  let? '(kind, payload) := entry_split entry in
  match kind with
  | KDir => Ok (false, entry)
  | KFile =>
      let? span := archived_leaf_scalar_span payload at_path in
      match span with
      | None => Ok (false, entry)
      | Some (scalar_off, current_len) =>
          if negb (blen encoded =? current_len) then Ok (false, entry)
          else
            let start := blen entry - blen payload + scalar_off in
            Ok (true, overwrite entry start encoded)
      end
  end.

Definition put_scalar_into (path : APath) (hint : option (AKey * Z)) (at_path : VPath)
    (scalar : Scalar) : SM (Ctx T) unit :=
  let! target := asks (resolve_target path hint) in
  match target with
  | (Some akey, Some entry) =>
      let! '(patched, entry) := asks (λ _, patch_scalar entry at_path scalar) in
      if (patched : bool) then put_file_edit akey entry
      else
        let! '(kind, payload) := asks (λ _, entry_split entry) in
        match kind with
        | KFile =>
            let! value := asks (λ _, decode fuel payload) in
            let value := (set_in value at_path (Leaf scalar)).1 in
            put_file_edit akey (file_entry (encode value))
        | KDir => serr (CannotAccess "'{path}' is a directory, not a file")
        end
  | _ =>
      let value := (set_in default_value at_path (Leaf scalar)).1 in
      store_value_into path value
  end.

Definition rm_into (path : APath) : SM (Ctx T) bool :=
  let! '(parent_path, name) := split_last_or_panic path in
  let! parent := asks (resolve parent_path) in
  match parent with
  | None => sret false
  | Some parent =>
      let! akey := asks (child parent name) in
      match akey with
      | None => sret false
      | Some akey =>
          let! _ := cascade_delete fuel akey in
          let! _ := unlink_child parent name in
          sret true
      end
  end.

Definition mv_into (src dst : APath) : SM (Ctx T) unit :=
  let! '(src_parent_path, src_name) := split_last_or_panic src in
  let! '(dst_parent_path, dst_name) := split_last_or_panic dst in
  let! src_parent := asks (resolve src_parent_path) in
  match src_parent with
  | None => serr ValueNotFound
  | Some src_parent =>
      let! akey := asks (child src_parent src_name) in
      match akey with
      | None => serr ValueNotFound
      | Some akey =>
          let! dst_parent := ensure_dir dst_parent_path in
          let! existing := asks (child dst_parent dst_name) in
          let! _ := match existing with
                    | Some existing => cascade_delete fuel existing
                    | None => sret tt
                    end in
          let! _ := link_child dst_parent dst_name akey in
          unlink_child src_parent src_name
      end
  end.
End fuel.

(** [for (name, child) in children { copied.insert(name, deep_copy(child)?) }] *)
Fixpoint copy_children (copy : AKey → SM (Ctx T) AKey) (l : Children) (copied : Children)
    : SM (Ctx T) Children :=
  match l with
  | [] => sret copied
  | (name, ch) :: l =>
      let! k := copy ch in copy_children copy l (bt_insert copied name k)
  end.

Fixpoint deep_copy (fuel : nat) (akey : AKey) : SM (Ctx T) AKey :=
  match fuel with
  | O => λ c, (OutOfFuel, c)
  | S fuel =>
      let! fresh := fresh_key in
      let! k := asks (kind akey) in
      let! k := asks (λ _, ok_or k (Corrupt "copying a missing a-node")) in
      match k with
      | KFile =>
          let! entry := asks (read_verified akey) in
          let! entry := asks (λ _, ok_or entry (Corrupt "copying a missing a-node")) in
          let! _ := put_entry fresh entry in
          sret fresh
      | KDir =>
          let! children := asks (dir_children akey) in
          let! copied := copy_children (deep_copy fuel) children [] in
          let! _ := put_dir fresh copied in
          sret fresh
      end
  end.

Definition cp_into (fuel : nat) (src dst : APath) : SM (Ctx T) unit :=
  let! '(dst_parent_path, dst_name) := split_last_or_panic dst in
  let! src_akey := asks (resolve src) in
  match src_akey with
  | None => serr ValueNotFound
  | Some src_akey =>
      let! dst_parent := ensure_dir dst_parent_path in
      let! existing := asks (child dst_parent dst_name) in
      let! _ := match existing with
                | Some existing => cascade_delete fuel existing
                | None => sret tt
                end in
      let! copy := deep_copy fuel src_akey in
      link_child dst_parent dst_name copy
  end.

(** ** The directory writes against the view *)

Context `{!KVLaws T Z bytes}.

Lemma put_dir_spec (c : Ctx T) k m : ctx_ok c → dir_ok m → (∀ b, view c k ≠ Some (NFile b)) →
  ∃ c', put_dir k m c = (Ok tt, c') ∧ updates c c' k (Some (NDir m)) ∧
        structure (wb c') = structure (wb c).
Proof.
  intros Hc Hm Hv. unfold put_dir. destruct (ctx_buffering c) eqn:Hb.
  - by apply buffer_dir_spec.
  - apply put_entry_dir; [done..|]. destruct Hc as ((_ & _ & Hoff) & _).
    destruct (Hoff Hb) as [-> _]. apply lookup_empty.
Qed.

(** The shared shape of [link_child] and [unlink_child]. *)
Lemma relink_spec (f : Children → Children) (c : Ctx T) p m :
  ctx_ok c → view c p = Some (NDir m) → dir_ok (f m) →
  ∃ c', (let! _ := ctx_bump_structure in
         λ c, if ctx_buffering c then edit_buffered p f c
              else (let! m := asks (dir_children p) in put_dir p (f m)) c) c = (Ok tt, c') ∧
        updates c c' p (Some (NDir (f m))) ∧
        structure (wb c') = as_u64 (structure (wb c) + 1).
Proof.
  intros Hc Hv Hm. destruct (bump_spec c Hc) as (c1 & E1 & Hc1 & Hv1 & Hr1 & Hb1 & Hs1).
  rewrite (sbind_Ok _ _ _ _ _ E1). rewrite <- Hv1 in Hv.
  assert (∀ c', updates c1 c' p (Some (NDir (f m))) → updates c c' p (Some (NDir (f m)))) as Hu.
  { intros c' (? & Hvw & ? & ?). split_and!; [done| |congruence..]. intros j. rewrite Hvw. unfold upd. by rewrite Hv1. }
  destruct (ctx_buffering c1) eqn:Hb.
  - destruct (edit_buffered_spec c1 p f m Hc1 Hb (or_introl Hv) Hm) as (c' & E & Hup & Hst).
    exists c'. split_and!; [done|by apply Hu|congruence].
  - rewrite (sbind_asks _ _ _ m); [|by rewrite (dir_children_spec c1 p Hc1), Hv].
    destruct (put_dir_spec c1 p (f m) Hc1 Hm) as (c' & E & Hup & Hst); [by rewrite Hv|].
    exists c'. split_and!; [done|by apply Hu|congruence].
Qed.

Lemma link_child_spec (c : Ctx T) p n ch m :
  ctx_ok c → view c p = Some (NDir m) → dir_ok (bt_insert m n ch) →
  ∃ c', link_child p n ch c = (Ok tt, c') ∧ updates c c' p (Some (NDir (bt_insert m n ch))) ∧
        structure (wb c') = as_u64 (structure (wb c) + 1).
Proof. intros. by apply (relink_spec (λ m, bt_insert m n ch)). Qed.

Lemma unlink_child_spec (c : Ctx T) p n m :
  ctx_ok c → view c p = Some (NDir m) → dir_ok (bt_remove m n) →
  ∃ c', unlink_child p n c = (Ok tt, c') ∧ updates c c' p (Some (NDir (bt_remove m n))) ∧
        structure (wb c') = as_u64 (structure (wb c) + 1).
Proof. intros. by apply (relink_spec (λ m, bt_remove m n)). Qed.
End fs.
