(* ===== verification/Tree.v ===== *)
(** * The abstract filesystem

    What [txn/context/table.rs] promises, as a tree: a file holds its blob, a
    directory its children in name order, and every a-node carries its key.
    [holds v t] says that the key-indexed nodes [v] (a context's [view]) spell out
    [t]; with pairwise distinct keys the tree owns its nodes, so an operation that
    changes the nodes of one subtree changes that subtree and nothing else. *)
From S2P Require Import Prelude BTree Codec Key Dir Path WriteBuffer Ctx.

Inductive atree :=
| AFile (k : AKey) (b : bytes)
| ADir (k : AKey) (ch : list (bytes * atree)).

Section atree_ind.
Context (P : atree → Prop).
Hypothesis HF : ∀ k b, P (AFile k b).
Hypothesis HD : ∀ k ch, Forall (λ e, P e.2) ch → P (ADir k ch).
Fixpoint atree_ind' (t : atree) : P t :=
  match t with
  | AFile k b => HF k b
  | ADir k ch => HD k ch
      ((fix go ch : Forall (λ e, P e.2) ch :=
          match ch with
          | [] => Forall_nil_2 _
          | e :: ch => Forall_cons_2 _ _ _ (atree_ind' e.2) (go ch)
          end) ch)
  end.
End atree_ind.

Definition akey (t : atree) : AKey := match t with AFile k _ | ADir k _ => k end.
Definition is_dir (t : atree) : bool := match t with ADir _ _ => true | _ => false end.

(** The directory map a list of children is stored as. *)
Definition ckeys (ch : list (bytes * atree)) : Children := map (λ e, (e.1, akey e.2)) ch.

Fixpoint tkeys (t : atree) : list AKey :=
  match t with
  | AFile k _ => [k]
  | ADir k ch => k :: concat (map (λ e, tkeys e.2) ch)
  end.

Fixpoint height (t : atree) : nat :=
  match t with
  | AFile _ _ => 1
  | ADir _ ch => S (foldr Nat.max O (map (λ e, height e.2) ch))
  end.

Fixpoint holds (v : AKey → option node) (t : atree) : Prop :=
  match t with
  | AFile k b => v k = Some (NFile b)
  | ADir k ch =>
      v k = Some (NDir (ckeys ch)) ∧
      (fix go ch := match ch with [] => True | e :: ch => holds v e.2 ∧ go ch end) ch
  end.

Fixpoint tsorted (t : atree) : Prop :=
  match t with
  | AFile _ _ => True
  | ADir _ ch =>
      bt_sorted ch ∧
      (fix go ch := match ch with [] => True | e :: ch => tsorted e.2 ∧ go ch end) ch
  end.

Lemma holds_dir v k ch :
  holds v (ADir k ch) ↔ v k = Some (NDir (ckeys ch)) ∧ Forall (λ e, holds v e.2) ch.
Proof. cbn. f_equiv. induction ch; [by split|]. rewrite Forall_cons. naive_solver. Qed.

Lemma tsorted_dir k ch : tsorted (ADir k ch) ↔ bt_sorted ch ∧ Forall (λ e, tsorted e.2) ch.
Proof. cbn. f_equiv. induction ch; [by split|]. rewrite Forall_cons. naive_solver. Qed.

Lemma holds_root v t : holds v t → is_Some (v (akey t)).
Proof. destruct t; [cbn; eauto|]. rewrite holds_dir. intros [? _]; eauto. Qed.

(** ** Paths *)

Fixpoint tlookup (t : atree) (p : APath) : option atree :=
  match p with
  | [] => Some t
  | n :: p =>
      match t with
      | ADir _ ch => match bt_get ch n with Some c => tlookup c p | None => None end
      | AFile _ _ => None
      end
  end.

Fixpoint treplace (t : atree) (p : APath) (sub : atree) : atree :=
  match p with
  | [] => sub
  | n :: p =>
      match t with
      | ADir k ch =>
          match bt_get ch n with
          | Some c => ADir k (bt_insert ch n (treplace c p sub))
          | None => t
          end
      | AFile _ _ => t
      end
  end.

Lemma bt_get_ckeys ch n : bt_get (ckeys ch) n = akey <$> bt_get ch n.
Proof. apply bt_get_fmap. Qed.

Lemma ckeys_sorted ch : bt_sorted (ckeys ch) ↔ bt_sorted ch.
Proof.
  unfold bt_sorted. by replace ((ckeys ch).*1) with (ch.*1)
    by (unfold ckeys; rewrite <- list_fmap_compose; done).
Qed.

Lemma bt_insert_map {V W} (f : V → W) (m : list (bytes * V)) k x :
  bt_insert (map (λ kv, (kv.1, f kv.2)) m) k (f x) = map (λ kv, (kv.1, f kv.2)) (bt_insert m k x).
Proof.
  induction m as [|[k' y] m IH]; cbn; [done|]. destruct (bytes_cmp k k'); cbn; [done..|]. by rewrite IH.
Qed.

Lemma bt_remove_map {V W} (f : V → W) (m : list (bytes * V)) k :
  bt_remove (map (λ kv, (kv.1, f kv.2)) m) k = map (λ kv, (kv.1, f kv.2)) (bt_remove m k).
Proof.
  induction m as [|[k' y] m IH]; cbn; [done|]. destruct (bytes_cmp k k'); cbn; [done..|]. by rewrite IH.
Qed.

Lemma ckeys_insert ch n c : ckeys (bt_insert ch n c) = bt_insert (ckeys ch) n (akey c).
Proof. symmetry. apply bt_insert_map. Qed.

Lemma ckeys_remove ch n : ckeys (bt_remove ch n) = bt_remove (ckeys ch) n.
Proof. symmetry. apply bt_remove_map. Qed.

Lemma tlookup_app t p q :
  tlookup t (p ++ q) = match tlookup t p with Some s => tlookup s q | None => None end.
Proof.
  revert t; induction p as [|n p IH]; intros t; cbn; [done|].
  destruct t as [|k ch]; [done|]. destruct (bt_get ch n); [apply IH|done].
Qed.

Lemma holds_vresolve v t p : holds v t → vresolve v (akey t) p = akey <$> tlookup t p.
Proof.
  revert t; induction p as [|n p IH]; intros t Ht; cbn; [done|].
  destruct t as [k b|k ch].
  - cbn in *. by rewrite Ht.
  - apply holds_dir in Ht as [Hk Hch]. cbn [akey]. rewrite Hk, bt_get_ckeys.
    destruct (bt_get ch n) as [c|] eqn:Ec; cbn; [|done]. apply IH.
    clear -Hch Ec. induction Hch as [|[n' c'] ch Hc _ IHc]; cbn in *; [done|].
    destruct (bytes_cmp n n'); simplify_eq; auto.
Qed.

Lemma bt_get_elem {V} (m : list (bytes * V)) n x : bt_get m n = Some x → ∃ k, (k, x) ∈ m.
Proof.
  induction m as [|[k y] m IH]; cbn; [done|]. destruct (bytes_cmp n k).
  - intros [= ->]. exists k. left.
  - done.
  - intros [j Hj]%IH. exists j. by right.
Qed.

Lemma holds_lookup v t p s : holds v t → tlookup t p = Some s → holds v s.
Proof.
  revert t; induction p as [|n p IH]; intros t Ht; cbn; [by intros [= <-]|].
  destruct t as [k b|k ch]; [done|]. apply holds_dir in Ht as [_ Hch].
  destruct (bt_get ch n) as [c|] eqn:Ec; [|done]. apply IH.
  apply bt_get_elem in Ec as [j Hj]. rewrite Forall_forall in Hch. by apply (Hch (j, c)).
Qed.

Lemma tsorted_lookup t p s : tsorted t → tlookup t p = Some s → tsorted s.
Proof.
  revert t; induction p as [|n p IH]; intros t Ht; cbn; [by intros [= <-]|].
  destruct t as [k b|k ch]; [done|]. apply tsorted_dir in Ht as [_ Hch].
  destruct (bt_get ch n) as [c|] eqn:Ec; [|done]. apply IH.
  apply bt_get_elem in Ec as [j Hj]. rewrite Forall_forall in Hch. by apply (Hch (j, c)).
Qed.

(** A child in place, and the list with it replaced or removed. *)
Lemma bt_split {V} (m : list (bytes * V)) n x :
  bt_sorted m → bt_get m n = Some x →
  ∃ m1 m2, m = m1 ++ (n, x) :: m2 ∧ (∀ y, bt_insert m n y = m1 ++ (n, y) :: m2) ∧
           bt_remove m n = m1 ++ m2.
Proof.
  induction m as [|[k y] m IH]; cbn; [done|]. intros [Hs Hk]%bt_sorted_cons.
  destruct (bytes_cmp n k) eqn:E; [|done|].
  - apply bytes_cmp_eq in E as ->. intros [= ->]. exists [], m. by split_and!.
  - intros Hg. destruct (IH Hs Hg) as (m1 & m2 & -> & Hi & Hr).
    exists ((k, y) :: m1), m2. split_and!; [done| |cbn; by rewrite Hr].
    intros z. cbn. by rewrite Hi.
Qed.

(** An absent name is added at one place. *)
Lemma bt_insert_split {V} (m : list (bytes * V)) n :
  bt_sorted m → bt_get m n = None →
  ∃ m1 m2, m = m1 ++ m2 ∧ ∀ y, bt_insert m n y = m1 ++ (n, y) :: m2.
Proof.
  induction m as [|[k y] m IH]; cbn; intros Hs Hg; [by exists [], []|].
  apply bt_sorted_cons in Hs as [Hs Hk]. destruct (bytes_cmp n k) eqn:E; [done| |].
  - by exists [], ((k, y) :: m).
  - destruct (IH Hs Hg) as (m1 & m2 & -> & Hi). exists ((k, y) :: m1), m2. split; [done|].
    intros z. cbn. by rewrite Hi.
Qed.

Definition chkeys (ch : list (bytes * atree)) : list AKey := concat (map (λ e, tkeys e.2) ch).

Lemma tkeys_dir k ch : tkeys (ADir k ch) = k :: chkeys ch.
Proof. done. Qed.

Lemma chkeys_app a b : chkeys (a ++ b) = chkeys a ++ chkeys b.
Proof. unfold chkeys. by rewrite map_app, concat_app. Qed.

Lemma chkeys_cons e ch : chkeys (e :: ch) = tkeys e.2 ++ chkeys ch.
Proof. done. Qed.

Lemma chkeys_elem j ch : j ∈ chkeys ch ↔ ∃ e, e ∈ ch ∧ j ∈ tkeys e.2.
Proof.
  induction ch as [|e ch IH]; [set_solver|]. rewrite chkeys_cons, elem_of_app, IH.
  setoid_rewrite elem_of_cons. naive_solver.
Qed.

Lemma tkeys_split t p s :
  tsorted t → tlookup t p = Some s →
  ∃ a b, tkeys t = a ++ tkeys s ++ b ∧ ∀ s', tkeys (treplace t p s') = a ++ tkeys s' ++ b.
Proof.
  revert t; induction p as [|n p IH]; intros t Ht Hl; cbn in *.
  - simplify_eq. exists [], []. by setoid_rewrite app_nil_r.
  - destruct t as [|k ch]; [done|]. apply tsorted_dir in Ht as [Hs Hch].
    destruct (bt_get ch n) as [c|] eqn:Ec; [|done].
    destruct (bt_split ch n c Hs Ec) as (m1 & m2 & -> & Hi & _).
    apply Forall_app in Hch as [_ Hch]. inversion Hch as [|?? Hc _]; subst.
    destruct (IH c Hc Hl) as (a & b & Ea & Eb).
    exists (k :: chkeys m1 ++ a), (b ++ chkeys m2). split.
    + rewrite tkeys_dir, chkeys_app, chkeys_cons. cbn [snd]. rewrite Ea. cbn. by rewrite <- !app_assoc.
    + intros s'. rewrite Hi, tkeys_dir, chkeys_app, chkeys_cons. cbn [snd]. rewrite Eb. cbn. by rewrite <- !app_assoc.
Qed.

Lemma tlookup_replace t p s s' : tsorted t → tlookup t p = Some s → tlookup (treplace t p s') p = Some s'.
Proof.
  revert t; induction p as [|n p IH]; intros t Ht Hl; cbn in *; [done|].
  destruct t as [|k ch]; [done|]. apply tsorted_dir in Ht as [Hs Hch].
  destruct (bt_get ch n) as [c|] eqn:Ec; [|done]. rewrite bt_get_insert_eq by done. apply IH; [|done].
  apply bt_get_elem in Ec as [j Hj]. rewrite Forall_forall in Hch. by apply (Hch (j, c)).
Qed.

Lemma akey_replace t p s s' : tlookup t p = Some s → akey s' = akey s → akey (treplace t p s') = akey t.
Proof.
  destruct p as [|n p]; cbn; [by intros [= ->]|]. destruct t as [|k ch]; [done|]. by destruct (bt_get ch n).
Qed.

Lemma holds_frame v v' t : (∀ j, j ∈ tkeys t → v' j = v j) → holds v t → holds v' t.
Proof.
  induction t as [k b|k ch IH] using atree_ind'; intros Hf.
  - cbn. intros <-. apply Hf. left.
  - rewrite !holds_dir. intros [Hk Hch]. split; [rewrite Hf; [done|left]|].
    assert (∀ j, j ∈ chkeys ch → v' j = v j) as Hf' by (intros; apply Hf; by right). clear Hf Hk.
    induction Hch as [|e ch He _ IHch]; [constructor|]. inversion IH; subst. constructor.
    + apply H1; [|done]. intros j Hj. apply Hf'. rewrite chkeys_cons. set_solver.
    + apply IHch; [done|]. intros j Hj. apply Hf'. rewrite chkeys_cons. set_solver.
Qed.

(** The frame rule: replacing the nodes of one subtree replaces that subtree. *)
Lemma holds_replace v v' t p s s' :
  holds v t → tsorted t → NoDup (tkeys t) → tlookup t p = Some s → akey s' = akey s →
  holds v' s' → (∀ j, j ∈ tkeys t → j ∉ tkeys s → v' j = v j) → holds v' (treplace t p s').
Proof.
  revert t; induction p as [|n p IH]; intros t Ht Hs Hnd Hl Hk Hs' Hf; cbn in *; [done|].
  destruct t as [|k ch]; [done|]. apply tsorted_dir in Hs as [Hs Hch].
  destruct (bt_get ch n) as [c|] eqn:Ec; [|done].
  destruct (bt_split ch n c Hs Ec) as (m1 & m2 & -> & Hi & _).
  apply holds_dir in Ht as [Hv Hhold].
  apply Forall_app in Hch as [_ Hch]. inversion Hch as [|?? Hcs _]; subst. cbn [snd] in Hcs.
  apply Forall_app in Hhold as [Hh1 Hh2]. inversion Hh2 as [|?? Hc Hh2']; subst. cbn [snd] in Hc.
  rewrite tkeys_dir, chkeys_app, chkeys_cons in *. cbn [snd] in *.
  apply NoDup_cons in Hnd as [Hk1 Hnd]. apply NoDup_app in Hnd as (Hnd1 & Hd1 & Hnd2).
  apply NoDup_app in Hnd2 as (Hndc & Hd2 & Hnd2).
  destruct (tkeys_split c p s Hcs Hl) as (a & b & Ea & _).
  assert (∀ j, j ∈ tkeys s → j ∈ tkeys c) as Hsub by (intros; rewrite Ea; set_solver).
  rewrite Hi. apply holds_dir. split.
  - rewrite Hf; [|left|set_solver]. rewrite Hv. do 2 f_equal. unfold ckeys. rewrite !map_app. cbn.
    by rewrite (akey_replace c p s s').
  - apply Forall_app. split; [|constructor].
    + apply Forall_forall. intros e He. eapply holds_frame; [|rewrite Forall_forall in Hh1; by apply Hh1].
      intros j Hj. assert (j ∈ chkeys m1) by (apply chkeys_elem; by exists e).
      apply Hf; [set_solver|]. intros Hjs%Hsub. by apply (Hd1 j); [|set_solver].
    + apply IH; try done. intros j Hj Hjs. apply Hf; [set_solver|done].
    + apply Forall_forall. intros e He. eapply holds_frame; [|rewrite Forall_forall in Hh2'; by apply Hh2'].
      intros j Hj. assert (j ∈ chkeys m2) by (apply chkeys_elem; by exists e).
      apply Hf; [set_solver|]. intros Hjs%Hsub. by apply (Hd2 j).
Qed.

Lemma treplace_sorted t p s s' : tsorted t → tlookup t p = Some s → tsorted s' → tsorted (treplace t p s').
Proof.
  revert t; induction p as [|n p IH]; intros t Ht Hl Hs'; cbn in *; [done|].
  destruct t as [|k ch]; [done|]. apply tsorted_dir in Ht as [Hs Hch].
  destruct (bt_get ch n) as [c|] eqn:Ec; [|done]. apply tsorted_dir. split; [by apply bt_sorted_insert|].
  destruct (bt_split ch n c Hs Ec) as (m1 & m2 & -> & Hi & _). rewrite Hi.
  apply Forall_app in Hch as [H1 H2]. inversion H2; subst. apply Forall_app. split; [done|].
  constructor; [|done]. by apply IH.
Qed.

(** ** Keys and paths *)

Lemma bt_get_Some_in {V} (m : list (bytes * V)) n x : bt_get m n = Some x → (n, x) ∈ m.
Proof.
  induction m as [|[k y] m IH]; cbn; [done|]. destruct (bytes_cmp n k) eqn:E.
  - apply bytes_cmp_eq in E as ->. intros [= ->]. left.
  - done.
  - intros Hin%IH. by right.
Qed.

Lemma lookup_keys t p s : tlookup t p = Some s → ∀ j, j ∈ tkeys s → j ∈ tkeys t.
Proof.
  revert t; induction p as [|n p IH]; intros t; cbn; [by intros [= ->]|].
  destruct t as [|k ch]; [done|]. destruct (bt_get ch n) as [c|] eqn:E; [|done].
  intros Hl j Hj. right. fold (chkeys ch). apply chkeys_elem. exists (n, c).
  split; [by apply bt_get_Some_in|]. by apply (IH c Hl).
Qed.

Lemma akey_in t : akey t ∈ tkeys t.
Proof. destruct t; left. Qed.

Lemma key_lookup t j : tsorted t → j ∈ tkeys t → ∃ p s, tlookup t p = Some s ∧ akey s = j.
Proof.
  induction t as [k b|k ch IH] using atree_ind'; intros Hso Hj.
  - apply list_elem_of_singleton in Hj as ->. by exists [], (AFile k b).
  - rewrite tkeys_dir, elem_of_cons in Hj. destruct Hj as [->|Hj]; [by exists [], (ADir k ch)|].
    apply tsorted_dir in Hso as [Hs Hso]. apply chkeys_elem in Hj as ([n c] & He & Hj).
    rewrite Forall_forall in IH, Hso. destruct (IH _ He (Hso _ He) Hj) as (p & s & Hl & Hk).
    exists (n :: p), s. cbn. apply bt_elem_get in He; [|done]. by rewrite He.
Qed.

Lemma path_unique t : ∀ p q s r,
  NoDup (tkeys t) → tlookup t p = Some s → tlookup t q = Some r → akey s = akey r → p = q ∧ s = r.
Proof.
  assert (∀ k ch n p s, k ∉ chkeys ch → tlookup (ADir k ch) (n :: p) = Some s → akey s ≠ k) as Hroot.
  { intros k ch n p s Hk Hl <-. cbn in Hl. destruct (bt_get ch n) as [c|] eqn:E; [|done].
    apply Hk. apply chkeys_elem. exists (n, c). split; [by apply bt_get_Some_in|].
    apply (lookup_keys c p s Hl), akey_in. }
  induction t as [k b|k ch IH] using atree_ind'; intros p q s r Hnd Hp Hq Hk.
  - destruct p, q; cbn in *; by simplify_eq.
  - rewrite tkeys_dir in Hnd. apply NoDup_cons in Hnd as [Hkn Hnd].
    destruct p as [|n p], q as [|m q].
    + cbn in *. by simplify_eq.
    + exfalso. apply (Hroot k ch m q r Hkn Hq). cbn in Hp. by simplify_eq.
    + exfalso. apply (Hroot k ch n p s Hkn Hp). cbn in Hq. by simplify_eq.
    + cbn in Hp, Hq. destruct (bt_get ch n) as [c|] eqn:En; [|done]. destruct (bt_get ch m) as [d|] eqn:Em; [|done].
      pose proof (bt_get_Some_in _ _ _ En) as Hin. pose proof (bt_get_Some_in _ _ _ Em) as Him.
      pose proof (lookup_keys c p s Hp _ (akey_in s)) as Hsc.
      pose proof (lookup_keys d q r Hq _ (akey_in r)) as Hrd. rewrite <- Hk in Hrd.
      assert ((n, c) = (m, d)) as Heq.
      { clear -Hin Him Hsc Hrd Hnd. induction ch as [|e ch IHch]; [set_solver|].
        rewrite chkeys_cons in Hnd. apply NoDup_app in Hnd as (_ & Hd & Hnd).
        apply elem_of_cons in Hin as [<-|Hin], Him as [<-|Him]; [done| | |by apply IHch]; exfalso.
        - apply (Hd _ Hsc). apply chkeys_elem. by exists (m, d).
        - apply (Hd _ Hrd). apply chkeys_elem. by exists (n, c). }
      injection Heq as -> ->.
      assert (NoDup (tkeys d)) as Hndd.
      { clear -Him Hnd. induction ch as [|e ch IHch]; [set_solver|].
        rewrite chkeys_cons in Hnd. apply NoDup_app in Hnd as (He & _ & Hnd).
        apply elem_of_cons in Him as [<-|Him]; [done|by apply IHch]. }
      rewrite Forall_forall in IH. destruct (IH _ Him p q s r Hndd Hp Hq Hk) as [-> ->]. done.
Qed.

(** A key of the subtree at [q] belongs to an a-node whose path extends [q]. *)
Lemma key_below t p q s r :
  tsorted t → NoDup (tkeys t) → tlookup t p = Some s → tlookup t q = Some r → akey s ∈ tkeys r →
  q `prefix_of` p.
Proof.
  intros Hso Hnd Hp Hq Hk. destruct (key_lookup r (akey s)) as (u & s' & Hu & Ha);
    [by eapply tsorted_lookup|done|].
  assert (tlookup t (q ++ u) = Some s') as Hqu by by rewrite tlookup_app, Hq.
  destruct (path_unique t p (q ++ u) s s' Hnd Hp Hqu) as [-> _]; [done|]. by exists u.
Qed.

(** ** Removing a path *)

Fixpoint t_remove (t : atree) (p : APath) : atree :=
  match t, p with
  | ADir k ch, [n] => ADir k (bt_remove ch n)
  | ADir k ch, n :: p =>
      match bt_get ch n with
      | Some c => ADir k (bt_insert ch n (t_remove c p))
      | None => t
      end
  | _, _ => t
  end.

Lemma t_remove_cons k ch n m p :
  t_remove (ADir k ch) (n :: m :: p) =
    match bt_get ch n with Some c => ADir k (bt_insert ch n (t_remove c (m :: p))) | None => ADir k ch end.
Proof. done. Qed.

Lemma t_remove_replace p n : ∀ t k ch,
  tlookup t p = Some (ADir k ch) → t_remove t (p ++ [n]) = treplace t p (ADir k (bt_remove ch n)).
Proof.
  induction p as [|m p IH]; intros t k ch; cbn [tlookup app treplace]; [by intros [= ->]|].
  destruct t as [|k0 ch0]; [done|]. destruct (bt_get ch0 m) as [c|] eqn:E; [|done]. intros Hl.
  destruct (p ++ [n]) as [|m' p'] eqn:Ep; [by destruct p|]. rewrite t_remove_cons, E. by rewrite (IH c k ch Hl).
Qed.

Lemma akey_remove t p : akey (t_remove t p) = akey t.
Proof.
  destruct t as [|k ch]; [by destruct p|]. destruct p as [|n [|m p]]; [done..|].
  rewrite t_remove_cons. by destruct (bt_get ch n).
Qed.

(** Other paths see through a removal. *)
Lemma t_remove_lookup p : ∀ t q,
  tsorted t → p ≠ [] → ¬ p `prefix_of` q → ¬ q `prefix_of` p →
  tlookup (t_remove t p) q = tlookup t q.
Proof.
  induction p as [|n p IH]; intros t q Hso Hp Hpq Hqp; [done|].
  destruct q as [|m q]; [destruct Hqp; by apply prefix_nil|].
  destruct t as [k b|k ch]; [by destruct p|]. pose proof (proj1 (tsorted_dir _ _) Hso) as [Hs Hch].
  destruct p as [|n' p].
  - cbn. rewrite bt_get_remove by done. case_decide; [|done]. subst. destruct Hpq. apply prefix_cons, prefix_nil.
  - rewrite t_remove_cons. destruct (bt_get ch n) as [c|] eqn:E; [|done]. cbn [tlookup].
    rewrite bt_get_insert by done. case_decide as Hnm; [|done]. subst. rewrite E. apply IH.
    + rewrite Forall_forall in Hch. by apply (Hch (n, c)), bt_get_Some_in.
    + done.
    + intros ?. by apply Hpq, prefix_cons.
    + intros ?. by apply Hqp, prefix_cons.
Qed.

(** A proper ancestor of the removed path loses it below. *)
Lemma t_remove_ancestor q : ∀ t r s,
  tsorted t → r ≠ [] → tlookup t q = Some s → tlookup (t_remove t (q ++ r)) q = Some (t_remove s r).
Proof.
  induction q as [|n q IH]; intros t r s Hso Hr; cbn [tlookup app]; [by intros [= ->]|].
  destruct t as [k b|k ch]; [done|]. pose proof (proj1 (tsorted_dir _ _) Hso) as [Hs Hch].
  destruct (bt_get ch n) as [c|] eqn:E; [|done]. intros Hl.
  destruct (q ++ r) as [|m p] eqn:Ep; [destruct q, r; done|]. rewrite t_remove_cons, E. cbn [tlookup].
  rewrite bt_get_insert_eq by done. rewrite <- Ep. apply IH; [|done..].
  rewrite Forall_forall in Hch. by apply (Hch (n, c)), bt_get_Some_in.
Qed.

Lemma bt_get_remove_ckeys ch n : ckeys (bt_remove ch n) = bt_remove (ckeys ch) n.
Proof. apply ckeys_remove. Qed.

(** Removing strictly below a child keeps the directory's own map. *)
Lemma t_remove_ckeys k ch n p :
  bt_sorted ch → p ≠ [] →
  ∃ ch', t_remove (ADir k ch) (n :: p) = ADir k ch' ∧ ckeys ch' = ckeys ch ∧
         (∀ m, m ≠ n → bt_get ch' m = bt_get ch m).
Proof.
  intros Hs Hp. destruct p as [|m p]; [done|]. rewrite t_remove_cons.
  destruct (bt_get ch n) as [c|] eqn:E; [|by exists ch]. eexists; split_and!; [done| |].
  - rewrite ckeys_insert. apply bt_insert_present; [by apply ckeys_sorted|].
    rewrite bt_get_ckeys, E. cbn [fmap option_fmap option_map]. by rewrite akey_remove.
  - intros m' Hm. by apply bt_get_insert_ne.
Qed.
