(* ===== verification/Refine.v ===== *)
(** * The filesystem operations implement the abstract tree

    [fs c t]: the context [c] (engine table, write-back cache and key generator)
    stands for the directory tree [t].  Each operation of [Fs] is shown to take a
    context for [t] to a context for the tree the corresponding pure function
    returns, errors included, provided the keys it draws are unused ([fresh_for])
    and the touched directories stay within the format's 32-bit offsets
    ([path_fits]). *)
From S2P Require Import Prelude BTree Codec Ext Scalar Path Value Archived Key Dir Engine WriteBuffer Ctx Fs Tree.

(** ** The abstract operations *)

(** [mkdir -p], drawing keys from the generator. *)
Fixpoint t_ensure (t : atree) (p : APath) (s : Z) : res (atree * Z) :=
  match p with
  | [] => Ok (t, s)
  | n :: rest =>
      match t with
      | AFile _ _ => Err (CannotAccess "'{name}' is a file, not a directory")
      | ADir k ch =>
          match bt_get ch n with
          | Some c =>
              if is_dir c then
                let? '(c, s) := t_ensure c rest s in Ok (ADir k (bt_insert ch n c), s)
              else Err (CannotAccess "'{name}' is a file, not a directory")
          | None =>
              let '(f, s) := generate s in
              let? '(c, s) := t_ensure (ADir f []) rest s in Ok (ADir k (bt_insert ch n c), s)
          end
      end
  end.

(** Storing a file under a directory: an existing file keeps its key. *)
Definition t_put (t : atree) (n : bytes) (blob : bytes) (s : Z) : atree * Z :=
  match t with
  | AFile _ _ => (t, s)
  | ADir k ch =>
      match bt_get ch n with
      | Some (AFile f _) => (ADir k (bt_insert ch n (AFile f blob)), s)
      | _ => let '(f, s) := generate s in (ADir k (bt_insert ch n (AFile f blob)), s)
      end
  end.

Definition t_store (t : atree) (path : APath) (blob : bytes) (s : Z) : res (atree * Z) :=
  match APath_split_last path with
  | None => Panic
  | Some (parent, n) =>
      let? '(t, s) := t_ensure t parent s in
      match tlookup t parent with
      | Some dir => let '(dir, s) := t_put dir n blob s in Ok (treplace t parent dir, s)
      | None => Ok (t, s)
      end
  end.

Definition t_rm (t : atree) (path : APath) : atree * bool :=
  match tlookup t path with
  | Some _ => (t_remove t path, true)
  | None => (t, false)
  end.

(** Linking a subtree under a directory, replacing what was there. *)
Definition t_link (t : atree) (n : bytes) (x : atree) : atree :=
  match t with ADir k ch => ADir k (bt_insert ch n x) | _ => t end.

(** The source leaves its name and appears, whole, at the destination. *)
Definition t_mv (t : atree) (src dst : APath) (s : Z) : res (atree * Z) :=
  match tlookup t src, APath_split_last dst with
  | Some x, Some (parent, n) =>
      let? '(t, s) := t_ensure t parent s in
      let t := t_remove t src in
      match tlookup t parent with
      | Some dir => Ok (treplace t parent (t_link dir n x), s)
      | None => Ok (t, s)
      end
  | _, _ => Err ValueNotFound
  end.

(** ** Sizes and keys *)

Definition linkable (m : Children) (n : bytes) : Prop :=
  dir_name_ok n ∧ 4 + (blen m + 1) * ENTRY + blen (concat (m.*1)) + blen n < 2 ^ 32.

Fixpoint path_fits (t : atree) (p : APath) : Prop :=
  match p with
  | [] => True
  | n :: rest =>
      match t with
      | AFile _ _ => True
      | ADir _ ch =>
          match bt_get ch n with
          | Some c => path_fits c rest
          | None => linkable (ckeys ch) n ∧ Forall (linkable []) rest
          end
      end
  end.

Definition fresh_for (v : AKey → option node) (s n : Z) : Prop :=
  ∀ i, 0 ≤ i < n → v (nth_key s i) = None.

Lemma bt_insert_perm {V} (m : list (bytes * V)) n x :
  bt_sorted m →
  match bt_get m n with
  | Some y => ∃ m1 m2, m = m1 ++ (n, y) :: m2 ∧ bt_insert m n x = m1 ++ (n, x) :: m2
  | None => ∃ m1 m2, m = m1 ++ m2 ∧ bt_insert m n x = m1 ++ (n, x) :: m2
  end.
Proof.
  intros Hs. destruct (bt_get m n) as [y|] eqn:E.
  - destruct (bt_split m n y Hs E) as (m1 & m2 & ? & Hi & _). eauto.
  - destruct (bt_insert_split m n Hs E) as (m1 & m2 & ? & Hi). eauto.
Qed.

Lemma blen_concat_middle {V} (m1 m2 : list (bytes * V)) n x :
  blen (concat ((m1 ++ (n, x) :: m2).*1)) = blen (concat ((m1 ++ m2).*1)) + blen n ∧
  blen (m1 ++ (n, x) :: m2) = blen (m1 ++ m2) + 1.
Proof.
  rewrite !fmap_app, !concat_app, !blen_app. cbn [fmap list_fmap concat fst].
  rewrite !blen_app, blen_cons. lia.
Qed.

Lemma dir_ok_insert m n k :
  dir_ok m → akey_ok k → (is_Some (bt_get m n) ∨ linkable m n) → dir_ok (bt_insert m n k).
Proof.
  intros (Hs & Hf & Hb) Hk Hn. pose proof (bt_insert_perm m n k Hs) as Hi.
  rewrite blen_encode_dir in Hb. unfold dir_ok. rewrite blen_encode_dir.
  split; [by apply bt_sorted_insert|].
  destruct (bt_get m n) as [y|].
  - destruct Hi as (m1 & m2 & -> & ->). apply Forall_app in Hf as [H1 H2]. inversion H2 as [|?? [Hno _] H2']; subst.
    cbn [fst snd] in *. split.
    + apply Forall_app. split; [done|]. by constructor.
    + destruct (blen_concat_middle m1 m2 n k) as [-> ->]. destruct (blen_concat_middle m1 m2 n y) as [E1 E2].
      rewrite E1, E2 in Hb. lia.
  - destruct Hn as [[? [=]]|[Hno Hl]]. destruct Hi as (m1 & m2 & -> & ->).
    apply Forall_app in Hf as [H1 H2]. split.
    + apply Forall_app. split; [done|]. by constructor.
    + destruct (blen_concat_middle m1 m2 n k) as [-> ->]. lia.
Qed.

Lemma dir_ok_remove m n : dir_ok m → dir_ok (bt_remove m n).
Proof.
  intros (Hs & Hf & Hb). split; [by apply bt_sorted_remove|].
  rewrite blen_encode_dir in *. destruct (bt_get m n) as [y|] eqn:E.
  - destruct (bt_split m n y Hs E) as (m1 & m2 & -> & _ & ->). destruct (blen_concat_middle m1 m2 n y) as [E1 E2].
    rewrite E1, E2 in Hb. apply Forall_app in Hf as [H1 H2]. inversion H2; subst.
    pose proof (blen_nonneg n). split; [by apply Forall_app|]. unfold ENTRY in *. lia.
  - by rewrite bt_remove_absent.
Qed.

Lemma dir_ok_nil : dir_ok [].
Proof. split_and!; [constructor..|by vm_compute]. Qed.

Section refine.
Context `{Ext} {T : Type} `{KV T Z bytes} `{!KVLaws T Z bytes}.
Implicit Type c : Ctx T.

Lemma view_dir_ok c k m : ctx_ok c → view c k = Some (NDir m) → dir_ok m.
Proof.
  intros (Hw & Hd & Hf & He & _) Hv. unfold view in Hv.
  destruct (dirs (wb c) !! k) as [m'|] eqn:Ed; [simplify_eq; by apply (Hd _ _ Ed)|].
  destruct (files (wb c) !! k) as [e|] eqn:Ef.
  { destruct (Hf _ _ Ef) as [[b ->] _]. done. }
  unfold engine_view in Hv. destruct (kv_get (data c) k) as [e|] eqn:Eg; [|done]. cbn [mbind option_bind] in Hv.
  destruct (He _ _ Eg) as [(m' & Hm & ->)|(b' & ->)]; [|done].
  rewrite decode_dir in Hv by done. by simplify_eq.
Qed.

Lemma holds_sorted c t : ctx_ok c → holds (view c) t → tsorted t.
Proof.
  intros Hc. induction t as [k b|k ch IH] using atree_ind'; [done|].
  rewrite holds_dir, tsorted_dir. intros [Hk Hch]. split.
  - apply ckeys_sorted, (view_dir_ok c k _ Hc Hk).
  - clear Hk. induction Hch as [|e ch He _ IHch]; inversion IH; subst; constructor; auto.
Qed.

Lemma holds_keys v t j : holds v t → j ∈ tkeys t → is_Some (v j).
Proof.
  induction t as [k b|k ch IH] using atree_ind'.
  - cbn. intros Hk ->%list_elem_of_singleton. eauto.
  - rewrite holds_dir, tkeys_dir, elem_of_cons. intros [Hk Hch] [->|Hj]; [eauto|].
    apply chkeys_elem in Hj as (e & He & Hj). rewrite Forall_forall in IH, Hch. eapply IH; eauto.
Qed.

(** One step of the refinement: the tree [t] has become [t'] using exactly the
    first [n] keys of the generator; nodes outside both trees are untouched, and
    nodes of [t] that [t'] no longer has are gone. *)
Record changes c t c' t' n : Prop := {
  g_ok : ctx_ok c';
  g_holds : holds (view c') t';
  g_nodup : NoDup (tkeys t');
  g_akey : akey t' = akey t;
  g_dir : is_dir t' = is_dir t;
  g_frame : ∀ j, j ∉ tkeys t → j ∉ tkeys t' → view c' j = view c j;
  g_gone : ∀ j, j ∈ tkeys t → j ∉ tkeys t' → view c' j = None;
  g_new : ∀ j, j ∈ tkeys t' → j ∈ tkeys t ∨ ∃ i, 0 ≤ i < n ∧ j = nth_key (rng c) i;
  g_n : 0 ≤ n;
  g_rng : rng c' = state_at (rng c) (2 * n);
  g_buf : buffering (wb c') = buffering (wb c);
}.

Lemma nth_key_state s m i : nth_key (state_at s (2 * m)) i = nth_key s (m + i).
Proof.
  unfold nth_key. f_equal. f_equal. unfold state_at, as_u64. rewrite Z.add_mod_idemp_l by lia. f_equal. lia.
Qed.

Lemma state_at_add s m n : state_at (state_at s m) n = state_at s (m + n).
Proof. unfold state_at, as_u64. rewrite Z.add_mod_idemp_l by lia. f_equal. lia. Qed.

Lemma generate_word s : word s → generate s = (nth_key s 0, state_at s 2).
Proof.
  intros Hs. unfold nth_key. rewrite Z.mul_0_r. rewrite <- (state_at_0 s) at 1 by done.
  pose proof (generate_state s 0) as E. rewrite Z.add_0_l in E.
  destruct (generate (state_at s 0)); cbn in *. by subst.
Qed.

Lemma fresh_not_in c t s N i : holds (view c) t → fresh_for (view c) s N → 0 ≤ i < N → nth_key s i ∉ tkeys t.
Proof.
  intros Ht Hf Hi Hin. destruct (holds_keys _ _ _ Ht Hin) as [x Hx]. rewrite Hf in Hx; [done|lia].
Qed.

(** The remaining draws are still unused. *)
Lemma changes_fresh c t c' t' n N :
  changes c t c' t' n → holds (view c) t → fresh_for (view c) (rng c) N → n ≤ N ≤ 2 ^ 62 →
  fresh_for (view c') (rng c') (N - n).
Proof.
  intros Hg Ht Hf HN i Hi. pose proof (g_n _ _ _ _ _ Hg).
  rewrite (g_rng _ _ _ _ _ Hg), nth_key_state.
  rewrite (g_frame _ _ _ _ _ Hg); [apply Hf; lia| |].
  - apply (fresh_not_in c t _ N); [done..|lia].
  - intros [Hin|(j & Hj & E)]%(g_new _ _ _ _ _ Hg).
    + revert Hin. apply (fresh_not_in c t _ N); [done..|lia].
    + apply nth_key_inj in E; lia.
Qed.

Lemma changes_refl c t : ctx_ok c → holds (view c) t → NoDup (tkeys t) → changes c t c t 0.
Proof.
  intros Hc Ht Hnd. split; try done; [by auto|].
  rewrite Z.mul_0_r, state_at_0; [done|apply Hc].
Qed.

Lemma changes_trans c t c1 t1 c2 t2 n1 n2 :
  changes c t c1 t1 n1 → changes c1 t1 c2 t2 n2 → holds (view c) t → fresh_for (view c) (rng c) n1 →
  changes c t c2 t2 (n1 + n2).
Proof.
  intros H1 H2 Ht Hf. destruct H1, H2. split; try done; try congruence; try lia.
  - intros j Hj Hj2. destruct (decide (j ∈ tkeys t1)) as [Hj1|Hj1].
    + rewrite (g_gone1 _ Hj1 Hj2). destruct (g_new0 _ Hj1) as [?|(i & Hi & ->)]; [done|]. by rewrite Hf.
    + by rewrite g_frame1, g_frame0.
  - intros j Hj Hj2. destruct (decide (j ∈ tkeys t1)) as [Hj1|Hj1]; [by apply g_gone1|].
    rewrite g_frame1 by done. by apply g_gone0.
  - intros j Hj. destruct (g_new1 _ Hj) as [Hj1|(i & Hi & ->)].
    + destruct (g_new0 _ Hj1) as [?|(i & Hi & ->)]; [by left|]. right. exists i. split; [lia|done].
    + right. exists (n1 + i). split; [lia|]. by rewrite g_rng0, nth_key_state.
  - rewrite g_rng1, g_rng0, state_at_add. f_equal. lia.
Qed.

(** A change below a path is a change of the whole tree. *)
Lemma changes_at c t p s c' s' n :
  holds (view c) t → NoDup (tkeys t) → tsorted t → tlookup t p = Some s →
  changes c s c' s' n → fresh_for (view c) (rng c) n →
  changes c t c' (treplace t p s') n.
Proof.
  intros Ht Hnd Hso Hl Hs Hf. destruct (tkeys_split t p s Hso Hl) as (a & b & Ea & Eb).
  pose proof Hs as Hs0. destruct Hs. specialize (Eb s').
  assert (∀ j, j ∈ a ∨ j ∈ b → j ∉ tkeys s ∧ j ∉ tkeys s') as Hdis.
  { intros j Hj. assert (j ∈ tkeys t) as Hjt by (rewrite Ea; set_solver).
    assert (j ∉ tkeys s) as Hns.
    { rewrite Ea in Hnd. apply NoDup_app in Hnd as (_ & Hd1 & Hnd). apply NoDup_app in Hnd as (_ & Hd2 & _).
      destruct Hj as [Hj|Hj]; [specialize (Hd1 _ Hj); set_solver|intros Hx; by apply (Hd2 _ Hx)]. }
    split; [done|]. intros [?|(i & Hi & ->)]%g_new0; [done|].
    revert Hjt. by apply (fresh_not_in c t _ n). }
  split; try done.
  - eapply holds_replace; [exact Ht|done..|]. intros j Hj Hns. apply g_frame0; [done|].
    rewrite Ea in Hj. apply Hdis. set_solver.
  - rewrite Eb. rewrite Ea in Hnd. apply NoDup_app in Hnd as (Ha & Hd1 & Hnd). apply NoDup_app in Hnd as (_ & Hd2 & Hb).
    apply NoDup_app. split_and!; [done| |apply NoDup_app; split_and!; [done| |done]].
    + intros j Hj. destruct (Hdis j (or_introl Hj)). specialize (Hd1 _ Hj). set_solver.
    + intros j Hj Hjb. by destruct (Hdis j (or_intror Hjb)).
  - by apply (akey_replace t p s s').
  - destruct p as [|m p]; cbn in *; [by simplify_eq|]. destruct t as [|k ch]; [done|].
    by destruct (bt_get ch m).
  - intros j. rewrite Ea, Eb. intros H1 H2. apply g_frame0; set_solver.
  - intros j. rewrite Ea, Eb. intros H1 H2. apply g_gone0; set_solver.
  - intros j. rewrite Eb, Ea. intros Hj. destruct (decide (j ∈ tkeys s')) as [Hin|]; [|left; set_solver].
    destruct (g_new0 _ Hin) as [?|?]; [left; set_solver|by right].
Qed.

(** Replacing some children of a directory. *)
Lemma changes_children c k m1 old new m2 c' n :
  holds (view c) (ADir k (m1 ++ old ++ m2)) → NoDup (tkeys (ADir k (m1 ++ old ++ m2))) →
  ctx_ok c' → view c' k = Some (NDir (ckeys (m1 ++ new ++ m2))) →
  Forall (λ e, holds (view c') e.2) new → NoDup (chkeys new) →
  (∀ j, j ∈ chkeys new → j ∈ chkeys old ∨ ∃ i, 0 ≤ i < n ∧ j = nth_key (rng c) i) →
  (∀ j, j ≠ k → j ∉ chkeys old → j ∉ chkeys new → view c' j = view c j) →
  (∀ j, j ∈ chkeys old → j ∉ chkeys new → view c' j = None) →
  fresh_for (view c) (rng c) n → 0 ≤ n → rng c' = state_at (rng c) (2 * n) →
  buffering (wb c') = buffering (wb c) →
  changes c (ADir k (m1 ++ old ++ m2)) c' (ADir k (m1 ++ new ++ m2)) n.
Proof.
  intros Ht Hnd Hc' Hk Hnew Hndn Hkeys Hframe Hgone Hf Hn Hr Hb.
  rewrite tkeys_dir, !chkeys_app in Hnd. apply NoDup_cons in Hnd as [Hk1 Hnd].
  apply NoDup_app in Hnd as (Hnd1 & Hd1 & Hnd). apply NoDup_app in Hnd as (Hndo & Hd2 & Hnd2).
  assert (∀ j, j = k ∨ j ∈ chkeys m1 ∨ j ∈ chkeys m2 → j ∉ chkeys old ∧ j ∉ chkeys new) as Hdis.
  { intros j Hj. assert (j ∉ chkeys old) as Hno.
    { destruct Hj as [->|[Hj|Hj]]; [set_solver|specialize (Hd1 _ Hj); set_solver|intros Hx; by apply (Hd2 _ Hx)]. }
    split; [done|]. intros [?|(i & Hi & ->)]%Hkeys; [done|].
    assert (nth_key (rng c) i ∈ tkeys (ADir k (m1 ++ old ++ m2))) as Hin.
    { rewrite tkeys_dir, !chkeys_app. set_solver. }
    revert Hin. by apply (fresh_not_in c _ _ n). }
  apply holds_dir in Ht as [_ Hch]. apply Forall_app in Hch as [Hh1 Hch]. apply Forall_app in Hch as [_ Hh2].
  assert (∀ l, Forall (λ e, holds (view c) e.2) l → (∀ j, j ∈ chkeys l → j = k ∨ j ∈ chkeys m1 ∨ j ∈ chkeys m2) →
            k ∉ chkeys l → Forall (λ e, holds (view c') e.2) l) as Hkeep.
  { intros l Hl Hin Hkl. apply Forall_forall. intros e He. rewrite Forall_forall in Hl.
    eapply holds_frame; [|by apply Hl]. intros j Hj. assert (j ∈ chkeys l) as Hjl by (apply chkeys_elem; by exists e).
    destruct (Hdis j (Hin _ Hjl)). apply Hframe; [|done..]. by intros ->. }
  split; try done.
  - apply holds_dir. split; [done|]. apply Forall_app. split; [apply Hkeep; [done|by auto|set_solver]|].
    apply Forall_app. split; [done|]. apply Hkeep; [done|by auto|set_solver].
  - rewrite tkeys_dir, !chkeys_app. apply NoDup_cons. split.
    + destruct (Hdis k) as [_ ?]; [by left|]. set_solver.
    + apply NoDup_app. split_and!; [done| |apply NoDup_app; split_and!; [done| |done]].
      * intros j Hj. destruct (Hdis j) as [_ ?]; [by auto|]. specialize (Hd1 _ Hj). set_solver.
      * intros j Hj Hj2. by destruct (Hdis j) as [_ ?]; [by auto|].
  - intros j. rewrite !tkeys_dir, !chkeys_app. intros H1 H2. apply Hframe; set_solver.
  - intros j. rewrite !tkeys_dir, !chkeys_app. intros H1 H2. apply Hgone; set_solver.
  - intros j. rewrite !tkeys_dir, !chkeys_app. intros Hj.
    destruct (decide (j ∈ chkeys new)) as [Hin|]; [|left; set_solver].
    destruct (Hkeys _ Hin) as [?|?]; [left; set_solver|by right].
Qed.

(** ** [ensure_dir] *)

Lemma t_ensure_fresh f p s : ∃ t' s', t_ensure (ADir f []) p s = Ok (t', s').
Proof.
  revert f s; induction p as [|n p IH]; intros f s; cbn [t_ensure]; [by eauto|].
  cbn [bt_get]. destruct (generate s) as [g s1]. destruct (IH g s1) as (t' & s' & ->). cbn. eauto.
Qed.

Definition ensured c t p : Prop :=
  match t_ensure t p (rng c) with
  | Ok (t', s') =>
      ∃ c' n sub, ensure_dir_from (akey t) p c = (Ok (akey sub), c') ∧ changes c t c' t' n ∧
        n ≤ blen p ∧ rng c' = s' ∧ tlookup t' p = Some sub ∧ is_dir sub = true
  | Err e => ensure_dir_from (akey t) p c = (Err e, c)
  | _ => False
  end.

(** Creating an empty directory under an absent name. *)
Lemma mkdir_step c k ch n :
  ctx_ok c → holds (view c) (ADir k ch) → NoDup (tkeys (ADir k ch)) → bt_get ch n = None →
  linkable (ckeys ch) n → fresh_for (view c) (rng c) 1 →
  ∃ c3, (∀ B (K : AKey → SM (Ctx T) B),
           (let! f := fresh_key in let! _ := put_dir f [] in let! _ := link_child k n f in K f) c
             = K (nth_key (rng c) 0) c3) ∧
    changes c (ADir k ch) c3 (ADir k (bt_insert ch n (ADir (nth_key (rng c) 0) []))) 1.
Proof.
  intros Hc Ht Hnd Hg Hl Hf. pose proof (Hf 0 ltac:(lia)) as Hf0.
  pose proof (nth_key_ok (rng c) 0) as Hfok. set (f := nth_key (rng c) 0) in *.
  pose proof Ht as Ht'. apply holds_dir in Ht' as [Hk _].
  pose proof (view_dir_ok c k _ Hc Hk) as Hdk.
  assert (f ≠ k) as Hfk by (intros E; congruence).
  destruct (fresh_key_spec c Hc) as (c1 & E1 & Hc1 & Hv1 & Hr1 & Hw1 & _). fold f in E1.
  destruct (put_dir_spec c1 f [] Hc1 dir_ok_nil) as (c2 & E2 & (Hc2 & Hv2 & Hr2 & Hb2) & _);
    [by rewrite Hv1, Hf0|].
  assert (view c2 k = Some (NDir (ckeys ch))) as Hk2 by (rewrite Hv2, upd_ne, Hv1; done).
  destruct (link_child_spec c2 k n f (ckeys ch) Hc2 Hk2) as (c3 & E3 & (Hc3 & Hv3 & Hr3 & Hb3) & _).
  { apply dir_ok_insert; auto. }
  exists c3. split.
  { intros B K. rewrite (sbind_Ok _ _ _ _ _ E1), (sbind_Ok _ _ _ _ _ E2), (sbind_Ok _ _ _ _ _ E3). done. }
  assert (bt_sorted ch) as Hs by (apply ckeys_sorted; apply Hdk).
  destruct (bt_insert_split ch n Hs Hg) as (m1 & m2 & Ech & Hi). rewrite Hi.
  assert (view c3 f = Some (NDir [])) as Hff by (rewrite Hv3, upd_ne, Hv2, upd_eq; done).
  rewrite Ech in Ht, Hnd |- *.
  apply (changes_children c k m1 [] [(n, ADir f [])] m2); try done.
  - rewrite Hv3, upd_eq. do 2 f_equal. cbn [app]. rewrite <- Hi, ckeys_insert. by rewrite Ech.
  - repeat constructor. done.
  - cbn. apply NoDup_singleton.
  - cbn. intros j ->%list_elem_of_singleton. right. exists 0. split; [lia|done].
  - cbn. intros j Hjk _ Hj. rewrite Hv3, upd_ne, Hv2, upd_ne, Hv1; [done|set_solver|done].
  - cbn. set_solver.
  - by rewrite Hr3, Hr2, Hr1.
  - rewrite Hb3, Hb2. by rewrite Hw1.
Qed.

Lemma ensure_from_spec p : ∀ c t,
  ctx_ok c → holds (view c) t → NoDup (tkeys t) → is_dir t = true → path_fits t p →
  fresh_for (view c) (rng c) (blen p) → blen p ≤ 2 ^ 62 → ensured c t p.
Proof.
  induction p as [|n p IH]; intros c t Hc Ht Hnd Hd Hfit Hf Hlen.
  { unfold ensured. cbn. exists c, 0, t. split_and!; try done. by apply changes_refl. }
  destruct t as [|k ch]; [done|]. rewrite blen_cons in *. pose proof (blen_nonneg p) as Hp0.
  pose proof (holds_sorted c _ Hc Ht) as Hso. unfold ensured. cbn [t_ensure path_fits] in *.
  pose proof (proj1 (tsorted_dir _ _) Hso) as [Hs _].
  pose proof (proj1 (holds_dir _ _ _) Ht) as [Hk _].
  assert (child k n c = Ok (akey <$> bt_get ch n)) as Hchild
    by by rewrite (child_spec c k n Hc), Hk, bt_get_ckeys.
  destruct (bt_get ch n) as [ch0|] eqn:Hg.
  - assert (tlookup (ADir k ch) [n] = Some ch0) as Hl by (cbn; by rewrite Hg).
    pose proof (holds_lookup _ _ _ _ Ht Hl) as Hch0.
    destruct (tkeys_split _ _ _ Hso Hl) as (a & b & Ea & _).
    assert (NoDup (tkeys ch0)) as Hnd0.
    { rewrite Ea in Hnd. apply NoDup_app in Hnd as (_ & _ & Hnd). by apply NoDup_app in Hnd as (? & _). }
    assert (kind (akey ch0) c = Ok (Some (if is_dir ch0 then KDir else KFile))) as Hkind.
    { rewrite (kind_spec c _ Hc). destruct ch0 as [k0 b0|k0 ch1]; cbn [akey is_dir].
      - cbn in Hch0. by rewrite Hch0.
      - apply holds_dir in Hch0 as [-> _]. done. }
    assert (∀ r, (if is_dir ch0 then ensure_dir_from (akey ch0) p c else (Err (CannotAccess "'{name}' is a file, not a directory"), c)) = r →
             ensure_dir_from k (n :: p) c = r) as Hexec.
    { intros r <-. cbn [ensure_dir_from]. rewrite (sbind_asks _ _ _ _ Hchild). cbn [fmap option_fmap option_map].
      rewrite (sbind_asks _ _ _ _ Hkind). by destruct (is_dir ch0). }
    destruct (is_dir ch0) eqn:Hd0; cbn [rbind]; [|by apply Hexec].
    assert (fresh_for (view c) (rng c) (blen p)) as Hf' by (intros i Hi; apply Hf; lia).
    specialize (IH c ch0 Hc Hch0 Hnd0 Hd0 Hfit Hf' ltac:(lia)). unfold ensured in IH.
    destruct (t_ensure ch0 p (rng c)) as [[t1 s1]|e| |]; cbn [rbind]; try done; [|by apply Hexec].
    destruct IH as (c' & m & sub & He & Hch & Hm & Hr & Hsub & Hsd).
    exists c', m, sub. split_and!; [by apply Hexec| |rewrite blen_cons; lia|done| |done].
    + assert (fresh_for (view c) (rng c) m) as Hfm by (intros i Hi; apply Hf; lia).
      pose proof (changes_at c _ [n] ch0 c' t1 m Ht Hnd Hso Hl Hch Hfm) as Hat. cbn in Hat. by rewrite Hg in Hat.
    + cbn. by rewrite bt_get_insert_eq.
  - destruct Hfit as [Hlink Hrest].
    destruct (mkdir_step c k ch n Hc Ht Hnd Hg Hlink) as (c3 & Hexec & H1); [intros i Hi; apply Hf; lia|].
    set (f := nth_key (rng c) 0) in *. set (tn := ADir f []) in *. set (ch1 := bt_insert ch n tn) in *.
    pose proof H1 as [Hc3 Ht3 Hnd3 _ _ _ _ _ _ Hr3 Hb3].
    assert (bt_get ch1 n = Some tn) as Hg1 by by apply bt_get_insert_eq.
    assert (tlookup (ADir k ch1) [n] = Some tn) as Hl1 by (cbn; by rewrite Hg1).
    pose proof (holds_lookup _ _ _ _ Ht3 Hl1) as Htn.
    assert (fresh_for (view c3) (rng c3) (1 + blen p - 1)) as Hf3.
    { apply (changes_fresh c _ c3 _ 1 (1 + blen p) H1 Ht Hf). lia. }
    assert (path_fits tn p) as Hfit.
    { unfold tn. destruct Hrest as [|m0 p0 ? ?]; cbn; [done|]. by split. }
    specialize (IH c3 tn Hc3 Htn ltac:(apply NoDup_singleton) eq_refl Hfit).
    replace (1 + blen p - 1) with (blen p) in Hf3 by lia. specialize (IH Hf3 ltac:(lia)). unfold ensured in IH.
    rewrite (generate_word (rng c)) by apply Hc. fold f tn.
    rewrite Hr3, Z.mul_1_r in IH.
    destruct (t_ensure_fresh f p (state_at (rng c) 2)) as (t1 & s1 & E1). fold tn in E1.
    rewrite E1 in IH |- *. cbn [rbind].
    destruct IH as (c' & m & sub & He & Hch & Hm & Hr & Hsub & Hsd).
    exists c', (1 + m), sub. split_and!; [| |rewrite blen_cons; lia|done| |done].
    + cbn [ensure_dir_from]. rewrite (sbind_asks _ _ _ _ Hchild). cbn [fmap option_fmap option_map].
      rewrite (Hexec _ (λ ch0, ensure_dir_from ch0 p)). exact He.
    + assert (fresh_for (view c3) (rng c3) m) as Hfm by (intros i Hi; apply Hf3; lia).
      pose proof (changes_at c3 _ [n] tn c' t1 m Ht3 Hnd3 (holds_sorted _ _ Hc3 Ht3) Hl1 Hch Hfm) as Hat.
      cbn in Hat. rewrite Hg1 in Hat. unfold ch1 in Hat. rewrite bt_insert_insert in Hat by done.
      eapply changes_trans; [exact H1|exact Hat|exact Ht|]. intros i Hi; apply Hf; lia.
    + cbn. by rewrite bt_get_insert_eq.
Qed.

(** ** [cascade_delete] *)

Definition erases c c' (ks : list AKey) : Prop :=
  ctx_ok c' ∧ (∀ j, view c' j = if decide (j ∈ ks) then None else view c j) ∧
  rng c' = rng c ∧ buffering (wb c') = buffering (wb c).

Lemma height_child k ch e : e ∈ ch → (height e.2 < height (ADir k ch))%nat.
Proof.
  intros He. cbn [height]. apply Nat.lt_succ_r.
  induction He as [e l|e e' l _ IH]; cbn [map foldr]; lia.
Qed.

Lemma cascade_children_loop ch fuel : ∀ c,
  Forall (λ e, ∀ c, ctx_ok c → holds (view c) e.2 → NoDup (tkeys e.2) →
            ∃ c', cascade_delete fuel (akey e.2) c = (Ok tt, c') ∧ erases c c' (tkeys e.2)) ch →
  ctx_ok c → Forall (λ e, holds (view c) e.2) ch → NoDup (chkeys ch) →
  ∃ c', for_each ((ckeys ch).*2) (cascade_delete fuel) c = (Ok tt, c') ∧ erases c c' (chkeys ch).
Proof.
  induction ch as [|e ch IH]; intros c Hf Hc Hh Hnd.
  - exists c. split; [done|]. by split_and!.
  - inversion Hf as [|?? He Hf']; inversion Hh as [|?? Hhe Hh']; subst.
    rewrite chkeys_cons in Hnd |- *. apply NoDup_app in Hnd as (Hnd1 & Hdis & Hnd2).
    destruct (He c Hc Hhe Hnd1) as (c1 & E1 & Hc1 & Hv1 & Hr1 & Hb1).
    destruct (IH c1 Hf' Hc1) as (c2 & E2 & Hc2 & Hv2 & Hr2 & Hb2); [|done|].
    + apply Forall_forall. intros e' He'. rewrite Forall_forall in Hh'.
      eapply holds_frame; [|by apply Hh']. intros j Hj. rewrite Hv1, decide_False; [done|].
      intros Hj1. apply (Hdis _ Hj1). apply chkeys_elem. by exists e'.
    + exists c2. split.
      { cbn [ckeys map fmap list_fmap for_each snd]. by rewrite (sbind_Ok _ _ _ _ _ E1). }
      split_and!; [done| |congruence..]. intros j. rewrite Hv2, Hv1.
      destruct (decide (j ∈ chkeys ch)); [rewrite decide_True by set_solver; done|].
      destruct (decide (j ∈ tkeys e.2)); [by rewrite decide_True by set_solver|by rewrite decide_False by set_solver].
Qed.

Lemma cascade_delete_spec t : ∀ fuel c,
  (height t ≤ fuel)%nat → ctx_ok c → holds (view c) t → NoDup (tkeys t) →
  ∃ c', cascade_delete fuel (akey t) c = (Ok tt, c') ∧ erases c c' (tkeys t).
Proof.
  induction t as [k b|k ch IH] using atree_ind'; intros [|fuel] c Hh Hc Ht Hnd;
    try (cbn in Hh; lia); cbn [cascade_delete akey].
  - cbn in Ht. rewrite (sbind_asks _ _ _ (Some [])) by by rewrite (cascade_children_spec c k Hc), Ht.
    cbn [for_each]. destruct (remove_entry_spec c k Hc) as (c' & E & (Hc' & Hv & Hr & Hb) & _).
    exists c'. split; [done|]. split_and!; try done. intros j. rewrite Hv. unfold upd. cbn.
    destruct (decide (j = k)) as [->|]; [rewrite decide_True by set_solver; done|by rewrite decide_False by set_solver].
  - apply holds_dir in Ht as [Hk Hch].
    rewrite (sbind_asks _ _ _ (Some ((ckeys ch).*2))) by by rewrite (cascade_children_spec c k Hc), Hk.
    rewrite tkeys_dir in Hnd. apply NoDup_cons in Hnd as [Hkn Hnd].
    destruct (cascade_children_loop ch fuel c) as (c1 & E1 & Hc1 & Hv1 & Hr1 & Hb1); [|done..|].
    + apply Forall_forall. intros e He c0 Hc0 Hh0 Hn0. rewrite Forall_forall in IH. apply IH; [done| |done..].
      pose proof (height_child k ch e He). lia.
    + rewrite (sbind_Ok _ _ _ _ _ E1).
      destruct (remove_entry_spec c1 k Hc1) as (c' & E & (Hc' & Hv & Hr & Hb) & _).
      exists c'. split; [done|]. split_and!; [done| |congruence..]. intros j. rewrite Hv. unfold upd. rewrite Hv1.
      destruct (decide (j = k)) as [->|]; [rewrite decide_True; [done|left]|].
      destruct (decide (j ∈ chkeys ch)); [rewrite decide_True; [done|by right]|].
      rewrite decide_False; [done|]. rewrite tkeys_dir. set_solver.
Qed.

(** ** Storing a file *)

Lemma put_file_changes c f b0 b :
  ctx_ok c → view c f = Some (NFile b0) →
  ∃ c', put_entry f (file_entry b) c = (Ok tt, c') ∧ changes c (AFile f b0) c' (AFile f b) 0.
Proof.
  intros Hc Hf.
  assert (dirs (wb c) !! f = None) as Hd.
  { destruct (dirs (wb c) !! f) eqn:E; [|done]. by rewrite (view_buffered _ _ _ E) in Hf. }
  destruct (put_entry_file c f b Hc Hd) as (c' & E & (Hc' & Hv & Hr & Hb) & _).
  exists c'. split; [done|]. split; try done; cbn.
  - by rewrite Hv, upd_eq.
  - apply NoDup_singleton.
  - intros j Hj _. rewrite Hv, upd_ne; set_solver.
  - auto.
  - rewrite Z.mul_0_r, state_at_0; [done|apply Hc].
Qed.

(** Linking a freshly drawn key to a new file. *)
Lemma link_new_file c k ch n blob :
  ctx_ok c → view c k = Some (NDir (ckeys ch)) → linkable (ckeys ch) n ∨ is_Some (bt_get ch n) →
  view c (nth_key (rng c) 0) = None →
  ∃ c', (let! akey := let! fresh := fresh_key in let! _ := link_child k n fresh in sret fresh in
         put_entry akey (file_entry blob)) c = (Ok tt, c') ∧
    ctx_ok c' ∧
    (∀ j, view c' j = upd (upd (view c) k (Some (NDir (bt_insert (ckeys ch) n (nth_key (rng c) 0)))))
                        (nth_key (rng c) 0) (Some (NFile blob)) j) ∧
    rng c' = state_at (rng c) 2 ∧ buffering (wb c') = buffering (wb c).
Proof.
  intros Hc Hk Hl Hf0. pose proof (nth_key_ok (rng c) 0) as Hfok. set (f := nth_key (rng c) 0) in *.
  assert (f ≠ k) as Hfk by (intros E; congruence).
  destruct (fresh_key_spec c Hc) as (c1 & E1 & Hc1 & Hv1 & Hr1 & Hw1 & _). fold f in E1.
  assert (view c1 k = Some (NDir (ckeys ch))) as Hk1 by by rewrite Hv1.
  destruct (link_child_spec c1 k n f (ckeys ch) Hc1 Hk1) as (c2 & E2 & (Hc2 & Hv2 & Hr2 & Hb2) & _).
  { apply dir_ok_insert; [by apply (view_dir_ok c k)|done|]. destruct Hl as [?|[x Hx]]; [by right|left].
    rewrite bt_get_ckeys, Hx. cbn. eauto. }
  assert (view c2 f = None) as Hf2 by (rewrite Hv2, upd_ne, Hv1; done).
  assert (dirs (wb c2) !! f = None) as Hd2.
  { destruct (dirs (wb c2) !! f) eqn:E; [|done]. by rewrite (view_buffered _ _ _ E) in Hf2. }
  destruct (put_entry_file c2 f blob Hc2 Hd2) as (c3 & E3 & (Hc3 & Hv3 & Hr3 & Hb3) & _).
  exists c3. split_and!; [|done| |congruence|rewrite Hb3, Hb2; by rewrite Hw1].
  - rewrite sbind_assoc, (sbind_Ok _ _ _ _ _ E1), sbind_assoc, (sbind_Ok _ _ _ _ _ E2). exact E3.
  - intros j. rewrite Hv3. unfold upd. case_decide; [done|]. rewrite Hv2. unfold upd. case_decide; [done|]. apply Hv1.
Qed.

Lemma store_under_spec fuel c k ch n blob :
  ctx_ok c → holds (view c) (ADir k ch) → NoDup (tkeys (ADir k ch)) →
  linkable (ckeys ch) n ∨ is_Some (bt_get ch n) → fresh_for (view c) (rng c) 1 →
  (height (ADir k ch) ≤ fuel)%nat →
  ∃ c' m, store_under fuel k n blob c = (Ok tt, c') ∧
    changes c (ADir k ch) c' (t_put (ADir k ch) n blob (rng c)).1 m ∧ m ≤ 1 ∧
    rng c' = (t_put (ADir k ch) n blob (rng c)).2.
Proof.
  intros Hc Ht Hnd Hl Hf Hfuel. pose proof (Hf 0 ltac:(lia)) as Hf0.
  pose proof (holds_sorted c _ Hc Ht) as Hso. pose proof (proj1 (tsorted_dir _ _) Hso) as [Hs _].
  pose proof (proj1 (holds_dir _ _ _) Ht) as [Hk Hhch].
  unfold store_under. rewrite (sbind_asks _ _ _ (akey <$> bt_get ch n))
    by by rewrite (child_spec c k n Hc), Hk, bt_get_ckeys.
  cbn [t_put]. rewrite (generate_word (rng c)) by apply Hc.
  set (f := nth_key (rng c) 0) in *.
  pose proof (bt_insert_perm ch n (AFile f blob) Hs) as Hperm.
  destruct (bt_get ch n) as [[f0 b0|f0 ch0]|] eqn:Hg; cbn [fmap option_fmap option_map fst snd].
  - assert (tlookup (ADir k ch) [n] = Some (AFile f0 b0)) as Hlk by (cbn; by rewrite Hg).
    pose proof (holds_lookup _ _ _ _ Ht Hlk) as Hf0v. cbn in Hf0v.
    rewrite sbind_assoc, (sbind_asks _ _ _ (Some KFile)).
    2:{ rewrite (kind_spec c _ Hc). cbn [akey]. by rewrite Hf0v. }
    rewrite bool_decide_true by done.
    destruct (put_file_changes c f0 b0 blob Hc Hf0v) as (c' & E & Hch).
    exists c', 0. split_and!; [exact E| |lia|].
    + pose proof (changes_at c _ [n] _ _ _ 0 Ht Hnd Hso Hlk Hch) as Hat. cbn in Hat. rewrite Hg in Hat.
      apply Hat. intros i Hi; lia.
    + rewrite (g_rng _ _ _ _ _ Hch), Z.mul_0_r, state_at_0; [done|apply Hc].
  - assert (tlookup (ADir k ch) [n] = Some (ADir f0 ch0)) as Hlk by (cbn; by rewrite Hg).
    pose proof (holds_lookup _ _ _ _ Ht Hlk) as Hh0. set (t0 := ADir f0 ch0) in *.
    destruct (tkeys_split _ _ _ Hso Hlk) as (a & b & Ea & _).
    assert (NoDup (tkeys t0) ∧ k ∉ tkeys t0) as [Hnd0 Hk0].
    { destruct Hperm as (m1 & m2 & Ech & _). rewrite Ech, tkeys_dir, chkeys_app, chkeys_cons in Hnd. cbn [snd] in Hnd.
      apply NoDup_cons in Hnd as [Hkn Hnd]. apply NoDup_app in Hnd as (_ & _ & Hnd). apply NoDup_app in Hnd as (? & _).
      split; [done|set_solver]. }
    rewrite sbind_assoc, (sbind_asks _ _ _ (Some KDir)).
    2:{ rewrite (kind_spec c _ Hc). unfold t0 in *. cbn [akey]. apply holds_dir in Hh0 as [-> _]. done. }
    rewrite bool_decide_false by done.
    destruct (cascade_delete_spec t0 fuel c) as (c1 & E1 & Hc1 & Hv1 & Hr1 & Hb1); [|done..|].
    { destruct Hperm as (m1 & m2 & Ech & _). pose proof (height_child k ch (n, t0) ltac:(rewrite Ech; set_solver)). cbn in *. lia. }
    cbn [akey] in *. rewrite sbind_assoc, (sbind_Ok _ _ _ _ _ E1).
    destruct (link_new_file c1 k ch n blob Hc1) as (c2 & E2 & Hc2 & Hv2 & Hr2 & Hb2).
    + by rewrite Hv1, decide_False.
    + right. by rewrite Hg.
    + rewrite Hr1, Hv1. fold f. by case_decide.
    + rewrite Hr1 in *. fold f in Hv2. exists c2, 1. split_and!; [exact E2| |lia|exact Hr2].
      destruct Hperm as (m1 & m2 & Ech & Ei). rewrite Ei.
      assert (f ∉ tkeys (ADir k ch)) as Hfn by (apply (fresh_not_in c _ _ 1); [done..|lia]).
      assert (f ≠ k) by (intros ->; apply Hfn; left).
      rewrite Ech in Ht, Hnd, Hfn |- *.
      assert (∀ j, j ∈ tkeys t0 → j ≠ f) as Hj0.
      { intros j Hj ->. apply Hfn. rewrite tkeys_dir, chkeys_app, chkeys_cons. cbn [snd]. set_solver. }
      apply (changes_children c k m1 [(n, t0)] [(n, AFile f blob)] m2); try done.
      * rewrite Hv2, upd_ne, upd_eq by done. do 2 f_equal. cbn [app]. rewrite <- Ei, ckeys_insert. by rewrite Ech.
      * repeat constructor. cbn. by rewrite Hv2, upd_eq.
      * cbn. apply NoDup_singleton.
      * cbn. intros j ->%list_elem_of_singleton. right. exists 0. split; [lia|done].
      * cbn [chkeys map concat snd]. rewrite app_nil_r. intros j Hjk Hjo Hj. rewrite Hv2, upd_ne, upd_ne, Hv1, decide_False; [done..|set_solver].
      * cbn [chkeys map concat snd]. rewrite app_nil_r. intros j Hj Hjn.
        rewrite Hv2, upd_ne, upd_ne, Hv1, decide_True; [done..| |by apply Hj0]. intros ->. by apply Hk0.
      * congruence.
  - destruct (link_new_file c k ch n blob Hc Hk) as (c2 & E2 & Hc2 & Hv2 & Hr2 & Hb2); [by rewrite Hg|done|].
    fold f in Hv2. exists c2, 1. split_and!; [exact E2| |lia|exact Hr2].
    destruct Hperm as (m1 & m2 & Ech & Ei). rewrite Ei.
    assert (f ∉ tkeys (ADir k ch)) as Hfn by (apply (fresh_not_in c _ _ 1); [done..|lia]).
    assert (f ≠ k) by (intros ->; apply Hfn; left).
    rewrite Ech in Ht, Hnd |- *.
    apply (changes_children c k m1 [] [(n, AFile f blob)] m2); try done.
    + rewrite Hv2, upd_ne, upd_eq by done. do 2 f_equal. cbn [app]. rewrite <- Ei, ckeys_insert. by rewrite Ech.
    + repeat constructor. cbn. by rewrite Hv2, upd_eq.
    + cbn. apply NoDup_singleton.
    + cbn. intros j ->%list_elem_of_singleton. right. exists 0. split; [lia|done].
    + cbn. intros j Hjk _ Hj. rewrite Hv2, upd_ne, upd_ne; [done..|set_solver].
    + cbn. set_solver.
Qed.
End refine.
