(* ===== verification/FsSpec.v ===== *)
(** * Filesystem operations on whole paths

    The operations of [txn/context/table.rs] as a transaction calls them, against
    the abstract tree: each theorem runs the operation on a context for a tree and
    gives the context's tree afterwards. *)
From S2P Require Import Prelude BTree Codec Ext Scalar Path Value Archived Key Dir Engine WriteBuffer Ctx Fs Tree Refine.

Section fsspec.
Context `{Ext} {T : Type} `{KV T Z bytes} `{!KVLaws T Z bytes}.
Implicit Type c : Ctx T.

(** The root directory may not have been written yet. *)
Definition fs c t : Prop :=
  ctx_ok c ∧ NoDup (tkeys t) ∧ akey t = ROOT ∧ is_dir t = true ∧
  (holds (view c) t ∨ view c ROOT = None ∧ t = ADir ROOT []).

Definition fs_mat c t : Prop :=
  ctx_ok c ∧ NoDup (tkeys t) ∧ akey t = ROOT ∧ is_dir t = true ∧ holds (view c) t.

Lemma fs_mat_fs c t : fs_mat c t → fs c t.
Proof. intros (? & ? & ? & ? & ?). split_and!; auto. Qed.

Lemma changes_fs c t c' t' n : fs_mat c t → changes c t c' t' n → fs_mat c' t'.
Proof. intros (_ & _ & Hk & Hd & _) []. split_and!; congruence || done. Qed.

(** One operation on a whole tree: the new context stands for the new tree, no
    node is left behind that the tree does not have, and exactly the first [n]
    keys of the generator were drawn. *)
Record steps c t c' t' n : Prop := {
  st_fs : fs c' t';
  st_clean : (∀ j, j ∉ tkeys t → view c j = None) → ∀ j, j ∉ tkeys t' → view c' j = None;
  st_new : ∀ j, j ∈ tkeys t' → j ∈ tkeys t ∨ ∃ i, 0 ≤ i < n ∧ j = nth_key (rng c) i;
  st_n : 0 ≤ n;
  st_rng : rng c' = state_at (rng c) (2 * n);
  st_buf : buffering (wb c') = buffering (wb c);
}.

Lemma changes_steps c t c' t' n : fs_mat c t → changes c t c' t' n → steps c t c' t' n.
Proof.
  intros Hm Hc. pose proof (changes_fs _ _ _ _ _ Hm Hc) as Hm'. destruct Hc. split; try done.
  - by apply fs_mat_fs.
  - intros Hx j Hj. destruct (decide (j ∈ tkeys t)); [by apply g_gone|]. rewrite g_frame by done. auto.
Qed.

Lemma steps_refl c t : fs c t → steps c t c t 0.
Proof.
  intros Hf. split; try done; [by auto|]. rewrite Z.mul_0_r, state_at_0; [done|]. by destruct Hf as ((_ & _ & _ & _ & ?) & _).
Qed.

(** Writing the root directory is no step of the tree. *)
Lemma steps_root c c1 t c' t' n :
  akey t = ROOT → rng c1 = rng c → buffering (wb c1) = buffering (wb c) →
  (∀ j, j ≠ ROOT → view c1 j = view c j) → steps c1 t c' t' n → steps c t c' t' n.
Proof.
  intros Hk Hr Hb Hv []. split; try congruence; try done.
  - intros Hx. apply st_clean0. intros j Hj. rewrite Hv; [auto|]. intros ->. apply Hj. rewrite <- Hk. apply akey_in.
  - intros j Hj. rewrite <- Hr. auto.
Qed.

(** [ensure_root] writes an empty root once; nothing else changes. *)
Lemma ensure_root_spec c t : fs c t →
  ∃ c1, ensure_root c = (Ok tt, c1) ∧ ensure_root c1 = (Ok tt, c1) ∧ fs_mat c1 t ∧
    rng c1 = rng c ∧ buffering (wb c1) = buffering (wb c) ∧
    (∀ j, j ≠ ROOT → view c1 j = view c j).
Proof.
  intros (Hc & Hnd & Hk & Hd & Hh).
  assert (∀ c1, ctx_ok c1 → is_Some (view c1 ROOT) → ensure_root c1 = (Ok tt, c1)) as Hpresent.
  { intros c1 Hc1 Hs. unfold ensure_root. rewrite (sbind_asks _ _ _ _ (has_entry_spec c1 ROOT Hc1)).
    by rewrite bool_decide_true. }
  destruct (view c ROOT) as [x|] eqn:Er.
  - destruct Hh as [Hh|[? _]]; [|done]. assert (ensure_root c = (Ok tt, c)) as E by (apply Hpresent; [done|rewrite Er; eauto]).
    exists c. split_and!; done.
  - assert (t = ADir ROOT []) as ->.
    { destruct Hh as [Hh|[_ ?]]; [|done]. apply holds_root in Hh as [x Hx]. rewrite Hk in Hx. congruence. }
    destruct (put_dir_spec c ROOT [] Hc dir_ok_nil) as (c1 & E & (Hc1 & Hv & Hr & Hb) & _); [by rewrite Er|].
    exists c1. split_and!; try done.
    + unfold ensure_root. rewrite (sbind_asks _ _ _ _ (has_entry_spec c ROOT Hc)), Er. exact E.
    + apply Hpresent; [done|]. rewrite Hv, upd_eq. eauto.
    + intros j Hj. by rewrite Hv, upd_ne.
Qed.

Lemma fresh_root c c1 n :
  rng c1 = rng c → (∀ j, j ≠ ROOT → view c1 j = view c j) →
  fresh_for (view c) (rng c) n → fresh_for (view c1) (rng c1) n.
Proof. intros -> Hv Hf i Hi. rewrite Hv; [by apply Hf|apply nth_key_not_root]. Qed.

(** ** Heights and sizes along a path *)

Lemma height_le k ch h : (height (ADir k ch) ≤ S h)%nat ↔ Forall (λ e, (height e.2 ≤ h)%nat) ch.
Proof.
  cbn [height]. rewrite <- Nat.succ_le_mono. induction ch as [|e ch IH]; cbn [map foldr].
  - split; [constructor|lia].
  - rewrite Forall_cons, <- IH. lia.
Qed.

Lemma height_dir_pos t : (1 ≤ height t)%nat.
Proof. destruct t; cbn; lia. Qed.

Lemma height_insert k ch n (x : atree) h :
  bt_sorted ch → (height (ADir k ch) ≤ S h)%nat → (height x ≤ h)%nat →
  (height (ADir k (bt_insert ch n x)) ≤ S h)%nat.
Proof.
  intros Hs Hh Hc. apply height_le. apply height_le in Hh. pose proof (bt_insert_perm ch n x Hs) as Hi.
  destruct (bt_get ch n); destruct Hi as (m1 & m2 & -> & ->).
  - apply Forall_app in Hh as [H1 H2]. inversion H2; subst. apply Forall_app. split; [done|]. by constructor.
  - apply Forall_app in Hh as [H1 H2]. apply Forall_app. split; [done|]. by constructor.
Qed.

Lemma height_get k ch n (x : atree) h : (height (ADir k ch) ≤ S h)%nat → bt_get ch n = Some x → (height x ≤ h)%nat.
Proof.
  intros Hh (j & Hj)%bt_get_elem. apply height_le in Hh. rewrite Forall_forall in Hh. by apply (Hh (j, x)).
Qed.

Lemma height_ensure p : ∀ t s t' s',
  tsorted t → t_ensure t p s = Ok (t', s') → (height t' ≤ height t + length p)%nat.
Proof.
  induction p as [|n p IH]; intros t s t' s' Hso; cbn [t_ensure]; [intros [= <- <-]; cbn; lia|].
  destruct t as [|k ch]; [done|]. pose proof (proj1 (tsorted_dir _ _) Hso) as [Hs Hch].
  pose proof (height_dir_pos (ADir k ch)).
  set (h := (height (ADir k ch) + length p)%nat).
  assert (∀ c' : atree, (height c' ≤ h)%nat → (height (ADir k (bt_insert ch n c')) ≤ height (ADir k ch) + length (n :: p))%nat) as Hins.
  { intros c' Hc'. rewrite length_cons. replace (_ + S _)%nat with (S h) by (unfold h; lia).
    apply height_insert; [done|unfold h; lia|done]. }
  destruct (bt_get ch n) as [c|] eqn:Hg.
  - destruct (is_dir c); [|done]. intros ([c' s1] & E & [= <- <-])%rbind_Ok.
    apply Hins. apply IH in E.
    + apply (height_get k ch n c (height (ADir k ch) - 1)) in Hg; [unfold h; lia|lia].
    + apply bt_get_elem in Hg as [j Hj]. rewrite Forall_forall in Hch. by apply (Hch (j, c)).
  - destruct (generate s) as [f s1]. intros ([c' s2] & E & [= <- <-])%rbind_Ok.
    apply Hins. apply IH in E; [|repeat constructor]. unfold h. cbn in *. lia.
Qed.

Lemma height_lookup p : ∀ t s, tlookup t p = Some s → (height s ≤ height t)%nat.
Proof.
  induction p as [|n p IH]; intros t s; cbn [tlookup]; [by intros [= ->]|].
  destruct t as [|k ch]; [done|]. destruct (bt_get ch n) as [c|] eqn:Hg; [|done].
  intros Hl%IH. pose proof (height_dir_pos (ADir k ch)).
  apply (height_get k ch n c (height (ADir k ch) - 1)) in Hg; lia.
Qed.

Lemma path_fits_prefix p n : ∀ t, path_fits t (p ++ [n]) → path_fits t p.
Proof.
  induction p as [|m p IH]; intros t; cbn [app path_fits]; [done|].
  destruct t as [|k ch]; [done|]. destruct (bt_get ch m); [apply IH|].
  intros [? Hf%Forall_app]. naive_solver.
Qed.

(** Room for the last name, once its parent directory is there. *)
Lemma path_fits_last p n : ∀ t s t' s' k ch,
  tsorted t → path_fits t (p ++ [n]) → t_ensure t p s = Ok (t', s') →
  tlookup t' p = Some (ADir k ch) → linkable (ckeys ch) n ∨ is_Some (bt_get ch n).
Proof.
  induction p as [|m p IH]; intros t s t' s' k ch Hso Hf E Hl; cbn [app path_fits t_ensure tlookup] in *.
  - injection E as -> ->. injection Hl as ->. destruct (bt_get ch n); [right; eauto|left; naive_solver].
  - destruct t as [|k0 ch0]; [done|]. pose proof (proj1 (tsorted_dir _ _) Hso) as [Hs Hch].
    destruct (bt_get ch0 m) as [c|] eqn:Hg.
    + destruct (is_dir c); [|done]. apply rbind_Ok in E as ([c' s1] & E & [= <- <-]).
      cbn [tlookup] in Hl. rewrite bt_get_insert_eq in Hl by done.
      apply (IH c s c' s1 k ch); try done.
      apply bt_get_elem in Hg as [j Hj]. rewrite Forall_forall in Hch. by apply (Hch (j, c)).
    + destruct (generate s) as [f s1]. apply rbind_Ok in E as ([c' s2] & E & [= <- <-]).
      rewrite bt_get_insert_eq in Hl by done.
      apply (IH (ADir f []) s1 c' s2 k ch); try done; [repeat constructor|].
      destruct Hf as [_ Hf]. destruct p as [|m' p]; cbn [app path_fits] in *; cbn; inversion Hf; subst; by split.
Qed.

(** ** [store] *)

Lemma ensure_dir_spec c t p :
  fs_mat c t → path_fits t p → fresh_for (view c) (rng c) (blen p) → blen p ≤ 2 ^ 62 →
  ensure_root c = (Ok tt, c) →
  match t_ensure t p (rng c) with
  | Ok (t', s') =>
      ∃ c' n sub, ensure_dir p c = (Ok (akey sub), c') ∧ changes c t c' t' n ∧ n ≤ blen p ∧
        rng c' = s' ∧ tlookup t' p = Some sub ∧ is_dir sub = true
  | Err e => ensure_dir p c = (Err e, c)
  | _ => False
  end.
Proof.
  intros (Hc & Hnd & Hk & Hd & Hh) Hfit Hf Hlen Hroot.
  pose proof (ensure_from_spec p c t Hc Hh Hnd Hd Hfit Hf Hlen) as He. unfold ensured in He.
  unfold ensure_dir. rewrite Hk in He.
  destruct (t_ensure t p (rng c)) as [[t' s']|e| |]; try done;
    rewrite (sbind_Ok _ _ _ _ _ Hroot); exact He.
Qed.

Lemma split_last_ok p n c : split_last_or_panic (T := T) (p ++ [n]) c = (Ok (p, n), c).
Proof. unfold split_last_or_panic, asks. by rewrite APath_split_last_snoc. Qed.

(** The subtree a directory becomes, put back in place. *)
Lemma store_lemma fuel c t p n blob :
  fs c t → path_fits t (p ++ [n]) → fresh_for (view c) (rng c) (blen p + 1) → blen p + 1 ≤ 2 ^ 62 →
  (height t + length p ≤ fuel)%nat →
  match t_store t (p ++ [n]) blob (rng c) with
  | Ok (t', s') =>
      ∃ c' m, store_blob_into fuel (p ++ [n]) blob c = (Ok tt, c') ∧ steps c t c' t' m ∧ m ≤ blen p + 1 ∧
            rng c' = s'
  | Err e => ∃ c', store_blob_into fuel (p ++ [n]) blob c = (Err e, c') ∧ steps c t c' t 0
  | _ => False
  end.
Proof.
  intros Hfs Hfit Hf Hlen Hfuel.
  destruct (ensure_root_spec c t Hfs) as (c1 & E1 & E1' & Hm & Hr1 & Hb1 & Hv1).
  pose proof Hm as (Hc1 & Hnd1 & Hk1 & Hd1 & Hh1).
  pose proof (fresh_root c c1 _ Hr1 Hv1 Hf) as Hf1. pose proof (blen_nonneg p) as Hp0.
  assert (ensure_dir p c = ensure_dir p c1) as Eens.
  { unfold ensure_dir. by rewrite (sbind_Ok _ _ _ _ _ E1), (sbind_Ok _ _ _ _ _ E1'). }
  assert (store_blob_into fuel (p ++ [n]) blob c =
          (let! parent := ensure_dir p in store_under fuel parent n blob) c1) as ->.
  { unfold store_blob_into. rewrite (sbind_Ok _ _ _ _ _ (split_last_ok p n c)). unfold sbind at 1. by rewrite Eens. }
  pose proof (ensure_dir_spec c1 t p Hm (path_fits_prefix _ _ _ Hfit)) as He.
  specialize (He ltac:(intros i Hi; apply Hf1; lia) ltac:(lia) E1').
  unfold t_store. rewrite APath_split_last_snoc. rewrite <- Hr1.
  pose proof (holds_sorted c1 t Hc1 Hh1) as Hso1.
  destruct (t_ensure t p (rng c1)) as [[t1 s1]|e| |] eqn:Et; cbn [rbind]; try done.
  2:{ exists c1. split; [by apply sbind_Err|]. by apply (steps_root c c1), steps_refl, fs_mat_fs. }
  destruct He as (c2 & m & sub & E2 & Hch & Hm2 & Hr2 & Hl & Hsd). rewrite Hl.
  destruct sub as [|k ch]; [done|]. clear Hsd.
  rewrite (sbind_Ok _ _ _ _ _ E2). cbn [akey].
  pose proof Hch as [Hc2 Hh2 Hnd2 _ _ _ _ _ _ _ _].
  pose proof (holds_sorted c2 t1 Hc2 Hh2) as Hso2.
  assert (fresh_for (view c2) (rng c2) 1) as Hf2.
  { pose proof (g_n _ _ _ _ _ Hch).
    pose proof (changes_fresh c1 t c2 t1 m (blen p + 1) Hch Hh1 Hf1 ltac:(lia)) as Hx.
    intros i Hi. apply Hx. lia. }
  destruct (tkeys_split _ _ _ Hso2 Hl) as (a & b & Ea & _).
  destruct (store_under_spec fuel c2 k ch n blob Hc2) as (c3 & m3 & E3 & Hch3 & Hm3 & Hr3).
  - by apply (holds_lookup _ _ _ _ Hh2 Hl).
  - rewrite Ea in Hnd2. apply NoDup_app in Hnd2 as (_ & _ & Hx). by apply NoDup_app in Hx as (? & _).
  - by apply (path_fits_last p n t (rng c1) t1 s1 k ch).
  - done.
  - apply height_lookup in Hl. apply height_ensure in Et; [lia|done].
  - rewrite Hr2 in Hr3, Hch3. destruct (t_put (ADir k ch) n blob s1) as [dir s3]. cbn [fst snd] in *.
    exists c3, (m + m3). split_and!; [exact E3| |lia|done].
    apply (steps_root c c1); [done..|]. apply changes_steps; [done|].
    eapply changes_trans; [exact Hch| |exact Hh1|].
    + eapply (changes_at c2 t1 p _ c3 dir m3 Hh2 Hnd2 Hso2 Hl Hch3). intros i Hi. apply Hf2. lia.
    + intros i Hi. apply Hf1. lia.
Qed.

(** ** [rm] *)

Lemma fs_resolve c t p : fs_mat c t → resolve p c = Ok (akey <$> tlookup t p).
Proof.
  intros (Hc & _ & Hk & _ & Hh). rewrite (resolve_spec c p Hc), <- Hk. by rewrite (holds_vresolve _ _ _ Hh).
Qed.

Lemma fs_child c t p n s :
  fs_mat c t → tlookup t p = Some s → child (akey s) n c = Ok (akey <$> tlookup t (p ++ [n])).
Proof.
  intros (Hc & _ & _ & _ & Hh) Hl. rewrite (child_spec c _ n Hc), tlookup_app, Hl.
  pose proof (holds_lookup _ _ _ _ Hh Hl) as Hs. destruct s as [k b|k ch]; cbn [akey].
  - cbn in Hs. by rewrite Hs.
  - apply holds_dir in Hs as [-> _]. rewrite bt_get_ckeys. cbn. by destruct (bt_get ch n).
Qed.

Lemma tlookup_snoc t p n x :
  tlookup t (p ++ [n]) = Some x → ∃ k ch, tlookup t p = Some (ADir k ch) ∧ bt_get ch n = Some x.
Proof.
  rewrite tlookup_app. destruct (tlookup t p) as [[k b|k ch]|]; cbn; [done| |done].
  destruct (bt_get ch n) as [y|] eqn:E; [|done]. intros [= ->]. eauto.
Qed.

Lemma sub_nodup t p s : tsorted t → NoDup (tkeys t) → tlookup t p = Some s → NoDup (tkeys s).
Proof.
  intros Hso Hnd Hl. destruct (tkeys_split _ _ _ Hso Hl) as (a & b & Ea & _).
  rewrite Ea in Hnd. apply NoDup_app in Hnd as (_ & _ & Hx). by apply NoDup_app in Hx as (? & _).
Qed.

Lemma child_keys k ch n x j : NoDup (tkeys (ADir k ch)) → bt_get ch n = Some x → j ∈ tkeys x → j ≠ k.
Proof.
  rewrite tkeys_dir. intros [Hk _]%NoDup_cons Hg%bt_get_Some_in Hj ->. apply Hk, chkeys_elem. by exists (n, x).
Qed.

Lemma rm_lemma fuel c t p n :
  fs_mat c t → (height t ≤ fuel)%nat →
  ∃ c', rm_into fuel (p ++ [n]) c = (Ok (t_rm t (p ++ [n])).2, c') ∧
        steps c t c' (t_rm t (p ++ [n])).1 0.
Proof.
  intros Hm Hfuel. pose proof Hm as (Hc & Hnd & Hk & Hd & Hh).
  pose proof (holds_sorted c t Hc Hh) as Hso.
  unfold rm_into. rewrite (sbind_Ok _ _ _ _ _ (split_last_ok p n c)).
  rewrite (sbind_asks _ _ _ _ (fs_resolve c t p Hm)). unfold t_rm.
  destruct (tlookup t p) as [s|] eqn:Hl; cbn [fmap option_fmap option_map]; last first.
  { rewrite tlookup_app, Hl. exists c. split; [done|]. by apply steps_refl, fs_mat_fs. }
  rewrite (sbind_asks _ _ _ _ (fs_child c t p n s Hm Hl)).
  destruct (tlookup t (p ++ [n])) as [x|] eqn:Hx; cbn [fmap option_fmap option_map]; [|exists c; split; [done|by apply steps_refl, fs_mat_fs]].
  pose proof Hx as Hx'. apply tlookup_snoc in Hx' as (k & ch & Hl' & Hg). simplify_eq. cbn [akey].
  pose proof (sub_nodup _ _ _ Hso Hnd Hl) as Hnds. pose proof (holds_lookup _ _ _ _ Hh Hl) as Hhs.
  pose proof (proj1 (holds_dir _ _ _) Hhs) as [Hkv _].
  pose proof (tsorted_lookup _ _ _ Hso Hl) as [Hs _]%tsorted_dir.
  destruct (cascade_delete_spec x fuel c) as (c1 & E1 & Hc1 & Hv1 & Hr1 & Hb1).
  { apply height_lookup in Hx. lia. }
  { done. }
  { by apply (holds_lookup (view c) t (p ++ [n])). }
  { by apply (sub_nodup t (p ++ [n])). }
  rewrite (sbind_Ok _ _ _ _ _ E1).
  assert (k ∉ tkeys x) as Hkx by (intros Hin; by apply (child_keys k ch n x k Hnds Hg)).
  destruct (unlink_child_spec c1 k n (ckeys ch) Hc1) as (c2 & E2 & (Hc2 & Hv2 & Hr2 & Hb2) & _).
  { by rewrite Hv1, decide_False. }
  { apply dir_ok_remove, (view_dir_ok c k _ Hc Hkv). }
  rewrite (sbind_Ok _ _ _ _ _ E2). exists c2. split; [done|]. cbn [fst].
  rewrite (t_remove_replace p n t k ch Hl). apply changes_steps; [exact Hm|].
  apply (changes_at c t p (ADir k ch) c2 _ 0); try done; [|intros i Hi; lia].
  destruct (bt_split ch n x Hs Hg) as (m1 & m2 & Ech & _ & Er). rewrite Er.
  rewrite Ech in Hhs, Hnds |- *.
  apply (changes_children c k m1 [(n, x)] [] m2); try done.
  - rewrite Hv2, upd_eq. cbn [app]. by rewrite <- Er, ckeys_remove, Ech.
  - apply NoDup_nil_2.
  - intros j Hj. cbn in Hj. set_solver.
  - cbn [chkeys map concat snd]. rewrite app_nil_r. intros j Hjk Hjx _. by rewrite Hv2, upd_ne, Hv1, decide_False.
  - cbn [chkeys map concat snd]. rewrite app_nil_r. intros j Hjx _.
    rewrite Hv2, upd_ne, Hv1, decide_True; [done..|]. by intros ->.
  - intros i Hi; lia.
  - rewrite Z.mul_0_r, state_at_0; [congruence|apply Hc].
  - congruence.
Qed.
End fsspec.
