(* ===== verification/Move.v ===== *)
(** * Moving a subtree

    The pure part of [mv_into]: what the nodes look like once the destination's
    old subtree is deleted, the source linked at the destination and unlinked from
    its old parent, as a tree. *)
From S2P Require Import Prelude BTree Codec Key Dir Path WriteBuffer Ctx Tree Refine.

Lemma bt_insert_remove_comm {V} (m : list (bytes * V)) a b x :
  bt_sorted m → a ≠ b → bt_remove (bt_insert m a x) b = bt_insert (bt_remove m b) a x.
Proof.
  intros Hs Hab. apply bt_ext; [by apply bt_sorted_remove, bt_sorted_insert|by apply bt_sorted_insert, bt_sorted_remove|].
  intros j. rewrite bt_get_remove, !bt_get_insert, bt_get_remove by auto using bt_sorted_insert, bt_sorted_remove.
  repeat case_decide; congruence.
Qed.

Lemma tsorted_remove_child k ch n : tsorted (ADir k ch) → tsorted (ADir k (bt_remove ch n)).
Proof.
  rewrite !tsorted_dir. intros [Hs Hc]. split; [by apply bt_sorted_remove|].
  destruct (bt_get ch n) as [x|] eqn:E; [|by rewrite bt_remove_absent].
  destruct (bt_split ch n x Hs E) as (m1 & m2 & -> & _ & ->).
  apply Forall_app in Hc as [H1 H2]. inversion H2; subst. by apply Forall_app.
Qed.

Lemma nodup_swap {A} (X P B G C D : list A) :
  NoDup (X ++ P ++ (B ++ G ++ C) ++ D) → NoDup (P ++ (B ++ X ++ C) ++ D).
Proof.
  intros Hn. assert (P ++ (B ++ X ++ C) ++ D ≡ₚ X ++ P ++ (B ++ C) ++ D) as ->.
  - symmetry. rewrite (app_assoc X P), (Permutation_app_comm X P), <- app_assoc. apply Permutation_app_head.
    rewrite !app_assoc. apply Permutation_app_tail. rewrite (Permutation_app_comm X B). by rewrite <- !app_assoc.
  - eapply sublist_NoDup; [exact Hn|]. repeat (apply sublist_app; [done|]). apply sublist_app; [|done].
    apply sublist_app; [done|]. by apply sublist_inserts_l.
Qed.

Section mv.
Context (v2 v5 : AKey → option node) (t1 : atree) (sp dp : APath) (sn dn : bytes).
Context (k ks : AKey) (ch chs : list (bytes * atree)) (x : atree).
Let src := sp ++ [sn].
Let dst := dp ++ [dn].
Hypothesis Hh : holds v2 t1.
Hypothesis Hso : tsorted t1.
Hypothesis Hnd : NoDup (tkeys t1).
Hypothesis Hsp : tlookup t1 sp = Some (ADir ks chs).
Hypothesis Hx : bt_get chs sn = Some x.
Hypothesis Hdp : tlookup t1 dp = Some (ADir k ch).
Hypothesis Hsd : ¬ src `prefix_of` dst.
Hypothesis Hds : ¬ dst `prefix_of` src.

Definition mv_gone : list AKey := match bt_get ch dn with Some e => tkeys e | None => [] end.
Definition mv_mid : atree := t_remove t1 src.

Lemma mv_mid_eq : mv_mid = treplace t1 sp (ADir ks (bt_remove chs sn)).
Proof using Hsp. apply t_remove_replace, Hsp. Qed.

Lemma mv_src_sorted : bt_sorted chs.
Proof using Hso Hsp. by pose proof (tsorted_lookup _ _ _ Hso Hsp) as [? _]%tsorted_dir. Qed.

Lemma mv_mid_sorted : tsorted mv_mid.
Proof using Hso Hsp.
  rewrite mv_mid_eq. eapply treplace_sorted; [done|exact Hsp|].
  by apply tsorted_remove_child, (tsorted_lookup _ _ _ Hso Hsp).
Qed.

Lemma mv_keys_perm : tkeys t1 ≡ₚ tkeys x ++ tkeys mv_mid.
Proof using Hso Hsp Hx.
  destruct (tkeys_split _ _ _ Hso Hsp) as (a & b & Ea & Eb). rewrite mv_mid_eq, Eb.
  destruct (bt_split chs sn x mv_src_sorted Hx) as (m1 & m2 & Ec & _ & Er). rewrite Er.
  rewrite Ec in Ea. rewrite Ea. rewrite !tkeys_dir, !chkeys_app, ?chkeys_cons in *. cbn [snd] in *. symmetry.
  rewrite (app_assoc (tkeys x) a), (Permutation_app_comm (tkeys x) a), <- app_assoc.
  apply Permutation_app_head. cbn [app]. rewrite <- Permutation_middle. constructor.
  rewrite <- !app_assoc, (app_assoc (tkeys x)), (Permutation_app_comm (tkeys x)), <- app_assoc. done.
Qed.

Lemma mv_keys : NoDup (tkeys x ++ tkeys mv_mid).
Proof using Hso Hnd Hsp Hx. by rewrite <- mv_keys_perm. Qed.

(** The destination's parent, before and after the source left. *)
Lemma mv_mid_parent :
  ∃ ch', tlookup mv_mid dp = Some (ADir k ch') ∧ bt_get ch' dn = bt_get ch dn ∧
    ((k = ks ∧ ch = chs ∧ sn ≠ dn ∧ ckeys ch' = bt_remove (ckeys ch) sn) ∨ (k ≠ ks ∧ ckeys ch' = ckeys ch)).
Proof using All.
  assert (k = ks → dp = sp) as Hkey.
  { intros E. by destruct (path_unique t1 dp sp _ _ Hnd Hdp Hsp E). }
  destruct (decide (dp = sp)) as [Edp|Hne].
  - pose proof Hdp as E. rewrite Edp, Hsp in E. injection E as E1 E2.
    assert (sn ≠ dn) as Hn by (intros En; apply Hsd; unfold src, dst; by rewrite En, Edp).
    exists (bt_remove chs sn). rewrite <- E2. split_and!.
    + rewrite mv_mid_eq, Edp, <- E1. by apply (tlookup_replace _ _ _ _ Hso Hsp).
    + rewrite bt_get_remove by apply mv_src_sorted. by rewrite decide_False.
    + left. split_and!; try done. apply ckeys_remove.
  - assert (k ≠ ks) as Hk by (intros E; apply Hne; auto).
    destruct (decide (dp `prefix_of` src)) as [[r Er]|Hnp].
    + unfold mv_mid. rewrite Er.
      destruct r as [|m r].
      { rewrite app_nil_r in Er. exfalso. apply Hsd. rewrite Er. unfold dst. by apply prefix_app_r. }
      rewrite (t_remove_ancestor dp t1 (m :: r) _ Hso) by done.
      assert (r ≠ []) as Hr.
      { intros ->. unfold src in Er. apply app_inj_tail in Er as [? _]. congruence. }
      pose proof (tsorted_lookup _ _ _ Hso Hdp) as [Hs _]%tsorted_dir.
      destruct (t_remove_ckeys k ch m r Hs Hr) as (ch' & -> & Hck & Hget).
      exists ch'. split_and!; [done| |by right]. apply Hget. intros ->. apply Hds. unfold dst. rewrite Er.
      exists r. by rewrite <- app_assoc.
    + exists ch. split_and!; [|done|by right]. unfold mv_mid. rewrite <- Hdp. apply t_remove_lookup; try done.
      * unfold src. by destruct sp.
      * intros Hp. apply Hsd. unfold dst. by apply prefix_app_r.
Qed.

Definition mv_view (j : AKey) : option node :=
  if decide (j = ks) then Some (NDir (bt_remove (ckeys chs) sn)) else v2 j.

Lemma mv_mid_holds : holds mv_view mv_mid ∧ holds mv_view x.
Proof using All.
  pose proof (holds_lookup _ _ _ _ Hh Hsp) as Hhs. pose proof (proj1 (holds_dir _ _ _) Hhs) as [Hk Hc].
  destruct (tkeys_split _ _ _ Hso Hsp) as (a & b & Ea & _).
  assert (ks ∉ chkeys chs) as Hks.
  { rewrite Ea in Hnd. apply NoDup_app in Hnd as (_ & _ & Hn). apply NoDup_app in Hn as (Hn & _).
    rewrite tkeys_dir in Hn. by apply NoDup_cons in Hn as [? _]. }
  assert (∀ e, e ∈ chs → holds mv_view e.2) as Hall.
  { intros e He. rewrite Forall_forall in Hc. eapply holds_frame; [|by apply Hc]. intros j Hj.
    unfold mv_view. rewrite decide_False; [done|]. intros ->. apply Hks, chkeys_elem. by exists e. }
  split.
  - rewrite mv_mid_eq. eapply (holds_replace v2); try done.
    + apply holds_dir. split.
      * unfold mv_view. rewrite decide_True by done. by rewrite ckeys_remove.
      * apply Forall_forall. intros e He. apply Hall.
        destruct (bt_split chs sn x mv_src_sorted Hx) as (m1 & m2 & -> & _ & Er). rewrite Er in He. set_solver.
    + intros j _ Hj. unfold mv_view. rewrite decide_False; [done|]. intros ->. apply Hj. left.
  - apply (Hall (sn, x)). by apply bt_get_Some_in.
Qed.

Hypothesis Hv : ∀ j, j ≠ k → j ≠ ks → v5 j = if decide (j ∈ mv_gone) then None else v2 j.
Hypothesis Hvk : k ≠ ks → v5 k = Some (NDir (bt_insert (ckeys ch) dn (akey x))).
Hypothesis Hvs : v5 ks = Some (NDir (bt_remove
  (if decide (ks = k) then bt_insert (ckeys ch) dn (akey x) else ckeys chs) sn)).

Lemma mv_holds :
  ∃ ch', tlookup mv_mid dp = Some (ADir k ch') ∧
    let t' := treplace mv_mid dp (ADir k (bt_insert ch' dn x)) in
    holds v5 t' ∧ NoDup (tkeys t') ∧ ∀ j, j ∈ tkeys t1 ↔ j ∈ mv_gone ∨ j ∈ tkeys t'.
Proof using All.
  destruct mv_mid_parent as (ch' & Hl & Hg & Hcase). exists ch'. split; [done|]. cbn zeta.
  pose proof mv_keys as Hkeys. destruct mv_mid_holds as [Hmid Hhx].
  pose proof mv_mid_sorted as Hms.
  destruct (tkeys_split _ _ _ Hms Hl) as (a & b & Ea & Eb).
  pose proof (tsorted_lookup _ _ _ Hms Hl) as [Hs' _]%tsorted_dir.
  pose proof (bt_insert_perm ch' dn x Hs') as Hperm.
  assert (∃ m1 old m2, ch' = m1 ++ old ++ m2 ∧ bt_insert ch' dn x = m1 ++ [(dn, x)] ++ m2 ∧ chkeys old = mv_gone)
    as (m1 & old & m2 & Ech & Ei & Eold).
  { unfold mv_gone. rewrite <- Hg. destruct (bt_get ch' dn) as [e|]; destruct Hperm as (m1 & m2 & ? & ?).
    - exists m1, [(dn, e)], m2. split_and!; [done..|]. cbn. by rewrite app_nil_r.
    - by exists m1, [], m2. }
  assert (v5 k = Some (NDir (ckeys (bt_insert ch' dn x)))) as Hv5k.
  { rewrite ckeys_insert. destruct Hcase as [(-> & -> & Hn & ->)|[Hne ->]]; [|by apply Hvk].
    rewrite Hvs, decide_True by done. rewrite bt_insert_remove_comm; [done|apply ckeys_sorted, mv_src_sorted|done]. }
  rewrite Ei in *. rewrite Ech, tkeys_dir, !chkeys_app, Eold in Ea.
  specialize (Eb (ADir k (m1 ++ [(dn, x)] ++ m2))). rewrite tkeys_dir, !chkeys_app, chkeys_cons in Eb.
  cbn [snd chkeys map concat] in Eb. rewrite app_nil_r in Eb.
  rewrite Ea in Hkeys.
  assert (∀ j, j ≠ k → j ∉ mv_gone → v5 j = mv_view j) as Hsame.
  { intros j Hjk Hjg. unfold mv_view. destruct (decide (j = ks)) as [Hjs|Hjs].
    - rewrite Hjs, Hvs. rewrite decide_False; [done|congruence].
    - by rewrite Hv, decide_False. }
  assert (∀ j, j ∈ tkeys x ∨ j ∈ chkeys m1 ∨ j ∈ chkeys m2 → j ≠ k ∧ j ∉ mv_gone) as Hdis.
  { clear -Hkeys. intros j Hj. apply NoDup_app in Hkeys as (_ & Hd & Hn). apply NoDup_app in Hn as (_ & _ & Hn).
    apply NoDup_app in Hn as (Hn & _). apply NoDup_cons in Hn as [Hk Hn]. apply NoDup_app in Hn as (_ & Hd1 & Hn).
    apply NoDup_app in Hn as (_ & Hd2 & _).
    destruct Hj as [Hj|[Hj|Hj]]; [specialize (Hd _ Hj)|specialize (Hd1 _ Hj)|]; set_solver. }
  split_and!.
  - eapply (holds_replace mv_view); [done|done| |exact Hl|done| |].
    + by apply NoDup_app in Hkeys as (_ & _ & Hn); rewrite Ea.
    + pose proof (holds_lookup _ _ _ _ Hmid Hl) as [_ Hc]%holds_dir. rewrite Ech in Hc.
      apply Forall_app in Hc as [Hc1 Hc]. apply Forall_app in Hc as [_ Hc2].
      apply holds_dir. split; [done|]. apply Forall_app. split; [|apply Forall_app; split].
      * apply Forall_forall. intros e He. rewrite Forall_forall in Hc1. eapply holds_frame; [|by apply Hc1].
        intros j Hj. assert (j ∈ chkeys m1) by (apply chkeys_elem; by exists e). apply Hsame; apply Hdis; auto.
      * constructor; [|constructor]. cbn. eapply holds_frame; [|exact Hhx]. intros j Hj. apply Hsame; apply Hdis; auto.
      * apply Forall_forall. intros e He. rewrite Forall_forall in Hc2. eapply holds_frame; [|by apply Hc2].
        intros j Hj. assert (j ∈ chkeys m2) by (apply chkeys_elem; by exists e). apply Hsame; apply Hdis; auto.
    + intros j _ Hj. rewrite Ech, tkeys_dir, !chkeys_app, Eold in Hj. apply Hsame; set_solver.
  - rewrite Eb. exact (nodup_swap _ a (k :: chkeys m1) mv_gone (chkeys m2) b Hkeys).
  - intros j. rewrite mv_keys_perm, Ea, Eb. clear. set_solver.
Qed.
End mv.
