(* ===== verification/FsMove.v ===== *)
(** * Moving and copying

    [mv_into] and [cp_into] against the abstract tree. *)
From S2P Require Import Prelude BTree Codec Ext Scalar Path Value Archived Key Dir Engine WriteBuffer Ctx Fs Tree Refine FsSpec Move.

(** ** The abstract copy: fresh keys in the order the code draws them *)

Fixpoint t_copy (t : atree) (s : Z) : atree * Z :=
  match t with
  | AFile _ b => let '(f, s) := generate s in (AFile f b, s)
  | ADir _ ch =>
      let '(f, s) := generate s in
      let '(ch, s) :=
        (fix go ch s :=
           match ch with
           | [] => ([], s)
           | (n, t) :: ch =>
               let '(t, s) := t_copy t s in
               let '(ch, s) := go ch s in ((n, t) :: ch, s)
           end) ch s in
      (ADir f ch, s)
  end.

Fixpoint t_copy_children (ch : list (bytes * atree)) (s : Z) : list (bytes * atree) * Z :=
  match ch with
  | [] => ([], s)
  | (n, t) :: ch =>
      let '(t, s) := t_copy t s in
      let '(ch, s) := t_copy_children ch s in ((n, t) :: ch, s)
  end.

Lemma t_copy_dir k ch s :
  t_copy (ADir k ch) s =
    let '(f, s) := generate s in let '(ch, s) := t_copy_children ch s in (ADir f ch, s).
Proof. done. Qed.

(** The contents of a tree, keys forgotten. *)
Inductive content := CFile (b : bytes) | CDir (ch : list (bytes * content)).
Fixpoint erase (t : atree) : content :=
  match t with
  | AFile _ b => CFile b
  | ADir _ ch => CDir (map (λ e, (e.1, erase e.2)) ch)
  end.

Definition t_cp (t : atree) (src dst : APath) (s : Z) : res (atree * Z) :=
  match tlookup t src, APath_split_last dst with
  | Some x, Some (parent, n) =>
      let? '(t, s) := t_ensure t parent s in
      match tlookup t parent with
      | Some dir => let '(x, s) := t_copy x s in Ok (treplace t parent (t_link dir n x), s)
      | None => Ok (t, s)
      end
  | _, _ => Err ValueNotFound
  end.

(** *** What the copy is made of *)

Definition keys_from (s n : Z) : list AKey := nth_key s <$> seqZ 0 n.

Lemma keys_from_app s a b :
  0 ≤ a → 0 ≤ b → keys_from s (a + b) = keys_from s a ++ keys_from (state_at s (2 * a)) b.
Proof.
  intros Ha Hb. unfold keys_from. rewrite seqZ_app by lia. rewrite fmap_app. f_equal.
  replace (0 + a) with (a + 0) by lia. rewrite <- (fmap_add_seqZ a 0 b), <- list_fmap_compose.
  apply list_fmap_ext. intros i x _. unfold compose. by rewrite nth_key_state.
Qed.

Lemma keys_from_1 s : keys_from s 1 = [nth_key s 0].
Proof. done. Qed.

Lemma keys_from_elem s n j : j ∈ keys_from s n ↔ ∃ i, 0 ≤ i < n ∧ j = nth_key s i.
Proof.
  unfold keys_from. rewrite list_elem_of_fmap. setoid_rewrite elem_of_seqZ. split; intros (i & ? & ?); exists i; split; try done; lia.
Qed.

Lemma keys_from_nodup s n : n ≤ 2 ^ 62 → NoDup (keys_from s n).
Proof.
  intros Hn. unfold keys_from. apply NoDup_fmap_2_strong; [|apply NoDup_seqZ].
  intros i j Hi%elem_of_seqZ Hj%elem_of_seqZ. apply nth_key_inj; lia.
Qed.

Definition copy_ok (t : atree) (s : Z) : Prop :=
  let '(t', s') := t_copy t s in
  let n := blen (tkeys t) in
  s' = state_at s (2 * n) ∧ tkeys t' = keys_from s n ∧ erase t' = erase t ∧ akey t' = nth_key s 0.

Definition copies_ok (ch : list (bytes * atree)) (s : Z) : Prop :=
  let '(ch', s') := t_copy_children ch s in
  let n := blen (chkeys ch) in
  s' = state_at s (2 * n) ∧ chkeys ch' = keys_from s n ∧
  ch'.*1 = ch.*1 ∧ map (λ e, (e.1, erase e.2)) ch' = map (λ e, (e.1, erase e.2)) ch.

Lemma copies_ok_all ch :
  Forall (λ e, ∀ s, word s → copy_ok e.2 s) ch → ∀ s, word s → copies_ok ch s.
Proof.
  induction 1 as [|[n t] ch Ht _ IH]; intros s Hs; unfold copies_ok; cbn [t_copy_children].
  - cbn. rewrite (@blen_nil AKey), Z.mul_0_r, state_at_0 by done. done.
  - specialize (Ht s Hs). unfold copy_ok in Ht. cbn [snd] in Ht. destruct (t_copy t s) as [t' s1].
    destruct Ht as (-> & Ek & Ee & _). specialize (IH _ (as_u64_word (s + 2 * blen (tkeys t) * GOLDEN))).
    fold (state_at s (2 * blen (tkeys t))) in IH. unfold copies_ok in IH.
    destruct (t_copy_children ch _) as [ch' s2]. destruct IH as (-> & Ek' & En & Em).
    rewrite !chkeys_cons. cbn [snd]. rewrite blen_app. split_and!.
    + rewrite state_at_add. f_equal. lia.
    + rewrite Ek, Ek', keys_from_app; [done|apply blen_nonneg..].
    + cbn. by rewrite <- En.
    + cbn. by rewrite Ee, Em.
Qed.

Lemma copy_ok_all t : ∀ s, word s → copy_ok t s.
Proof.
  induction t as [k b|k ch IH] using atree_ind'; intros s Hs; unfold copy_ok.
  - cbn [t_copy]. rewrite (generate_word s Hs). cbn. by split_and!.
  - rewrite t_copy_dir, (generate_word s Hs).
    pose proof (copies_ok_all ch IH (state_at s 2) (as_u64_word _)) as Hc. unfold copies_ok in Hc.
    destruct (t_copy_children ch _) as [ch' s2]. destruct Hc as (-> & Ek & En & Em).
    rewrite !tkeys_dir, blen_cons. split_and!.
    + rewrite state_at_add. f_equal. lia.
    + rewrite Ek, (keys_from_app s 1), keys_from_1 by (lia || apply blen_nonneg). done.
    + cbn. by rewrite Em.
    + done.
Qed.

Section fsmove.
Context `{Ext} {T : Type} `{KV T Z bytes} `{!KVLaws T Z bytes}.
Implicit Type c : Ctx T.

Lemma ensure_root_mat c t : fs_mat c t → ensure_root c = (Ok tt, c).
Proof.
  intros (Hc & _ & Hk & _ & Hh). unfold ensure_root.
  rewrite (sbind_asks _ _ _ _ (has_entry_spec c ROOT Hc)). apply holds_root in Hh. rewrite Hk in Hh.
  by rewrite bool_decide_true.
Qed.

(** Creating directories keeps what is there. *)
Lemma ensure_lookup p : ∀ t s t' s' q x,
  tsorted t → t_ensure t p s = Ok (t', s') → tlookup t q = Some x →
  ∃ x', tlookup t' q = Some x' ∧ akey x' = akey x ∧ (¬ q `prefix_of` p → x' = x).
Proof.
  induction p as [|n p IH]; intros t s t' s' q x Hso; cbn [t_ensure]; [intros [= <- <-]; eauto|].
  destruct t as [|k ch]; [done|]. pose proof (proj1 (tsorted_dir _ _) Hso) as [Hs Hch].
  assert (∀ y, bt_get ch n = None → tlookup (ADir k ch) q = Some x →
     ∃ x', tlookup (ADir k (bt_insert ch n y)) q = Some x' ∧ akey x' = akey x ∧ (¬ q `prefix_of` n :: p → x' = x)) as Hnone.
  { intros y Hg. destruct q as [|m q]; cbn [tlookup].
    - intros [= <-]. eexists; split_and!; [done..|]. intros []. apply prefix_nil.
    - rewrite bt_get_insert by done. case_decide; [subst; by rewrite Hg|eauto]. }
  destruct (bt_get ch n) as [c|] eqn:Hg.
  - destruct (is_dir c); [|done]. intros ([c' s1] & E & [= <- <-])%rbind_Ok.
    destruct q as [|m q]; cbn [tlookup].
    { intros [= <-]. eexists; split_and!; [done..|]. intros []. apply prefix_nil. }
    rewrite bt_get_insert by done. case_decide; [subst m|eauto]. rewrite Hg. intros Hl.
    apply bt_get_Some_in in Hg. rewrite Forall_forall in Hch.
    destruct (IH c s c' s1 q x (Hch _ Hg) E Hl) as (x' & ? & ? & Hx). exists x'. split_and!; [done..|].
    intros Hp. apply Hx. intros ?. by apply Hp, prefix_cons.
  - destruct (generate s) as [f s1]. intros ([c' s2] & E & [= <- <-])%rbind_Ok. by apply Hnone.
Qed.

Lemma cascade_opt fuel c t dp dn k ch :
  fs_mat c t → tlookup t dp = Some (ADir k ch) → (height t ≤ fuel)%nat →
  ∃ c', (match akey <$> bt_get ch dn with
         | Some e => cascade_delete fuel e | None => sret tt end) c = (Ok tt, c') ∧
        erases c c' (mv_gone dn ch).
Proof.
  intros (Hc & Hnd & _ & _ & Hh) Hl Hf. unfold mv_gone. pose proof (holds_sorted c t Hc Hh) as Hso.
  destruct (bt_get ch dn) as [e|] eqn:Hg; cbn [fmap option_fmap option_map].
  - assert (tlookup t (dp ++ [dn]) = Some e) as Hle by (rewrite tlookup_app, Hl; cbn; by rewrite Hg).
    apply cascade_delete_spec; [|done| |].
    + apply height_lookup in Hle. lia.
    + by apply (holds_lookup _ _ _ _ Hh Hle).
    + by apply (sub_nodup _ _ _ Hso Hnd Hle).
  - exists c. split; [done|]. by split_and!.
Qed.

Lemma tlookup_below_gone t dp dn k ch p s :
  tsorted t → NoDup (tkeys t) → tlookup t dp = Some (ADir k ch) → tlookup t p = Some s →
  akey s ∈ mv_gone dn ch → dp ++ [dn] `prefix_of` p.
Proof.
  intros Hso Hnd Hl Hp. unfold mv_gone. destruct (bt_get ch dn) as [e|] eqn:Hg; [|set_solver].
  intros Hin. eapply (key_below t); [done..| |exact Hin]. rewrite tlookup_app, Hl. cbn. by rewrite Hg.
Qed.

Lemma is_dir_mv t src dp k ch' x :
  is_dir t = true → tlookup (t_remove t src) dp = Some (ADir k ch') →
  is_dir (treplace (t_remove t src) dp (ADir k x)) = true.
Proof.
  intros Hd Hl. destruct t as [|k1 ch1]; [done|].
  destruct (t_remove (ADir k1 ch1) src) as [|k2 ch2] eqn:E.
  - exfalso. destruct src as [|a0 [|b0 r0]]; cbn in E; try done. by destruct (bt_get ch1 a0).
  - destruct dp; cbn; [done|]. by case_match.
Qed.

Lemma mv_lemma fuel c t sp sn dp dn :
  let src := sp ++ [sn] in let dst := dp ++ [dn] in
  fs_mat c t → ¬ src `prefix_of` dst → ¬ dst `prefix_of` src →
  path_fits t dst → fresh_for (view c) (rng c) (blen dp) → blen dp ≤ 2 ^ 62 →
  (height t + length dp ≤ fuel)%nat →
  match t_mv t src dst (rng c) with
  | Ok (t', s') =>
      ∃ c' m, mv_into fuel src dst c = (Ok tt, c') ∧ steps c t c' t' m ∧ m ≤ blen dp ∧ rng c' = s'
  | Err e => ∃ c', mv_into fuel src dst c = (Err e, c') ∧ steps c t c' t 0
  | _ => False
  end.
Proof.
  intros src dst Hm Hsd Hds Hfit Hf Hlen Hfuel. pose proof Hm as (Hc & Hnd & Hk & Hd & Hh).
  pose proof (holds_sorted c t Hc Hh) as Hso.
  unfold t_mv, dst. rewrite APath_split_last_snoc. fold dst.
  unfold mv_into, src, dst. rewrite (sbind_Ok _ _ _ _ _ (split_last_ok sp sn c)), (sbind_Ok _ _ _ _ _ (split_last_ok dp dn c)).
  fold src dst. rewrite (sbind_asks _ _ _ _ (fs_resolve c t sp Hm)).
  destruct (tlookup t sp) as [s|] eqn:Hsp; cbn [fmap option_fmap option_map]; last first.
  { unfold src. rewrite tlookup_app, Hsp. exists c. split; [done|]. by apply steps_refl, fs_mat_fs. }
  rewrite (sbind_asks _ _ _ _ (fs_child c t sp sn s Hm Hsp)). fold src.
  destruct (tlookup t src) as [x|] eqn:Hx; cbn [fmap option_fmap option_map]; [|exists c; split; [done|by apply steps_refl, fs_mat_fs]].
  pose proof (ensure_dir_spec c t dp Hm (path_fits_prefix _ _ _ Hfit) Hf Hlen (ensure_root_mat c t Hm)) as He.
  destruct (t_ensure t dp (rng c)) as [[t1 s1]|e| |] eqn:Et; cbn [rbind]; try done.
  2:{ exists c. split; [by apply sbind_Err|by apply steps_refl, fs_mat_fs]. }
  destruct He as (c2 & m & sub & E2 & Hch & Hm2 & Hr2 & Hl & Hsdir).
  destruct sub as [|k ch]; [done|]. clear Hsdir. rewrite (sbind_Ok _ _ _ _ _ E2). cbn [akey].
  pose proof (changes_fs _ _ _ _ _ Hm Hch) as Hmat2. pose proof Hmat2 as (Hc2 & Hnd2 & _ & _ & Hh2).
  pose proof (holds_sorted c2 t1 Hc2 Hh2) as Hso2.
  assert (tlookup t1 src = Some x) as Hx1.
  { destruct (ensure_lookup dp t (rng c) t1 s1 src x Hso Et Hx) as (x' & ? & _ & Hx').
    rewrite <- Hx'; [done|]. intros Hp. apply Hsd. unfold dst. by apply prefix_app_r. }
  destruct (tlookup_snoc _ _ _ _ Hx1) as (ks & chs & Hsp1 & Hgx).
  assert (akey s = ks) as ->.
  { destruct (ensure_lookup dp t (rng c) t1 s1 sp s Hso Et Hsp) as (s' & Hs' & Hks & _). rewrite Hsp1 in Hs'. by simplify_eq. }
  rewrite (sbind_asks _ _ _ (akey <$> bt_get ch dn)).
  2:{ pose proof (fs_child c2 t1 dp dn _ Hmat2 Hl) as E. cbn [akey] in E. rewrite E. rewrite tlookup_app, Hl. cbn. by destruct (bt_get ch dn). }
  destruct (cascade_opt fuel c2 t1 dp dn k ch Hmat2 Hl) as (c3 & E3 & Hc3 & Hv3 & Hr3 & Hb3).
  { apply height_ensure in Et; [lia|done]. }
  rewrite (sbind_Ok _ _ _ _ _ E3).
  assert (∀ p y, tlookup t1 p = Some y → akey y ∈ mv_gone dn ch → dst `prefix_of` p) as Hbelow.
  { intros p y Hy Hin. by apply (tlookup_below_gone t1 dp dn k ch p y Hso2 Hnd2 Hl Hy). }
  assert (k ∉ mv_gone dn ch ∧ ks ∉ mv_gone dn ch) as [Hkg Hksg].
  { split; intros Hin.
    - apply (Hbelow dp _ Hl) in Hin. apply prefix_length in Hin. unfold dst in Hin. rewrite length_app in Hin. cbn in Hin. lia.
    - apply (Hbelow sp _ Hsp1) in Hin. apply Hds. unfold src. by apply prefix_app_r. }
  pose proof (holds_lookup _ _ _ _ Hh2 Hl) as [Hk2 _]%holds_dir.
  pose proof (holds_lookup _ _ _ _ Hh2 Hsp1) as [Hks2 _]%holds_dir.
  assert (akey_ok (akey x)) as Hkx.
  { pose proof (view_dir_ok c2 ks _ Hc2 Hks2) as (_ & Hfa & _). apply bt_get_Some_in in Hgx.
    rewrite Forall_forall in Hfa. apply (Hfa (sn, akey x)). unfold ckeys. by apply (list_elem_of_fmap_2 (λ e, (e.1, akey e.2)) _ (sn, x)). }
  destruct (link_child_spec c3 k dn (akey x) (ckeys ch) Hc3) as (c4 & E4 & (Hc4 & Hv4 & Hr4 & Hb4) & _).
  { by rewrite Hv3, decide_False. }
  { apply dir_ok_insert; [by apply (view_dir_ok c2 k)|done|].
    destruct (path_fits_last dp dn t (rng c) t1 s1 k ch Hso Hfit Et Hl) as [?|[y Hy]]; [by right|left].
    rewrite bt_get_ckeys, Hy. eauto. }
  rewrite (sbind_Ok _ _ _ _ _ E4).
  set (ms := if decide (ks = k) then bt_insert (ckeys ch) dn (akey x) else ckeys chs).
  assert (view c4 ks = Some (NDir ms)) as Hms.
  { rewrite Hv4. unfold upd, ms. destruct (decide (ks = k)); [done|]. by rewrite Hv3, decide_False. }
  destruct (unlink_child_spec c4 ks sn ms Hc4 Hms) as (c5 & E5 & (Hc5 & Hv5 & Hr5 & Hb5) & _).
  { by apply dir_ok_remove, (view_dir_ok c4 ks). }
  destruct (mv_holds (view c2) (view c5) t1 sp dp sn dn k ks ch chs x) as (ch' & Hl' & Hh' & Hnd' & Hks'); try done.
  - intros j Hjk Hjs. by rewrite Hv5, upd_ne, Hv4, upd_ne, Hv3.
  - intros Hne. by rewrite Hv5, upd_ne, Hv4, upd_eq.
  - by rewrite Hv5, upd_eq.
  - unfold mv_mid in Hl', Hh', Hnd', Hks'. fold src in Hl', Hh', Hnd', Hks'. rewrite Hl'. cbn [t_link].
    set (t' := treplace _ dp _) in *.
    assert (changes c2 t1 c5 t' 0) as Hch5.
    { assert (k ∈ tkeys t1) as Hkt by (apply (lookup_keys _ _ _ Hl); left).
      assert (ks ∈ tkeys t1) as Hkst by (apply (lookup_keys _ _ _ Hsp1); left).
      assert (∀ j, j ≠ k → j ≠ ks → view c5 j = if decide (j ∈ mv_gone dn ch) then None else view c2 j) as Hv.
      { intros j Hjk Hjs. by rewrite Hv5, upd_ne, Hv4, upd_ne, Hv3. }
      split; try done; try congruence.
      - unfold t'. by rewrite (akey_replace _ _ _ _ Hl'), akey_remove.
      - destruct Hmat2 as (_ & _ & _ & Hd2 & _). rewrite Hd2. by apply (is_dir_mv t1 src dp k ch').
      - intros j Hj1 Hj'. rewrite Hv by congruence. rewrite decide_False; [done|]. intros Hg. apply Hj1, Hks'. by left.
      - intros j Hj1 Hj'. apply Hks' in Hj1 as [Hg|?]; [|done]. rewrite Hv by congruence. by rewrite decide_True.
      - intros j Hj. left. apply Hks'. by right.
      - rewrite Z.mul_0_r, state_at_0; [congruence|apply Hc2]. }
    exists c5, (m + 0). split_and!; [done| |lia|congruence].
    apply changes_steps; [done|]. eapply changes_trans; [exact Hch|exact Hch5|done|].
    intros i Hi. apply Hf. lia.
Qed.

(** ** [deep_copy] *)

(** Nodes were created under [ks] only, and the generator is at [s']. *)
Definition copied c c' (ks : list AKey) (s' : Z) : Prop :=
  ctx_ok c' ∧ rng c' = s' ∧ buffering (wb c') = buffering (wb c) ∧
  (∀ j, j ∉ ks → view c' j = view c j).

Lemma fresh_disjoint c t n : holds (view c) t → fresh_for (view c) (rng c) n →
  ∀ j, j ∈ tkeys t → j ∉ keys_from (rng c) n.
Proof.
  intros Ht Hf j Hj (i & Hi & ->)%keys_from_elem. revert Hj. by apply (fresh_not_in c t _ n).
Qed.

Lemma fresh_later c c' n m :
  copied c c' (keys_from (rng c) n) (state_at (rng c) (2 * n)) → 0 ≤ n → 0 ≤ m → n + m ≤ 2 ^ 62 →
  fresh_for (view c) (rng c) (n + m) → fresh_for (view c') (rng c') m.
Proof.
  intros (_ & Hr & _ & Hv) Hn Hm Hb Hf i Hi. rewrite Hr, nth_key_state.
  rewrite Hv; [apply Hf; lia|]. intros (j & Hj & E)%keys_from_elem. apply nth_key_inj in E; lia.
Qed.

Definition copy_spec fuel t : Prop := ∀ c,
  ctx_ok c → holds (view c) t → fresh_for (view c) (rng c) (blen (tkeys t)) →
  blen (tkeys t) ≤ 2 ^ 62 →
  ∃ c', deep_copy fuel (akey t) c = (Ok (nth_key (rng c) 0), c') ∧
    holds (view c') (t_copy t (rng c)).1 ∧
    copied c c' (keys_from (rng c) (blen (tkeys t))) (t_copy t (rng c)).2.

Lemma copy_loop fuel ch : Forall (λ e, copy_spec fuel e.2) ch → ∀ c acc,
  ctx_ok c → Forall (λ e, holds (view c) e.2) ch →
  fresh_for (view c) (rng c) (blen (chkeys ch)) → blen (chkeys ch) ≤ 2 ^ 62 →
  StronglySorted blt (acc.*1 ++ ch.*1) →
  ∃ c', copy_children (deep_copy fuel) (ckeys ch) acc c =
          (Ok (acc ++ ckeys (t_copy_children ch (rng c)).1), c') ∧
    Forall (λ e, holds (view c') e.2) (t_copy_children ch (rng c)).1 ∧
    copied c c' (keys_from (rng c) (blen (chkeys ch))) (t_copy_children ch (rng c)).2.
Proof.
  induction 1 as [|[n t] ch Ht _ IH]; intros c acc Hc Hh Hf Hb Hs.
  - exists c. cbn. rewrite app_nil_r. split_and!; try done.
  - inversion Hh as [|?? Ht1 Hh']; subst. cbn [snd] in *.
    rewrite chkeys_cons in *. cbn [snd] in *. rewrite blen_app in *.
    pose proof (blen_nonneg (tkeys t)). pose proof (blen_nonneg (chkeys ch)).
    assert (word (rng c)) as Hw by apply Hc.
    pose proof (copy_ok_all t (rng c) Hw) as Hok. unfold copy_ok in Hok.
    destruct (Ht c Hc Ht1) as (c1 & E1 & Hh1 & Hcop); [intros i Hi; apply Hf; lia|lia|].
    cbn [t_copy_children]. destruct (t_copy t (rng c)) as [t' s1] eqn:Et. cbn [fst snd] in *.
    destruct Hok as (Es1 & Ek & _ & Ea). pose proof Hcop as (Hc1 & Hr1 & Hb1 & Hv1).
    rewrite Es1 in Hcop.
    assert (Forall (λ e, holds (view c1) e.2) ch) as Hh1'.
    { apply Forall_forall. intros e He. rewrite Forall_forall in Hh'. eapply holds_frame; [|by apply Hh'].
      intros j Hj. apply Hv1. apply (fresh_disjoint c e.2 _ (Hh' _ He)); [|done]. intros i Hi. apply Hf. lia. }
    pose proof (fresh_later c c1 (blen (tkeys t)) (blen (chkeys ch)) Hcop ltac:(lia) ltac:(lia) Hb Hf) as Hf1.
    assert (bt_insert acc n (akey t') = acc ++ [(n, akey t')]) as Eins.
    { apply bt_insert_last. apply Forall_forall. intros j Hj.
      eapply StronglySorted_app_1_elem_of; [exact Hs|exact Hj|left]. }
    destruct (IH c1 (acc ++ [(n, akey t')]) Hc1 Hh1' Hf1) as (c2 & E2 & Hh2 & Hc2 & Hr2 & Hb2 & Hv2); [lia| |].
    { rewrite fmap_app. cbn. by rewrite <- app_assoc. }
    pose proof (copies_ok_all ch) as Hoks.
    specialize (Hoks ltac:(apply Forall_forall; intros; by apply copy_ok_all) (rng c1) ltac:(apply Hc1)).
    unfold copies_ok in Hoks. rewrite Hr1 in *.
    destruct (t_copy_children ch s1) as [ch' s2]. cbn [fst snd] in *. destruct Hoks as (_ & Ek2 & _).
    rewrite Es1 in Hv2, Ek2.
    exists c2. unfold copied. split_and!.
    + cbn [ckeys map fst snd copy_children]. rewrite (sbind_Ok _ _ _ _ _ E1). rewrite <- Ea, Eins.
      change (map (λ e, (e.1, akey e.2)) ch) with (ckeys ch). rewrite E2. by rewrite <- app_assoc.
    + constructor; [|done]. cbn [snd]. eapply holds_frame; [|exact Hh1]. intros j Hj. apply Hv2.
      pose proof (keys_from_nodup (rng c) _ Hb) as Hn. rewrite keys_from_app in Hn by lia.
      apply NoDup_app in Hn as (_ & Hd & _). apply Hd. by rewrite <- Ek.
    + done.
    + done.
    + congruence.
    + intros j Hj. rewrite keys_from_app in Hj by lia. apply not_elem_of_app in Hj as [Hj1 Hj2]. by rewrite Hv2, Hv1.
Qed.

Lemma ckeys_dir_ok ch ch' :
  dir_ok (ckeys ch) → ch'.*1 = ch.*1 → (∀ j, j ∈ chkeys ch' → akey_ok j) → dir_ok (ckeys ch').
Proof.
  intros (Hs & Hf & Hb) En Hk.
  assert (∀ l : list (bytes * atree), (ckeys l).*1 = l.*1) as Hfst
    by (intros l; unfold ckeys; by rewrite <- list_fmap_compose).
  split_and!.
  - unfold bt_sorted in *. rewrite Hfst in *. by rewrite En.
  - apply Forall_forall. intros [n k] Hin. split; cbn [fst snd].
    + assert (n ∈ (ckeys ch).*1) as Hn.
      { rewrite Hfst, <- En, <- Hfst. by apply (list_elem_of_fmap_2 fst _ (n, k)). }
      apply list_elem_of_fmap in Hn as ([n' k'] & -> & Hn). rewrite Forall_forall in Hf. by apply (Hf _ Hn).
    + unfold ckeys in Hin. apply list_elem_of_fmap in Hin as ([n' t'] & [= -> ->] & Hin).
      apply Hk, chkeys_elem. exists (n', t'). split; [done|apply akey_in].
  - rewrite blen_encode_dir in *. rewrite Hfst in *. rewrite En.
    assert (blen (ckeys ch') = blen (ckeys ch)) as ->; [|done].
    unfold ckeys, blen. rewrite !length_map. rewrite <- (length_fmap fst ch'), En. by rewrite length_fmap.
Qed.

Lemma deep_copy_spec t : ∀ fuel, (height t ≤ fuel)%nat → copy_spec fuel t.
Proof.
  induction t as [k b|k ch IH] using atree_ind'; intros [|fuel] Hfu; try (cbn in Hfu; lia);
    intros c Hc Ht Hf Hb; cbn [deep_copy]; assert (word (rng c)) as Hw by apply Hc;
    pose proof (Hf 0) as Hf0.
  - assert (view c (nth_key (rng c) 0) = None) as Hn0 by (apply Hf; change (0 ≤ 0 < 1); lia).
    destruct (fresh_key_spec c Hc) as (c1 & E1 & Hc1 & Hv1 & Hr1 & Hw1 & _).
    rewrite (sbind_Ok _ _ _ _ _ E1). cbn [akey]. cbn in Ht.
    rewrite (sbind_asks _ _ _ (Some KFile)) by (by rewrite (kind_spec c1 k Hc1), Hv1, Ht). cbn [ok_or].
    rewrite (sbind_asks _ _ _ KFile) by done.
    rewrite (sbind_asks _ _ _ (Some (file_entry b))) by (apply read_verified_file; [done|by rewrite Hv1]).
    rewrite (sbind_asks _ _ _ (file_entry b)) by done.
    assert (dirs (wb c1) !! nth_key (rng c) 0 = None) as Hd1.
    { destruct (dirs (wb c1) !! _) eqn:E; [|done]. apply view_buffered in E. rewrite Hv1 in E. congruence. }
    destruct (put_entry_file c1 _ b Hc1 Hd1) as (c2 & E2 & (Hc2 & Hv2 & Hr2 & Hb2) & _).
    rewrite (sbind_Ok _ _ _ _ _ E2). exists c2. unfold copied. cbn [t_copy]. rewrite (generate_word _ Hw). cbn [fst snd].
    split_and!; [done| | | | |].
    + cbn. by rewrite Hv2, upd_eq.
    + done.
    + congruence.
    + rewrite Hb2. by rewrite Hw1.
    + intros j Hj. rewrite Hv2, upd_ne, Hv1; [done|]. intros ->. apply Hj. left.
  - pose proof (proj1 (holds_dir _ _ _) Ht) as [Hk Hch].
    rewrite tkeys_dir, blen_cons in *. pose proof (blen_nonneg (chkeys ch)) as Hp.
    set (f := nth_key (rng c) 0) in *. assert (view c f = None) as Hn0 by (apply Hf; lia).
    destruct (fresh_key_spec c Hc) as (c1 & E1 & Hc1 & Hv1 & Hr1 & Hw1 & _). fold f in E1.
    rewrite (sbind_Ok _ _ _ _ _ E1). cbn [akey].
    rewrite (sbind_asks _ _ _ (Some KDir)) by (by rewrite (kind_spec c1 k Hc1), Hv1, Hk). cbn [ok_or].
    rewrite (sbind_asks _ _ _ KDir) by done.
    rewrite (sbind_asks _ _ _ (ckeys ch)) by (by rewrite (dir_children_spec c1 k Hc1), Hv1, Hk).
    assert (copied c c1 (keys_from (rng c) 1) (state_at (rng c) (2 * 1))) as Hcop1.
    { unfold copied. split_and!; [done|done|by rewrite Hw1|by auto]. }
    pose proof (fresh_later c c1 1 (blen (chkeys ch)) Hcop1 ltac:(lia) Hp Hb Hf) as Hf1.
    destruct (copy_loop fuel ch) with (c := c1) (acc := @nil (bytes * Z)) as (c2 & E2 & Hh2 & Hc2 & Hr2 & Hb2 & Hv2).
    + apply Forall_forall. intros e He. rewrite Forall_forall in IH. apply IH; [done|].
      pose proof (height_child k ch e He). lia.
    + done.
    + eapply Forall_impl; [exact Hch|]. intros e. apply holds_frame. by auto.
    + done.
    + lia.
    + cbn. apply (view_dir_ok c k) in Hk as [Hs _]; [|done]. by apply ckeys_sorted in Hs.
    + rewrite (sbind_Ok _ _ _ _ _ E2). rewrite Hr1 in *.
      pose proof (copies_ok_all ch) as Hoks.
      specialize (Hoks ltac:(apply Forall_forall; intros; by apply copy_ok_all) (state_at (rng c) 2) (as_u64_word _)).
      rewrite t_copy_dir, (generate_word _ Hw). fold f. unfold copies_ok in Hoks.
      destruct (t_copy_children ch (state_at (rng c) 2)) as [ch' s2]. cbn [fst snd app] in *.
      destruct Hoks as (Es2 & Ek & En & _).
      assert (f ∉ keys_from (state_at (rng c) 2) (blen (chkeys ch))) as Hfn.
      { pose proof (keys_from_nodup (rng c) _ Hb) as Hn. rewrite keys_from_app, keys_from_1 in Hn by lia.
        apply NoDup_cons in Hn as [Hn _]. exact Hn. }
      assert (view c2 f = None) as Hn2 by by rewrite Hv2, Hv1.
      destruct (put_dir_spec c2 f (ckeys ch') Hc2) as (c3 & E3 & (Hc3 & Hv3 & Hr3 & Hb3) & _).
      { apply (ckeys_dir_ok ch); [by apply (view_dir_ok c k)|done|]. rewrite Ek.
        intros j (i & _ & ->)%keys_from_elem. apply nth_key_ok. }
      { by rewrite Hn2. }
      rewrite (sbind_Ok _ _ _ _ _ E3). exists c3. unfold copied. split_and!; [done| |done|congruence|rewrite Hb3, Hb2; by rewrite Hw1|].
      * apply holds_dir. split; [by rewrite Hv3, upd_eq|]. apply Forall_forall. intros e He.
        rewrite Forall_forall in Hh2. eapply holds_frame; [|by apply Hh2]. intros j Hj. rewrite Hv3, upd_ne; [done|].
        intros ->. apply Hfn. rewrite <- Ek. apply chkeys_elem. by exists e.
      * intros j Hj. rewrite keys_from_app, keys_from_1 in Hj by lia.
        apply not_elem_of_app in Hj as [Hj1 Hj2]. apply not_elem_of_cons in Hj1 as [Hj1 _].
        rewrite Hv3, upd_ne, Hv2, Hv1; done.
Qed.

Lemma cp_lemma fuel c t src dp dn x :
  let dst := dp ++ [dn] in
  fs_mat c t → tlookup t src = Some x → ¬ src `prefix_of` dst → ¬ dst `prefix_of` src →
  path_fits t dst → fresh_for (view c) (rng c) (blen dp + blen (tkeys x)) →
  blen dp + blen (tkeys x) ≤ 2 ^ 62 → (height t + length dp ≤ fuel)%nat →
  match t_cp t src dst (rng c) with
  | Ok (t', s') =>
      ∃ c' m, cp_into fuel src dst c = (Ok tt, c') ∧ steps c t c' t' m ∧ m ≤ blen dp + blen (tkeys x) ∧ rng c' = s'
  | Err e => ∃ c', cp_into fuel src dst c = (Err e, c') ∧ steps c t c' t 0
  | _ => False
  end.
Proof.
  intros dst Hm Hx Hsd Hds Hfit Hf Hlen Hfuel. pose proof Hm as (Hc & Hnd & Hk & Hd & Hh).
  pose proof (holds_sorted c t Hc Hh) as Hso. pose proof (blen_nonneg dp). pose proof (blen_nonneg (tkeys x)).
  unfold t_cp, dst. rewrite APath_split_last_snoc, Hx. fold dst.
  unfold cp_into, dst. rewrite (sbind_Ok _ _ _ _ _ (split_last_ok dp dn c)). fold dst.
  rewrite (sbind_asks _ _ _ _ (fs_resolve c t src Hm)), Hx. cbn [fmap option_fmap option_map].
  pose proof (ensure_dir_spec c t dp Hm (path_fits_prefix _ _ _ Hfit)) as He.
  specialize (He ltac:(intros i Hi; apply Hf; lia) ltac:(lia) (ensure_root_mat c t Hm)).
  destruct (t_ensure t dp (rng c)) as [[t1 s1]|e| |] eqn:Et; cbn [rbind]; try done.
  2:{ exists c. split; [by apply sbind_Err|by apply steps_refl, fs_mat_fs]. }
  destruct He as (c2 & m & sub & E2 & Hch & Hm2 & Hr2 & Hl & Hsdir).
  destruct sub as [|k ch]; [done|]. clear Hsdir. rewrite (sbind_Ok _ _ _ _ _ E2). cbn [akey].
  pose proof (g_n _ _ _ _ _ Hch) as Hm0.
  pose proof (changes_fs _ _ _ _ _ Hm Hch) as Hmat2. pose proof Hmat2 as (Hc2 & Hnd2 & _ & _ & Hh2).
  pose proof (holds_sorted c2 t1 Hc2 Hh2) as Hso2.
  assert (fresh_for (view c2) (rng c2) (blen (tkeys x))) as Hf2.
  { pose proof (changes_fresh c t c2 t1 m _ Hch Hh Hf ltac:(lia)) as Hfr. intros i Hi. apply Hfr. lia. }
  assert (tlookup t1 src = Some x) as Hx1.
  { destruct (ensure_lookup dp t (rng c) t1 s1 src x Hso Et Hx) as (x' & ? & _ & Hx').
    rewrite <- Hx'; [done|]. intros Hp. apply Hsd. unfold dst. by apply prefix_app_r. }
  rewrite (sbind_asks _ _ _ (akey <$> bt_get ch dn)).
  2:{ pose proof (fs_child c2 t1 dp dn _ Hmat2 Hl) as E. cbn [akey] in E. rewrite E. rewrite tlookup_app, Hl. cbn. by destruct (bt_get ch dn). }
  destruct (cascade_opt fuel c2 t1 dp dn k ch Hmat2 Hl) as (c3 & E3 & Hc3 & Hv3 & Hr3 & Hb3).
  { apply height_ensure in Et; [lia|done]. }
  rewrite (sbind_Ok _ _ _ _ _ E3).
  assert (∀ p y, tlookup t1 p = Some y → akey y ∈ mv_gone dn ch → dst `prefix_of` p) as Hbelow.
  { intros p y Hy Hin. by apply (tlookup_below_gone t1 dp dn k ch p y Hso2 Hnd2 Hl Hy). }
  assert (k ∉ mv_gone dn ch) as Hkg.
  { intros Hin%(Hbelow dp _ Hl). apply prefix_length in Hin. unfold dst in Hin. rewrite length_app in Hin. cbn in Hin. lia. }
  pose proof (holds_lookup _ _ _ _ Hh2 Hl) as Hhk. pose proof (proj1 (holds_dir _ _ _) Hhk) as [Hk2 _].
  pose proof (holds_lookup _ _ _ _ Hh2 Hx1) as Hhx2.
  assert (∀ j, j ∈ tkeys x → j ∉ mv_gone dn ch) as Hxg.
  { intros j Hj Hin. destruct (key_lookup x j (tsorted_lookup _ _ _ Hso2 Hx1) Hj) as (u & y & Hu & Hy).
    assert (tlookup t1 (src ++ u) = Some y) as Hsu by by rewrite tlookup_app, Hx1.
    rewrite <- Hy in Hin. pose proof (Hbelow _ _ Hsu Hin) as Hpre.
    by destruct (prefix_weak_total src dst (src ++ u)) as [Hp|Hp]; [apply prefix_app_r|exact Hpre|apply Hsd|apply Hds]. }
  assert (holds (view c3) x) as Hhx3.
  { eapply holds_frame; [|exact Hhx2]. intros j Hj. rewrite Hv3, decide_False; auto. }
  assert (fresh_for (view c3) (rng c3) (blen (tkeys x))) as Hf3.
  { rewrite Hr3. intros i Hi. rewrite Hv3. case_decide; [done|]. by apply Hf2. }
  destruct (deep_copy_spec x fuel) with (c := c3) as (c4 & E4 & Hh4 & Hc4 & Hr4 & Hb4 & Hv4); [|done..|lia|].
  { apply height_lookup in Hx. lia. }
  rewrite (sbind_Ok _ _ _ _ _ E4). rewrite Hr3, Hr2 in *. rewrite Hl.
  pose proof (copy_ok_all x s1) as Hok. unfold copy_ok in Hok.
  assert (word s1) as Hw1 by (rewrite <- Hr2; apply Hc2). specialize (Hok Hw1).
  destruct (t_copy x s1) as [x' s2]. cbn [fst snd] in *. destruct Hok as (Es2 & Ekx & _ & Eax).
  assert (k ∉ keys_from s1 (blen (tkeys x))) as Hkf.
  { rewrite <- Hr2. apply (fresh_disjoint c2 _ _ Hhk); [by rewrite Hr2|left]. }
  destruct (link_child_spec c4 k dn (nth_key s1 0) (ckeys ch) Hc4) as (c5 & E5 & (Hc5 & Hv5 & Hr5 & Hb5) & _).
  { by rewrite Hv4, Hv3, decide_False. }
  { apply dir_ok_insert; [by apply (view_dir_ok c2 k)|apply nth_key_ok|].
    destruct (path_fits_last dp dn t (rng c) t1 s1 k ch Hso Hfit Et Hl) as [?|[y Hy]]; [by right|left].
    rewrite bt_get_ckeys, Hy. eauto. }
  exists c5, (m + blen (tkeys x)). split_and!; [exact E5| |lia|congruence]. cbn [t_link].
  apply changes_steps; [done|]. eapply changes_trans; [exact Hch| |done|intros i Hi; apply Hf; lia].
  eapply (changes_at c2 t1 dp (ADir k ch) c5 _ (blen (tkeys x))); [done..| |rewrite Hr2; exact Hf2].
  pose proof (tsorted_lookup _ _ _ Hso2 Hl) as [Hs _]%tsorted_dir.
  pose proof (sub_nodup _ _ _ Hso2 Hnd2 Hl) as Hndk.
  pose proof (bt_insert_perm ch dn x' Hs) as Hperm.
  assert (∃ m1 old m2, ch = m1 ++ old ++ m2 ∧ bt_insert ch dn x' = m1 ++ [(dn, x')] ++ m2 ∧ chkeys old = mv_gone dn ch)
    as (m1 & old & m2 & Ech & Ei & Eold).
  { unfold mv_gone. destruct (bt_get ch dn) as [e|]; destruct Hperm as (m1 & m2 & ? & ?).
    - exists m1, [(dn, e)], m2. split_and!; [done..|]. cbn. by rewrite app_nil_r.
    - by exists m1, [], m2. }
  assert (view c5 k = Some (NDir (ckeys (bt_insert ch dn x')))) as Hvk.
  { rewrite Hv5, upd_eq, ckeys_insert. by rewrite Eax. }
  assert (chkeys [(dn, x')] = keys_from s1 (blen (tkeys x))) as Enew by (cbn; by rewrite app_nil_r).
  rewrite Ei in Hvk |- *. clear Ei Hperm. rewrite <- Eold in *. clear Eold.
  rewrite Ech in Hhk, Hndk. rewrite Ech at 1.
  apply (changes_children c2 k m1 old [(dn, x')] m2); try done; rewrite ?Enew.
  - constructor; [|constructor]. cbn. eapply holds_frame; [|exact Hh4]. intros j Hj. rewrite Hv5, upd_ne; [done|].
    intros ->. apply Hkf. by rewrite <- Ekx.
  - apply keys_from_nodup. lia.
  - rewrite Hr2. intros j (i & ? & ?)%keys_from_elem. right. by exists i.
  - intros j Hjk Hjo Hjn. by rewrite Hv5, upd_ne, Hv4, Hv3, decide_False.
  - intros j Hjo Hjn. rewrite Hv5, upd_ne, Hv4, Hv3, decide_True; [done..|]. by intros ->.
  - rewrite Hr2. exact Hf2.
  - rewrite Hr2. congruence.
  - congruence.
Qed.
End fsmove.
