(* ===== verification/TreeLaws.v ===== *)
(** * What the abstract operations do to a tree

    The abstract operations of [Refine] and [FsMove] by lookups: what a path names
    afterwards, and that everything elsewhere is untouched. *)
From S2P Require Import Prelude BTree Key Path Ctx Tree Refine Move FsMove.

(** Away from the paths [ps] nothing changes, and their ancestors stay the same
    nodes. *)
Definition keeps (t t' : atree) (ps : list APath) : Prop :=
  ∀ q, Forall (λ p, ¬ p `prefix_of` q) ps →
    (Forall (λ p, ¬ q `prefix_of` p) ps → tlookup t' q = tlookup t q) ∧
    (∀ x, tlookup t q = Some x → ∃ x', tlookup t' q = Some x' ∧ akey x' = akey x ∧ is_dir x' = is_dir x).

(** A file stands in the way of a directory path. *)
Definition blocked (t : atree) (p : APath) : Prop :=
  ∃ q k b, q `prefix_of` p ∧ tlookup t q = Some (AFile k b).

Lemma keeps_refl t ps : keeps t t ps.
Proof. intros q _. eauto. Qed.

Lemma keeps_trans t t1 t2 ps qs : keeps t t1 ps → keeps t1 t2 qs → keeps t t2 (ps ++ qs).
Proof.
  intros H1 H2 q [Hp Hq]%Forall_app. destruct (H1 q Hp) as [E1 K1], (H2 q Hq) as [E2 K2]. split.
  - intros [? ?]%Forall_app. by rewrite E2, E1.
  - intros x (x1 & (x2 & ? & ? & ?)%K2 & ? & ?)%K1. exists x2. split_and!; congruence.
Qed.

Lemma keeps_incl t t' ps qs : keeps t t' ps → ps ⊆ qs → keeps t t' qs.
Proof.
  intros Hk Hi q Hq. rewrite Forall_forall in Hq.
  destruct (Hk q) as [E K]; [apply Forall_forall; auto|].
  split; [|done]. intros Hp. rewrite Forall_forall in Hp. apply E, Forall_forall. auto.
Qed.

Lemma keeps_1 t t' p :
  (∀ q, ¬ p `prefix_of` q →
    (¬ q `prefix_of` p → tlookup t' q = tlookup t q) ∧
    (∀ x, tlookup t q = Some x → ∃ x', tlookup t' q = Some x' ∧ akey x' = akey x ∧ is_dir x' = is_dir x)) →
  keeps t t' [p].
Proof.
  intros Hk q Hq. rewrite Forall_singleton in Hq |- *. destruct (Hk q Hq) as [E K]. by split.
Qed.

Lemma keeps_use t t' p : keeps t t' [p] → ∀ q, ¬ p `prefix_of` q →
    (¬ q `prefix_of` p → tlookup t' q = tlookup t q) ∧
    (∀ x, tlookup t q = Some x → ∃ x', tlookup t' q = Some x' ∧ akey x' = akey x ∧ is_dir x' = is_dir x).
Proof.
  intros Hk q Hq. destruct (Hk q) as [E K]; [by rewrite Forall_singleton|].
  rewrite Forall_singleton in E. by split.
Qed.

(** ** Replacing a subtree *)

Lemma tlookup_cons k ch n q : tlookup (ADir k ch) (n :: q) = match bt_get ch n with Some c => tlookup c q | None => None end.
Proof. done. Qed.

Lemma treplace_keeps p : ∀ t s s',
  tsorted t → tlookup t p = Some s → akey s' = akey s → is_dir s' = is_dir s →
  ∀ q, ¬ p `prefix_of` q →
    (¬ q `prefix_of` p → tlookup (treplace t p s') q = tlookup t q) ∧
    (∀ x, tlookup t q = Some x → ∃ x', tlookup (treplace t p s') q = Some x' ∧ akey x' = akey x ∧ is_dir x' = is_dir x).
Proof.
  induction p as [|n p IH]; intros t s s' Hso Hl Ha Hd q Hq; [destruct Hq; apply prefix_nil|].
  cbn [tlookup] in Hl. destruct t as [|k ch]; [done|]. apply tsorted_dir in Hso as [Hs Hch].
  destruct (bt_get ch n) as [c|] eqn:Hg; [|done]. cbn [treplace]. rewrite Hg.
  destruct q as [|m q].
  - split; [intros []; apply prefix_nil|]. intros x [= <-]. eauto.
  - rewrite !tlookup_cons, bt_get_insert by done. case_decide as Hm; [subst m|by split; eauto].
    rewrite Hg. apply bt_get_Some_in in Hg. rewrite Forall_forall in Hch.
    destruct (IH c s s' (Hch _ Hg) Hl Ha Hd q) as [E K].
    { intros ?. by apply Hq, prefix_cons. }
    split; [|done]. intros Hqp. apply E. intros ?. by apply Hqp, prefix_cons.
Qed.

Lemma tlookup_replace_below t p s s' r :
  tsorted t → tlookup t p = Some s → tlookup (treplace t p s') (p ++ r) = tlookup s' r.
Proof. intros Hso Hl. by rewrite tlookup_app, (tlookup_replace t p s s' Hso Hl). Qed.

Lemma treplace_twice p : ∀ t s a b,
  tsorted t → tlookup t p = Some s → treplace (treplace t p a) p b = treplace t p b.
Proof.
  induction p as [|n p IH]; intros t s a b Hso; cbn [tlookup treplace]; [done|].
  destruct t as [|k ch]; [done|]. apply tsorted_dir in Hso as [Hs Hch].
  destruct (bt_get ch n) as [x|] eqn:Hg; [|done]. intros Hl. rewrite bt_get_insert_eq by done.
  rewrite bt_insert_insert by done. apply bt_get_Some_in in Hg. rewrite Forall_forall in Hch.
  by rewrite (IH x s a b (Hch _ Hg) Hl).
Qed.

Lemma treplace_same p : ∀ t s, tsorted t → tlookup t p = Some s → treplace t p s = t.
Proof.
  induction p as [|n p IH]; intros t s Hso; cbn [tlookup treplace]; [by intros [= ->]|].
  destruct t as [|k ch]; [done|]. apply tsorted_dir in Hso as [Hs Hch].
  destruct (bt_get ch n) as [x|] eqn:Hg; [|done]. intros Hl. pose proof Hg as Hg'.
  apply bt_get_Some_in in Hg'. rewrite Forall_forall in Hch. rewrite (IH x s (Hch _ Hg') Hl).
  by rewrite bt_insert_present.
Qed.

(** Putting a child under a directory. *)
Lemma put_child_keeps t p k ch n x :
  tsorted t → tlookup t p = Some (ADir k ch) →
  keeps t (treplace t p (ADir k (bt_insert ch n x))) [p ++ [n]].
Proof.
  intros Hso Hl. apply keeps_1. intros q Hq.
  pose proof (tsorted_lookup _ _ _ Hso Hl) as [Hs _]%tsorted_dir.
  destruct (decide (p `prefix_of` q)) as [[r ->]|Hp].
  - rewrite (tlookup_replace_below t p _ _ r Hso Hl), tlookup_app, Hl.
    destruct r as [|m r].
    { rewrite app_nil_r. split; [intros []; by apply prefix_app_r|]. intros y [= <-]. eauto. }
    rewrite !tlookup_cons, bt_get_insert by done. case_decide as Hm; [|split; eauto].
    destruct Hq. subst m. exists r. by rewrite <- app_assoc.
  - destruct (treplace_keeps p t (ADir k ch) (ADir k (bt_insert ch n x)) Hso Hl eq_refl eq_refl q Hp) as [E K].
    split; [|done]. intros Hqp. apply E. intros ?. apply Hqp. by apply prefix_app_r.
Qed.

Lemma put_child_lookup t p k ch n x r :
  tsorted t → tlookup t p = Some (ADir k ch) →
  tlookup (treplace t p (ADir k (bt_insert ch n x))) (p ++ n :: r) = tlookup x r.
Proof.
  intros Hso Hl. rewrite (tlookup_replace_below t p _ _ _ Hso Hl), tlookup_cons.
  pose proof (tsorted_lookup _ _ _ Hso Hl) as [Hs _]%tsorted_dir. by rewrite bt_get_insert_eq.
Qed.

Lemma put_child_dirs t p k ch n x q d :
  tsorted t → tlookup t p = Some (ADir k ch) → q `prefix_of` p → tlookup t q = Some d →
  ∃ d', tlookup (treplace t p (ADir k (bt_insert ch n x))) q = Some d' ∧ is_dir d' = is_dir d.
Proof.
  intros Hso Hl Hq Hd. destruct (keeps_use _ _ _ (put_child_keeps t p k ch n x Hso Hl) q) as [_ K].
  - intros Hp%prefix_length. apply prefix_length in Hq.
    rewrite length_app in Hp. cbn in Hp. lia.
  - destruct (K d Hd) as (d' & ? & _ & ?). eauto.
Qed.

(** ** Creating directories *)

Lemma tsorted_insert k ch n x : tsorted (ADir k ch) → tsorted x → tsorted (ADir k (bt_insert ch n x)).
Proof.
  rewrite !tsorted_dir. intros [Hs Hc] Hx. split; [by apply bt_sorted_insert|].
  pose proof (bt_insert_perm ch n x Hs) as Hp. destruct (bt_get ch n); destruct Hp as (m1 & m2 & -> & ->).
  - apply Forall_app in Hc as [? Hc]. inversion Hc; subst. apply Forall_app. split; [done|]. by constructor.
  - apply Forall_app in Hc as [? ?]. apply Forall_app. split; [done|]. by constructor.
Qed.

Lemma ensure_cases p : ∀ t s, is_dir t = true →
  (blocked t p ∧ t_ensure t p s = Err (CannotAccess "'{name}' is a file, not a directory")) ∨
  (¬ blocked t p ∧ ∃ t' s', t_ensure t p s = Ok (t', s')).
Proof.
  induction p as [|n p IH]; intros t s Hd; cbn [t_ensure].
  - right. split; [|eauto]. intros (q & k & b & Hq%prefix_nil_inv & Hl). subst q. injection Hl as ->. done.
  - destruct t as [|k ch]; [done|]. destruct (bt_get ch n) as [c|] eqn:Hg.
    + destruct c as [kc bc|kc cc]; cbn [is_dir].
      * left. split; [|done]. exists [n], kc, bc. split; [apply prefix_cons, prefix_nil|]. cbn. by rewrite Hg.
      * destruct (IH (ADir kc cc) s eq_refl) as [[(q & k' & b & Hq & Hl) E]|[Hb (t' & s' & E)]]; rewrite E; cbn [rbind].
        -- left. split; [|done]. exists (n :: q), k', b. split; [by apply prefix_cons|]. by rewrite tlookup_cons, Hg.
        -- right. split; [|eauto]. intros (q & k' & b & Hq & Hl). destruct q as [|m q]; [done|].
           pose proof (prefix_cons_inv_1 _ _ _ _ Hq) as ->. apply prefix_cons_inv_2 in Hq.
           rewrite tlookup_cons, Hg in Hl. apply Hb. by exists q, k', b.
    + destruct (generate s) as [f s1]. destruct (t_ensure_fresh f p s1) as (t' & s' & E). rewrite E. cbn [rbind].
      right. split; [|eauto]. intros (q & k' & b & Hq & Hl). destruct q as [|m q]; [done|].
      pose proof (prefix_cons_inv_1 _ _ _ _ Hq) as ->. by rewrite tlookup_cons, Hg in Hl.
Qed.

(** After [mkdir -p p] every prefix of [p] is a directory, and nothing else
    changed. *)
Lemma ensure_law p : ∀ t s t' s',
  tsorted t → is_dir t = true → t_ensure t p s = Ok (t', s') →
  tsorted t' ∧ akey t' = akey t ∧
  (∀ q, q `prefix_of` p → ∃ k ch, tlookup t' q = Some (ADir k ch)) ∧
  (∀ q, ¬ q `prefix_of` p → tlookup t' q = tlookup t q).
Proof.
  induction p as [|n p IH]; intros t s t' s' Hso Hd; cbn [t_ensure].
  - intros [= <- <-]. split_and!; [done..| |done]. intros q ->%prefix_nil_inv. destruct t; [done|]. by eexists _, _.
  - destruct t as [|k ch]; [done|]. pose proof (proj1 (tsorted_dir _ _) Hso) as [Hs Hch].
    set (c0 := match bt_get ch n with Some c => c | None => ADir (generate s).1 [] end).
    set (s0 := match bt_get ch n with Some c => s | None => (generate s).2 end).
    assert (∀ c' s1, is_dir c0 = true → t_ensure c0 p s0 = Ok (c', s1) →
      (∀ q, bt_get ch n = None → ¬ q `prefix_of` p → tlookup c0 q = None) →
      let t' := ADir k (bt_insert ch n c') in
      tsorted t' ∧ akey t' = k ∧
      (∀ q, q `prefix_of` n :: p → ∃ k ch, tlookup t' q = Some (ADir k ch)) ∧
      (∀ q, ¬ q `prefix_of` n :: p → tlookup t' q = tlookup (ADir k ch) q)) as Hgo.
    { intros c' s1 Hdc E Hnew. assert (tsorted c0) as Hc0.
      { unfold c0. destruct (bt_get ch n) as [c|] eqn:Hg; [|repeat constructor].
        apply bt_get_Some_in in Hg. rewrite Forall_forall in Hch. by apply (Hch (n, c)). }
      destruct (IH c0 s0 c' s1 Hc0 Hdc E) as (Hsc & _ & Hpre & Hout). cbn zeta. split_and!; [by apply tsorted_insert|done|..].
      - intros q Hq. destruct q as [|m q]; [by eexists _, _|]. pose proof (prefix_cons_inv_1 _ _ _ _ Hq) as ->.
        apply prefix_cons_inv_2 in Hq. rewrite tlookup_cons, bt_get_insert_eq by done. by apply Hpre.
      - intros q Hq. destruct q as [|m q]; [destruct Hq; apply prefix_nil|].
        rewrite !tlookup_cons, bt_get_insert by done. case_decide as Hm; [subst m|done].
        assert (¬ q `prefix_of` p) as Hqp by (intros ?; by apply Hq, prefix_cons). rewrite Hout by done.
        unfold c0. destruct (bt_get ch n) eqn:Hg; [done|]. specialize (Hnew q eq_refl Hqp). unfold c0 in Hnew. done. }
    unfold c0, s0 in Hgo. destruct (bt_get ch n) as [c|] eqn:Hg.
    + destruct (is_dir c) eqn:Hdc; [|done]. intros ([c' s1] & E & [= <- <-])%rbind_Ok. by apply (Hgo c' s1).
    + destruct (generate s) as [f s1] eqn:Eg. cbn [fst snd] in Hgo. intros ([c' s2] & E & [= <- <-])%rbind_Ok.
      apply (Hgo c' s2); try done. intros q _ Hq. destruct q as [|m q]; [destruct Hq; apply prefix_nil|done].
Qed.

(** Creating directories towards a path keeps everything but the path. *)
Lemma ensure_keeps p n t s t' s' :
  tsorted t → is_dir t = true → t_ensure t p s = Ok (t', s') → keeps t t' [p ++ [n]].
Proof.
  intros Hso Hd E. destruct (ensure_law p t s t' s' Hso Hd E) as (_ & _ & Hpre & Hout).
  apply keeps_1. intros q Hq. split.
  - intros Hqp. apply Hout. intros ?. by apply Hqp, prefix_app_r.
  - intros x Hx. destruct (ensure_lookup p t s t' s' q x Hso E Hx) as (x' & Hx' & Ha & Heq).
    exists x'. split_and!; [done..|]. destruct (decide (q `prefix_of` p)) as [Hqp|Hqp]; [|by rewrite Heq].
    destruct (Hpre q Hqp) as (k & ch & Hq'). rewrite Hx' in Hq'. injection Hq' as ->.
    destruct x as [kx bx|]; [|done].
    destruct (ensure_cases p t s Hd) as [[_ E']|[Hb _]]; [congruence|]. destruct Hb. by exists q, kx, bx.
Qed.

Lemma ensure_state p : ∀ t s t' s',
  word s → t_ensure t p s = Ok (t', s') → ∃ m, 0 ≤ m ≤ blen p ∧ s' = state_at s (2 * m).
Proof.
  induction p as [|n p IH]; intros t s t' s' Hs; cbn [t_ensure].
  - intros [= <- <-]. exists 0. split; [by cbn|]. by rewrite Z.mul_0_r, state_at_0.
  - rewrite blen_cons. destruct t as [|k ch]; [done|]. destruct (bt_get ch n) as [c|].
    + destruct (is_dir c); [|done]. intros ([c' s1] & (m & ? & ->)%IH & [= <- <-])%rbind_Ok; [|done].
      exists m. split; [lia|done].
    + rewrite (generate_word s Hs). intros ([c' s2] & (m & ? & ->)%IH & [= <- <-])%rbind_Ok; [|apply as_u64_word].
      exists (1 + m). split; [lia|]. rewrite state_at_add. f_equal. lia.
Qed.

(** ** The operations *)

(** The file is at its path, with its old key if a file was there. *)
Definition stored (t t' : atree) (path : APath) (blob : bytes) : Prop :=
  keeps t t' [path] ∧
  ∃ k, tlookup t' path = Some (AFile k blob) ∧ ∀ k0 b, tlookup t path = Some (AFile k0 b) → k = k0.

Definition removed (t t' : atree) (path : APath) : Prop :=
  keeps t t' [path] ∧ ∀ q, path `prefix_of` q → tlookup t' q = None.

(** The subtree is at its new path, node for node, and gone from the old one. *)
Definition moved (t t' : atree) (src dst : APath) : Prop :=
  keeps t t' [src; dst] ∧
  (∀ r, tlookup t' (dst ++ r) = tlookup t (src ++ r)) ∧
  ∀ q, src `prefix_of` q → tlookup t' q = None.

(** The destination holds the same contents under keys the tree did not have. *)
Definition copied_to (t t' : atree) (src dst : APath) : Prop :=
  keeps t t' [dst] ∧
  ∃ x x', tlookup t src = Some x ∧ tlookup t' src = Some x ∧ tlookup t' dst = Some x' ∧
    erase x' = erase x ∧ ∀ j, j ∈ tkeys x' → j ∉ tkeys t.

Lemma store_law t p n blob s t' s' :
  tsorted t → is_dir t = true → t_store t (p ++ [n]) blob s = Ok (t', s') → stored t t' (p ++ [n]) blob.
Proof.
  intros Hso Hd. unfold t_store. rewrite APath_split_last_snoc. intros ([t1 s1] & E & H)%rbind_Ok.
  destruct (ensure_law p t s t1 s1 Hso Hd E) as (Hso1 & _ & Hpre & Hout).
  destruct (Hpre p) as (k & ch & Hl); [done|]. rewrite Hl in H. cbn [t_put] in H.
  assert (∃ f, t' = treplace t1 p (ADir k (bt_insert ch n (AFile f blob))) ∧
               (∀ f0 b, bt_get ch n = Some (AFile f0 b) → f = f0)) as (f & -> & Hf).
  { destruct (bt_get ch n) as [[f b|kc cc]|].
    - injection H as <- <-. exists f. split; [done|]. by intros ?? [= ->].
    - destruct (generate s1) as [f s2]. injection H as <- <-. by exists f.
    - destruct (generate s1) as [f s2]. injection H as <- <-. by exists f. }
  split.
  - eapply keeps_incl; [eapply keeps_trans; [by eapply (ensure_keeps p n)|by apply put_child_keeps]|]. set_solver.
  - exists f. split; [by apply put_child_lookup|]. intros k0 b Hb. apply (Hf _ b).
    rewrite <- Hout in Hb. { rewrite tlookup_app, Hl in Hb. cbn in Hb. by destruct (bt_get ch n). }
    intros Hp%prefix_length. rewrite length_app in Hp. cbn in Hp. lia.
Qed.

Lemma remove_law p n t x :
  tsorted t → tlookup t (p ++ [n]) = Some x → removed t (t_remove t (p ++ [n])) (p ++ [n]).
Proof.
  intros Hso Hx. destruct (FsSpec.tlookup_snoc _ _ _ _ Hx) as (k & ch & Hl & Hg).
  rewrite (t_remove_replace p n t k ch Hl).
  pose proof (tsorted_lookup _ _ _ Hso Hl) as [Hs _]%tsorted_dir. split.
  - apply keeps_1. intros q Hq.
    destruct (decide (p `prefix_of` q)) as [[r ->]|Hp].
    + rewrite (tlookup_replace_below t p _ _ r Hso Hl), tlookup_app, Hl.
      destruct r as [|m r].
      { rewrite app_nil_r. split; [intros []; by apply prefix_app_r|]. intros y [= <-]. eauto. }
      rewrite !tlookup_cons, bt_get_remove by done. case_decide as Hm; [|split; eauto].
      destruct Hq. subst m. exists r. by rewrite <- app_assoc.
    + destruct (treplace_keeps p t (ADir k ch) (ADir k (bt_remove ch n)) Hso Hl eq_refl eq_refl q Hp) as [E K].
      split; [|done]. intros Hqp. apply E. intros ?. apply Hqp. by apply prefix_app_r.
  - intros q [r ->]. rewrite <- app_assoc. rewrite (tlookup_replace_below t p _ _ _ Hso Hl). cbn [app].
    rewrite tlookup_cons, bt_get_remove by done. by rewrite decide_True.
Qed.

Lemma mv_law t sp sn dp dn s t' s' :
  let src := sp ++ [sn] in let dst := dp ++ [dn] in
  tsorted t → is_dir t = true → ¬ src `prefix_of` dst → ¬ dst `prefix_of` src →
  t_mv t src dst s = Ok (t', s') → moved t t' src dst.
Proof.
  intros src dst Hso Hd Hsd Hds. unfold t_mv, dst. rewrite APath_split_last_snoc. fold dst.
  destruct (tlookup t src) as [x|] eqn:Hx; [|done]. intros ([t1 s1] & E & H)%rbind_Ok.
  destruct (ensure_law dp t s t1 s1 Hso Hd E) as (Hso1 & _ & Hpre & Hout).
  assert (tlookup t1 src = Some x) as Hx1.
  { rewrite Hout; [done|]. intros ?. by apply Hsd, prefix_app_r. }
  pose proof (remove_law sp sn t1 x Hso1 Hx1) as [Hk2 Hrm]. fold src in Hk2, Hrm.
  destruct (Hpre dp) as (k & ch & Hl); [done|].
  destruct (keeps_use _ _ _ Hk2 dp) as [_ K2]; [intros ?; by apply Hsd, prefix_app_r|].
  destruct (K2 _ Hl) as (d & Hl2 & Hkd & Hdd). destruct d as [|k2 ch2]; [done|]. cbn in Hkd. subst k2.
  rewrite Hl2 in H. cbn [t_link] in H. injection H as <- <-.
  assert (tsorted (t_remove t1 src)) as Hso2.
  { destruct (FsSpec.tlookup_snoc _ _ _ _ Hx1) as (ks & chs & Hls & _).
    unfold src. rewrite (t_remove_replace sp sn t1 ks chs Hls). eapply treplace_sorted; [done|exact Hls|].
    by apply tsorted_remove_child, (tsorted_lookup _ _ _ Hso1 Hls). }
  pose proof (put_child_keeps _ dp k ch2 dn x Hso2 Hl2) as Hk3. fold dst in Hk3.
  split_and!.
  - eapply keeps_incl; [eapply keeps_trans; [by eapply (ensure_keeps dp dn)|eapply keeps_trans; [exact Hk2|exact Hk3]]|].
    fold dst. set_solver.
  - intros r. unfold dst. rewrite <- app_assoc. change ([dn] ++ r) with (dn :: r). rewrite put_child_lookup by done. by rewrite tlookup_app, Hx.
  - intros q Hq. destruct (keeps_use _ _ _ Hk3 q) as [E3 _].
    + intros Hp. by destruct (prefix_weak_total src dst q) as [?|?].
    + rewrite E3; [by apply Hrm|]. intros Hp. apply Hsd. by etrans.
Qed.

Lemma cp_law t src dp dn s t' s' x :
  let dst := dp ++ [dn] in
  tsorted t → is_dir t = true → word s → ¬ src `prefix_of` dst → ¬ dst `prefix_of` src →
  tlookup t src = Some x → (∀ i, 0 ≤ i < blen dp + blen (tkeys x) → nth_key s i ∉ tkeys t) →
  t_cp t src dst s = Ok (t', s') → copied_to t t' src dst.
Proof.
  intros dst Hso Hd Hw Hsd Hds Hx Hfresh. unfold t_cp, dst. rewrite APath_split_last_snoc, Hx. fold dst.
  intros ([t1 s1] & E & H)%rbind_Ok.
  destruct (ensure_law dp t s t1 s1 Hso Hd E) as (Hso1 & _ & Hpre & Hout).
  destruct (ensure_state dp t s t1 s1 Hw E) as (m & Hm & ->).
  destruct (Hpre dp) as (k & ch & Hl); [done|]. rewrite Hl in H.
  pose proof (copy_ok_all x (state_at s (2 * m)) (as_u64_word _)) as Hc. unfold copy_ok in Hc.
  destruct (t_copy x (state_at s (2 * m))) as [x' s2]. destruct Hc as (_ & Ek & Ee & _).
  cbn [t_link] in H. injection H as <- <-.
  pose proof (put_child_keeps _ dp k ch dn x' Hso1 Hl) as Hk. fold dst in Hk. split.
  - eapply keeps_incl; [eapply keeps_trans; [by eapply (ensure_keeps dp dn)|exact Hk]|]. fold dst. set_solver.
  - exists x, x'. split_and!; [done| | |done|].
    + destruct (keeps_use _ _ _ Hk src Hds) as [E3 _]. rewrite E3 by done. rewrite Hout; [done|].
      intros ?. by apply Hsd, prefix_app_r.
    + unfold dst. by apply put_child_lookup.
    + intros j. rewrite Ek. intros (i & Hi & ->)%keys_from_elem. rewrite nth_key_state. apply Hfresh. lia.
Qed.
