(* ===== verification/Grab.v ===== *)
(** * The read surface of a transaction

    [txn/grab.rs]: the two primitives a transaction supplies ([Grab]) and the reads
    written once against them.  [GrabLaws] states what the primitives promise: they
    answer from one map of nodes and leave it as it is; the reads are then proved
    against the tree that map holds.  The [permissions], [entry-timestamps] and index
    parts of the trait are not here. *)
From S2P Require Import Prelude BTree Codec Ext Scalar Path Value Archived Access Key Dir Engine WriteBuffer Ctx Tree.

Class Grab (S : Type) := {
  g_resolve : APath → SM S (option AKey);
  g_entry_blob : AKey → SM S (option bytes);
}.

(** The entry a node is stored as. *)
Definition node_entry (x : node) : bytes :=
  match x with NDir m => dir_entry (encode_dir m) | NFile b => file_entry b end.

Class GrabLaws (S : Type) `{Grab S} := {
  g_ok : S → Prop;
  g_view : S → AKey → option node;
  g_dirs : ∀ s k m, g_ok s → g_view s k = Some (NDir m) → dir_ok m;
  g_resolve_law : ∀ s p, g_ok s →
    ∃ s', g_resolve p s = (Ok (vresolve (g_view s) ROOT p), s') ∧ g_ok s' ∧ ∀ k, g_view s' k = g_view s k;
  g_entry_blob_law : ∀ s k, g_ok s →
    ∃ s', g_entry_blob k s = (Ok (node_entry <$> g_view s k), s') ∧ g_ok s' ∧ ∀ j, g_view s' j = g_view s j;
}.

Section grab.
Context `{Ext} {S : Type} `{Grab S}.

(** [let Some(x) = m? else { return Ok(d) }]. *)
Definition or_return {A B} (m : SM S (option A)) (d : res B) (f : A → SM S B) : SM S B :=
  let! r := m in match r with Some a => f a | None => asks (λ _, d) end.

Definition grab_load_value (fuel : nat) (path : APath) : SM S (option Value) :=
  or_return (g_resolve path) (Ok None) (λ akey,
  or_return (g_entry_blob akey) (Ok None) (λ blob,
  asks (λ _,
    let? '(kind, payload) := entry_split blob in
    match kind with
    | KFile => let? v := decode fuel payload in Ok (Some v)
    | KDir => Err (CannotAccess "'{path}' is a directory, not a file")
    end))).

(** The accessor over the blob. *)
Definition grab_fetch (path : APath) : SM S (option ArchivedReader) :=
  or_return (g_resolve path) (Ok None) (λ akey,
  or_return (g_entry_blob akey) (Ok None) (λ blob,
  asks (λ _,
    let? kind := get_entry_kind blob in
    match kind with
    | KFile => let? r := ArchivedReader_new blob 1 in Ok (Some r)
    | KDir => Err (CannotAccess "'{path}' is a directory, not a file")
    end))).

Definition grab_get (path : APath) (at_path : VPath) : SM S (option Scalar) :=
  or_return (g_resolve path) (Ok None) (λ akey,
  or_return (g_entry_blob akey) (Ok None) (λ blob,
  asks (λ _,
    let? '(kind, payload) := entry_split blob in
    match kind with
    | KDir => Ok None
    | KFile =>
        let? root := archived_new payload in
        let? found := navigate payload root at_path in
        match found with
        | None => Ok None
        | Some off => node_scalar_if_leaf payload off
        end
    end))).

Definition grab_kind (path : APath) : SM S (option EntryKind) :=
  or_return (g_resolve path) (Ok None) (λ akey,
  or_return (g_entry_blob akey) (Ok None) (λ blob,
  asks (λ _, let? k := get_entry_kind blob in Ok (Some k)))).

Definition grab_exists (path : APath) : SM S bool :=
  let! k := grab_kind path in sret (bool_decide (is_Some k)).

(** [for (name, child) in dir.entries()? { .. out.push(..) }] *)
Fixpoint ls_loop (entries : list (bytes * AKey)) (out : list Entry) : SM S (list Entry) :=
  match entries with
  | [] => sret out
  | (name, child) :: entries =>
      let! blob := g_entry_blob child in
      let! blob := asks (λ _, ok_or blob (Corrupt "a directory entry points at a missing a-node")) in
      let! kind := asks (λ _, get_entry_kind blob) in
      ls_loop entries (out ++ [mkEntry name kind])
  end.

Definition grab_ls (path : APath) : SM S (list Entry) :=
  or_return (g_resolve path) (Err ValueNotFound) (λ akey,
  or_return (g_entry_blob akey) (Ok []) (λ blob,
    let! '(kind, payload) := asks (λ _, entry_split blob) in
    match kind with
    | KFile => serr (CannotAccess "'{path}' is a file, not a directory")
    | KDir =>
        let! entries := asks (λ _, let? d := ArchivedDir_new payload in dir_entries d) in
        ls_loop entries []
    end)).

(** ** The reads against the tree *)

Context `{!GrabLaws S}.

Definition same (s s' : S) : Prop := g_ok s' ∧ ∀ k, g_view s' k = g_view s k.

Lemma same_trans s1 s2 s3 : same s1 s2 → same s2 s3 → same s1 s3.
Proof. intros [_ H1] [? H2]. split; [done|]. intros k. by rewrite H2, H1. Qed.

Definition tnode (t : atree) : node :=
  match t with AFile _ b => NFile b | ADir _ ch => NDir (ckeys ch) end.
Definition t_kind (t : atree) : EntryKind := if is_dir t then KDir else KFile.

Lemma holds_akey v t : holds v t → v (akey t) = Some (tnode t).
Proof. destruct t; [done|]. by intros [? _]%holds_dir. Qed.

(** Resolving a path and fetching what it names, against the tree. *)
Lemma grab_at {A} (s : S) t p (f : AKey → bytes → SM S A) (d g : res A) :
  g_ok s → holds (g_view s) t → akey t = ROOT →
  ∃ s', same s s' ∧
    or_return (g_resolve p) d (λ akey, or_return (g_entry_blob akey) g (f akey)) s =
      match tlookup t p with
      | None => (d, s')
      | Some x => f (akey x) (node_entry (tnode x)) s'
      end.
Proof.
  intros Hok Hh Hk. destruct (g_resolve_law s p Hok) as (s1 & E1 & Hok1 & Hv1).
  rewrite <- Hk, (holds_vresolve _ _ _ Hh) in E1. unfold or_return. rewrite (sbind_Ok _ _ _ _ _ E1).
  destruct (tlookup t p) as [x|] eqn:Hx; cbn [fmap option_fmap option_map]; [|by exists s1].
  destruct (g_entry_blob_law s1 (akey x) Hok1) as (s2 & E2 & Hok2 & Hv2).
  rewrite Hv1, (holds_akey _ _ (holds_lookup _ _ _ _ Hh Hx)) in E2.
  exists s2. split; [by apply (same_trans _ s1)|]. by rewrite (sbind_Ok _ _ _ _ _ E2).
Qed.

Lemma grab_read {A} (s : S) t p (f : bytes → res A) (d g : res A) :
  g_ok s → holds (g_view s) t → akey t = ROOT →
  ∃ s', same s s' ∧
    or_return (g_resolve p) d (λ akey, or_return (g_entry_blob akey) g (λ blob, asks (λ _, f blob))) s =
      (match tlookup t p with None => d | Some x => f (node_entry (tnode x)) end, s').
Proof.
  intros Hok Hh Hk. destruct (grab_at s t p (λ _ blob, asks (λ _, f blob)) d g Hok Hh Hk) as (s' & Hs & E).
  exists s'. split; [done|]. rewrite E. by destruct (tlookup t p).
Qed.

Lemma ls_loop_spec ch : ∀ s out,
  g_ok s → Forall (λ e, holds (g_view s) e.2) ch →
  ∃ s', same s s' ∧ ls_loop (ckeys ch) out s = (Ok (out ++ map (λ e, mkEntry e.1 (t_kind e.2)) ch), s').
Proof.
  induction ch as [|[n x] ch IH]; intros s out Hok Hh; cbn [ckeys map ls_loop fst snd].
  - exists s. by rewrite app_nil_r.
  - inversion Hh as [|?? Hx Hh']; subst. cbn [snd] in Hx.
    destruct (g_entry_blob_law s (akey x) Hok) as (s1 & E1 & Hok1 & Hv1). rewrite (holds_akey _ _ Hx) in E1.
    rewrite (sbind_Ok _ _ _ _ _ E1). cbn [fmap option_fmap option_map ok_or].
    rewrite (sbind_asks _ _ _ (node_entry (tnode x))) by done.
    rewrite (sbind_asks _ _ _ (t_kind x)) by by destruct x.
    destruct (IH s1 (out ++ [mkEntry n (t_kind x)]) Hok1) as (s2 & Hs2 & E2).
    { eapply Forall_impl; [exact Hh'|]. intros e. apply holds_frame. intros j _. apply Hv1. }
    exists s2. split; [by apply (same_trans _ s1)|]. change (map (λ e, (e.1, akey e.2)) ch) with (ckeys ch).
    by rewrite E2, <- app_assoc.
Qed.

(** C16: What a transaction says about a path is what the tree has there: the kind
    and the existence of whatever the path names, and for a directory the names
    and kinds of its children in name order; a file is not listed and an absent
    path is an error. Reads change nothing a later read can see. *)
Theorem path_reads_agree s t p :
  g_ok s → holds (g_view s) t → akey t = ROOT →
  (∃ s', same s s' ∧ grab_kind p s = (Ok (t_kind <$> tlookup t p), s')) ∧
  (∃ s', same s s' ∧ grab_exists p s = (Ok (bool_decide (is_Some (tlookup t p))), s')) ∧
  (∃ s', same s s' ∧ grab_ls p s =
     (match tlookup t p with
      | None => Err ValueNotFound
      | Some (AFile _ _) => Err (CannotAccess "'{path}' is a file, not a directory")
      | Some (ADir _ ch) => Ok (map (λ e, mkEntry e.1 (t_kind e.2)) ch)
      end, s')).
Proof.
  intros Hok Hh Hk.
  assert (∃ s', same s s' ∧ grab_kind p s = (Ok (t_kind <$> tlookup t p), s')) as Hkind.
  { unfold grab_kind. edestruct (grab_read (A := option EntryKind) s t p) as (s' & Hs & E); [done..|].
    exists s'. split; [done|]. rewrite E. by destruct (tlookup t p) as [[]|]. }
  split_and!; [done| |].
  - destruct Hkind as (s' & Hs & E). exists s'. split; [done|]. unfold grab_exists.
    rewrite (sbind_Ok _ _ _ _ _ E). by destruct (tlookup t p).
  - unfold grab_ls.
    edestruct (grab_at (A := list Entry) s t p) as (s' & Hs & E); [done..|]. rewrite E. clear E.
    destruct (tlookup t p) as [[k b|k ch]|] eqn:Hx; [by exists s'| |by exists s'].
    pose proof (holds_lookup _ _ _ _ Hh Hx) as [Hdk Hch]%holds_dir. destruct Hs as [Hok' Hv'].
    rewrite <- Hv' in Hdk. pose proof (g_dirs _ _ _ Hok' Hdk) as Hd. cbn [akey tnode node_entry].
    rewrite (sbind_asks _ _ _ (KDir, encode_dir (ckeys ch))) by done.
    rewrite (sbind_asks _ _ _ (ckeys ch)) by by (rewrite ArchivedDir_new_ok; cbn [rbind]; [apply dir_entries_lemma|]).
    destruct (ls_loop_spec ch s' [] Hok') as (s2 & Hs2 & E2).
    { eapply Forall_impl; [exact Hch|]. intros e. apply holds_frame. intros j _. apply Hv'. }
    exists s2. split; [|done]. by apply (same_trans _ s').
Qed.

(** C15: Reading a stored value through a transaction gives the value back: loading
    the file whole, reading the scalar at any value path, and opening an accessor
    that answers every query like the value itself; a directory is refused by the
    whole-value reads and has no scalars, and nothing is read at an absent path. *)
Theorem value_reads_agree `{!ExtLaws} fuel s t p at_path :
  g_ok s → holds (g_view s) t → akey t = ROOT → vpath_str_ok at_path →
  match tlookup t p with
  | Some (AFile _ b) =>
      ∀ v, b = encode v → value_ok v → blen b < 2 ^ 32 → (depth v ≤ fuel)%nat →
        (∃ s', same s s' ∧ grab_load_value fuel p s = (Ok (Some v), s')) ∧
        (∃ s', same s s' ∧ grab_get p at_path s = (Ok (subtree v at_path ≫= leaf), s')) ∧
        (∃ s' r, same s s' ∧ grab_fetch p s = (Ok (Some r), s') ∧ reader_agrees r v at_path)
  | Some (ADir _ _) =>
      (∃ s' e, same s s' ∧ grab_load_value fuel p s = (Err (CannotAccess e), s')) ∧
      (∃ s', same s s' ∧ grab_get p at_path s = (Ok None, s')) ∧
      (∃ s' e, same s s' ∧ grab_fetch p s = (Err (CannotAccess e), s'))
  | None =>
      (∃ s', same s s' ∧ grab_load_value fuel p s = (Ok None, s')) ∧
      (∃ s', same s s' ∧ grab_get p at_path s = (Ok None, s')) ∧
      (∃ s', same s s' ∧ grab_fetch p s = (Ok None, s'))
  end.
Proof.
  intros Hok Hh Hk Hp. unfold grab_load_value, grab_get, grab_fetch.
  edestruct (grab_read (A := option Value) s t p) as (s1 & Hs1 & E1); [done..|].
  edestruct (grab_read (A := option Scalar) s t p) as (s2 & Hs2 & E2); [done..|].
  edestruct (grab_read (A := option ArchivedReader) s t p) as (s3 & Hs3 & E3); [done..|].
  destruct (tlookup t p) as [[k b|k ch]|].
  - intros v -> Hv Hb Hd. split_and!.
    + exists s1. split; [done|]. rewrite E1. cbn. by rewrite decode_encode_lemma.
    + exists s2. split; [done|]. rewrite E2. cbn. destruct (encode_new v Hb) as (root & -> & Hr). cbn [rbind].
      pose proof (navigate_repr (encode v) Hb at_path root v Hp Hv Hr) as Hn.
      destruct (subtree v at_path) as [c|] eqn:Hc; simpl in Hn; [|by rewrite Hn].
      destruct Hn as (off & -> & Hoff). cbn [rbind]. f_equal.
      apply (scalar_if_leaf_repr _ Hb _ c); [by eapply subtree_value_ok|done].
    + destruct (archived_reader_lemma TAG_FILE v at_path Hv Hp Hb) as (r & Hr & Ha).
      exists s3, r. split_and!; [done| |done]. rewrite E3. cbn. change (TAG_FILE :: encode v) with (file_entry (encode v)) in Hr.
      by rewrite Hr.
  - split_and!; [exists s1|exists s2|exists s3].
    + eexists. split; [done|]. by rewrite E1.
    + split; [done|]. by rewrite E2.
    + eexists. split; [done|]. by rewrite E3.
  - split_and!; [exists s1|exists s2|exists s3]; (split; [done|]); [by rewrite E1|by rewrite E2|by rewrite E3].
Qed.
End grab.
