(* ===== verification/Write.v ===== *)
(** * The write transaction

    [txn/write.rs] for a table without registered indexes: the guards of every
    mutation, the reads over the transaction's own uncommitted state, the mutable
    cursor's scalar write, and the flush at commit.  The context of [Ctx] is the
    transaction's state (its data table, write-back cache and the key generator). *)
From S2P Require Import Prelude BTree Codec Ext Scalar Path Value Archived Access Key Dir Engine WriteBuffer Ctx Fs Tree Grab.

Section write.
Context `{Ext} {T : Type} `{KV T Z bytes}.

Definition is_root (p : APath) : bool := match p with [] => true | _ => false end.

(** ** Reads over the uncommitted state *)

Fixpoint resolve_buffered_from (akey : AKey) (names : APath) (c : Ctx T) : res (option AKey) :=
  match names with
  | [] => Ok (Some akey)
  | name :: rest =>
      let? next :=
        match (if dirty (wb c) then wb_read (wb c) (λ d, d !! akey) else None) with
        | Some children => Ok (bt_get children name)
        | None => child_of (data c) akey name
        end in
      match next with
      | Some ch => resolve_buffered_from ch rest c
      | None => Ok None
      end
  end.

Definition resolve_buffered (path : APath) (c : Ctx T) : res (option AKey) :=
  resolve_buffered_from ROOT path c.

Definition write_entry_blob (akey : AKey) (c : Ctx T) : res (option bytes) :=
  match (if dirty (wb c) then wb_read (wb c) (λ d, (λ children, dir_entry (encode_dir children)) <$> d !! akey) else None) with
  | Some blob => Ok (Some blob)
  | None =>
      match file_get (wb c) akey with
      | Some entry => Ok (Some entry)
      | None => read_entry (data c) akey
      end
  end.

#[export] Instance WriteTxn_Grab : Grab (Ctx T) := {
  g_resolve path := asks (resolve_buffered path);
  g_entry_blob akey := asks (write_entry_blob akey);
}.

Definition resolve_with_kind (path : APath) (c : Ctx T) : res (option AKey * option EntryKind) :=
  let? akey := resolve_buffered path c in
  match akey with
  | None => Ok (None, None)
  | Some akey =>
      let? kind :=
        if dirty (wb c) && wb_read (wb c) (λ d, bool_decide (is_Some (d !! akey))) then Ok (Some KDir)
        else fetch_entry_kind (data c) akey in
      Ok (Some akey, kind)
  end.

(** [fetch_mut]: the key and structure epoch the mutable cursor carries. *)
Definition fetch_mut (path : APath) (c : Ctx T) : res (option (AKey * Z)) :=
  let? '(resolved, kind) := resolve_with_kind path c in
  match resolved, kind with
  | Some akey, Some KFile => Ok (Some (akey, structure_epoch (wb c)))
  | Some _, Some KDir => Err (CannotAccess "'{apath}' is a directory, not a file")
  | _, _ => Ok None
  end.

Definition load_value_at (fuel : nat) (path : APath) (c : Ctx T) : res (option Value) :=
  let? akey := resolve_buffered path c in
  match akey with
  | None => Ok None
  | Some akey =>
      let? entry :=
        match file_get (wb c) akey with
        | Some buffered => Ok (Some buffered)
        | None => read_entry (data c) akey
        end in
      match entry with
      | None => Ok None
      | Some entry =>
          let? '(kind, payload) := entry_split entry in
          match kind with
          | KFile => let? v := decode fuel payload in Ok (Some v)
          | KDir => Err (CannotAccess "'{path}' is a directory, not a file")
          end
      end
  end.

(** ** Mutations *)

Section fuel.
Context (fuel : nat).

Definition store_value_at (path : APath) (value : Value) : SM (Ctx T) unit :=
  if is_root path then serr (CannotAccess "cannot store a file at the root")
  else store_value_into fuel path value.

Definition store_blob_at (path : APath) (value_blob : bytes) : SM (Ctx T) unit :=
  if is_root path then serr (CannotAccess "cannot store a file at the root")
  else store_blob_into fuel path value_blob.

Definition put_scalar_at (path : APath) (hint : option (AKey * Z)) (at_path : VPath) (scalar : Scalar)
    : SM (Ctx T) unit :=
  put_scalar_into fuel path hint at_path scalar.

Definition mkdir (path : APath) : SM (Ctx T) unit :=
  let! _ := ensure_dir path in sret tt.

Definition rm (path : APath) : SM (Ctx T) bool :=
  if is_root path then serr (CannotAccess "cannot remove the root")
  else rm_into fuel path.

Definition mv (src dst : APath) : SM (Ctx T) unit :=
  if names_start_with dst src then
    serr (CannotAccess "cannot move an a-node onto itself or into a descendant")
  else if is_root src then serr (CannotAccess "cannot move the root")
  else if is_root dst then serr (CannotAccess "cannot move onto the root")
  else mv_into fuel src dst.

Definition cp (src dst : APath) : SM (Ctx T) unit :=
  if names_start_with dst src then
    serr (CannotAccess "cannot copy an a-node onto itself or into a descendant")
  else if is_root dst then serr (CannotAccess "cannot copy onto the root")
  else cp_into fuel src dst.
End fuel.

(** [WriteTxn::new]: the cache buffers when the database has no index. *)
Definition WriteTxn_new (d : T) (rng : Z) (has_any_index : bool) : Ctx T :=
  mkCtx d (WriteBuffer_new (negb has_any_index)) rng.

(** ** Commit

    The flush empties the write-back cache and writes what it held in whatever order
    the two hash maps iterate in ([order_dirs], [order_files]); the engine commit
    itself is in [Cache]. *)
Section commit.
Context (order_dirs : gmap Z Children → list (Z * Children)).
Context (order_files : gmap Z bytes → list (Z * bytes)).

Definition commit_flush : SM (Ctx T) unit := λ c,
  let '((buffered_dirs, buffered_files), taken) := wb_take (wb c) in
  let c := mkCtx (data c) taken (rng c) in
  if negb (bool_decide (buffered_dirs = ∅)) || negb (bool_decide (buffered_files = ∅)) then
    flush_buffered (order_dirs buffered_dirs) (order_files buffered_files) c
  else (Ok tt, c).
End commit.

(** ** The primitives answer from the view *)

Lemma child_of_spec (c : Ctx T) k n : ctx_ok c → dirs (wb c) !! k = None →
  child_of (data c) k n = Ok (match view c k with Some (NDir m) => bt_get m n | _ => None end).
Proof.
  intros (Hw & Hd & Hf & He & _) Hk. unfold child_of, view. rewrite Hk.
  destruct (files (wb c) !! k) as [e|] eqn:Ef.
  - destruct (Hf _ _ Ef) as [[b ->] [b' ->]]. done.
  - unfold engine_view. destruct (kv_get (data c) k) as [e|] eqn:Eg; [|done].
    destruct (He _ _ Eg) as [(m & Hm & ->)|(b & ->)]; cbn [mbind option_bind]; [|done].
    rewrite decode_dir by done. unfold dir_entry, entry_split. cbn. rewrite ArchivedDir_new_ok by done.
    cbn. by rewrite dir_get_lemma.
Qed.

Lemma resolve_buffered_spec (c : Ctx T) p : ctx_ok c → resolve_buffered p c = Ok (vresolve (view c) ROOT p).
Proof.
  intros Hc. unfold resolve_buffered. generalize ROOT. induction p as [|n p IH]; intros k; cbn [resolve_buffered_from vresolve]; [done|].
  rewrite gated_dirs by apply Hc. destruct (dirs (wb c) !! k) as [m|] eqn:Hk.
  - rewrite (view_buffered _ _ _ Hk). cbn [rbind]. destruct (bt_get m n); [apply IH|done].
  - rewrite (child_of_spec c k n Hc Hk). cbn [rbind]. destruct (view c k) as [[m|]|]; [|done..].
    destruct (bt_get m n); [apply IH|done].
Qed.

Lemma write_entry_blob_spec (c : Ctx T) k : ctx_ok c → write_entry_blob k c = Ok (node_entry <$> view c k).
Proof.
  intros (Hw & Hd & Hf & He & _). unfold write_entry_blob, view, wb_read.
  assert ((if dirty (wb c) then (λ children, dir_entry (encode_dir children)) <$> dirs (wb c) !! k else None) =
          (λ children, dir_entry (encode_dir children)) <$> dirs (wb c) !! k) as ->.
  { destruct Hw as (Hw & _). unfold dirty. destruct (dirs_dirty (wb c)); [done|]. by rewrite Hw, lookup_empty. }
  destruct (dirs (wb c) !! k) as [m|] eqn:Hk; [done|]. cbn [fmap option_fmap option_map].
  rewrite (file_get_spec _ _ Hw). destruct (files (wb c) !! k) as [e|] eqn:Ef.
  - destruct (Hf _ _ Ef) as [[b ->] _]. done.
  - unfold read_entry, engine_view. destruct (kv_get (data c) k) as [e|] eqn:Eg; [|done].
    destruct (He _ _ Eg) as [(m & Hm & ->)|(b & ->)]; cbn [mbind option_bind]; [by rewrite decode_dir|done].
Qed.

Context `{!KVLaws T Z bytes}.

#[export] Instance WriteTxn_GrabLaws : GrabLaws (Ctx T).
Proof.
  refine {| g_ok := ctx_ok; g_view := view |}.
  - intros c k m (Hw & Hd & Hf & He & _) Hv. unfold view in Hv.
    destruct (dirs (wb c) !! k) as [m'|] eqn:Ed; [injection Hv as <-; by apply (Hd _ _ Ed)|].
    destruct (files (wb c) !! k) as [e|] eqn:Ef; [destruct (Hf _ _ Ef) as [[b ->] _]; done|].
    unfold engine_view in Hv. destruct (kv_get (data c) k) as [e|] eqn:Eg; [|done]. cbn [mbind option_bind] in Hv.
    destruct (He _ _ Eg) as [(m' & Hm & ->)|(b' & ->)]; [|done].
    rewrite decode_dir in Hv by done. by injection Hv as <-.
  - intros c p Hc. exists c. unfold g_resolve, WriteTxn_Grab, asks. by rewrite resolve_buffered_spec.
  - intros c k Hc. exists c. unfold g_entry_blob, WriteTxn_Grab, asks. by rewrite write_entry_blob_spec.
Defined.

(** ** The flush *)

Lemma put_all_spec {A} (f : A → bytes) (l : list (Z * A)) : ∀ c : Ctx T,
  files_dirty (wb c) = false → NoDup (l.*1) →
  ∃ t', for_each l (λ d, put_entry d.1 (f d.2)) c = (Ok tt, mkCtx t' (wb c) (rng c)) ∧
    ∀ k, kv_get t' k = match (list_to_map l : gmap Z A) !! k with
                       | Some a => Some (f a) | None => kv_get (data c) k end.
Proof.
  induction l as [|[k a] l IH]; intros c Hc Hnd; cbn [for_each fst snd].
  - exists (data c). by destruct c.
  - cbn in Hnd. apply NoDup_cons in Hnd as [Hk Hnd].
    set (c1 := mkCtx (kv_insert (data c) k (f a)) (wb c) (rng c)).
    assert (put_entry k (f a) c = (Ok tt, c1)) as E.
    { unfold put_entry, file_forget. by rewrite Hc. }
    rewrite (sbind_Ok _ _ _ _ _ E). destruct (IH c1 Hc Hnd) as (t' & E' & Hget). exists t'. split; [done|].
    intros j. rewrite Hget, list_to_map_cons. cbn [data c1 fst snd]. destruct (decide (j = k)) as [->|Hj].
    + rewrite (not_elem_of_list_to_map_1 l k Hk), lookup_insert_eq.
      by rewrite kv_get_insert, decide_True.
    + rewrite lookup_insert_ne by done. destruct (list_to_map l !! j) eqn:El; [done|].
      by rewrite kv_get_insert, decide_False.
Qed.

Lemma list_to_map_perm {A} (l : list (Z * A)) (m : gmap Z A) :
  l ≡ₚ map_to_list m → NoDup (l.*1) ∧ (list_to_map l : gmap Z A) = m.
Proof.
  intros Hp. assert (NoDup (l.*1)) as Hnd by (rewrite Hp; apply NoDup_fst_map_to_list).
  split; [done|]. rewrite <- (list_to_map_to_list m). by apply list_to_map_proper.
Qed.

(** Writing out what the cache held, once it is emptied into [w]. *)
Lemma flush_taken order_dirs order_files (c : Ctx T) w :
  (∀ m, order_dirs m ≡ₚ map_to_list m) → (∀ m, order_files m ≡ₚ map_to_list m) → ctx_ok c →
  wb_ok w → files_dirty w = false → dirs w = ∅ → files w = ∅ →
  let c0 := mkCtx (data c) w (rng c) in
  ∃ c', (if negb (bool_decide (dirs (wb c) = ∅)) || negb (bool_decide (files (wb c) = ∅)) then
           flush_buffered (order_dirs (dirs (wb c))) (order_files (files (wb c))) c0
         else (Ok tt, c0)) = (Ok tt, c') ∧ ctx_ok c' ∧ wb c' = w ∧ rng c' = rng c ∧
    (∀ k, engine_view (data c') k = view c k) ∧ (∀ k, view c' k = view c k).
Proof.
  intros Hod Hof (_ & Hd & Hf & He & Hr) Hw Hdf Hwd Hwf c0.
  assert (∀ t', (∀ k, kv_get t' k = match files (wb c) !! k with
                     | Some e => Some e
                     | None => match dirs (wb c) !! k with
                               | Some m => Some (dir_entry (encode_dir m)) | None => kv_get (data c) k end end) →
          let c' := mkCtx t' w (rng c) in
          ctx_ok c' ∧ wb c' = w ∧ rng c' = rng c ∧
          (∀ k, engine_view (data c') k = view c k) ∧ (∀ k, view c' k = view c k)) as Hfin.
  { intros t' Ht' c'. assert (∀ k, engine_view t' k = view c k) as Hev.
    { intros k. unfold engine_view, view. rewrite Ht'. destruct (dirs (wb c) !! k) as [m|] eqn:Ed.
      - destruct (Hd _ _ Ed) as [Hm ->]. cbn [mbind option_bind]. by apply decode_dir.
      - by destruct (files (wb c) !! k). }
    split; [|split_and!; try done; intros k; unfold view; cbn [wb c']; by rewrite Hwd, Hwf, !lookup_empty].
    unfold ctx_ok. cbn [wb c' rng data]. rewrite Hwd, Hwf. split_and!; try done.
    intros k e. rewrite Ht'. destruct (files (wb c) !! k) as [e'|] eqn:Ef.
    + intros [= <-]. right. by destruct (Hf _ _ Ef).
    + destruct (dirs (wb c) !! k) as [m|] eqn:Ed; [|apply He]. intros [= <-]. left. exists m.
      split; [by apply (Hd _ _ Ed)|done]. }
  destruct (negb _ || negb _) eqn:Ed.
  - clear Ed. destruct (list_to_map_perm _ _ (Hod (dirs (wb c)))) as [Hnd1 Hm1].
    destruct (list_to_map_perm _ _ (Hof (files (wb c)))) as [Hnd2 Hm2].
    unfold flush_buffered.
    destruct (put_all_spec (λ m, dir_entry (encode_dir m)) _ c0 Hdf Hnd1) as (t1 & E1 & G1).
    rewrite (sbind_Ok _ _ _ _ _ E1).
    destruct (put_all_spec (λ e, e) _ (mkCtx t1 w (rng c)) Hdf Hnd2) as (t2 & E2 & G2).
    exists (mkCtx t2 w (rng c)). split; [exact E2|]. apply Hfin. intros k. rewrite G2, Hm2.
    destruct (files (wb c) !! k); [done|]. cbn [data]. by rewrite G1, Hm1.
  - apply orb_false_iff in Ed as [Ed%negb_false_iff%bool_decide_eq_true Ef%negb_false_iff%bool_decide_eq_true].
    exists c0. split; [done|]. apply Hfin. intros k. by rewrite Ed, Ef, !lookup_empty.
Qed.

Lemma commit_flush_lemma order_dirs order_files (c : Ctx T) :
  (∀ m, order_dirs m ≡ₚ map_to_list m) → (∀ m, order_files m ≡ₚ map_to_list m) → ctx_ok c →
  ∃ c', commit_flush order_dirs order_files c = (Ok tt, c') ∧ ctx_ok c' ∧
    dirs (wb c') = ∅ ∧ files (wb c') = ∅ ∧ rng c' = rng c ∧
    (∀ k, engine_view (data c') k = view c k) ∧ (∀ k, view c' k = view c k).
Proof.
  intros Hod Hof Hc.
  destruct (flush_taken order_dirs order_files c (mkWriteBuffer (buffering (wb c)) false ∅ false ∅ (structure (wb c))) Hod Hof Hc)
    as (c' & E & Hc' & Hw & Hr & Hv); [done..|]. exists c'. rewrite Hw. split_and!; try done; apply Hv.
Qed.
End write.
