(* ===== verification/Txn.v ===== *)
(** * Whole transactions against the abstract filesystem

    [txn c t]: the write transaction in state [c] stands for exactly the tree [t],
    with no stray node left in the table or the cache.  Each public mutation is
    proved to take such a state to one for the tree its specification describes,
    then a whole list of mutations, and the flush at commit. *)
From S2P Require Import Prelude BTree Codec Ext Scalar Path Value Archived Key Dir Engine WriteBuffer Ctx Fs Tree Refine FsSpec Move FsMove TreeLaws Write.

Section txn.
Context `{Ext} {T : Type} `{KV T Z bytes} `{!KVLaws T Z bytes}.
Implicit Type c : Ctx T.

Definition txn c t : Prop := fs c t ∧ ∀ j, j ∉ tkeys t → view c j = None.

(** The next [n] keys the generator will draw are not in the tree. *)
Definition unused t (s n : Z) : Prop := ∀ i, 0 ≤ i < n → nth_key s i ∉ tkeys t.

Lemma unused_fresh c t n : txn c t → unused t (rng c) n → fresh_for (view c) (rng c) n.
Proof. intros [_ Hx] Hu i Hi. apply Hx, Hu, Hi. Qed.

Lemma unused_mono t s n m : unused t s n → m ≤ n → unused t s m.
Proof. intros Hu Hm i Hi. apply Hu. lia. Qed.

Lemma steps_txn c t c' t' n : txn c t → steps c t c' t' n → txn c' t'.
Proof. intros [_ Hx] []. split; [done|]. auto. Qed.

Lemma steps_unused c t c' t' n N :
  steps c t c' t' n → unused t (rng c) N → n ≤ N ≤ 2 ^ 62 → unused t' (rng c') (N - n).
Proof.
  intros [] Hu HN i Hi. rewrite st_rng, nth_key_state. intros [Hin|(j & Hj & E)]%st_new.
  - revert Hin. apply Hu. lia.
  - apply nth_key_inj in E; lia.
Qed.

Lemma txn_word c t : txn c t → word (rng c).
Proof. intros [[Hc _] _]. apply Hc. Qed.

Lemma txn_sorted c t : txn c t → tsorted t ∧ is_dir t = true.
Proof.
  intros [(Hc & _ & _ & Hd & [Hh|[_ ->]]) _]; (split; [|done]); [by apply (holds_sorted c)|].
  repeat constructor.
Qed.

Lemma fs_cases c t : fs c t → fs_mat c t ∨ (ctx_ok c ∧ view c ROOT = None ∧ t = ADir ROOT []).
Proof. intros (? & ? & ? & ? & [?|[? ?]]); [left; by split_and!|by right]. Qed.

(** Before the root is written every path but the root is absent. *)
Lemma bare_resolve c p : ctx_ok c → view c ROOT = None →
  resolve p c = Ok (if is_root p then Some ROOT else None).
Proof. intros Hc Hv. rewrite (resolve_spec c p Hc). destruct p; cbn; [done|]. by rewrite Hv. Qed.

Lemma bare_child c n : ctx_ok c → view c ROOT = None → child ROOT n c = Ok None.
Proof. intros Hc Hv. by rewrite (child_spec c ROOT n Hc), Hv. Qed.

Lemma bare_lookup p n : tlookup (ADir ROOT []) (p ++ [n]) = None.
Proof. by destruct p. Qed.

(** ** One operation at a time *)

Lemma ensure_step c t p :
  txn c t → path_fits t p → unused t (rng c) (blen p) → blen p ≤ 2 ^ 62 →
  match t_ensure t p (rng c) with
  | Ok (t', s') => ∃ c' m k, ensure_dir p c = (Ok k, c') ∧ steps c t c' t' m ∧ m ≤ blen p ∧ rng c' = s'
  | Err e => ∃ c', ensure_dir p c = (Err e, c') ∧ steps c t c' t 0
  | _ => False
  end.
Proof.
  intros Ht Hfit Hu Hlen. pose proof (unused_fresh _ _ _ Ht Hu) as Hf. destruct Ht as [Hfs _].
  destruct (ensure_root_spec c t Hfs) as (c1 & E1 & E1' & Hm & Hr1 & Hb1 & Hv1).
  assert (ensure_dir p c = ensure_dir p c1) as ->.
  { unfold ensure_dir. by rewrite (sbind_Ok _ _ _ _ _ E1), (sbind_Ok _ _ _ _ _ E1'). }
  pose proof Hm as (_ & _ & Hk & _ & _).
  pose proof (ensure_dir_spec c1 t p Hm Hfit (fresh_root c c1 _ Hr1 Hv1 Hf) Hlen E1') as He. rewrite Hr1 in He.
  destruct (t_ensure t p (rng c)) as [[t1 s1]|e| |]; try done.
  - destruct He as (c2 & m & sub & E2 & Hch & Hm2 & Hr2 & _). exists c2, m, (akey sub). split_and!; [done| |done..].
    apply (steps_root c c1); [done..|]. by apply changes_steps.
  - exists c1. split; [done|]. by apply (steps_root c c1), steps_refl, fs_mat_fs.
Qed.

Lemma rm_step fuel c t p n :
  txn c t → (height t ≤ fuel)%nat →
  ∃ c', rm_into fuel (p ++ [n]) c = (Ok (t_rm t (p ++ [n])).2, c') ∧ steps c t c' (t_rm t (p ++ [n])).1 0.
Proof.
  intros [Hfs _] Hfuel. destruct (fs_cases c t Hfs) as [Hm|(Hc & Hv & ->)]; [by apply rm_lemma|].
  unfold t_rm. rewrite bare_lookup. exists c. split; [|by apply steps_refl].
  unfold rm_into. rewrite (sbind_Ok _ _ _ _ _ (split_last_ok p n c)).
  rewrite (sbind_asks _ _ _ _ (bare_resolve c p Hc Hv)). destruct p; cbn [is_root]; [|done].
  by rewrite (sbind_asks _ _ _ _ (bare_child c n Hc Hv)).
Qed.

Lemma mv_step fuel c t sp sn dp dn :
  let src := sp ++ [sn] in let dst := dp ++ [dn] in
  txn c t → ¬ src `prefix_of` dst → ¬ dst `prefix_of` src →
  path_fits t dst → unused t (rng c) (blen dp) → blen dp ≤ 2 ^ 62 → (height t + length dp ≤ fuel)%nat →
  match t_mv t src dst (rng c) with
  | Ok (t', s') => ∃ c' m, mv_into fuel src dst c = (Ok tt, c') ∧ steps c t c' t' m ∧ m ≤ blen dp ∧ rng c' = s'
  | Err e => ∃ c', mv_into fuel src dst c = (Err e, c') ∧ steps c t c' t 0
  | _ => False
  end.
Proof.
  intros src dst Ht Hsd Hds Hfit Hu Hlen Hfuel. pose proof (unused_fresh _ _ _ Ht Hu) as Hf.
  destruct Ht as [Hfs _]. destruct (fs_cases c t Hfs) as [Hm|(Hc & Hv & ->)]; [by apply mv_lemma|].
  unfold t_mv, src. rewrite bare_lookup. exists c. split; [|by apply steps_refl].
  unfold mv_into, dst. rewrite (sbind_Ok _ _ _ _ _ (split_last_ok sp sn c)), (sbind_Ok _ _ _ _ _ (split_last_ok dp dn c)).
  rewrite (sbind_asks _ _ _ _ (bare_resolve c sp Hc Hv)). destruct sp; cbn [is_root]; [|done].
  by rewrite (sbind_asks _ _ _ _ (bare_child c sn Hc Hv)).
Qed.

Definition size_at t p : Z := match tlookup t p with Some x => blen (tkeys x) | None => 0 end.

Lemma cp_step fuel c t src dp dn :
  let dst := dp ++ [dn] in
  txn c t → src ≠ [] → ¬ src `prefix_of` dst → ¬ dst `prefix_of` src →
  path_fits t dst → unused t (rng c) (blen dp + size_at t src) → blen dp + size_at t src ≤ 2 ^ 62 →
  (height t + length dp ≤ fuel)%nat →
  match t_cp t src dst (rng c) with
  | Ok (t', s') =>
      ∃ c' m, cp_into fuel src dst c = (Ok tt, c') ∧ steps c t c' t' m ∧ m ≤ blen dp + size_at t src ∧ rng c' = s'
  | Err e => ∃ c', cp_into fuel src dst c = (Err e, c') ∧ steps c t c' t 0
  | _ => False
  end.
Proof.
  intros dst Ht Hne Hsd Hds Hfit Hu Hlen Hfuel. pose proof (unused_fresh _ _ _ Ht Hu) as Hf.
  destruct Ht as [Hfs _]. unfold size_at in *.
  assert (resolve src c = Ok None → ∃ c', cp_into fuel src dst c = (Err ValueNotFound, c') ∧ steps c t c' t 0) as Hno.
  { intros E. exists c. split; [|by apply steps_refl]. unfold cp_into, dst.
    rewrite (sbind_Ok _ _ _ _ _ (split_last_ok dp dn c)). by rewrite (sbind_asks _ _ _ _ E). }
  destruct (tlookup t src) as [x|] eqn:Hx.
  - destruct (fs_cases c t Hfs) as [Hm|(Hc & Hv & ->)]; [by apply cp_lemma|]. by destruct src.
  - unfold t_cp. rewrite Hx. apply Hno. destruct (fs_cases c t Hfs) as [Hm|(Hc & Hv & ->)].
    + by rewrite (fs_resolve c t src Hm), Hx.
    + rewrite bare_resolve by done. by destruct src.
Qed.

(** ** The public mutations

    Each theorem covers every outcome; an error leaves the tree as it was. *)

(** C3: Storing a value: unless a file stands where a parent directory is needed (an
    error that leaves the tree alone), the value's blob is at the path afterwards,
    missing parents exist, a file that was already there keeps its key, a directory
    that was there is gone with its subtree, and everything else is untouched. The
    root cannot be stored to. *)
Theorem store_value_at_spec fuel c t p n v :
  txn c t → path_fits t (p ++ [n]) → unused t (rng c) (blen p + 1) → blen p + 1 ≤ 2 ^ 62 →
  (height t + length p ≤ fuel)%nat →
  (∃ e, store_value_at fuel [] v c = (Err (CannotAccess e), c)) ∧
  (blocked t p → ∃ c' e, store_value_at fuel (p ++ [n]) v c = (Err (CannotAccess e), c') ∧ txn c' t) ∧
  (¬ blocked t p → ∃ c' t', store_value_at fuel (p ++ [n]) v c = (Ok tt, c') ∧ txn c' t' ∧
     stored t t' (p ++ [n]) (encode v)).
Proof.
  intros Ht Hfit Hu Hlen Hfuel. split; [by eexists|].
  assert (store_value_at fuel (p ++ [n]) v c = store_blob_into fuel (p ++ [n]) (encode v) c) as -> by by destruct p.
  destruct (txn_sorted c t Ht) as [Hso Hd].
  pose proof (store_lemma fuel c t p n (encode v) (proj1 Ht) Hfit (unused_fresh _ _ _ Ht Hu) Hlen Hfuel) as Hs.
  destruct (ensure_cases p t (rng c) Hd) as [[Hb E]|[Hb (t1 & s1 & E)]].
  - split; [intros _|done]. unfold t_store in Hs. rewrite APath_split_last_snoc, E in Hs. cbn [rbind] in Hs.
    destruct Hs as (c' & Hr & Hst). exists c'. eexists. split; [exact Hr|]. by eapply steps_txn.
  - split; [done|intros _]. destruct (t_store t (p ++ [n]) (encode v) (rng c)) as [[t' s']|e| |] eqn:Es; try done.
    + destruct Hs as (c' & m & Hr & Hst & _). exists c', t'. split_and!; [done|by eapply steps_txn|by eapply store_law].
    + unfold t_store in Es. rewrite APath_split_last_snoc, E in Es. cbn [rbind] in Es.
      destruct (tlookup t1 p); [|done]. by destruct (t_put a n (encode v) s1).
Qed.

(** [mkdir] creates every missing directory of the path and changes nothing
    else: afterwards every prefix is a directory, existing ones being the same
    nodes, and every other path names what it did; it fails only on a file in the
    way, and running it on an existing directory is no change. *)
Theorem mkdir_spec c t p :
  txn c t → path_fits t p → unused t (rng c) (blen p) → blen p ≤ 2 ^ 62 →
  (blocked t p → ∃ c' e, mkdir p c = (Err (CannotAccess e), c') ∧ txn c' t) ∧
  (¬ blocked t p → ∃ c' t', mkdir p c = (Ok tt, c') ∧ txn c' t' ∧
     (∀ q, q `prefix_of` p → ∃ k ch, tlookup t' q = Some (ADir k ch) ∧ ∀ x, tlookup t q = Some x → akey x = k) ∧
     (∀ q, ¬ q `prefix_of` p → tlookup t' q = tlookup t q)).
Proof.
  intros Ht Hfit Hu Hlen. destruct (txn_sorted c t Ht) as [Hso Hd].
  pose proof (ensure_step c t p Ht Hfit Hu Hlen) as Hs. unfold mkdir.
  destruct (ensure_cases p t (rng c) Hd) as [[Hb E]|[Hb (t1 & s1 & E)]]; rewrite E in Hs.
  - split; [intros _|done]. destruct Hs as (c' & Hr & Hst). exists c'. eexists.
    split; [by apply sbind_Err|by eapply steps_txn].
  - split; [done|intros _]. destruct Hs as (c' & m & k & Hr & Hst & _). exists c', t1.
    destruct (ensure_law p t (rng c) t1 s1 Hso Hd E) as (_ & _ & Hpre & Hout).
    split_and!; [by rewrite (sbind_Ok _ _ _ _ _ Hr)|by eapply steps_txn| |done].
    intros q Hq. destruct (Hpre q Hq) as (kq & chq & Hl). exists kq, chq. split; [done|].
    intros x Hx. destruct (ensure_lookup p t (rng c) t1 s1 q x Hso E Hx) as (x' & Hx' & Ha & _).
    rewrite Hl in Hx'. by injection Hx' as <-.
Qed.

(** C6: [rm] answers whether anything was at the path, removes exactly the subtree
    there (no node of it is left in the table or the cache), and keeps everything
    else; the root cannot be removed. *)
Theorem rm_spec fuel c t p n :
  txn c t → (height t ≤ fuel)%nat →
  (∃ e, rm fuel [] c = (Err (CannotAccess e), c)) ∧
  ∃ c' t', rm fuel (p ++ [n]) c = (Ok (bool_decide (is_Some (tlookup t (p ++ [n])))), c') ∧ txn c' t' ∧
    match tlookup t (p ++ [n]) with Some _ => removed t t' (p ++ [n]) | None => t' = t end.
Proof.
  intros Ht Hfuel. split; [by eexists|].
  assert (rm fuel (p ++ [n]) c = rm_into fuel (p ++ [n]) c) as -> by by destruct p.
  destruct (rm_step fuel c t p n Ht Hfuel) as (c' & E & Hst). unfold t_rm in *.
  destruct (tlookup t (p ++ [n])) as [x|] eqn:Hx; cbn [fst snd] in *.
  - exists c', (t_remove t (p ++ [n])). split_and!; [done|by eapply steps_txn|].
    eapply remove_law; [by apply (txn_sorted c)|done].
  - exists c', t. split_and!; [done|by eapply steps_txn|done].
Qed.

(** C4: [mv] relinks: the whole subtree appears at the destination node for node
    (same keys, same contents), is gone from the source, replaces what was at the
    destination, and leaves every other path alone. It fails, changing nothing,
    when the source is absent, when a file blocks the destination's parents, or
    when the destination is the source or below it. (A destination above the source
    is the subject of [mv_onto_ancestor].) *)
Theorem mv_spec fuel c t sp sn dp dn :
  let src := sp ++ [sn] in let dst := dp ++ [dn] in
  txn c t → ¬ dst `prefix_of` src → path_fits t dst → unused t (rng c) (blen dp) → blen dp ≤ 2 ^ 62 →
  (height t + length dp ≤ fuel)%nat →
  (src `prefix_of` dst → ∃ e, mv fuel src dst c = (Err (CannotAccess e), c)) ∧
  (¬ src `prefix_of` dst →
     (tlookup t src = None → ∃ c', mv fuel src dst c = (Err ValueNotFound, c') ∧ txn c' t) ∧
     (is_Some (tlookup t src) → blocked t dp →
        ∃ c' e, mv fuel src dst c = (Err (CannotAccess e), c') ∧ txn c' t) ∧
     (is_Some (tlookup t src) → ¬ blocked t dp →
        ∃ c' t', mv fuel src dst c = (Ok tt, c') ∧ txn c' t' ∧ moved t t' src dst)).
Proof.
  intros src dst Ht Hds Hfit Hu Hlen Hfuel. split.
  { intros Hp. unfold mv. rewrite (proj2 (names_start_with_spec dst src) Hp). by eexists. }
  intros Hsd. assert (mv fuel src dst c = mv_into fuel src dst c) as ->.
  { unfold mv. destruct (names_start_with dst src) eqn:E; [by apply names_start_with_spec in E|].
    unfold src, dst. by destruct sp, dp. }
  destruct (txn_sorted c t Ht) as [Hso Hd].
  pose proof (mv_step fuel c t sp sn dp dn Ht Hsd Hds Hfit Hu Hlen Hfuel) as Hs. fold src dst in Hs.
  pose proof (mv_law t sp sn dp dn (rng c)) as Hlaw. fold src dst in Hlaw.
  unfold t_mv in Hs, Hlaw. unfold dst in Hs at 1, Hlaw at 3. rewrite APath_split_last_snoc in Hs, Hlaw. 
  destruct (tlookup t src) as [x|]; cbn [rbind] in *.
  - split; [done|]. destruct (ensure_cases dp t (rng c) Hd) as [[Hb E]|[Hb (t1 & s1 & E)]]; rewrite E in Hs, Hlaw; cbn [rbind] in *.
    + split; [intros _ _|done]. destruct Hs as (c' & Hr & Hst). exists c'. eexists. split; [exact Hr|by eapply steps_txn].
    + split; [done|intros _ _].
      destruct (tlookup (t_remove t1 src) dp) as [d|]; destruct Hs as (c' & m & Hr & Hst & _);
        eexists c', _; (split_and!; [done|by eapply steps_txn|by eapply Hlaw]).
  - split_and!; [intros _|by intros [? ?]..]. destruct Hs as (c' & Hr & Hst). exists c'. split; [done|by eapply steps_txn].
Qed.

End txn.
