(* ===== verification/Program.v ===== *)
(** * A transaction from begin to commit

    A list of mutations run by a write transaction and then committed, against the
    same list run on the abstract tree: equal answers, and a table that holds exactly
    the final tree. *)
From S2P Require Import Prelude BTree Codec Ext Scalar Path Value Archived Key Dir Engine WriteBuffer Ctx Fs Tree Refine FsSpec Move FsMove TreeLaws Write Txn.

Inductive op `{Ext} :=
| OStore (p : APath) (v : Value)
| OMkdir (p : APath)
| ORm (p : APath)
| OMv (src dst : APath)
| OCp (src dst : APath).

(** The answer of one mutation: [rm]'s boolean, nothing for the others. *)
Abbreviation answer := (res (option bool)).

(** ** The abstract program *)

Definition t_lift (t : atree) (s : Z) (r : res (atree * Z)) : answer * (atree * Z) :=
  match r with
  | Ok ts => (Ok None, ts)
  | Err e => (Err e, (t, s))
  | Panic => (Panic, (t, s))
  | OutOfFuel => (OutOfFuel, (t, s))
  end.

Definition t_op `{Ext} (t : atree) (o : op) (s : Z) : answer * (atree * Z) :=
  let fail e := (Err (CannotAccess e), (t, s)) in
  match o with
  | OStore p v =>
      if is_root p then fail "cannot store a file at the root" else t_lift t s (t_store t p (encode v) s)
  | OMkdir p => t_lift t s (t_ensure t p s)
  | ORm p =>
      if is_root p then fail "cannot remove the root"
      else (Ok (Some (t_rm t p).2), ((t_rm t p).1, s))
  | OMv src dst =>
      if names_start_with dst src then fail "cannot move an a-node onto itself or into a descendant"
      else if is_root src then fail "cannot move the root"
      else if is_root dst then fail "cannot move onto the root"
      else t_lift t s (t_mv t src dst s)
  | OCp src dst =>
      if names_start_with dst src then fail "cannot copy an a-node onto itself or into a descendant"
      else if is_root dst then fail "cannot copy onto the root"
      else t_lift t s (t_cp t src dst s)
  end.

Fixpoint t_ops `{Ext} (t : atree) (s : Z) (ops : list op) : list answer * (atree * Z) :=
  match ops with
  | [] => ([], (t, s))
  | o :: ops =>
      let '(r, (t, s)) := t_op t o s in
      let '(rs, ts) := t_ops t s ops in (r :: rs, ts)
  end.

(** Room in the format and fuel for the operation, and a move or copy whose
    destination is not an ancestor of its source. *)
Definition op_ok `{Ext} (fuel : nat) (t : atree) (o : op) : Prop :=
  match o with
  | OStore p _ => path_fits t p ∧ (height t + length p ≤ fuel)%nat
  | OMkdir p => path_fits t p
  | ORm p => (height t ≤ fuel)%nat
  | OMv src dst | OCp src dst =>
      path_fits t dst ∧ (height t + length dst ≤ fuel)%nat ∧
      (dst `prefix_of` src → src `prefix_of` dst ∨ dst = [])
  end.

(** A bound on the keys it draws. *)
Definition cost `{Ext} (t : atree) (o : op) : Z :=
  match o with
  | OStore p _ | OMkdir p => blen p
  | ORm _ => 0
  | OMv _ dst => blen dst
  | OCp src dst => blen dst + size_at t src
  end.

Fixpoint run_ok `{Ext} (fuel : nat) (t : atree) (s : Z) (ops : list op) (n : Z) : Prop :=
  match ops with
  | [] => True
  | o :: ops =>
      op_ok fuel t o ∧ cost t o ≤ n ∧
      run_ok fuel (t_op t o s).2.1 (t_op t o s).2.2 ops (n - cost t o)
  end.

Section program.
Context `{Ext} {T : Type} `{KV T Z bytes} `{!KVLaws T Z bytes}.
Implicit Type c : Ctx T.

(** ** The concrete program *)

Definition run_op (fuel : nat) (o : op) : SM (Ctx T) (option bool) :=
  match o with
  | OStore p v => let! _ := store_value_at fuel p v in sret None
  | OMkdir p => let! _ := mkdir p in sret None
  | ORm p => let! b := rm fuel p in sret (Some b)
  | OMv src dst => let! _ := mv fuel src dst in sret None
  | OCp src dst => let! _ := cp fuel src dst in sret None
  end.

(** A failed mutation does not end the transaction. *)
Fixpoint run_ops (fuel : nat) (ops : list op) (c : Ctx T) : list answer * Ctx T :=
  match ops with
  | [] => ([], c)
  | o :: ops =>
      let '(r, c) := run_op fuel o c in
      let '(rs, c) := run_ops fuel ops c in (r :: rs, c)
  end.

Lemma op_step fuel c t o N :
  txn c t → op_ok fuel t o → unused t (rng c) N → cost t o ≤ N → N ≤ 2 ^ 62 →
  ∃ c' m, run_op fuel o c = ((t_op t o (rng c)).1, c') ∧ steps c t c' (t_op t o (rng c)).2.1 m ∧
    m ≤ cost t o ∧ rng c' = (t_op t o (rng c)).2.2.
Proof.
  intros Ht Hok Hu HN Hmax. pose proof (unused_mono _ _ _ _ Hu HN) as Hu'.
  assert (0 ≤ cost t o) as Hc0.
  { destruct o as [p v|p|p|src dst|src dst]; cbn; try apply blen_nonneg; [done|].
    pose proof (blen_nonneg dst). unfold size_at. destruct (tlookup t src) as [x|]; [pose proof (blen_nonneg (tkeys x))|]; lia. }
  assert (∀ e, ∃ c' m, (Err e : answer, c) = (Err e, c') ∧ steps c t c' t m ∧ m ≤ cost t o ∧ rng c' = rng c) as Hsame.
  { intros e. exists c, 0. split_and!; [done|by apply steps_refl, Ht|done|done]. }
  assert (∀ p (n : bytes), blen (p ++ [n]) = blen p + 1) as Hblen by (intros; by rewrite blen_app).
  assert (∀ p (n : bytes), length (p ++ [n]) = S (length p)) as Hlen by (intros; rewrite length_app; cbn; lia).
  assert (∀ (m : SM (Ctx T) unit) r,
    (match r with
     | Ok (t', s') => ∃ c' n, m c = (Ok tt, c') ∧ steps c t c' t' n ∧ n ≤ cost t o ∧ rng c' = s'
     | Err e => ∃ c', m c = (Err e, c') ∧ steps c t c' t 0
     | _ => False end) →
    ∃ c' n, (let! _ := m in sret None) c = ((t_lift t (rng c) r).1, c') ∧
      steps c t c' (t_lift t (rng c) r).2.1 n ∧ n ≤ cost t o ∧ rng c' = (t_lift t (rng c) r).2.2) as Hlift.
  { intros m [[t' s']|e| |] Hm; try done; cbn [t_lift fst snd].
    - destruct Hm as (c' & n & E & Hst & Hn & Hr). exists c', n. split_and!; try done. by rewrite (sbind_Ok _ _ _ _ _ E).
    - destruct Hm as (c' & E & Hst). exists c', 0. split_and!; try done; [by apply sbind_Err|].
      rewrite (st_rng _ _ _ _ _ Hst), Z.mul_0_r, state_at_0; [done|by eapply txn_word]. }
  destruct o as [p v|p|p|src dst|src dst]; cbn [run_op t_op op_ok cost] in *.
  - destruct Hok as [Hfit Hfu]. destruct p as [|n p _] using rev_ind; [by apply Hsame|].
    assert (is_root (p ++ [n]) = false) as Er by by destruct p. unfold store_value_at. rewrite Er.
    rewrite Hblen, Hlen in *. apply Hlift.
    pose proof (store_lemma fuel c t p n (encode v) (proj1 Ht) Hfit (unused_fresh _ _ _ Ht Hu') ltac:(lia) ltac:(lia)) as Hs.
    by destruct (t_store t (p ++ [n]) (encode v) (rng c)) as [[t' s']|e| |].
  - apply Hlift. pose proof (ensure_step c t p Ht Hok Hu' ltac:(lia)) as Hs. unfold mkdir.
    destruct (t_ensure t p (rng c)) as [[t' s']|e| |]; try done.
    + destruct Hs as (c' & m & k & E & Hs). exists c', m. split; [by rewrite (sbind_Ok _ _ _ _ _ E)|done].
    + destruct Hs as (c' & E & Hs). exists c'. split; [by apply sbind_Err|done].
  - destruct p as [|n p _] using rev_ind; [by apply Hsame|].
    assert (is_root (p ++ [n]) = false) as Er by by destruct p. unfold rm. rewrite Er. cbn [fst snd].
    destruct (rm_step fuel c t p n Ht Hok) as (c' & E & Hst). exists c', 0.
    split_and!; [by rewrite (sbind_Ok _ _ _ _ _ E)|done|done|].
    rewrite (st_rng _ _ _ _ _ Hst), Z.mul_0_r, state_at_0; [done|by eapply txn_word].
  - destruct Hok as (Hfit & Hfu & Hanc). unfold mv.
    destruct (names_start_with dst src) eqn:Hsd; [by apply Hsame|].
    destruct src as [|sn sp _] using rev_ind; [by apply Hsame|].
    assert (is_root (sp ++ [sn]) = false) as Er by by destruct sp. rewrite Er.
    destruct dst as [|dn dp _] using rev_ind; [by apply Hsame|].
    assert (is_root (dp ++ [dn]) = false) as Er' by by destruct dp. rewrite Er'.
    assert (¬ sp ++ [sn] `prefix_of` dp ++ [dn]) as Hsd' by (intros Hp%names_start_with_spec; congruence).
    rewrite Hblen, Hlen in *. apply Hlift.
    assert (¬ dp ++ [dn] `prefix_of` sp ++ [sn]) as Hds.
    { intros Hp. destruct (Hanc Hp) as [?|E]; [done|]. by destruct dp. }
    pose proof (mv_step fuel c t sp sn dp dn Ht Hsd' Hds Hfit (unused_mono _ _ _ (blen dp) Hu' ltac:(lia)) ltac:(lia) ltac:(lia)) as Hs.
    destruct (t_mv t (sp ++ [sn]) (dp ++ [dn]) (rng c)) as [[t' s']|e| |]; try done.
    destruct Hs as (c' & m & E & Hst & Hm & Hr). exists c', m. split_and!; try done. lia.
  - destruct Hok as (Hfit & Hfu & Hanc). unfold cp.
    destruct (names_start_with dst src) eqn:Hsd; [by apply Hsame|].
    destruct dst as [|dn dp _] using rev_ind; [by apply Hsame|].
    assert (is_root (dp ++ [dn]) = false) as Er' by by destruct dp. rewrite Er'.
    assert (¬ src `prefix_of` dp ++ [dn]) as Hsd' by (intros Hp%names_start_with_spec; congruence).
    assert (src ≠ []) as Hne by (intros ->; apply Hsd', prefix_nil).
    rewrite Hblen, Hlen in *. apply Hlift.
    assert (¬ dp ++ [dn] `prefix_of` src) as Hds.
    { intros Hp. destruct (Hanc Hp) as [?|E]; [done|]. by destruct dp. }
    pose proof (cp_step fuel c t src dp dn Ht Hne Hsd' Hds Hfit (unused_mono _ _ _ (blen dp + size_at t src) Hu' ltac:(lia)) ltac:(lia) ltac:(lia)) as Hs.
    destruct (t_cp t src (dp ++ [dn]) (rng c)) as [[t' s']|e| |]; try done.
    destruct Hs as (c' & m & E & Hst & Hm & Hr). exists c', m. split_and!; try done. lia.
Qed.

Lemma run_ops_lemma fuel ops : ∀ c t N,
  txn c t → run_ok fuel t (rng c) ops N → unused t (rng c) N → N ≤ 2 ^ 62 →
  ∃ c', run_ops fuel ops c = ((t_ops t (rng c) ops).1, c') ∧ txn c' (t_ops t (rng c) ops).2.1.
Proof.
  induction ops as [|o ops IH]; intros c t N Ht Hok Hu HN; cbn [run_ops t_ops]; [by exists c|].
  destruct Hok as (Ho & HcN & Hrest).
  destruct (op_step fuel c t o N Ht Ho Hu HcN HN) as (c1 & m & E & Hst & Hm & Hr). rewrite E.
  destruct (t_op t o (rng c)) as [r [t1 s1]]. cbn [fst snd] in *. subst s1.
  pose proof (st_n _ _ _ _ _ Hst) as Hm0.
  destruct (IH c1 t1 (N - cost t o)) as (c2 & E2 & Ht2); [by eapply steps_txn|done| |lia|].
  { eapply unused_mono; [eapply (steps_unused c t c1 t1 m N); [done|done|lia]|lia]. }
  rewrite E2. destruct (t_ops t1 (rng c1) ops) as [rs [t2 s2]]. cbn [fst snd] in *. by exists c2.
Qed.

(** ** Begin and commit *)

(** The table holds the tree and nothing else. *)
Definition table_holds (d : T) (t : atree) : Prop :=
  (∀ k e, kv_get d k = Some e → entry_ok e) ∧
  NoDup (tkeys t) ∧ akey t = ROOT ∧ is_dir t = true ∧
  (holds (engine_view d) t ∨ engine_view d ROOT = None ∧ t = ADir ROOT []) ∧
  ∀ k, k ∉ tkeys t → engine_view d k = None.

Lemma begin_txn d t s b : table_holds d t → word s → txn (WriteTxn_new d s b) t.
Proof.
  intros (He & Hnd & Hk & Hd & Hh & Hx) Hs. unfold WriteTxn_new, WriteBuffer_new.
  assert (∀ k, view (mkCtx d (mkWriteBuffer (negb b) false ∅ false ∅ 0) s) k = engine_view d k) as Hv by done.
  split; [split_and!; try done|done].
Qed.

Lemma commit_table order_dirs order_files c t :
  (∀ m, order_dirs m ≡ₚ map_to_list m) → (∀ m, order_files m ≡ₚ map_to_list m) → txn c t →
  ∃ c', commit_flush order_dirs order_files c = (Ok tt, c') ∧ table_holds (data c') t.
Proof.
  intros Hod Hof [(Hc & Hnd & Hk & Hd & Hh) Hx].
  destruct (commit_flush_lemma order_dirs order_files c Hod Hof Hc) as (c' & E & Hc' & _ & _ & _ & Hev & _).
  exists c'. split; [done|]. split_and!; [apply Hc'|done|done|done| |].
  - destruct Hh as [Hh|[Hr ->]]; [left|right].
    + eapply holds_frame; [|exact Hh]. intros j _. apply Hev.
    + by rewrite Hev.
  - intros j Hj. rewrite Hev. by apply Hx.
Qed.

(** ** Every call returns *)

Definition returned {A} (r : res A) : Prop := match r with Ok _ | Err _ => True | Panic | OutOfFuel => False end.

Lemma returned_bind {A B} (r : res A) (f : A → res B) : returned r → (∀ a, returned (f a)) → returned (rbind r f).
Proof. destruct r; cbn; auto. Qed.

Lemma returned_ensure p : ∀ t s, returned (t_ensure t p s).
Proof.
  induction p as [|n p IH]; intros t s; cbn [t_ensure]; [done|]. destruct t as [|k ch]; [done|]. destruct (bt_get ch n) as [c|].
  - destruct (is_dir c); [|done]. apply returned_bind; [apply IH|by intros []].
  - destruct (generate s) as [f s']. apply returned_bind; [apply IH|by intros []].
Qed.

Lemma returned_op t o s : returned (t_op t o s).1.
Proof.
  assert (∀ r, returned r → returned (t_lift t s r).1) as Hl by by intros [[]|e| |].
  assert (∀ p, is_root p = false → is_Some (APath_split_last p)) as Hs.
  { intros p Hp. destruct p as [|n p _] using rev_ind; [done|]. rewrite APath_split_last_snoc. by eexists. }
  destruct o as [p v|p|p|src dst|src dst]; cbn [t_op]; repeat (case_match; [done|]); try done; apply Hl.
  - unfold t_store. destruct (Hs p) as [[q n] ->]; [done|]. apply returned_bind; [apply returned_ensure|].
    intros [t' s']. destruct (tlookup t' q); [by destruct (t_put _ _ _ _)|done].
  - apply returned_ensure.
  - unfold t_mv. destruct (tlookup t src); [|done]. destruct (APath_split_last dst) as [[q n]|]; [|done].
    apply returned_bind; [apply returned_ensure|]. intros [t' s']. by destruct (tlookup _ q).
  - unfold t_cp. destruct (tlookup t src) as [x|]; [|done]. destruct (APath_split_last dst) as [[q n]|]; [|done].
    apply returned_bind; [apply returned_ensure|]. intros [t' s']. destruct (tlookup _ q); [by destruct (t_copy x s')|done].
Qed.

Lemma returned_ops ops : ∀ t s, Forall returned (t_ops t s ops).1 ∧ length (t_ops t s ops).1 = length ops.
Proof.
  induction ops as [|o ops IH]; intros t s; cbn [t_ops]; [by split|]. pose proof (returned_op t o s) as Hr.
  destruct (t_op t o s) as [r [t' s']]. destruct (IH t' s') as [Hf Hl]. destruct (t_ops t' s' ops) as [rs ts]. cbn in *.
  split; [by constructor|lia].
Qed.

Lemma run_ok_mono fuel fuel' ops : (fuel ≤ fuel')%nat → ∀ t s n, run_ok fuel t s ops n → run_ok fuel' t s ops n.
Proof.
  intros Hle. induction ops as [|o ops IH]; intros t s n; cbn; [done|]. intros (Ho & Hc & Hr). split_and!; [|done|by apply IH].
  destruct o; cbn in *; intuition lia.
Qed.


End program.
