(* ===== verification/Octets.v ===== *)
(** * Encoders write octets, decoders read them back in range

    What the Rust types [u8] and [u128] give for free: every encoder emits bytes, an
    in-place patch leaves bytes, a document decoded from bytes encodes to bytes, and
    the keys a directory blob holds are 128-bit keys. *)
From S2P Require Import Prelude BTree Codec Ext Scalar Path Value Archived Key Dir WriteBuffer Ctx Fs.

Create HintDb octets.

Lemma bytes_ok_app a b : bytes_ok a → bytes_ok b → bytes_ok (a ++ b).
Proof. intros. by apply Forall_app. Qed.
Lemma bytes_ok_app_inv a b : bytes_ok (a ++ b) → bytes_ok a ∧ bytes_ok b.
Proof. apply Forall_app. Qed.
Lemma bytes_ok_byte b : byte_ok b → bytes_ok [b].
Proof. intros. by apply Forall_singleton. Qed.
Lemma bytes_ok_take n bs : bytes_ok bs → bytes_ok (take n bs).
Proof. apply Forall_take. Qed.
Lemma bytes_ok_drop n bs : bytes_ok bs → bytes_ok (drop n bs).
Proof. apply Forall_drop. Qed.
Lemma bytes_ok_nil : bytes_ok [].
Proof. constructor. Qed.
#[export] Hint Resolve bytes_ok_app bytes_ok_take bytes_ok_drop bytes_ok_nil to_be_bytes_ok : octets.

Ltac octet := apply bytes_ok_byte; by vm_compute.
#[export] Hint Extern 1 (bytes_ok [_]) => octet : octets.

Lemma put_u32_octets buf v : bytes_ok buf → bytes_ok (put_u32 buf v).
Proof. unfold put_u32. auto with octets. Qed.
Lemma put_bytes_octets buf bs : bytes_ok buf → bytes_ok bs → bytes_ok (put_bytes buf bs).
Proof. unfold put_bytes, put_u32. auto with octets. Qed.
#[export] Hint Resolve put_u32_octets put_bytes_octets : octets.

(** Well-formed UTF-8 is made of octets. *)
Lemma utf8_octets bs : utf8_valid bs = true → bytes_ok bs.
Proof.
  induction bs as [[|b0 bs] IH] using (induction_ltof1 _ length); [constructor|]. unfold ltof in IH. cbn [utf8_valid].
  unfold utf8_cont, in_range. intros Hv.
  repeat (case_match; try done);
  repeat (match goal with h : _ && _ = true |- _ => apply andb_true_iff in h as [? ?] | h : _ && _ = false |- _ => clear h end);
  rewrite ?Z.leb_le, ?Z.eqb_eq in *;
  repeat (apply Forall_cons_2; [unfold byte_ok; lia|]); (apply IH; [cbn; lia|done]).
Qed.

(** ** Ordered maps *)

Section entries.
Context {V : Type} (P : bytes * V → Prop).
Implicit Types (m l : list (bytes * V)).

Lemma bt_insert_Forall m k v : Forall P m → P (k, v) → Forall P (bt_insert m k v).
Proof. intros Hm Hv. induction Hm as [|[k' v'] m Hk Hm IH]; cbn; [by repeat constructor|]. destruct (bytes_cmp k k'); by repeat constructor. Qed.
Lemma bt_remove_Forall m k : Forall P m → Forall P (bt_remove m k).
Proof. intros Hm. induction Hm as [|[k' v'] m Hk Hm IH]; cbn; [done|]. destruct (bytes_cmp k k'); by repeat constructor. Qed.
Lemma bt_extend_Forall l : ∀ m, Forall P m → Forall P l → Forall P (bt_extend m l).
Proof.
  induction l as [|[k v] l IH]; intros m Hm Hl; [done|]. apply Forall_cons in Hl as [? ?]. cbn. apply IH; [by apply bt_insert_Forall|done].
Qed.
Lemma bt_collect_Forall l : Forall P l → Forall P (bt_collect l).
Proof. by apply bt_extend_Forall. Qed.
Lemma bt_get_in m k v : bt_get m k = Some v → (k, v) ∈ m.
Proof.
  induction m as [|[k' v'] m IH]; cbn; [done|]. destruct (bytes_cmp k k') eqn:E; [|done|].
  - apply bytes_cmp_eq in E as ->. intros [= <-]. constructor.
  - intros ?. constructor. by apply IH.
Qed.
Lemma bt_get_Forall m k v : Forall P m → bt_get m k = Some v → P (k, v).
Proof. rewrite Forall_forall. intros Hm Hk%bt_get_in. by apply Hm. Qed.
End entries.

Section octets.
Context `{Ext} `{!ExtLaws}.

(** ** Scalars *)

Definition scalar_octets (s : Scalar) : Prop :=
  match s with U8 v => byte_ok v | Str v | Bytes v => bytes_ok v | _ => True end.

Lemma Scalar_encode_octets s buf : bytes_ok buf → scalar_octets s → bytes_ok (Scalar_encode s buf).
Proof.
  intros Hb Hs. destruct s; cbn [Scalar_encode scalar_octets] in *; unfold push;
    try (by auto 6 with octets);
    try (by apply put_bytes_octets; [auto with octets|first [done|apply bigint_bytes_ok]]).
  - destruct v; auto with octets.
  - unfold encode_float, push. repeat case_match; auto with octets;
      (apply put_bytes_octets; [auto with octets|apply mantissa_bytes]).
  - apply put_bytes_octets; [apply put_bytes_octets|]; auto with octets; apply bigint_bytes_ok.
Qed.

Lemma Reader_take_octets n r bs r' : bytes_ok (r_buf r) → Reader_take n r = Ok (bs, r') → bytes_ok bs ∧ r_buf r' = r_buf r.
Proof. intros Hb. unfold Reader_take. repeat case_match; intros; simplify_eq. split; [auto with octets|done]. Qed.

Lemma Reader_bytes_octets r bs r' : bytes_ok (r_buf r) → Reader_bytes r = Ok (bs, r') → bytes_ok bs.
Proof.
  intros Hb. unfold Reader_bytes, Reader_u32. intros ([n r1] & E1 & E2)%rbind_Ok. apply rbind_Ok in E1 as ([bs1 r2] & E1 & [= <- <-]).
  apply Reader_take_octets in E1 as [_ Er]; [|done]. rewrite <- Er in Hb. by apply Reader_take_octets in E2 as [? _].
Qed.

Lemma rmap_Ok {A B} (f : A → B) m b r : rmap f m = Ok (b, r) → ∃ a, m = Ok (a, r) ∧ b = f a.
Proof. unfold rmap. intros ([a r1] & E & [= <- <-])%rbind_Ok. by exists a. Qed.

Lemma Scalar_decode_octets r s r' : bytes_ok (r_buf r) → Scalar_decode r = Ok (s, r') → scalar_octets s.
Proof.
  intros Hb. unfold Scalar_decode. intros ([tag r1] & E & Hs)%rbind_Ok. unfold Reader_u8 in E.
  apply rbind_Ok in E as ([bs r2] & E & E'). apply Reader_take_octets in E as [_ Er]; [|done].
  assert (r_buf r1 = r_buf r) as E1 by (destruct bs; by simplify_eq). rewrite <- E1 in Hb. clear E' Er E1.
  repeat match type of Hs with (if ?c then _ else _) = _ => destruct c end; try done;
  repeat match type of Hs with
  | rmap _ _ = _ => let a := fresh "a" in let Ea := fresh "Ea" in apply rmap_Ok in Hs as (a & Ea & ->)
  | rbind _ _ = _ => let a := fresh "a" in let Ea := fresh "Ea" in
      apply rbind_Ok in Hs as (a & Ea & Hs); try destruct a as [? ?]
  | Ok _ = Ok _ => injection Hs as <- <-
  end; cbn [scalar_octets]; try done; try by eapply Reader_bytes_octets.
  - unfold Reader_u8 in Ea. apply rbind_Ok in Ea as ([bs' r3] & E & E'). apply Reader_take_octets in E as [Hbs _]; [|done].
    destruct bs'; simplify_eq. by apply Forall_cons in Hbs as [? _].
  - unfold from_utf8 in Ea0. case_match; simplify_eq. by eapply Reader_bytes_octets.
  - unfold decode_float_body in Hs. apply rbind_Ok in Hs as ([? ?] & _ & Hs). by apply rbind_Ok in Hs as ([? ?] & _ & [= <- <-]).
  - unfold decode_float_body in Hs. apply rbind_Ok in Hs as ([? ?] & _ & Hs). by apply rbind_Ok in Hs as ([? ?] & _ & [= <- <-]).
Qed.

(** ** Documents *)

Fixpoint value_octets (v : Value) : Prop :=
  match v with
  | Leaf s => scalar_octets s
  | List l => (fix go l := match l with [] => True | v :: l => value_octets v ∧ go l end) l
  | Node m => (fix go m := match m with [] => True | kv :: m => (bytes_ok kv.1 ∧ value_octets kv.2) ∧ go m end) m
  end.

Lemma value_octets_list l : value_octets (List l) ↔ Forall value_octets l.
Proof. simpl. induction l; [split; [constructor|done]|]. rewrite Forall_cons. naive_solver. Qed.

Lemma value_octets_node m : value_octets (Node m) ↔ Forall (λ kv, bytes_ok kv.1 ∧ value_octets kv.2) m.
Proof. simpl. induction m as [|kv m IH]; [split; [constructor|done]|]. rewrite Forall_cons. naive_solver. Qed.

Lemma fold_octets {A} (f : bytes → A → bytes) l : (∀ buf a, bytes_ok buf → bytes_ok (f buf a)) →
  ∀ buf, bytes_ok buf → bytes_ok (fold_left f l buf).
Proof. intros Hf. induction l as [|a l IH]; intros buf Hb; cbn; auto. Qed.

Lemma push_names_octets es : ∀ buf, bytes_ok buf → Forall (λ e, bytes_ok e.1) es → bytes_ok (push_names buf es).1.
Proof.
  induction es as [|[n o] es IH]; intros buf Hb He; cbn; [done|]. apply Forall_cons in He as [Hn He].
  specialize (IH (buf ++ n)). destruct (push_names (buf ++ n) es). auto with octets.
Qed.

Lemma put_record_octets buf r : bytes_ok buf → bytes_ok (put_record buf r).
Proof. destruct r as [[]]. cbn. auto with octets. Qed.

Lemma push_items_octets l : Forall (λ v, ∀ buf, bytes_ok buf → bytes_ok (push_value v buf).1) l →
  ∀ buf, bytes_ok buf → bytes_ok (push_items l buf).1.
Proof.
  induction 1 as [|v l Hv Hl IH]; intros buf Hb; cbn; [done|]. specialize (Hv buf Hb).
  destruct (push_value v buf) as [b o]. specialize (IH b Hv). by destruct (push_items l b).
Qed.

Lemma push_entries_octets m : Forall (λ kv, bytes_ok kv.1 ∧ ∀ buf, bytes_ok buf → bytes_ok (push_value kv.2 buf).1) m →
  ∀ buf, bytes_ok buf → bytes_ok (push_entries m buf).1 ∧ Forall (λ e, bytes_ok e.1) (push_entries m buf).2.
Proof.
  induction 1 as [|kv l [Hn Hv] Hl IH]; intros buf Hb; cbn; [done|]. specialize (Hv buf Hb).
  destruct (push_value kv.2 buf) as [b o]. specialize (IH b Hv). destruct (push_entries l b), IH. split; [done|by constructor].
Qed.

Lemma push_value_octets v : value_octets v → ∀ buf, bytes_ok buf → bytes_ok (push_value v buf).1.
Proof.
  induction v as [s|l IH|m IH]; intros Hv buf Hb.
  - cbn. apply Scalar_encode_octets; [|done]. unfold push. auto with octets.
  - rewrite value_octets_list in Hv. rewrite push_value_list.
    pose proof (push_items_octets l) as Hi. destruct (push_items l buf) as [b offs] eqn:E. cbn.
    apply fold_octets; [intros; auto with octets|]. apply put_u32_octets, bytes_ok_app; [|octet].
    replace b with (push_items l buf).1 by (by rewrite E). apply Hi; [|done].
    rewrite Forall_forall in IH, Hv |- *. naive_solver.
  - rewrite value_octets_node in Hv. rewrite push_value_node.
    pose proof (push_entries_octets m) as Hi. destruct (push_entries m buf) as [b es] eqn:E.
    destruct (λ H, Hi H buf Hb) as [Hb' Hes]; [rewrite Forall_forall in IH, Hv |- *; naive_solver|]. rewrite E in Hb', Hes.
    unfold push_object. pose proof (push_names_octets es b Hb' Hes) as Hn. destruct (push_names b es) as [b' rs].
    apply fold_octets; [intros; by apply put_record_octets|]. apply put_u32_octets, bytes_ok_app; [done|octet].
Qed.

Lemma encode_octets v : value_octets v → bytes_ok (encode v).
Proof.
  intros Hv. unfold encode. pose proof (push_value_octets v Hv begin_blob) as Hb.
  destruct (push_value v begin_blob) as [b r]. unfold patch_root.
  assert (bytes_ok b) by (apply Hb; unfold begin_blob; auto with octets). auto with octets.
Qed.

(** What is decoded from octets encodes to octets. *)
Lemma entries_from_names blob t n : ∀ i es, entries_from blob t i n = Ok es → Forall (λ e, bytes_ok e.1) es.
Proof.
  induction n as [|n IH]; intros i es; cbn [entries_from]; [by intros [= <-]|].
  intros (nm & En & (c & _ & (es' & Er & [= <-])%rbind_Ok)%rbind_Ok)%rbind_Ok. constructor; [|by eapply IH].
  unfold entry_name in En. apply rbind_Ok in En as (bs & _ & En). unfold from_utf8 in En. case_match; simplify_eq. by apply utf8_octets.
Qed.

Lemma items_from_Forall blob off f (P : Value → Prop) n : (∀ o v, f o = Ok v → P v) →
  ∀ i l, items_from blob off f i n = Ok l → Forall P l.
Proof.
  intros Hf. induction n as [|n IH]; intros i l; cbn [items_from]; [by intros [= <-]|].
  intros (c & _ & (c' & _ & (x & Ex & (xs & Exs & [= <-])%rbind_Ok)%rbind_Ok)%rbind_Ok)%rbind_Ok. constructor; [by eapply Hf|by eapply IH].
Qed.

Lemma node_to_value_octets fuel blob : bytes_ok blob → ∀ off v, node_to_value fuel blob off = Ok v → value_octets v.
Proof.
  intros Hb. induction fuel as [|fuel IH]; intros off v; cbn [node_to_value]; [done|].
  intros (k & _ & Hk)%rbind_Ok. destruct k.
  - apply rbind_Ok in Hk as (s & Hs & [= <-]). unfold node_scalar in Hs. apply rbind_Ok in Hs as (t & _ & Hs).
    destruct (negb _); [done|]. apply rbind_Ok in Hs as (body & Hbody & ([s' r] & Hs & [= <-])%rbind_Ok). cbn.
    apply Scalar_decode_octets in Hs; [done|]. unfold tail_from in Hbody. case_match; simplify_eq. cbn. auto with octets.
  - apply rbind_Ok in Hk as (c & _ & (l & Hl & [= <-])%rbind_Ok). apply value_octets_list. by eapply items_from_Forall.
  - apply rbind_Ok in Hk as (es & Hes & (m & Hm & [= <-])%rbind_Ok). apply value_octets_node.
    apply bt_collect_Forall. unfold node_entries in Hes. apply rbind_Ok in Hes as (t & _ & Hes). destruct (negb _); [done|].
    apply rbind_Ok in Hes as (count & _ & Hes). apply entries_from_names in Hes. unfold map_entries in Hm. apply mapM_res_Ok in Hm.
    clear -Hes Hm IH. revert Hes. induction Hm as [|e y es m Hy Hm IHm]; [constructor|]. intros [Hn Hes]%Forall_cons.
    constructor; [|by apply IHm]. apply rbind_Ok in Hy as (x & Hx & [= <-]). cbn. split; [done|by eapply IH].
Qed.

Lemma decode_octets fuel blob v : bytes_ok blob → decode fuel blob = Ok v → value_octets v.
Proof. intros Hb. unfold decode. intros (r & _ & Hv)%rbind_Ok. by eapply node_to_value_octets. Qed.

Definition vpath_octets (p : VPath) : Prop := Forall (λ s, match s with Name n => bytes_ok n | Index _ => True end) p.

Lemma build_fresh_octets p x : value_octets x → vpath_octets p → ∀ v, build_fresh p x = Some v → value_octets v.
Proof.
  intros Hx. induction 1 as [|[n|i] p Hn Hp IH]; intros v; cbn [build_fresh]; [by intros [= <-]|..].
  - destruct (build_fresh p x) as [c|]; [|done]. intros [= <-]. apply value_octets_node. repeat constructor; [done|]. by apply IH.
  - case_match; [|done]. destruct (build_fresh p x) as [c|]; [|done]. intros [= <-]. apply value_octets_list. repeat constructor. by apply IH.
Qed.

Lemma set_in_octets p x : value_octets x → vpath_octets p → ∀ v, value_octets v → value_octets (set_in v p x).1.
Proof.
  intros Hx. induction 1 as [|s p Hs Hp IH]; intros v Hv; cbn [set_in]; [done|].
  destruct v as [sc|l|m], s as [n|i]; try done.
  - rewrite value_octets_list in Hv. destruct (l !! Z.to_nat i) as [c|] eqn:E.
    + assert (value_octets c) as Hc by (by eapply Forall_lookup_1). specialize (IH c Hc).
      destruct (set_in c p x). apply value_octets_list. by apply Forall_insert.
    + destruct (i =? blen l); [|by apply value_octets_list]. destruct (build_fresh p x) eqn:Eb; apply value_octets_list; [|done].
      apply Forall_app; split; [done|]. constructor; [|done]. by eapply build_fresh_octets.
  - rewrite value_octets_node in Hv. destruct (bt_get m n) as [c|] eqn:E.
    + pose proof (bt_get_Forall _ _ _ _ Hv E) as [_ Hc]. specialize (IH c Hc).
      destruct (set_in c p x). apply value_octets_node. by apply bt_insert_Forall.
    + destruct (build_fresh p x) eqn:Eb; apply value_octets_node; [|done].
      apply bt_insert_Forall; [done|]. split; [done|]. by eapply build_fresh_octets.
Qed.

(** The patch of [put_scalar] in place. *)
Lemma patch_scalar_octets e p x b e' : bytes_ok e → scalar_octets x → patch_scalar e p x = Ok (b, e') → bytes_ok e'.
Proof.
  intros He Hx. unfold patch_scalar. intros ([k pl] & _ & Hk)%rbind_Ok. destruct k; [by simplify_eq|].
  apply rbind_Ok in Hk as ([[so len]|] & _ & Hk); [|by simplify_eq]. destruct (negb _); simplify_eq; [done|].
  unfold overwrite. pose proof (Scalar_encode_octets x [] bytes_ok_nil Hx). auto 6 with octets.
Qed.
End octets.

(** ** Directories *)

Definition child_octets (c : bytes * AKey) : Prop := bytes_ok c.1 ∧ akey_ok c.2.
Abbreviation children_octets := (Forall child_octets).

Lemma dir_table_octets m : ∀ off, bytes_ok (dir_table off m).
Proof. induction m as [|c m IH]; intros off; cbn; [constructor|]. unfold dir_rec, into_bytes. auto 7 with octets. Qed.

Lemma encode_dir_octets m : children_octets m → bytes_ok (encode_dir m).
Proof.
  intros Hm. rewrite encode_dir_eq. repeat apply bytes_ok_app; auto with octets; [apply dir_table_octets|].
  induction Hm as [|c m [Hc _] Hm IH]; cbn; auto with octets.
Qed.

Lemma file_entry_octets b : bytes_ok b → bytes_ok (file_entry b).
Proof. by constructor. Qed.
Lemma dir_entry_octets b : bytes_ok b → bytes_ok (dir_entry b).
Proof. by constructor. Qed.

Lemma entry_split_octets e k p : bytes_ok e → entry_split e = Ok (k, p) → bytes_ok p.
Proof. intros He. unfold entry_split. destruct e as [|t q]; [done|]. apply Forall_cons in He as [_ He]. by intros (k' & _ & [= <- <-])%rbind_Ok. Qed.

Lemma dir_entry_akey_ok blob entry k : bytes_ok blob → dir_entry_akey blob entry = Ok k → akey_ok k.
Proof.
  intros Hb. unfold dir_entry_akey, slice. intros (bs & Hs & [= <-])%rbind_Ok. do 2 (case_match; [done|] || (case_match; [|done])).
  injection Hs as <-. unfold akey_ok, unsigned_ok, from_bytes. set (bs := take _ _).
  pose proof (of_be_bound bs) as Ho. assert (bytes_ok bs) as Hbs by (unfold bs; auto with octets). specialize (Ho Hbs).
  assert (blen bs ≤ 16) as Hl by (unfold blen, bs; rewrite length_take; lia).
  pose proof (blen_nonneg bs). assert (256 ^ blen bs ≤ 256 ^ 16) as Hp by (apply Z.pow_le_mono_r; lia). change (256 ^ 16) with (2 ^ 128) in Hp. lia.
Qed.

Lemma dir_get_octets blob n k : bytes_ok blob → dir_get blob n = Ok (Some k) → akey_ok k.
Proof.
  intros Hb. unfold dir_get. intros (count & _ & ([mid|] & _ & Hm)%rbind_Ok)%rbind_Ok; [|done].
  apply rbind_Ok in Hm as (k' & Hk & [= <-]). by eapply dir_entry_akey_ok.
Qed.

Lemma dir_entries_octets blob es : bytes_ok blob → dir_entries blob = Ok es → children_octets es.
Proof.
  intros Hb. unfold dir_entries. intros (count & _ & Hes)%rbind_Ok. revert es Hes. generalize 0.
  induction (Z.to_nat count) as [|n IH]; intros i es; cbn [dir_entries_from]; [by intros [= <-]|].
  intros (nm & En & (c & Hc & (es' & Er & [= <-])%rbind_Ok)%rbind_Ok)%rbind_Ok. constructor; [|by eapply IH]. split; [|by eapply dir_entry_akey_ok].
  unfold dir_entry_name in En. apply rbind_Ok in En as (bs & _ & En). unfold from_utf8 in En. case_match; simplify_eq. by apply utf8_octets.
Qed.
