(* ===== verification/Typing.v ===== *)
(** * What decoding returns is well typed

    Stored bytes are not trusted: [Scalar::decode] and [ArchivedNode::to_value] are run on
    whatever the engine returns.  Whenever they return a value, it inhabits its Rust type:
    every scalar is in its width, every string and every key is UTF-8, and the keys of an
    object are strictly ascending. *)
From S2P Require Import Prelude BTree Codec Ext Scalar Path Value Archived Key Dir WriteBuffer Ctx Fs Octets Access.

(** ** Typed readers *)

Definition reader_ok (r : Reader) : Prop := bytes_ok (r_buf r) ∧ 0 ≤ r_pos r.

Definition yields {A} (d : Reader → res (A * Reader)) (P : A → Prop) : Prop :=
  ∀ r a r', reader_ok r → d r = Ok (a, r') → P a ∧ reader_ok r'.

Lemma yields_bind {A B} (d : Reader → res (A * Reader)) (k : A → Reader → res (B * Reader)) P Q :
  yields d P → (∀ a, P a → yields (k a) Q) → yields (λ r, let? '(a, r) := d r in k a r) Q.
Proof. intros Hd Hk r b r' Hr ([a r1] & Ea & Eb)%rbind_Ok. destruct (Hd r a r1 Hr Ea) as [Ha Hr1]. by eapply Hk. Qed.

Lemma yields_ret {A} (a : A) (P : A → Prop) : P a → yields (λ r, Ok (a, r)) P.
Proof. by intros Ha r b r' Hr [= <- <-]. Qed.

Lemma yields_check {A B} (m : res A) (k : A → Reader → res (B * Reader)) P :
  (∀ a, m = Ok a → yields (k a) P) → yields (λ r, let? a := m in k a r) P.
Proof. intros Hk r b r' Hr (a & Ea & Eb)%rbind_Ok. by eapply Hk. Qed.

Lemma yields_err {A} e (P : A → Prop) : yields (λ _, Err e) P.
Proof. by intros r b r'. Qed.

Lemma yields_rmap {A B} (f : A → B) d P (Q : B → Prop) : yields d P → (∀ a, P a → Q (f a)) → yields (λ r, rmap f (d r)) Q.
Proof. intros Hd Hf. apply (yields_bind d (λ a r, Ok (f a, r)) P Q); [done|]. intros a Ha. by apply yields_ret, Hf. Qed.

Lemma yields_any {A} d (P : A → Prop) : yields d P → yields d (λ _, True).
Proof. intros Hd r a r' Hr E. by destruct (Hd r a r' Hr E). Qed.

Lemma bytes_ok_slice n m (bs : bytes) : bytes_ok bs → bytes_ok (take n (drop m bs)).
Proof. intros Hb. by apply Forall_take, Forall_drop. Qed.

Lemma yields_take n : 0 ≤ n → yields (Reader_take n) (λ bs, bytes_ok bs ∧ blen bs = n).
Proof.
  intros Hn r bs r' [Hb Hp]. unfold Reader_take. destruct (USIZE_MAX <? r_pos r + n); [done|].
  destruct (Z.ltb_spec (blen (r_buf r)) (r_pos r + n)); [done|]. intros [= <- <-]. split; [|by split; [|cbn; lia]].
  split; [by apply bytes_ok_slice|]. unfold blen in *. rewrite length_take, length_drop. lia.
Qed.

Lemma of_be_width n bs : bytes_ok bs → blen bs = n → 0 ≤ n → unsigned_ok (8 * n) (of_be bs).
Proof.
  intros Hb <- Hn. pose proof (of_be_bound bs Hb). unfold unsigned_ok. replace (2 ^ (8 * blen bs)) with (256 ^ blen bs); [done|].
  change 256 with (2 ^ 8). by rewrite <- Z.pow_mul_r by lia.
Qed.

Lemma to_signed_width w u : 0 < w → unsigned_ok w u → signed_ok w (to_signed w u).
Proof.
  unfold unsigned_ok, signed_ok, to_signed. intros Hw Hu.
  assert (2 ^ w = 2 * 2 ^ (w - 1)) by (rewrite <- Z.pow_succ_r by lia; f_equal; lia). destruct (Z.ltb_spec u (2 ^ (w - 1))); lia.
Qed.

Lemma yields_unsigned n : 0 ≤ n → yields (r_unsigned n) (unsigned_ok (8 * n)).
Proof.
  intros Hn. apply (yields_bind (Reader_array n) (λ bs r, Ok (of_be bs, r)) _ _ (yields_take n Hn)). intros bs [Hb Hl].
  by apply yields_ret, of_be_width.
Qed.

Lemma yields_signed n : 0 < n → yields (r_signed n) (signed_ok (8 * n)).
Proof.
  intros Hn. apply (yields_bind (Reader_array n) (λ bs r, Ok (to_signed (8 * n) (of_be bs), r)) _ _ (yields_take n ltac:(lia))). intros bs [Hb Hl].
  apply yields_ret, to_signed_width; [lia|]. apply of_be_width; [done..|lia].
Qed.

Lemma yields_u8 : yields Reader_u8 (unsigned_ok 8).
Proof.
  apply (yields_bind (Reader_take 1) (λ bs r, match bs with b :: _ => Ok (b, r) | [] => Panic end) _ _ (yields_take 1 ltac:(lia))).
  intros [|b bs] [Hb Hl]; [done|]. apply Forall_cons in Hb as [Hb _]. by apply yields_ret.
Qed.

Lemma yields_u32 : yields Reader_u32 (unsigned_ok 32).
Proof. apply (yields_unsigned 4). lia. Qed.

Lemma yields_u64 : yields Reader_u64 (unsigned_ok 64).
Proof. apply (yields_unsigned 8). lia. Qed.

Lemma yields_bytes : yields Reader_bytes (λ bs, bytes_ok bs ∧ blen bs < 2 ^ 32).
Proof.
  apply (yields_bind Reader_u32 (λ n r, Reader_take n r) _ _ yields_u32). intros n Hn r bs r' Hr E. unfold unsigned_ok in Hn.
  destruct (yields_take n ltac:(lia) r bs r' Hr E) as [[Hb Hl] Hr']. split; [|done]. split; [done|lia].
Qed.

(** ** Scalars *)

Section typing.
Context `{Ext}.

(** [scalar_ok] without what it asks of the printed form of a big number: an in-memory
    integer of any size is well typed. *)
Definition machine_scalar (s : Scalar) : Prop := match s with BigInt _ | Rational _ => True | _ => scalar_ok s end.

Lemma decode_scalar_typed : yields Scalar_decode machine_scalar.
Proof.
  apply (yields_bind Reader_u8 (λ tag r, _) _ _ yields_u8). intros tag _.
  destruct (tag =? Tag.NULL); [by apply yields_ret|].
  destruct (tag =? Tag.BOOL); [by eapply yields_rmap; [apply yields_u8|]|].
  destruct (tag =? Tag.I8); [by eapply yields_rmap; [apply (yields_signed 1); lia|]|].
  destruct (tag =? Tag.I16); [by eapply yields_rmap; [apply (yields_signed 2); lia|]|].
  destruct (tag =? Tag.I32); [by eapply yields_rmap; [apply (yields_signed 4); lia|]|].
  destruct (tag =? Tag.I64); [by eapply yields_rmap; [apply (yields_signed 8); lia|]|].
  destruct (tag =? Tag.I128); [by eapply yields_rmap; [apply (yields_signed 16); lia|]|].
  destruct (tag =? Tag.U8); [by eapply yields_rmap; [apply yields_u8|]|].
  destruct (tag =? Tag.U16); [by eapply yields_rmap; [apply (yields_unsigned 2); lia|]|].
  destruct (tag =? Tag.U32); [by eapply yields_rmap; [apply yields_u32|]|].
  destruct (tag =? Tag.U64); [by eapply yields_rmap; [apply yields_u64|]|].
  destruct (tag =? Tag.U128); [by eapply yields_rmap; [apply (yields_unsigned 16); lia|]|].
  destruct (tag =? Tag.F32); [by eapply yields_rmap; [apply (yields_unsigned 4); lia|]|].
  destruct (tag =? Tag.F64); [by eapply yields_rmap; [apply (yields_unsigned 8); lia|]|].
  destruct (tag =? Tag.STR).
  { apply (yields_bind Reader_bytes (λ bs r, _) _ _ yields_bytes). intros bs [Hb Hl]. apply yields_check. intros s Hs.
    unfold from_utf8 in Hs. destruct (utf8_valid bs) eqn:Hu; [|done]. injection Hs as <-. by apply yields_ret. }
  destruct (tag =? Tag.BYTES); [by eapply yields_rmap; [apply yields_bytes|]|].
  destruct (tag =? Tag.UUID); [by eapply yields_rmap; [apply (yields_unsigned 16); lia|]|].
  assert (∀ msg, yields (decode_date msg) (λ _, True)) as Hdate.
  { intros msg. apply (yields_bind (r_signed 4) (λ days r, _) _ _ (yields_signed 4 ltac:(lia))). intros days _. apply yields_check. intros d _. by apply yields_ret. }
  assert (yields decode_time (λ _, True)) as Htime.
  { apply (yields_bind Reader_u32 (λ secs r, _) _ _ yields_u32). intros secs _. apply (yields_bind Reader_u32 (λ nanos r, _) _ _ yields_u32).
    intros nanos _. apply yields_check. intros t _. by apply yields_ret. }
  assert (∀ sign, yields (decode_float_body sign) machine_scalar) as Hfloat.
  { intros sign. apply (yields_bind (r_signed 1) (λ e r, _) _ _ (yields_signed 1 ltac:(lia))). intros e _.
    apply (yields_bind Reader_bytes (λ m r, _) _ _ yields_bytes). intros m _. by apply yields_ret. }
  destruct (tag =? Tag.DATE); [by eapply yields_rmap; [apply Hdate|]|].
  destruct (tag =? Tag.TIME); [by eapply yields_rmap; [apply Htime|]|].
  destruct (tag =? Tag.DATETIME).
  { apply (yields_bind (decode_date _) (λ d r, _) _ _ (Hdate _)). intros d _. apply (yields_bind decode_time (λ t r, _) _ _ Htime). intros t _. by apply yields_ret. }
  destruct (tag =? Tag.DURATION).
  { apply (yields_bind (r_signed 8) (λ x r, _) _ _ (yields_signed 8 ltac:(lia))). intros secs _.
    apply (yields_bind (r_signed 4) (λ x r, _) _ _ (yields_signed 4 ltac:(lia))). intros nanos _.
    do 2 (apply yields_check; intros ? _). by apply yields_ret. }
  destruct (tag =? Tag.BIG_INT); [by eapply yields_rmap; [apply yields_bytes|]|].
  do 4 (destruct (tag =? _); [by apply yields_ret|]).
  do 2 (destruct (tag =? _); [apply Hfloat|]).
  destruct (tag =? Tag.BIG_RATIONAL); [|apply yields_err].
  do 2 (apply (yields_bind Reader_bytes (λ m r, _) _ _ yields_bytes); intros ? _). apply yields_check. intros q _. by apply yields_ret.
Qed.

(** ** Documents *)

Inductive well_typed : Value → Prop :=
| typed_leaf s : machine_scalar s → well_typed (Leaf s)
| typed_list l : Forall well_typed l → well_typed (List l)
| typed_node m : bt_sorted m → Forall (λ kv, str_ok kv.1 ∧ well_typed kv.2) m → well_typed (Node m).

Context (blob : bytes).
Hypothesis Hblob : bytes_ok blob.

Lemma slice_bytes off len bs : slice blob off len = Ok bs → bytes_ok bs.
Proof. unfold slice. repeat case_match; try done. intros [= <-]. by apply bytes_ok_slice. Qed.

Lemma entry_name_typed entry name : Archived.entry_name blob entry = Ok name → str_ok name.
Proof.
  unfold Archived.entry_name, Archived.entry_name_bytes. intros (bs & (o & _ & (n & _ & Hs)%rbind_Ok)%rbind_Ok & Hu)%rbind_Ok.
  unfold from_utf8 in Hu. destruct (utf8_valid bs) eqn:E; [|done]. injection Hu as <-. split; [done|]. by eapply slice_bytes.
Qed.

Lemma entries_typed table n : ∀ i es, entries_from blob table i n = Ok es → Forall (λ e, str_ok e.1) es.
Proof.
  induction n as [|n IH]; intros i es; cbn [entries_from]; [by intros [= <-]|].
  intros (name & Hn & (child & _ & (rest & Hr & [= <-])%rbind_Ok)%rbind_Ok)%rbind_Ok. constructor; [by eapply entry_name_typed|by eapply IH].
Qed.

Lemma node_scalar_typed off s : node_scalar blob off = Ok s → machine_scalar s.
Proof.
  unfold node_scalar. intros (t & _ & E)%rbind_Ok. destruct (negb _); [done|]. apply rbind_Ok in E as (body & Hb & ([s' r] & Hs & [= <-])%rbind_Ok).
  assert (bytes_ok body) as Hok. { unfold tail_from in Hb. destruct (_ <=? _); [|done]. injection Hb as <-. by apply Forall_drop. }
  by destruct (decode_scalar_typed (Reader_new body) s' r (conj Hok (Z.le_refl 0)) Hs).
Qed.

Lemma items_typed off f n : (∀ c v, f c = Ok v → well_typed v) → ∀ i items, items_from blob off f i n = Ok items → Forall well_typed items.
Proof.
  intros Hf. induction n as [|n IH]; intros i items; cbn [items_from]; [by intros [= <-]|].
  intros (c & _ & (c' & _ & (x & Hx & (xs & Hxs & [= <-])%rbind_Ok)%rbind_Ok)%rbind_Ok)%rbind_Ok. constructor; [by eapply Hf|by eapply IH].
Qed.

Lemma map_entries_typed f es : (∀ c v, f c = Ok v → well_typed v) → Forall (λ e, str_ok e.1) es →
  ∀ m, map_entries f es = Ok m → Forall (λ kv, str_ok kv.1 ∧ well_typed kv.2) m.
Proof.
  intros Hf. induction 1 as [|e es He _ IH]; intros m; cbn; [by intros [= <-]|].
  intros (y & (x & Hx & [= <-])%rbind_Ok & (ys & Hys & [= <-])%rbind_Ok)%rbind_Ok. constructor; [|by apply IH]. split; [done|by eapply Hf].
Qed.

(** C21: Whatever bytes are stored, a value that decoding returns is well typed: every
    scalar in it lies in its machine width, every string and object key is valid UTF-8
    over real bytes, and the keys of every object are strictly ascending, so lookups by
    binary search and by key agree with iteration. *)
Theorem decode_well_typed fuel v : decode fuel blob = Ok v → well_typed v.
Proof using Hblob.
  unfold decode. intros (root & _ & E)%rbind_Ok. revert root v E. induction fuel as [|fuel IH]; intros off v; cbn [node_to_value]; [done|].
  intros (k & _ & E)%rbind_Ok. destruct k.
  - apply rbind_Ok in E as (s & Hs & [= <-]). constructor. by eapply node_scalar_typed.
  - apply rbind_Ok in E as (count & _ & (items & Hi & [= <-])%rbind_Ok). constructor. by eapply items_typed.
  - apply rbind_Ok in E as (es & He & (m & Hm & [= <-])%rbind_Ok). constructor; [apply bt_sorted_collect|].
    apply bt_collect_Forall. eapply map_entries_typed; [by apply IH| |done].
    unfold node_entries in He. apply rbind_Ok in He as (t & _ & He). destruct (negb _); [done|].
    apply rbind_Ok in He as (n & _ & He). by eapply entries_typed.
Qed.
End typing.

(** ** At a concrete blob *)

Module TypingExamples.
Import ExtModel AccessWitness.

Lemma decode_well_typed_witness : decode 3 (encode doc) = Ok doc ∧ well_typed doc.
Proof.
  assert (decode 3 (encode doc) = Ok doc) as E by (apply decode_encode_lemma; [exact doc_ok|by vm_compute|by vm_compute; lia]).
  split; [exact E|]. apply (decode_well_typed (encode doc)) with (fuel := 3%nat); [|exact E]. apply (bool_decide_unpack _). by vm_compute.
Defined.
End TypingExamples.
