(* ===== verification/Text.v ===== *)
(** * The textual form of scalars

    What [Display] and [FromStr] do for the types the program prints and parses:
    integers, booleans and characters in full; the decimal form of floats and the
    texts of the third-party scalars are an interface, [TextForms]. *)
From S2P Require Import Prelude Codec Ext Scalar Path Value.

Inductive IntTy : Type := Ti8 | Ti16 | Ti32 | Ti64 | Ti128 | Tu8 | Tu16 | Tu32 | Tu64 | Tu128.

Definition int_bits (ty : IntTy) : Z :=
  match ty with
  | Ti8 | Tu8 => 8 | Ti16 | Tu16 => 16 | Ti32 | Tu32 => 32 | Ti64 | Tu64 => 64 | Ti128 | Tu128 => 128
  end.
Definition int_signed (ty : IntTy) : bool :=
  match ty with Ti8 | Ti16 | Ti32 | Ti64 | Ti128 => true | _ => false end.
Definition int_ok (ty : IntTy) (z : Z) : Prop :=
  if int_signed ty then signed_ok (int_bits ty) z else unsigned_ok (int_bits ty) z.

Lemma int_width ty : 2 ^ int_bits ty ≤ 2 ^ 128 ∧ 2 ^ int_bits ty = 2 * 2 ^ (int_bits ty - 1) ∧ 0 < 2 ^ (int_bits ty - 1).
Proof. by destruct ty. Qed.

Lemma int_ok_abs ty z : int_ok ty z → Z.abs z < 10 ^ 39.
Proof.
  intros Hz. destruct (int_width ty) as (Hw & Hd & Hp). unfold int_ok, signed_ok, unsigned_ok in Hz.
  assert (2 ^ 128 < 10 ^ 39) by done. destruct (int_signed ty); lia.
Qed.

(** [Display] of an integer: at most 39 digits, for [u128]. *)
Definition show_nat (z : Z) : bytes := show_dec 39 z [].
Definition show_int (z : Z) : bytes := if z <? 0 then 45 :: show_nat (- z) else show_nat z.

Definition show_bool (b : bool) : bytes :=
  if b then [116; 114; 117; 101] else [102; 97; 108; 115; 101].

(** [char::to_string]: the UTF-8 encoding of a code point. *)
Definition show_char (c : Z) : bytes :=
  if c <? 128 then [c]
  else if c <? 2048 then [192 + c / 64; 128 + c mod 64]
  else if c <? 65536 then [224 + c / 4096; 128 + (c / 64) mod 64; 128 + c mod 64]
  else [240 + c / 262144; 128 + (c / 4096) mod 64; 128 + (c / 64) mod 64; 128 + c mod 64].

(** The values of [char]: the code points that are not surrogates. *)
Definition char_ok (c : Z) : Prop := 0 ≤ c < 55296 ∨ 57344 ≤ c < 1114112.

(** The textual forms that come from elsewhere: the decimal form of a float (the
    standard library's shortest form, on bit patterns), and [to_string] of the
    third-party scalars. *)
Class TextForms `{Ext} : Type := {
  f32_to_string : Z → bytes;
  f64_to_string : Z → bytes;
  f32_from_str : bytes → option Z;
  f64_from_str : bytes → option Z;
  uuid_to_string : Z → bytes;
  date_to_string : NaiveDate → bytes;
  time_to_string : NaiveTime → bytes;
  datetime_to_rfc3339 : DateTimeUtc → bytes;
  duration_to_string : TimeDelta → bytes;
  bigint_to_string : Z → bytes;
  bigfloat_to_string : BigFloat → bytes;
  rational_to_string : BigRational → bytes
}.

(** ** The texts are strings *)

Section text.
Context `{Ext}.
Context `{!TextForms}.

(** The texts that come from elsewhere are strings of the program. *)
Class TextLaws : Prop := {
  f32_text b : str_ok (f32_to_string b);
  f64_text b : str_ok (f64_to_string b);
  uuid_text u : str_ok (uuid_to_string u);
  date_text d : str_ok (date_to_string d);
  time_text t : str_ok (time_to_string t);
  datetime_text d : str_ok (datetime_to_rfc3339 d);
  duration_text d : str_ok (duration_to_string d);
  bigint_text z : str_ok (bigint_to_string z);
  bigfloat_text f : str_ok (bigfloat_to_string f);
  rational_text q : str_ok (rational_to_string q)
}.

Lemma ascii_str_ok s : Forall (λ b, 0 ≤ b ≤ 127) s → str_ok s.
Proof.
  intros Hs. split; [|eapply Forall_impl; [exact Hs|]; unfold byte_ok; lia].
  induction Hs as [|b s Hb _ IH]; [done|]. cbn [utf8_valid].
  assert (in_range 0 127 b = true) as -> by (apply in_range_spec; lia). done.
Qed.

Lemma show_nat_digits z : 0 ≤ z → Forall (λ b, 48 ≤ b ≤ 57) (show_nat z).
Proof. intros Hz. by apply show_dec_digits. Qed.

Lemma show_int_str_ok z : str_ok (show_int z).
Proof.
  apply ascii_str_ok. unfold show_int.
  destruct (Z.ltb_spec z 0); [constructor; [lia|]|];
    (eapply Forall_impl; [apply show_nat_digits; lia|simpl; lia]).
Qed.

Lemma in_range_true lo hi b : lo ≤ b ≤ hi → in_range lo hi b = true.
Proof. apply in_range_spec. Qed.

Lemma in_range_false lo hi b : b < lo ∨ hi < b → in_range lo hi b = false.
Proof. intros Hb. apply not_true_iff_false. rewrite in_range_spec. lia. Qed.

Lemma cont_mod x : utf8_cont (128 + x mod 64) = true.
Proof. apply in_range_true. pose proof (Z.mod_pos_bound x 64). lia. Qed.

(** The leading byte and the next six bits of a longer encoding. *)
Lemma lead_bits c k lo hi : 0 < k → lo * k ≤ c < hi * k →
  c / (k * 64) * 64 + (c / k) mod 64 = c / k ∧ lo ≤ c / k < hi ∧ 0 ≤ (c / k) mod 64 < 64.
Proof.
  intros Hk Hc. rewrite <- Z.div_div by lia. pose proof (Z.div_mod (c / k) 64). pose proof (Z.mod_pos_bound (c / k) 64).
  assert (lo ≤ c / k) by (apply Z.div_le_lower_bound; lia). assert (c / k < hi) by (apply Z.div_lt_upper_bound; lia). lia.
Qed.

Lemma show_char_valid c : char_ok c → utf8_valid (show_char c) = true.
Proof.
  unfold char_ok, show_char. intros Hc. destruct (Z.ltb_spec c 128); [cbn [utf8_valid]; by rewrite in_range_true by lia|].
  destruct (Z.ltb_spec c 2048); [|destruct (Z.ltb_spec c 65536)].
  - cbn [utf8_valid]. assert (2 ≤ c / 64 < 32) by (split; [apply Z.div_le_lower_bound|apply Z.div_lt_upper_bound]; lia).
    rewrite (in_range_false 0 127), (in_range_true 194 223), cont_mod by lia. done.
  - destruct (lead_bits c 64 32 1024) as (Hq & Hr & Hm); [lia..|]. change (64 * 64) with 4096 in Hq.
    assert (c / 64 < 864 ∨ 896 ≤ c / 64) by (destruct Hc; [left; apply Z.div_lt_upper_bound|right; apply Z.div_le_lower_bound]; lia).
    pose proof (cont_mod (c / 64)) as Hc1. pose proof (cont_mod c) as Hc2.
    set (a := c / 4096) in *. set (b := (c / 64) mod 64) in *. set (d := 128 + c mod 64) in *. cbn [utf8_valid].
    rewrite (in_range_false 0 127), (in_range_false 194 223), Hc1, Hc2 by lia.
    destruct (Z.eqb_spec (224 + a) 224); [by rewrite (in_range_true 160 191) by lia|].
    destruct (Z.eqb_spec (224 + a) 237); [by rewrite (in_range_true 128 159) by lia|]. by rewrite in_range_true by lia.
  - destruct (lead_bits c 4096 16 272) as (Hq & Hr & Hm); [lia..|]. change (4096 * 64) with 262144 in Hq.
    pose proof (cont_mod (c / 4096)) as Hc1. pose proof (cont_mod (c / 64)) as Hc2. pose proof (cont_mod c) as Hc3.
    set (a := c / 262144) in *. set (b := (c / 4096) mod 64) in *. set (d := 128 + (c / 64) mod 64) in *.
    set (e := 128 + c mod 64) in *. cbn [utf8_valid].
    rewrite (in_range_false 0 127), (in_range_false 194 223), (in_range_false 225 239), Hc1, Hc2, Hc3 by lia.
    rewrite (proj2 (Z.eqb_neq (240 + a) 224)), (proj2 (Z.eqb_neq (240 + a) 237)) by lia.
    destruct (Z.eqb_spec (240 + a) 240); [by rewrite (in_range_true 144 191) by lia|].
    destruct (in_range 241 243 (240 + a)) eqn:E; [done|]. apply not_true_iff_false in E. rewrite in_range_spec in E.
    rewrite (proj2 (Z.eqb_eq (240 + a) 244)), (in_range_true 128 143) by lia. done.
Qed.

Lemma show_char_str_ok c : char_ok c → str_ok (show_char c).
Proof.
  intros Hc. split; [by apply show_char_valid|]. unfold char_ok in Hc. unfold show_char, bytes_ok, byte_ok.
  assert (∀ k, 0 < k → c < 256 * k → 0 ≤ c / k < 256) as Hd.
  { intros k Hk Hl. split; [apply Z.div_pos; lia|apply Z.div_lt_upper_bound; lia]. }
  pose proof (Z.mod_pos_bound c 64). pose proof (Z.mod_pos_bound (c / 64) 64). pose proof (Z.mod_pos_bound (c / 4096) 64).
  assert (c < 2048 → c / 64 < 32) by (intros; apply Z.div_lt_upper_bound; lia).
  assert (c < 65536 → c / 4096 < 16) by (intros; apply Z.div_lt_upper_bound; lia).
  assert (c / 262144 < 5) by (apply Z.div_lt_upper_bound; lia).
  assert (0 ≤ c / 64 ∧ 0 ≤ c / 4096 ∧ 0 ≤ c / 262144) by (split_and!; apply Z.div_pos; lia).
  destruct (Z.ltb_spec c 128); [|destruct (Z.ltb_spec c 2048); [|destruct (Z.ltb_spec c 65536)]];
    repeat constructor; lia.
Qed.
End text.

(** ** A model of the interface *)

Module TextModel.
Import ExtModel.

(** Texts for the forms that come from elsewhere: a float's bit pattern and the low
    digits of a big integer in decimal, a fixed word for the other third-party scalars. *)
#[export] Instance text_model : TextForms := {|
  f32_to_string b := show_nat (b mod 2 ^ 32);
  f64_to_string b := show_nat (b mod 2 ^ 64);
  f32_from_str s := parse_digits (2 ^ 32 - 1) 0 s;
  f64_from_str s := parse_digits (2 ^ 64 - 1) 0 s;
  uuid_to_string _ := [117; 117; 105; 100];
  date_to_string _ := [100; 97; 116; 101];
  time_to_string _ := [116; 105; 109; 101];
  datetime_to_rfc3339 _ := [100; 116];
  duration_to_string _ := [100; 117; 114];
  bigint_to_string z := show_nat (z mod 10 ^ 38);
  bigfloat_to_string _ := [48];
  rational_to_string _ := [114; 97; 116]
|}.

Lemma show_nat_str_ok z : 0 ≤ z → str_ok (show_nat z).
Proof. intros Hz. apply ascii_str_ok. eapply Forall_impl; [by apply show_nat_digits|]. simpl. lia. Qed.

#[export] Instance text_model_laws : TextLaws.
Proof.
  split; intros; cbn; try (apply show_nat_str_ok, Z.mod_pos_bound; lia);
    (split; [done|repeat constructor; by vm_compute]).
Qed.
End TextModel.
