(* ===== verification/Serde.v ===== *)
(** * Serde: serializing straight into a document blob

    [serde/blob_ser.rs] and [serde/functions.rs]: [BlobSerializer] writes any
    [Serialize] value directly in the document format, [KeySerializer] reduces a
    map key to a field name.

    A [Serialize] implementation is modelled by the calls it makes on its
    serializer, a tree of type [Ser]; every [serialize_*] method of the source is
    one case of [blob_serialize] and of [key_serialize].  [denote] is what the
    bridge promises: the document a tree of calls stands for, and the error it
    stops with. *)
From S2P Require Import Prelude BTree Codec Ext Scalar Path Value Archived Access Text.

(** ** The calls of a [Serialize] implementation *)

(** The calls on a [SerializeMap]. *)
Inductive MapCall (A : Type) : Type :=
| MKey (key : A)
| MValue (value : A).
Arguments MKey {A}.
Arguments MValue {A}.
Definition call_arg {A} (c : MapCall A) : A := match c with MKey a | MValue a => a end.

#[local] Unset Elimination Schemes.
Inductive Ser : Type :=
| SFail (msg : string)                   (* [Err(S::Error::custom(msg))] *)
| SBool (v : bool)
| SInt (ty : IntTy) (v : Z)              (* [serialize_i8] .. [serialize_u128] *)
| SF32 (bits : Z) | SF64 (bits : Z)
| SChar (c : Z)
| SStr (v : bytes)
| SBytes (v : bytes)
| SNone
| SSome (value : Ser)
| SUnit
| SUnitStruct
| SUnitVariant (variant : bytes)
| SNewtypeStruct (value : Ser)
| SNewtypeVariant (variant : bytes) (value : Ser)
| SSeq (items : list Ser)
| STuple (items : list Ser)
| STupleStruct (items : list Ser)
| STupleVariant (variant : bytes) (items : list Ser)
| SMap (calls : list (MapCall Ser))
| SStruct (fields : list (bytes * Ser))
| SStructVariant (variant : bytes) (fields : list (bytes * Ser)).
#[local] Set Elimination Schemes.

(** The trees a tree of calls is made of. *)
Definition children (v : Ser) : list Ser :=
  match v with
  | SSome v | SNewtypeStruct v | SNewtypeVariant _ v => [v]
  | SSeq l | STuple l | STupleStruct l | STupleVariant _ l => l
  | SMap calls => map call_arg calls
  | SStruct fields | SStructVariant _ fields => map snd fields
  | _ => []
  end.

Section ser_ind.
Variable P : Ser → Prop.
Hypothesis step : ∀ v, Forall P (children v) → P v.

Fixpoint Ser_ind (v : Ser) : P v :=
  let all := fix go l : Forall P l :=
    match l with [] => Forall_nil_2 P | v :: l => Forall_cons_2 P v l (Ser_ind v) (go l) end in
  let all_calls := fix go (l : list (MapCall Ser)) : Forall P (map call_arg l) :=
    match l with
    | [] => Forall_nil_2 P
    | c :: l => Forall_cons_2 P (call_arg c) (map call_arg l)
                  (match c with MKey a => Ser_ind a | MValue a => Ser_ind a end) (go l)
    end in
  let all_fields := fix go (l : list (bytes * Ser)) : Forall P (map snd l) :=
    match l with
    | [] => Forall_nil_2 P
    | kv :: l => Forall_cons_2 P kv.2 (map snd l) (Ser_ind kv.2) (go l)
    end in
  step v
    match v return Forall P (children v) with
    | SSome v | SNewtypeStruct v | SNewtypeVariant _ v => Forall_cons_2 P v [] (Ser_ind v) (Forall_nil_2 P)
    | SSeq l | STuple l | STupleStruct l | STupleVariant _ l => all l
    | SMap calls => all_calls calls
    | SStruct fields | SStructVariant _ fields => all_fields fields
    | _ => Forall_nil_2 P
    end.
End ser_ind.

(** [AdbError::custom]. *)
Definition custom (msg : string) : AdbError := Serde msg.
Definition bad_key : AdbError := custom "a map key must serialize to a string or a scalar".
Definition no_key : AdbError := custom "a map value was serialized before its key".

Section serde.
Context `{Ext}.
Context `{!TextForms}.

Definition int_scalar (ty : IntTy) (z : Z) : Scalar :=
  match ty with
  | Ti8 => I8 z | Ti16 => I16 z | Ti32 => I32 z | Ti64 => I64 z | Ti128 => I128 z
  | Tu8 => U8 z | Tu16 => U16 z | Tu32 => U32 z | Tu64 => U64 z | Tu128 => U128 z
  end.

(** ** Map keys: [KeySerializer] *)

Fixpoint key_serialize (key : Ser) : res bytes :=
  match key with
  | SFail msg => Err (custom msg)
  | SStr v => Ok v
  | SChar c => Ok (show_char c)
  | SBool v => Ok (show_bool v)
  | SInt _ v => Ok (show_int v)
  | SF32 v => Ok (f32_to_string v)
  | SF64 v => Ok (f64_to_string v)
  | SUnitVariant variant => Ok variant
  | SNewtypeStruct value | SSome value => key_serialize value
  | SBytes _ | SNone | SUnit | SUnitStruct | SNewtypeVariant _ _ | SSeq _ | STuple _
  | STupleStruct _ | STupleVariant _ _ | SMap _ | SStruct _ | SStructVariant _ _ => Err bad_key
  end.

(** ** [BlobSerializer] and its builders

    A builder holds the blob with what it gathered: the offsets of a sequence, the
    entries of an object.  The serializer of the elements is an argument. *)

Definition finish_object (buf : bytes) (entries : list (bytes * Z)) : bytes * Z :=
  push_object buf entries.

Definition wrap_variant (buf : bytes) (variant : bytes) (payload : Z) : bytes * Z :=
  push_object buf [(variant, payload)].

(** [end] of the builders that do more than the above. *)
Definition seq_end (buf : bytes) (offsets : list Z) : bytes * Z := push_list buf offsets.

Definition tuple_variant_end (buf variant : bytes) (offsets : list Z) : bytes * Z :=
  let '(buf, list) := push_list buf offsets in wrap_variant buf variant list.

Definition struct_variant_end (buf variant : bytes) (entries : list (bytes * Z)) : bytes * Z :=
  let '(buf, object) := finish_object buf entries in wrap_variant buf variant object.

(** [SeqBuilder::element] for each item ([TupleVariantBuilder] does the same). *)
Definition elements (serialize : Ser → bytes → res (bytes * Z)) :=
  fix go (items : list Ser) (buf : bytes) (offsets : list Z) : res (bytes * list Z) :=
    match items with
    | [] => Ok (buf, offsets)
    | value :: items =>
        let? '(buf, off) := serialize value buf in
        go items buf (offsets ++ [off])
    end.

(** [serialize_field] for each field ([StructBuilder], [StructVariantBuilder]). *)
Definition struct_fields (serialize : Ser → bytes → res (bytes * Z)) :=
  fix go (fields : list (bytes * Ser)) (buf : bytes) (entries : list (bytes * Z)) : res (bytes * list (bytes * Z)) :=
    match fields with
    | [] => Ok (buf, entries)
    | kv :: fields =>
        let? '(buf, off) := serialize kv.2 buf in
        go fields buf (bt_insert entries kv.1 off)
    end.

(** [MapBuilder]: [serialize_key] and [serialize_value], in the order called. *)
Definition map_calls (serialize : Ser → bytes → res (bytes * Z)) :=
  fix go (calls : list (MapCall Ser)) (buf : bytes) (entries : list (bytes * Z))
      (pending_key : option bytes) : res (bytes * list (bytes * Z)) :=
    match calls with
    | [] => Ok (buf, entries)
    | MKey key :: calls =>
        let? name := key_serialize key in go calls buf entries (Some name)
    | MValue value :: calls =>
        let? key := ok_or pending_key no_key in
        let? '(buf, off) := serialize value buf in
        go calls buf (bt_insert entries key off) None
    end.

Fixpoint blob_serialize (v : Ser) (buf : bytes) : res (bytes * Z) :=
  match v with
  | SFail msg => Err (custom msg)
  | SBool v => Ok (push_leaf buf (Bool v))
  | SInt ty v => Ok (push_leaf buf (int_scalar ty v))
  | SF32 v => Ok (push_leaf buf (F32 v))
  | SF64 v => Ok (push_leaf buf (F64 v))
  | SChar c => Ok (push_leaf buf (Str (show_char c)))
  | SStr v => Ok (push_leaf buf (Str v))
  | SBytes v => Ok (push_leaf buf (Bytes v))
  | SNone | SUnit | SUnitStruct => Ok (push_leaf buf Null)
  | SSome value | SNewtypeStruct value => blob_serialize value buf
  | SUnitVariant variant => Ok (push_leaf buf (Str variant))
  | SNewtypeVariant variant value =>
      let? '(buf, payload) := blob_serialize value buf in
      Ok (wrap_variant buf variant payload)
  | SSeq items | STuple items | STupleStruct items =>
      let? '(buf, offsets) := elements blob_serialize items buf [] in
      Ok (seq_end buf offsets)
  | STupleVariant variant items =>
      let? '(buf, offsets) := elements blob_serialize items buf [] in
      Ok (tuple_variant_end buf variant offsets)
  | SMap calls =>
      let? '(buf, entries) := map_calls blob_serialize calls buf [] None in
      Ok (finish_object buf entries)
  | SStruct fields =>
      let? '(buf, entries) := struct_fields blob_serialize fields buf [] in
      Ok (finish_object buf entries)
  | SStructVariant variant fields =>
      let? '(buf, entries) := struct_fields blob_serialize fields buf [] in
      Ok (struct_variant_end buf variant entries)
  end.

Definition to_blob (v : Ser) : res bytes :=
  let? '(buf, root) := blob_serialize v begin_blob in Ok (patch_root buf root).

Definition to_value (fuel : nat) (v : Ser) : res Value :=
  let? blob := to_blob v in decode fuel blob.

(** ** What a tree of calls stands for *)

Definition denote_items (denote : Ser → res Value) :=
  fix go (items : list Ser) : res (list Value) :=
    match items with
    | [] => Ok []
    | v :: items => let? x := denote v in let? xs := go items in Ok (x :: xs)
    end.

Definition denote_fields (denote : Ser → res Value) :=
  fix go (fields : list (bytes * Ser)) (m : list (bytes * Value)) : res (list (bytes * Value)) :=
    match fields with
    | [] => Ok m
    | kv :: fields => let? x := denote kv.2 in go fields (bt_insert m kv.1 x)
    end.

Definition denote_calls (denote : Ser → res Value) :=
  fix go (calls : list (MapCall Ser)) (m : list (bytes * Value)) (key : option bytes) : res (list (bytes * Value)) :=
    match calls with
    | [] => Ok m
    | MKey k :: calls => let? name := key_serialize k in go calls m (Some name)
    | MValue v :: calls =>
        let? name := ok_or key no_key in let? x := denote v in go calls (bt_insert m name x) None
    end.

(** A unit variant is its name, every other variant a one-field object. *)
Definition tagged (variant : bytes) (payload : Value) : Value := Node [(variant, payload)].

Fixpoint denote (v : Ser) : res Value :=
  match v with
  | SFail msg => Err (custom msg)
  | SBool v => Ok (Leaf (Bool v))
  | SInt ty v => Ok (Leaf (int_scalar ty v))
  | SF32 v => Ok (Leaf (F32 v))
  | SF64 v => Ok (Leaf (F64 v))
  | SChar c => Ok (Leaf (Str (show_char c)))
  | SStr v | SUnitVariant v => Ok (Leaf (Str v))
  | SBytes v => Ok (Leaf (Bytes v))
  | SNone | SUnit | SUnitStruct => Ok (Leaf Null)
  | SSome v | SNewtypeStruct v => denote v
  | SNewtypeVariant name v => let? x := denote v in Ok (tagged name x)
  | SSeq l | STuple l | STupleStruct l => let? xs := denote_items denote l in Ok (List xs)
  | STupleVariant name l => let? xs := denote_items denote l in Ok (tagged name (List xs))
  | SMap calls => let? m := denote_calls denote calls [] None in Ok (Node m)
  | SStruct fields => let? m := denote_fields denote fields [] in Ok (Node m)
  | SStructVariant name fields => let? m := denote_fields denote fields [] in Ok (tagged name (Node m))
  end.

Lemma key_serialize_safe key : safe (key_serialize key).
Proof.
  induction key as [key IH] using Ser_ind. destruct key; cbn [key_serialize]; try done;
    by apply Forall_cons in IH as [IH _].
Qed.

(** ** Refinement

    [agrees n P run spec R]: from every blob of [n] bytes that satisfies [P],
    [run] appends bytes that depend on [n] only and returns what [spec] says, with
    [R] between the two while the blob fits in 32-bit offsets; it fails as [spec]
    fails. *)
Definition agrees {A B} (n : Z) (P : bytes → Prop) (run : bytes → res (bytes * A)) (spec : res B)
    (R : bytes → A → B → Prop) : Prop :=
  match spec with
  | Ok x => ∃ e a, ∀ buf, blen buf = n →
      run buf = Ok (buf ++ e, a) ∧ (P buf → blen (buf ++ e) < 2 ^ 32 → R (buf ++ e) a x)
  | Err er => ∀ buf, blen buf = n → run buf = Err er
  | _ => False
  end.

Lemma agrees_bind {A B C D} n P (run : bytes → res (bytes * A)) (spec : res B) R
    (k : bytes → A → res (bytes * C)) (sk : B → res D) R' :
  agrees n P run spec R →
  (∀ e a x, agrees (n + blen e) (λ b, ∃ buf, b = buf ++ e ∧ P buf ∧ R b a x) (λ b, k b a) (sk x) R') →
  agrees n P (λ buf, let? '(b, a) := run buf in k b a) (let? x := spec in sk x) R'.
Proof.
  intros Hr Hk. destruct spec as [x|er| |]; cbn [rbind agrees] in *; [|by intros buf Hb; rewrite Hr|done..].
  destruct Hr as (e & a & Hr). specialize (Hk e a x). unfold agrees in *. destruct (sk x) as [y|er| |]; try done.
  - destruct Hk as (e' & c & Hk). exists (e ++ e'), c. intros buf Hb. destruct (Hr buf Hb) as [-> HR]. cbn [rbind].
    destruct (Hk (buf ++ e)) as [-> HR']; [by rewrite blen_app, Hb|]. rewrite <- app_assoc in *. split; [done|].
    intros HP Hl. apply HR'; [|done]. exists buf. split; [done|]. split; [done|]. apply HR; [done|].
    rewrite !blen_app in *. pose proof (blen_nonneg e'). lia.
  - intros buf Hb. destruct (Hr buf Hb) as [-> _]. cbn [rbind]. apply Hk. by rewrite blen_app, Hb.
Qed.

Lemma agrees_ret {A B} n P (a : A) (x : B) R :
  (∀ buf, P buf → R buf a x) → agrees n P (λ buf, Ok (buf, a)) (Ok x) R.
Proof. intros HR. exists [], a. intros buf _. rewrite app_nil_r. auto. Qed.

Lemma agrees_lift {A B C} n P (m : res A) (k : A → bytes → res (bytes * B)) (sk : A → res C) R :
  safe m → (∀ a, m = Ok a → agrees n P (k a) (sk a) R) →
  agrees n P (λ buf, let? a := m in k a buf) (let? a := m in sk a) R.
Proof. destruct m; cbn; [|done..]. eauto. Qed.

Lemma agrees_weaken {A B} n (P Q : bytes → Prop) (run : bytes → res (bytes * A)) (spec : res B) R :
  agrees n Q run spec R → (∀ buf, P buf → Q buf) → agrees n P run spec R.
Proof.
  unfold agrees. destruct spec as [x|er| |]; try done. intros (e & a & Hr) HPQ. exists e, a. intros buf Hb.
  destruct (Hr buf Hb). auto.
Qed.

(** The emission of one vnode. *)
Lemma agrees_emit {B} n P (f : bytes → bytes * Z) (x : B) R :
  emits f → (∀ buf, P buf → blen (f buf).1 < 2 ^ 32 → R (f buf).1 (f buf).2 x) →
  agrees n P (λ buf, Ok (f buf)) (Ok x) R.
Proof.
  intros He HR. destruct (He n) as (e & o & Hf). exists e, o. intros buf Hb. specialize (HR buf).
  rewrite (Hf _ Hb) in *. auto.
Qed.

Lemma push_leaf_emits s : emits (λ buf, push_leaf buf s).
Proof.
  intros n. exists ([LEAF] ++ Scalar_encode s []), (as_u32 n). intros buf <-. unfold push_leaf.
  rewrite Scalar_encode_app. unfold push. by rewrite <- app_assoc.
Qed.

Lemma push_list_emits offs : emits (λ buf, push_list buf offs).
Proof.
  intros n. exists ([LIST] ++ to_be 4 (as_u32 (blen offs)) ++ concat (map (to_be 4) offs)), (as_u32 n).
  intros buf <-. by rewrite push_list_eq.
Qed.

Lemma push_object_emits es : emits (λ buf, push_object buf es).
Proof.
  intros n. exists (names_bytes es ++ [NODE] ++ to_be 4 (as_u32 (blen es)) ++ concat (map rec_bytes (records_of n es))),
    (as_u32 (n + blen (names_bytes es))).
  intros buf <-. rewrite push_object_eq. unfold offset. by rewrite blen_app.
Qed.

(** The entries gathered for an object, and the fields they stand for. *)
Definition entries_for (buf : bytes) (es : list (bytes * Z)) (m : list (bytes * Value)) : Prop :=
  Forall2 (λ e kv, e.1 = kv.1 ∧ u32_ok e.2 ∧ repr buf e.2 kv.2) es m.

Lemma entries_for_app buf e es m : entries_for buf es m → entries_for (buf ++ e) es m.
Proof. intros Hf. eapply Forall2_impl; [exact Hf|]. intros ?? (? & ? & ?). split_and!; [done..|by apply repr_app]. Qed.

Lemma bt_insert_Forall2 {A B} (R : bytes * A → bytes * B → Prop) es m k a b :
  (∀ e kv, R e kv → e.1 = kv.1) → Forall2 R es m → R (k, a) (k, b) →
  Forall2 R (bt_insert es k a) (bt_insert m k b).
Proof.
  intros Hk Hf Hab. induction Hf as [|[k1 x] [k2 y] es m Hxy Hf IH]; cbn [bt_insert]; [by repeat constructor|].
  pose proof (Hk _ _ Hxy) as E. cbn [fst] in E. subst k2. destruct (bytes_cmp k k1); repeat (constructor; try done).
Qed.

Definition refines (v : Ser) : Prop :=
  ∀ n P, agrees n P (blob_serialize v) (denote v) (λ buf off x, written (buf, off) x).

Lemma elements_refines l n P offs :
  Forall refines l →
  agrees n P (λ buf, elements blob_serialize l buf offs) (denote_items denote l)
    (λ buf offs' xs, ∃ os, offs' = offs ++ os ∧ Forall2 (repr buf) os xs ∧ Forall u32_ok os).
Proof.
  intros Hl. revert n P offs. induction Hl as [|v l Hv _ IH]; intros n P offs; cbn [elements denote_items].
  { apply agrees_ret. intros buf _. exists []. rewrite app_nil_r. by repeat constructor. }
  eapply agrees_bind; [apply (Hv n P)|]. intros e off x.
  pose proof (IH (n + blen e) (λ b, ∃ buf, b = buf ++ e ∧ P buf ∧ written (b, off) x) (offs ++ [off])) as Hgo.
  unfold agrees in *. destruct (denote_items denote l) as [xs|er| |]; cbn [rbind]; try done.
  destruct Hgo as (e' & offs' & Hgo). exists e', offs'. intros buf Hb. destruct (Hgo buf Hb) as [-> HR]. split; [done|].
  intros HP Hlt. destruct (HR HP Hlt) as (os & -> & Hf & Hu). destruct HP as (b & -> & _ & Hw & Ho).
  exists (off :: os). rewrite <- app_assoc. split; [done|]. split; constructor; try done. by apply repr_app.
Qed.

Lemma fields_refines l n P es m :
  Forall (λ kv, refines kv.2) l →
  (∀ buf, P buf → entries_for buf es m) →
  agrees n P (λ buf, struct_fields blob_serialize l buf es) (denote_fields denote l m) entries_for.
Proof.
  intros Hl. revert n P es m. induction Hl as [|kv l Hv _ IH]; intros n P es m Hm; cbn [struct_fields denote_fields].
  { by apply agrees_ret. }
  eapply agrees_bind; [apply (Hv n P)|]. intros e off x. apply IH. intros b (buf & -> & HP & Hw & Ho).
  apply bt_insert_Forall2; [naive_solver|by apply entries_for_app, Hm|by split_and!].
Qed.

Lemma calls_refines l n P es m pending :
  Forall refines (map call_arg l) →
  (∀ buf, P buf → entries_for buf es m) →
  agrees n P (λ buf, map_calls blob_serialize l buf es pending) (denote_calls denote l m pending) entries_for.
Proof.
  intros Hl. revert n P es m pending. induction l as [|[key|value] l IH]; intros n P es m pending Hm;
    cbn [map_calls denote_calls]; cbn [map call_arg] in Hl.
  { by apply agrees_ret. }
  - apply Forall_cons in Hl as [_ Hl]. apply agrees_lift; [apply key_serialize_safe|]. intros name _. by apply IH.
  - apply Forall_cons in Hl as [Hv Hl]. apply agrees_lift; [apply safe_ok_or|]. intros name _.
    eapply agrees_bind; [by apply (Hv n P)|]. intros e off x. apply IH; [done|]. intros b (buf & -> & HP & Hw & Ho).
    apply bt_insert_Forall2; [naive_solver|by apply entries_for_app, Hm|by split_and!].
Qed.

(** A container around what its elements wrote. *)
Lemma list_refines n P l :
  Forall refines l →
  agrees n P (λ buf, let? '(b, offs) := elements blob_serialize l buf [] in Ok (push_list b offs))
    (let? xs := denote_items denote l in Ok (List xs)) (λ buf off x, written (buf, off) x).
Proof.
  intros Hl. eapply agrees_bind; [by apply elements_refines|]. intros e offs xs.
  apply (agrees_emit _ _ (λ b, push_list b offs)); [apply push_list_emits|].
  intros b (buf & -> & _ & os & -> & Hf & Hu). by apply push_list_repr.
Qed.

Lemma object_refines n P (run : bytes → res (bytes * list (bytes * Z))) (spec : res (list (bytes * Value))) :
  agrees n P run spec entries_for →
  agrees n P (λ buf, let? '(b, es) := run buf in Ok (finish_object b es))
    (let? m := spec in Ok (Node m)) (λ buf off x, written (buf, off) x).
Proof.
  intros Hr. eapply agrees_bind; [exact Hr|]. intros e es m.
  apply (agrees_emit _ _ (λ b, push_object b es)); [apply push_object_emits|].
  intros b (buf & -> & _ & Hf). by apply push_object_repr.
Qed.

Lemma tagged_refines n P variant (run : bytes → res (bytes * Z)) (spec : res Value) :
  agrees n P run spec (λ buf off x, written (buf, off) x) →
  agrees n P (λ buf, let? '(b, payload) := run buf in Ok (wrap_variant b variant payload))
    (let? x := spec in Ok (tagged variant x)) (λ buf off x, written (buf, off) x).
Proof.
  intros Hr. eapply agrees_bind; [exact Hr|]. intros e off x.
  apply (agrees_emit _ _ (λ b, push_object b [(variant, off)])); [apply push_object_emits|].
  intros b (buf & -> & _ & Hw & Ho). apply push_object_repr.
  constructor; [by split_and!|by constructor].
Qed.

Lemma leaf_refines n P s : agrees n P (λ buf, Ok (push_leaf buf s)) (Ok (Leaf s)) (λ buf off x, written (buf, off) x).
Proof. apply (agrees_emit _ _ (λ b, push_leaf b s)); [apply push_leaf_emits|]. intros buf _ Hb. by apply push_leaf_repr. Qed.

(** Two vnodes in a row: the payload, then its one-field wrapper. *)
Lemma wrapped_refines {A} n P variant (run : bytes → res (bytes * A)) (k : bytes → A → bytes * Z)
    (spec : res Value) :
  agrees n P (λ buf, let? '(b, a) := run buf in Ok (k b a)) spec (λ buf off x, written (buf, off) x) →
  agrees n P (λ buf, let? '(b, a) := run buf in Ok (let '(b, payload) := k b a in wrap_variant b variant payload))
    (let? x := spec in Ok (tagged variant x)) (λ buf off x, written (buf, off) x).
Proof.
  intros Hr. pose proof (tagged_refines _ _ variant _ _ Hr) as Ht. unfold agrees in *.
  assert (∀ buf, (let? '(b, a) := run buf in Ok (let '(b, payload) := k b a in wrap_variant b variant payload)) =
    let? '(b, payload) := let? '(b, a) := run buf in Ok (k b a) in Ok (wrap_variant b variant payload)) as E.
  { intros buf. destruct (run buf) as [[b a]| | |]; cbn [rbind]; [by destruct (k b a)|done..]. }
  destruct (let? x := spec in _) as [x|er| |]; try done.
  - destruct Ht as (e & o & Ht). exists e, o. intros buf Hb. rewrite E. by apply Ht.
  - intros buf Hb. rewrite E. by apply Ht.
Qed.

Lemma blob_serialize_refines v : refines v.
Proof.
  induction v as [v IH] using Ser_ind. intros n P.
  destruct v; cbn [blob_serialize denote children] in *;
    try (by apply leaf_refines); try (by apply list_refines).
  - done.
  - apply Forall_cons in IH as [Hv _]. apply Hv.
  - apply Forall_cons in IH as [Hv _]. apply Hv.
  - apply Forall_cons in IH as [Hv _]. by apply tagged_refines.
  - pose proof (wrapped_refines n P variant _ _ _ (list_refines n P items IH)) as Hw.
    destruct (denote_items denote items); exact Hw.
  - apply object_refines, calls_refines; [done|]. intros; constructor.
  - apply object_refines, fields_refines; [by rewrite Forall_map in IH|]. intros; constructor.
  - assert (Forall (λ kv, refines kv.2) fields) as Hf by by rewrite Forall_map in IH.
    pose proof (wrapped_refines n P variant _ _ _
      (object_refines n P _ _ (fields_refines fields n P [] [] Hf ltac:(intros; constructor)))) as Hw.
    destruct (denote_fields denote fields []); exact Hw.
Qed.

(** The blob of a tree of calls: its root is the document it stands for. *)
Lemma to_blob_root v :
  match denote v with
  | Ok x => ∃ blob, to_blob v = Ok blob ∧
      (blen blob < 2 ^ 32 → ∃ root, archived_new blob = Ok root ∧ repr blob root x)
  | Err e => to_blob v = Err e
  | _ => False
  end.
Proof.
  pose proof (blob_serialize_refines v 5 (λ _, True)) as Hr. unfold agrees in Hr. unfold to_blob.
  destruct (denote v) as [x|er| |]; try done; [|by rewrite Hr].
  destruct Hr as (e & o & Hr). destruct (Hr begin_blob eq_refl) as [-> _]. cbn [rbind].
  eexists; split; [done|]. rewrite patch_root_eq. intros Hb.
  destruct (Hr ([FORMAT_VERSION] ++ to_be 4 o)) as [_ HR]; [by rewrite blen_app, blen_to_be|].
  rewrite <- app_assoc in HR. destruct (HR I Hb) as [Hrep Ho]. exists o. split; [|done].
  by apply archived_new_encoded.
Qed.

(** ** The documents are well formed *)

(** What the Rust types of the arguments give. *)
Definition args_ok (v : Ser) : Prop :=
  match v with
  | SInt ty z => int_ok ty z
  | SF32 b => unsigned_ok 32 b
  | SF64 b => unsigned_ok 64 b
  | SChar c => char_ok c
  | SStr s | SUnitVariant s => str_ok s ∧ blen s < 2 ^ 32
  | SBytes b => bytes_ok b ∧ blen b < 2 ^ 32
  | SNewtypeVariant name _ | STupleVariant name _ => str_ok name
  | SStruct fields => Forall (λ kv, str_ok kv.1) fields
  | SStructVariant name fields => str_ok name ∧ Forall (λ kv, str_ok kv.1) fields
  | _ => True
  end.

Inductive ser_ok : Ser → Prop :=
| ser_ok_intro v : args_ok v → Forall ser_ok (children v) → ser_ok v.

Lemma ser_ok_inv v : ser_ok v → args_ok v ∧ Forall ser_ok (children v).
Proof. by inversion 1. Qed.

Context `{!TextLaws}.

Lemma key_serialize_ok key name : ser_ok key → key_serialize key = Ok name → str_ok name.
Proof.
  induction key as [key IH] using Ser_ind. intros [Ha Hc]%ser_ok_inv.
  destruct key; cbn [key_serialize args_ok children] in *; intros Hn; simplify_eq;
    try (apply Forall_cons in Hc as [Hc _]; apply Forall_cons in IH as [IH _]; by apply IH).
  - destruct v; by apply ascii_str_ok; repeat constructor.
  - apply show_int_str_ok.
  - apply f32_text.
  - apply f64_text.
  - by apply show_char_str_ok.
  - apply Ha.
  - apply Ha.
Qed.

Definition typed (v : Ser) : Prop := ser_ok v → ∀ x, denote v = Ok x → value_ok x.

Lemma denoted_items_ok l xs :
  Forall typed l → Forall ser_ok l → denote_items denote l = Ok xs → Forall value_ok xs.
Proof.
  intros Ht Hok. revert xs. induction l as [|v l IH]; cbn [denote_items]; intros xs Hd; [by simplify_eq|].
  apply Forall_cons in Ht as [Hv Ht], Hok as [Ho Hok]. apply rbind_Ok in Hd as (x & Hx & Hd).
  apply rbind_Ok in Hd as (ys & Hy & [= <-]). constructor; [by apply (Hv Ho)|by apply IH].
Qed.

Lemma fields_typed l m m' :
  Forall typed (map snd l) → Forall ser_ok (map snd l) → Forall (λ kv, str_ok kv.1) l →
  value_ok (Node m) → denote_fields denote l m = Ok m' → value_ok (Node m').
Proof.
  revert m. induction l as [|kv l IH]; cbn [denote_fields map]; intros m Ht Hok Hn Hm Hd; [by simplify_eq|].
  apply Forall_cons in Ht as [Hv Ht], Hok as [Ho Hok], Hn as [Hk Hn]. apply rbind_Ok in Hd as (x & Hx & Hd).
  eapply IH; [done..| |exact Hd]. apply node_insert_ok; [done..|by apply (Hv Ho)].
Qed.

Lemma calls_typed l m key m' :
  Forall typed (map call_arg l) → Forall ser_ok (map call_arg l) → (∀ k, key = Some k → str_ok k) →
  value_ok (Node m) → denote_calls denote l m key = Ok m' → value_ok (Node m').
Proof.
  revert m key. induction l as [|[k|v] l IH]; cbn [denote_calls map call_arg]; intros m key Ht Hok Hk Hm Hd; [by simplify_eq|..];
    apply Forall_cons in Ht as [Hv Ht], Hok as [Ho Hok]; apply rbind_Ok in Hd as (name & Hx & Hd).
  - eapply IH; [done..| |done|exact Hd]. intros ? [= <-]. by eapply key_serialize_ok.
  - apply rbind_Ok in Hd as (x & Hx' & Hd). destruct key as [k|]; [|done]. injection Hx as <-.
    apply (IH (bt_insert m k x) None); [done..| |exact Hd]. apply node_insert_ok; [done|by apply Hk|by apply (Hv Ho)].
Qed.

Lemma tagged_ok name x : str_ok name → value_ok x → value_ok (tagged name x).
Proof.
  intros Hn Hx. apply value_ok_node. split; [repeat constructor|]. constructor; [done|constructor].
Qed.

Lemma denote_typed v : typed v.
Proof.
  induction v as [v IH] using Ser_ind. intros [Ha Hc]%ser_ok_inv x.
  destruct v; cbn [denote args_ok children] in *; intros Hd;
    try (apply rbind_Ok in Hd as (y & Hy & Hd)); simplify_eq; try done;
    try (apply Forall_cons in IH as [IH _], Hc as [Hc _]; by apply (IH Hc)).
  - by destruct ty.
  - cbn. destruct (show_char_str_ok _ Ha). split_and!; [done..|]. unfold show_char.
    repeat destruct (_ <? _); rewrite ?blen_cons, blen_nil; lia.
  - destruct Ha as [[??]?]. done.
  - destruct Ha as [[??]?]. done.
  - apply Forall_cons in IH as [IH _], Hc as [Hc _]. apply tagged_ok; [done|by apply (IH Hc)].
  - by apply value_ok_list, (denoted_items_ok items).
  - by apply value_ok_list, (denoted_items_ok items).
  - by apply value_ok_list, (denoted_items_ok items).
  - apply tagged_ok; [done|]. by apply value_ok_list, (denoted_items_ok items).
  - apply (calls_typed calls [] None); [exact IH|exact Hc|by intros k [=]|by repeat constructor|done].
  - apply (fields_typed fields []); [exact IH|exact Hc|done|by repeat constructor|done].
  - destruct Ha as [Hn Hf]. apply tagged_ok; [done|]. apply (fields_typed fields []); [exact IH|exact Hc|done|by repeat constructor|done].
Qed.

Context `{!ExtLaws}.

(** C22: Serializing straight into a blob gives the document the value stands for.  For
    any tree of serializer calls, [to_blob] fails exactly when the value itself, or a
    map key that is not a scalar, or a map value given before its key does, with that
    error; otherwise the blob is a well-formed document: decoding it ([to_value])
    returns [denote v], in which the fields of a struct and the entries of a map are
    keyed by name with the last occurrence kept, a unit variant is its name and every
    other variant a one-field object, for every blob below 4 GiB. *)
Theorem to_blob_refines v :
  ser_ok v →
  match denote v with
  | Ok x => value_ok x ∧ ∃ blob, to_blob v = Ok blob ∧
      (blen blob < 2 ^ 32 → ∀ fuel, (depth x ≤ fuel)%nat → to_value fuel v = Ok x)
  | Err e => to_blob v = Err e
  | _ => False
  end.
Proof.
  intros Hok. pose proof (to_blob_root v) as Hr. destruct (denote v) as [x|e| |] eqn:Hd; try done.
  assert (value_ok x) as Hx by by apply (denote_typed v). split; [done|].
  destruct Hr as (blob & Hb & Hr). exists blob. split; [done|]. intros Hl fuel Hf.
  destruct (Hr Hl) as (root & Hroot & Hrep). unfold to_value, decode. rewrite Hb. cbn [rbind]. rewrite Hroot. cbn [rbind].
  by apply to_value_repr.
Qed.
End serde.

(** ** At a concrete value *)

Module SerdeModel.
Import ExtModel TextModel.

(** [{ id: 7u64, by: {-5i32: true}, kind: Kind::Named { n: "é" } }], with the fields in
    declaration order. *)
Definition record : Ser :=
  SStruct [([105; 100], SInt Tu64 7);
           ([98; 121], SMap [MKey (SInt Ti32 (-5)); MValue (SBool true)]);
           ([107; 105; 110; 100], SStructVariant [78] [([110], SChar 233)])].

Example record_document :
  denote record = Ok (Node [([98; 121], Node [([45; 53], Leaf (Bool true))]);
                            ([105; 100], Leaf (U64 7));
                            ([107; 105; 110; 100], tagged [78] (Node [([110], Leaf (Str [195; 169]))]))]).
Proof. reflexivity. Qed.

Definition record_blob : bytes := match to_blob record with Ok b => b | _ => [] end.

Lemma record_ok : ser_ok record.
Proof. repeat first [by vm_compute | constructor | by left]. Qed.

Lemma to_blob_refines_witness :
  ∃ x blob, denote record = Ok x ∧ value_ok x ∧ to_blob record = Ok blob ∧ to_value 4 record = Ok x.
Proof.
  pose proof (to_blob_refines record record_ok) as Hr. rewrite record_document in *.
  destruct Hr as (Hok & blob & Hb & Hv). eexists _, blob. split; [done|]. split; [exact Hok|]. split; [exact Hb|].
  apply Hv; [|vm_compute; lia]. assert (to_blob record = Ok record_blob) as E by by vm_compute.
  rewrite E in Hb. injection Hb as <-. by vm_compute.
Defined.

(** A map value without its key, and a key that is a list, are refused. *)
Example misused_map : to_blob (SMap [MValue SUnit]) = Err no_key ∧ to_blob (SMap [MKey (SSeq []); MValue SUnit]) = Err bad_key.
Proof. done. Qed.
End SerdeModel.
