(* ===== verification/SerdeDe.v ===== *)
(** * Serde: deserializing straight from a document blob

    [serde/blob_de.rs] and [serde/dynamic.rs].  A [Visitor] is the record of its
    methods; what a method receives from the deserializer (the rest of the input,
    a sequence, a map, an enum) is the data the source's accessor holds, with its
    operations below.  [Value]'s own [Serialize] and [Deserialize] close the loop:
    [value_serialize] and [value_deserialize]. *)
From S2P Require Import Prelude BTree Codec Ext Scalar Path Value Archived Access Text Serde.

(** A deserializer: [BlobDeserializer] at a vnode, or [MapKeyDeserializer] on a
    field name. *)
Inductive Input : Type :=
| AtNode (node : Z)
| AtKey (key : bytes).

Record SeqReader : Type := mkSeqReader { sr_node : Z; sr_index : Z; sr_len : Z }.
Record MapReader : Type := mkMapReader { mr_entries : list (bytes * Z); mr_index : Z; mr_value : option Z }.
Record EnumReader : Type := mkEnumReader { er_variant : bytes; er_payload : option Z }.

Record Visitor (V : Type) : Type := mkVisitor {
  visit_unit : res V;
  visit_bool : bool → res V;
  visit_int : IntTy → Z → res V;               (* [visit_i8] .. [visit_u128] *)
  visit_f32 : Z → res V;
  visit_f64 : Z → res V;
  visit_str : bytes → res V;
  visit_string : bytes → res V;
  visit_byte_buf : bytes → res V;
  visit_none : res V;
  visit_some : Input → res V;
  visit_newtype_struct : Input → res V;
  visit_seq : SeqReader → res V;
  visit_map : MapReader → res V;
  visit_enum : EnumReader → res V
}.
Arguments mkVisitor {V}.
Arguments visit_unit {V}.
Arguments visit_bool {V}.
Arguments visit_int {V}.
Arguments visit_f32 {V}.
Arguments visit_f64 {V}.
Arguments visit_str {V}.
Arguments visit_string {V}.
Arguments visit_byte_buf {V}.
Arguments visit_none {V}.
Arguments visit_some {V}.
Arguments visit_newtype_struct {V}.
Arguments visit_seq {V}.
Arguments visit_map {V}.
Arguments visit_enum {V}.

(** ** Parsing a field name as a scalar *)

Definition int_max (ty : IntTy) : Z :=
  if int_signed ty then 2 ^ (int_bits ty - 1) - 1 else 2 ^ int_bits ty - 1.

(** [from_str] of the integer types: a sign ([-] for the signed types only), at
    least one digit, no overflow. *)
Definition parse_int (ty : IntTy) (s : bytes) : option Z :=
  match s with
  | [] => None
  | b :: rest =>
      if b =? 43 then match rest with [] => None | _ => parse_digits (int_max ty) 0 rest end
      else if (b =? 45) && int_signed ty then
        match rest with [] => None | _ => Z.opp <$> parse_digits (2 ^ (int_bits ty - 1)) 0 rest end
      else parse_digits (int_max ty) 0 s
  end.

Definition parse_bool (s : bytes) : option bool :=
  if bool_decide (s = show_bool true) then Some true
  else if bool_decide (s = show_bool false) then Some false else None.

Definition parse_key {T} (parsed : option T) : res T :=
  ok_or parsed (custom "map key '{key}' is not a valid {ty}").

Section serde_de.
Context `{Ext}.
Context `{!TextForms}.

(** ** The entry points of a deserializer *)

Definition no_primitive : AdbError := custom "cannot deserialize a scalar of type {} via serde".

Definition scalar_into {V} (s : Scalar) (visitor : Visitor V) : res V :=
  match s with
  | Null => visit_unit visitor
  | Bool v => visit_bool visitor v
  | I8 v => visit_int visitor Ti8 v
  | I16 v => visit_int visitor Ti16 v
  | I32 v => visit_int visitor Ti32 v
  | I64 v => visit_int visitor Ti64 v
  | I128 v => visit_int visitor Ti128 v
  | U8 v => visit_int visitor Tu8 v
  | U16 v => visit_int visitor Tu16 v
  | U32 v => visit_int visitor Tu32 v
  | U64 v => visit_int visitor Tu64 v
  | U128 v => visit_int visitor Tu128 v
  | F32 v => visit_f32 visitor v
  | F64 v => visit_f64 visitor v
  | Str v => visit_string visitor v
  | Bytes v => visit_byte_buf visitor v
  | Uuid _ | Date _ | Time _ | DateTime _ | Duration _ | BigInt _ | BigFloatS _ | Rational _ => Err no_primitive
  end.

Definition deserialize_any {V} (blob : bytes) (input : Input) (visitor : Visitor V) : res V :=
  match input with
  | AtKey key => visit_str visitor key
  | AtNode node =>
      let? kind := node_kind_at blob node in
      match kind with
      | KLeaf => let? s := node_scalar blob node in scalar_into s visitor
      | KList => let? len := node_len blob node in visit_seq visitor (mkSeqReader node 0 len)
      | KObject => let? entries := node_entries blob node in visit_map visitor (mkMapReader entries 0 None)
      end
  end.

(** The typed entry points: a vnode describes itself, a name is parsed. *)
Definition deserialize_bool {V} (blob : bytes) (input : Input) (visitor : Visitor V) : res V :=
  match input with
  | AtNode _ => deserialize_any blob input visitor
  | AtKey key => let? v := parse_key (parse_bool key) in visit_bool visitor v
  end.

Definition deserialize_int {V} (ty : IntTy) (blob : bytes) (input : Input) (visitor : Visitor V) : res V :=
  match input with
  | AtNode _ => deserialize_any blob input visitor
  | AtKey key => let? v := parse_key (parse_int ty key) in visit_int visitor ty v
  end.

Definition deserialize_f32 {V} (blob : bytes) (input : Input) (visitor : Visitor V) : res V :=
  match input with
  | AtNode _ => deserialize_any blob input visitor
  | AtKey key => let? v := parse_key (f32_from_str key) in visit_f32 visitor v
  end.

Definition deserialize_f64 {V} (blob : bytes) (input : Input) (visitor : Visitor V) : res V :=
  match input with
  | AtNode _ => deserialize_any blob input visitor
  | AtKey key => let? v := parse_key (f64_from_str key) in visit_f64 visitor v
  end.

Definition is_null (s : Scalar) : bool := match s with Null => true | _ => false end.

Definition deserialize_option {V} (blob : bytes) (input : Input) (visitor : Visitor V) : res V :=
  match input with
  | AtKey _ => visit_some visitor input
  | AtNode node =>
      let? kind := node_kind_at blob node in
      let? null := match kind with
                   | KLeaf => let? s := node_scalar blob node in Ok (is_null s)
                   | _ => Ok false
                   end in
      if (null : bool) then visit_none visitor else visit_some visitor input
  end.

Definition deserialize_newtype_struct {V} (input : Input) (visitor : Visitor V) : res V :=
  visit_newtype_struct visitor input.

Definition deserialize_enum {V} (blob : bytes) (input : Input) (visitor : Visitor V) : res V :=
  match input with
  | AtKey key => visit_enum visitor (mkEnumReader key None)
  | AtNode node =>
      let? kind := node_kind_at blob node in
      match kind with
      | KLeaf =>
          let? s := node_scalar blob node in
          match s with
          | Str name => visit_enum visitor (mkEnumReader name None)
          | _ => Err (custom "expected an enum: a string or a one-field object")
          end
      | KObject =>
          let? entries := node_entries blob node in
          match entries with
          | [(name, payload)] => visit_enum visitor (mkEnumReader name (Some payload))
          | _ => Err (custom "expected a one-field object for an enum variant")
          end
      | KList => Err (custom "expected an enum, found a list")
      end
  end.

(** [from_blob]: [deserialize] is the [Deserialize] implementation asked for. *)
Definition from_blob {T} (deserialize : bytes → Input → res T) (blob : bytes) : res T :=
  let? root := archived_new blob in deserialize blob (AtNode root).

(** ** The accessors *)

Definition next_element_seed {T} (blob : bytes) (seed : Input → res T) (r : SeqReader) : res (option T * SeqReader) :=
  if sr_len r <=? sr_index r then Ok (None, r)
  else
    let? child := node_at blob (sr_node r) (sr_index r) in
    let? child := ok_or child (Corrupt "a list element is missing") in
    let? x := seed (AtNode child) in
    Ok (Some x, mkSeqReader (sr_node r) (sr_index r + 1) (sr_len r)).

Definition seq_size_hint (r : SeqReader) : Z := sr_len r - sr_index r.

(** [self.entries[self.index]] panics out of bounds; the seed gets the
    [MapKeyDeserializer] of the name. *)
Definition next_key_seed {K} (seed : bytes → res K) (r : MapReader) : res (option K * MapReader) :=
  if blen (mr_entries r) <=? mr_index r then Ok (None, r)
  else
    match mr_entries r !! Z.to_nat (mr_index r) with
    | None => Panic
    | Some (name, child) =>
        let? k := seed name in
        Ok (Some k, mkMapReader (mr_entries r) (mr_index r + 1) (Some child))
    end.

Definition next_value_seed {V} (seed : Input → res V) (r : MapReader) : res (V * MapReader) :=
  match mr_value r with
  | None => Panic
  | Some child =>
      let? v := seed (AtNode child) in Ok (v, mkMapReader (mr_entries r) (mr_index r) None)
  end.

Definition map_size_hint (r : MapReader) : Z := blen (mr_entries r) - mr_index r.

(** The seed of a variant reads its name; the rest is the payload. *)
Definition variant_seed {T} (seed : bytes → res T) (r : EnumReader) : res (T * option Z) :=
  let? variant := seed (er_variant r) in Ok (variant, er_payload r).

Definition unit_variant (payload : option Z) : res unit := Ok tt.

Definition newtype_variant_seed {T} (seed : Input → res T) (payload : option Z) : res T :=
  match payload with
  | Some node => seed (AtNode node)
  | None => Err (custom "a newtype variant needs a payload")
  end.

Definition tuple_variant {V} (blob : bytes) (payload : option Z) (visitor : Visitor V) : res V :=
  match payload with
  | Some node => deserialize_any blob (AtNode node) visitor
  | None => Err (custom "a tuple variant needs a payload")
  end.

Definition struct_variant {V} (blob : bytes) (payload : option Z) (visitor : Visitor V) : res V :=
  match payload with
  | Some node => deserialize_any blob (AtNode node) visitor
  | None => Err (custom "a struct variant needs a payload")
  end.

(** ** [Value] itself, [dynamic.rs] *)

Definition scalar_serialize (s : Scalar) : Ser :=
  match s with
  | Null => SUnit
  | Bool v => SBool v
  | I8 v => SInt Ti8 v | I16 v => SInt Ti16 v | I32 v => SInt Ti32 v | I64 v => SInt Ti64 v | I128 v => SInt Ti128 v
  | U8 v => SInt Tu8 v | U16 v => SInt Tu16 v | U32 v => SInt Tu32 v | U64 v => SInt Tu64 v | U128 v => SInt Tu128 v
  | F32 v => SF32 v
  | F64 v => SF64 v
  | Str v => SStr v
  | Bytes v => SBytes v
  | Uuid v => SStr (uuid_to_string v)
  | Date v => SStr (date_to_string v)
  | Time v => SStr (time_to_string v)
  | DateTime v => SStr (datetime_to_rfc3339 v)
  | Duration v => SStr (duration_to_string v)
  | BigInt v => SStr (bigint_to_string v)
  | BigFloatS v => SStr (bigfloat_to_string v)
  | Rational v => SStr (rational_to_string v)
  end.

(** A [Vec] serializes as a sequence, a [BTreeMap] as a map in key order. *)
Fixpoint value_serialize (v : Value) : Ser :=
  match v with
  | Leaf s => scalar_serialize s
  | List items => SSeq (map value_serialize items)
  | Node m => SMap (concat (map (λ kv, [MKey (SStr kv.1); MValue (value_serialize kv.2)]) m))
  end.

(** [while let Some(item) = seq.next_element()?]; [n] is one more than the size hint. *)
Fixpoint visit_seq_loop (n : nat) (blob : bytes) (seed : Input → res Value) (r : SeqReader)
    (items : list Value) : res Value :=
  match n with
  | O => OutOfFuel
  | S n =>
      let? '(item, r) := next_element_seed blob seed r in
      match item with
      | Some item => visit_seq_loop n blob seed r (items ++ [item])
      | None => Ok (List items)
      end
  end.

(** [String::deserialize] on a field name: [deserialize_string] hands the name over. *)
Definition string_key (key : bytes) : res bytes := Ok key.

Fixpoint visit_map_loop (n : nat) (seed : Input → res Value) (r : MapReader)
    (node : list (bytes * Value)) : res Value :=
  match n with
  | O => OutOfFuel
  | S n =>
      let? '(key, r) := next_key_seed string_key r in
      match key with
      | Some key =>
          let? '(value, r) := next_value_seed seed r in
          visit_map_loop n seed r (bt_insert node key value)
      | None => Ok (Node node)
      end
  end.

(** [ValueVisitor]; a default method of [Visitor] (here: [visit_newtype_struct],
    [visit_enum]) refuses the input with a type error. *)
Definition ValueVisitor (blob : bytes) (deserialize : Input → res Value) : Visitor Value := {|
  visit_unit := Ok (Leaf Null);
  visit_bool v := Ok (Leaf (Bool v));
  visit_int ty v := Ok (Leaf (int_scalar ty v));
  visit_f32 v := Ok (Leaf (F32 v));
  visit_f64 v := Ok (Leaf (F64 v));
  visit_str v := Ok (Leaf (Str v));
  visit_string v := Ok (Leaf (Str v));
  visit_byte_buf v := Ok (Leaf (Bytes v));
  visit_none := Ok (Leaf Null);
  visit_some input := deserialize input;
  visit_newtype_struct _ := Err (custom "invalid type: newtype struct");
  visit_seq r := visit_seq_loop (S (Z.to_nat (seq_size_hint r))) blob deserialize r [];
  visit_map r := visit_map_loop (S (Z.to_nat (map_size_hint r))) deserialize r [];
  visit_enum _ := Err (custom "invalid type: enum")
|}.

Fixpoint value_deserialize (fuel : nat) (blob : bytes) (input : Input) : res Value :=
  match fuel with
  | O => OutOfFuel
  | S fuel => deserialize_any blob input (ValueVisitor blob (value_deserialize fuel blob))
  end.

Definition scalar_deserialize (fuel : nat) (blob : bytes) (input : Input) : res Scalar :=
  let? v := value_deserialize fuel blob input in
  match v with
  | Leaf s => Ok s
  | List _ => Err (custom "expected a scalar, found a sequence")
  | Node _ => Err (custom "expected a scalar, found a map")
  end.

(** [from_value]: through the codec. *)
Definition from_value {T} (deserialize : bytes → Input → res T) (v : Value) : res T :=
  from_blob deserialize (encode v).

(** ** Map keys survive their text *)

Lemma parse_show_nat max z : 0 ≤ z ≤ max → z < 10 ^ 39 → parse_digits max 0 (show_nat z) = Some z.
Proof. intros. unfold show_nat. by rewrite parse_show_dec by lia. Qed.

Lemma show_nat_cons z : 0 ≤ z → ∃ b rest, show_nat z = b :: rest ∧ 48 ≤ b ≤ 57.
Proof.
  intros Hz. pose proof (show_nat_digits z Hz) as Hd. destruct (show_nat z) as [|b rest] eqn:E.
  - by apply show_dec_ne in E; [|lia].
  - inversion Hd; subst. by exists b, rest.
Qed.

Lemma parse_show_int ty z : int_ok ty z → parse_int ty (show_int z) = Some z.
Proof.
  intros Hz. destruct (int_width ty) as (Hw & Hdbl & Hpos). unfold show_int, int_ok, signed_ok, unsigned_ok in *.
  assert (2 ^ 128 < 10 ^ 39) by done.
  destruct (Z.ltb_spec z 0).
  - assert (int_signed ty = true) as Hs by (destruct (int_signed ty); [done|lia]). rewrite Hs in Hz.
    destruct (show_nat_cons (- z)) as (b & rest & E & Hb); [lia|]. pose proof (parse_show_nat (2 ^ (int_bits ty - 1)) (- z)) as Hp.
    rewrite E in *. cbn [parse_int]. rewrite Hs. cbn [Z.eqb Pos.eqb andb]. rewrite Hp by lia. cbn. f_equal. lia.
  - destruct (show_nat_cons z) as (b & rest & E & Hb); [lia|].
    pose proof (parse_show_nat (int_max ty) z) as Hp. rewrite E in *. cbn [parse_int].
    rewrite (proj2 (Z.eqb_neq b 43)), (proj2 (Z.eqb_neq b 45)) by lia. cbn [andb].
    apply Hp; [|destruct (int_signed ty); lia]. unfold int_max. destruct (int_signed ty); lia.
Qed.

Lemma parse_int_ok ty s z : parse_int ty s = Some z → int_ok ty z.
Proof.
  destruct (int_width ty) as (_ & Hdbl & Hpos). unfold int_ok, signed_ok, unsigned_ok.
  assert (∀ r, parse_digits (int_max ty) 0 r = Some z → 
    if int_signed ty then - 2 ^ (int_bits ty - 1) ≤ z < 2 ^ (int_bits ty - 1) else 0 ≤ z < 2 ^ int_bits ty) as Hmax.
  { intros r Hr. apply parse_digits_bound in Hr; unfold int_max in *; destruct (int_signed ty); lia. }
  unfold parse_int. destruct s as [|b s]; [done|]. destruct (b =? 43); [destruct s; [done|by apply Hmax]|].
  destruct ((b =? 45) && int_signed ty) eqn:E; [|by apply Hmax]. apply andb_true_iff in E as [_ ->].
  destruct s; [done|]. intros (y & Hy & ->)%fmap_Some. apply parse_digits_bound in Hy; lia.
Qed.

(** ** [Value] through the bridge *)

(** The scalars Serde has a primitive for; the others travel as text. *)
Definition native (s : Scalar) : bool :=
  match s with
  | Uuid _ | Date _ | Time _ | DateTime _ | Duration _ | BigInt _ | BigFloatS _ | Rational _ => false
  | _ => true
  end.

Fixpoint natively (v : Value) : bool :=
  match v with
  | Leaf s => native s
  | List l => forallb natively l
  | Node m => forallb (λ kv, natively kv.2) m
  end.

Definition stringify_scalar (s : Scalar) : Scalar :=
  match scalar_serialize s with SStr text => Str text | _ => s end.

Fixpoint stringify (v : Value) : Value :=
  match v with
  | Leaf s => Leaf (stringify_scalar s)
  | List l => List (map stringify l)
  | Node m => Node (map (λ kv, (kv.1, stringify kv.2)) m)
  end.

(** Serializing writes the bytes [encode] writes for the stringified document. *)
Definition pushes (v : Value) : Prop :=
  value_ok v → ∀ buf, blob_serialize (value_serialize v) buf = Ok (push_value (stringify v) buf).

Lemma elements_push l buf offs :
  Forall pushes l → Forall value_ok l →
  elements blob_serialize (map value_serialize l) buf offs =
    let '(buf, os) := push_items (map stringify l) buf in Ok (buf, offs ++ os).
Proof.
  revert buf offs. induction l as [|v l IH]; intros buf offs Hl Hok; cbn [elements map push_items]; [by rewrite app_nil_r|].
  apply Forall_cons in Hl as [Hv Hl], Hok as [Ho Hok]. rewrite (Hv Ho). destruct (push_value _ buf) as [b o]. cbn [rbind].
  rewrite IH by done. destruct (push_items _ b). by rewrite <- app_assoc.
Qed.

Lemma map_calls_push m buf es :
  Forall (λ kv, pushes kv.2) m → Forall (λ kv, str_ok kv.1 ∧ value_ok kv.2) m → StronglySorted blt (es.*1 ++ m.*1) →
  map_calls blob_serialize (concat (map (λ kv, [MKey (SStr kv.1); MValue (value_serialize kv.2)]) m)) buf es None =
    let '(buf, es') := push_entries (map (λ kv, (kv.1, stringify kv.2)) m) buf in Ok (buf, es ++ es').
Proof.
  revert buf es. induction m as [|[k v] m IH]; intros buf es Hl Hok Hs; cbn [map_calls map concat app push_entries]; [by rewrite app_nil_r|].
  apply Forall_cons in Hl as [Hv Hl], Hok as [[_ Ho] Hok]. cbn [key_serialize rbind ok_or fst snd].
  rewrite (Hv Ho). cbn [snd] in *. destruct (push_value _ buf) as [b o]. cbn [rbind]. cbn [fmap list_fmap fst] in Hs.
  rewrite (bt_insert_after _ _ _ _ Hs), IH; [|done..|by rewrite fmap_app, <- app_assoc].
  destruct (push_entries _ b). by rewrite <- app_assoc.
Qed.

Lemma value_serialize_pushes v : pushes v.
Proof.
  induction v as [s|l IH|m IH] using Value_ind; intros Hok buf; cbn [value_serialize stringify].
  - by destruct s.
  - apply value_ok_list in Hok. rewrite push_value_list. cbn [blob_serialize]. rewrite elements_push by done.
    by destruct (push_items _ buf).
  - apply value_ok_node in Hok as [Hs Hok]. rewrite push_value_node. cbn [blob_serialize]. rewrite map_calls_push by done.
    by destruct (push_entries _ buf).
Qed.

Lemma to_blob_value v : value_ok v → to_blob (value_serialize v) = Ok (encode (stringify v)).
Proof.
  intros Hok. unfold to_blob, encode. rewrite value_serialize_pushes by done. cbn [rbind].
  by destruct (push_value _ begin_blob).
Qed.

Lemma stringify_native v : natively v = true → stringify v = v.
Proof.
  induction v as [s|l IH|m IH] using Value_ind; cbn [natively stringify]; intros Hn.
  - by destruct s.
  - f_equal. induction IH as [|x l Hx _ IHl]; [done|]. cbn [forallb map] in *. apply andb_true_iff in Hn as [Hn Hl].
    by rewrite Hx, IHl.
  - f_equal. induction IH as [|[k x] m Hx _ IHm]; [done|]. cbn [forallb map fst snd] in *. apply andb_true_iff in Hn as [Hn Hl].
    by rewrite Hx, IHm.
Qed.

Lemma natively_stringify v : natively (stringify v) = true.
Proof.
  induction v as [s|l IH|m IH] using Value_ind; cbn [natively stringify].
  - by destruct s.
  - induction IH as [|x l Hx _ IHl]; [done|]. cbn [forallb map]. by rewrite Hx, IHl.
  - induction IH as [|[k x] m Hx _ IHm]; [done|]. cbn [forallb map snd] in *. by rewrite Hx, IHm.
Qed.

Lemma depth_stringify v : depth (stringify v) = depth v.
Proof.
  induction v as [s|l IH|m IH] using Value_ind; cbn [depth stringify]; [done|..]; do 2 f_equal.
  - induction IH as [|x l Hx _ IHl]; [done|]. cbn [map]. by rewrite Hx, IHl.
  - induction IH as [|[k x] m Hx _ IHm]; [done|]. cbn [map snd] in *. by rewrite Hx, IHm.
Qed.

(** ** Reading a document through the visitor *)

Section at_blob.
Variable blob : bytes.
Hypothesis Hblob : blen blob < 2 ^ 32.

(** [deserialize_any] hands each kind of vnode to its method. *)
Definition hands {V} (r : res V) (visitor : Visitor V) (off : Z) (x : Value) : Prop :=
  match x with
  | Leaf s => r = scalar_into s visitor
  | List l => r = visit_seq visitor (mkSeqReader off 0 (blen l))
  | Node m => ∃ es, Forall2 (λ e kv, e.1 = kv.1 ∧ repr blob e.2 kv.2) es m ∧ r = visit_map visitor (mkMapReader es 0 None)
  end.

Lemma deserialize_any_repr `{!ExtLaws} {V} off x (visitor : Visitor V) :
  value_ok x → repr blob off x → hands (deserialize_any blob (AtNode off) visitor) visitor off x.
Proof using Hblob.
  intros Hok Hr. unfold hands, deserialize_any. rewrite (kind_at_repr _ Hblob off x Hr).
  destruct x as [s|l|m]; cbn [rbind node_kind].
  - by rewrite (node_scalar_repr _ Hblob off s Hok Hr).
  - by rewrite (node_len_repr _ Hblob off l Hr).
  - destruct (node_entries_repr _ Hblob off m Hok Hr) as (es & -> & Hf). by exists es.
Qed.

(** What reading a value back gives. *)
Definition readback (v : Value) : res Value := if natively v then Ok v else Err no_primitive.

Lemma seq_loop_readback off l seed k : ∀ i items,
  repr blob off (List l) → (∀ c v, v ∈ l → repr blob c v → seed (AtNode c) = readback v) →
  (i + k)%nat = length l →
  visit_seq_loop (S k) blob seed (mkSeqReader off (Z.of_nat i) (blen l)) items =
    if forallb natively (drop i l) then Ok (List (items ++ drop i l)) else Err no_primitive.
Proof using Hblob.
  induction k as [|k IH]; intros i items Hr Hseed Hik; cbn [visit_seq_loop]; unfold next_element_seed; cbn [sr_len sr_index sr_node].
  - rewrite drop_ge, app_nil_r by lia. unfold blen. destruct (Z.leb_spec (Z.of_nat (length l)) (Z.of_nat i)); [done|lia].
  - destruct (lookup_lt_is_Some_2 l i) as [v Hv]; [lia|]. rewrite (drop_S _ _ _ Hv).
    destruct (Z.leb_spec (blen l) (Z.of_nat i)); [unfold blen in *; lia|].
    pose proof (at_repr _ Hblob off (List l) (Z.of_nat i) ltac:(lia) Hr) as Ha. cbn [at_] in Ha. rewrite Nat2Z.id, Hv in Ha.
    destruct Ha as (c & -> & Hc). cbn [rbind ok_or forallb].
    rewrite (Hseed c v); [|by eapply list_elem_of_lookup_2|done]. unfold readback.
    destruct (natively v); cbn [rbind andb]; [|done]. replace (Z.of_nat i + 1) with (Z.of_nat (S i)) by lia.
    change (visit_seq_loop (S k) blob seed (mkSeqReader off (Z.of_nat (S i)) (blen l)) (items ++ [v]) = 
      if forallb natively (drop (S i) l) then Ok (List (items ++ v :: drop (S i) l)) else Err no_primitive).
    rewrite IH by (done || lia). by rewrite <- app_assoc.
Qed.

Lemma map_loop_readback es (m : list (bytes * Value)) seed k : ∀ i,
  Forall2 (λ e kv, e.1 = kv.1 ∧ repr blob e.2 kv.2) es m → bt_sorted m →
  (∀ c kv, kv ∈ m → repr blob c kv.2 → seed (AtNode c) = readback kv.2) →
  (i + k)%nat = length m →
  visit_map_loop (S k) seed (mkMapReader es (Z.of_nat i) None) (take i m) =
    if forallb (λ kv, natively kv.2) (drop i m) then Ok (Node m) else Err no_primitive.
Proof using Hblob.
  induction k as [|k IH]; intros i Hf Hs Hseed Hik; pose proof (Forall2_length _ _ _ Hf) as Hlen;
    cbn [visit_map_loop]; unfold next_key_seed; cbn [mr_entries mr_index].
  - rewrite drop_ge, take_ge by lia. unfold blen. destruct (Z.leb_spec (Z.of_nat (length es)) (Z.of_nat i)); [done|lia].
  - destruct (lookup_lt_is_Some_2 m i) as [[name v] Hv]; [lia|]. rewrite (drop_S _ _ _ Hv).
    destruct (Z.leb_spec (blen es) (Z.of_nat i)); [unfold blen in *; lia|].
    destruct (Forall2_lookup_r _ _ _ _ _ Hf Hv) as ([name' c] & He & Hn & Hc). cbn [fst snd] in Hn, Hc. subst name'.
    rewrite Nat2Z.id, He. unfold string_key, next_value_seed. cbn [rbind mr_value mr_entries mr_index forallb snd].
    rewrite (Hseed c (name, v)); [|by eapply list_elem_of_lookup_2|done]. unfold readback. cbn [snd].
    destruct (natively v); cbn [rbind andb]; [|done]. replace (Z.of_nat i + 1) with (Z.of_nat (S i)) by lia.
    rewrite (bt_insert_after _ _ _ ((drop (S i) m).*1)).
    2: { unfold bt_sorted in Hs. rewrite <- (take_drop_middle _ _ _ Hv), fmap_app in Hs. exact Hs. }
    rewrite <- (take_S_r _ _ _ Hv). by apply IH; [..|lia].
Qed.

Lemma value_deserialize_repr `{!ExtLaws} v : ∀ fuel off,
  (depth v ≤ fuel)%nat → value_ok v → repr blob off v → value_deserialize fuel blob (AtNode off) = readback v.
Proof using Hblob.
  induction v as [s|l IH|m IH] using Value_ind; intros [|fuel] off Hd Hok Hr; try (cbn in Hd; lia);
    cbn [value_deserialize];
    pose proof (deserialize_any_repr off _ (ValueVisitor blob (value_deserialize fuel blob)) Hok Hr) as Hh; cbn [hands] in Hh.
  - rewrite Hh. by destruct s.
  - rewrite Hh. cbn [visit_seq ValueVisitor]. unfold seq_size_hint. cbn [sr_len sr_index].
    rewrite (seq_loop_readback off l _ (Z.to_nat (blen l - 0)) 0); [done|done| |unfold blen; lia].
    intros c v Hv Hc. rewrite Forall_forall in IH. apply value_ok_list in Hok. rewrite Forall_forall in Hok.
    apply IH; [done| |by apply Hok|done]. pose proof (depth_list l v Hv). lia.
  - destruct Hh as (es & Hf & ->). cbn [visit_map ValueVisitor]. unfold map_size_hint. cbn [mr_entries mr_index].
    apply value_ok_node in Hok as [Hs Hok]. pose proof (Forall2_length _ _ _ Hf) as Hlen.
    rewrite (map_loop_readback es m _ (Z.to_nat (blen es - 0)) 0); [done|done|done| |unfold blen; lia].
    intros c kv Hv Hc. rewrite Forall_forall in IH. rewrite Forall_forall in Hok.
    apply IH; [done| |by apply Hok|done]. pose proof (depth_node m kv Hv). lia.
Qed.

(** Which vnodes read as an enum. *)
Lemma deserialize_enum_repr `{!ExtLaws} {V} off x (visitor : Visitor V) :
  value_ok x → repr blob off x →
  match x with
  | Leaf (Str name) => deserialize_enum blob (AtNode off) visitor = visit_enum visitor (mkEnumReader name None)
  | Node [(name, payload)] => ∃ p, repr blob p payload ∧
      deserialize_enum blob (AtNode off) visitor = visit_enum visitor (mkEnumReader name (Some p))
  | _ => ∃ msg, deserialize_enum blob (AtNode off) visitor = Err (custom msg)
  end.
Proof using Hblob.
  intros Hok Hr. unfold deserialize_enum. rewrite (kind_at_repr _ Hblob off x Hr).
  destruct x as [s|l|m]; cbn [rbind node_kind].
  - rewrite (node_scalar_repr _ Hblob off s Hok Hr). cbn [rbind]. destruct s; eauto.
  - eauto.
  - destruct (node_entries_repr _ Hblob off m Hok Hr) as (es & -> & Hf). cbn [rbind].
    destruct Hf as [|[n p] [k y] es m [E Hp] Hf]; [eauto|]. cbn [fst snd] in *. subst n. destruct Hf; eauto.
Qed.

Definition is_null_value (x : Value) : bool := match x with Leaf Null => true | _ => false end.

Lemma deserialize_option_repr `{!ExtLaws} {V} off x (visitor : Visitor V) :
  value_ok x → repr blob off x →
  deserialize_option blob (AtNode off) visitor =
    if is_null_value x then visit_none visitor else visit_some visitor (AtNode off).
Proof using Hblob.
  intros Hok Hr. unfold deserialize_option. rewrite (kind_at_repr _ Hblob off x Hr).
  destruct x as [s|l|m]; cbn [rbind node_kind]; [|done..].
  rewrite (node_scalar_repr _ Hblob off s Hok Hr). cbn [rbind]. by destruct s.
Qed.
End at_blob.

(** ** The theorems *)

(** The payload of a variant, as the calls that write it. *)
Definition variant_payload (v : Ser) : option (bytes * option Ser) :=
  match v with
  | SUnitVariant name => Some (name, None)
  | SNewtypeVariant name payload => Some (name, Some payload)
  | STupleVariant name items => Some (name, Some (STuple items))
  | SStructVariant name fields => Some (name, Some (SStruct fields))
  | _ => None
  end.

Lemma denote_variant v name payload x :
  variant_payload v = Some (name, payload) → denote v = Ok x →
  match payload with
  | None => x = Leaf (Str name)
  | Some p => ∃ y, denote p = Ok y ∧ x = tagged name y
  end.
Proof.
  intros Hv Hd. destruct v; cbn [variant_payload denote] in *; simplify_eq; [done|..];
    apply rbind_Ok in Hd as (y & Hy & [= <-]); cbn [denote]; rewrite Hy; cbn [rbind]; eauto.
Qed.

Context `{!ExtLaws, !TextLaws}.

(** C23: A document goes through the bridge and comes back.  Serializing a well-formed
    [Value] (whose texts are well formed too) writes exactly the bytes [encode] writes, once the scalars without a Serde
    primitive are replaced by their text; reading that blob back as a [Value] gives
    the document so written, hence the very same document when it has none of them;
    and [from_value] refuses a document that has one. *)
Theorem value_through_serde v fuel :
  value_ok v → value_ok (stringify v) →
  blen (encode v) < 2 ^ 32 → blen (encode (stringify v)) < 2 ^ 32 → (depth v ≤ fuel)%nat →
  to_blob (value_serialize v) = Ok (encode (stringify v)) ∧
  from_blob (value_deserialize fuel) (encode (stringify v)) = Ok (stringify v) ∧
  (natively v = true → stringify v = v) ∧
  from_value (value_deserialize fuel) v = if natively v then Ok v else Err no_primitive.
Proof.
  intros Hok Hok' Hb Hb' Hf. split; [by apply to_blob_value|]. unfold from_value, from_blob.
  destruct (encode_new _ Hb) as (r & -> & Hr). destruct (encode_new _ Hb') as (r' & -> & Hr'). cbn [rbind].
  rewrite (value_deserialize_repr _ Hb' (stringify v)); [|by rewrite depth_stringify|done..].
  rewrite (value_deserialize_repr _ Hb v) by done.
  unfold readback. rewrite natively_stringify. split_and!; [done|apply stringify_native|done].
Qed.

(** C24: What a typed reader finds in a blob [to_blob] wrote.  An option is [None]
    exactly when the document is null and [Some] of the same vnode otherwise; an enum
    is presented by its variant's name, with no payload for a unit variant and
    otherwise with the vnode of the payload, which reads back as the document the
    payload stands for. *)
Theorem typed_reads {V} (visitor : Visitor V) v x blob :
  ser_ok v → denote v = Ok x → to_blob v = Ok blob → blen blob < 2 ^ 32 →
  ∃ root, from_blob (λ _ input, Ok input) blob = Ok (AtNode root) ∧
    deserialize_option blob (AtNode root) visitor =
      (if is_null_value x then visit_none visitor else visit_some visitor (AtNode root)) ∧
    match variant_payload v with
    | None => True
    | Some (name, None) => deserialize_enum blob (AtNode root) visitor = visit_enum visitor (mkEnumReader name None)
    | Some (name, Some payload) => ∃ p y, denote payload = Ok y ∧
        deserialize_enum blob (AtNode root) visitor = visit_enum visitor (mkEnumReader name (Some p)) ∧
        hands blob (tuple_variant blob (Some p) visitor) visitor p y ∧
        ∀ fuel, (depth y ≤ fuel)%nat → newtype_variant_seed (value_deserialize fuel blob) (Some p) = readback y
    end.
Proof.
  intros Hok Hd Hblob Hb. pose proof (to_blob_root v) as Hr. rewrite Hd, Hblob in Hr.
  destruct Hr as (? & [= <-] & Hr). destruct (Hr Hb) as (root & Hnew & Hrep). exists root.
  assert (value_ok x) as Hx by by apply (denote_typed v). unfold from_blob. rewrite Hnew. split; [done|].
  split; [by apply deserialize_option_repr|].
  pose proof (deserialize_enum_repr blob Hb root x visitor Hx Hrep) as He.
  destruct (variant_payload v) as [[name payload]|] eqn:Hv; [|done].
  pose proof (denote_variant v name payload x Hv Hd) as Hp. destruct payload as [p|]; [|by subst].
  destruct Hp as (y & Hy & ->). destruct He as (q & Hq & He). exists q, y.
  apply value_ok_node in Hx as [_ [[_ Hyok] _]%Forall_cons]. split_and!; [done..|by apply deserialize_any_repr|].
  intros fuel Hf. by apply (value_deserialize_repr blob Hb).
Qed.

(** C25: A map key survives becoming a field name.  The name a key was given reads back
    as that key: an integer of any width parses to the same integer, a boolean, a
    string, a character and a unit variant likewise, an option and a newtype through
    what they hold; and a name never parses to an integer outside its type. *)
Theorem map_key_roundtrip {V} blob (visitor : Visitor V) key name :
  args_ok key → key_serialize key = Ok name →
  match key with
  | SInt ty z => deserialize_int ty blob (AtKey name) visitor = visit_int visitor ty z
  | SBool b => deserialize_bool blob (AtKey name) visitor = visit_bool visitor b
  | SStr s => deserialize_any blob (AtKey name) visitor = visit_str visitor s
  | SChar c => deserialize_any blob (AtKey name) visitor = visit_str visitor (show_char c)
  | SUnitVariant s => deserialize_enum blob (AtKey name) visitor = visit_enum visitor (mkEnumReader s None)
  | SSome k | SNewtypeStruct k => key_serialize k = Ok name ∧
      deserialize_option blob (AtKey name) visitor = visit_some visitor (AtKey name)
  | _ => True
  end ∧
  ∀ ty s z, parse_int ty s = Some z → int_ok ty z.
Proof.
  intros Ha Hk. split.
  - destruct key; cbn [key_serialize args_ok] in *; simplify_eq; try done.
    + by destruct v.
    + cbn [deserialize_int]. by rewrite parse_show_int.
  - intros ty s z. apply parse_int_ok.
Qed.
End serde_de.

(** ** At concrete documents *)

Module SerdeDeExamples.
Import ExtModel TextModel.

(** A document with a scalar Serde has no primitive for. *)
Definition sample : Value := Node [([97], List [Leaf (I64 5); Leaf Null]); ([117], Leaf (Uuid 7))].

Lemma sample_value_ok : value_ok sample.
Proof. vm_compute. repeat (split || constructor). all: done. Qed.

Lemma sample_text_ok : value_ok (stringify sample).
Proof. vm_compute. repeat (split || constructor). all: done. Qed.

Lemma value_through_serde_witness :
  to_blob (value_serialize sample) = Ok (encode (stringify sample)) ∧
  from_blob (value_deserialize 3) (encode (stringify sample)) = Ok (stringify sample) ∧
  from_value (value_deserialize 3) sample = Err no_primitive.
Proof.
  destruct (value_through_serde sample 3) as (H1 & H2 & _ & H3); [exact sample_value_ok|exact sample_text_ok|by vm_compute|by vm_compute|vm_compute; lia|].
  split; [exact H1|]. split; [exact H2|exact H3].
Defined.

(** [Kind::Many([9, 10])], a newtype variant. *)
Definition many : Ser := SNewtypeVariant [77] (SSeq [SInt Ti64 9; SInt Ti64 10]).
Definition many_blob : bytes := match to_blob many with Ok b => b | _ => [] end.

Lemma many_ok : ser_ok many.
Proof. repeat first [by vm_compute | constructor | by left]. Qed.

(** A reader of the variant's name. *)
Definition variant_name : Visitor bytes :=
  let refuse := Err (custom "expected an enum") in {|
    visit_unit := refuse; visit_bool _ := refuse; visit_int _ _ := refuse; visit_f32 _ := refuse; visit_f64 _ := refuse;
    visit_str _ := refuse; visit_string _ := refuse; visit_byte_buf _ := refuse; visit_none := refuse;
    visit_some _ := refuse; visit_newtype_struct _ := refuse; visit_seq _ := refuse; visit_map _ := refuse;
    visit_enum r := Ok (er_variant r)
  |}.

Lemma typed_reads_witness :
  ∃ root p, from_blob (λ _ input, Ok input) many_blob = Ok (AtNode root) ∧
    deserialize_enum many_blob (AtNode root) variant_name = Ok [77] ∧
    newtype_variant_seed (value_deserialize 2 many_blob) (Some p) = Ok (List [Leaf (I64 9); Leaf (I64 10)]).
Proof.
  destruct (typed_reads variant_name many (tagged [77] (List [Leaf (I64 9); Leaf (I64 10)])) many_blob)
    as (root & Hr & _ & p & y & Hy & He & _ & Hn); [exact many_ok|reflexivity|by vm_compute|by vm_compute|].
  injection Hy as <-. exists root, p. split; [exact Hr|]. split; [exact He|]. apply Hn. vm_compute. lia.
Defined.

Lemma map_key_roundtrip_witness :
  key_serialize (SInt Ti8 (-128)) = Ok [45; 49; 50; 56] ∧
  deserialize_int Ti8 [] (AtKey [45; 49; 50; 56]) (ValueVisitor [] (λ _, Panic)) = Ok (Leaf (I8 (-128))).
Proof.
  split; [reflexivity|].
  apply (map_key_roundtrip [] (ValueVisitor [] (λ _, Panic)) (SInt Ti8 (-128))); [by vm_compute|reflexivity].
Defined.

(** One beyond the type's range, and a lone sign, are not keys of the type. *)
Example refused_keys :
  parse_int Ti8 [45; 49; 50; 57] = None ∧ parse_int Tu8 [50; 53; 54] = None ∧ parse_int Tu8 [45; 49] = None ∧
  parse_int Ti8 [45] = None ∧ parse_int Ti8 [43; 55] = Some 7.
Proof. done. Qed.
End SerdeDeExamples.
