(* ===== verification/Export.v ===== *)
(** * Exports: a document as JSON and as YAML

    [export/]: the scalar texts, the quoting, the JSON writer (compact and
    indented), the YAML block writer and the two traits over a transaction and over
    a document.  Every writer appends to [out].  A string is its UTF-8 bytes: the
    characters [quote] escapes are all ASCII, so going over the bytes of a string
    is going over its characters. *)
From S2P Require Import Prelude BTree Codec Ext Scalar Path Value Archived Access Dir Engine Ctx Grab Text.

(** ** [base64.rs] *)

Definition ALPHABET : bytes := seqZ 65 26 ++ seqZ 97 26 ++ seqZ 48 10 ++ [43; 47].

(** [ALPHABET[i & 0x3F]]: the mask keeps the index in range. *)
Definition sextet (i : Z) : Z := nth (Z.to_nat (Z.land i 63)) ALPHABET 0.

Definition base64_chunk (c0 : Z) (b1 b2 : option Z) : bytes :=
  let triple := Z.lor (Z.lor (Z.shiftl c0 16) (Z.shiftl (default 0 b1) 8)) (default 0 b2) in
  [sextet (Z.shiftr triple 18); sextet (Z.shiftr triple 12);
   match b1 with Some _ => sextet (Z.shiftr triple 6) | None => 61 end;
   match b2 with Some _ => sextet triple | None => 61 end].

(** [for chunk in input.chunks(3)]. *)
Fixpoint base64_encode (input : bytes) : bytes :=
  match input with
  | [] => []
  | [a] => base64_chunk a None None
  | [a; b] => base64_chunk a (Some b) None
  | a :: b :: c :: input => base64_chunk a (Some b) (Some c) ++ base64_encode input
  end.

(** ** [string.rs] *)

Definition hex (d : Z) : Z := if d <? 10 then 48 + d else 87 + d.

Definition escape (ch : Z) : bytes :=
  if ch =? 34 then [92; 34]
  else if ch =? 92 then [92; 92]
  else if ch =? 10 then [92; 110]
  else if ch =? 13 then [92; 114]
  else if ch =? 9 then [92; 116]
  else if ch =? 8 then [92; 98]
  else if ch =? 12 then [92; 102]
  else if ch <? 32 then [92; 117; 48; 48; hex (ch / 16); hex (ch mod 16)]
  else [ch].

Definition quote (out s : bytes) : bytes := out ++ [34] ++ concat (map escape s) ++ [34].

(** ** [scalar.rs] *)

(** Not all exponent bits set. *)
Definition f32_is_finite (bits : Z) : bool := negb ((bits / 2 ^ 23) mod 256 =? 255).
Definition f64_is_finite (bits : Z) : bool := negb ((bits / 2 ^ 52) mod 2048 =? 2047).

(** [{:09}]. *)
Fixpoint pad_digits (width : nat) (z : Z) (acc : bytes) : bytes :=
  match width with
  | O => acc
  | S width => pad_digits width (z / 10) ((48 + z mod 10) :: acc)
  end.

Definition trim_end_matches (c : Z) (s : bytes) : bytes :=
  foldr (λ b rest, match rest with [] => if b =? c then [] else [b] | _ => b :: rest end) [] s.

Definition null_text : bytes := [110; 117; 108; 108].

Section export.
Context `{Ext}.
Context `{!TextForms}.

Definition number (out text : bytes) : bytes := out ++ text.

Definition duration_seconds (d : TimeDelta) : bytes :=
  let secs := td_num_seconds d in
  let nanos := td_subsec_nanos d in
  if nanos =? 0 then show_int secs
  else
    let sign := if (secs <? 0) || (nanos <? 0) then [45] else [] in
    let fraction := pad_digits 9 (Z.abs nanos) [] in
    sign ++ show_nat (Z.abs secs) ++ [46] ++ trim_end_matches 48 fraction.

Definition write_big_float (out : bytes) (v : BigFloat) : bytes :=
  if is_nan v || is_inf_pos v || is_inf_neg v then out ++ null_text
  else number out (bigfloat_to_string v).

Definition write_scalar (out : bytes) (s : Scalar) : bytes :=
  match s with
  | Null => out ++ null_text
  | Bool b => out ++ show_bool b
  | I8 v | I16 v | I32 v | I64 v | I128 v | U8 v | U16 v | U32 v | U64 v | U128 v => number out (show_int v)
  | F32 v => if f32_is_finite v then number out (f32_to_string v) else out ++ null_text
  | F64 v => if f64_is_finite v then number out (f64_to_string v) else out ++ null_text
  | Str v => quote out v
  | Bytes v => quote out (base64_encode v)
  | Uuid v => quote out (uuid_to_string v)
  | Date v => quote out (date_to_string v)
  | Time v => quote out (time_to_string v)
  | DateTime v => quote out (datetime_to_rfc3339 v)
  | Duration v => out ++ duration_seconds v
  | BigInt v => number out (bigint_to_string v)
  | BigFloatS v => write_big_float out v
  | Rational v => quote out (bigint_to_string (numer v) ++ [47] ++ bigint_to_string (denom v))
  end.

(** ** [json.rs] *)

(** [for (i, item) in items.iter().enumerate()], with [sep] between the items. *)
Definition separated {A} (sep : bytes) (item : A → bytes → bytes) :=
  fix go (i : nat) (items : list A) (out : bytes) : bytes :=
    match items with
    | [] => out
    | x :: items =>
        let out := match i with O => out | S _ => out ++ sep end in
        go (S i) items (item x out)
    end.

Fixpoint compact (value : Value) (out : bytes) : bytes :=
  match value with
  | Leaf s => write_scalar out s
  | List items => separated [44] compact O items (out ++ [91]) ++ [93]
  | Node entries =>
      separated [44] (λ kv out, compact kv.2 (quote out kv.1 ++ [58])) O entries (out ++ [123]) ++ [125]
  end.

Definition pad (out : bytes) (count : nat) : bytes := out ++ replicate count 32.

(** The product of the step and the depth is assumed not to overflow a [usize]. *)
Fixpoint pretty (value : Value) (step depth : nat) (out : bytes) : bytes :=
  match value with
  | List ((_ :: _) as items) =>
      let out := separated [44; 10]
        (λ item out, pretty item step (S depth) (pad out (step * S depth))) O items (out ++ [91; 10]) in
      pad (out ++ [10]) (step * depth) ++ [93]
  | Node ((_ :: _) as entries) =>
      let out := separated [44; 10]
        (λ kv out, pretty kv.2 step (S depth) (quote (pad out (step * S depth)) kv.1 ++ [58; 32])) O entries (out ++ [123; 10]) in
      pad (out ++ [10]) (step * depth) ++ [125]
  | List [] => out ++ [91; 93]
  | Node [] => out ++ [123; 125]
  | Leaf s => write_scalar out s
  end.

Definition to_json (value : Value) (indent : option nat) : bytes :=
  match indent with
  | Some step => pretty value step O []
  | None => compact value []
  end.

(** ** [yaml.rs] *)

Definition inline (out : bytes) (value : Value) : bytes :=
  match value with
  | Leaf s => write_scalar out s
  | List _ => out ++ [91; 93]
  | Node _ => out ++ [123; 125]
  end.

(** [object] and [list]; the writer of what follows a marker is an argument. *)
Definition yaml_object (child : Value → nat → bytes → bytes) :=
  fix go (entries : list (bytes * Value)) (indent : nat) (out : bytes) : bytes :=
    match entries with
    | [] => out
    | kv :: entries => go entries indent (child kv.2 indent (quote (pad out indent) kv.1 ++ [58]))
    end.

Definition yaml_list (child : Value → nat → bytes → bytes) :=
  fix go (items : list Value) (indent : nat) (out : bytes) : bytes :=
    match items with
    | [] => out
    | item :: items => go items indent (child item indent (pad out indent ++ [45]))
    end.

Fixpoint child (value : Value) (indent : nat) (out : bytes) : bytes :=
  match value with
  | Node ((_ :: _) as entries) => yaml_object child entries (indent + 2) (out ++ [10])
  | List ((_ :: _) as items) => yaml_list child items (indent + 2) (out ++ [10])
  | other => inline (out ++ [32]) other ++ [10]
  end.

Definition to_yaml (value : Value) : bytes :=
  match value with
  | Node ((_ :: _) as entries) => yaml_object child entries O []
  | List ((_ :: _) as items) => yaml_list child items O []
  | other => inline [] other ++ [10]
  end.

(** ** [exporter.rs] *)

Section over_txn.
Context {S : Type} `{Grab S}.

Definition txn_value (fuel : nat) (path : APath) : SM S Value :=
  let! kind := grab_kind path in
  match kind with
  | Some KFile =>
      let! value := grab_load_value fuel path in asks (λ _, ok_or value ValueNotFound)
  | Some KDir => serr (CannotAccess "'{path}' is a directory and cannot be exported")
  | None => serr ValueNotFound
  end.

Definition txn_export_to_json (fuel : nat) (path : APath) (indent : option nat) : SM S bytes :=
  let! value := txn_value fuel path in sret (to_json value indent).

Definition txn_export_to_yaml (fuel : nat) (path : APath) : SM S bytes :=
  let! value := txn_value fuel path in sret (to_yaml value).
End over_txn.

Definition export_navigate (value : Value) (base : VPath) : res Value :=
  ok_or (subtree value base) PathNotFound.

Definition value_export_to_json (value : Value) (path : VPath) (indent : option nat) : res bytes :=
  let? v := export_navigate value path in Ok (to_json v indent).

Definition value_export_to_yaml (value : Value) (path : VPath) : res bytes :=
  let? v := export_navigate value path in Ok (to_yaml v).
End export.
