(* ===== verification/ExportSpec.v ===== *)
(** * Exports: what the texts mean

    Reference readers for the two formats, and the proof that every export reads
    back as the plain view of its document: the JSON grammar (RFC 8259: numbers,
    escapes, white space), the block subset of YAML the writer uses, and RFC 4648
    Base64 for byte scalars. *)
From S2P Require Import Prelude BTree Codec Ext Scalar Path Value Archived Access Key Dir Engine WriteBuffer Ctx Tree Grab Text Export.

(** ** The common view *)

Inductive J : Type :=
| JNull
| JBool (b : bool)
| JNum (text : bytes)
| JStr (s : bytes)
| JList (l : list J)
| JObj (m : list (bytes * J)).

(** ** Numbers *)

Definition is_digit (c : Z) : bool := in_range 48 57 c.

(** The longest prefix of bytes that satisfy [p]. *)
Fixpoint span (p : Z → bool) (s : bytes) : bytes * bytes :=
  match s with
  | [] => ([], [])
  | c :: r => if p c then let '(a, b) := span p r in (c :: a, b) else ([], s)
  end.

(** At least one digit, and what follows. *)
Definition digits1 (s : bytes) : option bytes :=
  match span is_digit s with ([], _) => None | (_, rest) => Some rest end.

Definition exponent_part (s : bytes) : bool :=
  match s with
  | [] => true
  | c :: r =>
      if (c =? 101) || (c =? 69) then
        let r := match r with c :: r' => if (c =? 43) || (c =? 45) then r' else r | [] => r end in
        match digits1 r with Some [] => true | _ => false end
      else false
  end.

Definition fraction_part (s : bytes) : bool :=
  match s with
  | c :: r => if c =? 46 then match digits1 r with Some rest => exponent_part rest | None => false end
              else exponent_part s
  | [] => true
  end.

(** [-? (0 | [1-9] [0-9]* ) (. [0-9]+)? ([eE] [+-]? [0-9]+)?] *)
Definition unsigned_number (s : bytes) : bool :=
  match span is_digit s with
  | ([], _) => false
  | (d :: ds, rest) => (negb (d =? 48) || bool_decide (ds = [])) && fraction_part rest
  end.

Definition json_number (s : bytes) : bool :=
  unsigned_number (match s with c :: r => if c =? 45 then r else s | [] => s end).

Definition is_numchar (c : Z) : bool :=
  is_digit c || (c =? 43) || (c =? 45) || (c =? 46) || (c =? 69) || (c =? 101).

(** ** Strings *)

Definition unhex (c : Z) : option Z :=
  if is_digit c then Some (c - 48) else if in_range 97 102 c then Some (c - 87)
  else if in_range 65 70 c then Some (c - 55) else None.

(** Four hexadecimal digits as a character (surrogates are not one). *)
Definition unhex4 (a b c d : Z) : option bytes :=
  match unhex a, unhex b, unhex c, unhex d with
  | Some a, Some b, Some c, Some d =>
      let z := ((a * 16 + b) * 16 + c) * 16 + d in
      if in_range 55296 57343 z then None else Some (show_char z)
  | _, _, _, _ => None
  end.

Definition unescape (c : Z) : option Z :=
  if (c =? 34) || (c =? 92) || (c =? 47) then Some c
  else if c =? 98 then Some 8 else if c =? 102 then Some 12
  else if c =? 110 then Some 10 else if c =? 114 then Some 13 else if c =? 116 then Some 9
  else None.

Definition prepend (a : bytes) (o : option (bytes * bytes)) : option (bytes * bytes) :=
  match o with Some (s, rest) => Some (a ++ s, rest) | None => None end.

(** The rest of a string after its opening quote. *)
Fixpoint read_string (s : bytes) : option (bytes * bytes) :=
  match s with
  | [] => None
  | c :: r =>
      if c =? 34 then Some ([], r)
      else if c =? 92 then
        match r with
        | [] => None
        | e :: r =>
            if e =? 117 then
              match r with
              | a :: b :: c :: d :: r =>
                  match unhex4 a b c d with Some ch => prepend ch (read_string r) | None => None end
              | _ => None
              end
            else match unescape e with Some ch => prepend [ch] (read_string r) | None => None end
        end
      else if c <? 32 then None
      else prepend [c] (read_string r)
  end.

Fixpoint strip_prefix (p s : bytes) : option bytes :=
  match p with
  | [] => Some s
  | a :: p => match s with c :: s => if c =? a then strip_prefix p s else None | [] => None end
  end.

Definition expect (c : Z) (s : bytes) : option bytes := strip_prefix [c] s.

Definition read_number (s : bytes) : option (J * bytes) :=
  let '(text, rest) := span is_numchar s in if json_number text then Some (JNum text, rest) else None.

(** A scalar: a string, a literal or a number. *)
Definition read_scalar (s : bytes) : option (J * bytes) :=
  match expect 34 s with
  | Some r => match read_string r with Some (v, rest) => Some (JStr v, rest) | None => None end
  | None =>
      match strip_prefix null_text s, strip_prefix (show_bool true) s, strip_prefix (show_bool false) s with
      | Some rest, _, _ => Some (JNull, rest)
      | _, Some rest, _ => Some (JBool true, rest)
      | _, _, Some rest => Some (JBool false, rest)
      | _, _, _ => read_number s
      end
  end.

(** ** JSON *)

Definition is_ws (c : Z) : bool := (c =? 32) || (c =? 10) || (c =? 13) || (c =? 9).

Fixpoint skip_ws (s : bytes) : bytes :=
  match s with c :: r => if is_ws c then skip_ws r else s | [] => [] end.

(** One unit of fuel per value, item or member on the way. *)
Fixpoint read_value (fuel : nat) (s : bytes) : option (J * bytes) :=
  match fuel with
  | O => None
  | S fuel =>
      let s := skip_ws s in
      match expect 91 s, expect 123 s with
      | Some r, _ =>
          match expect 93 (skip_ws r) with
          | Some rest => Some (JList [], rest)
          | None => match read_items fuel r with Some (l, rest) => Some (JList l, rest) | None => None end
          end
      | _, Some r =>
          match expect 125 (skip_ws r) with
          | Some rest => Some (JObj [], rest)
          | None => match read_members fuel r with Some (m, rest) => Some (JObj m, rest) | None => None end
          end
      | _, _ => read_scalar s
      end
  end
with read_items (fuel : nat) (s : bytes) : option (list J * bytes) :=
  match fuel with
  | O => None
  | S fuel =>
      match read_value fuel s with
      | Some (x, rest) =>
          match expect 93 (skip_ws rest), expect 44 (skip_ws rest) with
          | Some rest, _ => Some ([x], rest)
          | _, Some rest => match read_items fuel rest with Some (l, rest) => Some (x :: l, rest) | None => None end
          | _, _ => None
          end
      | None => None
      end
  end
with read_members (fuel : nat) (s : bytes) : option (list (bytes * J) * bytes) :=
  match fuel with
  | O => None
  | S fuel =>
      match read_member fuel s with
      | Some (kx, rest) =>
          match expect 125 (skip_ws rest), expect 44 (skip_ws rest) with
          | Some rest, _ => Some ([kx], rest)
          | _, Some rest => match read_members fuel rest with Some (m, rest) => Some (kx :: m, rest) | None => None end
          | _, _ => None
          end
      | None => None
      end
  end
with read_member (fuel : nat) (s : bytes) : option (bytes * J * bytes) :=
  match fuel with
  | O => None
  | S fuel =>
      match expect 34 (skip_ws s) ≫= read_string with
      | Some (k, r) =>
          match expect 58 (skip_ws r) ≫= read_value fuel with
          | Some (x, rest) => Some (k, x, rest)
          | None => None
          end
      | None => None
      end
  end.

(** A whole document: one value, white space around it. *)
Definition read_json (fuel : nat) (s : bytes) : option J :=
  match read_value fuel s with
  | Some (x, rest) => match skip_ws rest with [] => Some x | _ => None end
  | None => None
  end.

(** ** YAML, the block subset *)

Definition spaces (n : nat) : bytes := replicate n 32.

Definition read_inline (s : bytes) : option (J * bytes) :=
  match strip_prefix [91; 93] s, strip_prefix [123; 125] s with
  | Some rest, _ => Some (JList [], rest)
  | _, Some rest => Some (JObj [], rest)
  | _, _ => read_scalar s
  end.

Definition end_of_line {A} (o : option (A * bytes)) : option (A * bytes) :=
  match o with
  | Some (x, rest) => match expect 10 rest with Some rest => Some (x, rest) | None => None end
  | None => None
  end.

(** A line of a block at [indent] that opens with [c]. *)
Definition marker (indent : nat) (c : Z) (s : bytes) : option bytes := strip_prefix (spaces indent ++ [c]) s.

(** What follows a marker at [indent]; the entries of a block at [indent]. *)
Fixpoint read_child (fuel indent : nat) (s : bytes) : option (J * bytes) :=
  match fuel with
  | O => None
  | S fuel =>
      match expect 32 s, expect 10 s with
      | Some r, _ => end_of_line (read_inline r)
      | _, Some r => read_block fuel (indent + 2) r
      | _, _ => None
      end
  end
with read_block (fuel indent : nat) (s : bytes) : option (J * bytes) :=
  match fuel with
  | O => None
  | S fuel =>
      match marker indent 45 s, marker indent 34 s with
      | Some _, _ => match read_list fuel indent s with Some (l, rest) => Some (JList l, rest) | None => None end
      | _, Some _ => match read_object fuel indent s with Some (m, rest) => Some (JObj m, rest) | None => None end
      | _, _ => None
      end
  end
with read_list (fuel indent : nat) (s : bytes) : option (list J * bytes) :=
  match fuel with
  | O => None
  | S fuel =>
      match marker indent 45 s with
      | Some r =>
          match read_child fuel indent r with
          | Some (x, rest) => match read_list fuel indent rest with Some (l, rest) => Some (x :: l, rest) | None => None end
          | None => None
          end
      | None => Some ([], s)
      end
  end
with read_object (fuel indent : nat) (s : bytes) : option (list (bytes * J) * bytes) :=
  match fuel with
  | O => None
  | S fuel =>
      match marker indent 34 s ≫= read_string with
      | Some (k, r) =>
          match expect 58 r ≫= read_child fuel indent with
          | Some (x, rest) =>
              match read_object fuel indent rest with Some (m, rest) => Some ((k, x) :: m, rest) | None => None end
          | None => None
          end
      | None => Some ([], s)
      end
  end.

(** A document is a block at the left margin, or one inline value: a line that opens
    with [- ] (or a lone [-]) is an item, one that opens with a string and a colon a
    member. *)
Definition opens_block (s : bytes) : bool :=
  match expect 45 s with
  | Some r => bool_decide (is_Some (expect 32 r) ∨ is_Some (expect 10 r))
  | None =>
      match expect 34 s ≫= read_string with
      | Some (_, r) => bool_decide (is_Some (expect 58 r))
      | None => false
      end
  end.

Definition read_yaml (fuel : nat) (s : bytes) : option J :=
  match (if opens_block s then read_block fuel 0 s else end_of_line (read_inline s)) with
  | Some (x, []) => Some x
  | _ => None
  end.

(** ** A decimal number of seconds, in nanoseconds *)

(** The value of a run of digits. *)
Definition dec_value (s : bytes) : Z := fold_left (λ a c, a * 10 + (c - 48)) s 0.

Definition read_seconds (s : bytes) : Z :=
  let '(sign, s) := match expect 45 s with Some r => (-1, r) | None => (1, s) end in
  let '(whole, rest) := span is_digit s in
  let fraction := match expect 46 rest with Some f => f | None => [] end in
  sign * (dec_value whole * 10 ^ 9 + dec_value fraction * 10 ^ (9 - blen fraction)).

(** ** Base64 *)

Definition sextet_of (c : Z) : option Z :=
  if in_range 65 90 c then Some (c - 65) else if in_range 97 122 c then Some (c - 71)
  else if is_digit c then Some (c + 4) else if c =? 43 then Some 62 else if c =? 47 then Some 63 else None.

Fixpoint base64_decode (s : bytes) : option bytes :=
  match s with
  | [] => Some []
  | a :: b :: c :: d :: rest =>
      match sextet_of a, sextet_of b with
      | Some x, Some y =>
          if c =? 61 then if (d =? 61) && bool_decide (rest = []) then Some [x * 4 + y / 16] else None
          else
            match sextet_of c with
            | Some z =>
                if d =? 61 then
                  if bool_decide (rest = []) then Some [x * 4 + y / 16; y mod 16 * 16 + z / 4] else None
                else
                  match sextet_of d, base64_decode rest with
                  | Some w, Some out => Some ([x * 4 + y / 16; y mod 16 * 16 + z / 4; z mod 4 * 64 + w] ++ out)
                  | _, _ => None
                  end
            | None => None
            end
      | _, _ => None
      end
  | _ => None
  end.

Ltac app_norm := repeat first [progress cbn [app] | rewrite <- app_assoc]; reflexivity.

(** ** Lexical lemmas *)

Lemma strip_prefix_app p s : strip_prefix p (p ++ s) = Some s.
Proof. induction p as [|c p IH]; cbn; [done|]. by rewrite Z.eqb_refl. Qed.

Lemma expect_cons c s : expect c (c :: s) = Some s.
Proof. apply (strip_prefix_app [c]). Qed.

Lemma expect_ne c d s : d ≠ c → expect c (d :: s) = None.
Proof. intros Hd. cbn. by rewrite (proj2 (Z.eqb_neq d c)). Qed.

Lemma span_app p a rest :
  Forall (λ c, p c = true) a → match rest with [] => True | c :: _ => p c = false end →
  span p (a ++ rest) = (a, rest).
Proof.
  intros Ha Hr. induction Ha as [|c a Hc _ IH]; cbn [app span].
  - destruct rest as [|c r]; [done|]. cbn [span]. by rewrite Hr.
  - by rewrite Hc, IH.
Qed.

Lemma span_inv p s a b : span p s = (a, b) → s = a ++ b ∧ Forall (λ c, p c = true) a.
Proof.
  revert a b. induction s as [|c s IH]; cbn [span]; intros a b; [by intros [= <- <-]|].
  destruct (p c) eqn:Hc; [|by intros [= <- <-]]. destruct (span p s) as [a' b']. intros [= <- <-].
  destruct (IH a' b' eq_refl) as [-> Ha]. split; [done|by constructor].
Qed.

Lemma skip_ws_app w s : Forall (λ c, is_ws c = true) w → skip_ws (w ++ s) = skip_ws s.
Proof. induction 1 as [|c w Hc _ IH]; cbn [app skip_ws]; [done|]. by rewrite Hc. Qed.

Lemma skip_ws_stop c s : is_ws c = false → skip_ws (c :: s) = c :: s.
Proof. intros Hc. cbn. by rewrite Hc. Qed.

(** *** Numbers *)

Notation numeric := (Forall (λ c, is_numchar c = true)).

Lemma digit_numchar c : is_digit c = true → is_numchar c = true.
Proof. unfold is_numchar. by intros ->. Qed.

Lemma digits1_numeric s rest : digits1 s = Some rest → numeric rest → numeric s.
Proof.
  unfold digits1. destruct (span is_digit s) as [a b] eqn:E. apply span_inv in E as [-> Ha].
  destruct a; [done|]. intros [= <-] Hr. apply Forall_app. split; [|done].
  eapply Forall_impl; [exact Ha|]. apply digit_numchar.
Qed.

Lemma exponent_numeric s : exponent_part s = true → numeric s.
Proof.
  destruct s as [|c r]; [done|]. cbn [exponent_part]. destruct ((c =? 101) || (c =? 69)) eqn:E; [|done].
  intros Hd. constructor. { unfold is_numchar. apply orb_true_iff in E as [->%Z.eqb_eq| ->%Z.eqb_eq]; done. }
  destruct r as [|c' r']; [done|]. destruct ((c' =? 43) || (c' =? 45)) eqn:E'.
  - constructor. { unfold is_numchar. apply orb_true_iff in E' as [->%Z.eqb_eq| ->%Z.eqb_eq]; done. }
    destruct (digits1 r') as [[|]|] eqn:Hr; try done. by eapply digits1_numeric.
  - destruct (digits1 (c' :: r')) as [[|]|] eqn:Hr; try done. by eapply digits1_numeric.
Qed.

Lemma fraction_numeric s : fraction_part s = true → numeric s.
Proof.
  destruct s as [|c r]; [done|]. cbn [fraction_part]. destruct (Z.eqb_spec c 46) as [->|]; [|apply exponent_numeric].
  destruct (digits1 r) as [rest|] eqn:E; [|done]. intros Hr%exponent_numeric. constructor; [done|]. by eapply digits1_numeric.
Qed.

(** A number starts with a sign or a digit and is made of number characters. *)
Lemma json_number_chars s : json_number s = true →
  numeric s ∧ ∃ c r, s = c :: r ∧ (c = 45 ∨ is_digit c = true).
Proof.
  unfold json_number. intros Hn.
  assert (∀ r, unsigned_number r = true → numeric r ∧ ∃ c r', r = c :: r' ∧ is_digit c = true) as Hd.
  { intros r. unfold unsigned_number. destruct (span is_digit r) as [[|d ds] rest] eqn:E; [done|]. apply span_inv in E as [-> Ha].
    intros [_ Hf%fraction_numeric]%andb_true_iff. split.
    - apply Forall_app. split; [|done]. eapply Forall_impl; [exact Ha|]. apply digit_numchar.
    - inversion Ha; subst. by eexists _, _. }
  destruct s as [|c r]; [done|]. destruct (Z.eqb_spec c 45) as [->|].
  - destruct (Hd _ Hn) as [Hr _]. split; [by constructor|]. eexists _, _. split; [done|by left].
  - destruct (Hd _ Hn) as [Hr (c' & r' & E & Hc)]. split; [done|]. eexists _, _. split; [exact E|by right].
Qed.

(** What follows a scalar: not a number character. *)
Definition delim (rest : bytes) : Prop := match rest with [] => True | c :: _ => is_numchar c = false end.

Lemma read_number_text t rest : json_number t = true → delim rest → read_number (t ++ rest) = Some (JNum t, rest).
Proof.
  intros Hn Hr. destruct (json_number_chars t Hn) as [Hc _]. unfold read_number. rewrite span_app by done. by rewrite Hn.
Qed.

(** *** Strings *)

Lemma hex_unhex d : 0 ≤ d < 16 → unhex (hex d) = Some d.
Proof.
  intros Hd. unfold hex, unhex, is_digit. destruct (Z.ltb_spec d 10).
  - rewrite in_range_true by lia. f_equal. lia.
  - rewrite in_range_false, in_range_true by lia. f_equal. lia.
Qed.

Lemma read_escape c rest : 0 ≤ c → read_string (escape c ++ rest) = prepend [c] (read_string rest).
Proof.
  intros Hc. unfold escape.
  repeat match goal with |- context[if c =? ?k then _ else _] => destruct (Z.eqb_spec c k) as [->|]; [done|] end.
  destruct (Z.ltb_spec c 32).
  - cbn [app read_string]. change (92 =? 34) with false. change (92 =? 92) with true. change (117 =? 117) with true. cbn iota.
    pose proof (Z.div_mod c 16 ltac:(lia)). pose proof (Z.mod_pos_bound c 16 ltac:(lia)).
    assert (0 ≤ c / 16 < 16) by (split; [apply Z.div_pos; lia|apply Z.div_lt_upper_bound; lia]).
    unfold unhex4. rewrite !hex_unhex by lia. change (unhex 48) with (Some 0). cbn iota. cbv zeta.
    replace (((0 * 16 + 0) * 16 + c / 16) * 16 + c mod 16) with c by lia. rewrite in_range_false by lia.
    unfold show_char. by rewrite (proj2 (Z.ltb_lt c 128)) by lia.
  - cbn [app read_string]. rewrite (proj2 (Z.eqb_neq c 34)), (proj2 (Z.eqb_neq c 92)), (proj2 (Z.ltb_ge c 32)) by lia. done.
Qed.

Lemma read_quoted s rest : bytes_ok s → read_string (concat (map escape s) ++ 34 :: rest) = Some (s, rest).
Proof.
  induction 1 as [|c s Hc _ IH]; [done|]. cbn [map concat]. unfold byte_ok in Hc.
  rewrite <- app_assoc, read_escape, IH by lia. done.
Qed.

Lemma quote_eq out s : quote out s = out ++ 34 :: concat (map escape s) ++ [34].
Proof. done. Qed.

(** *** The numbers the writer makes *)

Lemma show_dec_lead fuel z acc : 0 < z < 10 ^ Z.of_nat fuel → ∃ d ds, show_dec fuel z acc = d :: ds ∧ d ≠ 48.
Proof.
  revert z acc. induction fuel as [|fuel IH]; intros z acc Hz; [change (10 ^ Z.of_nat 0) with 1 in Hz; lia|].
  rewrite Nat2Z.inj_succ, Z.pow_succ_r in Hz by lia. cbn [show_dec].
  destruct (Z.ltb_spec z 10); [by exists (48 + z), acc; split; [|lia]|].
  apply IH. split; [apply Z.div_str_pos; lia|apply Z.div_lt_upper_bound; lia].
Qed.

Lemma digits_span s : Forall (λ b, 48 ≤ b ≤ 57) s → Forall (λ c, is_digit c = true) s.
Proof. intros Hs. eapply Forall_impl; [exact Hs|]. intros c Hc. by apply in_range_true. Qed.

Lemma nat_number z f :
  0 ≤ z < 10 ^ 39 → fraction_part f = true → match f with [] => True | c :: _ => is_digit c = false end →
  unsigned_number (show_nat z ++ f) = true.
Proof.
  intros Hz Hf Hd. unfold unsigned_number. rewrite span_app by first [done | apply digits_span, show_nat_digits; lia].
  destruct (decide (z = 0)) as [->|Hz'].
  - change (show_nat 0) with [48]. by rewrite Hf.
  - destruct (show_dec_lead 39 z []) as (d & ds & E & Hd'); [change (Z.of_nat 39) with 39; lia|]. unfold show_nat. rewrite E.
    by rewrite (proj2 (Z.eqb_neq d 48)), Hf.
Qed.

Lemma json_number_signed (neg : bool) s : unsigned_number s = true → json_number ((if neg then [45] else []) ++ s) = true.
Proof.
  intros Hs. destruct neg; [done|]. unfold json_number. cbn [app].
  destruct s as [|c r]; [done|]. destruct (Z.eqb_spec c 45) as [->|]; [|done]. done.
Qed.

Lemma show_int_number z : Z.abs z < 10 ^ 39 → json_number (show_int z) = true.
Proof.
  intros Hz. unfold show_int. pose proof (nat_number (Z.abs z) []) as Hn. rewrite app_nil_r in Hn.
  destruct (Z.ltb_spec z 0).
  - rewrite <- (Z.abs_neq z) by lia. apply (json_number_signed true), Hn; [lia|done..].
  - rewrite <- (Z.abs_eq z) at 1 by lia. apply (json_number_signed false), Hn; [lia|done..].
Qed.

Lemma dec_value_app a b : dec_value (a ++ b) = dec_value a * 10 ^ blen b + dec_value b.
Proof.
  unfold dec_value. rewrite fold_left_app. generalize (fold_left (λ x c, x * 10 + (c - 48)) a 0). intros n.
  revert n. induction b as [|c b IH] using rev_ind; intros n; [change (10 ^ blen []) with 1; cbn [fold_left]; lia|].
  rewrite !fold_left_app, blen_app, IH. cbn [fold_left]. rewrite Z.pow_add_r by (try apply blen_nonneg; done).
  change (10 ^ blen [c]) with 10. lia.
Qed.

Lemma pad_digits_spec width z acc :
  0 ≤ z < 10 ^ Z.of_nat width →
  ∃ ds, pad_digits width z acc = ds ++ acc ∧ length ds = width ∧ Forall (λ b, 48 ≤ b ≤ 57) ds ∧ dec_value ds = z.
Proof.
  revert z acc. induction width as [|width IH]; intros z acc Hz.
  - exists []. split_and!; [done..|]. change (10 ^ Z.of_nat 0) with 1 in Hz. cbn. lia.
  - rewrite Nat2Z.inj_succ, Z.pow_succ_r in Hz by lia. cbn [pad_digits].
    pose proof (Z.div_mod z 10 ltac:(lia)). pose proof (Z.mod_pos_bound z 10 ltac:(lia)).
    destruct (IH (z / 10) ((48 + z mod 10) :: acc)) as (ds & -> & Hl & Hd & Hv).
    { split; [apply Z.div_pos; lia|apply Z.div_lt_upper_bound; lia]. }
    exists (ds ++ [48 + z mod 10]). rewrite <- app_assoc, length_app, Hl. split_and!; [done|cbn; lia| |].
    + apply Forall_app. split; [done|]. constructor; [lia|done].
    + rewrite dec_value_app, Hv. change (10 ^ blen [48 + z mod 10]) with 10.
      change (dec_value [48 + z mod 10]) with (48 + z mod 10 - 48). lia.
Qed.

Lemma dec_value_show fuel z acc :
  0 ≤ z < 10 ^ Z.of_nat fuel → (0 < fuel)%nat → dec_value (show_dec fuel z acc) = z * 10 ^ blen acc + dec_value acc.
Proof.
  revert z acc. induction fuel as [|fuel IH]; intros z acc Hz Hf; [lia|].
  rewrite Nat2Z.inj_succ, Z.pow_succ_r in Hz by lia. cbn [show_dec].
  assert (∀ d, dec_value ((48 + d) :: acc) = d * 10 ^ blen acc + dec_value acc) as Hd.
  { intros d. change ((48 + d) :: acc) with ([48 + d] ++ acc). rewrite dec_value_app. unfold dec_value at 1. cbn [fold_left]. f_equal. f_equal. lia. }
  destruct (Z.ltb_spec z 10); [apply Hd|]. destruct fuel as [|fuel]; [change (10 ^ Z.of_nat 0) with 1 in Hz; lia|].
  rewrite IH; [|split; [apply Z.div_pos; lia|apply Z.div_lt_upper_bound; lia]|lia].
  rewrite Hd, blen_cons, Z.pow_add_r by (try apply blen_nonneg; done). change (10 ^ 1) with 10.
  pose proof (Z.div_mod z 10 ltac:(lia)). nia.
Qed.

Lemma dec_value_nat z : 0 ≤ z < 10 ^ 39 → dec_value (show_nat z) = z.
Proof. intros Hz. unfold show_nat. rewrite dec_value_show; [change (10 ^ blen []) with 1; cbn; lia|done|lia]. Qed.

Lemma dec_value_zeros k : dec_value (replicate k 48) = 0.
Proof. induction k as [|k IH]; [done|]. by rewrite replicate_S_end, dec_value_app, IH. Qed.

Lemma trim_end_spec c s : ∃ k, s = trim_end_matches c s ++ replicate k c.
Proof.
  induction s as [|b s [k IH]]; [by exists O|]. unfold trim_end_matches in *. cbn [foldr].
  destruct (foldr _ _ s) as [|x t] eqn:E.
  - destruct (Z.eqb_spec b c) as [->|].
    + exists (S k). cbn [replicate app] in *. by rewrite IH at 1.
    + exists k. cbn [app] in *. by rewrite IH at 1.
  - exists k. cbn [app] in *. by rewrite IH at 1.
Qed.

(** ** Base64 *)

Lemma sextet_inv i : sextet_of (sextet i) = Some (i mod 64) ∧ sextet i ≠ 61.
Proof.
  unfold sextet. change 63 with (Z.ones 6). rewrite Z.land_ones by done. change (2 ^ 6) with 64.
  pose proof (Z.mod_pos_bound i 64 ltac:(lia)) as Hi. set (n := i mod 64) in *. clearbody n.
  assert (Forall (λ n, sextet_of (nth (Z.to_nat n) ALPHABET 0) = Some n ∧ nth (Z.to_nat n) ALPHABET 0 ≠ 61) (seqZ 0 64)) as Ha
    by (apply (bool_decide_unpack _); by vm_compute).
  rewrite Forall_forall in Ha. apply Ha, elem_of_seqZ. lia.
Qed.

Lemma lor_shiftl x y n : 0 ≤ n → 0 ≤ y < 2 ^ n → Z.lor (Z.shiftl x n) y = x * 2 ^ n + y.
Proof.
  intros Hn Hy. rewrite Z.shiftl_mul_pow2 by done.
  assert (Z.land (x * 2 ^ n) y = 0) as Hland.
  { apply Z.bits_inj'. intros i Hi. rewrite Z.land_spec, Z.bits_0. destruct (Z.lt_ge_cases i n).
    - by rewrite Z.mul_pow2_bits_low.
    - rewrite <- (Z.mod_small y (2 ^ n)), Z.mod_pow2_bits_high by lia. apply andb_false_r. }
  by rewrite Z.add_nocarry_lxor, Z.lxor_lor.
Qed.

(** Three bytes as four sextets, in terms of the parts of each byte. *)
Lemma base64_triple p q r s t u :
  0 ≤ p < 64 → 0 ≤ q < 4 → 0 ≤ r < 16 → 0 ≤ s < 16 → 0 ≤ t < 4 → 0 ≤ u < 64 →
  let n := Z.lor (Z.lor (Z.shiftl (4 * p + q) 16) (Z.shiftl (16 * r + s) 8)) (64 * t + u) in
  Z.shiftr n 18 mod 64 = p ∧ Z.shiftr n 12 mod 64 = 16 * q + r ∧ Z.shiftr n 6 mod 64 = 4 * s + t ∧ n mod 64 = u.
Proof.
  intros Hp Hq Hr Hs Ht Hu n.
  assert (n = 262144 * p + 4096 * (16 * q + r) + 64 * (4 * s + t) + u) as E.
  { unfold n. change 16 with (8 + 8) at 1. rewrite <- (Z.shiftl_shiftl (4 * p + q) 8 8) by done. rewrite <- Z.shiftl_lor.
    rewrite !lor_shiftl by (change (2 ^ 8) with 256; lia). change (2 ^ 8) with 256. lia. }
  rewrite E, !Z.shiftr_div_pow2 by done. change (2 ^ 18) with 262144. change (2 ^ 12) with 4096. change (2 ^ 6) with 64. split_and!.
  - rewrite <- (Z.div_unique _ 262144 p (4096 * (16 * q + r) + 64 * (4 * s + t) + u)) by lia. by apply Z.mod_small.
  - rewrite <- (Z.div_unique _ 4096 (64 * p + (16 * q + r)) (64 * (4 * s + t) + u)) by lia.
    symmetry. apply Z.mod_unique with (q := p); lia.
  - rewrite <- (Z.div_unique _ 64 (4096 * p + 64 * (16 * q + r) + (4 * s + t)) u) by lia.
    symmetry. apply Z.mod_unique with (q := 64 * p + (16 * q + r)); lia.
  - symmetry. apply Z.mod_unique with (q := 4096 * p + 64 * (16 * q + r) + (4 * s + t)); lia.
Qed.

Lemma byte_parts k b : 0 < k → byte_ok b → b = k * (b / k) + b mod k ∧ 0 ≤ b mod k < k ∧ 0 ≤ b / k ∧ k * (b / k) < 256.
Proof.
  unfold byte_ok. intros Hk Hb. pose proof (Z.div_mod b k ltac:(lia)). pose proof (Z.mod_pos_bound b k Hk).
  pose proof (Z.div_pos b k). lia.
Qed.

Lemma pack_div k x y : 0 ≤ y < k → (k * x + y) / k = x.
Proof. intros Hy. symmetry. by apply Z.div_unique with (r := y); [lia|]. Qed.

Lemma pack_mod k x y : 0 ≤ y < k → (k * x + y) mod k = y.
Proof. intros Hy. symmetry. by apply Z.mod_unique with (q := x); [lia|]. Qed.

Lemma base64_chunk_decode a b c rest : byte_ok a → byte_ok (default 0 b) → byte_ok (default 0 c) →
  (b = None → c = None) → (c = None → rest = []) →
  base64_decode (base64_chunk a b c ++ rest) =
    match b, c with
    | Some b, Some c => (λ out, a :: b :: c :: out) <$> base64_decode rest
    | Some b, None => Some [a; b]
    | None, _ => Some [a]
    end.
Proof.
  intros Ha Hb Hc Hbc Hrest. destruct (byte_parts 4 a) as (Ea & ? & ? & ?); [lia|done|].
  destruct (byte_parts 16 (default 0 b)) as (Eb & ? & ? & ?); [lia|done|].
  destruct (byte_parts 64 (default 0 c)) as (Ec & ? & ? & ?); [lia|done|].
  destruct (base64_triple (a / 4) (a mod 4) (default 0 b / 16) (default 0 b mod 16) (default 0 c / 64) (default 0 c mod 64))
    as (T1 & T2 & T3 & T4); [lia..|]. rewrite <- Ea, <- Eb, <- Ec in T1, T2, T3, T4.
  unfold base64_chunk. cbv zeta. set (n := Z.lor _ _) in *.
  destruct (sextet_inv (Z.shiftr n 18)) as [E1 _], (sextet_inv (Z.shiftr n 12)) as [E2 _],
    (sextet_inv (Z.shiftr n 6)) as [E3 N3], (sextet_inv n) as [E4 N4]. rewrite T1 in E1. rewrite T2 in E2. rewrite T3 in E3. rewrite T4 in E4.
  cbn [app base64_decode]. rewrite E1, E2.
  assert (a / 4 * 4 + (16 * (a mod 4) + default 0 b / 16) / 16 = a) as ->.
  { rewrite pack_div by lia. lia. }
  destruct b as [b|].
  2:{ rewrite Hbc by done. rewrite Hrest by auto. done. }
  change (default 0 (Some b)) with b in *. rewrite (proj2 (Z.eqb_neq _ _) N3), E3.
  assert ((16 * (a mod 4) + b / 16) mod 16 * 16 + (4 * (b mod 16) + default 0 c / 64) / 4 = b) as ->.
  { rewrite pack_mod, pack_div by lia. lia. }
  destruct c as [c|].
  2:{ rewrite Hrest by done. done. }
  change (default 0 (Some c)) with c in *. rewrite (proj2 (Z.eqb_neq _ _) N4), E4.
  assert ((4 * (b mod 16) + c / 64) mod 4 * 64 + c mod 64 = c) as ->.
  { rewrite pack_mod by lia. lia. }
  by destruct (base64_decode rest).
Qed.

Lemma base64_roundtrip s : bytes_ok s → base64_decode (base64_encode s) = Some s.
Proof.
  assert (byte_ok 0) as Hz by done.
  remember (length s) as n eqn:Hn. assert (length s ≤ n)%nat as Hl by lia. clear Hn.
  revert s Hl. induction n as [|n IH]; intros [|a [|b [|c s]]] Hl Hs; cbn [base64_encode length] in *; try done; try lia;
    unfold bytes_ok in Hs; repeat match goal with Hs : Forall byte_ok (_ :: _) |- _ => apply Forall_cons in Hs as [? Hs] end.
  - rewrite <- (app_nil_r (base64_chunk a None None)). by rewrite base64_chunk_decode by done.
  - rewrite <- (app_nil_r (base64_chunk a (Some b) None)). by rewrite base64_chunk_decode by done.
  - rewrite base64_chunk_decode by done. by rewrite IH by (done || lia).
Qed.

(** ** The view of a document, and its scalars *)

Section export_spec.
Context `{Ext}.
Context `{!TextForms}.

(** The number texts that come from elsewhere are JSON numbers. *)
Class NumberLaws : Prop := {
  f32_number b : f32_is_finite b = true → json_number (f32_to_string b) = true;
  f64_number b : f64_is_finite b = true → json_number (f64_to_string b) = true;
  bigint_number z : json_number (bigint_to_string z) = true;
  bigfloat_number v :
    is_nan v = false → is_inf_pos v = false → is_inf_neg v = false → json_number (bigfloat_to_string v) = true
}.

Definition scalar_text (s : Scalar) : bytes := write_scalar [] s.

Definition scalar_view (s : Scalar) : J :=
  match s with
  | Null => JNull
  | Bool b => JBool b
  | I8 v | I16 v | I32 v | I64 v | I128 v | U8 v | U16 v | U32 v | U64 v | U128 v => JNum (show_int v)
  | F32 v => if f32_is_finite v then JNum (f32_to_string v) else JNull
  | F64 v => if f64_is_finite v then JNum (f64_to_string v) else JNull
  | Str v => JStr v
  | Bytes v => JStr (base64_encode v)
  | Uuid v => JStr (uuid_to_string v)
  | Date v => JStr (date_to_string v)
  | Time v => JStr (time_to_string v)
  | DateTime v => JStr (datetime_to_rfc3339 v)
  | Duration v => JNum (duration_seconds v)
  | BigInt v => JNum (bigint_to_string v)
  | BigFloatS v => if is_nan v || is_inf_pos v || is_inf_neg v then JNull else JNum (bigfloat_to_string v)
  | Rational v => JStr (bigint_to_string (numer v) ++ [47] ++ bigint_to_string (denom v))
  end.

Fixpoint view (v : Value) : J :=
  match v with
  | Leaf s => scalar_view s
  | List l => JList (map view l)
  | Node m => JObj (map (λ kv, (kv.1, view kv.2)) m)
  end.

Lemma write_scalar_app out s : write_scalar out s = out ++ scalar_text s.
Proof.
  unfold scalar_text. destruct s; cbn [write_scalar]; unfold write_big_float, number, quote;
    repeat case_match; cbn [app]; by rewrite ?app_nil_r.
Qed.

(** A text that reads as a scalar, whatever follows it. *)
Definition opens_scalar (c : Z) : Prop :=
  c = 34 ∨ c = 110 ∨ c = 116 ∨ c = 102 ∨ c = 45 ∨ is_digit c = true.

Definition reads_as (t : bytes) (j : J) : Prop :=
  (∀ rest, delim rest → read_scalar (t ++ rest) = Some (j, rest)) ∧ opens_block (t ++ [10]) = false ∧
  ∃ c r, t = c :: r ∧ opens_scalar c.

Lemma number_reads t : json_number t = true → reads_as t (JNum t).
Proof.
  intros Hn. destruct (json_number_chars t Hn) as [_ (c & r & E & Hc)]. split.
  - intros rest Hr. pose proof (read_number_text t rest Hn Hr) as Hread. unfold read_scalar, expect, null_text, show_bool.
    rewrite E in *. assert (c ≠ 34 ∧ c ≠ 110 ∧ c ≠ 116 ∧ c ≠ 102) as (H1 & H2 & H3 & H4).
    { unfold is_digit in Hc. destruct Hc as [->|Hc%in_range_spec]; lia. }
    cbn [app strip_prefix] in *.
    rewrite (proj2 (Z.eqb_neq c 34)), (proj2 (Z.eqb_neq c 110)), (proj2 (Z.eqb_neq c 116)), (proj2 (Z.eqb_neq c 102)) by done.
    exact Hread.
  - split; [|exists c, r; split; [done|]; unfold opens_scalar; tauto]. unfold opens_block. rewrite E in *. cbn [app].
    destruct Hc as [->|Hc].
    + rewrite expect_cons. unfold json_number in Hn. change (45 =? 45) with true in Hn. cbn iota in Hn.
      apply bool_decide_eq_false. destruct r as [|d r]; [done|]. unfold unsigned_number in Hn. cbn [span] in Hn.
      destruct (is_digit d) eqn:Hd; [|done]. unfold is_digit in Hd. apply in_range_spec in Hd. cbn [app].
      rewrite !expect_ne by lia. intros [[]|[]]; done.
    + unfold is_digit in Hc. apply in_range_spec in Hc. rewrite !expect_ne by lia. done.
Qed.

Lemma string_reads s : bytes_ok s → reads_as (quote [] s) (JStr s).
Proof.
  intros Hs. rewrite quote_eq. split.
  - intros rest _. unfold read_scalar. cbn [app]. rewrite expect_cons, <- app_assoc. cbn [app]. by rewrite read_quoted.
  - split; [|eexists _, _; split; [done|by left]]. unfold opens_block. cbn [app]. rewrite expect_ne, expect_cons by done.
    cbn [mbind option_bind]. rewrite <- app_assoc. cbn [app]. rewrite read_quoted by done.
    apply bool_decide_eq_false. rewrite expect_ne by done. by intros [].
Qed.

Lemma literal_reads t j : (t, j) ∈ [(null_text, JNull); (show_bool true, JBool true); (show_bool false, JBool false)] → reads_as t j.
Proof.
  rewrite !elem_of_cons, elem_of_nil. intros [[= -> ->]|[[= -> ->]|[[= -> ->]|[]]]];
    (split; [done|]; split; [done|]; eexists _, _; split; [done|]; unfold opens_scalar; tauto).
Qed.

Lemma sextet_ascii i : 43 ≤ sextet i ≤ 122.
Proof.
  unfold sextet. assert (Forall (λ c, 43 ≤ c ≤ 122) ALPHABET) as Ha by (apply (bool_decide_unpack _); by vm_compute).
  assert (0 ≤ Z.land i 63 < 64) as Hi.
  { change 63 with (Z.ones 6). rewrite Z.land_ones by done. by apply Z.mod_pos_bound. }
  rewrite Forall_forall in Ha. apply Ha, list_elem_of_In, nth_In. change (length ALPHABET) with 64%nat. lia.
Qed.

Lemma base64_bytes_ok s : bytes_ok (base64_encode s).
Proof.
  assert (∀ a b c, bytes_ok (base64_chunk a b c)) as Hc.
  { intros a b c. assert (∀ i, byte_ok (sextet i)) as Hx by (intros i; unfold byte_ok; pose proof (sextet_ascii i); lia).
    unfold base64_chunk. repeat constructor; destruct b, c; done || by apply Hx. }
  remember (length s) as n eqn:Hn. assert (length s ≤ n)%nat as Hl by lia. clear Hn.
  revert s Hl. induction n as [|n IH]; intros [|a [|b [|c s]]] Hl; cbn [base64_encode length] in *;
    try (by constructor); try (by apply Hc); try lia.
  apply Forall_app. split; [by apply Hc|]. apply IH. lia.
Qed.

Context `{!TextLaws, !NumberLaws}.

Lemma int_reads ty z : int_ok ty z → reads_as (show_int z) (JNum (show_int z)).
Proof. intros Hz. by eapply number_reads, show_int_number, int_ok_abs. Qed.

Lemma duration_number `{!ExtLaws} d : json_number (duration_seconds d) = true.
Proof.
  destruct (td_bound d) as [Hs Hn]. unfold TD_MAX_SECS in Hs. unfold duration_seconds.
  destruct (Z.eqb_spec (td_subsec_nanos d) 0) as [|Hz]; [apply show_int_number; lia|].
  apply json_number_signed, nat_number; [lia| |done].
  destruct (pad_digits_spec 9 (Z.abs (td_subsec_nanos d)) []) as (ds & -> & _ & Hd & Hv); [lia|]. rewrite app_nil_r.
  destruct (trim_end_spec 48 ds) as [k Hk]. cbn [app fraction_part]. change (46 =? 46) with true. cbn iota. unfold digits1.
  pose proof (span_app is_digit (trim_end_matches 48 ds) []) as Hspan. rewrite app_nil_r in Hspan. rewrite Hspan; [|..|done].
  - destruct (trim_end_matches 48 ds); [|done]. exfalso. cbn [app] in Hk. rewrite Hk in Hv.
    rewrite dec_value_zeros in Hv. lia.
  - apply digits_span. rewrite Hk in Hd. by apply Forall_app in Hd as [Hd _].
Qed.

(** A duration is written exactly. *)
Lemma duration_exact `{!ExtLaws} d : read_seconds (duration_seconds d) = td_num_seconds d * 10 ^ 9 + td_subsec_nanos d.
Proof.
  destruct (td_bound d) as [Hs Hn]. pose proof (td_sign d) as Hsign. unfold TD_MAX_SECS in Hs.
  set (secs := td_num_seconds d) in *. set (nanos := td_subsec_nanos d) in *.
  assert (∀ sign z f n, 0 ≤ z < 10 ^ 39 → (f = [] ∧ n = 0 ∨ ∃ g, f = 46 :: g ∧ dec_value g * 10 ^ (9 - blen g) = n) →
    (let '(whole, rest) := span is_digit (show_nat z ++ f) in
     let fraction := match expect 46 rest with Some f => f | None => [] end in
     sign * (dec_value whole * 10 ^ 9 + dec_value fraction * 10 ^ (9 - blen fraction))) = sign * (z * 10 ^ 9 + n)) as Hread.
  { intros sign z f n Hz Hf. rewrite span_app; [|apply digits_span, show_nat_digits; lia|destruct Hf as [[-> _]|(g & -> & _)]; done].
    rewrite dec_value_nat by done. destruct Hf as [[-> ->]|(g & -> & <-)]; [done|]. by rewrite expect_cons. }
  assert (∀ z f, 0 ≤ z → expect 45 (show_nat z ++ f) = None) as Hplus.
  { intros z f Hz. pose proof (show_nat_digits z Hz) as Hd. destruct (show_nat z) as [|b r] eqn:E; [by apply show_dec_ne in E; [|lia]|].
    inversion Hd; subst. apply expect_ne. lia. }
  unfold duration_seconds, read_seconds. fold secs nanos. destruct (Z.eqb_spec nanos 0) as [Hz|Hz].
  - unfold show_int. destruct (Z.ltb_spec secs 0).
    + rewrite expect_cons, <- (app_nil_r (show_nat _)), (Hread _ _ _ 0) by (lia || by left). lia.
    + rewrite <- (app_nil_r (show_nat secs)), Hplus, (Hread _ _ _ 0) by (lia || by left). lia.
  - destruct (pad_digits_spec 9 (Z.abs nanos) []) as (ds & -> & Hl & _ & Hv); [lia|]. rewrite app_nil_r.
    destruct (trim_end_spec 48 ds) as [k Hk]. set (g := trim_end_matches 48 ds) in *.
    assert (dec_value g * 10 ^ (9 - blen g) = Z.abs nanos) as Hg.
    { rewrite Hk, dec_value_app, dec_value_zeros in Hv. assert (9 - blen g = blen (replicate k 48)) as ->; [|lia].
      apply (f_equal length) in Hk. rewrite length_app in Hk. unfold blen. lia. }
    destruct (Z.ltb_spec secs 0), (Z.ltb_spec nanos 0); cbn [orb app];
      rewrite ?expect_cons, ?Hplus, (Hread _ _ _ (Z.abs nanos)) by (lia || (right; by exists g)); lia.
Qed.

Lemma scalar_text_reads `{!ExtLaws} s : scalar_ok s → reads_as (scalar_text s) (scalar_view s).
Proof.
  assert (reads_as null_text JNull) as Hnull by (apply literal_reads; left).
  intros Hok. destruct s; cbn [scalar_text write_scalar scalar_view scalar_ok] in *; unfold scalar_text, number; cbn [write_scalar app]; unfold number; cbn [app].
  - done.
  - destruct v; apply literal_reads; [right; left|right; right; left].
  - by apply (int_reads Ti8).
  - by apply (int_reads Ti16).
  - by apply (int_reads Ti32).
  - by apply (int_reads Ti64).
  - by apply (int_reads Ti128).
  - by apply (int_reads Tu8).
  - by apply (int_reads Tu16).
  - by apply (int_reads Tu32).
  - by apply (int_reads Tu64).
  - by apply (int_reads Tu128).
  - destruct (f32_is_finite bits) eqn:E; [by apply number_reads, f32_number|done].
  - destruct (f64_is_finite bits) eqn:E; [by apply number_reads, f64_number|done].
  - destruct Hok as (_ & Hb & _). by apply string_reads.
  - apply string_reads, base64_bytes_ok.
  - apply string_reads, uuid_text.
  - apply string_reads, date_text.
  - apply string_reads, time_text.
  - apply string_reads, datetime_text.
  - apply number_reads, duration_number.
  - apply number_reads, bigint_number.
  - unfold write_big_float. destruct (is_nan v) eqn:E1; [done|]. destruct (is_inf_pos v) eqn:E2; [done|].
    destruct (is_inf_neg v) eqn:E3; [done|]. by apply number_reads, bigfloat_number.
  - apply string_reads, Forall_app. split; [apply bigint_text|]. constructor; [unfold byte_ok; lia|apply bigint_text].
Qed.

(** ** JSON: both layouts are the grammar's *)

Notation blank := (Forall (λ c, is_ws c = true)).

(** The items of a container, white space around each, up to [close]. *)
Definition lay_items {A} (item : A → bytes → Prop) (close : Z) :=
  fix go (l : list A) (t : bytes) : Prop :=
    match l with
    | [] => False
    | x :: l =>
        ∃ w u w' rest, blank w ∧ item x u ∧ blank w' ∧ t = w ++ u ++ w' ++ rest ∧
          match l with [] => rest = [close] | _ => ∃ ts, rest = 44 :: ts ∧ go l ts end
    end.

Fixpoint layout (v : Value) (t : bytes) : Prop :=
  match v with
  | Leaf s => t = scalar_text s
  | List [] => ∃ w, blank w ∧ t = 91 :: w ++ [93]
  | List l => ∃ u, t = 91 :: u ∧ lay_items layout 93 l u
  | Node [] => ∃ w, blank w ∧ t = 123 :: w ++ [125]
  | Node m => ∃ u, t = 123 :: u ∧
      lay_items (λ kv t, ∃ w w' u, blank w ∧ blank w' ∧ t = quote [] kv.1 ++ w ++ 58 :: w' ++ u ∧ layout kv.2 u) 125 m u
  end.

(** A writer that appends a text of the layout, after some white space of its own. *)
Definition lays {A} (item : A → bytes → Prop) (w : bytes) (x : A) (write : bytes → bytes) : Prop :=
  ∃ t, item x t ∧ ∀ out, write out = out ++ w ++ t.

Lemma separated_lays {A} (item : A → bytes → Prop) close sep w (write : A → bytes → bytes) x l :
  blank sep → blank w → Forall (λ x, lays item w x (write x)) (x :: l) →
  ∃ body, (∀ i out, separated (44 :: sep) write i (x :: l) out = out ++ match i with O => [] | _ => 44 :: sep end ++ body) ∧
    ∀ w0 w1, blank w0 → blank w1 → lay_items item close (x :: l) (w0 ++ body ++ w1 ++ [close]).
Proof.
  intros Hsep Hw. revert x. induction l as [|y l IH]; intros x [(t & Ht & Hx) Hl]%Forall_cons.
  - exists (w ++ t). split.
    + intros [|i] out; cbn [separated app]; rewrite Hx; by rewrite ?app_nil_r, <- ?app_assoc.
    + intros w0 w1 H0' H1'. cbn [lay_items]. exists (w0 ++ w), t, w1, [close]. split_and!; [by apply Forall_app|done..| |done].
      by rewrite <- !app_assoc.
  - destruct (IH y Hl) as (body & Hbody & Hlay). exists (w ++ t ++ 44 :: sep ++ body). split.
    + intros i out. specialize (Hbody (S i)). cbn [separated] in Hbody |- *. rewrite Hx, Hbody. destruct i; cbn [app]; by rewrite <- ?app_assoc.
    + intros w0 w1 H0' H1'. change (lay_items item close (x :: y :: l) ?t) with
        (∃ w u w' rest, blank w ∧ item x u ∧ blank w' ∧ t = w ++ u ++ w' ++ rest ∧ ∃ ts, rest = 44 :: ts ∧ lay_items item close (y :: l) ts).
      exists (w0 ++ w), t, [], (44 :: sep ++ body ++ w1 ++ [close]). split_and!; [by apply Forall_app|done|done| |].
      * rewrite <- !app_assoc. cbn [app]. by rewrite <- !app_assoc.
      * eexists. split; [done|]. by apply Hlay.
Qed.

Lemma blank_spaces n : blank (replicate n 32).
Proof. apply Forall_replicate. done. Qed.

Lemma compact_lays v : lays layout [] v (compact v).
Proof.
  induction v as [s|l IH|m IH] using Value_ind; unfold lays; cbn [compact layout app].
  - exists (scalar_text s). split; [done|]. intros out. apply write_scalar_app.
  - destruct l as [|x l].
    + exists [91; 93]. split; [by exists []|]. intros out. cbn [separated]. by rewrite <- app_assoc.
    + destruct (separated_lays layout 93 [] [] compact x l) as (body & Hb & Hl); [done|done|done|].
      exists (91 :: body ++ [93]). split; [|intros out; rewrite Hb, <- !app_assoc; done].
      eexists. split; [done|]. by apply (Hl [] []).
  - destruct m as [|x m].
    + exists [123; 125]. split; [by exists []|]. intros out. cbn [separated]. by rewrite <- app_assoc.
    + destruct (separated_lays (λ kv t, ∃ w w' u, blank w ∧ blank w' ∧ t = quote [] kv.1 ++ w ++ 58 :: w' ++ u ∧ layout kv.2 u)
        125 [] [] (λ kv out, compact kv.2 (quote out kv.1 ++ [58])) x m) as (body & Hb & Hl); [done|done| |].
      { eapply Forall_impl; [exact IH|]. intros kv (t & Ht & Hw). exists (quote [] kv.1 ++ 58 :: t). split.
        - exists [], [], t. by split_and!.
        - intros out. rewrite Hw. unfold quote. app_norm. }
      exists (123 :: body ++ [125]). split; [|intros out; rewrite Hb, <- !app_assoc; done].
      eexists. split; [done|]. by apply (Hl [] []).
Qed.

Lemma pretty_lays step v : ∀ depth, lays layout [] v (pretty v step depth).
Proof.
  induction v as [s|l IH|m IH] using Value_ind; intros depth; unfold lays; cbn [pretty layout app].
  - exists (scalar_text s). split; [done|]. intros out. apply write_scalar_app.
  - destruct l as [|x l]; [exists [91; 93]; split; [by exists []|done]|].
    destruct (separated_lays layout 93 [10] (spaces (step * S depth))
      (λ item out, pretty item step (S depth) (pad out (step * S depth))) x l) as (body & Hb & Hl);
      [by constructor|apply blank_spaces| |].
    { eapply Forall_impl; [exact IH|]. intros y Hy. destruct (Hy (S depth)) as (t & Ht & Hw). exists t. split; [done|].
      intros out. rewrite Hw. unfold pad. app_norm. }
    exists (91 :: [10] ++ body ++ (10 :: spaces (step * depth)) ++ [93]). split.
    + eexists. split; [done|]. apply Hl; [by constructor|constructor; [done|apply blank_spaces]].
    + intros out. rewrite Hb. unfold pad, spaces. app_norm.
  - destruct m as [|x m]; [exists [123; 125]; split; [by exists []|done]|].
    destruct (separated_lays (λ kv t, ∃ w w' u, blank w ∧ blank w' ∧ t = quote [] kv.1 ++ w ++ 58 :: w' ++ u ∧ layout kv.2 u)
      125 [10] (spaces (step * S depth))
      (λ kv out, pretty kv.2 step (S depth) (quote (pad out (step * S depth)) kv.1 ++ [58; 32])) x m) as (body & Hb & Hl);
      [by constructor|apply blank_spaces| |].
    { eapply Forall_impl; [exact IH|]. intros kv Hy. destruct (Hy (S depth)) as (t & Ht & Hw). exists (quote [] kv.1 ++ 58 :: 32 :: t). split.
      - exists [], [32], t. split_and!; [done|by constructor|done|done].
      - intros out. rewrite Hw. unfold quote, pad, spaces. app_norm. }
    exists (123 :: [10] ++ body ++ (10 :: spaces (step * depth)) ++ [125]). split.
    + eexists. split; [done|]. apply Hl; [by constructor|constructor; [done|apply blank_spaces]].
    + intros out. rewrite Hb. unfold pad, spaces. app_norm.
Qed.

(** ** JSON: the layout reads back *)

Definition total {A} (f : A → nat) := fix go (l : list A) : nat := match l with [] => O | x :: l => f x + go l end%nat.

(** Steps of the reader: one per value, two more per item. *)
Fixpoint size (v : Value) : nat :=
  match v with
  | Leaf _ => 1
  | List l => S (total (λ x, S (size x)) l)
  | Node m => S (total (λ kv, S (S (size kv.2))) m)
  end.

Definition starts (t : bytes) : Prop := ∃ c r, t = c :: r ∧ is_ws c = false ∧ c ≠ 93 ∧ c ≠ 125.

Lemma scalar_starts c : opens_scalar c → is_ws c = false ∧ c ≠ 91 ∧ c ≠ 93 ∧ c ≠ 123 ∧ c ≠ 125.
Proof.
  intros Hc. assert (c = 34 ∨ 45 ≤ c ≤ 57 ∨ c = 110 ∨ c = 116 ∨ c = 102) as Hc'.
  { unfold opens_scalar, is_digit in Hc. destruct Hc as [?|[?|[?|[?|[?|Hd%in_range_spec]]]]]; lia. }
  split; [|lia]. unfold is_ws. rewrite !orb_false_iff, !Z.eqb_neq. lia.
Qed.

Lemma layout_starts `{!ExtLaws} v t : value_ok v → layout v t → starts t.
Proof.
  intros Hok Hl. destruct v as [s|[|x l]|[|x m]]; cbn [layout] in Hl.
  - destruct (scalar_text_reads s Hok) as (_ & _ & c & r & E & Hc). apply scalar_starts in Hc as (? & ? & ? & ? & ?).
    exists c, r. by rewrite Hl.
  - destruct Hl as (w & _ & ->). by eexists _, _.
  - destruct Hl as (u & -> & _). by eexists _, _.
  - destruct Hl as (w & _ & ->). by eexists _, _.
  - destruct Hl as (u & -> & _). by eexists _, _.
Qed.

Lemma starts_open close w t rest : close = 93 ∨ close = 125 → blank w → starts t → expect close (skip_ws (w ++ t ++ rest)) = None.
Proof.
  intros Hcl Hw (c & r & -> & Hws & H93 & H125). rewrite skip_ws_app by done. cbn [app]. rewrite skip_ws_stop by done.
  apply expect_ne. destruct Hcl; congruence.
Qed.

Lemma delim_blank w c rest : blank w → is_numchar c = false → delim (w ++ c :: rest).
Proof.
  intros Hw Hc. destruct Hw as [|b w Hb _]; [done|]. cbn. unfold is_ws in Hb. unfold is_numchar, is_digit.
  rewrite !orb_true_iff, !Z.eqb_eq in Hb. destruct Hb as [[[->| ->]| ->]| ->]; done.
Qed.

(** A container's items, each read by [read]. *)
Definition reads_json (v : Value) : Prop := ∀ t, layout v t → ∀ fuel w rest,
  (size v ≤ fuel)%nat → blank w → delim rest → read_value fuel (w ++ t ++ rest) = Some (view v, rest).

Lemma items_read l u fuel rest :
  Forall reads_json l → lay_items layout 93 l u → (total (λ x, S (size x)) l ≤ fuel)%nat →
  read_items fuel (u ++ rest) = Some (map view l, rest).
Proof.
  intros Hl. revert u fuel. induction Hl as [|x l Hx _ IH]; intros u [|fuel] Hlay Hf; cbn [map total] in *; try done; [lia|].
  destruct Hlay as (w & t & w' & r & Hw & Ht & Hw' & -> & Hr). cbn [read_items]. rewrite <- !app_assoc.
  assert (delim (w' ++ r ++ rest)) as Hd.
  { destruct l as [|y l]; [subst r; by apply delim_blank|]. destruct Hr as (ts & -> & _). by apply delim_blank. }
  rewrite (Hx t Ht fuel w (w' ++ r ++ rest)) by (done || lia). rewrite skip_ws_app by done.
  destruct l as [|y l].
  - subst r. cbn [app]. rewrite skip_ws_stop, expect_cons by done. done.
  - destruct Hr as (ts & -> & Hts). cbn [app]. rewrite skip_ws_stop by done. rewrite expect_ne, expect_cons by done.
    rewrite (IH ts fuel Hts) by lia. done.
Qed.

Lemma read_members_S fuel s :
  read_members (S fuel) s =
    match read_member fuel s with
    | Some (kx, rest) =>
        match expect 125 (skip_ws rest), expect 44 (skip_ws rest) with
        | Some rest, _ => Some ([kx], rest)
        | _, Some rest => match read_members fuel rest with Some (m, rest) => Some (kx :: m, rest) | None => None end
        | _, _ => None
        end
    | None => None
    end.
Proof. done. Qed.

Lemma members_read m u fuel rest :
  Forall (λ kv, reads_json kv.2) m → Forall (λ kv, bytes_ok kv.1) m →
  lay_items (λ kv t, ∃ w w' u, blank w ∧ blank w' ∧ t = quote [] kv.1 ++ w ++ 58 :: w' ++ u ∧ layout kv.2 u) 125 m u →
  (total (λ kv, S (S (size kv.2))) m ≤ fuel)%nat →
  read_members fuel (u ++ rest) = Some (map (λ kv, (kv.1, view kv.2)) m, rest).
Proof.
  intros Hm Hk. revert u fuel. induction Hm as [|kv m Hx _ IH]; intros u [|[|fuel]] Hlay Hf;
    cbn [map total] in *; try done; try lia. apply Forall_cons in Hk as [Hk Hks].
  destruct Hlay as (w & t & w' & r & Hw & (w1 & w2 & u' & Hw1 & Hw2 & -> & Hu) & Hw' & -> & Hr).
  assert (delim (w' ++ r ++ rest)) as Hd.
  { destruct m as [|y m]; [subst r; by apply delim_blank|]. destruct Hr as (ts & -> & _). by apply delim_blank. }
  assert (read_member (S fuel) (w ++ (quote [] kv.1 ++ w1 ++ 58 :: w2 ++ u') ++ w' ++ r ++ rest) = Some (kv.1, view kv.2, w' ++ r ++ rest)) as Hmem.
  { cbn [read_member]. rewrite skip_ws_app by done. rewrite quote_eq. cbn [app]. rewrite skip_ws_stop, expect_cons by done.
    cbn [mbind option_bind]. rewrite <- !app_assoc. cbn [app]. rewrite <- ?app_assoc. cbn [app]. rewrite read_quoted by done. rewrite <- ?app_assoc.
    rewrite skip_ws_app by done. cbn [app]. rewrite skip_ws_stop, expect_cons by done. cbn [mbind option_bind].
    rewrite <- ?app_assoc. by rewrite (Hx u' Hu fuel w2 (w' ++ r ++ rest)) by (done || lia). }
  rewrite read_members_S. set (X := quote [] kv.1 ++ _) in *.
  replace ((w ++ X ++ w' ++ r) ++ rest) with (w ++ X ++ w' ++ r ++ rest) by by rewrite <- !app_assoc.
  rewrite Hmem, skip_ws_app by done. destruct m as [|y m].
  - subst r. cbn [app]. rewrite skip_ws_stop, expect_cons by done. done.
  - destruct Hr as (ts & -> & Hts). cbn [app]. rewrite skip_ws_stop by done. rewrite expect_ne, expect_cons by done.
    rewrite (IH Hks ts (S fuel) Hts) by lia. done.
Qed.

Lemma value_ok_bytes m : value_ok (Node m) → Forall (λ kv, bytes_ok kv.1) m ∧ Forall (λ kv, value_ok kv.2) m.
Proof. intros [_ Hm]%value_ok_node. split; (eapply Forall_impl; [exact Hm|]); unfold str_ok; naive_solver. Qed.

Lemma layout_reads `{!ExtLaws} v : value_ok v → reads_json v.
Proof.
  induction v as [s|l IH|m IH] using Value_ind; intros Hok t Hl [|fuel] w rest Hf Hw Hr;
    try (cbn [size] in Hf; lia); cbn [read_value]; rewrite skip_ws_app by done.
  - destruct (scalar_text_reads s Hok) as (Hread & _ & c & r & E & Hc). cbn [layout view] in *. subst t. specialize (Hread rest Hr).
    apply scalar_starts in Hc as (Hws & H91 & _ & H123 & _). rewrite E in *. cbn [app] in *.
    by rewrite skip_ws_stop, !expect_ne by done.
  - cbn [layout view map] in *. apply value_ok_list in Hok. destruct l as [|x l].
    + destruct Hl as (w' & Hw' & ->). cbn [app]. rewrite skip_ws_stop, expect_cons, <- app_assoc by done.
      rewrite skip_ws_app by done. cbn [app]. by rewrite skip_ws_stop, expect_cons by done.
    + destruct Hl as (u & -> & Hl). cbn [app]. rewrite skip_ws_stop, expect_cons by done.
      assert (expect 93 (skip_ws (u ++ rest)) = None) as ->.
      { destruct Hl as (w0 & t & w' & r & Hw0 & Ht & _ & -> & _). rewrite <- !app_assoc.
        apply starts_open; [by left|done|]. apply Forall_cons in Hok as [Hx _]. by apply (layout_starts x). }
      rewrite (items_read (x :: l)); [done| |done|cbn [size] in Hf; lia].
      apply Forall_forall. intros y Hy. rewrite Forall_forall in IH, Hok. by apply IH, Hok.
  - cbn [layout view map] in *. destruct (value_ok_bytes m Hok) as [Hk Hv]. destruct m as [|x m].
    + destruct Hl as (w' & Hw' & ->). cbn [app]. rewrite skip_ws_stop, expect_ne, expect_cons, <- app_assoc by done.
      rewrite skip_ws_app by done. cbn [app]. by rewrite skip_ws_stop, expect_cons by done.
    + destruct Hl as (u & -> & Hl). cbn [app]. rewrite skip_ws_stop, expect_ne, expect_cons by done.
      assert (expect 125 (skip_ws (u ++ rest)) = None) as ->.
      { destruct Hl as (w0 & t & w' & r & Hw0 & (w1 & w2 & u' & _ & _ & -> & _) & _ & -> & _). rewrite <- !app_assoc.
        apply starts_open; [by right|done|]. eexists _, _. split; [done|]. done. }
      rewrite (members_read (x :: m)); [done| |done|done|cbn [size] in Hf; lia].
      apply Forall_forall. intros y Hy. rewrite Forall_forall in IH, Hv. by apply IH, Hv.
Qed.

(** The JSON text of a document, at any indentation or none, is one value of the
    grammar with nothing after it, and reads as the view. *)
Lemma json_reads_back `{!ExtLaws} v indent fuel :
  value_ok v → (size v ≤ fuel)%nat → read_json fuel (to_json v indent) = Some (view v).
Proof.
  intros Hok Hf. assert (∃ t, layout v t ∧ to_json v indent = t) as (t & Hl & ->).
  { unfold to_json. destruct indent as [step|].
    - destruct (pretty_lays step v O) as (t & Ht & Hw). by exists t.
    - destruct (compact_lays v) as (t & Ht & Hw). by exists t. }
  unfold read_json. pose proof (layout_reads v Hok t Hl fuel [] [] Hf) as Hread. rewrite app_nil_r in Hread. cbn [app] in Hread.
  by rewrite Hread by done.
Qed.

(** ** YAML: the blocks read back *)

(** What may follow a block at [k]: nothing, or a line further left. *)
Definition below (k : nat) (rest : bytes) : Prop :=
  rest = [] ∨ ∃ j c r, (j < k)%nat ∧ c ≠ 32 ∧ rest = spaces j ++ c :: r.

Lemma below_mono j k rest : (j ≤ k)%nat → below j rest → below k rest.
Proof. intros Hj [->|(i & c & r & Hi & Hc & ->)]; [by left|]. right. exists i, c, r. split_and!; [lia|done..]. Qed.

Lemma below_next k c r : c ≠ 32 → below (k + 2) (spaces k ++ c :: r).
Proof. intros Hc. right. exists k, c, r. split_and!; [lia|done..]. Qed.

Lemma marker_at k c r : marker k c (spaces k ++ c :: r) = Some r.
Proof. unfold marker. rewrite (cons_middle c (spaces k) r), app_assoc. apply strip_prefix_app. Qed.

Lemma marker_other k c d r : d ≠ c → marker k c (spaces k ++ d :: r) = None.
Proof. intros Hd. unfold marker, spaces. induction k as [|k IH]; [by apply expect_ne|]. cbn. exact IH. Qed.

Lemma marker_below k c rest : below k rest → marker k c rest = None.
Proof.
  unfold marker, spaces. intros [->|(j & d & r & Hj & Hd & ->)]; [by destruct k|].
  revert k Hj. induction j as [|j IH]; intros [|k] Hj; try lia.
  - cbn. by rewrite (proj2 (Z.eqb_neq d 32)).
  - cbn. apply IH. lia.
Qed.

Fixpoint yaml_size (v : Value) : nat :=
  match v with
  | Leaf _ => 1
  | List l => S (S (S (total (λ x, S (yaml_size x)) l)))
  | Node m => S (S (S (total (λ kv, S (yaml_size kv.2)) m)))
  end.

Definition reads_child (v : Value) : Prop := ∀ indent, ∃ t,
  (∀ out, child v indent out = out ++ t) ∧ (∃ c r, t = c :: r ∧ (c = 32 ∨ c = 10)) ∧
  ∀ fuel rest, (yaml_size v ≤ fuel)%nat → below (indent + 2) rest → read_child fuel indent (t ++ rest) = Some (view v, rest).

Lemma yaml_list_reads l : Forall reads_child l → ∀ k, ∃ t,
  (∀ out, yaml_list child l k out = out ++ t) ∧
  match l with [] => t = [] | _ => ∃ c r, t = spaces k ++ 45 :: c :: r ∧ (c = 32 ∨ c = 10) end ∧
  ∀ fuel rest, (S (total (λ x, S (yaml_size x)) l) ≤ fuel)%nat → below k rest →
    read_list fuel k (t ++ rest) = Some (map view l, rest).
Proof.
  induction 1 as [|x l Hx _ IH]; intros k.
  - exists []. split; [intros out; by rewrite app_nil_r|]. split; [done|]. intros [|fuel] rest Hf Hr; [lia|].
    cbn [read_list app]. by rewrite marker_below.
  - destruct (Hx k) as (tx & Hwx & (c & r & Ec & Hc) & Hrx). destruct (IH k) as (tl & Hwl & Hshape & Hrl).
    exists (spaces k ++ 45 :: tx ++ tl). split.
    { intros out. cbn [yaml_list]. rewrite Hwx, Hwl. unfold pad, spaces. app_norm. }
    split. { exists c, (r ++ tl). by rewrite Ec. }
    intros [|fuel] rest Hf Hr; [lia|]. cbn [read_list total map] in *.
    rewrite <- app_assoc. cbn [app]. rewrite marker_at, <- app_assoc.
    assert (below (k + 2) (tl ++ rest)) as Hb.
    { destruct l as [|y l]; [subst tl; by apply (below_mono k); [lia|]|]. destruct Hshape as (c' & r' & -> & _).
      rewrite <- app_assoc. by apply below_next. }
    rewrite Hrx by (done || lia). rewrite Hrl by (done || lia). done.
Qed.

Lemma yaml_object_reads m : Forall (λ kv, reads_child kv.2) m → Forall (λ kv, bytes_ok kv.1) m → ∀ k, ∃ t,
  (∀ out, yaml_object child m k out = out ++ t) ∧
  match m with [] => t = [] | (key, _) :: _ => ∃ r, t = spaces k ++ 34 :: concat (map escape key) ++ 34 :: 58 :: r end ∧
  ∀ fuel rest, (S (total (λ kv, S (yaml_size kv.2)) m) ≤ fuel)%nat → below k rest →
    read_object fuel k (t ++ rest) = Some (map (λ kv, (kv.1, view kv.2)) m, rest).
Proof.
  induction 1 as [|[key x] m Hx _ IH]; intros Hk k.
  - exists []. split; [intros out; by rewrite app_nil_r|]. split; [done|]. intros [|fuel] rest Hf Hr; [lia|].
    cbn [read_object app]. by rewrite marker_below.
  - apply Forall_cons in Hk as [Hkey Hk]. destruct (Hx k) as (tx & Hwx & _ & Hrx). destruct (IH Hk k) as (tl & Hwl & Hshape & Hrl).
    cbn [fst snd] in *. exists (spaces k ++ 34 :: concat (map escape key) ++ 34 :: 58 :: tx ++ tl). split.
    { intros out. cbn [yaml_object fst snd]. rewrite Hwx, Hwl. unfold quote, pad, spaces. app_norm. }
    split; [by eexists|]. intros [|fuel] rest Hf Hr; [lia|]. cbn [read_object total map fst snd] in *.
    rewrite <- app_assoc. cbn [app]. rewrite marker_at. cbn [mbind option_bind]. rewrite <- app_assoc. cbn [app].
    rewrite read_quoted by done. rewrite expect_cons. cbn [mbind option_bind]. rewrite <- app_assoc.
    assert (below (k + 2) (tl ++ rest)) as Hb.
    { destruct m as [|[key' y] m]; [subst tl; by apply (below_mono k); [lia|]|]. destruct Hshape as (r' & ->).
      rewrite <- app_assoc. by apply below_next. }
    rewrite Hrx by (done || lia). rewrite Hrl by (done || lia). done.
Qed.

Lemma inline_reads `{!ExtLaws} s rest : scalar_ok s → read_inline (scalar_text s ++ 10 :: rest) = Some (scalar_view s, 10 :: rest).
Proof.
  intros Hok. destruct (scalar_text_reads s Hok) as (Hread & _ & c & r & E & Hc). specialize (Hread (10 :: rest) eq_refl).
  apply scalar_starts in Hc as (_ & H91 & _ & H123 & _). unfold read_inline. rewrite E in *. cbn [app strip_prefix] in *.
  rewrite (proj2 (Z.eqb_neq c 91)), (proj2 (Z.eqb_neq c 123)) by done. exact Hread.
Qed.

Lemma child_reads `{!ExtLaws} v : value_ok v → reads_child v.
Proof.
  induction v as [s|l IH|m IH] using Value_ind; intros Hok indent.
  - exists (32 :: scalar_text s ++ [10]). split; [intros out; cbn [child inline]; rewrite write_scalar_app; app_norm|].
    split; [eexists _, _; split; [done|by left]|]. intros [|fuel] rest Hf _; [cbn in Hf; lia|].
    cbn [read_child app]. rewrite expect_cons, <- app_assoc. cbn [app]. rewrite inline_reads by done. done.
  - destruct l as [|x l].
    { exists [32; 91; 93; 10]. split; [intros out; cbn [child inline]; app_norm|]. split; [eexists _, _; split; [done|by left]|].
      intros [|fuel] rest Hf _; [cbn in Hf; lia|]. done. }
    assert (Forall reads_child (x :: l)) as Hall.
    { apply value_ok_list in Hok. apply Forall_forall. intros y Hy. rewrite Forall_forall in IH, Hok. by apply IH, Hok. }
    destruct (yaml_list_reads (x :: l) Hall (indent + 2)) as (t & Hw & (c & r & Et & _) & Hr).
    exists (10 :: t). split; [intros out; cbn [child]; rewrite Hw; app_norm|]. split; [eexists _, _; split; [done|by right]|].
    intros [|[|fuel]] rest Hf Hb; try (cbn [yaml_size] in Hf; lia). cbn [read_child app]. rewrite expect_ne, expect_cons by done.
    specialize (Hr fuel rest). cbn [read_block]. rewrite Et in *. rewrite <- app_assoc in *. cbn [app] in *. rewrite marker_at.
    rewrite Hr; [done|cbn [yaml_size] in Hf; lia|done].
  - destruct m as [|[key x] m].
    { exists [32; 123; 125; 10]. split; [intros out; cbn [child inline]; app_norm|]. split; [eexists _, _; split; [done|by left]|].
      intros [|fuel] rest Hf _; [cbn in Hf; lia|]. done. }
    destruct (value_ok_bytes _ Hok) as [Hk Hv].
    assert (Forall (λ kv, reads_child kv.2) ((key, x) :: m)) as Hall.
    { apply Forall_forall. intros y Hy. rewrite Forall_forall in IH, Hv. by apply IH, Hv. }
    destruct (yaml_object_reads _ Hall Hk (indent + 2)) as (t & Hw & (r & Et) & Hr).
    exists (10 :: t). split; [intros out; cbn [child]; rewrite Hw; app_norm|]. split; [eexists _, _; split; [done|by right]|].
    intros [|[|fuel]] rest Hf Hb; try (cbn [yaml_size] in Hf; lia). cbn [read_child app]. rewrite expect_ne, expect_cons by done.
    specialize (Hr fuel rest). cbn [read_block]. rewrite Et in *. rewrite <- app_assoc in *. cbn [app] in *.
    rewrite marker_other, marker_at by done. rewrite Hr; [done|cbn [yaml_size] in Hf; lia|done].
Qed.

(** The YAML text, read line by line and by indentation, has the same view. *)
Lemma yaml_reads_back `{!ExtLaws} v fuel :
  value_ok v → (yaml_size v ≤ fuel)%nat → read_yaml fuel (to_yaml v) = Some (view v).
Proof.
  intros Hok Hf. destruct v as [s|[|x l]|[|[key x] m]]; [|done| |done|].
  - destruct (scalar_text_reads s Hok) as (_ & Hopen & _). unfold read_yaml, to_yaml. cbn [inline]. fold (scalar_text s).
    rewrite Hopen, inline_reads by done. done.
  - assert (Forall reads_child (x :: l)) as Hall.
    { apply value_ok_list in Hok. eapply Forall_impl; [exact Hok|]. intros y Hy. by apply child_reads. }
    destruct (yaml_list_reads (x :: l) Hall 0) as (t & Hw & (c & r & Et & Hc) & Hr). cbn [to_yaml]. rewrite Hw. cbn [app].
    destruct fuel as [|fuel]; [cbn [yaml_size] in Hf; lia|]. specialize (Hr fuel []). rewrite app_nil_r in Hr.
    unfold read_yaml. assert (opens_block t = true) as ->.
    { rewrite Et. unfold opens_block, spaces. cbn [replicate app]. rewrite expect_cons. apply bool_decide_eq_true.
      destruct Hc as [->| ->]; [left|right]; rewrite expect_cons; by eexists. }
    cbn [read_block]. rewrite Et in *. rewrite marker_at, Hr; [done|cbn [yaml_size] in Hf; lia|by left].
  - destruct (value_ok_bytes _ Hok) as [Hk Hv].
    assert (Forall (λ kv, reads_child kv.2) ((key, x) :: m)) as Hall.
    { eapply Forall_impl; [exact Hv|]. intros y Hy. by apply child_reads. }
    destruct (yaml_object_reads _ Hall Hk 0) as (t & Hw & (r & Et) & Hr). cbn [to_yaml]. rewrite Hw. cbn [app].
    destruct fuel as [|fuel]; [cbn [yaml_size] in Hf; lia|]. specialize (Hr fuel []). rewrite app_nil_r in Hr.
    apply Forall_cons in Hk as [Hkey _]. unfold read_yaml. assert (opens_block t = true) as ->.
    { rewrite Et. unfold opens_block, spaces. cbn [replicate app]. rewrite expect_ne, expect_cons by done. cbn [mbind option_bind].
      rewrite read_quoted by done. apply bool_decide_eq_true. rewrite expect_cons. by eexists. }
    cbn [read_block]. rewrite Et in *. rewrite marker_other, marker_at, Hr; [done|cbn [yaml_size] in Hf; lia|by left|done].
Qed.

(** ** Exports of a stored document *)

Context {S : Type} `{GrabLaws S} `{!ExtLaws}.

Lemma txn_value_spec fuel s t p :
  g_ok s → holds (g_view s) t → akey t = ROOT →
  match tlookup t p with
  | Some (AFile _ b) => ∀ v, b = encode v → value_ok v → blen b < 2 ^ 32 → (depth v ≤ fuel)%nat →
      ∃ s', same s s' ∧ txn_value fuel p s = (Ok v, s')
  | Some (ADir _ _) => ∃ s' msg, same s s' ∧ txn_value fuel p s = (Err (CannotAccess msg), s')
  | None => ∃ s', same s s' ∧ txn_value fuel p s = (Err ValueNotFound, s')
  end.
Proof.
  intros Hok Hh Hk. unfold txn_value, grab_kind.
  edestruct (grab_read (A := option EntryKind) s t p) as (s1 & [Hok1 Hv1] & E1); [done..|].
  assert (holds (g_view s1) t) as Hh1 by (revert Hh; apply holds_frame; intros j _; apply Hv1).
  destruct (tlookup t p) as [[k b|k ch]|] eqn:Ht.
  - intros v -> Hv Hb Hd. rewrite (sbind_Ok _ _ _ _ _ E1). unfold grab_load_value.
    edestruct (grab_read (A := option Value) s1 t p) as (s2 & [Hok2 Hv2] & E2); [done..|]. rewrite Ht in E2.
    exists s2. split; [split; [done|]; intros j; by rewrite Hv2, Hv1|].
    erewrite sbind_Ok; [|rewrite E2; cbn; by rewrite decode_encode_lemma]. done.
  - exists s1. eexists. split; [done|]. by rewrite (sbind_Ok _ _ _ _ _ E1).
  - exists s1. split; [done|]. by rewrite (sbind_Ok _ _ _ _ _ E1).
Qed.

(** C26: An export says what the document says.  Exporting the file at a path gives, at
    any indentation or none, one value of the JSON grammar with nothing after it, and
    a YAML block; both read back as the plain view of the stored document: the same
    nesting, the fields in key order under the same names, the same strings, bytes as
    Base64 that decodes to them, a duration as its exact number of seconds, every number as its decimal text, null for null and
    for the floats that are not finite.  A directory and an absent path are refused,
    and nothing a later read can see changes. *)
Theorem exports_read_back fuel s t p indent :
  g_ok s → holds (g_view s) t → akey t = ROOT →
  match tlookup t p with
  | Some (AFile _ b) => ∀ v, b = encode v → value_ok v → blen b < 2 ^ 32 → (depth v ≤ fuel)%nat →
      (∃ s' json, same s s' ∧ txn_export_to_json fuel p indent s = (Ok json, s') ∧
         ∀ n, (size v ≤ n)%nat → read_json n json = Some (view v)) ∧
      (∃ s' yaml, same s s' ∧ txn_export_to_yaml fuel p s = (Ok yaml, s') ∧
         ∀ n, (yaml_size v ≤ n)%nat → read_yaml n yaml = Some (view v)) ∧
      (∀ q bs, subtree v q = Some (Leaf (Bytes bs)) → base64_decode (base64_encode bs) = Some bs) ∧
      ∀ d, read_seconds (duration_seconds d) = td_num_seconds d * 10 ^ 9 + td_subsec_nanos d
  | Some (ADir _ _) => ∃ s' msg, same s s' ∧
      txn_export_to_json fuel p indent s = (Err (CannotAccess msg), s') ∧ txn_export_to_yaml fuel p s = (Err (CannotAccess msg), s')
  | None => ∃ s', same s s' ∧
      txn_export_to_json fuel p indent s = (Err ValueNotFound, s') ∧ txn_export_to_yaml fuel p s = (Err ValueNotFound, s')
  end.
Proof.
  intros Hok Hh Hk. pose proof (txn_value_spec fuel s t p Hok Hh Hk) as Hval.
  unfold txn_export_to_json, txn_export_to_yaml. destruct (tlookup t p) as [[k b|k ch]|].
  - intros v Hb Hv Hl Hd. destruct (Hval v Hb Hv Hl Hd) as (s' & Hs & E). rewrite (sbind_Ok _ _ _ _ _ E), (sbind_Ok _ _ _ _ _ E).
    split; [|split; [|split; [|intros d; apply duration_exact]]].
    + exists s', (to_json v indent). split; [done|]. split; [done|]. intros n Hn. by apply json_reads_back.
    + exists s', (to_yaml v). split; [done|]. split; [done|]. intros n Hn. by apply yaml_reads_back.
    + intros q bs Hq. apply base64_roundtrip. apply (subtree_value_ok _ _ _ Hv) in Hq. apply Hq.
  - destruct Hval as (s' & msg & Hs & E). exists s', msg. split; [done|]. split; by apply sbind_Err.
  - destruct Hval as (s' & Hs & E). exists s'. split; [done|]. split; by apply sbind_Err.
Qed.
End export_spec.
