(* ===== verification/Protected.v ===== *)
(** * The mutation context of a protected table

    [txn/context/ctx.rs] and [txn/context/table.rs] for the build with [permissions]:
    the context of [Ctx] together with the inode table and the memo of the a-nodes
    already verified.  Reads verify the integrity tag of what they take from the
    engine, writes stamp and seal the inode, and every operation asks the access
    control first.  The recursions carry fuel, one unit per directory level. *)
From S2P Require Import Prelude BTree Codec Ext Scalar Path Value Archived Key Dir Engine Acl Integrity Inode WriteBuffer Ctx Fs Tree Grab Write.

(** A protected context; the table name, the time and the principal are constants of it. *)
Record PCtx (T I : Type) := mkPCtx { p_ctx : Ctx T; p_inodes : I; p_verified : gset Z }.
Arguments mkPCtx {T I} _ _ _.
Arguments p_ctx {T I} _.
Arguments p_inodes {T I} _.
Arguments p_verified {T I} _.

Section protected.
Context `{Ext} `{Crypto} {T : Type} `{KV T Z bytes} {I : Type} `{OrdKV I}.
Context (table : bytes) (now : Z) (principal : Principal).
Abbreviation PM := (SM (PCtx T I)) (only parsing).

Definition on_ctx {A} (m : SM (Ctx T) A) : PM A := λ s,
  let '(r, c) := m (p_ctx s) in (r, mkPCtx c (p_inodes s) (p_verified s)).

Definition on_inodes {A} (m : SM I A) : PM A := λ s,
  let '(r, i) := m (p_inodes s) in (r, mkPCtx (p_ctx s) i (p_verified s)).

(** [Context::new]: nothing is verified yet. *)
Definition PCtx_new (c : Ctx T) (i : I) : PCtx T I := mkPCtx c i ∅.

Definition invalidate_verified (akey : AKey) : PM unit :=
  modify (λ s, mkPCtx (p_ctx s) (p_inodes s) (p_verified s ∖ {[akey]})).

Definition mark_verified (akey : AKey) : PM unit :=
  modify (λ s, mkPCtx (p_ctx s) (p_inodes s) ({[akey]} ∪ p_verified s)).

Definition acl_bytes_or_empty (a : option Acl) : bytes := default [] (acl_encode <$> a).

Definition tampered : AdbError := Tampered "integrity check failed for an a-node in table '{}'".

(** Both tags of an entry, as the closure handed to [stamp_and_seal] computes them. *)
Definition seal_entry (session : Session) (akey : AKey) (entry acl : bytes) : res (bytes * bytes) :=
  let? mac := mac_value (s_key session) table akey entry acl in
  Ok (mac, sign_value (s_sign_seed session) table akey entry acl).

Definition verify_integrity (akey : AKey) (entry : bytes) : PM unit :=
  match principal with
  | User session => λ s,
      if bool_decide (akey ∈ p_verified s) then (Ok tt, s)
      else
        (let! '((acl, mac), _) := asks (λ s, read_meta table akey (p_inodes s)) in
         let! expected := asks (λ _, mac_value (s_key session) table akey entry (acl_bytes_or_empty acl)) in
         match mac with
         | Some mac => if ct_eq mac expected then mark_verified akey else serr tampered
         | None => serr tampered
         end) s
  | _ => sret tt
  end.

Definition p_put_entry (akey : AKey) (entry : bytes) : PM unit :=
  let! _ := on_ctx (put_entry akey entry) in
  let! _ := invalidate_verified akey in
  match principal with
  | User session =>
      let owner := if akey =? ROOT then None else Some (s_uid session) in
      on_inodes (stamp_and_seal table akey now owner (seal_entry session akey entry))
  | _ => on_inodes (touch table akey now)
  end.

Definition p_buffering (s : PCtx T I) : bool := ctx_buffering (p_ctx s).

Definition p_put_file_edit (akey : AKey) (entry : bytes) : PM unit := λ s,
  if p_buffering s then
    (let! _ := invalidate_verified akey in on_ctx (modify (set_wb (λ b, file_put b akey entry)))) s
  else p_put_entry akey entry s.

Definition p_remove_entry (akey : AKey) : PM unit :=
  let! _ := on_ctx (λ c, (Ok tt, mkCtx (kv_remove (data c) akey) (wb c) (rng c))) in
  let! _ := invalidate_verified akey in
  let! _ := on_inodes (inode_forget table akey) in
  on_ctx (modify (set_wb (λ b, forget b akey))).

Definition p_read_verified (akey : AKey) : PM (option bytes) := λ s,
  match file_get (wb (p_ctx s)) akey with
  | Some entry => (Ok (Some entry), s)
  | None =>
      (let! entry := asks (λ s, read_entry (data (p_ctx s)) akey) in
       match entry with
       | Some bs => let! _ := verify_integrity akey bs in sret (Some bs)
       | None => sret None
       end) s
  end.

Definition p_has_entry (akey : AKey) : PM bool := asks (λ s, has_entry akey (p_ctx s)).

Definition p_with_entry {R} (akey : AKey) (f : bytes → res R) : PM (option R) := λ s,
  match file_get (wb (p_ctx s)) akey with
  | Some entry => (let? r := f entry in Ok (Some r), s)
  | None =>
      match kv_get (data (p_ctx s)) akey with
      | None => (Ok None, s)
      | Some entry =>
          (let! _ := verify_integrity akey entry in
           asks (λ _, let? r := f entry in Ok (Some r))) s
      end
  end.

Definition p_child (parent : AKey) (name : bytes) : PM (option AKey) := λ s,
  match buffered_children parent (p_ctx s) with
  | Some children => (Ok (bt_get children name), s)
  | None =>
      (let! r := p_with_entry parent (λ entry,
         let? '(kind, payload) := entry_split entry in
         match kind with
         | KFile => Ok None
         | KDir => let? d := ArchivedDir_new payload in dir_get d name
         end) in
       sret (mjoin r)) s
  end.

Definition p_kind (akey : AKey) : PM (option EntryKind) := λ s,
  if buffered_dir akey (p_ctx s) then (Ok (Some KDir), s)
  else p_with_entry akey (λ entry, let? '(k, _) := entry_split entry in Ok k) s.

Definition p_dir_children (akey : AKey) : PM Children := λ s,
  match buffered_children akey (p_ctx s) with
  | Some children => (Ok children, s)
  | None =>
      (let! r := p_with_entry akey (λ entry,
         let? '(kind, payload) := entry_split entry in
         match kind with
         | KFile => Err (CannotAccess "a path component is a file, not a directory")
         | KDir =>
             let? d := ArchivedDir_new payload in
             let? es := dir_entries d in Ok (bt_collect es)
         end) in
       sret (default [] r)) s
  end.

Definition p_cascade_children (akey : AKey) : PM (option (list AKey)) := λ s,
  match buffered_children akey (p_ctx s) with
  | Some children => (Ok (Some (children.*2)), s)
  | None =>
      p_with_entry akey (λ entry,
        let? '(kind, payload) := entry_split entry in
        match kind with
        | KFile => Ok []
        | KDir =>
            let? d := ArchivedDir_new payload in
            let? es := dir_entries d in Ok (es.*2)
        end) s
  end.

Definition p_bump_structure : PM unit := on_ctx ctx_bump_structure.

Definition p_buffer_dir (akey : AKey) (m : Children) : PM unit := on_ctx (buffer_dir akey m).

(** The common body of [dir_link] and [dir_unlink]. *)
Definition p_edit_buffered (parent : AKey) (f : Children → Children) : PM unit :=
  let! seed := λ s,
    if buffered_dir parent (p_ctx s) then (Ok None, s)
    else (let! m := p_dir_children parent in sret (Some m)) s in
  on_ctx (λ c,
    let children :=
      match seed with
      | Some loaded => Some (default loaded (dirs (wb c) !! parent))
      | None => dirs (wb c) !! parent
      end in
    match children with
    | None => (Panic, c)
    | Some m => (Ok tt, set_wb (λ b, wb_write b (λ d, <[parent := f m]> d)) c)
    end).

Definition p_dir_link (parent : AKey) (name : bytes) (ch : AKey) : PM unit :=
  p_edit_buffered parent (λ m, bt_insert m name ch).

Definition p_dir_unlink (parent : AKey) (name : bytes) : PM unit :=
  p_edit_buffered parent (λ m, bt_remove m name).

Definition stamp_new_dir_acl (akey : AKey) : PM unit :=
  match principal with
  | User session => if akey =? ROOT then sret tt else on_inodes (set_default_acl table akey (s_uid session))
  | _ => sret tt
  end.

(** ** Access control *)

Definition p_acl (akey : AKey) : PM (option Acl) := asks (λ s, read_acl table akey (p_inodes s)).

Definition check (akey : AKey) (needed : Rights) : PM unit :=
  let! acl := p_acl akey in asks (λ _, authorize principal akey acl needed).

Fixpoint check_deletable (fuel : nat) (akey : AKey) : PM unit :=
  match fuel with
  | O => λ s, (OutOfFuel, s)
  | S fuel =>
      let! _ := check akey RDelete in
      let! k := p_kind akey in
      if bool_decide (k = Some KDir) then
        let! children := p_dir_children akey in
        for_each (children.*2) (check_deletable fuel)
      else sret tt
  end.

Fixpoint p_resolve_from (akey : AKey) (names : APath) : PM (option AKey) :=
  match names with
  | [] => sret (Some akey)
  | name :: rest =>
      let! _ := check akey RAccess in
      let! next := p_child akey name in
      match next with
      | Some ch => p_resolve_from ch rest
      | None => sret None
      end
  end.

Definition p_resolve (path : APath) : PM (option AKey) := p_resolve_from ROOT path.

Definition write_acl (akey : AKey) (a : Acl) : PM unit :=
  let! _ := invalidate_verified akey in on_inodes (set_acl table akey a).

Definition reseal_integrity (akey : AKey) : PM unit :=
  match principal with
  | User session =>
      let! entry := asks (λ s,
        match file_get (wb (p_ctx s)) akey with
        | Some buffered => Ok (Some buffered)
        | None => read_entry (data (p_ctx s)) akey
        end) in
      match entry with
      | None => sret tt
      | Some entry =>
          let! acl := p_acl akey in
          let acl := acl_bytes_or_empty acl in
          let! mac := asks (λ _, mac_value (s_key session) table akey entry acl) in
          let! _ := on_inodes (seal_mac table akey mac) in
          on_inodes (seal_sig table akey (sign_value (s_sign_seed session) table akey entry acl))
      end
  | _ => sret tt
  end.

(** ** [table.rs] *)

Definition p_put_dir (akey : AKey) (m : Children) : PM unit := λ s,
  if p_buffering s then (let! _ := stamp_new_dir_acl akey in p_buffer_dir akey m) s
  else p_put_entry akey (dir_entry (encode_dir m)) s.

Definition p_flush_buffered (ds : list (Z * Children)) (fs : list (Z * bytes)) : PM unit :=
  let! _ := for_each ds (λ d, p_put_entry d.1 (dir_entry (encode_dir d.2))) in
  for_each fs (λ f, p_put_entry f.1 f.2).

Definition p_link_child (parent : AKey) (name : bytes) (ch : AKey) : PM unit :=
  let! _ := p_bump_structure in
  λ s, if p_buffering s then p_dir_link parent name ch s
       else (let! m := p_dir_children parent in p_put_dir parent (bt_insert m name ch)) s.

Definition p_unlink_child (parent : AKey) (name : bytes) : PM unit :=
  let! _ := p_bump_structure in
  λ s, if p_buffering s then p_dir_unlink parent name s
       else (let! m := p_dir_children parent in p_put_dir parent (bt_remove m name)) s.

Definition p_ensure_root : PM unit :=
  let! present := p_has_entry ROOT in
  if (present : bool) then sret tt else p_put_dir ROOT [].

Fixpoint p_ensure_dir_from (akey : AKey) (names : APath) : PM AKey :=
  match names with
  | [] => sret akey
  | name :: rest =>
      let! _ := check akey RAccess in
      let! found := p_child akey name in
      match found with
      | Some ch =>
          let! k := p_kind ch in
          if bool_decide (k = Some KDir) then p_ensure_dir_from ch rest
          else serr (CannotAccess "'{name}' is a file, not a directory")
      | None =>
          let! _ := check akey RModify in
          let! ch := on_ctx fresh_key in
          let! _ := p_put_dir ch [] in
          let! _ := p_link_child akey name ch in
          p_ensure_dir_from ch rest
      end
  end.

Definition p_ensure_dir (path : APath) : PM AKey :=
  let! _ := p_ensure_root in p_ensure_dir_from ROOT path.

Fixpoint p_cascade_delete (fuel : nat) (akey : AKey) : PM unit :=
  match fuel with
  | O => λ s, (OutOfFuel, s)
  | S fuel =>
      let! children := p_cascade_children akey in
      match children with
      | None => sret tt
      | Some children =>
          let! _ := for_each children (p_cascade_delete fuel) in
          p_remove_entry akey
      end
  end.

Section fuel.
Context (fuel : nat).

Definition p_split_last (path : APath) : PM (APath * bytes) := on_ctx (split_last_or_panic path).

Definition p_store_under (parent : AKey) (name : bytes) (value_blob : bytes) : PM unit :=
  let! _ := check parent RAccess in
  let! found := p_child parent name in
  let! akey :=
    match found with
    | Some n =>
        let! k := p_kind n in
        if bool_decide (k = Some KFile) then let! _ := check n RModify in sret n
        else
          let! _ := check_deletable fuel n in
          let! _ := check parent RModify in
          let! _ := p_cascade_delete fuel n in
          let! fresh := on_ctx fresh_key in
          let! _ := p_link_child parent name fresh in
          sret fresh
    | None =>
        let! _ := check parent RModify in
        let! fresh := on_ctx fresh_key in
        let! _ := p_link_child parent name fresh in
        sret fresh
    end in
  p_put_entry akey (file_entry value_blob).

Definition p_store_blob_into (path : APath) (value_blob : bytes) : PM unit :=
  let! '(parent_path, name) := p_split_last path in
  let! parent := p_ensure_dir parent_path in
  p_store_under parent name value_blob.

Definition p_store_value_into (path : APath) (value : Value) : PM unit :=
  p_store_blob_into path (encode value).

Definition p_resolve_and_read (path : APath) : PM (option AKey * option bytes) :=
  let! akey := p_resolve path in
  match akey with
  | Some k => let! entry := p_read_verified k in sret (akey, entry)
  | None => sret (akey, None)
  end.

(** [resolve_target] ignores the hint here. *)
Definition p_put_scalar_into (path : APath) (at_path : VPath) (scalar : Scalar) : PM unit :=
  let! target := p_resolve_and_read path in
  match target with
  | (Some akey, Some entry) =>
      let! _ := check akey RModify in
      let! '(patched, entry) := asks (λ _, patch_scalar entry at_path scalar) in
      if (patched : bool) then p_put_file_edit akey entry
      else
        let! '(kind, payload) := asks (λ _, entry_split entry) in
        match kind with
        | KFile =>
            let! value := asks (λ _, decode fuel payload) in
            let value := (set_in value at_path (Leaf scalar)).1 in
            p_put_file_edit akey (file_entry (encode value))
        | KDir => serr (CannotAccess "'{path}' is a directory, not a file")
        end
  | _ =>
      let value := (set_in default_value at_path (Leaf scalar)).1 in
      p_store_value_into path value
  end.

Definition p_rm_into (path : APath) : PM bool :=
  let! '(parent_path, name) := p_split_last path in
  let! parent := p_resolve parent_path in
  match parent with
  | None => sret false
  | Some parent =>
      let! _ := check parent RAccess in
      let! akey := p_child parent name in
      match akey with
      | None => sret false
      | Some akey =>
          let! _ := check_deletable fuel akey in
          let! _ := p_cascade_delete fuel akey in
          let! _ := p_unlink_child parent name in
          sret true
      end
  end.

(** What replaces the destination of a move or a copy. *)
Definition p_clear (existing : option AKey) : PM unit :=
  match existing with
  | Some existing => let! _ := check_deletable fuel existing in p_cascade_delete fuel existing
  | None => sret tt
  end.

Definition p_mv_into (src dst : APath) : PM unit :=
  let! '(src_parent_path, src_name) := p_split_last src in
  let! '(dst_parent_path, dst_name) := p_split_last dst in
  let! src_parent := p_resolve src_parent_path in
  match src_parent with
  | None => serr ValueNotFound
  | Some src_parent =>
      let! _ := check src_parent RAccess in
      let! akey := p_child src_parent src_name in
      match akey with
      | None => serr ValueNotFound
      | Some akey =>
          let! _ := check akey RDelete in
          let! dst_parent := p_ensure_dir dst_parent_path in
          let! _ := check dst_parent RModify in
          let! existing := p_child dst_parent dst_name in
          let! _ := p_clear existing in
          let! _ := p_link_child dst_parent dst_name akey in
          p_unlink_child src_parent src_name
      end
  end.
End fuel.

Fixpoint p_copy_children (copy : AKey → PM AKey) (l : Children) (copied : Children) : PM Children :=
  match l with
  | [] => sret copied
  | (name, ch) :: l =>
      let! k := copy ch in p_copy_children copy l (bt_insert copied name k)
  end.

Fixpoint p_deep_copy (fuel : nat) (akey : AKey) : PM AKey :=
  match fuel with
  | O => λ s, (OutOfFuel, s)
  | S fuel =>
      let! _ := check akey RAccess in
      let! fresh := on_ctx fresh_key in
      let! k := p_kind akey in
      let! k := asks (λ _, ok_or k (Corrupt "copying a missing a-node")) in
      match k with
      | KFile =>
          let! entry := p_read_verified akey in
          let! entry := asks (λ _, ok_or entry (Corrupt "copying a missing a-node")) in
          let! _ := p_put_entry fresh entry in
          sret fresh
      | KDir =>
          let! children := p_dir_children akey in
          let! copied := p_copy_children (p_deep_copy fuel) children [] in
          let! _ := p_put_dir fresh copied in
          sret fresh
      end
  end.

Definition p_cp_into (fuel : nat) (src dst : APath) : PM unit :=
  let! '(dst_parent_path, dst_name) := p_split_last dst in
  let! src_akey := p_resolve src in
  match src_akey with
  | None => serr ValueNotFound
  | Some src_akey =>
      let! dst_parent := p_ensure_dir dst_parent_path in
      let! _ := check dst_parent RModify in
      let! existing := p_child dst_parent dst_name in
      let! _ := p_clear fuel existing in
      let! copy := p_deep_copy fuel src_akey in
      p_link_child dst_parent dst_name copy
  end.

(** The target of a change of list, and its list, once verified. *)
Definition acl_target (path : APath) : PM (AKey * Acl) :=
  let! akey := p_resolve path in
  let! akey := asks (λ _, ok_or akey ValueNotFound) in
  if akey =? ROOT then serr (PermissionDenied "the root ACL cannot be changed")
  else
    let! _ := p_read_verified akey in
    let! acl := p_acl akey in
    let! acl := asks (λ _, ok_or acl (CannotAccess "this a-node has no ACL")) in
    sret (akey, acl).

Definition chown_into (path : APath) (new_uid : Z) : PM unit :=
  let! '(akey, acl) := acl_target path in
  let! _ := asks (λ _, authorize_chown principal acl) in
  let! _ := write_acl akey (set_owner_uid new_uid acl) in
  reseal_integrity akey.

Definition set_acl_into (path : APath) (apply : Acl → Acl) : PM unit :=
  let! '(akey, acl) := acl_target path in
  let! _ := asks (λ _, authorize principal akey (Some acl) RModify) in
  let! _ := write_acl akey (apply acl) in
  reseal_integrity akey.

(** ** The reaping of a removed user's values *)

Fixpoint collect_owned (fuel : nat) (dir : AKey) (uid : Z) (out : list (AKey * bytes)) : PM (list (AKey * bytes)) :=
  match fuel with
  | O => λ s, (OutOfFuel, s)
  | S fuel =>
      let fix collect (l : Children) (out : list (AKey * bytes)) : PM (list (AKey * bytes)) :=
        match l with
        | [] => sret out
        | (name, ch) :: l =>
            let! acl := p_acl ch in
            let! out :=
              if bool_decide (acl_owner_uid <$> acl = Some uid) then sret (out ++ [(dir, name)])
              else
                let! k := p_kind ch in
                if bool_decide (k = Some KDir) then collect_owned fuel ch uid out else sret out in
            collect l out
        end in
      let! children := p_dir_children dir in
      collect children out
  end.

Definition reap_owned (fuel : nat) (uid : Z) : PM unit :=
  let! victims := collect_owned fuel ROOT uid [] in
  for_each victims (λ v,
    let! found := p_child v.1 v.2 in
    match found with
    | Some ch =>
        let! _ := p_cascade_delete fuel ch in
        p_unlink_child v.1 v.2
    | None => sret tt
    end).

(** ** The public mutations of [txn/write.rs] *)

Definition p_store_value_at (fuel : nat) (path : APath) (value : Value) : PM unit :=
  if is_root path then serr (CannotAccess "cannot store a file at the root")
  else p_store_value_into fuel path value.

Definition p_put_scalar_at (fuel : nat) (path : APath) (at_path : VPath) (scalar : Scalar) : PM unit :=
  p_put_scalar_into fuel path at_path scalar.

Definition p_mkdir (path : APath) : PM unit :=
  let! _ := p_ensure_dir path in sret tt.

Definition p_rm (fuel : nat) (path : APath) : PM bool :=
  if is_root path then serr (CannotAccess "cannot remove the root")
  else p_rm_into fuel path.

Definition p_mv (fuel : nat) (src dst : APath) : PM unit :=
  if names_start_with dst src then
    serr (CannotAccess "cannot move an a-node onto itself or into a descendant")
  else if is_root src then serr (CannotAccess "cannot move the root")
  else if is_root dst then serr (CannotAccess "cannot move onto the root")
  else p_mv_into fuel src dst.

Definition p_cp (fuel : nat) (src dst : APath) : PM unit :=
  if names_start_with dst src then
    serr (CannotAccess "cannot copy an a-node onto itself or into a descendant")
  else if is_root dst then serr (CannotAccess "cannot copy onto the root")
  else p_cp_into fuel src dst.

(** The change of list [set_acl] makes, the group's id already resolved. *)
Definition class_rights (class : AclClass) (gid : Z) (rights : Rights) : Acl → Acl :=
  match class with
  | ClassUser => set_owner_rights rights
  | ClassOther => set_other_rights rights
  | ClassGroup _ => set_group_rights gid rights
  end.

(** The flush of a commit; the orders are those the two hash maps iterate in. *)
Section commit.
Context (order_dirs : gmap Z Children → list (Z * Children)).
Context (order_files : gmap Z bytes → list (Z * bytes)).

Definition p_commit_flush : PM unit := λ s,
  let '((buffered_dirs, buffered_files), taken) := wb_take (wb (p_ctx s)) in
  let s := PCtx_new (mkCtx (data (p_ctx s)) taken (rng (p_ctx s))) (p_inodes s) in
  if negb (bool_decide (buffered_dirs = ∅)) || negb (bool_decide (buffered_files = ∅)) then
    p_flush_buffered (order_dirs buffered_dirs) (order_files buffered_files) s
  else (Ok tt, s).
End commit.
End protected.
