(* ===== verification/ProtectedErase.v ===== *)
(** * A protected operation that succeeds is the plain one

    [erases p u]: whenever the protected call [p] succeeds, the call [u] of the build
    without permissions, on the same tables, succeeds with the same answer and leaves
    them the same.  It composes through the monad, so each operation of [Protected]
    erases to its namesake of [Ctx] and [Fs]: permissions only ever turn a success into
    a failure, and everything proved of the plain operations holds of the protected
    ones. *)
From S2P Require Import Prelude BTree Codec Ext Scalar Path Value Archived Key Dir Engine Acl Integrity Inode WriteBuffer Ctx Fs Tree Grab Write Protected.

Section erase.
Context `{Ext} `{Crypto} {T : Type} `{KV T Z bytes} {I : Type} `{OrdKV I}.
Context (table : bytes) (now : Z) (principal : Principal).
Abbreviation PM := (SM (PCtx T I)) (only parsing).

Definition erases {A} (p : PM A) (u : SM (Ctx T) A) : Prop :=
  ∀ s a s', p s = (Ok a, s') → u (p_ctx s) = (Ok a, p_ctx s').

(** A call that leaves the tables alone. *)
Definition quiet {A} (p : PM A) : Prop := ∀ s a s', p s = (Ok a, s') → p_ctx s' = p_ctx s.

Lemma erases_bind {A B} (p : PM A) u (f : A → PM B) g :
  erases p u → (∀ a, erases (f a) (g a)) → erases (sbind p f) (sbind u g).
Proof.
  intros Hp Hf s b s'. unfold sbind at 1. destruct (p s) as [[a|e| |] s1] eqn:E; try done. intros Hb.
  rewrite (sbind_Ok _ _ _ _ _ (Hp _ _ _ E)). by apply Hf.
Qed.

Lemma erases_skip {A B} (q : PM A) (p : A → PM B) u : quiet q → (∀ a, erases (p a) u) → erases (sbind q p) u.
Proof.
  intros Hq Hp s b s'. unfold sbind. destruct (q s) as [[a|e| |] s1] eqn:E; try done. intros Hb.
  rewrite <- (Hq _ _ _ E). by apply (Hp a).
Qed.

(** A step with no effect after the last one that has some. *)
Lemma erases_then_quiet {A} (p : PM A) u (q : A → PM A) :
  erases p u → (∀ a, quiet (q a)) → (∀ a s b s', q a s = (Ok b, s') → b = a) → erases (sbind p q) u.
Proof.
  intros Hp Hq Hb s b s'. unfold sbind. destruct (p s) as [[a|e| |] s1] eqn:E; try done. intros Hqb.
  rewrite (Hb _ _ _ _ Hqb), (Hq _ _ _ _ Hqb). by apply Hp.
Qed.

Lemma erases_ret {A} (a : A) : erases (sret a) (sret a).
Proof. by intros s b s' [= <- <-]. Qed.
Lemma erases_err {A} e : @erases A (serr e) (serr e).
Proof. by intros s b s'. Qed.
Lemma erases_fuel {A} : @erases A (λ s, (OutOfFuel, s)) (λ c, (OutOfFuel, c)).
Proof. by intros s b s'. Qed.
Lemma erases_asks {A} (f : Ctx T → res A) : erases (asks (λ s, f (p_ctx s))) (asks f).
Proof. by intros s b s' [= Hf <-]; unfold asks; rewrite Hf. Qed.
Lemma erases_const {A} (r : res A) : erases (asks (λ _, r)) (asks (λ _, r)).
Proof. by intros s b s' [= -> <-]. Qed.
Lemma erases_on_ctx {A} (m : SM (Ctx T) A) : erases (on_ctx m) m.
Proof. intros s a s'. unfold on_ctx. destruct (m (p_ctx s)) as [r c]. by intros [= -> <-]. Qed.
Lemma erases_for_each {A} (l : list A) (f : A → PM unit) g :
  (∀ x, erases (f x) (g x)) → erases (for_each l f) (for_each l g).
Proof. intros Hf. induction l as [|x l IH]; cbn [for_each]; [apply erases_ret|]. by apply erases_bind. Qed.

Lemma quiet_bind {A B} (p : PM A) (f : A → PM B) : quiet p → (∀ a, quiet (f a)) → quiet (sbind p f).
Proof.
  intros Hp Hf s b s'. unfold sbind. destruct (p s) as [[a|e| |] s1] eqn:E; try done. intros Hb.
  rewrite (Hf _ _ _ _ Hb). by eapply Hp.
Qed.
Lemma quiet_ret {A} (a : A) : quiet (sret a).
Proof. by intros s b s' [= _ <-]. Qed.
Lemma quiet_err {A} e : @quiet A (serr e).
Proof. by intros s b s'. Qed.
Lemma quiet_asks {A} (f : PCtx T I → res A) : quiet (asks f).
Proof. by intros s b s' [= _ <-]. Qed.
Lemma quiet_fuel {A} : @quiet A (λ s, (OutOfFuel, s)).
Proof. by intros s b s'. Qed.
Lemma quiet_on_inodes {A} (m : SM I A) : quiet (on_inodes m).
Proof. intros s a s'. unfold on_inodes. destruct (m (p_inodes s)). by intros [= _ <-]. Qed.
Lemma quiet_invalidate k : quiet (invalidate_verified k).
Proof. by intros s b s' [= _ <-]. Qed.
Lemma quiet_for_each {A} (l : list A) (f : A → PM unit) : (∀ x, quiet (f x)) → quiet (for_each l f).
Proof. intros Hf. induction l as [|x l IH]; cbn [for_each]; [apply quiet_ret|]. by apply quiet_bind. Qed.

Hint Resolve erases_ret erases_err erases_fuel erases_asks erases_const erases_on_ctx
  quiet_ret quiet_err quiet_asks quiet_fuel quiet_on_inodes quiet_invalidate : erase.

(** ** Reads *)

Lemma quiet_verify k bs : quiet (verify_integrity table principal k bs).
Proof.
  unfold verify_integrity. destruct principal as [|pk|session]; auto with erase. intros s a s'. case_bool_decide; [by intros [= _ <-]|].
  refine (quiet_bind _ _ _ _ s a s'); [auto with erase|]. intros [[acl mac] sig]. apply quiet_bind; [auto with erase|]. intros tag.
  destruct mac as [m|]; [|auto with erase]. destruct (ct_eq m tag); [by intros ??? [= _ <-]|auto with erase].
Qed.

Lemma erases_read_verified k : erases (p_read_verified table principal k) (asks (read_verified k)).
Proof.
  intros s a s'. unfold p_read_verified, read_verified, asks. destruct (file_get _ k); [by intros [= <- <-]|].
  unfold sbind at 1, read_entry. destruct (kv_get (data (p_ctx s)) k) as [bs|]; [|by intros [= <- <-]].
  unfold sbind. destruct (verify_integrity _ _ k bs s) as [[[]|e| |] s1] eqn:Ev; try done. intros [= <- <-].
  by rewrite (quiet_verify k bs _ _ _ Ev).
Qed.

Lemma erases_with_entry {R} k (f : bytes → res R) : erases (p_with_entry table principal k f) (asks (with_entry k f)).
Proof.
  intros s a s'. unfold p_with_entry, with_entry, asks. destruct (file_get _ k) as [e|]; [by intros [= -> <-]|].
  destruct (kv_get (data (p_ctx s)) k) as [bs|]; [|by intros [= <- <-]].
  unfold sbind. destruct (verify_integrity _ _ k bs s) as [[[]|e| |] s1] eqn:Ev; try done. intros [= -> <-].
  by rewrite (quiet_verify k bs _ _ _ Ev).
Qed.

(** A read that goes on after [with_entry], purely. *)
Lemma erases_read {R A} k (f : bytes → res R) (d : option R → A) :
  erases (let! r := p_with_entry table principal k f in sret (d r)) (asks (λ c, let? r := with_entry k f c in Ok (d r))).
Proof.
  intros s a s'. unfold sbind. destruct (p_with_entry _ _ k f s) as [[r|e| |] s1] eqn:Er; try done. intros [= <- <-].
  apply erases_with_entry in Er. injection Er as Er1 Er2. unfold asks. by rewrite Er1, Er2.
Qed.

Lemma erases_child k n : erases (p_child table principal k n) (asks (child k n)).
Proof.
  intros s a s'. unfold p_child, child, asks. destruct (buffered_children k (p_ctx s)); [by intros [= <- <-]|]. apply erases_read.
Qed.

Lemma erases_kind k : erases (p_kind table principal k) (asks (kind k)).
Proof.
  intros s a s'. unfold p_kind, kind, asks. destruct (buffered_dir k (p_ctx s)); [by intros [= <- <-]|]. apply erases_with_entry.
Qed.

Lemma erases_dir_children k : erases (p_dir_children table principal k) (asks (dir_children k)).
Proof.
  intros s a s'. unfold p_dir_children, dir_children, asks. destruct (buffered_children k (p_ctx s)); [by intros [= <- <-]|]. apply erases_read.
Qed.

Lemma erases_cascade_children k : erases (p_cascade_children table principal k) (asks (cascade_children k)).
Proof.
  intros s a s'. unfold p_cascade_children, cascade_children, asks. destruct (buffered_children k (p_ctx s)); [by intros [= <- <-]|].
  apply erases_with_entry.
Qed.

(** What erases to a read is quiet. *)
Lemma erases_quiet {A} (p : PM A) f : erases p (asks f) → quiet p.
Proof. intros Hp s a s' Hs. apply Hp in Hs. by injection Hs as _ ->. Qed.

Lemma quiet_child k n : quiet (p_child table principal k n).
Proof. eapply erases_quiet, erases_child. Qed.
Lemma quiet_kind k : quiet (p_kind table principal k).
Proof. eapply erases_quiet, erases_kind. Qed.
Lemma quiet_dir_children k : quiet (p_dir_children table principal k).
Proof. eapply erases_quiet, erases_dir_children. Qed.
Lemma quiet_read_verified k : quiet (p_read_verified table principal k).
Proof. eapply erases_quiet, erases_read_verified. Qed.

Lemma quiet_check k n : quiet (check table principal k n).
Proof. unfold check, p_acl. apply quiet_bind; auto with erase. Qed.

Lemma quiet_check_deletable fuel : ∀ k, quiet (check_deletable table principal fuel k).
Proof.
  induction fuel as [|fuel IH]; intros k; cbn [check_deletable]; [auto with erase|].
  apply quiet_bind; [apply quiet_check|intros _]. apply quiet_bind; [apply quiet_kind|intros x].
  case_bool_decide; [|auto with erase]. apply quiet_bind; [apply quiet_dir_children|intros l]. by apply quiet_for_each.
Qed.

Hint Resolve erases_child erases_kind erases_dir_children erases_cascade_children erases_read_verified
  quiet_child quiet_kind quiet_dir_children quiet_read_verified quiet_check quiet_check_deletable : erase.

(** ** The walk, and the writes of the context *)

(** One step of a proof that an operation erases to its namesake: skip a quiet step of
    the left side, or match a step on both. *)
Ltac erase_step :=
  first
    [ solve [auto with erase]
    | apply erases_bind; [solve [auto with erase]|intros ?]
    | apply erases_skip; [solve [auto with erase]|intros ?] ].

Lemma erases_walk names : ∀ k, erases (p_resolve_from table principal k names) (asks (resolve_from k names)).
Proof.
  induction names as [|n names IH]; intros k; cbn [p_resolve_from resolve_from]; [auto with erase|].
  apply erases_skip; [auto with erase|intros _]. intros s a s'. unfold sbind.
  destruct (p_child _ _ k n s) as [[o|e| |] s1] eqn:E; try done. apply erases_child in E. injection E as E1 E2.
  intros Hs. unfold asks. rewrite E1, E2. cbn [rbind]. destruct o as [ch|]; [by apply IH in Hs|by injection Hs as <- <-].
Qed.

Lemma erases_resolve path : erases (p_resolve table principal path) (asks (resolve path)).
Proof. apply erases_walk. Qed.

Lemma erases_resolve_and_read path : erases (p_resolve_and_read table principal path) (asks (resolve_and_read path)).
Proof.
  intros s a s'. unfold p_resolve_and_read, sbind. destruct (p_resolve _ _ path s) as [[o|e| |] s1] eqn:E; try done.
  apply erases_resolve in E. injection E as E1 E2. intros Hs. unfold asks, resolve_and_read. rewrite E1, E2. cbn [rbind].
  destruct o as [k|]; [|by injection Hs as <- <-]. destruct (p_read_verified _ _ k s1) as [[x|e| |] s2] eqn:Er; try done.
  apply erases_read_verified in Er. injection Er as Er1 Er2. rewrite Er1, Er2. cbn [rbind]. by injection Hs as <- <-.
Qed.

(** A step whose effect on the inodes follows its effect on the tables. *)
Lemma erases_then_inodes (p : PM unit) u (q : PM unit) : erases p u → quiet q → erases (let! _ := p in q) u.
Proof.
  intros Hp Hq. apply erases_then_quiet; [done|by intros []|]. by intros [] s [] s' _.
Qed.

Lemma erases_put_entry k bs : erases (p_put_entry table now principal k bs) (put_entry k bs).
Proof.
  unfold p_put_entry. apply erases_then_inodes; [apply erases_on_ctx|]. apply quiet_bind; [auto with erase|intros _].
  destruct principal; auto with erase.
Qed.

Lemma erases_put_file_edit k bs : erases (p_put_file_edit table now principal k bs) (put_file_edit k bs).
Proof.
  intros s a s'. unfold p_put_file_edit, put_file_edit, p_buffering. destruct (ctx_buffering (p_ctx s)); [|apply erases_put_entry].
  intros Hs. apply (erases_skip _ _ (modify (set_wb (λ b, file_put b k bs)))) in Hs; [exact Hs|auto with erase|]. intros _. apply erases_on_ctx.
Qed.

Lemma erases_remove_entry k : erases (p_remove_entry table k) (remove_entry k).
Proof. by intros s a s' [= <- <-]. Qed.

Lemma erases_edit_buffered k f : erases (p_edit_buffered table principal k f) (edit_buffered k f).
Proof.
  unfold p_edit_buffered, edit_buffered. apply erases_bind; [|intros seed; apply erases_on_ctx].
  intros s a s'. unfold asks. destruct (buffered_dir k (p_ctx s)); [by intros [= <- <-]|]. unfold sbind.
  destruct (p_dir_children _ _ k s) as [[m|e| |] s1] eqn:E; try done. apply erases_dir_children in E. injection E as E1 E2.
  intros [= <- <-]. by rewrite E1, E2.
Qed.

Lemma quiet_stamp_new_dir_acl k : quiet (stamp_new_dir_acl table principal k).
Proof. unfold stamp_new_dir_acl. destruct principal; auto with erase. destruct (k =? ROOT); auto with erase. Qed.

Hint Resolve erases_resolve erases_resolve_and_read erases_put_entry erases_put_file_edit erases_remove_entry
  erases_edit_buffered quiet_stamp_new_dir_acl : erase.

(** ** The operations *)

Lemma erases_put_dir k m : erases (p_put_dir table now principal k m) (put_dir k m).
Proof.
  intros s a s'. unfold p_put_dir, put_dir, p_buffering. destruct (ctx_buffering (p_ctx s)); [|apply erases_put_entry].
  apply erases_skip; [auto with erase|intros _]. apply erases_on_ctx.
Qed.
Hint Resolve erases_put_dir : erase.

(** The shape of [link_child] and [unlink_child]. *)
Lemma erases_relink k (f : Children → Children) :
  erases (let! _ := p_bump_structure in
          λ s, if p_buffering s then p_edit_buffered table principal k f s
               else (let! m := p_dir_children table principal k in p_put_dir table now principal k (f m)) s)
    (let! _ := ctx_bump_structure in
     λ c, if ctx_buffering c then edit_buffered k f c else (let! m := asks (dir_children k) in put_dir k (f m)) c).
Proof.
  apply erases_bind; [apply erases_on_ctx|intros _]. intros s a s'. unfold p_buffering. destruct (ctx_buffering (p_ctx s)).
  - apply erases_edit_buffered.
  - apply erases_bind; auto with erase.
Qed.

Lemma erases_link_child k n ch : erases (p_link_child table now principal k n ch) (link_child k n ch).
Proof. apply (erases_relink k (λ m, bt_insert m n ch)). Qed.
Lemma erases_unlink_child k n : erases (p_unlink_child table now principal k n) (unlink_child k n).
Proof. apply (erases_relink k (λ m, bt_remove m n)). Qed.
Hint Resolve erases_link_child erases_unlink_child : erase.

Lemma erases_ensure_root : erases (p_ensure_root table now principal) ensure_root.
Proof.
  unfold p_ensure_root, ensure_root. apply erases_bind; [apply erases_asks|]. intros []; auto with erase.
Qed.

Lemma erases_ensure_dir_from names : ∀ k, erases (p_ensure_dir_from table now principal k names) (ensure_dir_from k names).
Proof.
  induction names as [|n names IH]; intros k; cbn [p_ensure_dir_from ensure_dir_from]; [auto with erase|].
  do 2 erase_step. match goal with o : option AKey |- _ => destruct o end.
  - erase_step. case_bool_decide; [apply IH|auto with erase].
  - do 4 erase_step. apply IH.
Qed.

Lemma erases_ensure_dir path : erases (p_ensure_dir table now principal path) (ensure_dir path).
Proof. apply erases_bind; [apply erases_ensure_root|intros _]. apply erases_ensure_dir_from. Qed.

Lemma erases_cascade_delete fuel : ∀ k, erases (p_cascade_delete table principal fuel k) (cascade_delete fuel k).
Proof.
  induction fuel as [|fuel IH]; intros k; cbn [p_cascade_delete cascade_delete]; [auto with erase|].
  erase_step. match goal with o : option (list AKey) |- _ => destruct o end; [|auto with erase].
  apply erases_bind; [by apply erases_for_each|auto with erase].
Qed.
Hint Resolve erases_ensure_dir erases_cascade_delete : erase.

Lemma erases_store_under fuel parent n bs :
  erases (p_store_under table now principal fuel parent n bs) (store_under fuel parent n bs).
Proof.
  unfold p_store_under, store_under. do 2 erase_step. apply erases_bind; [|intros ?; auto with erase].
  match goal with o : option AKey |- _ => destruct o end; repeat erase_step.
  case_bool_decide; repeat erase_step.
Qed.

Lemma erases_store_blob_into fuel path bs :
  erases (p_store_blob_into table now principal fuel path bs) (store_blob_into fuel path bs).
Proof.
  apply erases_bind; [apply erases_on_ctx|intros [pp n]]. erase_step. apply erases_store_under.
Qed.

Lemma erases_put_scalar_into fuel path at_path v :
  erases (p_put_scalar_into table now principal fuel path at_path v) (put_scalar_into fuel path None at_path v).
Proof.
  unfold p_put_scalar_into, put_scalar_into, resolve_target. apply erases_bind; [auto with erase|intros [[k|] [bs|]]];
    try apply erases_store_blob_into. apply erases_skip; [auto with erase|intros _].
  apply erases_bind; [apply erases_const|intros [[] bs']]; [auto with erase|].
  apply erases_bind; [apply erases_const|intros [[] payload]]; [auto with erase|].
  apply erases_bind; [apply erases_const|intros x]. auto with erase.
Qed.

Lemma erases_rm_into fuel path : erases (p_rm_into table now principal fuel path) (rm_into fuel path).
Proof.
  apply erases_bind; [apply erases_on_ctx|intros [pp n]]. erase_step.
  match goal with o : option AKey |- _ => destruct o end; [|auto with erase]. do 2 erase_step.
  match goal with o : option AKey |- _ => destruct o end; [|auto with erase]. repeat erase_step.
Qed.

Lemma erases_clear fuel existing :
  erases (p_clear table principal fuel existing) (match existing with Some k => cascade_delete fuel k | None => sret tt end).
Proof. unfold p_clear. destruct existing; repeat erase_step. Qed.

Lemma erases_mv_into fuel src dst : erases (p_mv_into table now principal fuel src dst) (mv_into fuel src dst).
Proof.
  apply erases_bind; [apply erases_on_ctx|intros [sp sn]]. apply erases_bind; [apply erases_on_ctx|intros [dp dn]].
  erase_step. match goal with o : option AKey |- _ => destruct o end; [|auto with erase]. do 2 erase_step.
  match goal with o : option AKey |- _ => destruct o end; [|auto with erase]. do 4 erase_step.
  apply erases_bind; [apply erases_clear|intros ?]. repeat erase_step.
Qed.

Lemma erases_copy_children p u l : (∀ k, erases (p k) (u k)) → ∀ copied,
  erases (p_copy_children p l copied) (copy_children u l copied).
Proof.
  intros Hp. induction l as [|[n ch] l IH]; intros copied; cbn [p_copy_children copy_children]; [auto with erase|].
  by apply erases_bind.
Qed.

Lemma erases_deep_copy fuel : ∀ k, erases (p_deep_copy table now principal fuel k) (deep_copy fuel k).
Proof.
  induction fuel as [|fuel IH]; intros k; cbn [p_deep_copy deep_copy]; [auto with erase|].
  do 4 erase_step. match goal with x : EntryKind |- _ => destruct x end; [|repeat erase_step].
  erase_step. apply erases_bind; [by apply erases_copy_children|intros ?]. repeat erase_step.
Qed.

Lemma erases_cp_into fuel src dst : erases (p_cp_into table now principal fuel src dst) (cp_into fuel src dst).
Proof.
  apply erases_bind; [apply erases_on_ctx|intros [dp dn]]. erase_step.
  match goal with o : option AKey |- _ => destruct o end; [|auto with erase]. do 3 erase_step.
  apply erases_bind; [apply erases_clear|intros ?]. apply erases_bind; [apply erases_deep_copy|intros ?]. auto with erase.
Qed.

Lemma erases_flush_buffered ds fs : erases (p_flush_buffered table now principal ds fs) (flush_buffered ds fs).
Proof. apply erases_bind; [|intros _]; apply erases_for_each; intros x; auto with erase. Qed.

Lemma quiet_acl_target path : quiet (acl_target table principal path).
Proof.
  unfold acl_target. apply quiet_bind; [eapply erases_quiet, erases_resolve|intros o]. apply quiet_bind; [auto with erase|intros k].
  destruct (k =? ROOT); [auto with erase|]. apply quiet_bind; [auto with erase|intros _].
  unfold p_acl. apply quiet_bind; [auto with erase|intros a]. apply quiet_bind; auto with erase.
Qed.

Lemma quiet_reseal k : quiet (reseal_integrity table principal k).
Proof.
  unfold reseal_integrity. destruct principal; auto with erase. apply quiet_bind; [auto with erase|intros [bs|]]; [|auto with erase].
  unfold p_acl. repeat (apply quiet_bind; [auto with erase|intros ?]). auto with erase.
Qed.

Lemma quiet_write_acl k a : quiet (write_acl table k a).
Proof. apply quiet_bind; auto with erase. Qed.

(** C9: With permissions on, every mutation that succeeds does to the tables exactly
    what the build without permissions does: from the same data table, write-back cache
    and key generator it gives the same answer and leaves them the same (a scalar write
    as if through no cursor hint), and a change of owner or of access-control list
    leaves them untouched.  So permissions only turn successes into failures, and every
    specification of the plain operations carries over. *)
Theorem protected_erasure fuel order_dirs order_files :
  (∀ path v, erases (p_store_value_at table now principal fuel path v) (store_value_at fuel path v)) ∧
  (∀ path at_path v, erases (p_put_scalar_at table now principal fuel path at_path v) (put_scalar_at fuel path None at_path v)) ∧
  (∀ path, erases (p_mkdir table now principal path) (mkdir path)) ∧
  (∀ path, erases (p_rm table now principal fuel path) (rm fuel path)) ∧
  (∀ src dst, erases (p_mv table now principal fuel src dst) (mv fuel src dst)) ∧
  (∀ src dst, erases (p_cp table now principal fuel src dst) (cp fuel src dst)) ∧
  (∀ path uid, quiet (chown_into table principal path uid)) ∧
  (∀ path f, quiet (set_acl_into table principal path f)) ∧
  erases (p_commit_flush table now principal order_dirs order_files) (commit_flush order_dirs order_files).
Proof.
  split_and!.
  - intros path v. unfold p_store_value_at, store_value_at. destruct (is_root path); [auto with erase|apply erases_store_blob_into].
  - intros path at_path v. apply erases_put_scalar_into.
  - intros path. unfold p_mkdir, mkdir. repeat erase_step.
  - intros path. unfold p_rm, rm. destruct (is_root path); [auto with erase|apply erases_rm_into].
  - intros src dst. unfold p_mv, mv. destruct (names_start_with dst src), (is_root src), (is_root dst); auto with erase. apply erases_mv_into.
  - intros src dst. unfold p_cp, cp. destruct (names_start_with dst src), (is_root dst); auto with erase. apply erases_cp_into.
  - intros path uid. apply quiet_bind; [apply quiet_acl_target|intros [k a]]. apply quiet_bind; [auto with erase|intros _].
    apply quiet_bind; [apply quiet_write_acl|intros _]. apply quiet_reseal.
  - intros path f. apply quiet_bind; [apply quiet_acl_target|intros [k a]]. apply quiet_bind; [auto with erase|intros _].
    apply quiet_bind; [apply quiet_write_acl|intros _]. apply quiet_reseal.
  - intros s a s'. unfold p_commit_flush, commit_flush, wb_take. destruct (negb _ || negb _); [|by intros [= <- <-]].
    apply erases_flush_buffered.
Qed.
End erase.
