(* ===== verification/ProtectedGuard.v ===== *)
(** * Every protected mutation was permitted

    What the checks of [Protected] amount to: when a mutation succeeds, the policy of
    [Acl] ([permitted]) allowed it on every a-node it changes, at the lists the
    operation found. *)
From S2P Require Import Prelude BTree Codec Ext Scalar Path Value Archived Key Dir Engine Acl Integrity Inode WriteBuffer Ctx Fs Tree Grab Write Protected ProtectedErase.

(** The a-nodes of the subtree of [k]. *)
Inductive below (v : AKey → option node) : AKey → AKey → Prop :=
| below_here k : below v k k
| below_child k m n ch j : v k = Some (NDir m) → (n, ch) ∈ m → below v ch j → below v k j.

Lemma sbind_inv {S A B} (m : SM S A) (f : A → SM S B) s b s' :
  sbind m f s = (Ok b, s') → ∃ a s1, m s = (Ok a, s1) ∧ f a s1 = (Ok b, s').
Proof. unfold sbind. destruct (m s) as [[a|e| |] s1]; try done. intros E. by exists a, s1. Qed.

Section guard.
Context `{Ext} `{Crypto} {T : Type} `{KV T Z bytes} {I : Type} `{OrdKV I}.
Context (table : bytes) (now : Z) (principal : Principal).
Abbreviation PM := (SM (PCtx T I)) (only parsing).
Implicit Types (s : PCtx T I) (k : AKey).

(** The policy allows the grade [n] on [k], by the list [k] has in [s]. *)
Definition may (s : PCtx T I) (k : AKey) (n : Rights) : Prop :=
  ∃ acl, read_acl table k (p_inodes s) = Ok acl ∧ permitted principal k acl n.

(** The same tables and inodes: only the memo may differ. *)
Definition unmoved s s' : Prop := p_ctx s' = p_ctx s ∧ p_inodes s' = p_inodes s.

(** A call that never does more, whatever it answers. *)
Definition reading {A} (p : PM A) : Prop := ∀ s r s', p s = (r, s') → unmoved s s'.

Lemma unmoved_refl s : unmoved s s.
Proof. done. Qed.
Lemma unmoved_trans s1 s2 s3 : unmoved s1 s2 → unmoved s2 s3 → unmoved s1 s3.
Proof. intros [] []. split; congruence. Qed.
Lemma may_same s s' k n : unmoved s s' → may s' k n → may s k n.
Proof. intros [_ E]. unfold may. by rewrite E. Qed.

Lemma reading_bind {A B} (p : PM A) (f : A → PM B) : reading p → (∀ a, reading (f a)) → reading (sbind p f).
Proof.
  intros Hp Hf s b s'. unfold sbind. destruct (p s) as [[a|e| |] s1] eqn:E; intros Hb; try (injection Hb as _ <-; by eapply Hp).
  eapply unmoved_trans; [by eapply Hp|by eapply Hf].
Qed.
Lemma reading_ret {A} (a : A) : reading (sret a).
Proof. by intros s b s' [= _ <-]. Qed.
Lemma reading_err {A} e : @reading A (serr e).
Proof. by intros s b s' [= _ <-]. Qed.
Lemma reading_fuel {A} : @reading A (λ s, (OutOfFuel, s)).
Proof. by intros s b s' [= _ <-]. Qed.
Lemma reading_asks {A} (f : PCtx T I → res A) : reading (asks f).
Proof. by intros s b s' [= _ <-]. Qed.
Lemma reading_for_each {A} (l : list A) (f : A → PM unit) : (∀ x, reading (f x)) → reading (for_each l f).
Proof. intros Hf. induction l as [|x l IH]; cbn [for_each]; [apply reading_ret|]. by apply reading_bind. Qed.

Hint Resolve reading_ret reading_err reading_fuel reading_asks unmoved_refl : reading.

Lemma reading_verify k bs : reading (verify_integrity table principal k bs).
Proof.
  unfold verify_integrity. destruct principal as [|pk|session]; auto with reading. intros s a s'. case_bool_decide; [by intros [= _ <-]|].
  refine (reading_bind _ _ _ _ s a s'); [auto with reading|]. intros [[acl mac] sig]. apply reading_bind; [auto with reading|]. intros tag.
  destruct mac as [m|]; [|auto with reading]. destruct (ct_eq m tag); [by intros ??? [= _ <-]|auto with reading].
Qed.

Lemma reading_with_entry {R} k (f : bytes → res R) : reading (p_with_entry table principal k f).
Proof.
  intros s a s'. unfold p_with_entry. destruct (file_get _ k); [by intros [= _ <-]|].
  destruct (kv_get (data (p_ctx s)) k) as [bs|]; [|by intros [= _ <-]].
  refine (reading_bind _ _ _ _ s a s'); [apply reading_verify|auto with reading].
Qed.

Lemma reading_child k n : reading (p_child table principal k n).
Proof.
  intros s a s'. unfold p_child. destruct (buffered_children k (p_ctx s)); [by intros [= _ <-]|].
  refine (reading_bind _ _ _ _ s a s'); [apply reading_with_entry|auto with reading].
Qed.
Lemma reading_kind k : reading (p_kind table principal k).
Proof. intros s a s'. unfold p_kind. destruct (buffered_dir k (p_ctx s)); [by intros [= _ <-]|apply reading_with_entry]. Qed.
Lemma reading_dir_children k : reading (p_dir_children table principal k).
Proof.
  intros s a s'. unfold p_dir_children. destruct (buffered_children k (p_ctx s)); [by intros [= _ <-]|].
  refine (reading_bind _ _ _ _ s a s'); [apply reading_with_entry|auto with reading].
Qed.
Lemma reading_read_verified k : reading (p_read_verified table principal k).
Proof.
  intros s a s'. unfold p_read_verified. destruct (file_get _ k); [by intros [= _ <-]|].
  refine (reading_bind _ _ _ _ s a s'); [auto with reading|]. intros [bs|]; [|auto with reading].
  apply reading_bind; [apply reading_verify|auto with reading].
Qed.

Lemma reading_cascade_children k : reading (p_cascade_children table principal k).
Proof.
  intros s a s'. unfold p_cascade_children. destruct (buffered_children k (p_ctx s)); [by intros [= _ <-]|apply reading_with_entry].
Qed.
Lemma reading_check k n : reading (check table principal k n).
Proof. unfold check, p_acl. apply reading_bind; auto with reading. Qed.
Lemma reading_check_deletable fuel : ∀ k, reading (check_deletable table principal fuel k).
Proof.
  induction fuel as [|fuel IH]; intros k; cbn [check_deletable]; [auto with reading|].
  apply reading_bind; [apply reading_check|intros _]. apply reading_bind; [apply reading_kind|intros x].
  case_bool_decide; [|auto with reading]. apply reading_bind; [apply reading_dir_children|intros l]. by apply reading_for_each.
Qed.

(** ** What a read answers, and what a check grants *)

Section inversion.
Context `{!KVLaws T Z bytes}.

Lemma child_inv s k n o s' : ctx_ok (p_ctx s) → p_child table principal k n s = (Ok o, s') →
  unmoved s s' ∧ o = match view (p_ctx s) k with Some (NDir m) => bt_get m n | _ => None end.
Proof.
  intros Hc E. split; [by eapply reading_child|]. apply erases_child in E. injection E as E _.
  rewrite child_spec in E by done. by injection E as <-.
Qed.

Lemma kind_inv s k o s' : ctx_ok (p_ctx s) → p_kind table principal k s = (Ok o, s') →
  unmoved s s' ∧ o = node_entry_kind <$> view (p_ctx s) k.
Proof.
  intros Hc E. split; [by eapply reading_kind|]. apply erases_kind in E. injection E as E _.
  rewrite kind_spec in E by done. by injection E as <-.
Qed.

Lemma dir_children_inv s k m s' : ctx_ok (p_ctx s) → p_dir_children table principal k s = (Ok m, s') →
  unmoved s s' ∧ match view (p_ctx s) k with Some (NDir m') => m = m' | Some (NFile _) => False | None => m = [] end.
Proof.
  intros Hc E. split; [by eapply reading_dir_children|]. apply erases_dir_children in E. injection E as E _.
  rewrite dir_children_spec in E by done. destruct (view (p_ctx s) k) as [[m'|]|]; [by injection E as <-|done|by injection E as <-].
Qed.

Lemma check_inv s k n s' : check table principal k n s = (Ok tt, s') → s' = s ∧ may s k n.
Proof.
  intros (acl & s1 & E1 & E2)%sbind_inv. unfold p_acl, asks in E1, E2. cbn beta in E2. injection E1 as E1 <-. injection E2 as E2 <-. split; [done|]. exists acl. split; [done|].
  destruct (authorize_decides principal k acl n) as [[_ ?]|[E _]]; [done|congruence].
Qed.

Lemma for_each_inv {A} (f : A → PM unit) (Q : PCtx T I → A → Prop) l :
  (∀ x s s', ctx_ok (p_ctx s) → f x s = (Ok tt, s') → unmoved s s' ∧ Q s x) → (∀ x s s', unmoved s s' → Q s' x → Q s x) →
  ∀ s s', ctx_ok (p_ctx s) → for_each l f s = (Ok tt, s') → unmoved s s' ∧ ∀ x, x ∈ l → Q s x.
Proof.
  intros Hf HQ. induction l as [|x l IH]; cbn [for_each]; intros s s' Hc.
  { intros [= <-]. split; [done|]. by intros x ?%elem_of_nil. }
  intros ([] & s1 & E1 & E2)%sbind_inv. destruct (Hf _ _ _ Hc E1) as [Hs Hx].
  destruct (IH s1 s') as [Hs' Hl]; [by destruct Hs as [-> _]|done|]. split; [by eapply unmoved_trans|].
  intros y [->|Hy]%elem_of_cons; [done|]. by eapply HQ; [|apply Hl].
Qed.

Lemma check_deletable_inv fuel : ∀ k s s', ctx_ok (p_ctx s) → check_deletable table principal fuel k s = (Ok tt, s') →
  unmoved s s' ∧ ∀ j, below (view (p_ctx s)) k j → may s j RDelete.
Proof.
  induction fuel as [|fuel IH]; intros k s s' Hc; cbn [check_deletable]; [done|].
  intros ([] & s1 & [-> Hk]%check_inv & (o & s2 & E2 & E3)%sbind_inv)%sbind_inv.
  destruct (kind_inv _ _ _ _ Hc E2) as [Hs2 ->]. destruct (view (p_ctx s) k) as [x|] eqn:Ev.
  2: { injection E3 as <-. split; [done|]. intros j Hj. inversion Hj; subst; [done|congruence]. }
  cbn [fmap option_fmap option_map] in E3. destruct x as [m|b]; cbn [node_entry_kind] in E3.
  2: { injection E3 as <-. split; [done|]. intros j Hj. inversion Hj; subst; [done|congruence]. }
  rewrite bool_decide_true in E3 by done. apply sbind_inv in E3 as (l & s3 & E3 & E4).
  assert (ctx_ok (p_ctx s2)) as Hc2 by (by destruct Hs2 as [-> _]).
  destruct (dir_children_inv _ _ _ _ Hc2 E3) as [Hs3 Hl]. rewrite (proj1 Hs2), Ev in Hl. subst l.
  assert (ctx_ok (p_ctx s3)) as Hc3 by (by destruct Hs3 as [-> _]).
  destruct (for_each_inv _ (λ s ch, ∀ j, below (view (p_ctx s)) ch j → may s j RDelete) (m.*2)
    (λ ch s s', IH ch s s')) with s3 s' as [Hs4 Hall]; [|done|done|].
  { intros ch t t' Ht Hq j Hj. apply (may_same t t'); [done|]. apply Hq. by destruct Ht as [-> _]. }
  pose proof (unmoved_trans _ _ _ Hs2 Hs3) as Hs. split; [by eapply unmoved_trans|].
  intros j Hj. inversion Hj as [|? m' n ch ? Hv Hin Hb]; subst; [done|]. assert (m' = m) as -> by congruence.
  apply (may_same s s3); [done|]. apply (Hall ch).
  - apply list_elem_of_fmap. by exists (n, ch).
  - by destruct Hs as [-> _].
Qed.

Lemma ctx_ok_same s s' : unmoved s s' → ctx_ok (p_ctx s) → ctx_ok (p_ctx s').
Proof. by intros [-> _]. Qed.

(** Every directory walked through grants access. *)
Definition walked s k (path : APath) : Prop :=
  ∀ p1 n p2 d, path = p1 ++ n :: p2 → vresolve (view (p_ctx s)) k p1 = Some d → may s d RAccess.

Lemma walked_cons s k n path : may s k RAccess →
  (∀ m ch, view (p_ctx s) k = Some (NDir m) → bt_get m n = Some ch → walked s ch path) → walked s k (n :: path).
Proof.
  intros Hk Hch p1 n' p2 d E Hd. destruct p1 as [|n1 p1]; cbn [app vresolve] in *; [by injection Hd as <-|].
  injection E as <- ->. destruct (view (p_ctx s) k) as [[m|]|] eqn:Ev; [|done..].
  destruct (bt_get m n) as [ch|] eqn:Eg; [|done]. by apply (Hch m ch eq_refl Eg p1 n' p2).
Qed.

Lemma walked_same s s' k path : unmoved s s' → walked s' k path → walked s k path.
Proof. intros Hs Hw p1 n p2 d E Hd. apply (may_same s s'); [done|]. apply (Hw p1 n p2 d E). by destruct Hs as [-> _]. Qed.

Lemma walk_inv path : ∀ k s o s', ctx_ok (p_ctx s) → p_resolve_from table principal k path s = (Ok o, s') →
  unmoved s s' ∧ o = vresolve (view (p_ctx s)) k path ∧ walked s k path.
Proof.
  induction path as [|n path IH]; intros k s o s' Hc; cbn [p_resolve_from vresolve].
  { intros [= <- <-]. split_and!; [done|done|]. intros p1 n p2 d E. by destruct p1. }
  intros ([] & s1 & [-> Hk]%check_inv & (x & s2 & E2 & E3)%sbind_inv)%sbind_inv.
  destruct (child_inv _ _ _ _ _ Hc E2) as [Hs2 ->]. pose proof (ctx_ok_same _ _ Hs2 Hc) as Hc2.
  destruct (view (p_ctx s) k) as [[m|b]|] eqn:Ev.
  - destruct (bt_get m n) as [ch|] eqn:Eg.
    + destruct (IH ch s2 o s' Hc2 E3) as (Hs3 & -> & Hw). split_and!; [by eapply unmoved_trans|by destruct Hs2 as [-> _]|].
      apply walked_cons; [done|]. intros m' ch' E1 E4. assert (ch' = ch) as -> by congruence. by apply (walked_same s s2).
    + injection E3 as <- <-. split_and!; [done|done|]. apply walked_cons; [done|]. intros m' ch' E1 E4. congruence.
  - injection E3 as <- <-. split_and!; [done|done|]. apply walked_cons; [done|]. intros m' ch' E1 E4. congruence.
  - injection E3 as <- <-. split_and!; [done|done|]. apply walked_cons; [done|]. intros m' ch' E1 E4. congruence.
Qed.

(** The directories a walk finds; the first that lacks the next name must be modifiable. *)
Definition extended s k (path : APath) : Prop :=
  ∀ p1 n p2 d m, path = p1 ++ n :: p2 → vresolve (view (p_ctx s)) k p1 = Some d → view (p_ctx s) d = Some (NDir m) →
    bt_get m n = None → may s d RModify.

Lemma extended_same s s' k path : unmoved s s' → extended s' k path → extended s k path.
Proof.
  intros Hs He p1 n p2 d m E Hd Hm Hn. apply (may_same s s'); [done|]. apply (He p1 n p2 d m E); [by destruct Hs as [-> _]..|done].
Qed.

Lemma ensure_dir_inv path : ∀ k s p s', ctx_ok (p_ctx s) → p_ensure_dir_from table now principal k path s = (Ok p, s') →
  walked s k path ∧ extended s k path ∧ (∀ q, vresolve (view (p_ctx s)) k path = Some q → unmoved s s' ∧ p = q).
Proof.
  induction path as [|n path IH]; intros k s p s' Hc; cbn [p_ensure_dir_from vresolve].
  { intros [= <- <-]. split_and!; [intros p1 n p2 d E; by destruct p1|intros p1 n p2 d m E; by destruct p1|].
    by intros q [= <-]. }
  intros ([] & s1 & [-> Hk]%check_inv & (x & s2 & E2 & E3)%sbind_inv)%sbind_inv.
  destruct (child_inv _ _ _ _ _ Hc E2) as [Hs2 Ex]. pose proof (ctx_ok_same _ _ Hs2 Hc) as Hc2.
  destruct x as [ch|].
  - destruct (view (p_ctx s) k) as [[m|b]|] eqn:Ev; [|done..]. symmetry in Ex.
    apply sbind_inv in E3 as (kd & s3 & E3 & E4). destruct (kind_inv _ _ _ _ Hc2 E3) as [Hs3 _].
    case_bool_decide; [|done]. pose proof (unmoved_trans _ _ _ Hs2 Hs3) as Hs.
    destruct (IH ch s3 p s' (ctx_ok_same _ _ Hs Hc) E4) as (Hw & He & Hq). split_and!.
    + apply walked_cons; [done|]. intros m' ch' E1 E5. assert (ch' = ch) as -> by congruence. by apply (walked_same s s3).
    + intros p1 n' p2 d m' E Hd Hm' Hn. destruct p1 as [|n1 p1]; cbn [app vresolve] in *.
      * injection E as <- _. injection Hd as <-. congruence.
      * injection E as <- ->. rewrite Ev, Ex in Hd. by apply (extended_same s s3 ch _ Hs He p1 n' p2 d m').
    + intros q Hv. rewrite Ex in Hv. destruct (Hq q) as [Hs' ->]; [by destruct Hs as [-> _]|]. split; [by eapply unmoved_trans|done].
  - apply sbind_inv in E3 as ([] & s3 & [-> Hmod]%check_inv & _). split_and!.
    + apply walked_cons; [done|]. intros m ch E1 E4. by rewrite E1, E4 in Ex.
    + intros p1 n' p2 d m E Hd Hm Hn. destruct p1 as [|n1 p1]; cbn [app vresolve] in *.
      * injection Hd as <-. by apply (may_same s s2).
      * injection E as <- ->. destruct (view (p_ctx s) k) as [[m'|]|]; [|done..]. by rewrite <- Ex in Hd.
    + intros q Hv. destruct (view (p_ctx s) k) as [[m|]|]; [|done..]. by rewrite <- Ex in Hv.
Qed.

Lemma ensure_inv path s p s' : ctx_ok (p_ctx s) → is_Some (view (p_ctx s) ROOT) →
  p_ensure_dir table now principal path s = (Ok p, s') →
  walked s ROOT path ∧ extended s ROOT path ∧ (∀ q, vresolve (view (p_ctx s)) ROOT path = Some q → unmoved s s' ∧ p = q).
Proof.
  intros Hc Hr ([] & s1 & E1 & E2)%sbind_inv. unfold p_ensure_root, p_has_entry in E1.
  rewrite (sbind_asks _ _ _ true) in E1 by (rewrite has_entry_spec by done; by rewrite bool_decide_true).
  injection E1 as <-. by apply ensure_dir_inv in E2.
Qed.

Lemma split_inv path x s s' : p_split_last path s = (Ok x, s') → s' = s ∧ APath_split_last path = Some x.
Proof.
  unfold p_split_last, on_ctx, split_last_or_panic, asks. destruct (APath_split_last path); [|done].
  intros [= <- <-]. by destruct s.
Qed.

Lemma vresolve_snoc v path n : ∀ k,
  vresolve v k (path ++ [n]) = match vresolve v k path with
                               | Some d => match v d with Some (NDir m) => bt_get m n | _ => None end
                               | None => None end.
Proof.
  induction path as [|n' path IH]; intros k; cbn [app vresolve].
  - destruct (v k) as [[m|]|]; [|done..]. by destruct (bt_get m n).
  - destruct (v k) as [[m|]|]; [|done..]. destruct (bt_get m n'); [apply IH|done].
Qed.

Lemma walked_snoc s k path n : walked s k path → (∀ d, vresolve (view (p_ctx s)) k path = Some d → may s d RAccess) →
  walked s k (path ++ [n]).
Proof.
  intros Hw Hl p1 n' p2 d E Hd. destruct p2 as [|n2 p2 _] using rev_ind.
  - apply app_inj_tail in E as [-> ->]. by apply Hl.
  - rewrite app_comm_cons, app_assoc in E. apply app_inj_tail in E as [-> ->]. by apply (Hw p1 n' p2 d).
Qed.

(** The destination of a store, a move or a copy: directory [d], name [n]. *)
Definition may_clear s d (m : Children) (n : bytes) : Prop :=
  may s d RModify ∧ ∀ ch, bt_get m n = Some ch → ∀ j, below (view (p_ctx s)) ch j → may s j RDelete.

Lemma clear_inv fuel o s s' : ctx_ok (p_ctx s) → p_clear table principal fuel o s = (Ok tt, s') →
  ∀ ch, o = Some ch → ∀ j, below (view (p_ctx s)) ch j → may s j RDelete.
Proof.
  intros Hc E ch -> . apply sbind_inv in E as ([] & s1 & E1 & _). by apply check_deletable_inv in E1 as [_ Hj].
Qed.

(** The last steps of a move and of a copy, once the destination directory is there. *)
Lemma dst_inv {A} fuel path n (rest : AKey → PM A) s a s' : ctx_ok (p_ctx s) → is_Some (view (p_ctx s) ROOT) →
  (let! d := p_ensure_dir table now principal path in
   let! _ := check table principal d RModify in
   let! existing := p_child table principal d n in
   let! _ := p_clear table principal fuel existing in rest d) s = (Ok a, s') →
  walked s ROOT path ∧ extended s ROOT path ∧
  ∀ d m, vresolve (view (p_ctx s)) ROOT path = Some d → view (p_ctx s) d = Some (NDir m) → may_clear s d m n.
Proof.
  intros Hc Hr (d & s1 & E1 & E2)%sbind_inv. destruct (ensure_inv _ _ _ _ Hc Hr E1) as (Hw & He & Hq).
  split_and!; [done..|]. intros d' m Hd Hm. destruct (Hq d' Hd) as [Hs1 ->].
  pose proof (ctx_ok_same _ _ Hs1 Hc) as Hc1.
  apply sbind_inv in E2 as ([] & s2 & [-> Hmod]%check_inv & (o & s3 & E3 & ([] & s4 & E4 & _)%sbind_inv)%sbind_inv).
  destruct (child_inv _ _ _ _ _ Hc1 E3) as [Hs3 Ho]. rewrite (proj1 Hs1), Hm in Ho.
  pose proof (unmoved_trans _ _ _ Hs1 Hs3) as Hs. split; [by apply (may_same s s1)|].
  intros ch Hch j Hj. apply (may_same s s3); [done|].
  apply (clear_inv fuel o s3 s4 (ctx_ok_same _ _ Hs Hc) E4 ch); [by rewrite Ho|]. by destruct Hs as [-> _].
Qed.

Lemma store_inv fuel path n bs s s' : ctx_ok (p_ctx s) → is_Some (view (p_ctx s) ROOT) →
  p_store_blob_into table now principal fuel (path ++ [n]) bs s = (Ok tt, s') →
  walked s ROOT path ∧ extended s ROOT path ∧
  ∀ d m, vresolve (view (p_ctx s)) ROOT path = Some d → view (p_ctx s) d = Some (NDir m) →
    may s d RAccess ∧
    match bt_get m n with
    | Some k => match view (p_ctx s) k with Some (NFile _) => may s k RModify | _ => may_clear s d m n end
    | None => may s d RModify
    end.
Proof.
  intros Hc Hr (x & s0 & [-> Ex]%split_inv & E)%sbind_inv. rewrite APath_split_last_snoc in Ex. injection Ex as <-.
  apply sbind_inv in E as (d & s1 & E1 & E2). destruct (ensure_inv _ _ _ _ Hc Hr E1) as (Hw & He & Hq).
  split_and!; [done..|]. intros d' m Hd Hm. destruct (Hq d' Hd) as [Hs1 ->].
  pose proof (ctx_ok_same _ _ Hs1 Hc) as Hc1.
  apply sbind_inv in E2 as ([] & s2 & [-> Hacc]%check_inv & (o & s3 & E3 & (k' & s4 & E4 & _)%sbind_inv)%sbind_inv).
  destruct (child_inv _ _ _ _ _ Hc1 E3) as [Hs3 Ho]. rewrite (proj1 Hs1), Hm in Ho. subst o.
  pose proof (unmoved_trans _ _ _ Hs1 Hs3) as Hs. pose proof (ctx_ok_same _ _ Hs Hc) as Hc3.
  split; [by apply (may_same s s1)|]. destruct (bt_get m n) as [k|] eqn:Eg.
  - apply sbind_inv in E4 as (kd & s5 & E5 & E6). destruct (kind_inv _ _ _ _ Hc3 E5) as [Hs5 ->].
    rewrite (proj1 Hs) in E6. pose proof (unmoved_trans _ _ _ Hs Hs5) as Hs'.
    destruct (view (p_ctx s) k) as [[mk|b]|] eqn:Evk; cbn [fmap option_fmap option_map node_entry_kind] in E6.
    2: { rewrite bool_decide_true in E6 by done. apply sbind_inv in E6 as ([] & s6 & [-> Hmay]%check_inv & _). by apply (may_same s s5). }
    all: rewrite bool_decide_false in E6 by done;
      apply sbind_inv in E6 as ([] & s6 & E6 & ([] & s7 & [-> Hmod]%check_inv & _)%sbind_inv);
      destruct (check_deletable_inv fuel k s5 s6 (ctx_ok_same _ _ Hs' Hc) E6) as [Hs6 Hdel];
      (split; [apply (may_same s s6); [by eapply unmoved_trans|done]|]);
      intros ch Hch j Hj; assert (ch = k) as -> by congruence;
      apply (may_same s s5); [done|]; apply Hdel; by destruct Hs' as [-> _].
  - apply sbind_inv in E4 as ([] & s5 & [-> Hmod]%check_inv & _). by apply (may_same s s3).
Qed.

Lemma acl_target_inv path s k a s' : ctx_ok (p_ctx s) → acl_target table principal path s = (Ok (k, a), s') →
  unmoved s s' ∧ walked s ROOT path ∧ vresolve (view (p_ctx s)) ROOT path = Some k ∧ k ≠ ROOT ∧
  read_acl table k (p_inodes s) = Ok (Some a).
Proof.
  intros Hc (o & s1 & E1 & E2)%sbind_inv. destruct (walk_inv _ _ _ _ _ Hc E1) as (Hs1 & -> & Hw).
  destruct (vresolve (view (p_ctx s)) ROOT path) as [k'|]; [|done]. apply sbind_inv in E2 as (k2 & s2 & E2 & E3).
  injection E2 as <- <-. destruct (Z.eqb_spec k' ROOT); [done|].
  apply sbind_inv in E3 as (e & s3 & E3 & E4). apply reading_read_verified in E3 as Hs3.
  apply sbind_inv in E4 as (x & s4 & E4 & E5). unfold p_acl, asks in E4. injection E4 as Ex <-.
  destruct x as [a'|]; [|done]. apply sbind_inv in E5 as (a2 & s5 & E5 & E6). injection E5 as <- <-.
  injection E6 as <- <- <-. pose proof (unmoved_trans _ _ _ Hs1 Hs3) as Hs. split_and!; try done. by rewrite <- (proj2 Hs).
Qed.

Lemma put_scalar_inv fuel path at_path x s s' k b : ctx_ok (p_ctx s) →
  p_put_scalar_into table now principal fuel path at_path x s = (Ok tt, s') →
  vresolve (view (p_ctx s)) ROOT path = Some k → view (p_ctx s) k = Some (NFile b) → walked s ROOT path ∧ may s k RModify.
Proof.
  intros Hc ([o e] & s1 & E1 & E2)%sbind_inv Hk Hb. apply sbind_inv in E1 as (o' & s2 & E3 & E4).
  destruct (walk_inv _ _ _ _ _ Hc E3) as (Hs2 & Ho & Hw). split; [done|]. rewrite Hk in Ho. subst o'.
  apply sbind_inv in E4 as (e' & s3 & E5 & E6). injection E6 as <- <- <-. pose proof (reading_read_verified _ _ _ _ E5) as Hs3.
  apply erases_read_verified in E5. injection E5 as E5 _.
  rewrite (proj1 Hs2), (read_verified_file _ _ _ Hc Hb) in E5. injection E5 as <-.
  apply sbind_inv in E2 as ([] & s4 & [-> Hm]%check_inv & _). apply (may_same s s3); [by eapply unmoved_trans|done].
Qed.

Lemma rm_inv fuel path s s' : ctx_ok (p_ctx s) → p_rm_into table now principal fuel path s = (Ok true, s') →
  walked s ROOT path ∧ ∃ k, vresolve (view (p_ctx s)) ROOT path = Some k ∧ ∀ j, below (view (p_ctx s)) k j → may s j RDelete.
Proof.
  intros Hc ([pp n] & s0 & [-> Ex%APath_split_last_Some]%split_inv & E)%sbind_inv. subst path.
  apply sbind_inv in E as (o & s1 & E1 & E2). destruct (walk_inv _ _ _ _ _ Hc E1) as (Hs1 & -> & Hw).
  rewrite vresolve_snoc. destruct (vresolve (view (p_ctx s)) ROOT pp) as [d|] eqn:Ed; [|done].
  apply sbind_inv in E2 as ([] & s2 & [-> Hacc]%check_inv & (o & s3 & E3 & E4)%sbind_inv).
  destruct (child_inv _ _ _ _ _ (ctx_ok_same _ _ Hs1 Hc) E3) as [Hs3 ->]. rewrite (proj1 Hs1) in E4.
  split; [apply walked_snoc; [done|]; intros d' Hd'; assert (d' = d) as -> by congruence; by apply (may_same s s1)|].
  destruct (match view (p_ctx s) d with Some (NDir m) => bt_get m n | _ => None end) as [k|]; [|done].
  exists k. split; [done|]. apply sbind_inv in E4 as ([] & s4 & E4 & _). pose proof (unmoved_trans _ _ _ Hs1 Hs3) as Hs.
  destruct (check_deletable_inv fuel k s3 s4 (ctx_ok_same _ _ Hs Hc) E4) as [_ Hdel]. intros j Hj.
  apply (may_same s s3); [done|]. apply Hdel. by destruct Hs as [-> _].
Qed.

Lemma mv_inv fuel src path n s s' : ctx_ok (p_ctx s) → is_Some (view (p_ctx s) ROOT) →
  p_mv_into table now principal fuel src (path ++ [n]) s = (Ok tt, s') →
  walked s ROOT src ∧ (∃ k, vresolve (view (p_ctx s)) ROOT src = Some k ∧ may s k RDelete) ∧
  walked s ROOT path ∧ extended s ROOT path ∧
  ∀ d m, vresolve (view (p_ctx s)) ROOT path = Some d → view (p_ctx s) d = Some (NDir m) → may_clear s d m n.
Proof.
  intros Hc Hr ([sp sn] & s0 & [-> Ex%APath_split_last_Some]%split_inv & E)%sbind_inv. subst src.
  apply sbind_inv in E as (x & s0 & [-> Ex]%split_inv & E). rewrite APath_split_last_snoc in Ex. injection Ex as <-.
  apply sbind_inv in E as (o & s1 & E1 & E2). destruct (walk_inv _ _ _ _ _ Hc E1) as (Hs1 & -> & Hw).
  rewrite vresolve_snoc. destruct (vresolve (view (p_ctx s)) ROOT sp) as [d|] eqn:Ed; [|done].
  apply sbind_inv in E2 as ([] & s2 & [-> Hacc]%check_inv & (o & s3 & E3 & E4)%sbind_inv).
  destruct (child_inv _ _ _ _ _ (ctx_ok_same _ _ Hs1 Hc) E3) as [Hs3 ->]. rewrite (proj1 Hs1) in E4.
  split; [apply walked_snoc; [done|]; intros d' Hd'; assert (d' = d) as -> by congruence; by apply (may_same s s1)|].
  destruct (match view (p_ctx s) d with Some (NDir m) => bt_get m sn | _ => None end) as [k|]; [|done].
  pose proof (unmoved_trans _ _ _ Hs1 Hs3) as Hs. apply sbind_inv in E4 as ([] & s4 & [-> Hdel]%check_inv & E5).
  split; [exists k; split; [done|by apply (may_same s s3)]|].
  destruct (dst_inv fuel path n (λ d', let! _ := p_link_child table now principal d' n k in p_unlink_child table now principal d sn)
    s3 tt s' (ctx_ok_same _ _ Hs Hc)) as (Hw2 & He & Hm); [by destruct Hs as [-> _]|exact E5|].
  split_and!; [by apply (walked_same s s3)|by apply (extended_same s s3)|].
  intros d' m Hd' Hm'. rewrite <- (proj1 Hs) in Hd', Hm'. destruct (Hm d' m Hd' Hm') as [Ha Hb].
  split; [by apply (may_same s s3)|]. intros ch Hch j Hj. apply (may_same s s3); [done|].
  apply (Hb ch Hch). by destruct Hs as [-> _].
Qed.

Lemma cp_inv fuel src path n s s' : ctx_ok (p_ctx s) → is_Some (view (p_ctx s) ROOT) →
  p_cp_into table now principal fuel src (path ++ [n]) s = (Ok tt, s') →
  walked s ROOT src ∧ is_Some (vresolve (view (p_ctx s)) ROOT src) ∧ walked s ROOT path ∧ extended s ROOT path ∧
  ∀ d m, vresolve (view (p_ctx s)) ROOT path = Some d → view (p_ctx s) d = Some (NDir m) → may_clear s d m n.
Proof.
  intros Hc Hr (x & s0 & [-> Ex]%split_inv & E)%sbind_inv. rewrite APath_split_last_snoc in Ex. injection Ex as <-.
  apply sbind_inv in E as (o & s1 & E1 & E2). destruct (walk_inv _ _ _ _ _ Hc E1) as (Hs & -> & Hw).
  split; [done|]. destruct (vresolve (view (p_ctx s)) ROOT src) as [k|]; [|done]. split; [done|].
  destruct (dst_inv fuel path n (λ d', let! copy := p_deep_copy table now principal fuel k in p_link_child table now principal d' n copy)
    s1 tt s' (ctx_ok_same _ _ Hs Hc)) as (Hw2 & He & Hm); [by destruct Hs as [-> _]|exact E2|].
  split_and!; [by apply (walked_same s s1)|by apply (extended_same s s1)|].
  intros d' m Hd' Hm'. rewrite <- (proj1 Hs) in Hd', Hm'. destruct (Hm d' m Hd' Hm') as [Ha Hb].
  split; [by apply (may_same s s1)|]. intros ch Hch j Hj. apply (may_same s s1); [done|].
  apply (Hb ch Hch). by destruct Hs as [-> _].
Qed.

(** C7: Every protected mutation that succeeds was permitted, at the lists it found.
    Each directory it walks through grants access.  A removal had the delete grade on
    the removed node and on everything below it; a scalar write and a replaced file had
    the modify grade on the file, a new name the modify grade on its directory; a
    directory is created only under one that grants modification; a move had the delete
    grade on the node moved, and a move or copy the modify grade on the destination
    directory and the delete grade on everything it replaces there; a list is changed
    only under the modify grade it grants itself, an owner only by the owner or an
    administrator, and never the root's. *)
Theorem access_mediated fuel s s' :
  ctx_ok (p_ctx s) → is_Some (view (p_ctx s) ROOT) → let v := view (p_ctx s) in
  (∀ path, p_rm table now principal fuel path s = (Ok true, s') →
     walked s ROOT path ∧ ∃ k, vresolve v ROOT path = Some k ∧ ∀ j, below v k j → may s j RDelete) ∧
  (∀ path at_path x k b, p_put_scalar_at table now principal fuel path at_path x s = (Ok tt, s') →
     vresolve v ROOT path = Some k → v k = Some (NFile b) → walked s ROOT path ∧ may s k RModify) ∧
  (∀ path, p_mkdir table now principal path s = (Ok tt, s') → walked s ROOT path ∧ extended s ROOT path) ∧
  (∀ path n value, p_store_value_at table now principal fuel (path ++ [n]) value s = (Ok tt, s') →
     walked s ROOT path ∧ extended s ROOT path ∧
     ∀ d m, vresolve v ROOT path = Some d → v d = Some (NDir m) → may s d RAccess ∧
       match bt_get m n with
       | Some k => match v k with Some (NFile _) => may s k RModify | _ => may_clear s d m n end
       | None => may s d RModify
       end) ∧
  (∀ src path n, p_mv table now principal fuel src (path ++ [n]) s = (Ok tt, s') →
     walked s ROOT src ∧ (∃ k, vresolve v ROOT src = Some k ∧ may s k RDelete) ∧ walked s ROOT path ∧ extended s ROOT path ∧
     ∀ d m, vresolve v ROOT path = Some d → v d = Some (NDir m) → may_clear s d m n) ∧
  (∀ src path n, p_cp table now principal fuel src (path ++ [n]) s = (Ok tt, s') →
     walked s ROOT src ∧ is_Some (vresolve v ROOT src) ∧ walked s ROOT path ∧ extended s ROOT path ∧
     ∀ d m, vresolve v ROOT path = Some d → v d = Some (NDir m) → may_clear s d m n) ∧
  (∀ path uid, chown_into table principal path uid s = (Ok tt, s') →
     walked s ROOT path ∧ ∃ k a, vresolve v ROOT path = Some k ∧ k ≠ ROOT ∧
       read_acl table k (p_inodes s) = Ok (Some a) ∧ authorize_chown principal a = Ok tt) ∧
  (∀ path f, set_acl_into table principal path f s = (Ok tt, s') →
     walked s ROOT path ∧ ∃ k a, vresolve v ROOT path = Some k ∧ k ≠ ROOT ∧
       read_acl table k (p_inodes s) = Ok (Some a) ∧ permitted principal k (Some a) RModify).
Proof.
  intros Hc Hr v. split_and!.
  - intros path. unfold p_rm. destruct (is_root path); [done|]. by apply rm_inv.
  - intros path at_path x k b. by apply put_scalar_inv.
  - intros path (d & s1 & E & _)%sbind_inv. by destruct (ensure_inv _ _ _ _ Hc Hr E) as (? & ? & _).
  - intros path n value. unfold p_store_value_at. destruct (is_root _); [done|]. by apply store_inv.
  - intros src path n. unfold p_mv. do 3 (case_match; [done|]). by apply mv_inv.
  - intros src path n. unfold p_cp. do 2 (case_match; [done|]). by apply cp_inv.
  - intros path uid ([k a] & s1 & E1 & ([] & s2 & E2 & _)%sbind_inv)%sbind_inv.
    destruct (acl_target_inv _ _ _ _ _ Hc E1) as (_ & Hw & Hv & Hk & Ha). split; [done|]. exists k, a.
    injection E2 as E2 _. done.
  - intros path f ([k a] & s1 & E1 & ([] & s2 & E2 & _)%sbind_inv)%sbind_inv.
    destruct (acl_target_inv _ _ _ _ _ Hc E1) as (_ & Hw & Hv & Hk & Ha). split; [done|]. exists k, a.
    unfold asks in E2. injection E2 as E2 _. split_and!; try done.
    destruct (authorize_decides principal k (Some a) RModify) as [[_ ?]|[E _]]; [done|congruence].
Qed.
End inversion.
End guard.
