(* ===== verification/ProtectedSeal.v ===== *)
(** * Integrity tags kept and checked

    [sealed_store]: every entry the engine holds, and the transaction has not replaced
    in its buffers, carries both tags over its bytes and its list.  Every write keeps
    that, so a commit leaves everything sealed; and a read lets no entry pass that is
    not the one its tag was made for. *)
From S2P Require Import Prelude BTree Codec Ext Scalar Path Value Archived Key Dir Engine Acl Integrity Inode PermStore PermSpec PermAuth WriteBuffer Ctx Fs Tree Grab Write Protected ProtectedErase ProtectedGuard.

Lemma akey_ok_root : akey_ok ROOT.
Proof. by split. Qed.

Lemma minus_cover (X : gset Z) k : X ⊆ X ∖ {[k]} ∪ {[k]}.
Proof. intros j Hj. destruct (decide (j = k)); set_solver. Qed.
Lemma cover_self (X : gset Z) k : X ⊆ X ∪ {[k]}.
Proof. set_solver. Qed.
Lemma minus_out (X : gset Z) k j : j ∉ X → j ∉ X ∖ {[k]}.
Proof. set_solver. Qed.

Section seal.
Context `{Ext} `{Crypto} `{!CryptoLaws} {T : Type} `{KV T Z bytes} `{!KVLaws T Z bytes} {I : Type} `{OrdKV I} `{!OrdKVLaws I}.
Context (table : bytes) (now : Z) (session : Session).
Hypothesis Htable : blen table < 2 ^ 32.
Hypothesis Hnow : signed_ok 64 now.
Hypothesis Hkey : blen (s_key session) = KEY_LEN.
Hypothesis Huid : unsigned_ok 32 (s_uid session).
Abbreviation principal := (User session).
Abbreviation pubkey := (public_key (s_sign_seed session)).
Implicit Types (s : PCtx T I) (m : Inodes) (k : AKey).

Definition entry_sealed m k (e : bytes) : Prop :=
  ∃ x, m !! (table, k) = Some x ∧ sealed_entry (s_key session) pubkey table k e x.

(** The a-nodes of [X] may be unsealed. *)
Definition sealed_but (X : gset Z) s m : Prop :=
  holds_inodes (p_inodes s) m ∧ wb_ok (wb (p_ctx s)) ∧
  ∀ k e, akey_ok k → k ∉ X → kv_get (data (p_ctx s)) k = Some e →
    dirs (wb (p_ctx s)) !! k = None → files (wb (p_ctx s)) !! k = None → entry_sealed m k e.

Definition sealed_store (X : gset Z) s : Prop := ∃ m, sealed_but X s m.

Lemma key_in_table k : akey_ok k → key_ok (table, k).
Proof using Htable. by split. Qed.

Lemma acl_bytes_eq x : acl_bytes_or_empty (acl x) = acl_bytes_of x.
Proof. unfold acl_bytes_or_empty, acl_bytes_of. by destruct (acl x). Qed.

Lemma mac_ok k e a : mac_value (s_key session) table k e a = Ok (blake3_keyed (s_key session) (absorb_value table k e a)).
Proof using Hkey. by apply keyed_Ok. Qed.

Lemma tag_len k e a : blen (blake3_keyed (s_key session) (absorb_value table k e a)) = MAC_LEN.
Proof. apply blake3_keyed_len. Qed.

(** Fresh tags make a sealed entry. *)
Lemma fresh_seal k e x a tag : mac_value (s_key session) table k e a = Ok tag → a = acl_bytes_of x →
  mac x = Some tag → sig x = Some (sign_value (s_sign_seed session) table k e a) →
  sealed_entry (s_key session) pubkey table k e x.
Proof. intros Hm -> Hx Hs. exists tag, (sign_value (s_sign_seed session) table k e (acl_bytes_of x)). split_and!; try done. apply sign_verifies. Qed.

(** ** Writes *)

(** A step that changes one a-node: its entry, its inode and its place in the buffers. *)
Lemma sealed_change X s m k s' m' : sealed_but X s m → akey_ok k →
  holds_inodes (p_inodes s') m' → wb_ok (wb (p_ctx s')) →
  (∀ j, j ≠ k → m' !! (table, j) = m !! (table, j)) →
  (∀ j, j ≠ k → kv_get (data (p_ctx s')) j = kv_get (data (p_ctx s)) j) →
  (∀ j, j ≠ k → dirs (wb (p_ctx s')) !! j = dirs (wb (p_ctx s)) !! j) →
  (∀ j, j ≠ k → files (wb (p_ctx s')) !! j = files (wb (p_ctx s)) !! j) →
  ∀ Y, X ⊆ Y ∪ {[k]} →
  (k ∉ Y → ∀ e, kv_get (data (p_ctx s')) k = Some e → dirs (wb (p_ctx s')) !! k = None → files (wb (p_ctx s')) !! k = None →
   entry_sealed m' k e) →
  sealed_but Y s' m'.
Proof.
  intros (Hh & Hw & Hs) Hk Hh' Hw' Hm Hd Hdi Hf Y HX Hnew. split_and!; [done..|].
  intros j e Hj HjY Hg Hdj Hfj. destruct (decide (j = k)) as [->|Hne]; [by apply Hnew|].
  rewrite Hd in Hg by done. rewrite Hdi in Hdj by done. rewrite Hf in Hfj by done.
  unfold entry_sealed. rewrite Hm by done. apply Hs; try done. intros HjX%HX. apply elem_of_union in HjX as [?|?%elem_of_singleton]; done.
Qed.

Lemma put_entry_sealed X s k e : sealed_store X s → akey_ok k →
  ∃ s', p_put_entry table now principal k e s = (Ok tt, s') ∧ sealed_store (X ∖ {[k]}) s' ∧
    p_ctx s' = (put_entry k e (p_ctx s)).2.
Proof using All.
  intros (m & Hs) Hk. pose proof Hs as (Hh & Hw & _).
  set (owner := if k =? ROOT then None else Some (s_uid session)).
  set (x := default default_inode (m !! (table, k))).
  set (tag := blake3_keyed (s_key session) (absorb_value table k e (sealed_acl now owner x))).
  set (sg := sign_value (s_sign_seed session) table k e (sealed_acl now owner x)).
  destruct (stamp_and_seal_lemma (p_inodes s) m (table, k) now owner (seal_entry table session k e) tag sg Hh) as (i' & Ei & Hi).
  - by apply key_in_table.
  - done.
  - unfold owner. by destruct (k =? ROOT).
  - unfold seal_entry. by rewrite mac_ok.
  - apply tag_len.
  - apply sign_value_len.
  - cbn [fst snd] in Ei. destruct (file_forget_spec (wb (p_ctx s)) k Hw) as (Hw' & Hdi & Hfi & _).
    eexists. split; [unfold p_put_entry, sbind, on_ctx, put_entry, invalidate_verified, modify, on_inodes; cbn [p_inodes p_ctx p_verified]; fold owner; by rewrite Ei|].
    split; [|done]. exists (<[(table, k) := seal_inode now owner tag sg x]> m).
    eapply (sealed_change X s m k); try done.
    + intros j Hj. rewrite lookup_insert_ne; [done|congruence].
    + intros j Hj. cbn. by rewrite kv_get_insert, decide_False.
    + intros j Hj. cbn. by rewrite Hdi.
    + intros j Hj. cbn. by rewrite Hfi, lookup_delete_ne.
    + apply minus_cover.
    + intros _ e'. cbn. rewrite kv_get_insert, decide_True by done. intros [= <-] _ _.
      exists (seal_inode now owner tag sg x). rewrite lookup_insert_eq. split; [done|].
      apply (fresh_seal k e _ (sealed_acl now owner x) tag); [apply mac_ok| |done|done].
      unfold sealed_acl, seal_inode, acl_bytes_of. cbn [acl set_sig set_mac]. by rewrite stamped_acl.
Qed.

Lemma remove_entry_sealed X s k : sealed_store X s → akey_ok k →
  ∃ s', p_remove_entry table k s = (Ok tt, s') ∧ sealed_store (X ∖ {[k]}) s'.
Proof using All.
  intros (m & Hs) Hk. pose proof Hs as (Hh & Hw & _). destruct (forget_spec (wb (p_ctx s)) k Hw) as (Hw' & Hdi & Hfi & _).
  eexists. split; [done|]. exists (delete (table, k) m). eapply (sealed_change X s m k); try done.
  - cbn. by apply (holds_remove (p_inodes s) m (table, k)), key_in_table.
  - intros j Hj. rewrite lookup_delete_ne; [done|congruence].
  - intros j Hj. cbn. by rewrite kv_get_remove, decide_False.
  - intros j Hj. cbn. by rewrite Hdi, lookup_delete_ne.
  - intros j Hj. cbn. by rewrite Hfi, lookup_delete_ne.
  - apply minus_cover.
  - intros _ e'. cbn. by rewrite kv_get_remove, decide_True.
Qed.

(** A step on the buffers alone, at one a-node that is buffered afterwards. *)
Lemma buffered_sealed X s k w v : sealed_store X s → akey_ok k → wb_ok w →
  (∀ j, j ≠ k → dirs w !! j = dirs (wb (p_ctx s)) !! j) → (∀ j, j ≠ k → files w !! j = files (wb (p_ctx s)) !! j) →
  (is_Some (dirs w !! k) ∨ is_Some (files w !! k)) →
  sealed_store X (mkPCtx (mkCtx (data (p_ctx s)) w (rng (p_ctx s))) (p_inodes s) v).
Proof.
  intros (m & Hs) Hk Hw Hd Hf Hb. exists m. pose proof Hs as (Hh & _). eapply (sealed_change X s m k); try done; [apply cover_self|].
  intros _ e _ Hdk Hfk. cbn in Hdk, Hfk. destruct Hb as [[? ?]|[? ?]]; congruence.
Qed.

Lemma put_file_edit_sealed X s k e : sealed_store X s → akey_ok k →
  ∃ s', p_put_file_edit table now principal k e s = (Ok tt, s') ∧ sealed_store X s'.
Proof using All.
  intros Hs Hk. unfold p_put_file_edit, p_buffering. destruct (ctx_buffering (p_ctx s)) eqn:Eb.
  - eexists. split; [done|]. apply (buffered_sealed X s k (file_put (wb (p_ctx s)) k e)); try done.
    + destruct Hs as (m & _ & (Hd & Hf & Hb) & _). split_and!; [done|done|]. unfold ctx_buffering, active in Eb. cbn. by rewrite Eb.
    + intros j Hj. cbn. by rewrite lookup_insert_ne.
    + right. cbn. rewrite lookup_insert_eq. by eexists.
  - destruct (put_entry_sealed X s k e Hs Hk) as (s' & E & (m & Hh & Hw & Hs') & _). exists s'. split; [done|]. exists m. split_and!; try done.
    intros j e' Hj HjX. apply Hs'; [done|by apply minus_out].
Qed.

Lemma buffer_dir_sealed X s k ch v : sealed_store X s → akey_ok k → buffering (wb (p_ctx s)) = true →
  sealed_store X (mkPCtx (set_wb (λ b, wb_write b (λ d, <[k := ch]> d)) (p_ctx s)) (p_inodes s) v).
Proof.
  intros Hs Hk Eb. apply (buffered_sealed X s k (wb_write (wb (p_ctx s)) (λ d, <[k := ch]> d))); try done.
  - destruct Hs as (m & _ & (Hd & Hf & Hb) & _). split_and!; [done|done|]. cbn. by rewrite Eb.
  - intros j Hj. cbn. by rewrite lookup_insert_ne.
  - left. cbn. rewrite lookup_insert_eq. by eexists.
Qed.

Lemma put_dir_sealed X s k ch : sealed_store X s → akey_ok k →
  ∃ s', p_put_dir table now principal k ch s = (Ok tt, s') ∧ sealed_store X s'.
Proof using All.
  intros Hs Hk. unfold p_put_dir, p_buffering. destruct (ctx_buffering (p_ctx s)) eqn:Eb.
  - unfold stamp_new_dir_acl. destruct (Z.eqb_spec k ROOT) as [->|Hne].
    { eexists. split; [done|]. by apply buffer_dir_sealed. }
    pose proof Hs as (m & Hm). pose proof Hm as (Hh & Hw & _).
    destruct (set_default_acl_lemma (p_inodes s) m (table, k) (s_uid session) Hh) as (i' & E & Hi); [by apply key_in_table|done|].
    cbn [fst snd] in E. eexists. split; [unfold sbind at 1, on_inodes; by rewrite E|].
    assert (∃ m', holds_inodes i' m' ∧ ∀ j, j ≠ k → m' !! (table, j) = m !! (table, j)) as (m' & Hi' & Hm').
    { destruct (m !! (table, k)); eexists; (split; [exact Hi|]); intros j Hj; rewrite lookup_insert_ne; done || congruence. }
    exists m'. destruct Hw as (Hd & Hf & Hb). eapply (sealed_change X s m k); try done; [| |apply cover_self|].
    + split_and!; [done|done|]. cbn. unfold ctx_buffering, active in Eb. by rewrite Eb.
    + intros j Hj. cbn. by rewrite lookup_insert_ne.
    + intros _ e _ Hdk. cbn in Hdk. by rewrite lookup_insert_eq in Hdk.
  - destruct (put_entry_sealed X s k (dir_entry (encode_dir ch)) Hs Hk) as (s' & E & (m & Hh & Hw & Hs') & _).
    exists s'. split; [done|]. exists m. split_and!; try done. intros j e' Hj HjX. apply Hs'; [done|by apply minus_out].
Qed.

(** ** A change of list reseals the entry *)

Lemma set_section i m k f x : holds_inodes i m → akey_ok k → default default_inode (m !! (table, k)) = x → inode_ok (f x) →
  ∃ i', (let! inode := asks (load_inode (inode_key table k)) in
         modify (λ i, kv_insert i (inode_key table k) (inode_encode (f inode)))) i = (Ok tt, i') ∧
    holds_inodes i' (<[(table, k) := f x]> m).
Proof using Htable OrdKVLaws0. intros Hh Hk <- Hf. by apply (holds_update i m (table, k) f Hh (key_in_table k Hk)). Qed.

Lemma reseal_sealed X s m k : holds_inodes (p_inodes s) m → wb_ok (wb (p_ctx s)) → akey_ok k → is_Some (m !! (table, k)) →
  (∀ j e, akey_ok j → j ≠ k → j ∉ X → kv_get (data (p_ctx s)) j = Some e →
    dirs (wb (p_ctx s)) !! j = None → files (wb (p_ctx s)) !! j = None → entry_sealed m j e) →
  ∃ s', reseal_integrity table principal k s = (Ok tt, s') ∧ sealed_store X s' ∧ p_ctx s' = p_ctx s.
Proof using All.
  intros Hh Hw Hk [x Hx] Hothers. unfold reseal_integrity.
  set (found := match files (wb (p_ctx s)) !! k with Some b => Some b | None => kv_get (data (p_ctx s)) k end).
  rewrite (sbind_asks _ _ _ found) by (unfold found, read_entry; rewrite file_get_spec by done; by destruct (files (wb (p_ctx s)) !! k)).
  destruct found as [e|] eqn:Ef.
  2: { exists s. split_and!; [done| |done]. exists m. split_and!; [done..|]. intros j e Hj HjX Hg Hd Hf.
       destruct (decide (j = k)) as [->|Hne]; [|by apply Hothers]. unfold found in Ef. rewrite Hf in Ef. congruence. }
  pose proof (holds_read_acl (p_inodes s) m (table, k) Hh (key_in_table k Hk)) as Ha. cbn [fst snd] in Ha. rewrite Hx in Ha.
  unfold p_acl. rewrite (sbind_asks _ _ _ (acl x)) by exact Ha. rewrite acl_bytes_eq.
  set (tag := blake3_keyed (s_key session) (absorb_value table k e (acl_bytes_of x))).
  set (sg := sign_value (s_sign_seed session) table k e (acl_bytes_of x)).
  rewrite (sbind_asks _ _ _ tag) by apply mac_ok.
  pose proof (holds_ok (p_inodes s) m (table, k) Hh) as Hok. rewrite Hx in Hok. cbn [default from_option id] in Hok.
  destruct (set_section (p_inodes s) m k (set_mac tag) x Hh Hk) as (i1 & E1 & H1'); [by rewrite Hx|destruct Hok; split; try done; apply tag_len|].
  destruct (set_section i1 _ k (set_sig sg) (set_mac tag x) H1' Hk) as (i2 & E2 & H2').
  { by rewrite lookup_insert_eq. }
  { destruct Hok; split; try done; cbn; [apply tag_len|apply sign_value_len]. }
  rewrite insert_insert_eq in H2'.
  eexists. split; [unfold sbind at 1, on_inodes at 1, seal_mac; rewrite E1; unfold on_inodes, seal_sig; cbn [p_inodes p_ctx p_verified]; by rewrite E2|].
  split; [|done]. exists (<[(table, k) := set_sig sg (set_mac tag x)]> m). split_and!; [done..|].
  intros j e' Hj HjX Hg Hd Hf. cbn in Hg, Hd, Hf. destruct (decide (j = k)) as [->|Hne].
  - exists (set_sig sg (set_mac tag x)). rewrite lookup_insert_eq. split; [done|]. unfold found in Ef. rewrite Hf in Ef.
    assert (e' = e) as -> by congruence. by apply (fresh_seal k e _ (acl_bytes_of x) tag); [apply mac_ok|..].
  - destruct (Hothers j e' Hj Hne HjX Hg Hd Hf) as (y & Hy & Hs). exists y. rewrite lookup_insert_ne; [done|congruence].
Qed.

Lemma write_acl_sealed X s k a : sealed_store X s → akey_ok k → acl_ok a →
  ∃ s', (let! _ := write_acl table k a in reseal_integrity table principal k) s = (Ok tt, s') ∧ sealed_store X s' ∧ p_ctx s' = p_ctx s.
Proof using All.
  intros (m & Hh & Hw & Hs) Hk Ha. pose proof (holds_ok (p_inodes s) m (table, k) Hh) as Hok.
  destruct (set_section (p_inodes s) m k (inode_set_acl a) _ Hh Hk eq_refl) as (i1 & E1 & H1'); [by destruct Hok|].
  set (s1 := mkPCtx (p_ctx s) i1 (p_verified s ∖ {[k]})).
  assert (write_acl table k a s = (Ok tt, s1)) as E.
  { unfold write_acl, sbind, invalidate_verified, modify, on_inodes, set_acl. cbn [p_inodes p_ctx p_verified]. by rewrite E1. }
  rewrite (sbind_Ok _ _ _ _ _ E). destruct (reseal_sealed X s1 _ k H1' Hw Hk) as (s' & E' & Hs' & Hc).
  - rewrite lookup_insert_eq. by eexists.
  - intros j e Hj Hne HjX Hg Hd Hf. destruct (Hs j e Hj HjX Hg Hd Hf) as (y & Hy & Hsy). exists y.
    rewrite lookup_insert_ne; [done|congruence].
  - by exists s'.
Qed.

(** ** A sealed store reads as a plain one *)

Lemma sealed_same X s s' : unmoved s s' → sealed_store X s → sealed_store X s'.
Proof. intros [E1 E2] (m & Hm). exists m. unfold sealed_but in *. by rewrite E1, E2. Qed.

Lemma verify_sealed s m k e : holds_inodes (p_inodes s) m → akey_ok k → entry_sealed m k e →
  ∃ s', verify_integrity table principal k e s = (Ok tt, s') ∧ unmoved s s'.
Proof using Htable Hkey OrdKVLaws0.
  intros Hh Hk (x & Hx & tag & sg & Hm & Ht & _). unfold verify_integrity. case_bool_decide; [by exists s|].
  assert (read_meta table k (p_inodes s) = Ok ((acl x, mac x), sig x)) as Er.
  { pose proof (holds_get (p_inodes s) m (table, k) Hh (key_in_table k Hk)) as Hg. rewrite Hx in Hg. cbn [fst snd] in Hg.
    destruct Hg as (_ & bs & Hb & Hd). unfold read_meta, decode_meta. by rewrite Hb, Hd. }
  rewrite (sbind_asks (λ s, read_meta table k (p_inodes s)) _ _ _ Er). rewrite acl_bytes_eq.
  rewrite (sbind_asks (λ _, mac_value (s_key session) table k e (acl_bytes_of x)) _ _ _ Ht). rewrite Hm.
  rewrite ct_eq_spec, bool_decide_true by done. by eexists.
Qed.

Lemma with_entry_sealed {R} s k (f : bytes → res R) : sealed_store ∅ s → akey_ok k → dirs (wb (p_ctx s)) !! k = None →
  ∃ s', p_with_entry table principal k f s = (with_entry k f (p_ctx s), s') ∧ unmoved s s'.
Proof using Htable Hkey OrdKVLaws0.
  intros (m & Hh & Hw & Hs) Hk Hd. unfold p_with_entry, with_entry. rewrite file_get_spec by done.
  destruct (files (wb (p_ctx s)) !! k) as [e|] eqn:Ef; [by exists s|].
  destruct (kv_get (data (p_ctx s)) k) as [e|] eqn:Eg; [|by exists s].
  destruct (verify_sealed s m k e Hh Hk) as (s' & E & Hsame); [apply Hs; try done; set_solver|].
  exists s'. split; [|done]. rewrite (sbind_Ok _ _ _ _ _ E). done.
Qed.

Lemma read_verified_sealed s k : sealed_store ∅ s → akey_ok k → dirs (wb (p_ctx s)) !! k = None →
  ∃ s', p_read_verified table principal k s = (read_verified k (p_ctx s), s') ∧ unmoved s s'.
Proof using Htable Hkey OrdKVLaws0.
  intros (m & Hh & Hw & Hs) Hk Hd. unfold p_read_verified, read_verified. rewrite file_get_spec by done.
  destruct (files (wb (p_ctx s)) !! k) as [e|] eqn:Ef; [by exists s|]. unfold read_entry.
  destruct (kv_get (data (p_ctx s)) k) as [e|] eqn:Eg.
  2: { rewrite (sbind_asks _ _ _ None) by (by rewrite Eg). by exists s. }
  rewrite (sbind_asks _ _ _ (Some e)) by (by rewrite Eg).
  destruct (verify_sealed s m k e Hh Hk) as (s' & E & Hsame); [apply Hs; try done; set_solver|].
  exists s'. split; [|done]. by rewrite (sbind_Ok _ _ _ _ _ E).
Qed.

(** A read that looks at the buffered directories first. *)
Lemma unbuffered s k : wb_ok (wb (p_ctx s)) →
  buffered_children k (p_ctx s) = dirs (wb (p_ctx s)) !! k ∧ buffered_dir k (p_ctx s) = bool_decide (is_Some (dirs (wb (p_ctx s)) !! k)).
Proof.
  intros Hw. assert (buffered_children k (p_ctx s) = dirs (wb (p_ctx s)) !! k) as E by (by apply gated_dirs).
  split; [done|]. rewrite <- E. unfold buffered_dir, buffered_children, wb_read. by destruct (dirty (wb (p_ctx s))).
Qed.

Lemma reads_sealed s k : sealed_store ∅ s → akey_ok k →
  (∀ n, ∃ s', p_child table principal k n s = (child k n (p_ctx s), s') ∧ unmoved s s') ∧
  (∃ s', p_kind table principal k s = (kind k (p_ctx s), s') ∧ unmoved s s') ∧
  (∃ s', p_dir_children table principal k s = (dir_children k (p_ctx s), s') ∧ unmoved s s') ∧
  (∃ s', p_cascade_children table principal k s = (cascade_children k (p_ctx s), s') ∧ unmoved s s').
Proof using Htable Hkey OrdKVLaws0.
  intros Hs Hk. pose proof Hs as (m & _ & Hw & _). destruct (unbuffered s k Hw) as [Eb Ed].
  destruct (dirs (wb (p_ctx s)) !! k) as [ch|] eqn:Edk.
  { unfold p_child, child, p_kind, kind, p_dir_children, dir_children, p_cascade_children, cascade_children.
    rewrite Eb, Ed, bool_decide_true by by eexists. split_and!; intros; by exists s. }
  pose proof (λ R f, with_entry_sealed (R := R) s k f Hs Hk Edk) as Hwe.
  unfold p_child, child, p_kind, kind, p_dir_children, dir_children, p_cascade_children, cascade_children.
  rewrite Eb, Ed, bool_decide_false by (by intros [? ?]). split_and!; intros; try apply Hwe.
  - match goal with |- context [p_with_entry _ _ k ?f] => destruct (Hwe _ f) as (s' & E & Hss) end. exists s'. split; [|done].
    unfold sbind. rewrite E. by destruct (with_entry _ _ _).
  - match goal with |- context [p_with_entry _ _ k ?f] => destruct (Hwe _ f) as (s' & E & Hss) end. exists s'. split; [|done].
    unfold sbind. rewrite E. by destruct (with_entry _ _ _).
Qed.

(** ** What the check of a tag detects *)

Definition genuine k e (a : option Acl) : bytes := blake3_keyed (s_key session) (absorb_value table k e (acl_bytes_or_empty a)).

Lemma verify_decides s k e a tag sg : k ∉ p_verified s → read_meta table k (p_inodes s) = Ok ((a, tag), sg) →
  verify_integrity table principal k e s =
    if bool_decide (tag = Some (genuine k e a)) then (Ok tt, mkPCtx (p_ctx s) (p_inodes s) ({[k]} ∪ p_verified s)) else (Err tampered, s).
Proof using Hkey.
  intros Hk Er. unfold verify_integrity. rewrite bool_decide_false by done.
  rewrite (sbind_asks (λ s, read_meta table k (p_inodes s)) _ _ _ Er).
  rewrite (sbind_asks (λ _, mac_value (s_key session) table k e (acl_bytes_or_empty a)) _ _ _ (mac_ok _ _ _)).
  destruct tag as [tag|]; [|done]. rewrite ct_eq_spec. unfold genuine. do 2 case_bool_decide; first [done|congruence].
Qed.

(** C11: Tampering is detected.  Reading an unbuffered a-node not yet verified answers its
    entry, and remembers it, exactly when the stored tag is the genuine one for this
    table, this key, these bytes and this list; with another tag or none it answers
    [Tampered] and the caller's function never sees the bytes.  So an entry that passes
    with a tag the key holder once made for some table, key, bytes and list is that very
    entry with that very list, at that place, or two messages share a keyed BLAKE3 hash.
    An a-node already verified in this transaction is not checked again. *)
Theorem tampering_detected s k e a tag sg :
  wb_ok (wb (p_ctx s)) → files (wb (p_ctx s)) !! k = None → kv_get (data (p_ctx s)) k = Some e →
  read_meta table k (p_inodes s) = Ok ((a, tag), sg) →
  let marked := mkPCtx (p_ctx s) (p_inodes s) ({[k]} ∪ p_verified s) in
  (k ∉ p_verified s →
     p_read_verified table principal k s =
       (if bool_decide (tag = Some (genuine k e a)) then (Ok (Some e), marked) else (Err tampered, s)) ∧
     ∀ R (f : bytes → res R), p_with_entry table principal k f s =
       (if bool_decide (tag = Some (genuine k e a)) then (let? r := f e in Ok (Some r), marked) else (Err tampered, s))) ∧
  (k ∈ p_verified s → p_read_verified table principal k s = (Ok (Some e), s)) ∧
  (∀ t0 k0 e0 a0, tag = Some (genuine k e a) → mac_value (s_key session) t0 k0 e0 a0 = Ok (genuine k e a) →
     akey_ok k → akey_ok k0 → Forall fits64 [table; e; acl_bytes_or_empty a; t0; e0; a0] →
     (t0 = table ∧ k0 = k ∧ e0 = e ∧ a0 = acl_bytes_or_empty a) ∨
     ∃ x y : bytes, x ≠ y ∧ blake3_keyed (s_key session) x = blake3_keyed (s_key session) y).
Proof using Hkey.
  intros Hw Hf Hg Er marked. split_and!.
  - intros Hk. pose proof (verify_decides s k e a tag sg Hk Er) as Hv. split.
    + unfold p_read_verified. rewrite file_get_spec, Hf by done. rewrite (sbind_asks _ _ _ (Some e)) by (unfold read_entry; by rewrite Hg).
      unfold sbind. rewrite Hv. by case_bool_decide.
    + intros R f. unfold p_with_entry. rewrite file_get_spec, Hf, Hg by done. unfold sbind. rewrite Hv. by case_bool_decide.
  - intros Hk. unfold p_read_verified. rewrite file_get_spec, Hf by done. rewrite (sbind_asks _ _ _ (Some e)) by (unfold read_entry; by rewrite Hg).
    unfold sbind, verify_integrity. by rewrite bool_decide_true.
  - intros t0 k0 e0 a0 _ Hm Hk Hk0 Hfit. unfold genuine in Hm. rewrite (keyed_Ok _ _ Hkey : mac_value _ t0 k0 e0 a0 = _) in Hm. injection Hm as Hm.
    destruct (decide (absorb_value t0 k0 e0 a0 = absorb_value table k e (acl_bytes_or_empty a))) as [E|Hne]; [left|right].
    + apply value_message_inj in E; [done| |done..]. rewrite !Forall_cons in Hfit |- *. naive_solver.
    + by eexists _, _.
Qed.
End seal.
