(* ===== verification/ProtectedKeep.v ===== *)
(** * Every protected operation keeps the store sealed

    The triples of [Hoare] with the invariant that every unbuffered entry is sealed and
    every key and byte is one: each operation of [Protected] keeps it, whatever it
    answers, by the lemmas of [ProtectedSeal]. *)
From S2P Require Import Prelude Hoare BTree Codec Ext Scalar Path Value Archived Key Dir Engine Acl Integrity Inode PermStore PermSpec PermAuth WriteBuffer Ctx Fs Tree Grab Write Octets Protected ProtectedErase ProtectedGuard ProtectedSeal.

Definition path_octets (path : APath) : Prop := Forall bytes_ok path.

Section keep.
Context `{Ext} `{!ExtLaws} `{Crypto} `{!CryptoLaws} {T : Type} `{KV T Z bytes} `{!KVLaws T Z bytes} {I : Type} `{OrdKV I} `{!OrdKVLaws I}.
Context (table : bytes) (now : Z) (session : Session).
Hypothesis Htable : blen table < 2 ^ 32.
Hypothesis Hnow : signed_ok 64 now.
Hypothesis Hkey : blen (s_key session) = KEY_LEN.
Hypothesis Huid : unsigned_ok 32 (s_uid session).
Abbreviation principal := (User session).
Abbreviation PM := (SM (PCtx T I)) (only parsing).
Abbreviation sealed_store := (sealed_store table session).
Implicit Types (s : PCtx T I) (k : AKey) (c : Ctx T).

(** The keys and bytes of the tables are keys and bytes. *)
Definition octets_ctx c : Prop :=
  (∀ k m, dirs (wb c) !! k = Some m → akey_ok k ∧ children_octets m) ∧
  (∀ k e, files (wb c) !! k = Some e → akey_ok k ∧ bytes_ok e) ∧
  (∀ k e, kv_get (data c) k = Some e → bytes_ok e).

Definition store_inv s : Prop := sealed_store ∅ s ∧ octets_ctx (p_ctx s).

Abbreviation keeps := (triple store_inv).

(** A call that only reads. *)
Lemma store_inv_same s s' : unmoved s s' → store_inv s → store_inv s'.
Proof. intros Hs [H1' H2']. split; [by eapply sealed_same|]. by destruct Hs as [-> _]. Qed.

Lemma keeps_reading {A} (p : PM A) (Q : A → Prop) : reading p → (∀ s a s', store_inv s → p s = (Ok a, s') → Q a) → keeps p Q.
Proof. intros Hp HQ s r s' Hs E. split; [by eapply store_inv_same; [eapply Hp|]|]. intros a ->. by eapply HQ. Qed.

(** ** Reads answer keys and bytes *)

Lemma with_entry_octets {R} k (f : bytes → res R) c a : octets_ctx c → with_entry k f c = Ok (Some a) →
  ∃ e, bytes_ok e ∧ f e = Ok a.
Proof.
  intros (_ & Hf & Hd). unfold with_entry, file_get. destruct (files_dirty (wb c)).
  - destruct (files (wb c) !! k) as [e|] eqn:E; [|destruct (kv_get (data c) k) as [e|] eqn:Eg; [|done]];
      intros (b & Hb & [= <-])%rbind_Ok; exists e; (split; [|done]); [by eapply Hf|by eapply Hd].
  - destruct (kv_get (data c) k) as [e|] eqn:Eg; [|done]. intros (b & Hb & [= <-])%rbind_Ok. exists e. split; [by eapply Hd|done].
Qed.

Lemma buffered_octets k c m : octets_ctx c → buffered_children k c = Some m → children_octets m.
Proof. intros (Hd & _). unfold buffered_children, wb_read. destruct (dirty _); [|done]. intros E. by eapply Hd. Qed.

Lemma child_octets_spec k n c ch : octets_ctx c → child k n c = Ok (Some ch) → akey_ok ch.
Proof.
  intros Hc. unfold child. destruct (buffered_children k c) as [m|] eqn:Eb.
  { intros [= Hg]. pose proof (buffered_octets _ _ _ Hc Eb) as Hm. by apply (bt_get_Forall _ _ _ _ Hm) in Hg as [_ ?]. }
  intros ([o|] & Ho & [= Ej])%rbind_Ok. apply with_entry_octets in Ho as (e & He & Ho); [|done].
  apply rbind_Ok in Ho as ([kd p] & Hp & Ho). destruct kd; [|by simplify_eq].
  apply rbind_Ok in Ho as (d & Hd & Ho). cbn in Ej. subst o. eapply dir_get_octets; [|exact Ho].
  unfold ArchivedDir_new in Hd. apply rbind_Ok in Hd as (? & _ & [= <-]). by eapply entry_split_octets.
Qed.

Lemma listing_octets {A} (f : Children → A) k c (o : option A) (Q : A → Prop) : octets_ctx c →
  with_entry k (λ entry, let? '(kind, payload) := entry_split entry in
     match kind with
     | KFile => Err (CannotAccess "a path component is a file, not a directory")
     | KDir => let? d := ArchivedDir_new payload in let? es := dir_entries d in Ok (f es)
     end) c = Ok o → (∀ es, children_octets es → Q (f es)) → ∀ a, o = Some a → Q a.
Proof.
  intros Hc Ho HQ a ->. apply with_entry_octets in Ho as (e & He & Ho); [|done].
  apply rbind_Ok in Ho as ([kd p] & Hp & Ho). destruct kd; [|done].
  apply rbind_Ok in Ho as (d & Hd & Ho). apply rbind_Ok in Ho as (es & Hes & [= <-]). apply HQ.
  unfold ArchivedDir_new in Hd. apply rbind_Ok in Hd as (? & _ & [= <-]). eapply dir_entries_octets; [|done]. by eapply entry_split_octets.
Qed.

Lemma dir_children_octets k c m : octets_ctx c → dir_children k c = Ok m → children_octets m.
Proof.
  intros Hc. unfold dir_children. destruct (buffered_children k c) as [m'|] eqn:Eb.
  { intros [= <-]. by eapply buffered_octets. }
  intros (o & Ho & [= <-])%rbind_Ok. destruct o as [m|]; [|constructor].
  refine (listing_octets bt_collect k c _ children_octets Hc Ho _ m eq_refl). intros es. apply bt_collect_Forall.
Qed.

Lemma cascade_children_octets k c l : octets_ctx c → cascade_children k c = Ok (Some l) → Forall akey_ok l.
Proof.
  assert (∀ m : Children, children_octets m → Forall akey_ok (m.*2)) as Hm2.
  { intros m Hm. apply Forall_fmap. eapply Forall_impl; [exact Hm|]. by intros ? [_ ?]. }
  intros Hc. unfold cascade_children. destruct (buffered_children k c) as [m'|] eqn:Eb.
  { intros [= <-]. apply Hm2. by eapply buffered_octets. }
  intros Ho. apply with_entry_octets in Ho as (e & He & Ho); [|done].
  apply rbind_Ok in Ho as ([kd p] & Hp & Ho). destruct kd; [|by simplify_eq; constructor].
  apply rbind_Ok in Ho as (d & Hd & Ho). apply rbind_Ok in Ho as (es & Hes & [= <-]). apply Hm2.
  unfold ArchivedDir_new in Hd. apply rbind_Ok in Hd as (? & _ & [= <-]). eapply dir_entries_octets; [|done]. by eapply entry_split_octets.
Qed.

Lemma read_verified_octets k c e : octets_ctx c → read_verified k c = Ok (Some e) → bytes_ok e.
Proof.
  intros (_ & Hf & Hd). unfold read_verified, file_get, read_entry. destruct (files_dirty (wb c)).
  - destruct (files (wb c) !! k) as [e'|] eqn:E; [intros [= <-]; by eapply Hf|intros [= E']; by eapply Hd].
  - intros [= E']; by eapply Hd.
Qed.

(** What a protected read answers, by the plain read it erases to. *)
Lemma keeps_erased {A} (p : PM A) f (Q : A → Prop) : reading p → erases p (asks f) →
  (∀ c a, octets_ctx c → f c = Ok a → Q a) → keeps p Q.
Proof.
  intros Hp He HQ. apply keeps_reading; [done|]. intros s a s' [_ Hc] E. apply He in E. unfold asks in E. injection E as E _. by eapply HQ.
Qed.

Definition some_key (o : option AKey) : Prop := ∀ k, o = Some k → akey_ok k.

Lemma keeps_child k n : keeps (p_child table principal k n) some_key.
Proof. eapply keeps_erased; [apply reading_child|apply erases_child|]. intros c o Hc E ch ->. by eapply child_octets_spec. Qed.
Lemma keeps_kind k : keeps (p_kind table principal k) (λ _, True).
Proof. by eapply keeps_erased; [apply reading_kind|apply erases_kind|]. Qed.
Lemma keeps_dir_children k : keeps (p_dir_children table principal k) (Forall child_octets).
Proof. eapply keeps_erased; [apply reading_dir_children|apply erases_dir_children|]. intros. by eapply dir_children_octets. Qed.
Lemma keeps_cascade_children k : keeps (p_cascade_children table principal k) (λ o, ∀ l, o = Some l → Forall akey_ok l).
Proof. eapply keeps_erased; [apply reading_cascade_children|apply erases_cascade_children|]. intros c o Hc E l ->. by eapply cascade_children_octets. Qed.
Lemma keeps_read_verified k : keeps (p_read_verified table principal k) (λ o, ∀ e, o = Some e → bytes_ok e).
Proof. eapply keeps_erased; [apply reading_read_verified|apply erases_read_verified|]. intros c o Hc E e ->. by eapply read_verified_octets. Qed.
Lemma keeps_check k n : keeps (check table principal k n) (λ _, True).
Proof. by apply keeps_reading; [apply reading_check|]. Qed.
Lemma keeps_check_deletable fuel k : keeps (check_deletable table principal fuel k) (λ _, True).
Proof. by apply keeps_reading; [apply reading_check_deletable|]. Qed.

(** ** Writes *)

Lemma sealed_mono X Y s : X ⊆ Y → sealed_store X s → sealed_store Y s.
Proof. intros HX (m & Hh & Hw & Hs). exists m. split_and!; [done..|]. intros k e Hk HkY. apply Hs; [done|set_solver]. Qed.

(** A write that ends sealed, on a context that keeps its octets. *)
Lemma keeps_write (p : PM unit) : (∀ s, store_inv s → ∃ s' X, p s = (Ok tt, s') ∧ X ⊆ ∅ ∧ sealed_store X s' ∧ octets_ctx (p_ctx s')) →
  keeps p (λ _, True).
Proof.
  intros Hp s r s' Hs E. destruct (Hp s Hs) as (s1 & X & E1 & HX & Hs1 & Hc). rewrite E in E1. injection E1 as -> ->.
  split; [|done]. split; [by eapply sealed_mono|done].
Qed.

Lemma octets_put c k e w : octets_ctx c → bytes_ok e → dirs w = dirs (wb c) → files w ⊆ files (wb c) →
  octets_ctx (mkCtx (kv_insert (data c) k e) w (rng c)).
Proof.
  intros (Hd & Hf & Hg) He Ew Ef. split_and!; cbn.
  - rewrite Ew. exact Hd.
  - intros j e' Hj. apply (Hf j e'). by eapply lookup_weaken.
  - intros j e'. rewrite kv_get_insert. case_decide; [by intros [= <-]|apply Hg].
Qed.

Lemma keeps_put_entry k e : akey_ok k → bytes_ok e → keeps (p_put_entry table now principal k e) (λ _, True).
Proof using All.
  intros Hk He. apply keeps_write. intros s [Hs Hc].
  destruct (put_entry_sealed table now session Htable Hnow Hkey Huid ∅ s k e Hs Hk) as (s' & E & Hs' & Ec).
  eexists _, _. split_and!; [exact E| |exact Hs'|]; [set_solver|]. rewrite Ec. unfold put_entry. cbn [snd].
  destruct Hs as (m & _ & Hw & _). destruct (file_forget_spec (wb (p_ctx s)) k Hw) as (_ & Hdi & Hfi & _).
  apply octets_put; [done..|]. rewrite Hfi. apply delete_subseteq.
Qed.

Lemma keeps_put_file_edit k e : akey_ok k → bytes_ok e → keeps (p_put_file_edit table now principal k e) (λ _, True).
Proof using All.
  intros Hk He s r s' Hs E. unfold p_put_file_edit in E. destruct (p_buffering s) eqn:Eb; [|by eapply keeps_put_entry].
  destruct Hs as [Hs (Hd & Hf & Hg)].
  destruct (put_file_edit_sealed table now session Htable Hnow Hkey Huid ∅ s k e Hs Hk) as (s1 & E1 & Hs1).
  unfold p_put_file_edit in E1. rewrite Eb, E in E1. injection E1 as -> <-. split; [|done]. split; [done|].
  injection E as <-. split_and!; [exact Hd| |exact Hg]. intros j e'. cbn. rewrite lookup_insert. case_decide; [by intros [= <-]; subst|apply Hf].
Qed.

Lemma keeps_remove_entry k : akey_ok k → keeps (p_remove_entry table k) (λ _, True).
Proof using All.
  intros Hk. apply keeps_write. intros s [Hs (Hd & Hf & Hg)].
  destruct (remove_entry_sealed table now session Htable Hnow Hkey Huid ∅ s k Hs Hk) as (s' & E & Hs').
  eexists _, _. split; [exact E|]. split; [|split; [exact Hs'|]]; [set_solver|]. injection E as <-.
  destruct Hs as (m & _ & Hw & _). destruct (forget_spec (wb (p_ctx s)) k Hw) as (_ & Hdi & Hfi & _). split_and!.
  - intros j m'. cbn. rewrite Hdi, lookup_delete. case_decide; [done|apply Hd].
  - intros j m'. cbn. rewrite Hfi, lookup_delete. case_decide; [done|apply Hf].
  - intros j m'. cbn. rewrite kv_get_remove. case_decide; [done|apply Hg].
Qed.

Lemma octets_buffer c k m : octets_ctx c → akey_ok k → children_octets m →
  octets_ctx (set_wb (λ b, wb_write b (λ d, <[k := m]> d)) c).
Proof.
  intros (Hd & Hf & Hg) Hk Hm. split_and!; [|exact Hf|exact Hg]. intros j m'. cbn. rewrite lookup_insert. case_decide; [by intros [= <-]; subst|apply Hd].
Qed.

Lemma keeps_put_dir k m : akey_ok k → children_octets m → keeps (p_put_dir table now principal k m) (λ _, True).
Proof using All.
  intros Hk Hm s r s' Hs E. unfold p_put_dir in E. destruct (p_buffering s) eqn:Eb.
  2: { eapply keeps_put_entry; [done| |done|exact E]. by apply dir_entry_octets, encode_dir_octets. }
  destruct Hs as [Hs Hc]. destruct (put_dir_sealed table now session Htable Hnow Hkey Huid ∅ s k m Hs Hk) as (s1 & E1 & Hs1).
  unfold p_put_dir in E1. rewrite Eb, E in E1. injection E1 as -> <-. split; [|done]. split; [done|].
  apply sbind_inv in E as ([] & s2 & E2 & E3). apply quiet_stamp_new_dir_acl in E2. injection E3 as <-. cbn [p_ctx]. rewrite E2.
  by apply octets_buffer.
Qed.

Lemma split_mix64_key hi lo : word hi → word lo → akey_ok (Z.lor (Z.shiftl hi 64) lo).
Proof. intros Hh Hl. rewrite lor_shift by done. unfold word, akey_ok, unsigned_ok in *. lia. Qed.

Lemma keeps_fresh_key : keeps (on_ctx fresh_key) akey_ok.
Proof.
  intros s r s' [Hs Hc]. unfold on_ctx, fresh_key, generate.
  pose proof (split_mix64_word (rng (p_ctx s))) as Hh. destruct (split_mix64 (rng (p_ctx s))) as [hi s1].
  pose proof (split_mix64_word s1) as Hl. destruct (split_mix64 s1) as [lo s2]. intros [= <- <-]. split; [by split|].
  intros k [= <-]. by apply split_mix64_key.
Qed.

Lemma keeps_bump : keeps (p_bump_structure) (λ _, True).
Proof. intros s r s' [Hs Hc] [= <- <-]. done. Qed.

Lemma keeps_edit_buffered k f s r s' : akey_ok k → (∀ m, children_octets m → children_octets (f m)) →
  store_inv s → p_buffering s = true → p_edit_buffered table principal k f s = (r, s') → store_inv s'.
Proof using All.
  intros Hk Hf Hs Eb. unfold p_edit_buffered.
  destruct ((λ s, if buffered_dir k (p_ctx s) then (Ok None, s)
    else (let! m := p_dir_children table principal k in sret (Some m)) s) s) as [x s1] eqn:E1. unfold sbind at 1. rewrite E1.
  assert (unmoved s s1 ∧ ∀ o, x = Ok o → ∀ m, o = Some m → children_octets m) as [Hsame Hx].
  { destruct (buffered_dir k (p_ctx s)); [injection E1 as <- <-; split; [done|]; by intros o [= <-]|].
    assert (keeps (let! m := p_dir_children table principal k in sret (Some m)) (λ o, ∀ m, o = Some m → children_octets m)) as Hkp.
    { eapply triple_bind; [apply keeps_dir_children|]. intros m Hm. apply triple_ret. by intros ? [= <-]. }
    split; [|by eapply Hkp]. eapply (reading_bind _ _ (reading_dir_children table principal k)); [|exact E1]. intros. apply reading_ret. }
  pose proof (store_inv_same _ _ Hsame Hs) as Hs1.
  destruct x as [o|e| |]; try by intros [= _ <-].
  unfold on_ctx. destruct (match o with Some loaded => _ | None => _ end) as [m|] eqn:Em.
  2: { intros [= _ <-]. by destruct s1. }
  assert (children_octets m) as Hm.
  { destruct Hs1 as [_ (Hd & _)]. destruct o as [l|].
    - injection Em as <-. destruct (dirs (wb (p_ctx s1)) !! k) as [m'|] eqn:Ed; [by eapply Hd|]. by eapply Hx.
    - by eapply Hd. }
  intros [= _ <-]. destruct Hs1 as [Hs1 Hc1]. split; [|apply octets_buffer; [done..|by apply Hf]].
  apply (buffer_dir_sealed table session ∅ s1); [done..|]. destruct Hsame as [-> _]. exact Eb.
Qed.

Lemma keeps_relink k (f : Children → Children) : akey_ok k → (∀ m, children_octets m → children_octets (f m)) →
  keeps (let! _ := p_bump_structure in
    λ s, if p_buffering s then p_edit_buffered table principal k f s
         else (let! m := p_dir_children table principal k in p_put_dir table now principal k (f m)) s) (λ _, True).
Proof using All.
  intros Hk Hf. eapply triple_bind; [apply keeps_bump|]. intros _ _ s r s' Hs. destruct (p_buffering s) eqn:Eb.
  - intros E. split; [|done]. by eapply keeps_edit_buffered.
  - intros E. refine (triple_bind _ _ _ _ _ (keeps_dir_children k) _ s r s' Hs E). intros m Hm. apply keeps_put_dir; auto.
Qed.

Lemma keeps_link_child k n ch : akey_ok k → bytes_ok n → akey_ok ch → keeps (p_link_child table now principal k n ch) (λ _, True).
Proof using All. intros Hk Hn Hch. apply keeps_relink; [done|]. intros m Hm. by apply bt_insert_Forall. Qed.
Lemma keeps_unlink_child k n : akey_ok k → keeps (p_unlink_child table now principal k n) (λ _, True).
Proof using All. intros Hk. apply keeps_relink; [done|]. intros m Hm. by apply bt_remove_Forall. Qed.

(** ** The operations *)

Lemma keeps_walk path : ∀ k, akey_ok k → keeps (p_resolve_from table principal k path) some_key.
Proof.
  induction path as [|n path IH]; intros k Hk; cbn [p_resolve_from]; [apply triple_ret; by intros ? [= <-]|].
  tbind ltac:(apply keeps_check). intros _ _. tbind ltac:(apply keeps_child). intros [ch|] Hch; [by apply IH, Hch|by apply triple_ret].
Qed.

Lemma keeps_ensure_dir_from path : path_octets path → ∀ k, akey_ok k → keeps (p_ensure_dir_from table now principal k path) akey_ok.
Proof using All.
  induction 1 as [|n path Hn Hp IH]; intros k Hk; cbn [p_ensure_dir_from]; [by apply triple_ret|].
  tbind ltac:(apply keeps_check). intros _ _. tbind ltac:(apply keeps_child). intros [ch|] Hch.
  - tbind ltac:(apply keeps_kind). intros kd _. case_bool_decide; [by apply IH, Hch|apply triple_err].
  - tbind ltac:(apply keeps_check). intros _ _. tbind ltac:(apply keeps_fresh_key). intros ch Hc.
    tbind ltac:(apply keeps_put_dir; [done|constructor]). intros _ _. tbind ltac:(by apply keeps_link_child). intros _ _. by apply IH.
Qed.

Lemma keeps_ensure_dir path : path_octets path → keeps (p_ensure_dir table now principal path) akey_ok.
Proof using All.
  intros Hp. apply (triple_bind _ _ _ (λ _, True)). 2: { intros _ _. apply keeps_ensure_dir_from; [done|apply akey_ok_root]. }
  unfold p_ensure_root. tbind ltac:(apply (keeps_reading _ (λ _, True)); [intros ??? [= _ <-]; done|done]).
  intros [] _; [by apply triple_ret|]. apply keeps_put_dir; [apply akey_ok_root|constructor].
Qed.

Lemma keeps_cascade_delete fuel : ∀ k, akey_ok k → keeps (p_cascade_delete table principal fuel k) (λ _, True).
Proof using All.
  induction fuel as [|fuel IH]; intros k Hk; cbn [p_cascade_delete]; [apply triple_fuel|].
  tbind ltac:(apply keeps_cascade_children). intros [l|] Hl; [|by apply triple_ret].
  tbind ltac:(apply (triple_for_each _ _ _ akey_ok); [exact IH|by apply Hl]). intros _ _. by apply keeps_remove_entry.
Qed.

Lemma keeps_split path : path_octets path → keeps (p_split_last path) (λ x, path_octets x.1 ∧ bytes_ok x.2).
Proof.
  intros Hp s r s' Hs. unfold p_split_last, on_ctx, split_last_or_panic, asks. intros [= <- <-]. split; [by destruct s|].
  intros [pp n]. destruct (APath_split_last path) as [x|] eqn:E; [|done]. intros [= ->]. apply APath_split_last_Some in E as ->.
  apply Forall_app in Hp as [? [? _]%Forall_cons]. done.
Qed.

Lemma keeps_store_under fuel k n bs : akey_ok k → bytes_ok n → bytes_ok bs →
  keeps (p_store_under table now principal fuel k n bs) (λ _, True).
Proof using All.
  intros Hk Hn Hb. unfold p_store_under.
  assert (keeps (let! fresh := on_ctx fresh_key in
                 let! _ := p_link_child table now principal k n fresh in sret fresh) akey_ok) as Hfresh.
  { tbind ltac:(apply keeps_fresh_key). intros f Hf. tbind ltac:(by apply keeps_link_child). intros _ _. by apply triple_ret. }
  tbind ltac:(apply keeps_check). intros _ _. tbind ltac:(apply keeps_child). intros o Ho. apply (triple_bind _ _ _ akey_ok).
  - destruct o as [ch|].
    + tbind ltac:(apply keeps_kind). intros kd _. case_bool_decide.
      * tbind ltac:(apply keeps_check). intros _ _. by apply triple_ret, Ho.
      * tbind ltac:(apply keeps_check_deletable). intros _ _. tbind ltac:(apply keeps_check). intros _ _.
        tbind ltac:(by apply keeps_cascade_delete, Ho). by intros _ _.
    + tbind ltac:(apply keeps_check). by intros _ _.
  - intros ch Hch. apply keeps_put_entry; [done|by apply file_entry_octets].
Qed.

Lemma keeps_store fuel path v : path_octets path → value_octets v → keeps (p_store_value_into table now principal fuel path v) (λ _, True).
Proof using All.
  intros Hp Hv. unfold p_store_value_into, p_store_blob_into. tbind ltac:(by apply keeps_split). intros [pp n] [Hpp Hn].
  tbind ltac:(by apply keeps_ensure_dir). intros k Hk. apply keeps_store_under; [done..|by apply encode_octets].
Qed.

Lemma keeps_put_scalar fuel path at_path x : path_octets path → vpath_octets at_path → scalar_octets x →
  keeps (p_put_scalar_into table now principal fuel path at_path x) (λ _, True).
Proof using All.
  intros Hp Ha Hx. unfold p_put_scalar_into, p_resolve_and_read, p_resolve.
  assert (keeps (p_store_value_into table now principal fuel path (set_in default_value at_path (Leaf x)).1) (λ _, True)) as Hst.
  { apply keeps_store; [done|]. by apply set_in_octets. }
  eapply (triple_bind _ _ _ (λ t, some_key t.1 ∧ ∀ e, t.2 = Some e → bytes_ok e)).
  { tbind ltac:(apply keeps_walk, akey_ok_root). intros [k|] Hk; [|by apply triple_ret].
    tbind ltac:(apply keeps_read_verified). intros e He. by apply triple_ret. }
  intros [[k|] [e|]] [Hk He]; [|done..]. cbn [fst snd] in *. tbind ltac:(apply keeps_check). intros _ _.
  eapply (triple_bind _ _ _ (λ t, bytes_ok t.2)).
  { apply triple_const. intros [b e']. apply patch_scalar_octets; [by apply He|done]. }
  intros [[] e'] He'; cbn [snd] in He'; [by apply keeps_put_file_edit; [apply Hk|]|].
  eapply (triple_bind _ _ _ (λ t, bytes_ok t.2)).
  { apply triple_const. intros [kd p]. by apply entry_split_octets. }
  intros [[|] p] Hpl; cbn [snd] in Hpl; [apply triple_err|]. eapply (triple_bind _ _ _ value_octets).
  { apply triple_const. intros v. by apply decode_octets. }
  intros v Hv. apply keeps_put_file_edit; [by apply Hk|]. by apply file_entry_octets, encode_octets, set_in_octets.
Qed.

Lemma keeps_rm fuel path : path_octets path → keeps (p_rm_into table now principal fuel path) (λ _, True).
Proof using All.
  intros Hp. unfold p_rm_into, p_resolve. tbind ltac:(by apply keeps_split). intros [pp n] [Hpp Hn].
  tbind ltac:(apply keeps_walk, akey_ok_root). intros [d|] Hd; [|by apply triple_ret].
  tbind ltac:(apply keeps_check). intros _ _. tbind ltac:(apply keeps_child). intros [k|] Hk; [|by apply triple_ret].
  tbind ltac:(apply keeps_check_deletable). intros _ _. tbind ltac:(by apply keeps_cascade_delete, Hk). intros _ _.
  tbind ltac:(by apply keeps_unlink_child, Hd). intros _ _. by apply triple_ret.
Qed.

Lemma keeps_clear fuel o : some_key o → keeps (p_clear table principal fuel o) (λ _, True).
Proof using All.
  intros Ho. unfold p_clear. destruct o as [k|]; [|by apply triple_ret]. tbind ltac:(apply keeps_check_deletable). intros _ _.
  by apply keeps_cascade_delete, Ho.
Qed.

(** The destination of a move or a copy, made ready. *)
Lemma keeps_dst {A} fuel path n (rest : AKey → PM A) Q : path_octets path → (∀ d, akey_ok d → keeps (rest d) Q) →
  keeps (let! d := p_ensure_dir table now principal path in
   let! _ := check table principal d RModify in
   let! existing := p_child table principal d n in
   let! _ := p_clear table principal fuel existing in rest d) Q.
Proof using All.
  intros Hp Hr. tbind ltac:(by apply keeps_ensure_dir). intros d Hd. tbind ltac:(apply keeps_check). intros _ _.
  tbind ltac:(apply keeps_child). intros o Ho. tbind ltac:(by apply keeps_clear). intros _ _. by apply Hr.
Qed.

Lemma keeps_mv fuel src dst : path_octets src → path_octets dst → keeps (p_mv_into table now principal fuel src dst) (λ _, True).
Proof using All.
  intros Hs Hd. unfold p_mv_into, p_resolve. tbind ltac:(by apply keeps_split). intros [sp sn] [Hsp Hsn].
  tbind ltac:(apply (keeps_split dst Hd)). intros [dp dn] [Hdp Hdn]. tbind ltac:(apply keeps_walk, akey_ok_root).
  intros [sd|] Hsd; [|apply triple_err]. tbind ltac:(apply keeps_check). intros _ _. tbind ltac:(apply keeps_child).
  intros [k|] Hk; [|apply triple_err]. tbind ltac:(apply keeps_check). intros _ _. apply keeps_dst; [done|]. intros d Hdk.
  tbind ltac:(apply keeps_link_child; [done|done|by apply Hk]). intros _ _. by apply keeps_unlink_child, Hsd.
Qed.

Lemma keeps_copy_children copy l : (∀ k, akey_ok k → keeps (copy k) akey_ok) → children_octets l →
  ∀ copied, children_octets copied → keeps (p_copy_children copy l copied) (λ m, children_octets m).
Proof.
  intros Hc. induction 1 as [|[n ch] l [Hn Hch] Hl IH]; intros copied Hcp; cbn [p_copy_children]; [by apply triple_ret|].
  tbind ltac:(by apply Hc). intros k Hk. apply IH. by apply bt_insert_Forall.
Qed.

Lemma keeps_deep_copy fuel : ∀ k, akey_ok k → keeps (p_deep_copy table now principal fuel k) akey_ok.
Proof using All.
  induction fuel as [|fuel IH]; intros k Hk; cbn [p_deep_copy]; [apply triple_fuel|].
  tbind ltac:(apply keeps_check). intros _ _. tbind ltac:(apply keeps_fresh_key). intros f Hf.
  tbind ltac:(apply keeps_kind). intros kd _. apply (triple_bind _ _ _ (λ _, True)); [by apply triple_const|].
  intros [|] _.
  - tbind ltac:(apply keeps_dir_children). intros m Hm. tbind ltac:(apply keeps_copy_children; [exact IH|done|constructor]).
    intros m' Hm'. tbind ltac:(by apply keeps_put_dir). intros _ _. by apply triple_ret.
  - tbind ltac:(apply keeps_read_verified). intros o Ho. apply (triple_bind _ _ _ bytes_ok).
    { apply triple_const. destruct o as [e|]; [|done]. intros ? [= <-]. by apply Ho. }
    intros e He. tbind ltac:(by apply keeps_put_entry). intros _ _. by apply triple_ret.
Qed.

Lemma keeps_cp fuel src dst : path_octets dst → keeps (p_cp_into table now principal fuel src dst) (λ _, True).
Proof using All.
  intros Hd. unfold p_cp_into, p_resolve. tbind ltac:(by apply keeps_split). intros [dp dn] [Hdp Hdn].
  tbind ltac:(apply keeps_walk, akey_ok_root). intros [k|] Hk; [|apply triple_err]. apply keeps_dst; [done|]. intros d Hdk.
  tbind ltac:(by apply keeps_deep_copy, Hk). intros c Hc. by apply keeps_link_child.
Qed.

(** ** Changes of list *)

Lemma keeps_acl_target path : keeps (acl_target table principal path) (λ t, akey_ok t.1 ∧ acl_ok t.2).
Proof using All.
  unfold acl_target, p_resolve. tbind ltac:(apply keeps_walk, akey_ok_root). intros o Ho. apply (triple_bind _ _ _ akey_ok).
  { apply triple_const. destruct o as [k|]; [|done]. intros ? [= <-]. by apply Ho. }
  intros k Hk. destruct (k =? ROOT); [apply triple_err|]. tbind ltac:(apply keeps_read_verified). intros _ _.
  eapply (triple_bind _ _ _ (λ o, ∀ a, o = Some a → acl_ok a)).
  { apply keeps_reading; [apply reading_asks|]. intros s o' s' [(m & Hh & _) _] E. unfold p_acl, asks in E. injection E as E _.
    pose proof (holds_read_acl (p_inodes s) m (table, k) Hh (key_in_table table Htable k Hk)) as Ha. cbn [fst snd] in Ha.
    rewrite E in Ha. injection Ha as ->. intros a Ha. destruct (m !! (table, k)) as [x|] eqn:Ex; [|done]. cbn in Ha.
    pose proof (holds_ok (p_inodes s) m (table, k) Hh) as Hok. rewrite Ex in Hok. cbn in Hok. pose proof (io_acl _ Hok) as Hacl.
    by rewrite Ha in Hacl. }
  intros o' Ho'. apply (triple_bind _ _ _ acl_ok).
  { apply triple_const. destruct o' as [a|]; [|done]. intros ? [= <-]. by apply Ho'. }
  intros a Ha. by apply triple_ret.
Qed.

Lemma keeps_write_acl k a : akey_ok k → acl_ok a →
  keeps (let! _ := write_acl table k a in reseal_integrity table principal k) (λ _, True).
Proof using All.
  intros Hk Ha. apply keeps_write. intros s [Hs Hc].
  destruct (write_acl_sealed table now session Htable Hnow Hkey Huid ∅ s k a Hs Hk Ha) as (s' & E & Hs' & Ec).
  exists s', ∅. by rewrite Ec.
Qed.

Lemma keeps_chown path uid : unsigned_ok 32 uid → keeps (chown_into table principal path uid) (λ _, True).
Proof using All.
  intros Hu. unfold chown_into. tbind ltac:(apply keeps_acl_target). intros [k a] [Hk Ha].
  apply (triple_bind _ _ _ (λ _, True)); [by apply triple_const|]. intros _ _. apply keeps_write_acl; [done|]. by destruct Ha as (_ & ? & ?).
Qed.

Lemma keeps_set_acl path f : (∀ a, acl_ok a → acl_ok (f a)) → keeps (set_acl_into table principal path f) (λ _, True).
Proof using All.
  intros Hf. unfold set_acl_into. tbind ltac:(apply keeps_acl_target). intros [k a] [Hk Ha].
  apply (triple_bind _ _ _ (λ _, True)); [by apply triple_const|]. intros _ _. by apply keeps_write_acl; [|apply Hf].
Qed.

(** ** Reaping *)

Definition victim_ok (v : AKey * bytes) : Prop := akey_ok v.1 ∧ bytes_ok v.2.

Lemma keeps_collect fuel uid : ∀ d out, akey_ok d → Forall victim_ok out →
  keeps (collect_owned table principal fuel d uid out) (Forall victim_ok).
Proof using All.
  induction fuel as [|fuel IH]; intros d out Hd Hout; cbn [collect_owned]; [apply triple_fuel|].
  tbind ltac:(apply keeps_dir_children). intros m Hm. revert out Hout.
  induction Hm as [|[n ch] m [Hn Hch] Hm IHm]; intros out Hout; [by apply triple_ret|].
  apply (triple_bind _ _ _ (λ _, True)); [by apply keeps_reading; [apply reading_asks|]|]. intros acl _.
  apply (triple_bind _ _ _ (Forall victim_ok)); [|exact IHm]. case_bool_decide.
  - apply triple_ret, Forall_app. split; [done|]. by apply Forall_singleton.
  - tbind ltac:(apply keeps_kind). intros k _. case_bool_decide; [by apply IH|by apply triple_ret].
Qed.

Lemma keeps_reap fuel uid : keeps (reap_owned table now principal fuel uid) (λ _, True).
Proof using All.
  unfold reap_owned. tbind ltac:(apply keeps_collect; [apply akey_ok_root|constructor]). intros vs Hvs.
  apply (triple_for_each _ _ _ victim_ok); [|done]. intros [d n] [Hd Hn]. tbind ltac:(apply keeps_child). intros [k|] Hk; [|by apply triple_ret].
  tbind ltac:(by apply keeps_cascade_delete, Hk). intros _ _. by apply keeps_unlink_child.
Qed.

(** ** The flush of a commit *)

Definition flushed (X : gset Z) s : Prop :=
  sealed_store X s ∧ octets_ctx (p_ctx s) ∧ dirs (wb (p_ctx s)) = ∅ ∧ files (wb (p_ctx s)) = ∅.

Lemma put_all_flushed {A} (f : A → bytes) (l : list (Z * A)) : Forall (λ d, akey_ok d.1 ∧ bytes_ok (f d.2)) l → ∀ X s, flushed X s →
  ∃ s', for_each l (λ d, p_put_entry table now principal d.1 (f d.2)) s = (Ok tt, s') ∧ flushed (X ∖ list_to_set (l.*1)) s'.
Proof using All.
  induction 1 as [|[k a] l [Hk Ha] Hl IH]; intros X s Hs; cbn [for_each fst snd].
  { exists s. split; [done|]. destruct Hs as (Hs & ?). split; [|done]. eapply sealed_mono; [|done]. set_solver. }
  destruct Hs as (Hs & Hc & Hd & Hf). destruct (put_entry_sealed table now session Htable Hnow Hkey Huid X s k (f a) Hs Hk) as (s1 & E & Hs1 & Ec).
  destruct Hs as (m & _ & Hw & _). destruct (file_forget_spec (wb (p_ctx s)) k Hw) as (_ & Hdi & Hfi & _). unfold put_entry in Ec. cbn [snd] in Ec.
  destruct (IH (X ∖ {[k]}) s1) as (s' & E' & Hs').
  { split; [done|]. rewrite Ec. split; [|cbn; rewrite Hdi, Hfi, Hf; split; [done|apply delete_empty]].
    apply octets_put; [done..|]. rewrite Hfi. apply delete_subseteq. }
  exists s'. split; [by rewrite (sbind_Ok _ _ _ _ _ E)|]. cbn [fmap list_fmap list_to_set fst].
  replace (X ∖ ({[k]} ∪ list_to_set (l.*1))) with ((X ∖ {[k]}) ∖ list_to_set (l.*1)); [done|]. set_solver.
Qed.

Definition all_sealed s : Prop :=
  ∃ m, holds_inodes (p_inodes s) m ∧ ∀ k e, akey_ok k → kv_get (data (p_ctx s)) k = Some e → entry_sealed table session m k e.

Lemma flushed_all s : flushed ∅ s → store_inv s ∧ all_sealed s.
Proof.
  intros (Hs & Hc & Hd & Hf). split; [done|]. destruct Hs as (m & Hh & _ & Hs). exists m. split; [done|].
  intros k e Hk He. apply Hs; [done|set_solver|done|by rewrite Hd|by rewrite Hf].
Qed.

Lemma perm_all {A} (order : gmap Z A → list (Z * A)) (P : Z * A → Prop) m : (∀ m, order m ≡ₚ map_to_list m) →
  (∀ k a, m !! k = Some a → P (k, a)) → Forall P (order m) ∧ list_to_set (order m).*1 =@{gset Z} dom m.
Proof.
  intros Ho HP. split.
  - rewrite Ho. apply Forall_forall. intros [k a] Hka%elem_of_map_to_list. by apply HP.
  - apply set_eq. intros k. rewrite elem_of_list_to_set, Ho, elem_of_dom, list_elem_of_fmap. split.
    + intros ([k' a] & -> & Hin%elem_of_map_to_list). by eexists.
    + intros [a Ha]. exists (k, a). split; [done|]. by apply elem_of_map_to_list.
Qed.

Lemma commit_flush_sealed order_dirs order_files s :
  (∀ m, order_dirs m ≡ₚ map_to_list m) → (∀ m, order_files m ≡ₚ map_to_list m) → store_inv s →
  ∃ s', p_commit_flush table now principal order_dirs order_files s = (Ok tt, s') ∧ store_inv s' ∧ all_sealed s'.
Proof using All.
  intros Hod Hof [(m & Hh & Hw & Hs) (Hd & Hf & Hg)]. unfold p_commit_flush, wb_take. cbn [fst snd].
  set (s0 := PCtx_new _ _). set (X := dom (dirs (wb (p_ctx s))) ∪ dom (files (wb (p_ctx s)))).
  assert (flushed X s0) as H0'.
  { split; [|split; [by split_and!|done]]. exists m. split_and!; [done|done|]. intros k e Hk HkX He _ _. cbn in He.
    apply Hs; [done|set_solver|done|..]; apply not_elem_of_dom; set_solver. }
  destruct (negb _ || negb _) eqn:Ed.
  - destruct (perm_all order_dirs (λ d, akey_ok d.1 ∧ bytes_ok (dir_entry (encode_dir d.2))) (dirs (wb (p_ctx s))) Hod) as [P1 D1].
    { intros k ch Hk. destruct (Hd _ _ Hk). split; [done|]. by apply dir_entry_octets, encode_dir_octets. }
    destruct (perm_all order_files (λ d, akey_ok d.1 ∧ bytes_ok d.2) (files (wb (p_ctx s))) Hof) as [P2 D2]; [by intros k e Hk%Hf|].
    destruct (put_all_flushed (λ m, dir_entry (encode_dir m)) _ P1 X s0 H0') as (s1 & E1 & H1').
    destruct (put_all_flushed (λ e, e) _ P2 _ s1 H1') as (s2 & E2 & H2').
    exists s2. unfold p_flush_buffered. rewrite (sbind_Ok _ _ _ _ _ E1). split; [exact E2|]. apply flushed_all.
    rewrite D1, D2 in H2'. replace (∅ : gset Z) with (X ∖ dom (dirs (wb (p_ctx s))) ∖ dom (files (wb (p_ctx s)))); [done|]. set_solver.
  - exists s0. split; [done|]. apply flushed_all.
    apply orb_false_iff in Ed as [Ed%negb_false_iff%bool_decide_eq_true Ef%negb_false_iff%bool_decide_eq_true].
    unfold X in H0'. rewrite Ed, Ef, !dom_empty_L, union_empty_l_L in H0'. done.
Qed.

(** C8: The integrity seals are an invariant.  Call a store good when every entry it
    holds, and no buffer replaces, carries an inode whose tag and signature are those of
    its table, its key, its bytes and its list.  Each public mutation of a session, and
    the reaping of a removed user, leaves a good store whatever it answers, refusals and
    errors included; the flush of a commit succeeds and leaves every entry sealed; and
    on a good store each protected read answers what the read without permissions
    answers, never [Tampered]. *)
Theorem seals_kept fuel order_dirs order_files :
  (∀ m, order_dirs m ≡ₚ map_to_list m) → (∀ m, order_files m ≡ₚ map_to_list m) →
  let sealing {A} (p : PM A) := ∀ s r s', store_inv s → p s = (r, s') → store_inv s' in
  (∀ path v, path_octets path → value_octets v → sealing (p_store_value_at table now principal fuel path v)) ∧
  (∀ path at_path x, path_octets path → vpath_octets at_path → scalar_octets x →
     sealing (p_put_scalar_at table now principal fuel path at_path x)) ∧
  (∀ path, path_octets path → sealing (p_mkdir table now principal path) ∧ sealing (p_rm table now principal fuel path)) ∧
  (∀ src dst, path_octets src → path_octets dst →
     sealing (p_mv table now principal fuel src dst) ∧ sealing (p_cp table now principal fuel src dst)) ∧
  (∀ path uid, unsigned_ok 32 uid → sealing (chown_into table principal path uid)) ∧
  (∀ path f, (∀ a, acl_ok a → acl_ok (f a)) → sealing (set_acl_into table principal path f)) ∧
  (∀ uid, sealing (reap_owned table now principal fuel uid)) ∧
  (∀ s, store_inv s →
     ∃ s', p_commit_flush table now principal order_dirs order_files s = (Ok tt, s') ∧ store_inv s' ∧ all_sealed s') ∧
  (∀ s k, store_inv s → akey_ok k →
     (∀ n, (p_child table principal k n s).1 = child k n (p_ctx s)) ∧
     (p_kind table principal k s).1 = kind k (p_ctx s) ∧
     (p_dir_children table principal k s).1 = dir_children k (p_ctx s) ∧
     (p_cascade_children table principal k s).1 = cascade_children k (p_ctx s) ∧
     (dirs (wb (p_ctx s)) !! k = None → (p_read_verified table principal k s).1 = read_verified k (p_ctx s))).
Proof using All.
  intros Hod Hof sealing. assert (∀ {A} (p : PM A) Q, keeps p Q → sealing A p) as Hk.
  { intros A p Q Hp s r s' Hs E. by eapply Hp. }
  split_and!.
  - intros path v Hp Hv. eapply Hk. unfold p_store_value_at. destruct (is_root path); [apply (triple_err _ _ (λ _, True))|by apply keeps_store].
  - intros path at_path x Hp Ha Hx. eapply Hk. by apply keeps_put_scalar.
  - intros path Hp. split; eapply Hk.
    + unfold p_mkdir. tbind ltac:(by apply keeps_ensure_dir). intros k _. by apply (triple_ret _ _ (λ _, True)).
    + unfold p_rm. destruct (is_root path); [apply (triple_err _ _ (λ _, True))|by apply keeps_rm].
  - intros src dst Hs Hd. split; eapply Hk.
    + unfold p_mv. do 3 (case_match; [apply (triple_err _ _ (λ _, True))|]). by apply keeps_mv.
    + unfold p_cp. do 2 (case_match; [apply (triple_err _ _ (λ _, True))|]). by apply keeps_cp.
  - intros path uid Hu. eapply Hk. by apply keeps_chown.
  - intros path f Hf. eapply Hk. by apply keeps_set_acl.
  - intros uid. eapply Hk. apply keeps_reap.
  - intros s. by apply commit_flush_sealed.
  - intros s k [Hs _] Hak. destruct (reads_sealed table session Htable Hkey s k Hs Hak) as (Hc & (? & -> & _) & (? & -> & _) & (? & -> & _)).
    split_and!; try done; [intros n; by destruct (Hc n) as (? & -> & _)|].
    intros Hd. by destruct (read_verified_sealed table session Htable Hkey s k Hs Hak Hd) as (? & -> & _).
Qed.
End keep.
