(* ===== verification/Pattern.v ===== *)
(** * Index scope patterns

    [index/pattern.rs]: which a-nodes an index covers, and which of them a mutation
    at an access path could have changed.  The walk over the data table is proved
    to find the keys of exactly the matching nodes on the line of that path. *)
From S2P Require Import Prelude BTree Codec Path Key Dir Engine WriteBuffer Ctx Tree.

Inductive PatternSeg := Lit (name : bytes) | Star.
#[export] Instance PatternSeg_eq_dec : EqDecision PatternSeg.
Proof. solve_decision. Defined.

(** [Pattern]: the segments in path order. *)
Definition Pattern := list PatternSeg.

Definition STAR : bytes := [42].

(** [for token in pattern.split('/')] *)
Fixpoint pattern_tokens (tokens : list bytes) (segs : Pattern) : res Pattern :=
  match tokens with
  | [] => Ok segs
  | token :: tokens =>
      match token with
      | [] => Err (InvalidPath "empty segment in index pattern '{pattern}'")
      | _ => pattern_tokens tokens (segs ++ [if bool_decide (token = STAR) then Star else Lit token])
      end
  end.

Definition Pattern_parse (pattern : bytes) : res Pattern :=
  match pattern with
  | [] => Ok []
  | _ => pattern_tokens (split_on SLASH pattern) []
  end.

Definition Pattern_depth (p : Pattern) : Z := blen p.

Section walk.
Context {T : Type} `{KV T Z bytes}.

(** The child keys of a directory. *)
Definition children (d : T) (akey : AKey) : res (list AKey) :=
  let? entry := read_entry d akey in
  match entry with
  | None => Ok []
  | Some entry =>
      let? '(kind, payload) := entry_split entry in
      match kind with
      | KFile => Ok []
      | KDir => let? dir := ArchivedDir_new payload in let? es := dir_entries dir in Ok (es.*2)
      end
  end.

(** [for child in children { self.walk(..)?; }], pushing to [out]. *)
Fixpoint walk_children (f : AKey → list AKey → res (list AKey)) (l : list AKey) (out : list AKey)
    : res (list AKey) :=
  match l with
  | [] => Ok out
  | ch :: l => let? out := f ch out in walk_children f l out
  end.

(** [segs] are the segments from [si] on and [scope] the names from [depth] on. *)
Fixpoint walk (d : T) (segs : Pattern) (cur : AKey) (scope : APath) (out : list AKey) : res (list AKey) :=
  match segs with
  | [] => Ok (out ++ [cur])
  | Lit name :: segs =>
      if match scope with s :: _ => negb (bool_decide (s = name)) | [] => false end then Ok out
      else
        let? ch := child_of d cur name in
        match ch with
        | Some ch => walk d segs ch (tail scope) out
        | None => Ok out
        end
  | Star :: segs =>
      match scope with
      | s :: scope =>
          let? ch := child_of d cur s in
          match ch with
          | Some ch => walk d segs ch scope out
          | None => Ok out
          end
      | [] => let? l := children d cur in walk_children (λ ch, walk d segs ch []) l out
      end
  end.

Definition affected_entities (p : Pattern) (d : T) (scope : APath) : res (list AKey) :=
  walk d p ROOT scope [].
End walk.

(** ** Which paths match *)

Definition seg_matches (s : PatternSeg) (n : bytes) : Prop :=
  match s with Lit name => n = name | Star => True end.
Definition matches (p : Pattern) (q : APath) : Prop := Forall2 seg_matches p q.
#[export] Instance seg_matches_dec s n : Decision (seg_matches s n).
Proof. destruct s; cbn; apply _. Defined.
#[export] Instance matches_dec p q : Decision (matches p q).
Proof. unfold matches. apply _. Defined.

(** On one root-to-a-node line. *)
Definition on_line (scope q : APath) : Prop := scope `prefix_of` q ∨ q `prefix_of` scope.
#[export] Instance on_line_dec scope q : Decision (on_line scope q).
Proof. unfold on_line. apply _. Defined.

Lemma on_line_cons n scope m q : on_line (n :: scope) (m :: q) ↔ n = m ∧ on_line scope q.
Proof.
  unfold on_line. split.
  - intros [Hp|Hp]; pose proof (prefix_cons_inv_1 _ _ _ _ Hp) as E; apply prefix_cons_inv_2 in Hp; auto.
  - intros [-> [Hp|Hp]]; [left|right]; by apply prefix_cons.
Qed.

Lemma on_line_nil q : on_line [] q.
Proof. left. apply prefix_nil. Qed.

(** ** The walk on a tree *)

Definition tsub (x : atree) : list (bytes * atree) := match x with ADir _ ch => ch | AFile _ _ => [] end.

Fixpoint t_walk (segs : Pattern) (x : atree) (scope : APath) : list atree :=
  match segs with
  | [] => [x]
  | Lit name :: segs =>
      if match scope with s :: _ => negb (bool_decide (s = name)) | [] => false end then []
      else match bt_get (tsub x) name with Some c => t_walk segs c (tail scope) | None => [] end
  | Star :: segs =>
      match scope with
      | s :: scope => match bt_get (tsub x) s with Some c => t_walk segs c scope | None => [] end
      | [] => concat (map (λ e, t_walk segs e.2 []) (tsub x))
      end
  end.

Lemma tlookup_cons_sub x n q :
  tlookup x (n :: q) = match bt_get (tsub x) n with Some c => tlookup c q | None => None end.
Proof. by destruct x. Qed.

Lemma tsorted_sub x : tsorted x → bt_sorted (tsub x) ∧ Forall (λ e, tsorted e.2) (tsub x).
Proof. destruct x as [k b|k ch]; [|apply tsorted_dir]. intros _. by split; constructor. Qed.

Lemma t_walk_spec segs : ∀ x scope k,
  tsorted x →
  (k ∈ t_walk segs x scope ↔
   ∃ q, tlookup x q = Some k ∧ matches segs q ∧ on_line scope q).
Proof.
  assert (∀ (x : atree) segs s scope k,
    (∃ q, tlookup x q = Some k ∧ matches (s :: segs) q ∧ on_line scope q) ↔
    (∃ n c q, bt_get (tsub x) n = Some c ∧ tlookup c q = Some k ∧ seg_matches s n ∧
       matches segs q ∧ on_line scope (n :: q))) as Hcons.
  { intros x sg s scope k. split.
    - intros (q & Hl & Hm & Ho). unfold matches in Hm. inversion Hm as [|? n ? q' Hn Hm']; subst.
      rewrite tlookup_cons_sub in Hl. destruct (bt_get (tsub x) n) as [c|] eqn:E; [|done]. by exists n, c, q'.
    - intros (n & c & q & E & Hl & Hn & Hm & Ho). exists (n :: q).
      split_and!; [by rewrite tlookup_cons_sub, E|by constructor|done]. }
  induction segs as [|s segs IH]; intros x scope k Hs.
  - cbn [t_walk]. rewrite list_elem_of_singleton. split.
    + intros ->. exists []. split_and!; [done|constructor|right; apply prefix_nil].
    + intros (q & Hl & Hm & _). unfold matches in Hm. inversion Hm; subst. cbn in Hl. by injection Hl as ->.
  - destruct (tsorted_sub x Hs) as [Hb Hch]. rewrite (Hcons x segs s scope k). clear Hcons.
    assert (∀ n c, bt_get (tsub x) n = Some c → tsorted c) as Hsub.
    { intros n c Hg%bt_get_Some_in. rewrite Forall_forall in Hch. by apply (Hch (n, c)). }
    assert (∀ n scope', (∀ q, on_line scope (n :: q) ↔ on_line scope' q) →
      k ∈ match bt_get (tsub x) n with Some c => t_walk segs c scope' | None => [] end ↔
      ∃ c q, bt_get (tsub x) n = Some c ∧ tlookup c q = Some k ∧ matches segs q ∧ on_line scope (n :: q)) as Hone.
    { intros n scope' Ho. destruct (bt_get (tsub x) n) as [c|] eqn:E.
      - rewrite (IH c scope' k (Hsub n c E)). setoid_rewrite Ho. naive_solver.
      - split; [by intros ?%elem_of_nil|naive_solver]. }
    destruct s as [name|]; cbn [t_walk seg_matches].
    + destruct scope as [|s scope]; cbn [tail].
      * rewrite (Hone name []); [|intros q; split; intros _; apply on_line_nil]. naive_solver.
      * case_bool_decide as Hsn; cbn [negb].
        -- subst s. rewrite (Hone name scope); [naive_solver|]. intros q. rewrite on_line_cons. naive_solver.
        -- split; [by intros ?%elem_of_nil|]. intros (n & c & q & _ & _ & -> & _ & Ho).
           by apply on_line_cons in Ho as [-> _].
    + destruct scope as [|s scope].
      * rewrite list_elem_of_In, in_concat. setoid_rewrite in_map_iff. setoid_rewrite <- list_elem_of_In. split.
        -- intros (l & ([n c] & <- & Hin) & Hk). apply bt_elem_get in Hin; [|done].
           apply (IH c [] k (Hsub n c Hin)) in Hk as (q & ? & ? & ?).
           exists n, c, q. split_and!; try done. apply on_line_nil.
        -- intros (n & c & q & Hg & Hl & _ & Hm & _). exists (t_walk segs c []). split.
           ++ exists (n, c). split; [done|]. by apply bt_get_Some_in.
           ++ apply (IH c [] k (Hsub n c Hg)). exists q. split_and!; try done. apply on_line_nil.
      * rewrite (Hone s scope); [|intros q; rewrite on_line_cons; naive_solver]. split; [naive_solver|].
        intros (n & c & q & Hg & Hl & _ & Hm & Ho). pose proof (proj1 (on_line_cons _ _ _ _) Ho) as [-> _].
        naive_solver.
Qed.

(** ** The walk on the data table *)

Section refine.
Context {T : Type} `{KV T Z bytes}.
Implicit Type d : T.

(** The table [d] spells out the subtree [x]; a directory that was never written
    counts as empty. *)
Definition spells d (x : atree) : Prop :=
  (∀ k e, kv_get d k = Some e → entry_ok e) ∧
  (holds (engine_view d) x ∨ engine_view d (akey x) = None ∧ tsub x = [] ∧ is_dir x = true).

Lemma engine_child d k n :
  (∀ k e, kv_get d k = Some e → entry_ok e) →
  child_of d k n = Ok (match engine_view d k with Some (NDir m) => bt_get m n | _ => None end).
Proof.
  intros He. unfold child_of, engine_view. destruct (kv_get d k) as [e|] eqn:Eg; [|done].
  destruct (He _ _ Eg) as [(m & Hm & ->)|(b & ->)]; cbn [mbind option_bind]; [|done].
  rewrite decode_dir by done. unfold dir_entry, entry_split. cbn. rewrite ArchivedDir_new_ok by done.
  cbn. by rewrite dir_get_lemma.
Qed.

Lemma engine_children d k :
  (∀ k e, kv_get d k = Some e → entry_ok e) →
  children d k = Ok (match engine_view d k with Some (NDir m) => m.*2 | _ => [] end).
Proof.
  intros He. unfold children, read_entry, engine_view. cbn [rbind]. destruct (kv_get d k) as [e|] eqn:Eg; [|done].
  destruct (He _ _ Eg) as [(m & Hm & ->)|(b & ->)]; cbn [mbind option_bind]; [|done].
  rewrite decode_dir by done. unfold dir_entry, entry_split. cbn. rewrite ArchivedDir_new_ok by done.
  cbn. by rewrite dir_entries_lemma.
Qed.

Lemma spells_child d x n :
  spells d x → child_of d (akey x) n = Ok (akey <$> bt_get (tsub x) n).
Proof.
  intros [He Hx]. rewrite engine_child by done. f_equal. destruct Hx as [Hx|(-> & -> & _)]; [|done].
  destruct x as [k b|k ch]; cbn in Hx |- *; [by rewrite Hx|].
  destruct Hx as [-> _]. apply bt_get_ckeys.
Qed.

Lemma spells_children d x :
  spells d x → children d (akey x) = Ok (map (λ e, akey e.2) (tsub x)).
Proof.
  intros [He Hx]. rewrite engine_children by done. f_equal. destruct Hx as [Hx|(-> & -> & _)]; [|done].
  destruct x as [k b|k ch]; cbn in Hx |- *; [by rewrite Hx|].
  destruct Hx as [-> _]. unfold ckeys. by rewrite <- list_fmap_compose.
Qed.

Lemma spells_sub d x n c : spells d x → (n, c) ∈ tsub x → spells d c.
Proof.
  intros [He Hx] Hin. split; [done|left]. destruct Hx as [Hx|(_ & E & _)]; [|rewrite E in Hin; by apply elem_of_nil in Hin].
  destruct x as [k b|k ch]; cbn in Hin; [by apply elem_of_nil in Hin|].
  apply holds_dir in Hx as [_ Hch]. rewrite Forall_forall in Hch. by apply (Hch (n, c)).
Qed.

Lemma spells_lookup d t q y : spells d t → tlookup t q = Some y → spells d y.
Proof.
  revert t; induction q as [|n q IH]; intros t Ht Hl; [cbn in Hl; by injection Hl as <-|].
  rewrite tlookup_cons_sub in Hl. destruct (bt_get (tsub t) n) as [c|] eqn:E; [|done].
  apply (IH c); [|done]. by eapply spells_sub, bt_get_Some_in.
Qed.

Lemma walk_spec d segs : ∀ x scope out,
  spells d x → walk d segs (akey x) scope out = Ok (out ++ map akey (t_walk segs x scope)).
Proof.
  induction segs as [|s segs IH]; intros x scope out Hx; cbn [walk t_walk]; [done|].
  assert (∀ n scope', (let? ch := child_of d (akey x) n in
      match ch with Some ch => walk d segs ch scope' out | None => Ok out end) =
      Ok (out ++ map akey (match bt_get (tsub x) n with Some c => t_walk segs c scope' | None => [] end))) as Hone.
  { intros n scope'. rewrite (spells_child d x n Hx). cbn [rbind].
    destruct (bt_get (tsub x) n) as [c|] eqn:E; cbn; [|by rewrite app_nil_r].
    apply IH. by eapply spells_sub, bt_get_Some_in. }
  destruct s as [name|].
  - destruct scope as [|s scope]; [by apply (Hone name [])|]. cbn [tail].
    case_bool_decide; cbn [negb]; [by apply Hone|by rewrite app_nil_r].
  - destruct scope as [|s scope]; [|by apply Hone].
    rewrite (spells_children d x Hx). cbn [rbind].
    assert (∀ n c, (n, c) ∈ tsub x → spells d c) as Hsub by (intros n c; by apply spells_sub).
    clear Hx Hone. revert out. induction (tsub x) as [|[n c] l IHl]; intros out; cbn; [by rewrite app_nil_r|].
    rewrite (IH c [] out) by (apply (Hsub n); left). cbn [rbind].
    rewrite IHl by (intros m y Hin; apply (Hsub m); by right). by rewrite map_app, app_assoc.
Qed.

(** The walk finds what a mutation could have changed: on a table that spells out
    a filesystem, it returns without error the keys of exactly the nodes whose path
    matches the pattern segment by segment and lies on one root-to-a-node line with
    the touched path - above it, at it, or below it. *)
Theorem affected_entities_spec d t p scope :
  spells d t → tsorted t → akey t = ROOT →
  ∃ ks, affected_entities p d scope = Ok ks ∧
    ∀ k, k ∈ ks ↔ ∃ q y, tlookup t q = Some y ∧ akey y = k ∧ matches p q ∧ on_line scope q.
Proof.
  intros Ht Hs Hk. exists (map akey (t_walk p t scope)). split.
  2: { intros k. rewrite list_elem_of_fmap. setoid_rewrite (t_walk_spec p t scope _ Hs). naive_solver. }
  unfold affected_entities. rewrite <- Hk. by apply walk_spec.
Qed.
End refine.
