(* ===== verification/Maintenance.v ===== *)
(** * Index entries

    [index/key.rs], [index/maintenance.rs] and [index/scan.rs]: the physical key of
    an entry, the entries an a-node implies, and the reads and writes of the shared
    index table, an ordered key-value table of the engine. *)
From S2P Require Import Prelude BTree Codec Ext Scalar Path Ordered IndexDef Value Archived Access Key Dir Engine Registry WriteBuffer Ctx Tree Pattern.

(** ** Keys *)

Definition id_prefix (id : Z) : bytes := to_be 4 id.

Definition entry_key (id : Z) (cols : bytes) (entity : option AKey) : bytes :=
  (id_prefix id ++ cols) ++ match entity with Some akey => into_bytes akey | None => [] end.

Definition starts_with (bs prefix : bytes) : bool := bool_decide (prefix `prefix_of` bs).

Section entries.
Context `{Ext} {T : Type} `{KV T Z bytes}.

(** ** The entries an a-node implies *)

(** The scalar leaf at [column] of a document's blob. *)
Definition payload_scalar (payload : bytes) (column : VPath) : res Scalar :=
  let? root := archived_new payload in
  let? node := navigate payload root column in
  match node with
  | None => Ok Null
  | Some off =>
      let? k := node_kind_at payload off in
      match k with
      | KLeaf => node_scalar payload off
      | _ => Ok Null
      end
  end.

Definition column_scalar (d : T) (entity : AKey) (column : VPath) : res Scalar :=
  let? entry := read_entry d entity in
  match entry with
  | None => Ok Null
  | Some entry =>
      let? '(kind, payload) := entry_split entry in
      match kind with
      | KDir => Ok Null
      | KFile => payload_scalar payload column
      end
  end.

Definition index_key (d : T) (id : Z) (def : IndexDef) (entity : AKey) : res (bytes * bytes) :=
  let? values := mapM_res (λ column, column_scalar d entity (col_path column)) (def_columns def) in
  let cols := encode_columns def values in
  if def_unique def then Ok (entry_key id cols None, into_bytes entity)
  else Ok (entry_key id cols (Some entity), []).

Definition entries_for (d : T) (entry : IndexEntry) (scope : APath) : res (list (bytes * bytes)) :=
  let? pattern := Pattern_parse (def_pattern (e_def entry)) in
  let? entities := affected_entities pattern d scope in
  mapM_res (index_key d (e_id entry) (e_def entry)) entities.

(** ** Maintenance *)

Context {I : Type} `{OrdKV I}.

Definition guard_unique (k v : bytes) (i : I) : res unit :=
  match kv_get i k with
  | Some existing => if bool_decide (existing = v) then Ok tt else Err UniqueViolation
  | None => Ok tt
  end.

Definition index_remove (k : bytes) : SM I unit := modify (λ i, kv_remove i k).

Definition m_delete (d : T) (indexes : list IndexEntry) (scope : APath) : SM I unit :=
  for_each indexes (λ entry,
    let! kvs := asks (λ _, entries_for d entry scope) in
    for_each kvs (λ kv, index_remove kv.1)).

Definition m_insert (d : T) (indexes : list IndexEntry) (scope : APath) : SM I unit :=
  for_each indexes (λ entry,
    let unique := def_unique (e_def entry) in
    let! kvs := asks (λ _, entries_for d entry scope) in
    for_each kvs (λ kv,
      let! _ := if unique then asks (guard_unique kv.1 kv.2) else sret tt in
      modify (λ i, kv_insert i kv.1 kv.2))).

(** The loop of [delete_all] collects the keys up to the first that does not start
    with the prefix. *)
Fixpoint block_keys (prefix : bytes) (items : list (bytes * bytes)) (keys : list bytes) : list bytes :=
  match items with
  | [] => keys
  | (k, _) :: items => if negb (starts_with k prefix) then keys else block_keys prefix items (keys ++ [k])
  end.

Definition delete_all (entry : IndexEntry) : SM I unit :=
  let prefix := id_prefix (e_id entry) in
  let! items := asks (λ i, Ok (kv_range i prefix)) in
  for_each (block_keys prefix items []) index_remove.

(** ** Scans *)

Fixpoint scan_loop (lower : bytes) (unique : bool) (items : list (bytes * bytes)) (entities : list AKey)
    : res (list AKey) :=
  match items with
  | [] => Ok entities
  | (k, v) :: items =>
      if negb (starts_with k lower) then Ok entities
      else
        let? entity := if unique then try_from_bytes v else try_from_bytes (drop (length k - 16) k) in
        scan_loop lower unique items (entities ++ [entity])
  end.

Definition scan_prefix (i : I) (id : Z) (cols_prefix : bytes) (unique : bool) : res (list AKey) :=
  let lower := id_prefix id ++ cols_prefix in
  scan_loop lower unique (kv_range i lower) [].
End entries.

(** ** What the tree implies

    [t_column] is the column of an a-node, [t_entry] its entry in an index, and
    [member] the nodes an index covers. *)
Section tree_entries.
Context `{Ext}.

Definition blob_ok (b : bytes) : Prop := ∃ v, b = encode v ∧ value_ok v ∧ blen b < 2 ^ 32.

(** Every file holds a document. *)
Definition docs_ok (t : atree) : Prop := ∀ q k b, tlookup t q = Some (AFile k b) → blob_ok b.

Definition t_column (x : atree) (column : VPath) : Scalar :=
  match x with
  | AFile _ b => match payload_scalar b column with Ok s => s | _ => Null end
  | ADir _ _ => Null
  end.

Definition t_columns (e : IndexEntry) (x : atree) : list Scalar :=
  map (λ c, t_column x (col_path c)) (def_columns (e_def e)).

Definition t_entry (e : IndexEntry) (x : atree) : bytes * bytes :=
  let cols := encode_columns (e_def e) (t_columns e x) in
  if def_unique (e_def e) then (entry_key (e_id e) cols None, into_bytes (akey x))
  else (entry_key (e_id e) cols (Some (akey x)), []).

(** An index the registry can have accepted: its pattern parses. *)
Definition usable (e : IndexEntry) : Prop :=
  unsigned_ok 32 (e_id e) ∧ is_Some (match Pattern_parse (def_pattern (e_def e)) with Ok p => Some p | _ => None end) ∧
  Forall (λ c, vpath_str_ok (col_path c)) (def_columns (e_def e)).

(** The a-node [y] at [q] is one the index covers. *)
Definition covers (e : IndexEntry) (q : APath) : Prop :=
  ∃ p, Pattern_parse (def_pattern (e_def e)) = Ok p ∧ matches p q.
Definition member (t : atree) (e : IndexEntry) (q : APath) (y : atree) : Prop :=
  covers e q ∧ tlookup t q = Some y.

(** The members on the line of a touched path. *)
Definition touched (e : IndexEntry) (t : atree) (scope : APath) : list atree :=
  match Pattern_parse (def_pattern (e_def e)) with Ok p => t_walk p t scope | _ => [] end.

Lemma touched_spec e t scope y :
  tsorted t → y ∈ touched e t scope ↔ ∃ q, member t e q y ∧ on_line scope q.
Proof.
  intros Hs. unfold touched, member, covers. destruct (Pattern_parse _) as [p|x| |] eqn:E.
  - rewrite t_walk_spec by done. split.
    + intros (q & ? & ? & ?). exists q. split_and!; eauto.
    + intros (q & [(p' & [= <-] & ?) ?] & ?). exists q. split_and!; eauto.
  - split; [by intros ?%elem_of_nil|]. by intros (q & [(p' & ? & ?) ?] & ?).
  - split; [by intros ?%elem_of_nil|]. by intros (q & [(p' & ? & ?) ?] & ?).
  - split; [by intros ?%elem_of_nil|]. by intros (q & [(p' & ? & ?) ?] & ?).
Qed.
End tree_entries.

Section entries_spec.
Context `{Ext} `{!ExtLaws} {T : Type} `{KV T Z bytes}.
Implicit Type d : T.

Lemma payload_scalar_spec v p :
  value_ok v → blen (encode v) < 2 ^ 32 → vpath_str_ok p →
  payload_scalar (encode v) p = Ok (default Null (subtree v p ≫= leaf)).
Proof.
  intros Hv Hb Hp. unfold payload_scalar. destruct (encode_new v Hb) as (root & -> & Hr). cbn [rbind].
  pose proof (navigate_repr (encode v) Hb p root v Hp Hv Hr) as Hn.
  destruct (subtree v p) as [c|] eqn:Hc; simpl in Hn; [|by rewrite Hn].
  destruct Hn as (off & -> & Hoff). cbn [rbind]. rewrite (kind_at_repr _ Hb _ c Hoff). cbn [rbind].
  destruct c; cbn; [|done|done]. pose proof (subtree_value_ok _ _ _ Hv Hc) as Hs. apply node_scalar_repr; [done| |exact Hs|done].
  exact _.
Qed.

Lemma column_scalar_tree d x p :
  spells d x → (∀ k b, x = AFile k b → blob_ok b) → vpath_str_ok p →
  column_scalar d (akey x) p = Ok (t_column x p).
Proof.
  intros [He Hx] Hb Hp. unfold column_scalar, read_entry. cbn [rbind].
  assert (∀ n, engine_view d (akey x) = Some n → ∃ e, kv_get d (akey x) = Some e ∧
    match n with NDir m => ∃ b, e = dir_entry b | NFile b => e = file_entry b end) as Hread.
  { intros n. unfold engine_view. destruct (kv_get d (akey x)) as [e|] eqn:E; [|done]. cbn [mbind option_bind].
    destruct (He _ _ E) as [(m & Hm & ->)|(b & ->)]; [rewrite decode_dir by done|]; intros [= <-]; eauto. }
  destruct x as [k b|k ch]; cbn [akey t_column] in *.
  - destruct Hx as [Hx|(_ & _ & ?)]; [|done]. cbn in Hx. destruct (Hread _ Hx) as (e & -> & ->). cbn.
    destruct (Hb k b eq_refl) as (v & -> & Hv & Hl). by rewrite payload_scalar_spec.
  - destruct Hx as [[Hx _]%holds_dir|(Hx & _)]; [destruct (Hread _ Hx) as (e & -> & b & ->); done|].
    unfold engine_view in Hx. destruct (kv_get d k) as [e|] eqn:E; [|done]. cbn [mbind option_bind] in Hx.
    destruct (He _ _ E) as [(m & Hm & ->)|(b & ->)]; [by rewrite decode_dir in Hx|done].
Qed.

Lemma mapM_res_map {A B} (f : A → res B) (g : A → B) l : (∀ x, x ∈ l → f x = Ok (g x)) → mapM_res f l = Ok (map g l).
Proof.
  induction l as [|x l IH]; intros Hf; cbn [mapM_res map]; [done|].
  rewrite Hf by left. cbn [rbind]. rewrite IH; [done|]. intros y Hy. apply Hf. by right.
Qed.

Lemma index_key_tree d e x :
  usable e → spells d x → (∀ k b, x = AFile k b → blob_ok b) →
  index_key d (e_id e) (e_def e) (akey x) = Ok (t_entry e x).
Proof.
  intros (_ & _ & Hc) Hx Hb. unfold index_key, t_entry, t_columns.
  rewrite (mapM_res_map _ (λ c, t_column x (col_path c))).
  - cbn [rbind]. by destruct (def_unique (e_def e)).
  - intros c Hin. apply column_scalar_tree; [done..|]. rewrite Forall_forall in Hc. by apply Hc.
Qed.

Lemma entries_for_tree d e t scope :
  usable e → spells d t → tsorted t → akey t = ROOT → docs_ok t →
  entries_for d e scope = Ok (map (t_entry e) (touched e t scope)).
Proof.
  intros Hu Ht Hs Hk Hd. unfold entries_for, touched, affected_entities. pose proof Hu as (_ & [p' Hp] & _).
  destruct (Pattern_parse _) as [p| | |]; [|done..]. cbn [rbind]. rewrite <- Hk, (walk_spec d p t scope []) by done.
  cbn [rbind app]. assert (∀ y, y ∈ t_walk p t scope → index_key d (e_id e) (e_def e) (akey y) = Ok (t_entry e y)) as Hy.
  { intros y (q & Hl & _)%t_walk_spec; [|done]. apply index_key_tree; [done|by eapply spells_lookup|].
    intros k b ->. by apply (Hd q k). }
  induction (t_walk p t scope) as [|y l IH]; cbn [map mapM_res]; [done|].
  rewrite Hy by left. cbn [rbind]. rewrite IH; [done|]. intros z Hz. apply Hy. by right.
Qed.
End entries_spec.

(** ** Runs of removals and insertions *)

Section table_runs.
Context {I : Type} `{OrdKV I} `{!OrdKVLaws I}.
Implicit Type i : I.

Lemma removals_spec (ks : list bytes) : ∀ i,
  ∃ i', for_each ks index_remove i = (Ok tt, i') ∧
    ∀ k, kv_get i' k = if decide (k ∈ ks) then None else kv_get i k.
Proof.
  induction ks as [|k0 ks IH]; intros i; cbn [for_each].
  - exists i. split; [done|]. intros k. by rewrite decide_False by apply not_elem_of_nil.
  - unfold index_remove at 1. rewrite sbind_modify. destruct (IH (kv_remove i k0)) as (i' & -> & Hi').
    exists i'. split; [done|]. intros k. rewrite Hi', kv_get_remove.
    destruct (decide (k ∈ k0 :: ks)) as [Hin|Hin]; rewrite elem_of_cons in Hin;
      destruct (decide (k ∈ ks)), (decide (k = k0)); try done; naive_solver.
Qed.

(** One insertion, guarded when the index is unique. *)
Definition put_one (x : bool * (bytes * bytes)) : SM I unit :=
  let! _ := if x.1 then asks (guard_unique x.2.1 x.2.2) else sret tt in
  modify (λ i, kv_insert i x.2.1 x.2.2).

(** Entries at one key come from one index, and agree if it is not unique. *)
Definition consistent (l : list (bool * (bytes * bytes))) : Prop :=
  ∀ x y, x ∈ l → y ∈ l → x.2.1 = y.2.1 → x.1 = y.1 ∧ (x.1 = false → x.2.2 = y.2.2).

Lemma put_one_spec i (x : bool * (bytes * bytes)) :
  if x.1 then
    match kv_get i x.2.1 with
    | Some w => if decide (w = x.2.2) then put_one x i = (Ok tt, kv_insert i x.2.1 x.2.2)
                else put_one x i = (Err UniqueViolation, i)
    | None => put_one x i = (Ok tt, kv_insert i x.2.1 x.2.2)
    end
  else put_one x i = (Ok tt, kv_insert i x.2.1 x.2.2).
Proof.
  unfold put_one, guard_unique, sbind, asks. destruct x as [[] [k v]]; cbn; [|done].
  destruct (kv_get i k) as [w|]; [|done]. destruct (decide (w = v)) as [->|Hne].
  - by rewrite bool_decide_true.
  - by rewrite bool_decide_false.
Qed.

Lemma insertions_spec l : consistent l → ∀ i,
  (∃ i', for_each l put_one i = (Ok tt, i') ∧
     (∀ x, x ∈ l → kv_get i' x.2.1 = Some x.2.2) ∧
     (∀ k, (∀ x, x ∈ l → x.2.1 ≠ k) → kv_get i' k = kv_get i k) ∧
     (∀ x w, x ∈ l → x.1 = true → kv_get i x.2.1 = Some w → w = x.2.2)) ∨
  (∃ i' x, for_each l put_one i = (Err UniqueViolation, i') ∧ x ∈ l ∧ x.1 = true ∧
     ((∃ w, kv_get i x.2.1 = Some w ∧ w ≠ x.2.2) ∨ ∃ y, y ∈ l ∧ y.2.1 = x.2.1 ∧ y.2.2 ≠ x.2.2)).
Proof.
  induction l as [|x l IH]; intros Hc i; cbn [for_each].
  { left. exists i. split_and!; try done; intros; by (exfalso; eapply not_elem_of_nil). }
  assert (consistent l) as Hcl by (intros y z Hy Hz; apply Hc; by right).
  assert ((put_one x i = (Ok tt, kv_insert i x.2.1 x.2.2) ∧ ∀ w, x.1 = true → kv_get i x.2.1 = Some w → w = x.2.2) ∨
    put_one x i = (Err UniqueViolation, i) ∧ x.1 = true ∧ ∃ w, kv_get i x.2.1 = Some w ∧ w ≠ x.2.2) as Hx.
  { pose proof (put_one_spec i x) as Hp. destruct (x.1); [|left; by split].
    destruct (kv_get i x.2.1) as [w|]; [|left; by split].
    destruct (decide (w = x.2.2)); [left; split; [done|congruence]|right; eauto]. }
  destruct Hx as [[Ex Hgx]|(Ex & Hux & w & Hw)].
  2: { right. exists i, x. split_and!; [by apply sbind_Err|left|done|left; eauto]. }
  rewrite (sbind_Ok _ _ _ _ _ Ex). destruct (IH Hcl (kv_insert i x.2.1 x.2.2)) as [(i' & E & Hin & Hout & Hg)|(i' & y & E & Hy & Huy & Hbad)].
  - left. exists i'. split_and!; [done| | |].
    + intros y [->|Hy]%elem_of_cons; [|by apply Hin].
      destruct (decide (Exists (λ z, z.2.1 = x.2.1) l)) as [(z & Hz & Ez)%Exists_exists|Hno].
      * rewrite <- Ez, (Hin z Hz). f_equal. destruct (Hc z x) as [Eu Ev]; [by right|left|done|].
        destruct (z.1) eqn:Euz; [|by apply Ev]. symmetry. apply (Hg z); [done..|].
        by rewrite Ez, kv_get_insert, decide_True.
      * rewrite Hout; [by rewrite kv_get_insert, decide_True|]. intros z Hz Ez. apply Hno, Exists_exists. eauto.
    + intros k Hk. rewrite Hout by (intros z Hz; apply Hk; by right). rewrite kv_get_insert, decide_False; [done|].
      intros ->. by apply (Hk x); [left|].
    + intros y w [->|Hy]%elem_of_cons Huy Hw; [by apply Hgx|]. destruct (decide (y.2.1 = x.2.1)) as [Ek|Ek].
      * destruct (Hc y x) as [Eu _]; [by right|left|done|]. rewrite Ek in Hw.
        rewrite (Hgx w) by congruence. apply (Hg y); [done..|]. by rewrite Ek, kv_get_insert, decide_True.
      * apply (Hg y); [done..|]. by rewrite kv_get_insert, decide_False.
  - right. exists i', y. split_and!; [done|by right|done|]. destruct Hbad as [(w & Hw & Hne)|(z & Hz & Ez & Hne)].
    + rewrite kv_get_insert in Hw. destruct (decide (y.2.1 = x.2.1)) as [Ek|].
      * right. exists x. split_and!; [left|done|congruence].
      * left. eauto.
    + right. exists z. split_and!; [by right|done..].
Qed.
End table_runs.
