(* ===== verification/IndexSync.v ===== *)
(** * Keeping an index in step with the tree

    [indexed t i e]: the table [i] holds, under the id of the index [e], the entries
    of the a-nodes of [t] that [e] covers.  A mutation bracketed by the removal of
    the entries it touches and the insertion of those the new tree implies keeps
    this relation, or runs into a real duplicate of a unique index. *)
From S2P Require Import Prelude BTree Codec Ext Scalar Path Ordered IndexDef Value Archived Access Key Dir Engine Registry WriteBuffer Ctx Tree Pattern Maintenance.

(** ** The relation *)

Section indexed.
Context `{Ext} {I : Type} `{OrdKV I}.

(** Every file has its entry, and every entry is that of a covered node: a
    directory has one only when a mutation below it left one. *)
Record indexed (t : atree) (i : I) (e : IndexEntry) : Prop := {
  ix_sound k v : kv_get i k = Some v → id_prefix (e_id e) `prefix_of` k →
    ∃ q y, member t e q y ∧ t_entry e y = (k, v);
  ix_complete q y : member t e q y → is_dir y = false →
    kv_get i (t_entry e y).1 = Some (t_entry e y).2;
}.

(** Two covered nodes that a unique index cannot hold together. *)
Definition collision (t : atree) (e : IndexEntry) : Prop :=
  def_unique (e_def e) = true ∧ ∃ q y r z, member t e q y ∧ member t e r z ∧
    (t_entry e y).1 = (t_entry e z).1 ∧ akey y ≠ akey z.

(** No directory on the line of [scope] is covered by a unique index. *)
Definition dirs_free (t : atree) (e : IndexEntry) (scopes : list APath) : Prop :=
  def_unique (e_def e) = true → ∀ q y, member t e q y → Exists (λ s, on_line s q) scopes → is_dir y = false.

(** A tree the data table spells out. *)
Record tree_ok (t : atree) : Prop := {
  tr_sorted : tsorted t;
  tr_root : akey t = ROOT;
  tr_nodup : NoDup (tkeys t);
  tr_docs : docs_ok t;
  tr_keys q y : tlookup t q = Some y → akey_ok (akey y);
}.

(** ** Entries of different indexes and nodes *)

Lemma entry_prefix e y : id_prefix (e_id e) `prefix_of` (t_entry e y).1.
Proof.
  unfold t_entry, entry_key. destruct (def_unique _); cbn [fst]; rewrite <- app_assoc; by apply prefix_app_r.
Qed.

Lemma id_prefix_inj a b k :
  unsigned_ok 32 a → unsigned_ok 32 b → id_prefix a `prefix_of` k → id_prefix b `prefix_of` k → a = b.
Proof.
  intros Ha Hb [x ->] [y E]. unfold id_prefix in *.
  apply app_inj_1 in E as [E _]; [|by rewrite !length_to_be].
  apply (f_equal of_be) in E. rewrite !of_be_to_be in E. change (256 ^ Z.of_nat 4) with (2 ^ 32) in E.
  unfold unsigned_ok in *. rewrite !Z.mod_small in E by done. done.
Qed.

Lemma into_bytes_inj a b : akey_ok a → akey_ok b → into_bytes a = into_bytes b → a = b.
Proof. intros Ha Hb E. rewrite <- (from_into_bytes a Ha), <- (from_into_bytes b Hb). by rewrite E. Qed.

Lemma entry_key_inj id cols cols' a b :
  akey_ok a → akey_ok b → entry_key id cols (Some a) = entry_key id cols' (Some b) → a = b.
Proof.
  intros Ha Hb E. unfold entry_key in E. apply app_inj_2 in E as [_ E]; [by apply into_bytes_inj|].
  unfold into_bytes. by rewrite !length_to_be.
Qed.

(** Nodes with equal entries are the same node. *)
Lemma t_entry_inj e y z :
  akey_ok (akey y) → akey_ok (akey z) → t_entry e y = t_entry e z → akey y = akey z.
Proof.
  intros Hy Hz. unfold t_entry. destruct (def_unique _); intros E.
  - apply (f_equal snd) in E. cbn in E. by apply into_bytes_inj.
  - apply (f_equal fst) in E. cbn in E. by apply entry_key_inj in E.
Qed.

Lemma t_entry_key_inj e y z :
  akey_ok (akey y) → akey_ok (akey z) → (t_entry e y).1 = (t_entry e z).1 →
  (t_entry e y).2 = (t_entry e z).2 ∨ def_unique (e_def e) = true ∧ akey y ≠ akey z.
Proof.
  intros Hy Hz. unfold t_entry. destruct (def_unique _); cbn; intros E; [|by left].
  destruct (decide (akey y = akey z)) as [->|]; [by left|by right].
Qed.

Lemma member_unique t e q y r z :
  tree_ok t → member t e q y → member t e r z → akey y = akey z → q = r ∧ y = z.
Proof. intros Ht [_ Hy] [_ Hz] E. by apply (path_unique t q r y z (tr_nodup t Ht)). Qed.

Lemma spells_tree_keys {T} `{KV T Z bytes} (d : T) t q y :
  spells d t → akey_ok (akey t) → tlookup t q = Some y → akey_ok (akey y).
Proof.
  revert t; induction q as [|n q IH]; intros t Ht Hk Hl; [cbn in Hl; by injection Hl as <-|].
  rewrite tlookup_cons_sub in Hl. destruct (bt_get (tsub t) n) as [c|] eqn:E; [|done].
  apply (IH c); [by eapply spells_sub, bt_get_Some_in| |done]. destruct Ht as [He [Hh|(_ & Hs & _)]]; [|by rewrite Hs in E].
  destruct t as [k b|k ch]; cbn in E; [done|]. apply holds_dir in Hh as [Hv _]. unfold engine_view in Hv.
  destruct (kv_get d k) as [x|] eqn:Eg; [|done]. cbn [mbind option_bind] in Hv.
  destruct (He _ _ Eg) as [(m & Hm & ->)|(b & ->)]; [|done]. rewrite decode_dir in Hv by done. injection Hv as ->.
  destruct Hm as (_ & Hm & _). rewrite Forall_forall in Hm. apply bt_get_Some_in in E.
  apply (Hm (n, akey c)). unfold ckeys. apply list_elem_of_fmap. by exists (n, c).
Qed.
End indexed.

(** ** The removals and insertions of one mutation *)

Section sync.
Context `{Ext} `{!ExtLaws} {T : Type} `{KV T Z bytes} {I : Type} `{OrdKV I} `{!OrdKVLaws I}.
Implicit Types (d : T) (i : I).
Context (es : list IndexEntry).
Hypothesis Hids : NoDup (map e_id es).
Hypothesis Husable : Forall usable es.

Lemma es_id_inj e e' : e ∈ es → e' ∈ es → e_id e = e_id e' → e = e'.
Proof.
  clear Husable. intros He He' E. apply list_elem_of_lookup in He as [i He], He' as [j He'].
  assert (i = j) as ->; [|congruence]. eapply (NoDup_lookup _ _ _ (e_id e) Hids); rewrite list_lookup_fmap, ?He, ?He'; cbn; congruence.
Qed.

Lemma es_usable e : e ∈ es → usable e.
Proof. rewrite Forall_forall in Husable. auto. Qed.

Lemma es_key_inj e e' y z k : e ∈ es → e' ∈ es → (t_entry e y).1 = k → (t_entry e' z).1 = k → e = e'.
Proof.
  intros He He' Ey Ez. apply es_id_inj; [done..|]. pose proof (es_usable e He) as [Hu _]. pose proof (es_usable e' He') as [Hu' _].
  apply (id_prefix_inj _ _ k Hu Hu'); [rewrite <- Ey|rewrite <- Ez]; apply entry_prefix.
Qed.

(** What a mutation at [scopes] touches, index by index. *)
Definition touches (t : atree) (scopes : list APath) (e : IndexEntry) (y : atree) : Prop :=
  e ∈ es ∧ ∃ q, member t e q y ∧ Exists (λ s, on_line s q) scopes.

Definition entry_list (t : atree) (scope : APath) : list (bool * (bytes * bytes)) :=
  concat (map (λ e, map (λ y, (def_unique (e_def e), t_entry e y)) (touched e t scope)) es).
Definition entries_all (t : atree) (scopes : list APath) : list (bool * (bytes * bytes)) :=
  concat (map (entry_list t) scopes).

Lemma entries_all_elem t scopes x :
  tsorted t → x ∈ entries_all t scopes ↔ ∃ e y, touches t scopes e y ∧ x = (def_unique (e_def e), t_entry e y).
Proof.
  intros Hs. unfold entries_all, entry_list, touches.
  rewrite list_elem_of_In, in_concat. setoid_rewrite in_map_iff. split.
  - intros (l & (s & <- & Hs1) & Hx). apply in_concat in Hx as (l & Hl & Hx).
    apply in_map_iff in Hl as (e & <- & He). apply in_map_iff in Hx as (y & <- & Hy).
    apply list_elem_of_In in Hs1, He, Hy. apply touched_spec in Hy as (q & Hm & Ho); [|done].
    exists e, y. split; [|done]. split; [done|]. exists q. split; [done|]. apply Exists_exists. eauto.
  - intros (e & y & (He & q & Hm & (s & Hin & Ho)%Exists_exists) & ->).
    eexists. split; [exists s; split; [done|by apply list_elem_of_In]|].
    apply in_concat. eexists. split; [apply in_map_iff; exists e; split; [done|by apply list_elem_of_In]|].
    apply in_map_iff. exists y. split; [done|]. apply list_elem_of_In, touched_spec; [done|]. by exists q.
Qed.

Lemma m_delete_entries d t scope i :
  spells d t → tree_ok t →
  m_delete d es scope i = for_each (map (λ x, x.2.1) (entry_list t scope)) index_remove i.
Proof.
  intros Hd [Hs Hk _ Hdoc _]. unfold m_delete, entry_list.
  rewrite (for_each_ext _ (λ e, for_each (map (λ y, (t_entry e y).1) (touched e t scope)) index_remove)).
  - rewrite for_each_concat. f_equal. rewrite concat_map, map_map. f_equal.
    apply map_ext. intros e. by rewrite map_map.
  - intros e He s. rewrite (sbind_asks _ _ _ (map (t_entry e) (touched e t scope))).
    2: { by apply entries_for_tree; [apply es_usable|..]. }
    by rewrite !for_each_map.
Qed.

Lemma m_insert_entries d t scope i :
  spells d t → tree_ok t → m_insert d es scope i = for_each (entry_list t scope) put_one i.
Proof.
  intros Hd [Hs Hk _ Hdoc _]. unfold m_insert, entry_list.
  rewrite (for_each_ext _ (λ e, for_each (map (λ y, (def_unique (e_def e), t_entry e y)) (touched e t scope)) put_one)).
  - by rewrite for_each_concat.
  - intros e He s. rewrite (sbind_asks _ _ _ (map (t_entry e) (touched e t scope))).
    2: { by apply entries_for_tree; [apply es_usable|..]. }
    by rewrite !for_each_map.
Qed.

Lemma deletes_spec d t scopes i :
  spells d t → tree_ok t →
  ∃ i1, for_each scopes (m_delete d es) i = (Ok tt, i1) ∧
    ∀ k, (kv_get i1 k = kv_get i k ∧ ∀ e y, touches t scopes e y → (t_entry e y).1 ≠ k) ∨
         (kv_get i1 k = None ∧ ∃ e y, touches t scopes e y ∧ (t_entry e y).1 = k).
Proof.
  intros Hd Ht. rewrite (for_each_ext _ (λ s, for_each (map (λ x, x.2.1) (entry_list t s)) index_remove))
    by (intros s _ i'; by apply m_delete_entries).
  rewrite for_each_concat. destruct (removals_spec (concat (map (λ s, map (λ x, x.2.1) (entry_list t s)) scopes)) i) as (i1 & -> & Hi1).
  exists i1. split; [done|]. intros k. rewrite Hi1.
  assert (k ∈ concat (map (λ s, map (λ x, x.2.1) (entry_list t s)) scopes) ↔ ∃ e y, touches t scopes e y ∧ (t_entry e y).1 = k) as Hk.
  { rewrite <- (map_map (entry_list t) (map (λ x, x.2.1))), <- concat_map. fold (entries_all t scopes).
    rewrite list_elem_of_fmap. setoid_rewrite (entries_all_elem t scopes _ (tr_sorted t Ht)). split.
    - intros (x & -> & e & y & Hy & ->). by exists e, y.
    - intros (e & y & Hy & <-). eexists. split; [|by exists e, y]. done. }
  destruct (decide (k ∈ _)) as [Hin|Hin]; rewrite Hk in Hin; [by right|left]. split; [done|].
  intros e y Hy E. apply Hin. eauto.
Qed.

Lemma inserts_eq d t scopes i :
  spells d t → tree_ok t → for_each scopes (m_insert d es) i = for_each (entries_all t scopes) put_one i.
Proof.
  intros Hd Ht. rewrite (for_each_ext _ (λ s, for_each (entry_list t s) put_one))
    by (intros s _ i'; by apply m_insert_entries). apply for_each_concat.
Qed.

Lemma touches_key t scopes e y : tree_ok t → touches t scopes e y → akey_ok (akey y).
Proof. intros Ht (_ & q & [_ Hl] & _). by apply (tr_keys t Ht q). Qed.

Lemma entries_all_consistent t scopes : tree_ok t → consistent (entries_all t scopes).
Proof.
  intros Ht x z (e & y & Hy & ->)%entries_all_elem (e' & y' & Hy' & ->)%entries_all_elem; [|apply Ht..]. cbn. intros E.
  pose proof (es_key_inj e e' y y' _ (proj1 Hy) (proj1 Hy') E eq_refl) as <-. split; [done|]. intros Hu.
  destruct (t_entry_key_inj e y y') as [?|[Hu' _]]; [by eapply touches_key..|done|done|congruence].
Qed.

(** *** The bracket *)

Context (t t' : atree) (scopes : list APath) (i i1 i' : I).
Hypothesis Ht : tree_ok t.
Hypothesis Ht' : tree_ok t'.
Hypothesis Hframe : ∀ q, Forall (λ s, ¬ on_line s q) scopes → tlookup t' q = tlookup t q.
Hypothesis Hix : ∀ e, e ∈ es → indexed t i e.
Hypothesis Hdirs : ∀ e, e ∈ es → dirs_free t e scopes.
Hypothesis Hi1 : ∀ k, (kv_get i1 k = kv_get i k ∧ ∀ e y, touches t scopes e y → (t_entry e y).1 ≠ k) ∨
         (kv_get i1 k = None ∧ ∃ e y, touches t scopes e y ∧ (t_entry e y).1 = k).

(** A member off the touched lines is one of both trees. *)
Lemma off_line e q y :
  e ∈ es → ¬ Exists (λ s, on_line s q) scopes → member t e q y ↔ member t' e q y.
Proof.
  clear -Hframe. intros _ Hq. unfold member. rewrite Hframe; [done|].
  apply Forall_forall. intros s Hs Ho. apply Hq, Exists_exists. eauto.
Qed.

(** What survives the removals is the entry of an untouched member. *)
Lemma survivor e k v :
  e ∈ es → kv_get i1 k = Some v → id_prefix (e_id e) `prefix_of` k →
  ∃ q y, member t e q y ∧ member t' e q y ∧ t_entry e y = (k, v).
Proof.
  clear Hdirs Ht Ht'. intros He Hk Hp. destruct (Hi1 k) as [[E Hno]|[E _]]; [|congruence].
  rewrite E in Hk. destruct (ix_sound _ _ _ (Hix e He) k v Hk Hp) as (q & y & Hm & Ey). exists q, y.
  split_and!; [done| |done]. apply (off_line e q y He); [|done].
  intros Ho. apply (Hno e y); [|by rewrite Ey]. split; [done|]. by exists q.
Qed.

(** The entry of an untouched file survives. *)
Lemma untouched_kept e q y :
  e ∈ es → ¬ Exists (λ s, on_line s q) scopes → member t e q y → is_dir y = false →
  kv_get i1 (t_entry e y).1 = Some (t_entry e y).2.
Proof.
  intros He Hq Hm Hf. pose proof (ix_complete _ _ _ (Hix e He) q y Hm Hf) as Hget.
  destruct (Hi1 (t_entry e y).1) as [[-> _]|[_ (e' & z & Hz & Ez)]]; [done|]. exfalso.
  pose proof (es_key_inj e e' y z _ He (proj1 Hz) eq_refl Ez) as <-. destruct Hz as (_ & r & Hr & Ho).
  assert (akey y = akey z) as Ek.
  { pose proof (tr_keys t Ht q y (proj2 Hm)) as Hky. pose proof (tr_keys t Ht r z (proj2 Hr)) as Hkz.
    apply (t_entry_inj e); [done..|]. apply injective_projections; [done|].
    destruct (t_entry_key_inj e y z Hky Hkz (eq_sym Ez)) as [?|[Hu _]]; [done|].
    pose proof (ix_complete _ _ _ (Hix e He) r z Hr (Hdirs e He Hu r z Hr Ho)) as Hgz. rewrite Ez in Hgz. congruence. }
  destruct (member_unique t e q y r z Ht Hm Hr Ek) as [-> _]. done.
Qed.

Lemma insert_cases d' :
  spells d' t' →
  (∃ i', for_each scopes (m_insert d' es) i1 = (Ok tt, i') ∧ (∀ e, e ∈ es → indexed t' i' e) ∧
     ∀ k, (∀ e, e ∈ es → ¬ id_prefix (e_id e) `prefix_of` k) → kv_get i' k = kv_get i k) ∨
  (∃ i' e, for_each scopes (m_insert d' es) i1 = (Err UniqueViolation, i') ∧ e ∈ es ∧ collision t' e).
Proof.
  clear i'. intros Hd'. rewrite (inserts_eq d' t' scopes i1 Hd' Ht').
  destruct (insertions_spec _ (entries_all_consistent t' scopes Ht') i1) as
    [(i' & E & Hin & Hout & Hg)|(i' & x & E & Hx & Hu & Hbad)]; [left|right].
  - exists i'. split_and!; [done| |].
    + intros e He. split.
      * intros k v Hk Hp. destruct (decide (Exists (λ x, x.2.1 = k) (entries_all t' scopes))) as [(x & Hx & Ek)%Exists_exists|Hno].
        -- pose proof (Hin x Hx) as Hxk. rewrite Ek, Hk in Hxk. injection Hxk as ->.
           apply entries_all_elem in Hx as (e' & y & Hy & ->); [|apply Ht']. cbn in *. subst k.
           assert (e = e') as <-.
           { apply es_id_inj; [done|apply Hy|]. pose proof (es_usable e He) as [? _]. pose proof (es_usable e' (proj1 Hy)) as [? _].
             apply (id_prefix_inj _ _ (t_entry e' y).1); [done..|]. apply entry_prefix. }
           destruct Hy as (_ & q & Hm & _). exists q, y. split; [done|apply surjective_pairing].
        -- rewrite Hout in Hk by (intros x Hx Ek; apply Hno, Exists_exists; eauto).
           destruct (survivor e k v He Hk Hp) as (q & y & _ & ? & ?). eauto.
      * intros q y Hm Hf. destruct (decide (Exists (λ s, on_line s q) scopes)) as [Ho|Ho].
        -- apply (Hin (def_unique (e_def e), t_entry e y)). apply entries_all_elem; [apply Ht'|].
           exists e, y. split; [|done]. split; [done|]. by exists q.
        -- pose proof (untouched_kept e q y He Ho (proj2 (off_line e q y He Ho) Hm) Hf) as Hkept.
           destruct (decide (Exists (λ x, x.2.1 = (t_entry e y).1) (entries_all t' scopes))) as [(x & Hx & Ek)%Exists_exists|Hno].
           2: { rewrite Hout; [done|]. intros x Hx Ek. apply Hno, Exists_exists. eauto. }
           rewrite <- Ek, (Hin x Hx). f_equal. pose proof (Hg x) as Hgx. rewrite Ek in Hgx.
           apply entries_all_elem in Hx as (e' & z & Hz & ->); [|apply Ht']. cbn in *.
           pose proof (es_key_inj e' e z y _ (proj1 Hz) He Ek eq_refl) as ->.
           destruct (def_unique (e_def e)) eqn:Hu.
           { symmetry. apply Hgx; [|done|done]. apply entries_all_elem; [apply Ht'|]. exists e, z. by rewrite Hu. }
           destruct (t_entry_key_inj e z y) as [?|[? _]]; [by eapply touches_key|by eapply tr_keys, Hm|done|done|congruence].
    + intros k Hk. rewrite Hout.
      * destruct (Hi1 k) as [[-> _]|[_ (e & y & Hy & <-)]]; [done|]. exfalso. apply (Hk e); [apply Hy|apply entry_prefix].
      * intros x (e & y & Hy & ->)%entries_all_elem Ek; [|apply Ht']. cbn in Ek. subst k. apply (Hk e); [apply Hy|apply entry_prefix].
  - apply entries_all_elem in Hx as (e & y & Hy & ->); [|apply Ht']. cbn in *. exists i', e. split_and!; [done|apply Hy|].
    split; [done|]. pose proof (touches_key t' scopes e y Ht' Hy) as Hky. destruct Hy as (He & q & Hm & Ho).
    destruct Hbad as [(w & Hw & Hne)|(x & Hx & Ex & Hne)].
    + destruct (survivor e _ w He Hw (entry_prefix e y)) as (r & z & _ & Hz & Ez). exists q, y, r, z.
      split_and!; [done|done|by rewrite Ez|]. intros Ek. apply Hne.
      destruct (member_unique t' e q y r z Ht' Hm Hz Ek) as [_ ->]. by rewrite Ez.
    + apply entries_all_elem in Hx as (e' & z & Hz & ->); [|apply Ht']. cbn in *.
      pose proof (es_key_inj e' e z y _ (proj1 Hz) He Ex eq_refl) as ->. destruct Hz as (_ & r & Hz & _).
      exists q, y, r, z. split_and!; [done|done|done|]. intros Ek. apply Hne.
      by destruct (member_unique t' e q y r z Ht' Hm Hz Ek) as [_ ->].
Qed.
End sync.
