(* ===== verification/Reindex.v ===== *)
(** * Mutations of an indexed table

    [txn/write.rs], [reindex_around]: every mutation of a table with registered
    indexes removes the entries of the a-nodes it touches, applies itself, and
    inserts the entries the new state implies.  [synced] relates the data table, the
    registry and the index table of a write transaction to one tree. *)
From S2P Require Import Prelude BTree Codec Ext Scalar Path Ordered IndexDef Value Archived Access Key Dir Engine Registry WriteBuffer Ctx Fs Tree Refine FsSpec Move FsMove TreeLaws Write Txn Program Pattern Maintenance IndexSync.

Section reindex.
Context `{Ext} {T : Type} `{KV T Z bytes} {M : Type} `{KV M bytes bytes} {I : Type} `{OrdKV I}.

(** The tables of one write transaction: the data table with its cache, the metadata
    table and the index table. *)
Record WTxn := mkWTxn { w_ctx : Ctx T; w_meta : M; w_index : I }.

Definition on_ctx {A} (m : SM (Ctx T) A) : SM WTxn A := λ w,
  let '(r, c) := m (w_ctx w) in (r, mkWTxn c (w_meta w) (w_index w)).

(** Index maintenance borrows the data table and edits the index table. *)
Definition on_index {A} (f : T → SM I A) : SM WTxn A := λ w,
  let '(r, i) := f (data (w_ctx w)) (w_index w) in (r, mkWTxn (w_ctx w) (w_meta w) i).

Context (order_dirs : gmap Z Children → list (Z * Children)).
Context (order_files : gmap Z bytes → list (Z * bytes)).

(** The maintenance reads the engine directly, so what is buffered is written out
    and buffering stops. *)
Definition flush_and_disable : SM (Ctx T) unit := λ c,
  let '((dirs, files), taken) := wb_take_and_disable (wb c) in
  let c := mkCtx (data c) taken (rng c) in
  if negb (bool_decide (dirs = ∅)) || negb (bool_decide (files = ∅)) then
    flush_buffered (order_dirs dirs) (order_files files) c
  else (Ok tt, c).

Section table.
Context (table : bytes) (has_any_index : bool).

Definition indexes (w : WTxn) : res (list IndexEntry) := registry_for_table (w_meta w) table.

Definition reindex_around {A} (scopes : list APath) (apply : SM (Ctx T) A) : SM WTxn A :=
  let! indexes := asks (λ w, if has_any_index then indexes w else Ok []) in
  match indexes with
  | [] => on_ctx apply
  | _ =>
      let! _ := on_ctx flush_and_disable in
      let! _ := on_index (λ d, for_each scopes (m_delete d indexes)) in
      let! result := on_ctx apply in
      let! _ := on_index (λ d, for_each scopes (m_insert d indexes)) in
      sret result
  end.

(** ** The mutations *)

Context (fuel : nat).

Definition w_store_value_at (path : APath) (value : Value) : SM WTxn unit :=
  if is_root path then serr (CannotAccess "cannot store a file at the root")
  else reindex_around [path] (store_value_into fuel path value).

Definition w_store_blob_at (path : APath) (value_blob : bytes) : SM WTxn unit :=
  if is_root path then serr (CannotAccess "cannot store a file at the root")
  else reindex_around [path] (store_blob_into fuel path value_blob).

Definition w_put_scalar_at (path : APath) (hint : option (AKey * Z)) (at_path : VPath) (scalar : Scalar)
    : SM WTxn unit :=
  reindex_around [path] (put_scalar_into fuel path hint at_path scalar).

(** Directories are created without reindexing. *)
Definition w_mkdir (path : APath) : SM WTxn unit := on_ctx (let! _ := ensure_dir path in sret tt).

Definition w_rm (path : APath) : SM WTxn bool :=
  if is_root path then serr (CannotAccess "cannot remove the root")
  else reindex_around [path] (rm_into fuel path).

Definition w_mv (src dst : APath) : SM WTxn unit :=
  if names_start_with dst src then
    serr (CannotAccess "cannot move an a-node onto itself or into a descendant")
  else if is_root src then serr (CannotAccess "cannot move the root")
  else if is_root dst then serr (CannotAccess "cannot move onto the root")
  else reindex_around [src; dst] (mv_into fuel src dst).

Definition w_cp (src dst : APath) : SM WTxn unit :=
  if names_start_with dst src then
    serr (CannotAccess "cannot copy an a-node onto itself or into a descendant")
  else if is_root dst then serr (CannotAccess "cannot copy onto the root")
  else reindex_around [dst] (cp_into fuel src dst).

Definition w_run_op (o : op) : SM WTxn (option bool) :=
  match o with
  | OStore p v => let! _ := w_store_value_at p v in sret None
  | OMkdir p => let! _ := w_mkdir p in sret None
  | ORm p => let! b := w_rm p in sret (Some b)
  | OMv src dst => let! _ := w_mv src dst in sret None
  | OCp src dst => let! _ := w_cp src dst in sret None
  end.
End table.
End reindex.
Arguments WTxn T M I : clear implicits.

(** ** Documents survive the mutations *)

Lemma above_dir t q r x : tlookup t (q ++ r) = Some x → r ≠ [] → ∃ k ch, tlookup t q = Some (ADir k ch).
Proof.
  rewrite tlookup_app. destruct (tlookup t q) as [[k b|k ch]|]; [|eauto|done]. by destruct r.
Qed.

Fixpoint content_at (c : content) (p : APath) : option content :=
  match p with
  | [] => Some c
  | n :: p =>
      match c with
      | CDir ch => match bt_get ch n with Some c => content_at c p | None => None end
      | CFile _ => None
      end
  end.

Lemma content_at_erase p : ∀ t, content_at (erase t) p = erase <$> tlookup t p.
Proof.
  induction p as [|n p IH]; intros t; cbn [content_at tlookup]; [done|].
  destruct t as [k b|k ch]; cbn [erase]; [done|]. rewrite bt_get_fmap.
  destruct (bt_get ch n); cbn [fmap option_fmap option_map]; [apply IH|done].
Qed.

Lemma erase_file x x' r k b :
  erase x' = erase x → tlookup x' r = Some (AFile k b) → ∃ k', tlookup x r = Some (AFile k' b).
Proof.
  intros E Hl. pose proof (content_at_erase r x') as Hc. rewrite E, content_at_erase, Hl in Hc.
  destruct (tlookup x r) as [[k' b'|]|]; cbn in Hc; [|done..]. injection Hc as ->. eauto.
Qed.

Section docs.
Context `{Ext}.

Lemma docs_keeps t t' ps :
  docs_ok t → keeps t t' ps →
  (∀ p r k b, p ∈ ps → tlookup t' (p ++ r) = Some (AFile k b) → blob_ok b) →
  (∀ p q k b, p ∈ ps → q `prefix_of` p → q ≠ p → tlookup t' q ≠ Some (AFile k b)) →
  docs_ok t'.
Proof.
  intros Hd Hk Hin Habove q k b Hl.
  destruct (decide (Exists (λ p, p `prefix_of` q) ps)) as [(p & Hp & r & ->)%Exists_exists|Hno]; [by eapply Hin|].
  assert (Forall (λ p, ¬ p `prefix_of` q) ps) as Hq.
  { apply Forall_forall. intros p Hp Hpq. apply Hno, Exists_exists. eauto. }
  destruct (Hk q Hq) as [E _]. rewrite E in Hl; [by apply (Hd q k b)|].
  apply Forall_forall. intros p Hp Hqp. apply (Habove p q k b Hp Hqp); [|done].
  intros ->. rewrite Forall_forall in Hq. by apply (Hq p Hp).
Qed.

Lemma docs_stored t t' p blob : docs_ok t → blob_ok blob → stored t t' p blob → docs_ok t'.
Proof.
  intros Hd Hb [Hk (k & Hl & _)]. apply (docs_keeps t t' [p]); [done..| |].
  - intros p' r k' b ->%list_elem_of_singleton Hr. rewrite tlookup_app, Hl in Hr.
    destruct r; cbn in Hr; [|done]. by injection Hr as <- <-.
  - intros p' q k' b ->%list_elem_of_singleton [r ->] Hne Hq.
    destruct (above_dir t' q r _ Hl) as (? & ? & E); [intros ->; by rewrite app_nil_r in Hne|congruence].
Qed.

(** An ancestor of something present is a directory, and stays one. *)
Lemma keeps_above t t' ps p q x k b :
  keeps t t' ps → Forall (λ p', ¬ p' `prefix_of` q) ps → tlookup t p = Some x → q `prefix_of` p → q ≠ p →
  tlookup t' q ≠ Some (AFile k b).
Proof.
  intros Hk Hq Hx [r ->] Hne Hl. destruct (above_dir t q r x Hx) as (kq & chq & Ha).
  { intros ->. by rewrite app_nil_r in Hne. }
  destruct (Hk q Hq) as [_ K]. destruct (K _ Ha) as (x' & Hx' & _ & Hd). rewrite Hl in Hx'. by injection Hx' as <-.
Qed.

Lemma docs_removed t t' p x : docs_ok t → tlookup t p = Some x → removed t t' p → docs_ok t'.
Proof.
  intros Hd Hx [Hk Hr]. apply (docs_keeps t t' [p]); [done..| |].
  - intros p' r k b ->%list_elem_of_singleton Hl. rewrite Hr in Hl; [done|by exists r].
  - intros p' q k b ->%list_elem_of_singleton Hq Hne. apply (keeps_above t t' [p] p q x); [done| |done..].
    apply Forall_singleton. intros Hpq. apply Hne. by apply (anti_symm prefix).
Qed.

Lemma docs_moved t t' src dst x :
  docs_ok t → tlookup t src = Some x → ¬ dst `prefix_of` src → moved t t' src dst → docs_ok t'.
Proof.
  intros Hd Hx Hds (Hk & Hr & Hgone). pose proof (Hr []) as Hdst. rewrite !app_nil_r, Hx in Hdst.
  apply (docs_keeps t t' [src; dst]); [done..| |].
  - intros p r k b Hp Hl. rewrite !elem_of_cons in Hp. destruct Hp as [->|[->|?%elem_of_nil]]; [| |done].
    + rewrite Hgone in Hl; [done|by exists r].
    + rewrite Hr in Hl. by apply (Hd _ k b Hl).
  - intros p q k b Hp Hq Hne. rewrite !elem_of_cons in Hp. destruct Hp as [->|[->|?%elem_of_nil]]; [| |done].
    + apply (keeps_above t t' [src; dst] src q x); [done| |done..].
      repeat constructor; [intros Hpq; apply Hne; by apply (anti_symm prefix)|].
      intros Hpq. apply Hds. by etrans.
    + destruct Hq as [r ->]. intros Hl. destruct (above_dir t' q r x Hdst) as (? & ? & E); [|congruence].
      intros ->. by rewrite app_nil_r in Hne.
Qed.

Lemma docs_copied t t' src dst : docs_ok t → copied_to t t' src dst → docs_ok t'.
Proof.
  intros Hd (Hk & x & x' & Hx & _ & Hx' & He & _). apply (docs_keeps t t' [dst]); [done..| |].
  - intros p r k b ->%list_elem_of_singleton Hl. rewrite tlookup_app, Hx' in Hl.
    destruct (erase_file x x' r k b He Hl) as [k' Hl']. apply (Hd (src ++ r) k'). by rewrite tlookup_app, Hx.
  - intros p q k b ->%list_elem_of_singleton [r ->] Hne Hl.
    destruct (above_dir t' q r x' Hx') as (? & ? & E); [|congruence]. intros ->. by rewrite app_nil_r in Hne.
Qed.
End docs.

(** ** One operation on the abstract tree *)

Section effects.
Context `{Ext}.

Definition op_scopes (o : op) : list APath :=
  match o with
  | OStore p _ | ORm p => [p]
  | OMkdir _ => []
  | OMv src dst => [src; dst]
  | OCp _ dst => [dst]
  end.

(** A stored document fits the format. *)
Definition op_doc (o : op) : Prop :=
  match o with OStore _ v => value_ok v ∧ blen (encode v) < 2 ^ 32 | _ => True end.

Lemma t_lift_Ok t s r b t' s' : t_lift t s r = (Ok b, (t', s')) → r = Ok (t', s').
Proof. destruct r as [[? ?]|e| |]; cbn; [|done..]. by intros [= _ -> ->]. Qed.

Lemma op_effect fuel t o s b t' s' :
  tsorted t → is_dir t = true → word s → docs_ok t → op_ok fuel t o → op_doc o → unused t s (cost t o) →
  (∀ p, o ≠ OMkdir p) → t_op t o s = (Ok b, (t', s')) → keeps t t' (op_scopes o) ∧ docs_ok t'.
Proof.
  intros Hs Hd Hw Hdoc Hok Hv Hu Hmk. destruct o as [p v|p|p|src dst|src dst]; cbn [t_op op_ok op_doc op_scopes cost] in *.
  - destruct p as [|n p _] using rev_ind; [done|]. destruct (is_root _); [done|]. intros E%t_lift_Ok.
    pose proof (store_law t p n (encode v) s t' s' Hs Hd E) as Hst. split; [apply Hst|].
    eapply docs_stored; [done| |done]. by exists v.
  - by destruct (Hmk p).
  - destruct p as [|n p _] using rev_ind; [done|]. destruct (is_root _); [done|]. unfold t_rm.
    destruct (tlookup t (p ++ [n])) as [x|] eqn:Hx; cbn [fst snd]; intros [= _ <- _].
    + pose proof (remove_law p n t x Hs Hx) as Hr. split; [apply Hr|by eapply docs_removed].
    + split; [apply keeps_refl|done].
  - destruct Hok as (_ & _ & Hanc). destruct (names_start_with dst src) eqn:Hsd; [done|].
    destruct src as [|sn sp _] using rev_ind; [done|]. destruct (is_root (sp ++ [sn])); [done|].
    destruct dst as [|dn dp _] using rev_ind; [done|]. destruct (is_root (dp ++ [dn])); [done|]. intros E%t_lift_Ok.
    assert (¬ sp ++ [sn] `prefix_of` dp ++ [dn]) as Hsd' by (intros Hp%names_start_with_spec; congruence).
    assert (¬ dp ++ [dn] `prefix_of` sp ++ [sn]) as Hds by (intros Hp; destruct (Hanc Hp); [done|by destruct dp]).
    pose proof (mv_law t sp sn dp dn s t' s' Hs Hd Hsd' Hds E) as Hm. cbn zeta in Hm. split; [apply Hm|].
    unfold t_mv in E. destruct (tlookup t (sp ++ [sn])) as [x|] eqn:Hx; [|done]. by eapply docs_moved.
  - destruct Hok as (_ & _ & Hanc). destruct (names_start_with dst src) eqn:Hsd; [done|].
    destruct dst as [|dn dp _] using rev_ind; [done|]. destruct (is_root (dp ++ [dn])); [done|]. intros E%t_lift_Ok.
    assert (¬ src `prefix_of` dp ++ [dn]) as Hsd' by (intros Hp%names_start_with_spec; congruence).
    assert (¬ dp ++ [dn] `prefix_of` src) as Hds by (intros Hp; destruct (Hanc Hp); [done|by destruct dp]).
    assert (∃ x, tlookup t src = Some x) as [x Hx].
    { unfold t_cp in E. destruct (tlookup t src); [eauto|done]. }
    assert (copied_to t t' src (dp ++ [dn])) as Hc.
    { eapply (cp_law t src dp dn s t' s' x); [done..| |done]. intros i Hi. apply Hu.
      rewrite blen_app. unfold size_at. rewrite Hx. change (blen [dn]) with 1. lia. }
    split; [apply Hc|by eapply docs_copied].
Qed.
End effects.

(** ** The bracket around a mutation *)

Section synced.
Context `{Ext} `{!ExtLaws} {T : Type} `{KV T Z bytes} `{!KVLaws T Z bytes} {M : Type} `{KV M bytes bytes}
  {I : Type} `{OrdKV I} `{!OrdKVLaws I}.
Implicit Types (c : Ctx T) (w : WTxn T M I).

(** The transaction stands for the tree [t], whose files are documents; the indexes
    of the table are [es], and each is in step with the tree. *)
Record synced (table : bytes) (w : WTxn T M I) (t : atree) (es : list IndexEntry) : Prop := {
  sy_txn : txn (w_ctx w) t;
  sy_docs : docs_ok t;
  sy_registry : registry_for_table (w_meta w) table = Ok es;
  sy_ids : NoDup (map e_id es);
  sy_usable : Forall usable es;
  sy_indexed e : e ∈ es → indexed t (w_index w) e;
}.

Lemma txn_spells c t : txn c t → buffering (wb c) = false → spells (data c) t.
Proof.
  intros [((Hw & _ & _ & He & _) & _ & Hk & Hd & Hh) _] Hb. destruct Hw as (_ & _ & Hoff).
  destruct (Hoff Hb) as [Ed Ef]. split; [done|].
  assert (∀ k, view c k = engine_view (data c) k) as Hv by (intros k; unfold view; by rewrite Ed, Ef, !lookup_empty).
  destruct Hh as [Hh|[Hr ->]]; [left|right].
  - eapply holds_frame; [|exact Hh]. by intros.
  - cbn. by rewrite <- Hv.
Qed.

Lemma txn_tree_ok c t : txn c t → buffering (wb c) = false → docs_ok t → tree_ok t.
Proof.
  intros Ht Hb Hd. destruct (txn_sorted c t Ht) as [Hs _]. pose proof (txn_spells c t Ht Hb) as Hsp.
  pose proof Ht as [(_ & Hnd & Hk & _) _]. split; [done..|]. intros q y. apply (spells_tree_keys (data c)); [done|].
  rewrite Hk. done.
Qed.

Context (order_dirs : gmap Z Children → list (Z * Children)) (order_files : gmap Z bytes → list (Z * bytes)).
Hypothesis Hod : ∀ m, order_dirs m ≡ₚ map_to_list m.
Hypothesis Hof : ∀ m, order_files m ≡ₚ map_to_list m.

Lemma flush_and_disable_spec c t : txn c t →
  ∃ c', flush_and_disable order_dirs order_files c = (Ok tt, c') ∧ txn c' t ∧ buffering (wb c') = false ∧ rng c' = rng c.
Proof.
  intros [(Hc & Hnd & Hk & Hd & Hh) Hx].
  destruct (flush_taken order_dirs order_files c (mkWriteBuffer false false ∅ false ∅ (structure (wb c))) Hod Hof Hc)
    as (c' & E & Hc' & Hw & Hr & _ & Hv); [done..|].
  exists c'. split; [exact E|]. split_and!; [|by rewrite Hw|done]. split.
  - split_and!; [done..|]. rewrite Hv. destruct Hh as [Hh|?]; [left|by right]. eapply holds_frame; [|exact Hh]. intros j _. apply Hv.
  - intros j Hj. rewrite Hv. by apply Hx.
Qed.

Context (table : bytes) (has_any_index : bool).
Abbreviation around := (reindex_around order_dirs order_files table has_any_index).

Lemma on_ctx_eq {A} (m : SM (Ctx T) A) w r c :
  m (w_ctx w) = (r, c) → on_ctx m w = (r, mkWTxn c (w_meta w) (w_index w)).
Proof. unfold on_ctx. by intros ->. Qed.

Lemma on_index_eq {A} (f : T → SM I A) w r i :
  f (data (w_ctx w)) (w_index w) = (r, i) → on_index f w = (r, mkWTxn (w_ctx w) (w_meta w) i).
Proof. unfold on_index. by intros ->. Qed.

Lemma bind_ret {S A B} (m : SM S A) (f : A → B) s r s' :
  (let! x := m in sret (f x)) s = (r, s') →
  match r with
  | Ok y => ∃ x, m s = (Ok x, s') ∧ y = f x
  | Err e => m s = (Err e, s')
  | _ => True
  end.
Proof. unfold sbind, sret. destruct (m s) as [[x|e| |] s0]; intros [= <- <-]; eauto. Qed.

Context {A : Type} (apply : SM (Ctx T) A) (f : A → option bool) (scopes : list APath).
Context (w : WTxn T M I) (t t' : atree) (s' : Z) (es : list IndexEntry) (r : res (option bool)).
Hypothesis Hsync : synced table w t es.
Hypothesis Hhas : has_any_index = true ∨ es = [].
Hypothesis Hstep : ∀ c, txn c t → rng c = rng (w_ctx w) →
  ∃ c', (let! x := apply in sret (f x)) c = (r, c') ∧ txn c' t' ∧ buffering (wb c') = buffering (wb c) ∧ rng c' = s'.

Lemma around_indexes :
  around scopes apply w =
    match es with
    | [] => on_ctx apply w
    | _ =>
      (let! _ := on_ctx (flush_and_disable order_dirs order_files) in
       let! _ := on_index (λ d, for_each scopes (m_delete d es)) in
       let! result := on_ctx apply in
       let! _ := on_index (λ d, for_each scopes (m_insert d es)) in
       sret result) w
    end.
Proof using Hsync Hhas.
  unfold reindex_around. rewrite (sbind_asks _ _ _ es); [by destruct es|].
  destruct Hhas as [->|E]; [apply Hsync|]. destruct has_any_index; [apply Hsync|by rewrite E].
Qed.

(** The state in which the mutation runs: buffering off, touched entries gone. *)
Lemma around_prepared : es ≠ [] →
  ∃ c1 i1, around scopes apply w =
      (let! result := on_ctx apply in
       let! _ := on_index (λ d, for_each scopes (m_insert d es)) in
       sret result) (mkWTxn c1 (w_meta w) i1) ∧
    txn c1 t ∧ rng c1 = rng (w_ctx w) ∧ buffering (wb c1) = false ∧ tree_ok t ∧
    ∀ k, (kv_get i1 k = kv_get (w_index w) k ∧ ∀ e y, touches es t scopes e y → (t_entry e y).1 ≠ k) ∨
         (kv_get i1 k = None ∧ ∃ e y, touches es t scopes e y ∧ (t_entry e y).1 = k).
Proof using All.
  intros Ees. destruct (flush_and_disable_spec _ _ (sy_txn _ _ _ _ Hsync)) as (c1 & E1 & Ht1 & Hb1 & Hr1).
  pose proof (txn_tree_ok c1 t Ht1 Hb1 (sy_docs _ _ _ _ Hsync)) as Hok.
  destruct (deletes_spec es (sy_usable _ _ _ _ Hsync) (data c1) t scopes (w_index w) (txn_spells _ _ Ht1 Hb1) Hok)
    as (i1 & E2 & Hi1).
  exists c1, i1. split_and!; try done. rewrite around_indexes.
  assert (∀ B (a b : B), match es with [] => a | _ => b end = b) as -> by (intros; by destruct es).
  rewrite (sbind_Ok _ _ _ _ _ (on_ctx_eq _ _ _ _ E1)).
  by rewrite (sbind_Ok _ _ _ tt (mkWTxn c1 (w_meta w) i1) (on_index_eq _ (mkWTxn c1 (w_meta w) (w_index w)) _ _ E2)).
Qed.

Lemma around_err e :
  r = Err e →
  ∃ w', (let! x := around scopes apply in sret (f x)) w = (Err e, w') ∧ txn (w_ctx w') t' ∧ rng (w_ctx w') = s'.
Proof using All.
  intros Hr. destruct (decide (es = [])) as [Ees|Ees].
  - destruct (Hstep (w_ctx w) (sy_txn _ _ _ _ Hsync) eq_refl) as (c' & E & Ht' & _ & Hs').
    apply bind_ret in E. rewrite Hr in E. exists (mkWTxn c' (w_meta w) (w_index w)). split; [|by split].
    apply sbind_Err. pose proof around_indexes as Ei. rewrite Ees in Ei. rewrite Ei. by apply on_ctx_eq.
  - destruct (around_prepared Ees) as (c1 & i1 & Ea & Ht1 & Hr1 & Hb1 & _).
    destruct (Hstep c1 Ht1 Hr1) as (c' & E & Ht' & _ & Hs').
    apply bind_ret in E. rewrite Hr in E. exists (mkWTxn c' (w_meta w) i1). split; [|by split].
    apply sbind_Err. rewrite Ea. apply sbind_Err. by apply (on_ctx_eq _ (mkWTxn c1 (w_meta w) i1)).
Qed.

Lemma around_ok y :
  r = Ok y → docs_ok t' → (∀ q, Forall (λ s, ¬ on_line s q) scopes → tlookup t' q = tlookup t q) →
  (∀ e, e ∈ es → dirs_free t e scopes) →
  (∃ w', (let! x := around scopes apply in sret (f x)) w = (Ok y, w') ∧ synced table w' t' es ∧ rng (w_ctx w') = s') ∨
  (∃ w' e, (let! x := around scopes apply in sret (f x)) w = (Err UniqueViolation, w') ∧
     e ∈ es ∧ collision t' e ∧ txn (w_ctx w') t').
Proof using All.
  intros Hr Hd' Hframe Hdirs. destruct (decide (es = [])) as [Ees|Ees].
  - left. destruct (Hstep (w_ctx w) (sy_txn _ _ _ _ Hsync) eq_refl) as (c' & E & Ht' & _ & Hs').
    apply bind_ret in E. rewrite Hr in E. destruct E as (x & E & ->).
    pose proof around_indexes as Ei. rewrite Ees in Ei. rewrite (on_ctx_eq _ _ _ _ E) in Ei.
    eexists. split; [by rewrite (sbind_Ok _ _ _ _ _ Ei)|]. split; [|done].
    destruct Hsync. split; try done. rewrite Ees. by intros e ?%elem_of_nil.
  - destruct (around_prepared Ees) as (c1 & i1 & Ea & Ht1 & Hr1 & Hb1 & Hok & Hi1).
    destruct (Hstep c1 Ht1 Hr1) as (c' & E & Ht' & Hb' & Hs'). rewrite Hb1 in Hb'.
    apply bind_ret in E. rewrite Hr in E. destruct E as (x & E & ->).
    pose proof (on_ctx_eq apply (mkWTxn c1 (w_meta w) i1) _ _ E) as E'. cbn [w_meta w_index] in E'.
    rewrite (sbind_Ok _ _ _ _ _ E') in Ea.
    destruct (insert_cases es (sy_ids _ _ _ _ Hsync) (sy_usable _ _ _ _ Hsync) t t' scopes (w_index w) i1 Hok
      (txn_tree_ok c' t' Ht' Hb' Hd') Hframe (sy_indexed _ _ _ _ Hsync) Hdirs Hi1 (data c') (txn_spells _ _ Ht' Hb'))
      as [(i' & Ei & Hix & _)|(i' & e & Ei & He & Hcol)]; [left|right].
    + pose proof (on_index_eq (λ d, for_each scopes (m_insert d es)) (mkWTxn c' (w_meta w) i1) _ _ Ei) as Ei'.
      rewrite (sbind_Ok _ _ _ _ _ Ei') in Ea. eexists. split; [by rewrite (sbind_Ok _ _ _ _ _ Ea)|].
      split; [|done]. destruct Hsync. by split.
    + pose proof (on_index_eq (λ d, for_each scopes (m_insert d es)) (mkWTxn c' (w_meta w) i1) _ _ Ei) as Ei'.
      rewrite (sbind_Err _ _ _ _ _ Ei') in Ea. eexists _, e. split; [by apply sbind_Err, Ea|done].
Qed.
End synced.

(** ** The public mutations *)

Section mutations.
Context `{Ext} `{!ExtLaws} {T : Type} `{KV T Z bytes} `{!KVLaws T Z bytes} {M : Type} `{KV M bytes bytes}
  {I : Type} `{OrdKV I} `{!OrdKVLaws I}.
Implicit Types (w : WTxn T M I) (i : I).
Context (order_dirs : gmap Z Children → list (Z * Children)) (order_files : gmap Z bytes → list (Z * bytes)).
Hypothesis Hod : ∀ m, order_dirs m ≡ₚ map_to_list m.
Hypothesis Hof : ∀ m, order_files m ≡ₚ map_to_list m.

(** A directory's entry depends on its key only. *)
Lemma t_entry_dir e y y' : is_dir y = true → is_dir y' = true → akey y = akey y' → t_entry e y = t_entry e y'.
Proof.
  destruct y as [|k ch], y' as [|k' ch']; intros ? ? E; try done. cbn in E. subst k'. done.
Qed.

(** Creating directories leaves every index as it was. *)
Lemma indexed_ensure t p s t' s' i e :
  tsorted t → is_dir t = true → t_ensure t p s = Ok (t', s') → indexed t i e → indexed t' i e.
Proof.
  intros Hs Hd E [Hsound Hcomplete]. destruct (ensure_law p t s t' s' Hs Hd E) as (_ & _ & Hpre & Hout). split.
  - intros k v Hk Hp. destruct (Hsound k v Hk Hp) as (q & y & [Hc Hl] & Ey).
    destruct (ensure_lookup p t s t' s' q y Hs E Hl) as (y' & Hl' & Hk' & _).
    exists q, y'. split; [by split|]. rewrite <- Ey. destruct (decide (q `prefix_of` p)) as [Hq|Hq].
    + destruct (Hpre q Hq) as (kq & chq & Hlq). rewrite Hl' in Hlq. injection Hlq as ->.
      apply t_entry_dir; [done| |done]. destruct y as [ky b|]; [|done]. exfalso.
      destruct (ensure_cases p t s Hd) as [[_ Ee]|[Hnb _]]; [congruence|]. apply Hnb. by exists q, ky, b.
    + rewrite Hout, Hl in Hl' by done. by injection Hl' as ->.
  - intros q y [Hc Hl] Hf. apply (Hcomplete q); [|done]. split; [done|]. rewrite <- Hout; [done|].
    intros Hq. destruct (Hpre q Hq) as (kq & chq & Hlq). rewrite Hl in Hlq. by injection Hlq as ->.
Qed.

Lemma docs_ensure t p s t' s' :
  tsorted t → is_dir t = true → t_ensure t p s = Ok (t', s') → docs_ok t → docs_ok t'.
Proof.
  intros Hs Hd E Hdoc q k b Hl. destruct (ensure_law p t s t' s' Hs Hd E) as (_ & _ & Hpre & Hout).
  apply (Hdoc q k b). rewrite <- Hout; [done|]. intros Hq. destruct (Hpre q Hq) as (kq & chq & Hlq). congruence.
Qed.

Lemma keeps_frame t t' scopes :
  keeps t t' scopes → ∀ q, Forall (λ s, ¬ on_line s q) scopes → tlookup t' q = tlookup t q.
Proof.
  intros Hk q Hq. destruct (Hk q) as [E _].
  - eapply Forall_impl; [exact Hq|]. intros s Hs Hp. apply Hs. by left.
  - apply E. eapply Forall_impl; [exact Hq|]. intros s Hs Hp. apply Hs. by right.
Qed.

(** The conclusion of the specification below, for one outcome of [t_op]. *)
Definition index_outcome (table : bytes) (es : list IndexEntry) (t : atree)
    (run : res (option bool) * WTxn T M I) (out : res (option bool) * (atree * Z)) : Prop :=
  let '(r, (t', s')) := out in
  match r with
  | Ok y =>
      (∃ w', run = (Ok y, w') ∧ synced table w' t' es ∧ rng (w_ctx w') = s') ∨
      (∃ w' e, run = (Err UniqueViolation, w') ∧ e ∈ es ∧ collision t' e ∧ txn (w_ctx w') t')
  | Err x => ∃ w', run = (Err x, w') ∧ txn (w_ctx w') t
  | _ => False
  end.

Lemma t_op_err t o s e t' s' : t_op t o s = (Err e, (t', s')) → t' = t.
Proof.
  assert (∀ r, t_lift t s r = (Err e, (t', s')) → t' = t) as Hl.
  { intros [[? ?]|x| |]; cbn; [done|by intros [= _ -> _]|done..]. }
  destruct o; cbn; repeat case_match; try apply Hl; by intros [= _ -> _].
Qed.

(** The abstract operations never panic. *)
Definition settles {A} (r : res A) : Prop := match r with Ok _ | Err _ => True | _ => False end.

Lemma t_op_settles t o s : is_dir t = true → settles (t_op t o s).1.
Proof.
  intros Hd.
  assert (∀ r, settles r → settles (t_lift t s r).1) as Hl by (by intros [[? ?]|e| |]).
  assert (∀ B p (k : atree * Z → res B), (∀ ts, settles (k ts)) → settles (rbind (t_ensure t p s) k)) as He.
  { intros B p k Hk. destruct (ensure_cases p t s Hd) as [[_ ->]|(_ & t1 & s1 & ->)]; [done|apply Hk]. }
  destruct o as [p v|p|p|src dst|src dst]; cbn [t_op]; repeat case_match; try done; apply Hl.
  - unfold t_store. destruct p as [|n p _] using rev_ind; [done|]. rewrite APath_split_last_snoc. apply He.
    intros [t1 s1]. destruct (tlookup t1 p); [by destruct (t_put _ _ _ _)|done].
  - destruct (ensure_cases p t s Hd) as [[_ ->]|(_ & t1 & s1 & ->)]; done.
  - unfold t_mv. repeat case_match; try done. apply He. intros [t1 s1]. cbn zeta. by case_match.
  - unfold t_cp. repeat case_match; try done. apply He.
    intros [t1 s1]. repeat case_match; done.
Qed.

Section one_mutation.
Context (fuel : nat) (table : bytes) (has_any_index : bool) (w : WTxn T M I) (t : atree) (es : list IndexEntry) (o : op).
Hypothesis Hsync : synced table w t es.
Hypothesis Hhas : has_any_index = true ∨ es = [].
Hypothesis Hdirs : ∀ e, e ∈ es → dirs_free t e (op_scopes o).
Hypothesis Hok : op_ok fuel t o.
Hypothesis Hdoc : op_doc o.
Hypothesis Hu : unused t (rng (w_ctx w)) (cost t o).
Hypothesis Hmax : cost t o ≤ 2 ^ 62.

Lemma mutation_step c : txn c t → rng c = rng (w_ctx w) →
  ∃ c', run_op fuel o c = ((t_op t o (rng (w_ctx w))).1, c') ∧ txn c' (t_op t o (rng (w_ctx w))).2.1 ∧
    buffering (wb c') = buffering (wb c) ∧ rng c' = (t_op t o (rng (w_ctx w))).2.2.
Proof using Hok Hu Hmax KVLaws0.
  intros Hc Hr. destruct (op_step fuel c t o (cost t o) Hc Hok) as (c' & m & E & Hst & _ & Hs); [by rewrite Hr|done..|].
  rewrite Hr in *. exists c'. split_and!; [done|by eapply steps_txn|apply Hst|done].
Qed.

(** A mutation past its guards. *)
Lemma bracketed_spec {A} (apply : SM (Ctx T) A) (f : A → option bool) :
  (∀ p, o ≠ OMkdir p) → (∀ c, run_op fuel o c = (let! x := apply in sret (f x)) c) →
  index_outcome table es t
    ((let! x := reindex_around order_dirs order_files table has_any_index (op_scopes o) apply in sret (f x)) w)
    (t_op t o (rng (w_ctx w))).
Proof using All.
  intros Hmk Heq. pose proof mutation_step as Hstep. setoid_rewrite Heq in Hstep.
  destruct (t_op t o (rng (w_ctx w))) as [r [t' s']] eqn:Eo. cbn [fst snd index_outcome] in *.
  pose proof (sy_txn _ _ _ _ Hsync) as Ht. destruct (txn_sorted _ _ Ht) as [Hs Hd].
  destruct r as [y|e| |].
  - destruct (op_effect fuel t o _ _ _ _ Hs Hd (txn_word _ _ Ht) (sy_docs _ _ _ _ Hsync) Hok Hdoc Hu Hmk Eo) as [Hk Hdoc'].
    by apply (around_ok order_dirs order_files Hod Hof table has_any_index apply f (op_scopes o) w t t' s' es (Ok y) Hsync Hhas Hstep y);
      [|done|apply keeps_frame|done].
  - pose proof (t_op_err _ _ _ _ _ _ Eo) as ->.
    destruct (around_err order_dirs order_files Hod Hof table has_any_index apply f (op_scopes o) w t t s' es (Err e) Hsync Hhas Hstep e)
      as (w' & E & Ht' & _); [done|]. eauto.
  - pose proof (t_op_settles t o (rng (w_ctx w)) Hd) as Hp. by rewrite Eo in Hp.
  - pose proof (t_op_settles t o (rng (w_ctx w)) Hd) as Hp. by rewrite Eo in Hp.
Qed.

Lemma mkdir_outcome p : o = OMkdir p →
  index_outcome table es t (w_run_op order_dirs order_files table has_any_index fuel o w) (t_op t o (rng (w_ctx w))).
Proof using All.
  intros Eo. pose proof (sy_txn _ _ _ _ Hsync) as Ht. destruct (txn_sorted _ _ Ht) as [Hs Hd].
  destruct (mutation_step (w_ctx w) Ht eq_refl) as (c' & E & Ht' & _ & Hr').
  assert (w_run_op order_dirs order_files table has_any_index fuel o w =
    ((t_op t o (rng (w_ctx w))).1, mkWTxn c' (w_meta w) (w_index w))) as ->.
  { rewrite Eo in E |- *. cbn [w_run_op run_op] in *. unfold w_mkdir, mkdir in *. apply bind_ret in E as Eb. revert E Eb.
    unfold sbind, on_ctx. destruct (ensure_dir p (w_ctx w)) as [[k|e| |] c1]; cbn; by intros [= <- <-]. }
  destruct (t_op t o (rng (w_ctx w))) as [r [t' s']] eqn:Et. cbn [fst snd index_outcome] in *.
  pose proof (t_op_settles t o (rng (w_ctx w)) Hd) as Hp. rewrite Et in Hp. rewrite Eo in Et. destruct r as [y|e| |]; [|..|done|done].
  - left. apply t_lift_Ok in Et. eexists. split; [done|]. split; [|done]. destruct Hsync. split; try done.
    + by eapply docs_ensure.
    + intros e He. eapply indexed_ensure; [done..|]. by apply sy_indexed0.
  - pose proof (t_op_err _ _ _ _ _ _ Et) as ->. eexists. by split.
Qed.
End one_mutation.

End mutations.
