(* ===== verification/IndexScan.v ===== *)
(** * Scanning an index

    The entries of an index form one block of the index table, and those whose
    columns start with given values one block inside it: what [delete_all] removes
    and what [scan_prefix] returns. *)
From S2P Require Import Prelude BTree Codec Ext Scalar Path Ordered IndexDef Value Archived Access Key Dir Engine Registry WriteBuffer Ctx Tree Pattern Maintenance IndexSync.

(** ** Blocks *)

(** Keys between a prefix and one of its extensions extend it. *)
Lemma between_prefix p : ∀ k s, ¬ blt k p → blt k (p ++ s) → p `prefix_of` k.
Proof.
  induction p as [|x p IH]; intros k s Hge Hlt; [apply prefix_nil|].
  destruct k as [|y k]; [by destruct Hge|]. unfold blt in *. cbn in *.
  destruct (Z.compare_spec y x) as [->|Hyx|Hyx]; [|done|done]. by apply prefix_cons, (IH k s).
Qed.

(** The items up to the first that does not start with [p]. *)
Fixpoint block (p : bytes) (items : list (bytes * bytes)) : list (bytes * bytes) :=
  match items with
  | [] => []
  | kv :: items => if starts_with kv.1 p then kv :: block p items else []
  end.

Lemma block_sublist p items : block p items `sublist_of` items.
Proof.
  induction items as [|kv items IH]; cbn [block]; [done|].
  destruct (starts_with kv.1 p); [by apply sublist_skip|by apply sublist_nil_l].
Qed.

Lemma block_elem p items :
  bt_sorted items → Forall (λ kv, ¬ blt kv.1 p) items →
  ∀ kv, kv ∈ block p items ↔ kv ∈ items ∧ p `prefix_of` kv.1.
Proof.
  induction items as [|[k v] items IH]; intros Hs Hge kv; cbn [block].
  { split; [by intros ?%elem_of_nil|by intros [?%elem_of_nil _]]. }
  apply bt_sorted_cons in Hs as [Hs Hk]. apply Forall_cons in Hge as [Hkp Hge]. unfold starts_with. cbn [fst] in *.
  case_bool_decide as Hp.
  - rewrite !elem_of_cons, (IH Hs Hge). naive_solver.
  - split; [by intros ?%elem_of_nil|]. intros [Hin [s Es]]. exfalso. apply Hp, (between_prefix p k s Hkp).
    rewrite elem_of_cons in Hin. destruct Hin as [->|Hin]; [destruct Hp; by exists s|].
    rewrite <- Es. rewrite Forall_forall in Hk. apply Hk, list_elem_of_fmap. by exists kv.
Qed.

Section scans.
Context {I : Type} `{OrdKV I} `{!OrdKVLaws I}.
Implicit Type i : I.

Definition entries_at i (p : bytes) : list (bytes * bytes) := block p (kv_range i p).

Lemma entries_at_elem i p k v : (k, v) ∈ entries_at i p ↔ kv_get i k = Some v ∧ p `prefix_of` k.
Proof.
  unfold entries_at. rewrite block_elem, kv_range_elem; [|apply kv_range_sorted|].
  - cbn. split; [naive_solver|]. intros [Hk [s ->]]. split_and!; [done| |by exists s].
    unfold blt. pose proof (bytes_cmp_app p s []) as E. rewrite app_nil_r in E. rewrite E. by destruct s.
  - apply Forall_forall. intros [k' v'] Hin. by apply kv_range_elem in Hin as [_ ?].
Qed.

Lemma entries_at_sorted i p : bt_sorted (entries_at i p).
Proof.
  unfold bt_sorted, entries_at. pose proof (kv_range_sorted i p) as Hs. unfold bt_sorted in Hs.
  induction (kv_range i p) as [|[k v] items IH]; cbn [block]; [constructor|].
  cbn in Hs. apply StronglySorted_inv in Hs as [Hs Hk]. destruct (starts_with _ _); [|constructor]. cbn.
  constructor; [by apply IH|]. rewrite Forall_forall in Hk |- *. intros j (kv & -> & Hin)%list_elem_of_fmap.
  apply Hk, list_elem_of_fmap. exists kv. split; [done|]. eapply sublist_subseteq; [apply block_sublist|done].
Qed.

(** ** Dropping an index *)

Lemma block_keys_eq p items : ∀ keys, block_keys p items keys = keys ++ (block p items).*1.
Proof.
  induction items as [|[k v] items IH]; intros keys; cbn [block_keys block]; [by rewrite app_nil_r|].
  cbn [fst]. destruct (starts_with k p); cbn; [|by rewrite app_nil_r]. rewrite IH. by rewrite <- app_assoc.
Qed.

Lemma delete_all_lemma e i :
  ∃ i', delete_all e i = (Ok tt, i') ∧
    ∀ k, kv_get i' k = if decide (id_prefix (e_id e) `prefix_of` k) then None else kv_get i k.
Proof.
  unfold delete_all. rewrite (sbind_asks _ _ _ (kv_range i (id_prefix (e_id e)))) by done. rewrite block_keys_eq. cbn [app].
  destruct (removals_spec ((block (id_prefix (e_id e)) (kv_range i (id_prefix (e_id e)))).*1) i) as (i' & E & Hi').
  exists i'. split; [exact E|]. intros k. rewrite Hi'. fold (entries_at i (id_prefix (e_id e))).
  destruct (decide (k ∈ _)) as [Hin|Hin], (decide (id_prefix (e_id e) `prefix_of` k)) as [Hp|Hp]; try done.
  - apply list_elem_of_fmap in Hin as ([k' v] & -> & [_ ?]%entries_at_elem). done.
  - destruct (kv_get i k) as [v|] eqn:Ek; [|done]. exfalso. apply Hin, list_elem_of_fmap.
    exists (k, v). split; [done|]. by apply entries_at_elem.
Qed.

(** ** Reading the entities back *)

Definition entity_of (unique : bool) (kv : bytes * bytes) : res AKey :=
  if unique then try_from_bytes kv.2 else try_from_bytes (drop (length kv.1 - 16) kv.1).

Lemma scan_loop_eq p unique items : ∀ out,
  scan_loop p unique items out = let? ks := mapM_res (entity_of unique) (block p items) in Ok (out ++ ks).
Proof.
  induction items as [|[k v] items IH]; intros out; cbn [scan_loop block mapM_res rbind]; [by rewrite app_nil_r|].
  cbn [fst]. destruct (starts_with k p); cbn [negb mapM_res rbind]; [|by rewrite app_nil_r].
  unfold entity_of at 1. cbn [fst snd]. destruct unique.
  all: destruct (try_from_bytes _) as [a|e| |]; cbn [rbind]; [|done..]; rewrite IH;
    destruct (mapM_res _ _); cbn [rbind]; [by rewrite <- app_assoc|done..].
Qed.

Context `{Ext}.

Lemma try_into_bytes a : akey_ok a → try_from_bytes (into_bytes a) = Ok a.
Proof.
  intros Ha. unfold try_from_bytes. assert (blen (into_bytes a) = 16) as -> by (unfold into_bytes; by rewrite blen_to_be).
  cbn. by rewrite from_into_bytes.
Qed.

Lemma entity_of_entry e y : akey_ok (akey y) → entity_of (def_unique (e_def e)) (t_entry e y) = Ok (akey y).
Proof.
  intros Ha. unfold entity_of, t_entry. destruct (def_unique (e_def e)); cbn [fst snd]; [by apply try_into_bytes|].
  unfold entry_key. rewrite drop_app_length'; [by apply try_into_bytes|].
  rewrite length_app. unfold into_bytes. rewrite length_to_be. lia.
Qed.

Lemma scan_prefix_lemma e i t cols :
  tree_ok t → indexed t i e →
  ∃ ys, scan_prefix i (e_id e) cols (def_unique (e_def e)) = Ok (map (λ qy, akey qy.2) ys) ∧
    map (λ qy, t_entry e qy.2) ys = entries_at i (id_prefix (e_id e) ++ cols) ∧
    Forall (λ qy, member t e qy.1 qy.2) ys.
Proof.
  intros Ht Hix. unfold scan_prefix. rewrite scan_loop_eq. fold (entries_at i (id_prefix (e_id e) ++ cols)).
  assert (∀ kv, kv ∈ entries_at i (id_prefix (e_id e) ++ cols) → ∃ q y, member t e q y ∧ t_entry e y = kv) as Hm.
  { intros [k v] [Hk Hp]%entries_at_elem. apply (ix_sound _ _ _ Hix k v Hk). etrans; [|exact Hp]. by apply prefix_app_r. }
  induction (entries_at i (id_prefix (e_id e) ++ cols)) as [|kv items IH].
  { exists []. cbn. split_and!; [done|done|constructor]. }
  destruct (Hm kv) as (q & y & Hy & Ekv); [left|]. destruct IH as (ys & E & Eys & Hys).
  { intros x Hx. apply Hm. by right. }
  exists ((q, y) :: ys). cbn [mapM_res map]. rewrite <- Ekv at 1. rewrite entity_of_entry by by apply (tr_keys t Ht q), Hy.
  destruct (mapM_res _ items) as [ks|x| |]; cbn [rbind app] in *; [|done..]. injection E as ->.
  split_and!; [done|cbn; by rewrite Ekv, Eys|by constructor].
Qed.
End scans.
