(* ===== verification/Query.v ===== *)
(** * Index queries

    [txn/grab.rs], [execute_query], over a write transaction: a prefix scan of the
    index, optionally restricted to a subtree and reversed, then each hit read back
    as a record.  What [T::load] makes of a record is a parameter. *)
From S2P Require Import Prelude BTree Codec Ext Scalar Path Ordered IndexDef Value Archived Access Key Dir Engine Registry WriteBuffer Ctx Fs Tree Refine FsSpec Grab Write Txn Pattern Maintenance IndexSync IndexScan Reindex.

Section query.
Context `{Ext} {T : Type} `{KV T Z bytes} {M : Type} `{KV M bytes bytes} {I : Type} `{OrdKV I}.
Context (table : bytes).
Abbreviation W := (WTxn T M I).

(** ** The index side of the read interface *)

Definition lookup_index (index : bytes) : SM W (option IndexEntry) :=
  asks (λ w, registry_lookup (w_meta w) table index).

Definition scan_index (entry : IndexEntry) (cols : bytes) : SM W (list AKey) :=
  asks (λ w, scan_prefix (w_index w) (e_id entry) cols (def_unique (e_def entry))).

Definition affected_under (p : Pattern) (root : APath) : SM W (list AKey) :=
  asks (λ w, affected_entities p (data (w_ctx w)) root).

(** ** Running a query *)

Section load.
Context {A : Type} (load : ArchivedReader → res A).

Definition load_entity (entity : AKey) : SM W (option A) :=
  or_return (on_ctx (g_entry_blob entity)) (Ok None) (λ blob,
  asks (λ _,
    let? kind := get_entry_kind blob in
    match kind with
    | KFile => let? reader := ArchivedReader_new blob 1 in let? value := load reader in Ok (Some value)
    | KDir => Ok None
    end)).

Fixpoint load_entities (entities : list AKey) (out : list A) : SM W (list A) :=
  match entities with
  | [] => sret out
  | entity :: entities =>
      let! value := load_entity entity in
      load_entities entities (match value with Some value => out ++ [value] | None => out end)
  end.

(** The entities under [root]; [None] is the early return of an empty result. *)
Definition under_root (def : IndexDef) (root : APath) (entities : list AKey) : SM W (option (list AKey)) :=
  if is_root root then sret (Some entities)
  else
    let! pattern := asks (λ _, Pattern_parse (def_pattern def)) in
    if Pattern_depth pattern <? blen root then sret None
    else
      let! under := affected_under pattern root in
      sret (Some (List.filter (λ entity, bool_decide (entity ∈ under)) entities)).

Definition execute_query (index : bytes) (prefix : list Scalar) (reverse : bool) (root : APath) : SM W (list A) :=
  let! entry := lookup_index index in
  let! entry := asks (λ _, ok_or entry IndexNotFound) in
  let def := e_def entry in
  if blen (def_columns def) <? blen prefix then serr (IndexArity (blen (def_columns def)) (blen prefix))
  else
    let cols := encode_columns def prefix in
    let! entities := scan_index entry cols in
    let! entities := under_root def root entities in
    match entities with
    | None => sret []
    | Some entities => load_entities (if reverse then rev entities else entities) []
    end.
End load.
End query.

(** ** Columns and prefixes *)

Section columns.
Context `{Ext} `{!ExtLaws}.

Lemma below_not_prefix a b s : below a b → ¬ a `prefix_of` b ++ s ∧ ¬ b `prefix_of` a ++ s.
Proof.
  intros (p & x & y & u & v & -> & -> & Hxy). split; rewrite <- app_assoc; intros Hp%prefix_app_inv;
    cbn in Hp; apply prefix_cons_inv_1 in Hp; lia.
Qed.

(** A short tuple encodes the leading columns. *)
Lemma encode_columns_take xs : ∀ n cs, (n ≤ length xs)%nat → (n ≤ length cs)%nat →
  ∃ rest, encode_columns_loop [] xs cs = encode_columns_loop [] (take n xs) cs ++ rest.
Proof.
  induction xs as [|x xs IH]; intros n cs Hn Hc.
  { exists []. destruct n; [|cbn in Hn; lia]. by destruct cs. }
  destruct n as [|n]; [by eexists|]. destruct cs as [|c cs]; [cbn in Hc; lia|].
  cbn [take encode_columns_loop]. rewrite encode_columns_loop_eq, (encode_columns_loop_eq (take n xs)).
  destruct (IH n cs) as [rest E]; [cbn in *; lia..|]. exists rest. by rewrite E, app_assoc.
Qed.

(** The leading columns of [ys] equal [xs] exactly when the encoding starts so. *)
Lemma columns_prefix def xs ys s :
  length ys = length (def_columns def) → (length xs ≤ length ys)%nat →
  Forall sortable xs → Forall sortable ys →
  encode_columns def xs `prefix_of` encode_columns def ys ++ s ↔
    tuple_cmp (def_columns def) xs (take (length xs) ys) = Eq.
Proof.
  intros Hl Hn Hx Hy. unfold encode_columns.
  destruct (encode_columns_take ys (length xs) (def_columns def) Hn ltac:(lia)) as [rest ->].
  assert (length xs = length (take (length xs) ys)) as Hlen by (rewrite length_take; lia).
  pose proof (columns_cmp_by xs (def_columns def) (take (length xs) ys) Hlen Hx (Forall_take _ _ _ Hy)) as Hc.
  rewrite <- app_assoc. destruct (tuple_cmp _ _ _); cbn [cmp_by] in Hc.
  - rewrite Hc. split; [done|]. intros _. by apply prefix_app_r.
  - split; [|done]. intros Hp. by destruct (proj1 (below_not_prefix _ _ (rest ++ s) Hc)).
  - split; [|done]. intros Hp. by destruct (proj2 (below_not_prefix _ _ (rest ++ s) Hc)).
Qed.

(** Smaller keys have no larger columns. *)
Lemma columns_sorted def xs ys s t :
  length xs = length ys → Forall sortable xs → Forall sortable ys →
  blt (encode_columns def xs ++ s) (encode_columns def ys ++ t) → tuple_cmp (def_columns def) xs ys ≠ Gt.
Proof.
  intros Hl Hx Hy Hlt Hc. pose proof (columns_cmp_by xs (def_columns def) ys Hl Hx Hy) as Hb. rewrite Hc in Hb. cbn in Hb.
  apply (below_app _ _ t s), below_lt in Hb. unfold blt in Hlt.
  change (encode_columns_loop [] ys (def_columns def)) with (encode_columns def ys) in Hb.
  change (encode_columns_loop [] xs (def_columns def)) with (encode_columns def xs) in Hb.
  rewrite bytes_cmp_antisym, Hb in Hlt. done.
Qed.

Lemma t_entry_key e y : ∃ s, (t_entry e y).1 = id_prefix (e_id e) ++ encode_columns (e_def e) (t_columns e y) ++ s.
Proof. unfold t_entry, entry_key. destruct (def_unique _); cbn [fst]; rewrite <- app_assoc; eauto. Qed.
End columns.

(** ** What a query answers *)

Lemma sorted_irrefl_NoDup {A} (R : A → A → Prop) l : (∀ x, ¬ R x x) → StronglySorted R l → NoDup l.
Proof.
  intros Hir; induction 1 as [|x l _ IH Hx]; constructor; [|done].
  intros Hin. rewrite Forall_forall in Hx. by apply (Hir x), Hx.
Qed.

Lemma sorted_map {A B} (R : B → B → Prop) (S : A → A → Prop) (g : A → B) l :
  (∀ a b, a ∈ l → b ∈ l → R (g a) (g b) → S a b) → StronglySorted R (map g l) → StronglySorted S l.
Proof.
  induction l as [|x l IH]; intros Hrs Hs; [constructor|]. cbn in Hs. apply StronglySorted_inv in Hs as [Hs Hx].
  constructor; [apply IH; [|done]; intros; apply Hrs; [by right|by right|done]|].
  apply Forall_forall. intros y Hy. rewrite Forall_forall in Hx.
  apply Hrs; [left|by right|]. apply Hx, list_elem_of_fmap. eauto.
Qed.

Lemma sorted_filter {A} (R : A → A → Prop) (f : A → bool) l : StronglySorted R l → StronglySorted R (List.filter f l).
Proof.
  induction 1 as [|x l _ IH Hx]; cbn; [constructor|]. destruct (f x); [|done]. constructor; [done|].
  apply Forall_forall. intros y Hy. rewrite Forall_forall in Hx. apply Hx.
  apply list_elem_of_In, List.filter_In in Hy as [? _]. by apply list_elem_of_In.
Qed.

Lemma elem_filter {A} (f : A → bool) l x : x ∈ List.filter f l ↔ x ∈ l ∧ f x = true.
Proof. by rewrite !list_elem_of_In, List.filter_In. Qed.

Lemma NoDup_filter_bool {A} (f : A → bool) l : NoDup l → NoDup (List.filter f l).
Proof.
  induction 1 as [|x l Hx _ IH]; cbn; [constructor|]. destruct (f x); [|done]. constructor; [|done].
  rewrite elem_filter. naive_solver.
Qed.

Lemma filter_map_comm {A B} (f : B → bool) (g : A → B) l : List.filter f (map g l) = map g (List.filter (λ x, f (g x)) l).
Proof. induction l as [|x l IH]; cbn; [done|]. destruct (f (g x)); cbn; by rewrite IH. Qed.

Lemma filter_ext_elem {A} (f g : A → bool) l : (∀ x, x ∈ l → f x = g x) → List.filter f l = List.filter g l.
Proof.
  induction l as [|x l IH]; intros Hfg; cbn; [done|]. rewrite (Hfg x) by left.
  rewrite IH; [done|]. intros y Hy. apply Hfg. by right.
Qed.

Section answers.
Context `{Ext} `{!ExtLaws} {T : Type} `{KV T Z bytes} `{!KVLaws T Z bytes} {M : Type} `{KV M bytes bytes}
  {I : Type} `{OrdKV I} `{!OrdKVLaws I}.
Implicit Types (w : WTxn T M I).

Definition blob_of (y : atree) : bytes := match y with AFile _ b => b | ADir _ _ => [] end.

Section load.
Context {A : Type} (load : ArchivedReader → res A).

(** The record read from a file. *)
Definition load_hit (h : APath * atree) : res A :=
  let? reader := ArchivedReader_new (file_entry (blob_of h.2)) 1 in load reader.

Definition is_file (h : APath * atree) : bool := negb (is_dir h.2).

Lemma load_entity_spec w t q y :
  txn (w_ctx w) t → tlookup t q = Some y →
  load_entity load (akey y) w =
    (if is_dir y then Ok None else let? x := load_hit (q, y) in Ok (Some x), w).
Proof.
  intros [(Hc & _ & _ & _ & Hh) _] Hl. unfold load_entity, or_return.
  assert (on_ctx (g_entry_blob (akey y)) w = (Ok (node_entry <$> view (w_ctx w) (akey y)), w)) as E.
  { unfold on_ctx, g_entry_blob, WriteTxn_Grab, asks. rewrite write_entry_blob_spec by done. by destruct w. }
  rewrite (sbind_Ok _ _ _ _ _ E). destruct Hh as [Hh|[Hr ->]].
  - rewrite (holds_akey _ _ (holds_lookup _ _ _ _ Hh Hl)). destruct y as [k b|k ch]; cbn; [|done].
    unfold asks, load_hit. cbn. by destruct (ArchivedReader_new _ _).
  - destruct q as [|n q]; [|done]. cbn in Hl. injection Hl as <-. cbn. by rewrite Hr.
Qed.

Lemma load_entities_spec w t hs : ∀ out,
  txn (w_ctx w) t → Forall (λ h, tlookup t h.1 = Some h.2) hs →
  load_entities load (map (λ h, akey h.2) hs) out w =
    (let? xs := mapM_res load_hit (List.filter is_file hs) in Ok (out ++ xs), w).
Proof.
  induction hs as [|[q y] hs IH]; intros out Ht Hhs; cbn [map load_entities List.filter mapM_res rbind].
  { by rewrite app_nil_r. }
  apply Forall_cons in Hhs as [Hl Hhs]. cbn [fst snd] in *. unfold sbind.
  rewrite (load_entity_spec w t q y Ht Hl). unfold is_file at 1. cbn [snd].
  destruct (is_dir y); cbn [negb mapM_res]; [by rewrite IH|].
  destruct (load_hit (q, y)) as [x|e| |]; cbn [rbind]; [|done..]. rewrite IH by done.
  destruct (mapM_res _ _); cbn [rbind]; [by rewrite <- app_assoc|done..].
Qed.

Lemma t_columns_length e y : length (t_columns e y) = length (def_columns (e_def e)).
Proof. unfold t_columns. by rewrite length_map. Qed.

(** What the scan of a query finds. *)
Lemma scan_hits table w t es e prefix :
  synced table w t es → e ∈ es → tree_ok t →
  (length prefix ≤ length (def_columns (e_def e)))%nat → Forall sortable prefix →
  (∀ q y, member t e q y → Forall sortable (t_columns e y)) →
  ∃ hs, scan_prefix (w_index w) (e_id e) (encode_columns (e_def e) prefix) (def_unique (e_def e)) =
      Ok (map (λ h, akey h.2) hs) ∧
    NoDup hs ∧
    StronglySorted (λ a b, tuple_cmp (def_columns (e_def e)) (t_columns e a.2) (t_columns e b.2) ≠ Gt) hs ∧
    Forall (λ h, member t e h.1 h.2) hs ∧
    ∀ q y, is_dir y = false → (q, y) ∈ hs ↔ member t e q y ∧
      tuple_cmp (def_columns (e_def e)) prefix (take (length prefix) (t_columns e y)) = Eq.
Proof.
  intros Hsync He Ht Hn Hp Hsort. pose proof (sy_indexed _ _ _ _ Hsync e He) as Hix.
  destruct (scan_prefix_lemma e (w_index w) t (encode_columns (e_def e) prefix) Ht Hix) as (hs & E & Ehs & Hm).
  pose proof (entries_at_sorted (w_index w) (id_prefix (e_id e) ++ encode_columns (e_def e) prefix)) as Hs.
  rewrite <- Ehs in Hs. unfold bt_sorted in Hs. change fst with (λ kv : bytes * bytes, kv.1) in Hs.
  rewrite <- list_fmap_compose in Hs. rewrite Forall_forall in Hm. exists hs. split_and!; [done| | |by apply Forall_forall|].
  - apply (NoDup_fmap_1 (λ h : APath * atree, (t_entry e h.2).1)). eapply (sorted_irrefl_NoDup blt); [|exact Hs].
    intros x Hx. unfold blt in Hx. by rewrite bytes_cmp_refl in Hx.
  - eapply sorted_map; [|exact Hs]. intros [q y] [r z] Hy Hz Hlt. cbn in *.
    destruct (t_entry_key e y) as [s Ey], (t_entry_key e z) as [u Ez]. rewrite Ey, Ez in Hlt.
    unfold blt in Hlt. rewrite bytes_cmp_app in Hlt.
    apply (columns_sorted (e_def e) _ _ s u); [by rewrite !t_columns_length|by eapply Hsort, (Hm _ Hy)|by eapply Hsort, (Hm _ Hz)|done].
  - intros q y Hf.
    assert (∀ y, member t e q y → (id_prefix (e_id e) ++ encode_columns (e_def e) prefix `prefix_of` (t_entry e y).1 ↔
      tuple_cmp (def_columns (e_def e)) prefix (take (length prefix) (t_columns e y)) = Eq)) as Hpre.
    { intros z Hz. destruct (t_entry_key e z) as [s ->]. rewrite <- (columns_prefix _ _ _ s); [|apply t_columns_length| |done|by eapply Hsort].
      - split; [apply prefix_app_inv|apply prefix_app].
      - by rewrite t_columns_length. }
    split.
    + intros Hin. pose proof (Hm _ Hin) as Hy. split; [done|]. apply Hpre; [done|].
      assert (t_entry e y ∈ entries_at (w_index w) (id_prefix (e_id e) ++ encode_columns (e_def e) prefix)) as Hat.
      { rewrite <- Ehs. apply list_elem_of_fmap. by exists (q, y). }
      rewrite (surjective_pairing (t_entry e y)) in Hat. by apply entries_at_elem in Hat as [_ ?].
    + intros [Hy Hc]. pose proof (ix_complete _ _ _ Hix q y Hy Hf) as Hk.
      assert (t_entry e y ∈ entries_at (w_index w) (id_prefix (e_id e) ++ encode_columns (e_def e) prefix)) as Hat.
      { rewrite (surjective_pairing (t_entry e y)). apply entries_at_elem. split; [done|]. by apply Hpre. }
      rewrite <- Ehs in Hat. apply list_elem_of_fmap in Hat as ([r z] & Ez & Hin). cbn in Ez.
      pose proof (Hm _ Hin) as Hz. destruct (member_unique t e q y r z Ht Hy Hz) as [-> ->]; [|done].
      apply (t_entry_inj e); [apply (tr_keys t Ht q), Hy|apply (tr_keys t Ht r), Hz|done].
Qed.

(** Restricting to a subtree keeps the members at or under it. *)
Lemma under_root_spec w t e root hs :
  txn (w_ctx w) t → buffering (wb (w_ctx w)) = false → tree_ok t → usable e →
  Forall (λ h, member t e h.1 h.2) hs →
  let kept := List.filter (λ h, bool_decide (root `prefix_of` h.1)) hs in
  under_root (e_def e) root (map (λ h, akey h.2) hs) w =
    (Ok (if is_root root then Some (map (λ h, akey h.2) hs)
         else match Pattern_parse (def_pattern (e_def e)) with
              | Ok p => if Pattern_depth p <? blen root then None else Some (map (λ h, akey h.2) kept)
              | _ => None end), w) ∧
  (match Pattern_parse (def_pattern (e_def e)) with Ok p => Pattern_depth p <? blen root | _ => true end = true → kept = []).
Proof.
  intros Ht Hb Hok (_ & Hpat & _) Hm kept. rewrite Forall_forall in Hm.
  destruct (Pattern_parse (def_pattern (e_def e))) as [p|x| |] eqn:Ep; [|by destruct Hpat..].
  assert (∀ q y, (q, y) ∈ hs → blen q = Pattern_depth p) as Hlen.
  { intros q y Hin. destruct (Hm _ Hin) as [(p' & Ep' & Hmt) _]. rewrite Ep in Ep'. injection Ep' as <-.
    apply Forall2_length in Hmt. unfold Pattern_depth, blen. by rewrite Hmt. }
  split.
  - unfold under_root. destruct (is_root root) eqn:Er; [done|]. rewrite (sbind_asks _ _ _ p) by done.
    destruct (Z.ltb_spec (Pattern_depth p) (blen root)) as [Hlt|Hge]; [done|]. unfold affected_under.
    pose proof (txn_spells _ _ Ht Hb) as Hsp. unfold affected_entities.
    rewrite (sbind_asks _ _ _ (map akey (t_walk p t root))).
    2: { rewrite <- (tr_root t Hok). by apply walk_spec. }
    unfold sret. do 3 f_equal. rewrite filter_map_comm. f_equal. apply filter_ext_elem. intros [q y] Hin. cbn [fst snd].
    apply bool_decide_ext. rewrite list_elem_of_fmap. pose proof (Hm _ Hin) as Hy.
    setoid_rewrite (t_walk_spec p t root _ (tr_sorted t Hok)). split.
    + intros (z & Ek & r & Hl & Hmt & Ho). destruct (path_unique t q r y z (tr_nodup t Hok) (proj2 Hy) Hl Ek) as [<- <-].
      destruct Ho as [?|Hqr]; [done|]. specialize (Hlen _ _ Hin). unfold blen in *.
      rewrite (prefix_length_eq q root Hqr); [done|]. lia.
    + intros Hr. exists y. split; [done|]. exists q. split_and!; [apply Hy| |by left].
      destruct Hy as [(p' & Ep' & Hmt) _]. rewrite Ep in Ep'. by injection Ep' as <-.
  - intros Hlt%Z.ltb_lt. unfold kept. rewrite (filter_ext_elem _ (λ _, false)); [clear; by induction hs|].
    intros [q y] Hin. apply bool_decide_false. cbn. intros Hr%prefix_length. specialize (Hlen _ _ Hin). unfold blen in *. lia.
Qed.

(** C30: An index query answers from the data: in a transaction whose indexes are in
    step with its tree, it reads back exactly the covered files at or under the root
    whose leading columns equal the given values - each once, in the order of their
    column tuples (each column in its direction), or in the reverse order - and it
    changes nothing. An unknown index and too many values are refused. *)
Theorem query_spec table index w t es prefix reverse root :
  synced table w t es → buffering (wb (w_ctx w)) = false →
  (registry_lookup (w_meta w) table index = Ok None →
     execute_query table load index prefix reverse root w = (Err IndexNotFound, w)) ∧
  (∀ e, e ∈ es → registry_lookup (w_meta w) table index = Ok (Some e) →
     let cols := def_columns (e_def e) in
     (blen cols < blen prefix →
        execute_query table load index prefix reverse root w = (Err (IndexArity (blen cols) (blen prefix)), w)) ∧
     (blen prefix ≤ blen cols → Forall sortable prefix →
      (∀ q y, member t e q y → Forall sortable (t_columns e y)) →
      ∃ hits, execute_query table load index prefix reverse root w =
          (mapM_res load_hit (if reverse then rev hits else hits), w) ∧
        NoDup hits ∧
        StronglySorted (λ a b, tuple_cmp cols (t_columns e a.2) (t_columns e b.2) ≠ Gt) hits ∧
        ∀ q y, (q, y) ∈ hits ↔ member t e q y ∧ is_dir y = false ∧ root `prefix_of` q ∧
          tuple_cmp cols prefix (take (length prefix) (t_columns e y)) = Eq)).
Proof.
  intros Hsync Hb. pose proof (sy_txn _ _ _ _ Hsync) as Ht.
  pose proof (txn_tree_ok _ _ Ht Hb (sy_docs _ _ _ _ Hsync)) as Hok. unfold execute_query, lookup_index. split.
  { intros E. by rewrite (sbind_asks (λ w, registry_lookup (w_meta w) table index) _ w _ E). }
  intros e He E. set (cols := def_columns (e_def e)). rewrite (sbind_asks (λ w, registry_lookup (w_meta w) table index) _ w _ E). cbn [ok_or]. rewrite (sbind_asks _ _ _ e) by done. fold cols. split.
  { intros Hlt. by rewrite (proj2 (Z.ltb_lt _ _) Hlt). }
  intros Hle Hp Hsort. rewrite (proj2 (Z.ltb_ge _ _) Hle).
  destruct (scan_hits table w t es e prefix Hsync He Hok) as (hs & Es & Hnd & Hso & Hm & Hin); [unfold cols, blen in Hle; lia|done..|].
  unfold scan_index. rewrite (sbind_asks (λ w, scan_prefix (w_index w) _ _ _) _ w _ Es).
  assert (usable e) as Hu by (pose proof (sy_usable _ _ _ _ Hsync) as Hus; rewrite Forall_forall in Hus; by apply Hus).
  destruct (under_root_spec w t e root hs Ht Hb Hok Hu Hm) as [Er Hnone].
  set (kept := List.filter (λ h, bool_decide (root `prefix_of` h.1)) hs) in *.
  exists (List.filter is_file kept). split_and!.
  - rewrite (sbind_Ok _ _ _ _ _ Er).
    assert (∀ hs', Forall (λ h, member t e h.1 h.2) hs' →
      load_entities load (if reverse then rev (map (λ h, akey h.2) hs') else map (λ h, akey h.2) hs') [] w =
      (mapM_res load_hit (if reverse then rev (List.filter is_file hs') else List.filter is_file hs'), w)) as Hload.
    { intros hs' Hm'. assert (Forall (λ h, tlookup t h.1 = Some h.2) hs') as Hl by (eapply Forall_impl; [exact Hm'|by intros h [_ ?]]).
      rewrite <- List.filter_rev. destruct reverse.
      - rewrite <- map_rev, (load_entities_spec w t); [|done|by apply Forall_rev]. by destruct (mapM_res _ _).
      - rewrite (load_entities_spec w t) by done. by destruct (mapM_res _ _). }
    assert (Forall (λ h, member t e h.1 h.2) kept) as Hmk.
    { rewrite Forall_forall in Hm |- *. intros h [? _]%elem_filter. by apply Hm. }
    destruct (is_root root) eqn:Eroot.
    + assert (kept = hs) as ->; [|by apply Hload]. destruct root; [|done]. unfold kept.
      clear. induction hs as [|h hs IH]; cbn; [done|]. rewrite bool_decide_true by apply prefix_nil. by rewrite IH.
    + destruct (Pattern_parse _) as [p| | |]; [|by rewrite Hnone; destruct reverse..].
      destruct (Pattern_depth p <? blen root); [by rewrite Hnone; destruct reverse|]. by apply Hload.
  - by apply NoDup_filter_bool, NoDup_filter_bool.
  - by apply sorted_filter, sorted_filter.
  - intros q y. unfold kept. rewrite !elem_filter. unfold is_file. cbn [fst snd]. rewrite negb_true_iff, bool_decide_eq_true.
    split; [intros [[Hq Hr] Hf]; apply Hin in Hq; naive_solver|]. intros (Hy & Hf & Hr & Hc).
    split_and!; [by apply Hin|done..].
Qed.
End load.
End answers.
