(* ===== verification/IndexAdmin.v ===== *)
(** * Creating and dropping indexes

    [table.rs]: registering an index and back-filling it, and dropping one with its
    entries, each in one transaction of the engine that is committed only when every
    step succeeds. *)
From S2P Require Import Prelude BTree Codec Ext Scalar Path Ordered IndexDef Value Archived Access Key Dir Engine Registry WriteBuffer Ctx Tree Write Txn Pattern Maintenance IndexSync IndexScan Reindex Program.

Section admin.
Context `{Ext} {T : Type} `{KV T Z bytes} {M : Type} `{KV M bytes bytes} {I : Type} `{OrdKV I}.

(** The committed tables, and the shared flag of [db/inner.rs]. *)
Record Tables := mkTables { d_data : T; d_meta : M; d_index : I; d_has_any_index : bool }.

Definition mark_has_index (s : Tables) : Tables := mkTables (d_data s) (d_meta s) (d_index s) true.

Definition backfill (data : T) (entry : option IndexEntry) : SM I unit :=
  match entry with
  | None => sret tt
  | Some entry => m_insert data [entry] []
  end.

(** [backfill], commit, and the flag; without the commit nothing stays. *)
Definition backfill_and_commit (new_entry : option IndexEntry) (meta : M) : SM Tables unit := λ s,
  match backfill (d_data s) new_entry (d_index s) with
  | (Ok _, i) => (Ok tt, mark_has_index (mkTables (d_data s) meta i (d_has_any_index s)))
  | (Err e, _) => (Err e, s)
  | (Panic, _) => (Panic, s)
  | (OutOfFuel, _) => (OutOfFuel, s)
  end.

Section table.
Context (table : bytes).

Definition create_index (def : IndexDef) : SM Tables unit :=
  let! '(new_entry, meta) := asks (λ s,
    let? '(created, meta) := registry_create (d_meta s) table def in
    let? entry := if (created : bool) then registry_lookup meta table (def_name def) else Ok None in
    Ok (entry, meta)) in
  backfill_and_commit new_entry meta.

Definition ensure_index (def : IndexDef) : SM Tables unit :=
  let! '(new_entry, meta) := asks (λ s,
    let? present := registry_has (d_meta s) table (def_name def) in
    if (present : bool) then Ok (None, d_meta s)
    else
      let? '(_, meta) := registry_create (d_meta s) table def in
      let? entry := registry_lookup meta table (def_name def) in
      Ok (entry, meta)) in
  backfill_and_commit new_entry meta.

Definition delete_index (name : bytes) : SM Tables bool := λ s,
  match registry_delete (d_meta s) table name with
  | Ok (removed, meta) =>
      match removed with
      | Some entry =>
          match delete_all entry (d_index s) with
          | (Ok _, i) => (Ok true, mkTables (d_data s) meta i (d_has_any_index s))
          | (Err e, _) => (Err e, s)
          | (Panic, _) => (Panic, s)
          | (OutOfFuel, _) => (OutOfFuel, s)
          end
      | None => (Ok false, mkTables (d_data s) meta (d_index s) (d_has_any_index s))
      end
  | Err e => (Err e, s)
  | Panic => (Panic, s)
  | OutOfFuel => (OutOfFuel, s)
  end.

(** [index_defs pattern] is what a type declares, one call after the other. *)
Section declared.
Context (index_defs : bytes → list IndexDef).

Definition create_indexes (pattern : bytes) : SM Tables unit := for_each (index_defs pattern) create_index.
Definition ensure_indexes (pattern : bytes) : SM Tables unit := for_each (index_defs pattern) ensure_index.

Fixpoint delete_loop (defs : list IndexDef) (removed : Z) : SM Tables Z :=
  match defs with
  | [] => sret removed
  | def :: defs =>
      let! gone := delete_index (def_name def) in
      delete_loop defs (if (gone : bool) then removed + 1 else removed)
  end.

Definition delete_indexes : SM Tables Z := delete_loop (index_defs []) 0.
End declared.

Definition index_def (name : bytes) (s : Tables) : res (option IndexDef) :=
  let? entry := registry_lookup (d_meta s) table name in Ok (e_def <$> entry).

Definition has_index (name : bytes) (s : Tables) : res bool := registry_has (d_meta s) table name.
End table.
End admin.
Arguments Tables T M I : clear implicits.

(** ** What they do *)

Section spec.
Context `{Ext} `{!ExtLaws} {T : Type} `{KV T Z bytes} `{!KVLaws T Z bytes} {M : Type} `{KV M bytes bytes} `{!KVLaws M bytes bytes}
  {I : Type} `{OrdKV I} `{!OrdKVLaws I}.
Implicit Types (s : Tables T M I) (i : I).

(** Every entry of the index table belongs to an id the registry has given out. *)
Definition ids_below i (n : Z) : Prop :=
  ∀ k v, kv_get i k = Some v → ∃ id, 0 ≤ id < n ∧ id_prefix id `prefix_of` k.

Lemma table_tree_ok (d : T) t : table_holds d t → docs_ok t → tree_ok t ∧ spells d t.
Proof.
  intros Hd Hdoc. assert (word 0) as Hw by by split.
  pose proof (begin_txn d t 0 true Hd Hw) as Ht.
  split; [by apply (txn_tree_ok _ _ Ht)|by apply (txn_spells _ _ Ht)].
Qed.

Lemma backfill_spec d t i e :
  table_holds d t → docs_ok t → usable e →
  (∀ k v, kv_get i k = Some v → ¬ id_prefix (e_id e) `prefix_of` k) →
  (∃ i', backfill d (Some e) i = (Ok tt, i') ∧ indexed t i' e ∧
     ∀ k, ¬ id_prefix (e_id e) `prefix_of` k → kv_get i' k = kv_get i k) ∨
  (∃ i', backfill d (Some e) i = (Err UniqueViolation, i') ∧ collision t e).
Proof.
  intros Hd Hdoc Hu Hfresh. destruct (table_tree_ok d t Hd Hdoc) as [Ht Hsp].
  assert (Forall usable [e]) as Hus by by apply Forall_singleton.
  assert (NoDup (map e_id [e])) as Hnd by (cbn; apply NoDup_singleton).
  unfold backfill. pose proof (inserts_eq [e] Hus d t [[]] i Hsp Ht) as Eb. cbn [for_each] in Eb.
  assert (m_insert d [e] [] i = for_each (entries_all [e] t [[]]) put_one i) as ->.
  { rewrite <- Eb. unfold sbind, sret. by destruct (m_insert d [e] [] i) as [[[]|x| |] i']. }
  assert (∀ x, x ∈ entries_all [e] t [[]] ↔ ∃ q y, member t e q y ∧ x = (def_unique (e_def e), t_entry e y)) as Hel.
  { intros x. rewrite entries_all_elem by apply Ht. split.
    - intros (e' & y & (->%list_elem_of_singleton & q & Hm & _) & ->). eauto.
    - intros (q & y & Hm & ->). exists e, y. split; [|done]. split; [by apply list_elem_of_singleton|].
      exists q. split; [done|]. constructor. apply on_line_nil. }
  destruct (insertions_spec _ (entries_all_consistent [e] Hnd Hus t [[]] Ht) i) as
    [(i' & E & Hin & Hout & _)|(i' & x & E & Hx & Hux & Hbad)]; [left|right].
  - exists i'. split_and!; [done| |].
    + split.
      * intros k v Hk Hp. destruct (decide (Exists (λ x, x.2.1 = k) (entries_all [e] t [[]]))) as [(x & Hx & Ek)%Exists_exists|Hno].
        -- pose proof (Hin x Hx) as Hxk. rewrite Ek, Hk in Hxk. apply Hel in Hx as (q & y & Hm & ->). cbn in *.
           exists q, y. split; [done|]. rewrite <- Ek. injection Hxk as ->. apply surjective_pairing.
        -- rewrite Hout in Hk; [by destruct (Hfresh k v Hk)|]. intros x Hx Ek. apply Hno, Exists_exists. eauto.
      * intros q y Hm _. apply (Hin (def_unique (e_def e), t_entry e y)). apply Hel. eauto.
    + intros k Hk. apply Hout. intros x (q & y & _ & ->)%Hel Ek. apply Hk. rewrite <- Ek. apply entry_prefix.
  - exists i'. split; [done|]. apply Hel in Hx as (q & y & Hy & ->). cbn in *. split; [done|].
    destruct Hbad as [(v & Hv & _)|(x & Hx & Ex & Hne)].
    + destruct (Hfresh _ _ Hv). apply entry_prefix.
    + apply Hel in Hx as (r & z & Hz & ->). cbn in *. exists q, y, r, z. split_and!; [done..|].
      intros Ek. apply Hne. by destruct (member_unique t e q y r z Ht Hy Hz Ek) as [_ ->].
Qed.

Lemma lookup_created reg table def :
  List.find (is_index table (def_name def)) (entries reg) = None →
  List.find (is_index table (def_name def)) (entries reg ++ [mkIndexEntry table (next_id reg) def]) =
    Some (mkIndexEntry table (next_id reg) def).
Proof.
  induction (entries reg) as [|x l IH]; cbn [List.find app].
  - by rewrite (proj2 (is_index_spec _ _ (mkIndexEntry table (next_id reg) def))).
  - destruct (is_index table (def_name def) x); [done|apply IH].
Qed.

(** C31: Creating an index back-fills it: registering a new definition over a table of
    documents either succeeds, with the entry registered under a fresh id, the new
    index holding exactly the entries of the nodes its pattern covers and every other
    index untouched, or fails with UniqueViolation because two covered nodes really
    share their columns, or fails because the name is taken by another definition;
    a failure leaves the database as it was, and an identical definition is accepted
    without touching data or indexes. *)
Theorem create_index_spec table def s t reg :
  holds_registry (d_meta s) reg → string_ok table → def_ok def →
  table_holds (d_data s) t → docs_ok t → ids_below (d_index s) (next_id reg) →
  let e := mkIndexEntry table (next_id reg) def in
  usable e → next_id reg < U32_MAX → blen (entries reg) + 1 < 2 ^ 32 → reg_size (entries reg ++ [e]) ≤ USIZE_MAX →
  match List.find (is_index table (def_name def)) (entries reg) with
  | Some old =>
      if decide (e_def old = def) then create_index table def s = (Ok tt, mark_has_index s)
      else ∃ x, create_index table def s = (Err (SchemaMismatch x), s)
  | None =>
      (∃ s', create_index table def s = (Ok tt, s') ∧ d_data s' = d_data s ∧ d_has_any_index s' = true ∧
         holds_registry (d_meta s') (mkRegistry (next_id reg + 1) (entries reg ++ [e])) ∧
         indexed t (d_index s') e ∧ ids_below (d_index s') (next_id reg + 1) ∧
         ∀ t' e', e' ∈ entries reg → indexed t' (d_index s) e' → indexed t' (d_index s') e') ∨
      (create_index table def s = (Err UniqueViolation, s) ∧ collision t e)
  end.
Proof.
  intros Hreg Hst Hdef Hd Hdoc Hids e Hu Hn Hc Hsz. unfold create_index, sbind, asks.
  pose proof (registry_create_lemma (d_meta s) reg table def Hreg Hst Hdef) as Hcreate. cbn zeta in Hcreate. fold e in Hcreate.
  destruct (List.find _ _) as [old|] eqn:Ef; [rewrite Hcreate|].
  { destruct (decide (e_def old = def)); [by destruct s|by eexists]. }
  destruct (Hcreate Hn Hc Hsz) as (meta' & -> & Hreg' & _). cbn [rbind].
  assert (registry_lookup meta' table (def_name def) = Ok (Some e)) as ->.
  { unfold registry_lookup. destruct Hreg' as (_ & -> & _). cbn [rbind entries]. by rewrite lookup_created. }
  cbn [rbind]. unfold backfill_and_commit.
  assert (∀ k v, kv_get (d_index s) k = Some v → ¬ id_prefix (e_id e) `prefix_of` k) as Hfresh.
  { intros k v Hk Hp. destruct (Hids k v Hk) as (id & Hid & Hp'). destruct Hu as [Hu _].
    pose proof (id_prefix_inj (next_id reg) id k Hu) as E. cbn in Hu, Hp. unfold unsigned_ok in *.
    rewrite E in Hid by (done || lia). lia. }
  destruct (backfill_spec (d_data s) t (d_index s) e Hd Hdoc Hu Hfresh) as [(i' & -> & Hix & Hoth)|(i' & -> & Hcol)]; [left|by right].
  eexists. split; [done|]. cbn [mark_has_index d_data d_meta d_index d_has_any_index]. split_and!; try done.
  - intros k v Hk. destruct (decide (id_prefix (e_id e) `prefix_of` k)) as [Hp|Hp].
    + exists (next_id reg). split; [|done]. destruct Hu as [[? _] _]. cbn in *. lia.
    + rewrite Hoth in Hk by done. destruct (Hids k v Hk) as (id & ? & ?). exists id. split; [lia|done].
  - intros t' e' He' [Hsound Hcomplete].
    assert (∀ k, id_prefix (e_id e') `prefix_of` k → ¬ id_prefix (e_id e) `prefix_of` k) as Hne.
    { intros k Hp' Hp. destruct Hreg as ([_ Hwf _ Hb _ _ _] & _). rewrite Forall_forall in Hwf, Hb.
      destruct (Hwf e' He') as (_ & Hid' & _). specialize (Hb e' He'). destruct Hu as [Hu _].
      pose proof (id_prefix_inj _ _ k Hid' Hu Hp' Hp) as E. cbn in E, Hb. lia. }
    split.
    + intros k v Hk Hp. apply Hsound; [|done]. by rewrite <- Hoth by by apply Hne.
    + intros q y Hm Hf. rewrite Hoth; [by apply (Hcomplete q)|]. by apply Hne, entry_prefix.
Qed.

(** Dropping an index removes exactly its registration and its entries, answers
    whether there was one, and leaves every other key of the index table and the data
    alone. *)
Theorem delete_index_spec table name s reg :
  holds_registry (d_meta s) reg →
  match remove_first (is_index table name) (entries reg) with
  | None => delete_index table name s = (Ok false, s) ∧
      ∀ x, x ∈ entries reg → ¬ (e_table x = table ∧ def_name (e_def x) = name)
  | Some (e, rest) =>
      ∃ s', delete_index table name s = (Ok true, s') ∧ e_table e = table ∧ def_name (e_def e) = name ∧
        Permutation (entries reg) (e :: rest) ∧ d_data s' = d_data s ∧
        holds_registry (d_meta s') (mkRegistry (next_id reg) rest) ∧
        (∀ k, kv_get (d_index s') k = if decide (id_prefix (e_id e) `prefix_of` k) then None else kv_get (d_index s) k) ∧
        ∀ t e', e' ∈ rest → indexed t (d_index s) e' → indexed t (d_index s') e'
  end.
Proof.
  intros Hreg. unfold delete_index. pose proof (registry_delete_lemma (d_meta s) reg table name Hreg) as Hdel.
  destruct (remove_first _ _) as [[e rest]|].
  2: { destruct Hdel as [-> Hno]. split; [by destruct s|done]. }
  destruct Hdel as (meta' & -> & Hreg' & Hperm & Ht & Hn & _).
  destruct (delete_all_lemma e (d_index s)) as (i' & -> & Hi'). eexists. split; [done|]. cbn [d_data d_meta d_index].
  split_and!; try done. intros t e' He' [Hsound Hcomplete].
  assert (∀ k, id_prefix (e_id e') `prefix_of` k → ¬ id_prefix (e_id e) `prefix_of` k) as Hne.
  { intros k Hp' Hp. destruct Hreg as ([_ Hwf Hids _ _ _ _] & _). rewrite Hperm in Hwf, Hids.
    apply Forall_cons in Hwf as [(_ & Hid & _) Hwf]. rewrite Forall_forall in Hwf. destruct (Hwf e' He') as (_ & Hid' & _).
    cbn in Hids. apply NoDup_cons in Hids as [Hnin _]. apply Hnin, list_elem_of_fmap. exists e'. split; [|done].
    by apply (id_prefix_inj _ _ k). }
  split.
  - intros k v Hk Hp. apply Hsound; [|done]. rewrite Hi', decide_False in Hk; [done|by apply Hne].
  - intros q y Hm Hf. rewrite Hi', decide_False; [by apply (Hcomplete q)|]. by apply Hne, entry_prefix.
Qed.
End spec.
