(* ===== verification/Cursor.v ===== *)
(** * Editing a stored file

    The in-place scalar patch of [txn/context/table.rs] and the mutable cursor of
    [access/mut_cursor.rs] over a file of the write transaction. *)
From S2P Require Import Prelude BTree Codec Ext Scalar Path Value Archived Access Key Dir Engine WriteBuffer Ctx Fs Tree Refine FsSpec Move FsMove TreeLaws Write Txn.

Section cursor.
Context `{Ext} {T : Type} `{KV T Z bytes}.

(** [MutCursor]; the transaction it borrows is the state its methods run in. *)
Record MutCursor := mkMutCursor { mc_apath : APath; mc_akey : AKey; mc_epoch : Z }.

(** [WriteTxn::fetch_mut] opens one. *)
Definition MutCursor_open (apath : APath) (c : Ctx T) : res (option MutCursor) :=
  let? found := fetch_mut apath c in
  Ok ((λ ke, mkMutCursor apath ke.1 ke.2) <$> found).

Section fuel.
Context (fuel : nat).

Definition mc_value (m : MutCursor) (c : Ctx T) : res Value :=
  let? v := load_value_at fuel (mc_apath m) c in Ok (default default_value v).

Definition mc_write (m : MutCursor) (value : Value) : SM (Ctx T) unit :=
  store_value_at fuel (mc_apath m) value.

Definition mc_scalar_at (m : MutCursor) (at_path : VPath) (c : Ctx T) : res (option Scalar) :=
  let? v := mc_value m c in Ok (subtree v at_path ≫= leaf).

Definition mc_kind_at (m : MutCursor) (at_path : VPath) (c : Ctx T) : res (option NodeKind) :=
  let? v := mc_value m c in Ok (node_kind <$> subtree v at_path).

Definition mc_len_at (m : MutCursor) (at_path : VPath) (c : Ctx T) : res Z :=
  let? v := mc_value m c in mem_len_at v at_path.

Definition mc_keys_at (m : MutCursor) (at_path : VPath) (c : Ctx T) : res (list bytes) :=
  let? v := mc_value m c in mem_keys_at v at_path.

Definition mc_exists_at (m : MutCursor) (at_path : VPath) (c : Ctx T) : res bool :=
  let? v := mc_value m c in Ok (bool_decide (is_Some (subtree v at_path))).

Definition mc_put_scalar (m : MutCursor) (at_path : VPath) (scalar : Scalar) : SM (Ctx T) unit :=
  put_scalar_at fuel (mc_apath m) (Some (mc_akey m, mc_epoch m)) at_path scalar.

Definition mc_ensure_container (m : MutCursor) (at_path : VPath) (is_list : bool) : SM (Ctx T) unit :=
  let! value := asks (mc_value m) in
  mc_write m (ensure_container_in value at_path is_list).

Definition mc_remove (m : MutCursor) (at_path : VPath) : SM (Ctx T) bool :=
  let! value := asks (mc_value m) in
  let '(value, removed) := remove_in value at_path in
  let! _ := mc_write m value in
  sret removed.
End fuel.

(** ** The patch *)

Context `{!ExtLaws}.

Lemma span_not_leaf v p :
  value_ok v → vpath_str_ok p → blen (encode v) < 2 ^ 32 → subtree v p ≫= leaf = None →
  archived_leaf_scalar_span (encode v) p = Ok None.
Proof.
  intros Hv Hp Hb Hs. destruct (encode_new v Hb) as (root & Hnew & Hr).
  unfold archived_leaf_scalar_span. rewrite Hnew. cbn [rbind].
  pose proof (navigate_repr (encode v) Hb p root v Hp Hv Hr) as Hn.
  destruct (subtree v p) as [c|]; simpl in Hn; [|by rewrite Hn].
  destruct Hn as (off & -> & Hoff). cbn [rbind]. destruct c as [s|l|m]; [done|..]; unfold node_leaf_scalar_span.
  - apply repr_list_inv in Hoff as (pre & post & offs & -> & E & _). by erewrite (read_u8_at _ Hb) by exact E.
  - apply repr_node_inv in Hoff as (pre & post & offs & -> & E & _). by erewrite (read_u8_at _ Hb) by exact E.
Qed.

Lemma set_in_present v p x y : subtree v p = Some y → (set_in v p x).2 = true.
Proof.
  revert v; induction p as [|[n|i] p IH]; intros v; cbn [subtree set_in]; [done|..].
  - destruct v as [| |m]; cbn [get]; try done. destruct (bt_get m n) as [c|]; [|done].
    intros Hc%IH. by destruct (set_in c p x).
  - destruct v as [|l|]; cbn [at_]; try done. destruct (l !! Z.to_nat i) as [c|]; [|done].
    intros Hc%IH. by destruct (set_in c p x).
Qed.

(** Whether the fast path applies. *)
Definition patchable (v : Value) (p : VPath) (s : Scalar) : bool :=
  match subtree v p ≫= leaf with
  | Some s0 => blen (Scalar_encode s []) =? blen (Scalar_encode s0 [])
  | None => false
  end.

Lemma patch_scalar_lemma v p s :
  value_ok v → vpath_str_ok p → blen (encode v) < 2 ^ 32 →
  patch_scalar (file_entry (encode v)) p s =
    Ok (patchable v p s,
        if patchable v p s then file_entry (encode (set_in v p (Leaf s)).1) else file_entry (encode v)).
Proof.
  intros Hv Hp Hb. unfold patch_scalar.
  assert (entry_split (file_entry (encode v)) = Ok (KFile, encode v)) as -> by done. cbn [rbind].
  unfold patchable. destruct (subtree v p ≫= leaf) as [s0|] eqn:Hs.
  - assert (subtree v p = Some (Leaf s0)) as Hl.
    { destruct (subtree v p) as [[s1| |]|]; try done. cbn in Hs. by injection Hs as ->. }
    assert (scalar_ok s0) as Hs0 by exact (subtree_value_ok _ _ _ Hv Hl).
    destruct (Z.eqb_spec (blen (Scalar_encode s [])) (blen (Scalar_encode s0 []))) as [Hw|Hw].
    + destruct (encode_patch v p s0 s Hv Hp Hl Hs0 Hw Hb) as (A & B & E & E' & ->). cbn [rbind].
      rewrite (proj2 (Z.eqb_eq _ _) Hw). cbn [negb]. f_equal. f_equal.
      rewrite E, E'. unfold overwrite, file_entry. rewrite blen_cons.
      replace (1 + blen (A ++ Scalar_encode s0 [] ++ B) - blen (A ++ Scalar_encode s0 [] ++ B) + blen A)
        with (blen (TAG_FILE :: A)) by (rewrite blen_cons; lia).
      replace (Z.to_nat (blen (TAG_FILE :: A))) with (length (TAG_FILE :: A)) by (unfold blen; lia).
      change (TAG_FILE :: A ++ Scalar_encode s0 [] ++ B) with ((TAG_FILE :: A) ++ Scalar_encode s0 [] ++ B).
      rewrite take_app_length. replace (length (Scalar_encode s [])) with (length (Scalar_encode s0 [])) by (unfold blen in Hw; lia).
      rewrite <- length_app, (app_assoc (TAG_FILE :: A) (Scalar_encode s0 []) B), drop_app_length. done.
    + destruct (encode_patch v p s0 s0 Hv Hp Hl Hs0 eq_refl Hb) as (A & B & E & _ & ->). cbn [rbind].
      by rewrite (proj2 (Z.eqb_neq _ _) Hw).
  - by rewrite span_not_leaf.
Qed.

(** C14: The in-place patch is an edit of the value: on a stored well-formed value it
    applies exactly when the path names a leaf whose encoding has the new scalar's
    width, and then the patched entry is, byte for byte, the entry of the value with
    that leaf replaced (of the same length); otherwise the entry is returned
    unchanged. *)
Theorem patch_scalar_spec v p s :
  value_ok v → vpath_str_ok p → blen (encode v) < 2 ^ 32 →
  let entry := file_entry (encode v) in
  if patchable v p s then
    patch_scalar entry p s = Ok (true, file_entry (encode (set_in v p (Leaf s)).1)) ∧
    blen (encode (set_in v p (Leaf s)).1) = blen (encode v) ∧
    subtree (set_in v p (Leaf s)).1 p = Some (Leaf s)
  else patch_scalar entry p s = Ok (false, entry).
Proof.
  intros Hv Hp Hb. cbn zeta. rewrite (patch_scalar_lemma v p s Hv Hp Hb).
  unfold patchable. destruct (subtree v p ≫= leaf) as [s0|] eqn:Hs; [|done].
  destruct (Z.eqb_spec (blen (Scalar_encode s [])) (blen (Scalar_encode s0 []))) as [Hw|Hw]; [|done].
  assert (subtree v p = Some (Leaf s0)) as Hl.
  { destruct (subtree v p) as [[s1| |]|]; try done. cbn in Hs. by injection Hs as ->. }
  assert (scalar_ok s0) as Hs0 by exact (subtree_value_ok _ _ _ Hv Hl).
  destruct (encode_patch v p s0 s Hv Hp Hl Hs0 Hw Hb) as (A & B & E & E' & _). split_and!; [done| |].
  - rewrite E, E', !blen_app. lia.
  - destruct (set_in v p (Leaf s)) as [v' b] eqn:Es. cbn [fst].
    assert (b = true) as ->; [|by apply (set_in_get v p (Leaf s) v' Hv)].
    change b with (v', b).2. rewrite <- Es. by eapply set_in_present.
Qed.

(** ** Scalar writes on the tree *)

Context `{!KVLaws T Z bytes}.
Implicit Type c : Ctx T.

Lemma updates_file_changes c c' k b0 b :
  ctx_ok c → view c k = Some (NFile b0) → updates c c' k (Some (NFile b)) →
  changes c (AFile k b0) c' (AFile k b) 0.
Proof.
  intros Hc Hf (Hc' & Hv & Hr & Hb). split; try done; cbn.
  - by rewrite Hv, upd_eq.
  - apply NoDup_singleton.
  - intros j Hj _. rewrite Hv, upd_ne; set_solver.
  - auto.
  - rewrite Z.mul_0_r, state_at_0; [done|apply Hc].
Qed.

Lemma txn_file c t p k b : txn c t → tlookup t p = Some (AFile k b) → fs_mat c t.
Proof.
  intros [Hfs _] Hl. destruct (fs_cases c t Hfs) as [?|(_ & _ & ->)]; [done|]. by destruct p.
Qed.

(** A hint that may be trusted: stale by its epoch, or naming the file. *)
Definition hint_ok c (k : AKey) (hint : option (AKey * Z)) : Prop :=
  match hint with
  | None => True
  | Some (key, epoch) => epoch = structure (wb c) → key = k
  end.

Lemma resolve_target_file c t p k b hint :
  txn c t → tlookup t p = Some (AFile k b) → hint_ok c k hint →
  resolve_target p hint c = Ok (Some k, Some (file_entry b)).
Proof.
  intros Ht Hl Hh. pose proof (txn_file _ _ _ _ _ Ht Hl) as Hm. pose proof Hm as (Hc & _ & _ & _ & Hhold).
  pose proof (holds_lookup _ _ _ _ Hhold Hl) as Hv. cbn in Hv.
  pose proof (read_verified_file c k b Hc Hv) as Hr.
  assert (resolve_and_read p c = Ok (Some k, Some (file_entry b))) as Hrr.
  { unfold resolve_and_read. rewrite (fs_resolve c t p Hm), Hl. cbn. by rewrite Hr. }
  unfold resolve_target. destruct hint as [[key ep]|]; [|done].
  destruct (Z.eqb_spec ep (ctx_structure_epoch c)) as [E|_]; [|done]. cbn in Hh. rewrite (Hh E), Hr. done.
Qed.

Lemma put_file_edit_structure c k e : structure (wb (put_file_edit k e c).2) = structure (wb c).
Proof.
  unfold put_file_edit. destruct (ctx_buffering c); [done|]. cbn. unfold file_forget. by destruct (files_dirty (wb c)).
Qed.

(** Overwriting a scalar of an existing file: patched in place or re-encoded, the
    outcome is the same. *)
Lemma put_scalar_existing fuel c t p k v hint at_path s :
  txn c t → tlookup t p = Some (AFile k (encode v)) → hint_ok c k hint →
  value_ok v → vpath_str_ok at_path → blen (encode v) < 2 ^ 32 → (depth v ≤ fuel)%nat →
  ∃ c', put_scalar_into fuel p hint at_path s c = (Ok tt, c') ∧
    txn c' (treplace t p (AFile k (encode (set_in v at_path (Leaf s)).1))) ∧
    structure (wb c') = structure (wb c).
Proof.
  intros Ht Hl Hh Hv Hp Hb Hd. pose proof (txn_file _ _ _ _ _ Ht Hl) as Hm. pose proof Hm as (Hc & Hnd & _ & _ & Hhold).
  pose proof (holds_lookup _ _ _ _ Hhold Hl) as Hvk. cbn in Hvk.
  set (b := encode (set_in v at_path (Leaf s)).1).
  destruct (put_file_edit_spec c k b Hc (ex_intro _ _ Hvk)) as (c' & E & Hup & Hst).
  exists c'. split_and!; [|eapply steps_txn; [exact Ht|]; apply changes_steps; [done|]|done].
  - unfold put_scalar_into. rewrite (sbind_asks _ _ _ _ (resolve_target_file c t p k _ hint Ht Hl Hh)).
    rewrite (sbind_asks (λ _, patch_scalar (file_entry (encode v)) at_path s) _ c _ (patch_scalar_lemma v at_path s Hv Hp Hb)). cbn beta iota.
    destruct (patchable v at_path s); [exact E|].
    rewrite (sbind_asks _ _ _ (KFile, encode v)) by done. cbn beta iota.
    rewrite (sbind_asks _ _ _ v) by by apply decode_encode_lemma. exact E.
  - eapply (changes_at c t p (AFile k (encode v))); [done|done|by apply (holds_sorted c)|done| |].
    + by apply updates_file_changes.
    + intros i Hi. lia.
Qed.

(** Applying a list of scalar edits to a value. *)
Fixpoint edit (v : Value) (edits : list (VPath * Scalar)) : Value :=
  match edits with
  | [] => v
  | (at_path, s) :: edits => edit (set_in v at_path (Leaf s)).1 edits
  end.

(** Every value along the way fits the format and the fuel. *)
Fixpoint edits_fit (fuel : nat) (v : Value) (edits : list (VPath * Scalar)) : Prop :=
  blen (encode v) < 2 ^ 32 ∧ (depth v ≤ fuel)%nat ∧
  match edits with
  | [] => True
  | (at_path, s) :: edits =>
      vpath_str_ok at_path ∧ scalar_ok s ∧ edits_fit fuel (set_in v at_path (Leaf s)).1 edits
  end.

Fixpoint put_scalars (fuel : nat) (m : MutCursor) (edits : list (VPath * Scalar)) : SM (Ctx T) unit :=
  match edits with
  | [] => sret tt
  | (at_path, s) :: edits => let! _ := mc_put_scalar fuel m at_path s in put_scalars fuel m edits
  end.

Lemma put_scalars_lemma fuel m edits : ∀ c t k v,
  txn c t → tlookup t (mc_apath m) = Some (AFile k (encode v)) → hint_ok c k (Some (mc_akey m, mc_epoch m)) →
  value_ok v → edits_fit fuel v edits →
  ∃ c', put_scalars fuel m edits c = (Ok tt, c') ∧
    txn c' (treplace t (mc_apath m) (AFile k (encode (edit v edits)))) ∧
    structure (wb c') = structure (wb c).
Proof.
  induction edits as [|[q s] edits IH]; intros c t k v Ht Hl Hh Hv (Hb & Hd & Hfit); cbn [put_scalars edit].
  - exists c. split_and!; [done| |done]. destruct (txn_sorted _ _ Ht) as [Hso _].
    rewrite treplace_same; done.
  - destruct Hfit as (Hq & Hs & Hfit).
    destruct (put_scalar_existing fuel c t (mc_apath m) k v _ q s Ht Hl Hh Hv Hq Hb Hd) as (c1 & E1 & Ht1 & Hs1).
    destruct (txn_sorted _ _ Ht) as [Hso _].
    destruct (IH c1 _ k (set_in v q (Leaf s)).1 Ht1) as (c2 & E2 & Ht2 & Hs2); [| |by apply set_in_ok|done|].
    + by apply (tlookup_replace t (mc_apath m) _ _ Hso Hl).
    + unfold hint_ok in *. by rewrite Hs1.
    + exists c2. split_and!; [|by rewrite (treplace_twice _ _ _ _ _ Hso Hl) in Ht2|congruence].
      unfold mc_put_scalar, put_scalar_at. by rewrite (sbind_Ok _ _ _ _ _ E1).
Qed.

Lemma fetch_mut_file c t p k b : txn c t → tlookup t p = Some (AFile k b) →
  fetch_mut p c = Ok (Some (k, structure (wb c))).
Proof.
  intros Ht Hl. pose proof (txn_file _ _ _ _ _ Ht Hl) as (Hc & _ & Hk & _ & Hhold).
  pose proof (holds_lookup _ _ _ _ Hhold Hl) as Hv. cbn in Hv.
  unfold fetch_mut, resolve_with_kind. rewrite (resolve_buffered_spec c p Hc), <- Hk, (holds_vresolve _ _ _ Hhold), Hl.
  cbn [rbind fmap option_fmap option_map akey].
  pose proof (buffered_dir_spec k c Hc) as Eb. unfold buffered_dir in Eb. rewrite Eb.
  destruct Hc as (Hw & Hd & Hf & He & _). unfold view in Hv. destruct (dirs (wb c) !! k) as [m|]; [done|].
  rewrite bool_decide_false by (by intros [? ?]). unfold fetch_entry_kind.
  destruct (files (wb c) !! k) as [e|] eqn:Ef.
  - destruct (Hf _ _ Ef) as [_ [b' ->]]. done.
  - unfold engine_view in Hv. destruct (kv_get (data c) k) as [e|] eqn:Eg; [|done].
    destruct (He _ _ Eg) as [(m & Hm & ->)|(b' & ->)]; cbn [mbind option_bind] in Hv; [by rewrite decode_dir in Hv|done].
Qed.

Lemma load_value_at_file fuel c t p k v : txn c t → tlookup t p = Some (AFile k (encode v)) →
  value_ok v → blen (encode v) < 2 ^ 32 → (depth v ≤ fuel)%nat → load_value_at fuel p c = Ok (Some v).
Proof.
  intros Ht Hl Hv Hb Hd. pose proof (txn_file _ _ _ _ _ Ht Hl) as (Hc & _ & Hk & _ & Hhold).
  pose proof (holds_lookup _ _ _ _ Hhold Hl) as Hvk. cbn in Hvk.
  unfold load_value_at. rewrite (resolve_buffered_spec c p Hc), <- Hk, (holds_vresolve _ _ _ Hhold), Hl.
  cbn [rbind fmap option_fmap option_map akey].
  pose proof (read_verified_file c k _ Hc Hvk) as Hr. unfold read_verified in Hr. rewrite Hr. cbn.
  by rewrite decode_encode_lemma.
Qed.

(** C13: A mutable cursor edits the file it was opened on: any burst of scalar writes
    through it, each patched in place or re-encoded, buffered or not, leaves the
    file under its key with the value the same edits give in memory; the rest of
    the tree is untouched, the cursor stays valid, and reading back through it
    gives the edited value. *)
Theorem cursor_edits_spec fuel c t p k v edits :
  txn c t → tlookup t p = Some (AFile k (encode v)) → value_ok v → edits_fit fuel v edits →
  ∃ m c', MutCursor_open p c = Ok (Some m) ∧ put_scalars fuel m edits c = (Ok tt, c') ∧
    txn c' (treplace t p (AFile k (encode (edit v edits)))) ∧
    MutCursor_open p c' = Ok (Some m) ∧
    ∀ q, mc_scalar_at fuel m q c' = Ok (subtree (edit v edits) q ≫= leaf).
Proof.
  intros Ht Hl Hv Hfit. set (m := mkMutCursor p k (structure (wb c))).
  assert (∀ c1 t1 b, txn c1 t1 → tlookup t1 p = Some (AFile k b) → structure (wb c1) = structure (wb c) →
            MutCursor_open p c1 = Ok (Some m)) as Hopen.
  { intros c1 t1 b Ht1 Hl1 Hs. unfold MutCursor_open. rewrite (fetch_mut_file c1 t1 p k b Ht1 Hl1). cbn. by rewrite Hs. }
  destruct (put_scalars_lemma fuel m edits c t k v Ht Hl) as (c' & E & Ht' & Hs'); [by intros _|done..|].
  cbn [mc_apath m] in Ht'. destruct (txn_sorted _ _ Ht) as [Hso _].
  pose proof (tlookup_replace t p _ (AFile k (encode (edit v edits))) Hso Hl) as Hl'.
  exists m, c'. split_and!; [by eapply Hopen|done|done|by eapply Hopen|].
  intros q. unfold mc_scalar_at, mc_value. cbn [mc_apath m].
  assert (value_ok (edit v edits) ∧ blen (encode (edit v edits)) < 2 ^ 32 ∧ (depth (edit v edits) ≤ fuel)%nat) as (Hv' & Hb' & Hd').
  { clear -Hv Hfit. revert v Hv Hfit. induction edits as [|[q s] edits IH]; intros v Hv (Hb & Hd & Hfit); [done|].
    destruct Hfit as (Hq & Hs & Hfit). apply IH; [by apply set_in_ok|done]. }
  by rewrite (load_value_at_file fuel c' _ p k _ Ht' Hl' Hv' Hb' Hd').
Qed.
End cursor.
