(* ===== verification/Edge.v ===== *)
(** * Edge cases of the mutations

    What the operations do where their specifications stop: a move or a copy onto
    an ancestor of its source, and a scalar write at a path that names nothing or a
    directory. *)
From S2P Require Import Prelude BTree Codec Ext Scalar Path Value Archived Access Key Dir Engine WriteBuffer Ctx Fs Tree Refine FsSpec Move FsMove TreeLaws Grab Write Txn Cursor.

Section edge.
Context `{Ext} {T : Type} `{KV T Z bytes} `{!KVLaws T Z bytes}.
Implicit Type c : Ctx T.

(** Directories that are there need not be created. *)
Lemma ensure_present p : ∀ t s k ch,
  tsorted t → tlookup t p = Some (ADir k ch) → t_ensure t p s = Ok (t, s).
Proof.
  induction p as [|n p IH]; intros t s k ch Hso; cbn [tlookup t_ensure]; [done|].
  destruct t as [|k0 ch0]; [done|]. apply tsorted_dir in Hso as [Hs Hch].
  destruct (bt_get ch0 n) as [x|] eqn:Hg; [|done]. intros Hl.
  assert (is_dir x = true) as ->.
  { destruct x; [|done]. destruct p as [|m p]; cbn in Hl; [by injection Hl|done]. }
  pose proof (bt_get_Some_in _ _ _ Hg) as Hin. rewrite Forall_forall in Hch.
  rewrite (IH x s k ch (Hch _ Hin) Hl). cbn [rbind]. by rewrite bt_insert_present.
Qed.

(** Resolving only looks at the directories strictly above the path. *)
Lemma vresolve_frame v v' p : ∀ t,
  holds v t → (∀ q y, q `prefix_of` p → q ≠ p → tlookup t q = Some y → v' (akey y) = v (akey y)) →
  vresolve v' (akey t) p = akey <$> tlookup t p.
Proof.
  induction p as [|n p IH]; intros t Hh Hf; cbn [vresolve tlookup]; [done|].
  rewrite (Hf [] t (prefix_nil _)) by done.
  destruct t as [k b|k ch]; cbn [akey].
  - cbn in Hh. by rewrite Hh.
  - apply holds_dir in Hh as [-> Hch]. rewrite bt_get_ckeys. destruct (bt_get ch n) as [x|] eqn:Hg; [|done].
    cbn [fmap option_fmap option_map]. apply IH.
    + apply bt_get_Some_in in Hg. rewrite Forall_forall in Hch. by apply (Hch (n, x)).
    + intros q y Hq Hne Hl. apply (Hf (n :: q)); [by apply prefix_cons|congruence|]. by rewrite tlookup_cons, Hg.
Qed.

(** Unlinking from a directory that is gone recreates it empty. *)
Lemma unlink_absent c k n : ctx_ok c → view c k = None →
  ∃ c', unlink_child k n c = (Ok tt, c') ∧ updates c c' k (Some (NDir [])).
Proof.
  intros Hc Hv. destruct (bump_spec c Hc) as (c1 & E1 & Hc1 & Hv1 & Hr1 & Hb1 & Hs1).
  unfold unlink_child. rewrite (sbind_Ok _ _ _ _ _ E1). rewrite <- Hv1 in Hv.
  assert (∀ c', updates c1 c' k (Some (NDir [])) → updates c c' k (Some (NDir []))) as Hu.
  { intros c' (? & Hvw & ? & ?). split_and!; [done| |congruence..]. intros j. rewrite Hvw. unfold upd. by rewrite Hv1. }
  destruct (ctx_buffering c1) eqn:Hb.
  - destruct (edit_buffered_spec c1 k (λ m, bt_remove m n) [] Hc1 Hb (or_intror (conj Hv eq_refl)) dir_ok_nil)
      as (c' & E & Hup & _). exists c'. split; [done|by apply Hu].
  - rewrite (sbind_asks _ _ _ []); [|by rewrite (dir_children_spec c1 k Hc1), Hv].
    destruct (put_dir_spec c1 k [] Hc1 dir_ok_nil) as (c' & E & Hup & _); [by rewrite Hv|].
    exists c'. split; [done|by apply Hu].
Qed.

(** The shared first half of [mv] and [cp] onto an ancestor: the destination's
    subtree, the source in it, is deleted. *)
Lemma ancestor_deleted fuel c t dp dn r x :
  let dst := dp ++ [dn] in
  txn c t → tlookup t (dst ++ r) = Some x → r ≠ [] → (height t ≤ fuel)%nat →
  ∃ k ch y c3, fs_mat c t ∧ tlookup t dp = Some (ADir k ch) ∧ bt_get ch dn = Some y ∧
    ensure_dir dp c = (Ok k, c) ∧ child k dn c = Ok (Some (akey y)) ∧
    cascade_delete fuel (akey y) c = (Ok tt, c3) ∧ erases c c3 (tkeys y) ∧
    (∀ q z, q `prefix_of` dst ++ r → tlookup t q = Some z → akey z ∈ tkeys y ↔ dst `prefix_of` q) ∧
    (∀ j, j ∈ tkeys x → j ∈ tkeys y).
Proof.
  intros dst Ht Hx Hr Hfuel. destruct (txn_sorted c t Ht) as [Hso _].
  assert (fs_mat c t) as Hm.
  { destruct Ht as [Hfs _]. destruct (fs_cases c t Hfs) as [?|(_ & _ & ->)]; [done|].
    exfalso. destruct dp, r; done. }
  pose proof Hm as (Hc & Hnd & Hk & Hd & Hh).
  pose proof Hx as Hx'. rewrite tlookup_app in Hx'. destruct (tlookup t dst) as [y|] eqn:Hy; [|done].
  destruct (tlookup_snoc _ _ _ _ Hy) as (k & ch & Hl & Hg).
  pose proof (cascade_opt fuel c t dp dn k ch Hm Hl Hfuel) as (c3 & E3 & Her). rewrite Hg in E3. cbn in E3.
  unfold mv_gone in Her. rewrite Hg in Her.
  exists k, ch, y, c3. split_and!; try done.
  - unfold ensure_dir. rewrite (sbind_Ok _ _ _ _ _ (ensure_root_mat c t Hm)).
    rewrite <- Hk. clear -Hc Hh Hl.
    revert Hl. generalize dependent t. induction dp as [|n p IH]; intros t Hh Hl; cbn [ensure_dir_from tlookup] in *.
    + injection Hl as ->. done.
    + destruct t as [|k0 ch0]; [done|]. apply holds_dir in Hh as [Hk0 Hch].
      rewrite (sbind_asks _ _ _ _ (child_spec c _ n Hc)). cbn [akey]. rewrite Hk0, bt_get_ckeys.
      destruct (bt_get ch0 n) as [z|] eqn:Hz; [|done]. cbn [fmap option_fmap option_map].
      apply bt_get_Some_in in Hz. rewrite Forall_forall in Hch. pose proof (Hch _ Hz) as Hhz. cbn [snd] in Hhz.
      rewrite (sbind_asks _ _ _ _ (kind_spec c (akey z) Hc)), (holds_akey _ _ Hhz).
      rewrite bool_decide_true; [by apply IH|].
      destruct z; [|done]. destruct p; cbn in Hl; by try injection Hl.
  - pose proof (fs_child c t dp dn _ Hm Hl) as E. cbn [akey] in E. fold dst in E. by rewrite E, Hy.
  - intros q z Hq Hz. split; [intros Hin; by apply (key_below t q dst z y)|].
    intros [u ->]. rewrite tlookup_app, Hy in Hz. apply (lookup_keys _ _ _ Hz). apply akey_in.
  - intros j Hj. by apply (lookup_keys _ _ _ Hx').
Qed.

(** C40: Moving a node onto one of its own ancestors is not refused and destroys it:
    the destination's subtree, the node included, is deleted first, and the deleted
    node's key is then linked at the destination; the call answers [Ok], the
    destination path resolves to a key with no entry, and none of the node's
    subtree is left. *)
Theorem mv_onto_ancestor fuel c t dp dn r rn x :
  let dst := dp ++ [dn] in let src := dst ++ r ++ [rn] in
  txn c t → tlookup t src = Some x → (height t ≤ fuel)%nat →
  ∃ c', mv fuel src dst c = (Ok tt, c') ∧ resolve dst c' = Ok (Some (akey x)) ∧
    read_verified (akey x) c' = Ok None ∧ ∀ j, j ∈ tkeys x → view c' j = None.
Proof.
  intros dst src Ht Hx Hfuel.
  destruct (ancestor_deleted fuel c t dp dn (r ++ [rn]) x Ht Hx) as
    (k & ch & y & c3 & Hm & Hl & Hg & Eens & Ech & Ecas & (Hc3 & Hv3 & Hr3 & Hb3) & Hbelow & Hsub); [by destruct r|done|].
  pose proof Hm as (Hc & Hnd & Hk & Hd & Hh). fold dst in Hbelow.
  assert (src = (dst ++ r) ++ [rn]) as Es by (unfold src; by rewrite app_assoc).
  assert (¬ src `prefix_of` dst) as Hsd.
  { intros Hp%prefix_length. unfold src in Hp. rewrite !length_app in Hp. cbn in Hp. lia. }
  assert (mv fuel src dst c = mv_into fuel src dst c) as ->.
  { unfold mv. destruct (names_start_with dst src) eqn:E; [by apply names_start_with_spec in E|].
    unfold src, dst. by destruct dp. }
  rewrite Es in Hx. destruct (tlookup_snoc _ _ _ _ Hx) as (ks & chs & Hls & Hgx).
  assert (k ∉ tkeys y) as Hky.
  { intros Hin. apply (Hbelow dp _ ltac:(unfold dst; rewrite <- !app_assoc; by apply prefix_app_r) Hl) in Hin.
    apply prefix_length in Hin. unfold dst in Hin. rewrite length_app in Hin. cbn in Hin. lia. }
  assert (ks ∈ tkeys y) as Hksy.
  { apply (Hbelow (dst ++ r) _ ltac:(rewrite app_assoc; by apply prefix_app_r) Hls). by apply prefix_app_r. }
  pose proof (holds_lookup _ _ _ _ Hh Hl) as [Hkv _]%holds_dir.
  pose proof (holds_lookup _ _ _ _ Hh Hls) as [Hksv _]%holds_dir.
  assert (akey_ok (akey x)) as Hxok.
  { pose proof (view_dir_ok c ks _ Hc Hksv) as (_ & Hfa & _). apply bt_get_Some_in in Hgx.
    rewrite Forall_forall in Hfa. apply (Hfa (rn, akey x)). unfold ckeys. by apply (list_elem_of_fmap_2 (λ e, (e.1, akey e.2)) _ (rn, x)). }
  destruct (link_child_spec c3 k dn (akey x) (ckeys ch) Hc3) as (c4 & E4 & (Hc4 & Hv4 & Hr4 & Hb4) & _).
  { by rewrite Hv3, decide_False. }
  { apply dir_ok_insert; [by apply (view_dir_ok c k)|done|]. left. rewrite bt_get_ckeys, Hg. eauto. }
  destruct (unlink_absent c4 ks rn Hc4) as (c5 & E5 & (Hc5 & Hv5 & Hr5 & Hb5)).
  { rewrite Hv4, upd_ne, Hv3, decide_True; [done|done|]. by intros ->. }
  assert (∀ j, j ∈ tkeys y → j ≠ ks → view c5 j = None) as Hgone.
  { intros j Hj Hne. rewrite Hv5, upd_ne, Hv4, upd_ne, Hv3, decide_True; [done..| |done]. by intros ->. }
  assert (∀ j, j ∈ tkeys x → j ≠ ks) as Hxks.
  { intros j Hj ->. apply (key_below t (dst ++ r) ((dst ++ r) ++ [rn]) (ADir ks chs) x) in Hj; [|by apply (holds_sorted c)|done..].
    apply prefix_length in Hj. rewrite length_app in Hj. cbn in Hj. lia. }
  assert (view c5 (akey x) = None) as Hxv by (apply Hgone; [apply Hsub, akey_in|apply Hxks, akey_in]).
  exists c5. split_and!.
  - unfold mv_into. rewrite Es. rewrite (sbind_Ok _ _ _ _ _ (split_last_ok (dst ++ r) rn c)).
    unfold dst at 2. rewrite (sbind_Ok _ _ _ _ _ (split_last_ok dp dn c)).
    rewrite (sbind_asks _ _ _ _ (fs_resolve c t (dst ++ r) Hm)), Hls. cbn [fmap option_fmap option_map akey].
    pose proof (fs_child c t (dst ++ r) rn _ Hm Hls) as Ec. cbn [akey] in Ec.
    rewrite (sbind_asks _ _ _ _ Ec), Hx. cbn [fmap option_fmap option_map].
    rewrite (sbind_Ok _ _ _ _ _ Eens), (sbind_asks _ _ _ _ Ech), (sbind_Ok _ _ _ _ _ Ecas), (sbind_Ok _ _ _ _ _ E4).
    exact E5.
  - rewrite (resolve_spec c5 dst Hc5). unfold dst.
    assert (vresolve (view c5) ROOT dp = Some k) as Hdp.
    { rewrite <- Hk, (vresolve_frame (view c) (view c5) dp t Hh), Hl; [done|]. intros q z Hq Hne Hz.
      assert (akey z ≠ k) as Hzk by (intros E; destruct (path_unique t q dp z _ Hnd Hz Hl E); done).
      assert (akey z ∉ tkeys y) as Hzy.
      { intros Hin. apply (Hbelow q z) in Hin; [| |done].
        - apply prefix_length in Hin, Hq. unfold dst in Hin. rewrite length_app in Hin. cbn in Hin. lia.
        - etrans; [exact Hq|]. unfold dst. rewrite <- !app_assoc. by apply prefix_app_r. }
      rewrite Hv5, upd_ne, Hv4, upd_ne, Hv3, decide_False; [done..|]. intros E. apply Hzy. by rewrite E. }
    assert (∀ v k0 p n, vresolve v k0 (p ++ [n]) =
              match vresolve v k0 p with
              | Some k1 => match v k1 with Some (NDir m) => bt_get m n | _ => None end | None => None end) as Hsnoc.
    { clear. intros v k0 p n. revert k0; induction p as [|m p IH]; intros k0; cbn.
      - destruct (v k0) as [[]|]; [|done..]. by destruct (bt_get m n).
      - destruct (v k0) as [[m'|]|]; [|done..]. destruct (bt_get m' m); [apply IH|done]. }
    rewrite Hsnoc, Hdp. rewrite Hv5, upd_ne, Hv4, upd_eq by by intros ->.
    rewrite bt_get_insert_eq; [done|]. by apply (view_dir_ok c k).
  - by apply read_verified_none.
  - intros j Hj. apply Hgone; [by apply Hsub|by apply Hxks].
Qed.

(** Copying a node onto one of its own ancestors deletes it and fails: the
    destination's subtree, source included, is gone before the copy starts, and the
    call answers [Corrupt]; nothing of the old subtree is left. *)
Theorem cp_onto_ancestor fuel c t dp dn r x y :
  let dst := dp ++ [dn] in let src := dst ++ r in
  txn c t → r ≠ [] → tlookup t src = Some x → tlookup t dst = Some y → (height t ≤ fuel)%nat →
  ∃ c', cp fuel src dst c = (Err (Corrupt "copying a missing a-node"), c') ∧
    ∀ j, j ∈ tkeys y → view c' j = None.
Proof.
  intros dst src Ht Hr Hx Hy Hfuel.
  destruct (ancestor_deleted fuel c t dp dn r x Ht Hx) as
    (k & ch & y' & c3 & Hm & Hl & Hg & Eens & Ech & Ecas & (Hc3 & Hv3 & Hr3 & Hb3) & Hbelow & Hsub); [done|done|].
  assert (y' = y) as ->.
  { unfold dst in Hy. rewrite tlookup_app, Hl in Hy. cbn in Hy. rewrite Hg in Hy. by injection Hy. }
  assert (¬ src `prefix_of` dst) as Hsd.
  { intros Hp%prefix_length. unfold src in Hp. rewrite length_app in Hp. destruct r; [done|cbn in Hp; lia]. }
  assert (cp fuel src dst c = cp_into fuel src dst c) as ->.
  { unfold cp. destruct (names_start_with dst src) eqn:E; [by apply names_start_with_spec in E|].
    unfold dst. by destruct dp. }
  destruct (fresh_key_spec c3 Hc3) as (c4 & E4 & Hc4 & Hv4 & _).
  exists c4. split.
  - unfold cp_into, dst. rewrite (sbind_Ok _ _ _ _ _ (split_last_ok dp dn c)).
    rewrite (sbind_asks _ _ _ _ (fs_resolve c t src Hm)), Hx. cbn [fmap option_fmap option_map].
    rewrite (sbind_Ok _ _ _ _ _ Eens), (sbind_asks _ _ _ _ Ech), (sbind_Ok _ _ _ _ _ Ecas).
    apply sbind_Err. destruct fuel as [|fuel]; [pose proof (height_dir_pos t); lia|]. cbn [deep_copy].
    rewrite (sbind_Ok _ _ _ _ _ E4).
    rewrite (sbind_asks _ _ _ None); [done|].
    rewrite (kind_spec c4 (akey x) Hc4), Hv4, Hv3, decide_True; [done|]. apply Hsub, akey_in.
  - intros j Hj. by rewrite Hv4, Hv3, decide_True.
Qed.

(** A scalar write at a path that names nothing drops the scalar unless it is
    for the root of the value: the default value is a null leaf, which cannot be
    descended into, the failed [set_value] is ignored, and [Null] is stored. *)
Theorem put_scalar_absent fuel c t p at_path s :
  txn c t → tlookup t p = None →
  put_scalar_at fuel p None at_path s c =
    store_value_into fuel p (match at_path with [] => Leaf s | _ => Leaf Null end) c.
Proof.
  intros Ht Hp. unfold put_scalar_at, put_scalar_into.
  assert (resolve p c = Ok None) as Hr.
  { destruct Ht as [Hfs _]. destruct (fs_cases c t Hfs) as [Hm|(Hc & Hv & ->)].
    - by rewrite (fs_resolve c t p Hm), Hp.
    - rewrite bare_resolve by done. by destruct p. }
  rewrite (sbind_asks _ _ _ (None, None)) by (unfold resolve_target, resolve_and_read; by rewrite Hr).
  destruct at_path as [|[n|i] q]; done.
Qed.

(** A scalar write at a path that names a directory is refused with
    [CannotAccess] when the engine has the directory, but when the directory was
    created in the same transaction and is still buffered it is taken for absent:
    the directory is replaced by a file (and [load_value_at], the cursor's read,
    answers "nothing there" instead of refusing). *)
Theorem put_scalar_on_directory fuel c t p k ch at_path s :
  txn c t → tlookup t p = Some (ADir k ch) → view c ROOT ≠ None →
  match engine_view (data c) k with
  | Some (NFile _) => True
  | Some (NDir _) =>
      ∃ e, put_scalar_at fuel p None at_path s c = (Err (CannotAccess e), c) ∧
           load_value_at fuel p c = Err (CannotAccess e)
  | None =>
      put_scalar_at fuel p None at_path s c =
        store_value_into fuel p (match at_path with [] => Leaf s | _ => Leaf Null end) c ∧
      load_value_at fuel p c = Ok None
  end.
Proof.
  intros Ht Hl Hroot.
  assert (fs_mat c t) as Hm by (destruct Ht as [Hfs _]; by destruct (fs_cases c t Hfs) as [?|(_ & ? & _)]).
  pose proof Hm as (Hc & _ & Hk & _ & Hh). pose proof (holds_lookup _ _ _ _ Hh Hl) as [Hkv _]%holds_dir.
  assert (read_verified k c = Ok (kv_get (data c) k)) as Hrv.
  { unfold read_verified. rewrite file_get_spec by apply Hc.
    rewrite not_file_unbuffered; [done|done|]. intros b. by rewrite Hkv. }
  assert (resolve_target p None c = Ok (Some k, kv_get (data c) k)) as Hrt.
  { unfold resolve_target, resolve_and_read. rewrite (fs_resolve c t p Hm), Hl. cbn. by rewrite Hrv. }
  assert (load_value_at fuel p c =
    match kv_get (data c) k with
    | None => Ok None
    | Some entry =>
        let? '(kind, payload) := entry_split entry in
        match kind with
        | KFile => let? v := decode fuel payload in Ok (Some v)
        | KDir => Err (CannotAccess "'{path}' is a directory, not a file")
        end
    end) as Hlv.
  { unfold load_value_at. rewrite (resolve_buffered_spec c p Hc), <- Hk, (holds_vresolve _ _ _ Hh), Hl.
    cbn [rbind fmap option_fmap option_map akey]. unfold read_verified in Hrv. by rewrite Hrv. }
  unfold put_scalar_at, put_scalar_into. rewrite (sbind_asks _ _ _ _ Hrt), Hlv.
  unfold engine_view. destruct (kv_get (data c) k) as [e|] eqn:Ee; cbn [mbind option_bind].
  - pose proof Hc as (_ & _ & _ & He & _). destruct (He _ _ Ee) as [(m & Hm' & ->)|(b & ->)]; [|done].
    rewrite decode_dir by done. set (e := dir_entry (encode_dir m)). set (b := encode_dir m).
    assert (entry_split e = Ok (KDir, b)) as Eb by done.
    eexists. rewrite Eb. split; [|done].
    rewrite (sbind_asks (λ _, patch_scalar e at_path s) _ c (false, e)) by (unfold patch_scalar; by rewrite Eb).
    cbn beta iota. by rewrite (sbind_asks _ _ _ (KDir, b)) by done.
  - split; [|done]. by destruct at_path as [|[n|i] q].
Qed.
End edge.
