(* ===== verification/Cache.v ===== *)
(** * Read transactions and the shared cache

    [cache.rs] and [txn/read.rs] for an unprotected table, with the part of
    [db/inner.rs], [Table::read] and [WriteTxn::commit] that keeps snapshots and
    generations together.  The [lru] crate's cache is a parameter with what its
    documentation promises: a lookup answers the last value put for the key, or
    nothing if it was evicted.  Locks are never poisoned. *)
From S2P Require Import Prelude BTree Codec Ext Scalar Path Value Archived Key Dir Engine WriteBuffer Ctx Tree Grab.

Class Lru (C K V : Type) := {
  lru_new : Z → C;
  lru_get : C → K → option V * C;
  lru_put : C → K → V → C;
}.

Class LruLaws (C K V : Type) `{Lru C K V} `{EqDecision K} := {
  lru_find : C → K → option V;
  lru_find_new : ∀ n k, lru_find (lru_new n) k = None;
  lru_get_find : ∀ c k, (lru_get c k).1 = lru_find c k;
  lru_find_get : ∀ c k j, lru_find (lru_get c k).2 j = lru_find c j;
  lru_find_put : ∀ c k v j w, lru_find (lru_put c k v) j = Some w →
    if decide (j = k) then w = v else lru_find c j = Some w;
}.

Section cache.
Context {T : Type} `{KV T Z bytes}.
Context {P : Type} `{Lru P APath (Z * AKey)}.
Context {B : Type} `{Lru B (Z * AKey) bytes}.

(** ** [PathCache] *)

Definition PATH_CAPACITY : Z := 64 * 1024.
Definition BLOB_CAPACITY : Z := 16 * 1024.

Record PathCache := mkPathCache { paths : P; blobs : B }.

Definition PathCache_new : PathCache := mkPathCache (lru_new PATH_CAPACITY) (lru_new BLOB_CAPACITY).

Definition get_path (generation : Z) (path : APath) : SM PathCache (option AKey) := λ c,
  let '(found, ps) := lru_get (paths c) path in
  (Ok (match found with
       | Some (stored, akey) => if stored =? generation then Some akey else None
       | None => None
       end), mkPathCache ps (blobs c)).

Definition put_path (generation : Z) (path : APath) (akey : AKey) : SM PathCache unit := λ c,
  (Ok tt, mkPathCache (lru_put (paths c) path (generation, akey)) (blobs c)).

Definition get_blob (generation : Z) (akey : AKey) : SM PathCache (option bytes) := λ c,
  let '(found, bs) := lru_get (blobs c) (generation, akey) in (Ok found, mkPathCache (paths c) bs).

Definition put_blob (generation : Z) (akey : AKey) (blob : bytes) : SM PathCache unit := λ c,
  (Ok tt, mkPathCache (paths c) (lru_put (blobs c) (generation, akey) blob)).

(** ** [ReadTxn]: a snapshot of the data table ([None]: never written), the
    generation it was taken at, and the shared cache *)

Record ReadTxn := mkReadTxn { rt_data : option T; rt_generation : Z; rt_cache : PathCache }.

Definition on_cache {A} (m : Z → SM PathCache A) : SM ReadTxn A := λ r,
  let '(a, c) := m (rt_generation r) (rt_cache r) in (a, mkReadTxn (rt_data r) (rt_generation r) c).

Definition blob_at (table : T) (akey : AKey) : SM ReadTxn (option bytes) :=
  let! cached := on_cache (λ g, get_blob g akey) in
  match cached with
  | Some blob => sret (Some blob)
  | None =>
      match kv_get table akey with
      | Some blob => let! _ := on_cache (λ g, put_blob g akey blob) in sret (Some blob)
      | None => sret None
      end
  end.

Fixpoint resolve_walk_from (table : T) (akey : AKey) (names : APath) : SM ReadTxn (option AKey) :=
  match names with
  | [] => sret (Some akey)
  | name :: rest =>
      let! blob := blob_at table akey in
      match blob with
      | None => sret None
      | Some blob =>
          let! '(kind, payload) := asks (λ _, entry_split blob) in
          match kind with
          | KFile => sret None
          | KDir =>
              let! next := asks (λ _, let? d := ArchivedDir_new payload in dir_get d name) in
              match next with
              | Some child => resolve_walk_from table child rest
              | None => sret None
              end
          end
      end
  end.

(** Only a resolution that reached the end of the path is recorded. *)
Definition resolve_walk (table : T) (path : APath) : SM ReadTxn (option AKey) :=
  let! found := resolve_walk_from table ROOT path in
  match found with
  | Some akey => let! _ := on_cache (λ g, put_path g path akey) in sret (Some akey)
  | None => sret None
  end.

Definition read_resolve (path : APath) : SM ReadTxn (option AKey) :=
  let! cached := on_cache (λ g, get_path g path) in
  match cached with
  | Some akey => sret (Some akey)
  | None => λ r,
      match rt_data r with
      | None => (Ok (match path with [] => Some ROOT | _ => None end), r)
      | Some table => resolve_walk table path r
      end
  end.

Definition read_entry_blob (akey : AKey) : SM ReadTxn (option bytes) :=
  let! cached := on_cache (λ g, get_blob g akey) in
  match cached with
  | Some blob => sret (Some blob)
  | None => λ r, match rt_data r with Some table => blob_at table akey r | None => (Ok None, r) end
  end.

#[export] Instance ReadTxn_Grab : Grab ReadTxn := {
  g_resolve := read_resolve;
  g_entry_blob := read_entry_blob;
}.

(** ** What a reader sees of its snapshot *)

Definition table_get (d : option T) (k : AKey) : option bytes := d ≫= λ t, kv_get t k.
Definition table_view (d : option T) (k : AKey) : option node := table_get d k ≫= decode_entry.
Definition table_ok (d : option T) : Prop := ∀ k e, table_get d k = Some e → entry_ok e.

Context `{!LruLaws P APath (Z * AKey), !LruLaws B (Z * AKey) bytes}.

(** What the cache holds under generation [g] is what the snapshot [d] says. *)
Definition coherent (d : option T) (g : Z) (c : PathCache) : Prop :=
  (∀ p k, lru_find (paths c) p = Some (g, k) → vresolve (table_view d) ROOT p = Some k) ∧
  (∀ k b, lru_find (blobs c) (g, k) = Some b → table_get d k = Some b).

(** Reading only adds entries of the reader's own generation to the cache. *)
Definition grows (g : Z) (c c' : PathCache) : Prop :=
  (∀ p g' k, g' ≠ g → lru_find (paths c') p = Some (g', k) → lru_find (paths c) p = Some (g', k)) ∧
  (∀ k g' b, g' ≠ g → lru_find (blobs c') (g', k) = Some b → lru_find (blobs c) (g', k) = Some b).

Definition read_ok (r : ReadTxn) : Prop := table_ok (rt_data r) ∧ coherent (rt_data r) (rt_generation r) (rt_cache r).

(** A read step: same snapshot and generation, the cache still coherent. *)
Definition read_steps (r r' : ReadTxn) : Prop :=
  rt_data r' = rt_data r ∧ rt_generation r' = rt_generation r ∧ read_ok r' ∧
  grows (rt_generation r) (rt_cache r) (rt_cache r').

Lemma read_steps_refl r : read_ok r → read_steps r r.
Proof. intros Hr. split_and!; [done..|]. by split. Qed.

Lemma read_steps_trans r1 r2 r3 : read_steps r1 r2 → read_steps r2 r3 → read_steps r1 r3.
Proof.
  intros (Hd1 & Hg1 & Ho1 & Hp1 & Hb1) (Hd2 & Hg2 & Ho2 & Hp2 & Hb2). rewrite Hg1 in *.
  split_and!; try congruence; try done. split; eauto.
Qed.

Lemma get_path_step r p : read_ok r →
  ∃ r' k, on_cache (λ g, get_path g p) r = (Ok k, r') ∧ read_steps r r' ∧
    (∀ k', k = Some k' → vresolve (table_view (rt_data r)) ROOT p = Some k').
Proof.
  intros [Ht [Hp Hb]]. unfold on_cache, get_path.
  pose proof (lru_get_find (paths (rt_cache r)) p) as Hf.
  pose proof (lru_find_get (paths (rt_cache r)) p) as Hs.
  destruct (lru_get (paths (rt_cache r)) p) as [found ps]. cbn [fst snd] in *.
  eexists _, _. split_and!; [done| |].
  - split_and!; [done..| |].
    + split; [done|]. split; cbn; [|done]. intros q k. rewrite Hs. apply Hp.
    + split; cbn; [|done]. intros q g' k _. by rewrite Hs.
  - intros k'. destruct found as [[g k]|]; [|done]. destruct (Z.eqb_spec g (rt_generation r)) as [->|]; [|done].
    intros [= <-]. by apply Hp.
Qed.

Lemma get_blob_step r k : read_ok r →
  ∃ r' b, on_cache (λ g, get_blob g k) r = (Ok b, r') ∧ read_steps r r' ∧
    (∀ b', b = Some b' → table_get (rt_data r) k = Some b').
Proof.
  intros [Ht [Hp Hb]]. unfold on_cache, get_blob.
  pose proof (lru_get_find (blobs (rt_cache r)) (rt_generation r, k)) as Hf.
  pose proof (lru_find_get (blobs (rt_cache r)) (rt_generation r, k)) as Hs.
  destruct (lru_get (blobs (rt_cache r)) (rt_generation r, k)) as [found bs]. cbn [fst snd] in *.
  eexists _, _. split_and!; [done| |].
  - split_and!; [done..| |].
    + split; [done|]. split; cbn; [done|]. intros j b. rewrite Hs. apply Hb.
    + split; cbn; [done|]. intros j g' b _. by rewrite Hs.
  - intros b' ->. by apply Hb.
Qed.

Lemma put_blob_step r k b : read_ok r → table_get (rt_data r) k = Some b →
  ∃ r', on_cache (λ g, put_blob g k b) r = (Ok tt, r') ∧ read_steps r r'.
Proof.
  intros [Ht [Hp Hb]] Hk. eexists. split; [done|]. split_and!; [done..| |].
  - split; [done|]. split; cbn; [done|]. intros j b' Hj%lru_find_put.
    case_decide as E; [|by apply Hb]. injection E as ->. by rewrite Hj.
  - split; cbn; [done|]. intros j g' b' Hg Hj%lru_find_put. case_decide as E; [|done]. by injection E.
Qed.

Lemma put_path_step r p k : read_ok r → vresolve (table_view (rt_data r)) ROOT p = Some k →
  ∃ r', on_cache (λ g, put_path g p k) r = (Ok tt, r') ∧ read_steps r r'.
Proof.
  intros [Ht [Hp Hb]] Hk. eexists. split; [done|]. split_and!; [done..| |].
  - split; [done|]. split; cbn; [|done]. intros q k' Hq%lru_find_put.
    case_decide as E; [|by apply Hp]. injection Hq as ->. by rewrite E.
  - split; cbn; [|done]. intros q g' k' Hg Hq%lru_find_put. case_decide as E; [|done]. by injection Hq.
Qed.

Lemma blob_at_spec r t k : read_ok r → rt_data r = Some t →
  ∃ r', blob_at t k r = (Ok (kv_get t k), r') ∧ read_steps r r'.
Proof.
  intros Hr Ht. unfold blob_at. destruct (get_blob_step r k Hr) as (r1 & b & E & Hs & Hb).
  rewrite (sbind_Ok _ _ _ _ _ E). rewrite Ht in Hb. cbn in Hb.
  destruct b as [b|]; [exists r1; split; [|done]; by rewrite (Hb b eq_refl)|].
  pose proof Hs as (Hd & _ & Hr1 & _).
  destruct (kv_get t k) as [e|] eqn:Ek; [|by exists r1].
  destruct (put_blob_step r1 k e Hr1) as (r2 & E2 & Hs2); [by rewrite Hd, Ht|].
  exists r2. split; [by rewrite (sbind_Ok _ _ _ _ _ E2)|]. by eapply read_steps_trans.
Qed.

Lemma resolve_walk_from_spec t names : ∀ r k, read_ok r → rt_data r = Some t →
  ∃ r', resolve_walk_from t k names r = (Ok (vresolve (table_view (Some t)) k names), r') ∧ read_steps r r'.
Proof.
  induction names as [|n names IH]; intros r k Hr Ht; cbn [resolve_walk_from vresolve].
  - exists r. split; [done|]. by apply read_steps_refl.
  - destruct (blob_at_spec r t k Hr Ht) as (r1 & E1 & Hs1). rewrite (sbind_Ok _ _ _ _ _ E1).
    pose proof Hs1 as (Hd1 & _ & Hr1 & _). unfold table_view at 1, table_get. cbn [mbind option_bind].
    destruct (kv_get t k) as [e|] eqn:Ek; [|by exists r1].
    assert (entry_ok e) as He by (destruct Hr as [Hok _]; apply (Hok k); by rewrite Ht).
    destruct He as [(m & Hm & ->)|(b & ->)]; [|by exists r1].
    cbn [mbind option_bind]. rewrite decode_dir by done.
    rewrite (sbind_asks _ _ _ (KDir, encode_dir m)) by done. cbn beta iota.
    rewrite (sbind_asks _ _ _ (bt_get m n)) by by (rewrite ArchivedDir_new_ok; cbn [rbind]; [apply dir_get_lemma|]).
    destruct (bt_get m n) as [ch|]; [|by exists r1].
    destruct (IH r1 ch Hr1) as (r2 & E2 & Hs2); [by rewrite Hd1|]. exists r2. split; [done|]. by eapply read_steps_trans.
Qed.

Lemma read_resolve_spec r p : read_ok r →
  ∃ r', read_resolve p r = (Ok (vresolve (table_view (rt_data r)) ROOT p), r') ∧ read_steps r r'.
Proof.
  intros Hr. unfold read_resolve. destruct (get_path_step r p Hr) as (r1 & k & E & Hs & Hk).
  rewrite (sbind_Ok _ _ _ _ _ E). destruct k as [k|]; [exists r1; split; [|done]; by rewrite (Hk k eq_refl)|].
  pose proof Hs as (Hd & _ & Hr1 & _). rewrite Hd. destruct (rt_data r) as [t|] eqn:Ht.
  - unfold resolve_walk. destruct (resolve_walk_from_spec t p r1 ROOT Hr1) as (r2 & E2 & Hs2); [done|].
    rewrite (sbind_Ok _ _ _ _ _ E2). pose proof Hs2 as (Hd2 & _ & Hr2 & _).
    pose proof (read_steps_trans _ _ _ Hs Hs2) as Hs12.
    destruct (vresolve (table_view (Some t)) ROOT p) as [k|] eqn:Ek; [|by exists r2].
    destruct (put_path_step r2 p k Hr2) as (r3 & E3 & Hs3); [by rewrite Hd2, Hd|].
    exists r3. split; [by rewrite (sbind_Ok _ _ _ _ _ E3)|]. by eapply read_steps_trans.
  - exists r1. split; [|done]. by destruct p.
Qed.

Lemma read_entry_blob_spec r k : read_ok r →
  ∃ r', read_entry_blob k r = (Ok (table_get (rt_data r) k), r') ∧ read_steps r r'.
Proof.
  intros Hr. unfold read_entry_blob. destruct (get_blob_step r k Hr) as (r1 & b & E & Hs & Hb).
  rewrite (sbind_Ok _ _ _ _ _ E). destruct b as [b|]; [exists r1; split; [|done]; by rewrite (Hb b eq_refl)|].
  pose proof Hs as (Hd & _ & Hr1 & _). rewrite Hd. destruct (rt_data r) as [t|] eqn:Ht; [|by exists r1].
  destruct (blob_at_spec r1 t k Hr1) as (r2 & E2 & Hs2); [done|]. exists r2. split; [done|]. by eapply read_steps_trans.
Qed.

#[export] Instance ReadTxn_GrabLaws : GrabLaws ReadTxn.
Proof.
  refine {| g_ok := read_ok; g_view := λ r, table_view (rt_data r) |}.
  - intros r k m [Hok _] Hv. unfold table_view in Hv. destruct (table_get (rt_data r) k) as [e|] eqn:E; [|done].
    cbn [mbind option_bind] in Hv. destruct (Hok _ _ E) as [(m' & Hm & ->)|(b & ->)]; [|done].
    rewrite decode_dir in Hv by done. by injection Hv as <-.
  - intros r p Hr. destruct (read_resolve_spec r p Hr) as (r' & E & Hd & _ & Hr' & _).
    exists r'. split_and!; [done|done|]. intros k. by rewrite Hd.
  - intros r k Hr. destruct (read_entry_blob_spec r k Hr) as (r' & E & Hd & _ & Hr' & _).
    exists r'. split_and!; [|done|intros j; by rewrite Hd]. cbn [g_entry_blob ReadTxn_Grab]. rewrite E. f_equal. f_equal.
    unfold table_view. destruct (table_get (rt_data r) k) as [e|] eqn:Ek; [|done]. cbn [mbind option_bind].
    destruct Hr as [Hok _]. destruct (Hok _ _ Ek) as [(m' & Hm & ->)|(b & ->)]; [by rewrite decode_dir|done].
Defined.
End cache.
Arguments PathCache P B : clear implicits.
Arguments ReadTxn T P B : clear implicits.

(** A concrete cache that evicts the oldest insertion: the laws can hold. *)
Module CacheModel.
Section assoc.
Context {K V : Type} `{EqDecision K}.

Fixpoint assoc (l : list (K * V)) (k : K) : option V :=
  match l with
  | [] => None
  | (k', v) :: l => if decide (k = k') then Some v else assoc l k
  end.

Lemma assoc_take n l k v : assoc (take n l) k = Some v → assoc l k = Some v.
Proof.
  revert l; induction n as [|n IH]; intros [|[k' w] l]; cbn; try done.
  destruct (decide (k = k')); auto.
Qed.

#[export] Instance assoc_lru : Lru (Z * list (K * V)) K V := {|
  lru_new n := (n, []);
  lru_get c k := (assoc c.2 k, c);
  lru_put c k v := (c.1, take (Z.to_nat c.1) ((k, v) :: c.2)) |}.

#[export] Instance assoc_lru_laws : LruLaws (Z * list (K * V)) K V.
Proof.
  refine {| lru_find c k := assoc c.2 k |}; try done.
  intros c k v j w Hj%assoc_take. cbn in Hj. destruct (decide (j = k)); [by injection Hj|done].
Defined.
End assoc.
End CacheModel.
