(* ===== verification/ProtectedRead.v ===== *)
(** * The read surface of a protected transaction

    [txn/grab.rs] for the build with [permissions] and [entry-timestamps]: the
    primitives a transaction supplies ([PGrab]), the reads written once against them,
    and what mediation means.  [PGrabLaws] states what the primitives promise without
    assuming anything of the stored bytes: a resolution that answers was authorized and
    verified directory by directory, an authorization was granted by the policy, a
    verified entry carries its tag. *)
From S2P Require Import Prelude BTree Codec Ext Scalar Path Value Archived Access Key Dir Engine Acl Inode PermStore WriteBuffer Ctx Tree Grab.

Section pgrab.
Context `{Ext} {DateTime : Type}.

Class PGrab (S : Type) := {
  pg_resolve : APath → SM S (option AKey);
  pg_entry_blob : AKey → SM S (option bytes);
  pg_authorize : AKey → Rights → SM S unit;
  pg_verify : AKey → bytes → SM S unit;
  pg_acl_of : AKey → SM S (option Acl);
  pg_gid_of : bytes → SM S (option Z);
  pg_user_name : Z → SM S (option bytes);
  pg_group_name : Z → SM S (option bytes);
  pg_record_access : AKey → SM S unit;
  pg_timestamps_of : AKey → SM S (option (NodeTimestamps DateTime));
}.

Section reads.
Context {S : Type} `{PGrab S}.

(** The common head of the content reads: resolve, authorize, record, fetch, verify. *)
Definition pg_read {A} (record : bool) (path : APath) (d g : res A) (f : bytes → SM S A) : SM S A :=
  or_return (pg_resolve path) d (λ akey,
    let! _ := pg_authorize akey RAccess in
    let! _ := if record then pg_record_access akey else sret tt in
    or_return (pg_entry_blob akey) g (λ blob,
      let! _ := pg_verify akey blob in f blob)).

Definition loaded (fuel : nat) (blob : bytes) : res (option Value) :=
  let? '(kind, payload) := entry_split blob in
  match kind with
  | KFile => let? v := decode fuel payload in Ok (Some v)
  | KDir => Err (CannotAccess "'{path}' is a directory, not a file")
  end.

Definition pg_load_value (fuel : nat) (path : APath) : SM S (option Value) :=
  pg_read true path (Ok None) (Ok None) (λ blob, asks (λ _, loaded fuel blob)).

Definition opened (blob : bytes) : res (option ArchivedReader) :=
  let? kind := get_entry_kind blob in
  match kind with
  | KFile => let? r := ArchivedReader_new blob 1 in Ok (Some r)
  | KDir => Err (CannotAccess "'{path}' is a directory, not a file")
  end.

Definition pg_fetch (path : APath) : SM S (option ArchivedReader) :=
  pg_read true path (Ok None) (Ok None) (λ blob, asks (λ _, opened blob)).

(** What a stored type or the serde bridge makes of the accessor is a parameter. *)
Definition pg_load {T} (load : ArchivedReader → res T) (path : APath) : SM S (option T) :=
  pg_read true path (Ok None) (Ok None) (λ blob, asks (λ _,
    let? r := opened blob in match r with Some r => let? t := load r in Ok (Some t) | None => Ok None end)).

Definition pg_load_serde_value {T} (from_blob : bytes → res T) (path : APath) : SM S (option T) :=
  pg_read true path (Ok None) (Ok None) (λ blob, asks (λ _,
    let? '(kind, payload) := entry_split blob in
    match kind with
    | KFile => let? t := from_blob payload in Ok (Some t)
    | KDir => Err (CannotAccess "'{path}' is a directory, not a file")
    end)).

Definition scalar_in (at_path : VPath) (blob : bytes) : res (option Scalar) :=
  let? '(kind, payload) := entry_split blob in
  match kind with
  | KDir => Ok None
  | KFile =>
      let? root := archived_new payload in
      let? found := navigate payload root at_path in
      match found with
      | None => Ok None
      | Some off => node_scalar_if_leaf payload off
      end
  end.

Definition pg_get (path : APath) (at_path : VPath) : SM S (option Scalar) :=
  pg_read true path (Ok None) (Ok None) (λ blob, asks (λ _, scalar_in at_path blob)).

Definition pg_get_as {V} (from_scalar_owned : Scalar → res V) (path : APath) (at_path : VPath) : SM S (option V) :=
  let! s := pg_get path at_path in
  match s with
  | Some s => let! v := asks (λ _, from_scalar_owned s) in sret (Some v)
  | None => sret None
  end.

(** [kind] records no access. *)
Definition pg_kind (path : APath) : SM S (option EntryKind) :=
  pg_read false path (Ok None) (Ok None) (λ blob, asks (λ _, let? k := get_entry_kind blob in Ok (Some k))).

Definition pg_exists (path : APath) : SM S bool :=
  let! k := pg_kind path in sret (bool_decide (is_Some k)).

(** The children's kinds are read without any check on the children. *)
Fixpoint pg_ls_loop (entries : list (bytes * AKey)) (out : list Entry) : SM S (list Entry) :=
  match entries with
  | [] => sret out
  | (name, child) :: entries =>
      let! blob := pg_entry_blob child in
      let! blob := asks (λ _, ok_or blob (Corrupt "a directory entry points at a missing a-node")) in
      let! kind := asks (λ _, get_entry_kind blob) in
      pg_ls_loop entries (out ++ [mkEntry name kind])
  end.

Definition listing (blob : bytes) : res (list (bytes * AKey)) :=
  let? '(kind, payload) := entry_split blob in
  match kind with
  | KFile => Err (CannotAccess "'{path}' is a file, not a directory")
  | KDir => let? d := ArchivedDir_new payload in dir_entries d
  end.

Definition pg_ls (path : APath) : SM S (list Entry) :=
  pg_read true path (Err ValueNotFound) (Ok []) (λ blob,
    let! entries := asks (λ _, listing blob) in pg_ls_loop entries []).

(** ** Metadata reads: neither authorized on the target nor verified *)

Definition pg_times (path : APath) : SM S (option (NodeTimestamps DateTime)) :=
  or_return (pg_resolve path) (Ok None) pg_timestamps_of.

Definition pg_get_acl (path : APath) (class : AclClass) : SM S Rights :=
  or_return (pg_resolve path) (Err ValueNotFound) (λ akey,
  or_return (pg_acl_of akey) (Ok RNone) (λ acl,
    match class with
    | ClassUser => sret (acl_owner acl)
    | ClassOther => sret (acl_other acl)
    | ClassGroup name =>
        let! gid := pg_gid_of name in
        sret (match gid with Some gid => group_rights gid acl | None => RNone end)
    end)).

Definition pg_owner (path : APath) : SM S (option bytes) :=
  or_return (pg_resolve path) (Ok None) (λ akey,
  or_return (pg_acl_of akey) (Ok None) (λ acl,
    let! name := pg_user_name (acl_owner_uid acl) in
    sret (Some (default (show_u64 (acl_owner_uid acl)) name)))).

Fixpoint group_names (gids : list Z) (names : list bytes) : SM S (list bytes) :=
  match gids with
  | [] => sret names
  | gid :: gids =>
      let! name := pg_group_name gid in
      group_names gids (match name with Some n => names ++ [n] | None => names end)
  end.

Definition pg_groups (path : APath) : SM S (list bytes) :=
  or_return (pg_resolve path) (Ok []) (λ akey,
  or_return (pg_acl_of akey) (Ok []) (λ acl,
    let! names := group_names (group_ids acl) [] in sret (sort_names names))).
End reads.

(** ** What the primitives promise *)

(** What a transaction reads from: the entries, the lists, the reader, and the entries
    whose tag or signature is right for that reader. *)
Record World := mkWorld {
  w_stored : AKey → option bytes;
  w_acl : AKey → option Acl;
  w_principal : Principal;
  w_genuine : AKey → bytes → Prop;
}.

Definition w_may (w : World) (k : AKey) (n : Rights) : Prop := permitted (w_principal w) k (w_acl w k) n.

(** A resolution from [k] that answers [o]: access to each directory on the way was
    granted, and its entry verified before a name was looked up in it. *)
Fixpoint mediated_walk (w : World) (k : AKey) (path : APath) (o : option AKey) : Prop :=
  match path with
  | [] => o = Some k
  | n :: rest =>
      w_may w k RAccess ∧
      match w_stored w k with
      | None => o = None
      | Some e =>
          w_genuine w k e ∧
          match entry_split e with
          | Ok (KFile, _) => o = None
          | Ok (KDir, payload) =>
              match (let? d := ArchivedDir_new payload in dir_get d n) with
              | Ok (Some ch) => mediated_walk w ch rest o
              | Ok None => o = None
              | _ => False
              end
          | _ => False
          end
      end
  end.

Class PGrabLaws (S : Type) `{PGrab S} := {
  pg_ok : S → Prop;
  pg_world : S → World;
  pg_kept s s' := pg_ok s' ∧ pg_world s' = pg_world s;
  pg_resolve_law s p r s' : pg_ok s → pg_resolve p s = (r, s') →
    pg_kept s s' ∧ ∀ o, r = Ok o → mediated_walk (pg_world s) ROOT p o;
  pg_entry_blob_law s k r s' : pg_ok s → pg_entry_blob k s = (r, s') →
    pg_kept s s' ∧ ∀ o, r = Ok o → o = w_stored (pg_world s) k;
  pg_authorize_law s k r s' : pg_ok s → pg_authorize k RAccess s = (r, s') →
    pg_kept s s' ∧ (r = Ok tt → w_may (pg_world s) k RAccess);
  pg_verify_law s k e r s' : pg_ok s → w_stored (pg_world s) k = Some e → pg_verify k e s = (r, s') →
    pg_kept s s' ∧ (r = Ok tt → w_genuine (pg_world s) k e);
  pg_acl_of_law s k r s' : pg_ok s → pg_acl_of k s = (r, s') →
    pg_kept s s' ∧ ∀ o, r = Ok o → o = w_acl (pg_world s) k;
  pg_record_law s k r s' : pg_ok s → pg_record_access k s = (r, s') → pg_kept s s';
}.

(** A content read that answers [a]: the path was walked under the policy, the target
    may be accessed, its entry is the stored one and genuine, and [a] is what the pure
    reader [f] makes of it. *)
Definition mediated_read {A} (w : World) (path : APath) (d g : res A) (f : bytes → A → Prop) (a : A) : Prop :=
  ∃ o, mediated_walk w ROOT path o ∧
    match o with
    | None => d = Ok a
    | Some k => w_may w k RAccess ∧
        match w_stored w k with
        | None => g = Ok a
        | Some e => w_genuine w k e ∧ f e a
        end
    end.

Section mediated.
Context {S : Type} `{PGrab S} `{!PGrabLaws S}.
Implicit Types (s : S).

Lemma kept_trans s1 s2 s3 : pg_kept s1 s2 → pg_kept s2 s3 → pg_kept s1 s3.
Proof. intros [? E1] [? E2]. split; [done|congruence]. Qed.

Lemma kept_refl s : pg_ok s → pg_kept s s.
Proof. done. Qed.

(** [or_return], inverted. *)
Lemma or_return_cases {A B} (m : SM S (option A)) (d : res B) f s r s' :
  or_return m d f s = (r, s') →
  (∃ a s1, m s = (Ok (Some a), s1) ∧ f a s1 = (r, s')) ∨ (m s = (Ok None, s') ∧ r = d) ∨
  (∃ x, m s = (x, s') ∧ ∀ b, r ≠ Ok b).
Proof.
  unfold or_return, sbind. destruct (m s) as [[[a|]|e| |] s1] eqn:E.
  - intros E2. left. by exists a, s1.
  - intros [= <- <-]. right; left. done.
  - intros [= <- <-]. right; right. by eexists.
  - intros [= <- <-]. right; right. by eexists.
  - intros [= <- <-]. right; right. by eexists.
Qed.

Lemma sbind_cases {A B} (m : SM S A) (f : A → SM S B) s r s' : sbind m f s = (r, s') →
  (∃ a s1, m s = (Ok a, s1) ∧ f a s1 = (r, s')) ∨ (∃ x, m s = (x, s') ∧ ∀ b, r ≠ Ok b).
Proof. unfold sbind. destruct (m s) as [[a|e| |] s1]; [intros E; left; by exists a, s1|..]; intros [= <- <-]; right; by eexists. Qed.

Lemma record_kept record k s r s' : pg_ok s → (if (record : bool) then pg_record_access k else sret tt) s = (r, s') → pg_kept s s'.
Proof. intros Hs. destruct record; [by apply pg_record_law|]. by intros [= _ <-]. Qed.

Lemma pg_read_mediated {A} record path (d g : res A) (f : bytes → SM S A) (Q : bytes → A → Prop) s r s' : pg_ok s →
  (∀ e s1 r1 s2, pg_ok s1 → pg_world s1 = pg_world s → f e s1 = (r1, s2) → pg_kept s1 s2 ∧ ∀ a, r1 = Ok a → Q e a) →
  pg_read record path d g f s = (r, s') → pg_kept s s' ∧ ∀ a, r = Ok a → mediated_read (pg_world s) path d g Q a.
Proof.
  intros Hs Hf E. unfold pg_read in E.
  apply or_return_cases in E as [(k & s1 & E1 & E)|[[E1 ->]|(x & E1 & Hr)]]; destruct (pg_resolve_law _ _ _ _ Hs E1) as [Hk1 Hw].
  2: { split; [done|]. intros a Ha. exists None. split; [by apply Hw|done]. }
  2: { split; [done|]. intros a Ha. by destruct (Hr a). }
  specialize (Hw _ eq_refl). pose proof Hk1 as [Hs1 Ew1].
  apply sbind_cases in E as [([] & s2 & E2 & E)|(x & E2 & Hr)]; destruct (pg_authorize_law _ _ _ _ Hs1 E2) as [Hk2 Hm].
  2: { split; [by eapply kept_trans|]. intros a Ha. by destruct (Hr a). }
  specialize (Hm eq_refl). pose proof (kept_trans _ _ _ Hk1 Hk2) as Hk. pose proof Hk as [Hs2 Ew2].
  apply sbind_cases in E as [([] & s3 & E3 & E)|(x & E3 & Hr)]; pose proof (record_kept _ _ _ _ _ Hs2 E3) as Hk3.
  2: { split; [by eapply kept_trans|]. intros a Ha. by destruct (Hr a). }
  pose proof (kept_trans _ _ _ Hk Hk3) as Hk'. pose proof Hk' as [Hs3 Ew3]. rewrite Ew1 in Hm.
  apply or_return_cases in E as [(e & s4 & E4 & E)|[[E4 ->]|(x & E4 & Hr)]]; destruct (pg_entry_blob_law _ _ _ _ Hs3 E4) as [Hk4 He].
  2: { split; [by eapply kept_trans|]. intros a Ha. exists (Some k). split_and!; [done..|]. rewrite <- Ew3, <- (He None) by done. done. }
  2: { split; [by eapply kept_trans|]. intros a Ha. by destruct (Hr a). }
  specialize (He _ eq_refl). pose proof (kept_trans _ _ _ Hk' Hk4) as Hk5. pose proof Hk5 as [Hs4 Ew4].
  apply sbind_cases in E as [([] & s5 & E5 & E)|(x & E5 & Hr)];
    (edestruct pg_verify_law as [Hk6 Hg]; [exact Hs4| |exact E5|]; [rewrite Ew4, <- Ew3; by symmetry|]).
  2: { split; [by eapply kept_trans|]. intros a Ha. by destruct (Hr a). }
  specialize (Hg eq_refl). pose proof (kept_trans _ _ _ Hk5 Hk6) as Hk7. pose proof Hk7 as [Hs5 Ew5].
  destruct (Hf _ _ _ _ Hs5 Ew5 E) as [Hk8 HQ]. split; [by eapply kept_trans|].
  intros a Ha. exists (Some k). split_and!; [done..|]. rewrite <- Ew3, <- He. rewrite Ew4 in Hg. split; [congruence|by apply HQ].
Qed.

(** A pure reader at the end. *)
Lemma pg_pure_mediated {A} record path (d g : res A) (f : bytes → res A) s r s' : pg_ok s →
  pg_read record path d g (λ e, asks (λ _, f e)) s = (r, s') →
  pg_kept s s' ∧ ∀ a, r = Ok a → mediated_read (pg_world s) path d g (λ e a, f e = Ok a) a.
Proof. intros Hs. apply pg_read_mediated; [done|]. intros e s1 r1 s2 Hs1 _ [= <- <-]. split; [by apply kept_refl|done]. Qed.

Lemma ls_loop_mediated es : ∀ out s r s', pg_ok s → pg_ls_loop es out s = (r, s') →
  pg_kept s s' ∧ ∀ l, r = Ok l → ∃ l', l = out ++ l' ∧
    Forall2 (λ c x, entry_name x = c.1 ∧ ∃ b, w_stored (pg_world s) c.2 = Some b ∧ get_entry_kind b = Ok (entry_kind x)) es l'.
Proof.
  induction es as [|[n ch] es IH]; intros out s r s' Hs; cbn [pg_ls_loop].
  { intros [= <- <-]. split; [by apply kept_refl|]. intros l [= <-]. exists []. by rewrite app_nil_r. }
  intros [(o & s1 & E1 & E)|(x & E1 & Hr)]%sbind_cases; destruct (pg_entry_blob_law _ _ _ _ Hs E1) as [Hk1 Ho].
  2: { split; [done|]. intros l Hl. by destruct (Hr l). }
  specialize (Ho _ eq_refl). pose proof Hk1 as [Hs1 Ew]. destruct o as [b|].
  2: { injection E as <- <-. done. }
  rewrite (sbind_asks _ _ _ b) in E by done.
  apply sbind_cases in E as [(k & s2 & E2 & E)|(x & E2 & Hr)]; injection E2 as E2 <-.
  2: { split; [done|]. intros l Hl. by destruct (Hr l). }
  destruct (IH _ _ _ _ Hs1 E) as [Hk2 Hl]. split; [by eapply kept_trans|]. intros l Hr. destruct (Hl l Hr) as (l' & -> & HF).
  exists (mkEntry n k :: l'). split; [by rewrite <- app_assoc|]. constructor; [|by rewrite Ew in HF].
  split; [done|]. exists b. split; [by symmetry|done].
Qed.

Lemma resolve_then {A} (d : res A) (f : AKey → SM S A) (Q : AKey → A → Prop) p s r s' : pg_ok s →
  (∀ k s1 r1 s2, pg_ok s1 → pg_world s1 = pg_world s → f k s1 = (r1, s2) → ∀ a, r1 = Ok a → Q k a) →
  or_return (pg_resolve p) d f s = (r, s') →
  ∀ a, r = Ok a → ∃ o, mediated_walk (pg_world s) ROOT p o ∧ match o with Some k => Q k a | None => d = Ok a end.
Proof.
  intros Hs Hf [(k & s1 & E1 & E)|[[E1 ->]|(x & E1 & Hr)]]%or_return_cases a Ha; destruct (pg_resolve_law _ _ _ _ Hs E1) as [[Hs1 Ew] Hw].
  - exists (Some k). split; [by apply Hw|]. by eapply Hf.
  - exists None. split; [by apply Hw|done].
  - by destruct (Hr a).
Qed.

End mediated.
End pgrab.
