(* ===== verification/Rooted.v ===== *)
(** * Rooted views

    [txn/rooted/] and the query builder [txn/query.rs]: a view of a transaction whose
    paths are taken relative to a fixed root.  Every call joins the root with its path
    and forwards.  The main result is that a view is a filesystem of its own: a list of
    mutations through a view rooted at a directory changes the subtree of that
    directory exactly as the same list would change it alone, and nothing else. *)
From S2P Require Import Prelude BTree Codec Ext Scalar Path Value Archived Access Key Dir Engine WriteBuffer Ctx Fs Tree Refine FsSpec Move FsMove TreeLaws Grab Write Txn Program Registry IndexDef Pattern Maintenance Reindex Query Cursor Cache Acl Inode ProtectedRead.

(** ** The views: the transaction is the state, the root the view's own field *)

Record RootedRead := mkRootedRead { rr_root : APath }.
Record RootedWrite := mkRootedWrite { rw_root : APath }.

(** [ReadTxn::rooted], [WriteTxn::rooted]. *)
Definition read_rooted (root : APath) : RootedRead := mkRootedRead root.
Definition write_rooted (root : APath) : RootedWrite := mkRootedWrite root.

Definition rr_absolute (v : RootedRead) (path : APath) : APath := APath_join (rr_root v) path.
Definition rw_absolute (v : RootedWrite) (path : APath) : APath := APath_join (rw_root v) path.

Definition rr_rooted (v : RootedRead) (sub : APath) : RootedRead := mkRootedRead (APath_join (rr_root v) sub).
Definition rw_rooted (v : RootedWrite) (sub : APath) : RootedWrite := mkRootedWrite (APath_join (rw_root v) sub).

(** ** The query builder; the transaction a query runs against is the state *)

Section builder.
Context `{Ext}.

Record IndexQuery := mkIndexQuery { iq_index : bytes; iq_prefix : list Scalar; iq_reverse : bool; iq_root : APath }.
End builder.

Section query.
Context `{Ext} {T : Type} `{KV T Z bytes} {M : Type} `{KV M bytes bytes} {I : Type} `{OrdKV I} {A : Type}.
Context (table : bytes) (load : ArchivedReader → res A).

Definition IndexQuery_new (index : bytes) : IndexQuery := mkIndexQuery index [] false [].
Definition prefixed (q : IndexQuery) (values : list Scalar) : IndexQuery := mkIndexQuery (iq_index q) values (iq_reverse q) (iq_root q).
Definition reversed (q : IndexQuery) : IndexQuery := mkIndexQuery (iq_index q) (iq_prefix q) true (iq_root q).
Definition under (q : IndexQuery) (root : APath) : IndexQuery := mkIndexQuery (iq_index q) (iq_prefix q) (iq_reverse q) root.
Definition query_run (q : IndexQuery) : SM (WTxn T M I) (list A) :=
  execute_query table load (iq_index q) (iq_prefix q) (iq_reverse q) (iq_root q).

(** [grab::find]. *)
Definition find (index : bytes) (values : list Scalar) : SM (WTxn T M I) (list A) :=
  query_run (prefixed (IndexQuery_new index) values).

Definition rw_query (v : RootedWrite) (index : bytes) : IndexQuery := under (IndexQuery_new index) (rw_root v).
Definition rw_find (v : RootedWrite) (index : bytes) (values : list Scalar) : SM (WTxn T M I) (list A) :=
  query_run (prefixed (rw_query v index) values).
Definition rr_query (v : RootedRead) (index : bytes) : IndexQuery := under (IndexQuery_new index) (rr_root v).
End query.

(** ** [RootedRead] *)

Section read.
Context `{Ext} {T : Type} `{KV T Z bytes} {P : Type} `{Lru P APath (Z * AKey)} {B : Type} `{Lru B (Z * AKey) bytes}.
Context (v : RootedRead) (fuel : nat).
Abbreviation RM := (SM (ReadTxn T P B)) (only parsing).

Definition rr_load_value (path : APath) : RM (option Value) := grab_load_value fuel (rr_absolute v path).
Definition rr_fetch (path : APath) : RM (option ArchivedReader) := grab_fetch (rr_absolute v path).
Definition rr_get (path : APath) (at_path : VPath) : RM (option Scalar) := grab_get (rr_absolute v path) at_path.
Definition rr_kind (path : APath) : RM (option EntryKind) := grab_kind (rr_absolute v path).
Definition rr_exists (path : APath) : RM bool := grab_exists (rr_absolute v path).
Definition rr_ls (path : APath) : RM (list Entry) := grab_ls (rr_absolute v path).
End read.

(** The metadata reads of a protected table, over either transaction. *)
Section meta.
Context `{Ext} {DateTime S : Type} `{PGrab (DateTime := DateTime) S} (v : RootedRead).

Definition rr_times (path : APath) : SM S (option (NodeTimestamps DateTime)) := pg_times (rr_absolute v path).
Definition rr_get_acl (path : APath) (class : AclClass) : SM S Rights := pg_get_acl (rr_absolute v path) class.
Definition rr_owner (path : APath) : SM S (option bytes) := pg_owner (rr_absolute v path).
Definition rr_groups (path : APath) : SM S (list bytes) := pg_groups (rr_absolute v path).
End meta.

(** ** [RootedWrite] *)

Section write.
Context `{Ext} {T : Type} `{KV T Z bytes}.
Context (v : RootedWrite) (fuel : nat).
Abbreviation WM := (SM (Ctx T)) (only parsing).

Definition rw_store_value (path : APath) (value : Value) : WM unit := store_value_at fuel (rw_absolute v path) value.
Definition rw_mkdir (path : APath) : WM unit := mkdir (rw_absolute v path).
Definition rw_rm (path : APath) : WM bool := rm fuel (rw_absolute v path).
Definition rw_mv (src dst : APath) : WM unit := mv fuel (rw_absolute v src) (rw_absolute v dst).
Definition rw_cp (src dst : APath) : WM unit := cp fuel (rw_absolute v src) (rw_absolute v dst).
Definition rw_fetch_mut (path : APath) : WM (option (AKey * Z)) := asks (fetch_mut (rw_absolute v path)).
Definition rw_load_value (path : APath) : WM (option Value) := grab_load_value fuel (rw_absolute v path).
Definition rw_fetch (path : APath) : WM (option ArchivedReader) := grab_fetch (rw_absolute v path).
Definition rw_get (path : APath) (at_path : VPath) : WM (option Scalar) := grab_get (rw_absolute v path) at_path.
Definition rw_kind (path : APath) : WM (option EntryKind) := grab_kind (rw_absolute v path).
Definition rw_exists (path : APath) : WM bool := grab_exists (rw_absolute v path).
Definition rw_ls (path : APath) : WM (list Entry) := grab_ls (rw_absolute v path).

(** One mutation through the view. *)
Definition rw_op (o : op) : WM (option bool) :=
  match o with
  | OStore p value => let! _ := rw_store_value p value in sret None
  | OMkdir p => let! _ := rw_mkdir p in sret None
  | ORm p => let! b := rw_rm p in sret (Some b)
  | OMv src dst => let! _ := rw_mv src dst in sret None
  | OCp src dst => let! _ := rw_cp src dst in sret None
  end.

Fixpoint rw_ops (ops : list op) (c : Ctx T) : list answer * Ctx T :=
  match ops with
  | [] => ([], c)
  | o :: ops =>
      let '(r, c) := rw_op o c in
      let '(rs, c) := rw_ops ops c in (r :: rs, c)
  end.
End write.

(** ** The abstract side: mutations under a prefix *)

Section under.
Context `{Ext}.

Definition op_under (r : APath) (o : op) : op :=
  match o with
  | OStore p v => OStore (r ++ p) v
  | OMkdir p => OMkdir (r ++ p)
  | ORm p => ORm (r ++ p)
  | OMv src dst => OMv (r ++ src) (r ++ dst)
  | OCp src dst => OCp (r ++ src) (r ++ dst)
  end.

(** It names the view's root nowhere. *)
Definition inside (o : op) : Prop :=
  match o with
  | OStore p _ | OMkdir p | ORm p => p ≠ []
  | OMv src dst | OCp src dst => src ≠ [] ∧ dst ≠ []
  end.

Lemma split_last_under r p : p ≠ [] →
  ∃ q n, p = q ++ [n] ∧ APath_split_last p = Some (q, n) ∧ APath_split_last (r ++ p) = Some (r ++ q, n).
Proof.
  destruct p as [|n q _] using rev_ind; [done|]. intros _. exists q, n.
  by rewrite app_assoc, !APath_split_last_snoc.
Qed.

Lemma tlookup_dir t p x n : tlookup t (p ++ [n]) = Some x → ∃ k ch, tlookup t p = Some (ADir k ch).
Proof. rewrite tlookup_app. destruct (tlookup t p) as [[|k ch]|]; [done| |done]. by exists k, ch. Qed.

Section at_root.
Context (r : APath).

Lemma ensure_under p s : ∀ t sub, tlookup t r = Some sub → is_dir sub = true →
  t_ensure t (r ++ p) s = (let? '(sub, s) := t_ensure sub p s in Ok (treplace t r sub, s)).
Proof.
  induction r as [|n r' IH]; intros t sub; cbn [tlookup app treplace].
  - intros [= ->] _. destruct (t_ensure _ p s) as [[? ?]|e| |]; done.
  - destruct t as [|k0 ch0]; [done|]. cbn [t_ensure]. destruct (bt_get ch0 n) as [c|] eqn:E; [|done]. intros Hl Hd.
    assert (is_dir c = true) as ->.
    { destruct r' as [|m r'']; cbn in Hl; [by injection Hl as ->|]. by destruct c. }
    rewrite (IH c sub Hl Hd). by destruct (t_ensure sub p s) as [[? ?]|e| |].
Qed.

Lemma replace_under p x : ∀ t sub, tlookup t r = Some sub → treplace t (r ++ p) x = treplace t r (treplace sub p x).
Proof.
  induction r as [|n r' IH]; intros t sub; cbn [tlookup app treplace]; [by intros [= ->]|].
  destruct t as [|k0 ch0]; [done|]. destruct (bt_get ch0 n) as [c|]; [|done]. intros Hl. by rewrite (IH c sub Hl).
Qed.

Lemma remove_under p : p ≠ [] → ∀ t sub, tlookup t r = Some sub → t_remove t (r ++ p) = treplace t r (t_remove sub p).
Proof.
  intros Hp. induction r as [|n r' IH]; intros t sub; cbn [tlookup app treplace]; [by intros [= ->]|].
  destruct t as [|k0 ch0]; [done|]. destruct (bt_get ch0 n) as [c|] eqn:E; [|done]. intros Hl.
  destruct (r' ++ p) as [|m q] eqn:Eq; [by destruct r', p|]. rewrite t_remove_cons, E. by rewrite (IH c sub Hl).
Qed.

Context (t : atree) (sub : atree).
Hypothesis Hsort : tsorted t.
Hypothesis Hsub : tlookup t r = Some sub.

Lemma lookup_in_replaced x p : tlookup (treplace t r x) (r ++ p) = tlookup x p.
Proof. by eapply tlookup_replace_below. Qed.

Lemma replace_in_replaced x p y : treplace (treplace t r x) (r ++ p) y = treplace t r (treplace x p y).
Proof.
  rewrite (replace_under p y _ x) by (by eapply tlookup_replace). by eapply treplace_twice.
Qed.

Lemma remove_in_replaced x p : p ≠ [] → t_remove (treplace t r x) (r ++ p) = treplace t r (t_remove x p).
Proof.
  intros Hp. rewrite (remove_under p Hp _ x) by (by eapply tlookup_replace). by eapply treplace_twice.
Qed.
End at_root.

(** The answer of an operation on the subtree, put back in its place. *)
Definition put_back (t : atree) (r : APath) (a : answer * (atree * Z)) : answer * (atree * Z) :=
  (a.1, (treplace t r a.2.1, a.2.2)).

Lemma lift_under t r sub s x : tsorted t → tlookup t r = Some sub →
  t_lift t s (let? '(y, s) := x in Ok (treplace t r y, s)) = put_back t r (t_lift sub s x).
Proof.
  intros Hso Hsub. unfold put_back. destruct x as [[y s']|e| |]; cbn; [done|by rewrite (treplace_same r t sub)..].
Qed.

Lemma names_under r a b : names_start_with (r ++ a) (r ++ b) = names_start_with a b.
Proof.
  apply eq_true_iff_eq. rewrite !names_start_with_spec. split; [apply prefix_app_inv|apply prefix_app].
Qed.

Lemma is_root_under r p : p ≠ [] → is_root (r ++ p) = is_root p.
Proof. by destruct r, p. Qed.

Lemma op_under_spec r t sub s o : tsorted t → tlookup t r = Some sub → is_dir sub = true → inside o →
  t_op t (op_under r o) s = put_back t r (t_op sub o s).
Proof.
  intros Hso Hsub Hdir Hin.
  assert (∀ e, (Err e : answer, (t, s)) = put_back t r (Err e, (sub, s))) as Hsame.
  { intros e. unfold put_back. cbn. by rewrite (treplace_same r t sub). }
  assert (∀ q, tlookup t (r ++ q) = tlookup sub q) as Hlk by (intros q; by rewrite tlookup_app, Hsub).
  destruct o as [p v|p|p|src dst|src dst]; cbn [inside op_under] in *; cbn [t_op];
    rewrite ?names_under, ?is_root_under by (done || apply Hin).
  - destruct (is_root p); [by apply Hsame|]. rewrite <- lift_under by done. f_equal.
    destruct (split_last_under r p Hin) as (q & n & -> & E & E'). unfold t_store. rewrite E, E'.
    rewrite (ensure_under r q s t sub Hsub Hdir). destruct (t_ensure sub q s) as [[y s1]|e| |]; cbn [rbind]; [|done..].
    rewrite (lookup_in_replaced r t sub Hso Hsub). destruct (tlookup y q) as [d|] eqn:Ed; [|done].
    destruct (t_put d n (encode v) s1) as [d' s2]. by rewrite (replace_in_replaced r t sub Hso Hsub).
  - rewrite <- lift_under by done. f_equal. by apply ensure_under.
  - destruct (is_root p); [by apply Hsame|]. unfold t_rm, put_back. rewrite Hlk.
    destruct (tlookup sub p) as [x|]; cbn [fst snd]; [by rewrite (remove_under r p Hin t sub)|by rewrite (treplace_same r t sub)].
  - destruct (names_start_with dst src); [by apply Hsame|]. destruct (is_root src); [by apply Hsame|].
    destruct (is_root dst); [by apply Hsame|]. rewrite <- lift_under by done. f_equal.
    destruct Hin as [Hs Hd]. destruct (split_last_under r dst Hd) as (q & n & -> & E & E'). unfold t_mv. rewrite Hlk, E, E'.
    destruct (tlookup sub src) as [x|]; [|done]. rewrite (ensure_under r q s t sub Hsub Hdir).
    destruct (t_ensure sub q s) as [[y s1]|e| |]; cbn [rbind]; [|done..].
    rewrite (remove_in_replaced r t sub Hso Hsub y src Hs), (lookup_in_replaced r t sub Hso Hsub).
    destruct (tlookup (t_remove y src) q) as [d|]; [|done]. by rewrite (replace_in_replaced r t sub Hso Hsub).
  - destruct (names_start_with dst src); [by apply Hsame|].
    destruct (is_root dst); [by apply Hsame|]. rewrite <- lift_under by done. f_equal.
    destruct Hin as [Hs Hd]. destruct (split_last_under r dst Hd) as (q & n & -> & E & E'). unfold t_cp. rewrite Hlk, E, E'.
    destruct (tlookup sub src) as [x|]; [|done]. rewrite (ensure_under r q s t sub Hsub Hdir).
    destruct (t_ensure sub q s) as [[y s1]|e| |]; cbn [rbind]; [|done..].
    rewrite (lookup_in_replaced r t sub Hso Hsub). destruct (tlookup y q) as [d|]; [|done].
    destruct (t_copy x s1) as [x' s2]. by rewrite (replace_in_replaced r t sub Hso Hsub).
Qed.

(** An operation inside a tree keeps its top node. *)
Definition same_top (t t' : atree) : Prop := akey t' = akey t ∧ is_dir t' = is_dir t.

Lemma top_replace t p d d' : tlookup t p = Some d → same_top d d' → same_top t (treplace t p d').
Proof.
  intros Hl [Ha Hd]. split; [by eapply akey_replace|]. destruct p as [|n p]; [by injection Hl as ->|].
  destruct t as [|k ch]; [done|]. cbn. by destruct (bt_get ch n).
Qed.

Lemma top_remove t p : same_top t (t_remove t p).
Proof.
  split; [apply akey_remove|]. destruct t as [|k ch]; [by destruct p|]. destruct p as [|n [|m p]]; [done..|].
  rewrite t_remove_cons. by destruct (bt_get ch n).
Qed.

Lemma top_ensure t p s t' s' : t_ensure t p s = Ok (t', s') → same_top t t'.
Proof.
  destruct p as [|n p]; cbn; [by intros [= -> _]|]. destruct t as [|k ch]; [done|].
  destruct (bt_get ch n) as [c|].
  - destruct (is_dir c); [|done]. by intros ([c' s1] & _ & [= <- _])%rbind_Ok.
  - destruct (generate s) as [f s0]. by intros ([c' s1] & _ & [= <- _])%rbind_Ok.
Qed.

Lemma top_put t n b s : same_top t (t_put t n b s).1.
Proof. destruct t as [|k ch]; [done|]. unfold t_put. destruct (bt_get ch n) as [[f b'|]|]; [done|by destruct (generate s)..]. Qed.

Lemma top_link t n x : same_top t (t_link t n x).
Proof. by destruct t. Qed.

Lemma top_trans t t1 t2 : same_top t t1 → same_top t1 t2 → same_top t t2.
Proof. intros [? ?] [? ?]. split; congruence. Qed.

Lemma top_op t s o : same_top t (t_op t o s).2.1.
Proof.
  assert (∀ r, (∀ t' s', r = Ok (t', s') → same_top t t') → same_top t (t_lift t s r).2.1) as Hl.
  { intros [[t' s']|e| |] Hr; [by eapply Hr|done..]. }
  destruct o as [p v|p|p|src dst|src dst]; cbn [t_op]; repeat (case_match; [done|]).
  - apply Hl. intros t' s' E. unfold t_store in E. destruct (APath_split_last p) as [[q n]|]; [|done].
    apply rbind_Ok in E as ([y s1] & Ey%top_ensure & E). destruct (tlookup y q) as [d|] eqn:Ed; [|by injection E as <- _].
    pose proof (top_put d n (encode v) s1) as Hp. destruct (t_put d n (encode v) s1) as [d' s2]. injection E as <- _.
    eapply top_trans; [exact Ey|]. by eapply top_replace.
  - apply Hl. intros t' s'. apply top_ensure.
  - unfold t_rm. destruct (tlookup t p); [apply top_remove|done].
  - apply Hl. intros t' s' E. unfold t_mv in E. destruct (tlookup t src); [|done]. destruct (APath_split_last dst) as [[q n]|]; [|done].
    apply rbind_Ok in E as ([y s1] & Ey%top_ensure & E). pose proof (top_trans _ _ _ Ey (top_remove y src)) as Hy.
    destruct (tlookup (t_remove y src) q) as [d|] eqn:Ed; [|by injection E as <- _]. injection E as <- _.
    eapply top_trans; [exact Hy|]. eapply top_replace; [exact Ed|apply top_link].
  - apply Hl. intros t' s' E. unfold t_cp in E. destruct (tlookup t src) as [x|]; [|done]. destruct (APath_split_last dst) as [[q n]|]; [|done].
    apply rbind_Ok in E as ([y s1] & Ey%top_ensure & E). destruct (tlookup y q) as [d|] eqn:Ed; [|by injection E as <- _].
    destruct (t_copy x s1) as [x' s2]. injection E as <- _.
    eapply top_trans; [exact Ey|]. eapply top_replace; [exact Ed|apply top_link].
Qed.
End under.

(** ** A view is a filesystem of its own *)

Section view.
Context `{Ext} {T : Type} `{KV T Z bytes} `{!KVLaws T Z bytes}.
Implicit Type c : Ctx T.

Lemma rw_op_eq v fuel o c : rw_op v fuel o c = run_op fuel (op_under (rw_root v) o) c.
Proof. by destruct o. Qed.

Lemma rooted_ops v fuel ops : ∀ c t sub n,
  txn c t → tlookup t (rw_root v) = Some sub → is_dir sub = true → Forall inside ops →
  run_ok fuel t (rng c) (map (op_under (rw_root v)) ops) n → unused t (rng c) n → n ≤ 2 ^ 62 →
  ∃ c', rw_ops v fuel ops c = ((t_ops sub (rng c) ops).1, c') ∧
    txn c' (treplace t (rw_root v) (t_ops sub (rng c) ops).2.1) ∧ same_top sub (t_ops sub (rng c) ops).2.1.
Proof.
  induction ops as [|o ops IH]; intros c t sub n Ht Hsub Hdir Hin Hok Hu Hn; cbn [rw_ops t_ops map].
  { exists c. split_and!; [done| |done]. cbn [fst snd]. by rewrite (treplace_same _ t sub (proj1 (txn_sorted c t Ht)) Hsub). }
  apply Forall_cons in Hin as [Ho Hin]. destruct (txn_sorted c t Ht) as [Hso _].
  destruct Hok as (Hok1 & Hcost & Hok).
  destruct (op_step fuel c t (op_under (rw_root v) o) n Ht Hok1 Hu Hcost Hn) as (c1 & m & E & Hst & Hm & Hr).
  rewrite rw_op_eq, E. rewrite (op_under_spec (rw_root v) t sub (rng c) o Hso Hsub Hdir Ho) in *.
  pose proof (top_op sub (rng c) o) as Htop. destruct (t_op sub o (rng c)) as [r [sub1 s1]]. cbn [put_back fst snd] in *. subst s1.
  pose proof (st_n _ _ _ _ _ Hst) as Hm0. assert (is_dir sub1 = true) as Hdir1 by (by rewrite (proj2 Htop)).
  destruct (IH c1 (treplace t (rw_root v) sub1) sub1 (n - cost t (op_under (rw_root v) o))) as (c2 & E2 & Ht2 & Htop2);
    [by eapply steps_txn|by eapply tlookup_replace|done|done|done| |lia|].
  { eapply unused_mono; [eapply (steps_unused c t c1 _ m n); [done|done|lia]|lia]. }
  rewrite E2. destruct (t_ops sub1 (rng c1) ops) as [rs [sub2 s2]]. cbn [fst snd] in *. exists c2.
  split_and!; [done| |by eapply top_trans]. by rewrite (treplace_twice _ t sub sub1 sub2 Hso Hsub) in Ht2.
Qed.

End view.
