(* ===== verification/ProtectedTxn.v ===== *)
(** * Protected transactions as read surfaces

    [txn/read.rs], the read half of [txn/write.rs], the permission half of [cache.rs]
    and the access log of [db/inner.rs].  A reader keeps, besides the shared caches of
    [Cache], a cache of inode bytes and one of checked tags, and memoises for its
    snapshot the paths it resolved, the a-nodes it may access and those it verified; a
    writer reads its own pending state, which it trusts.  Both are shown to keep the
    promises of [ProtectedRead]. *)
From S2P Require Import Prelude Hoare BTree Codec Ext Scalar Path Value Archived Access Key Dir Engine Acl Integrity Inode PermStore WriteBuffer Ctx Tree Grab Write Cache Protected ProtectedRead.

(** ** The access log of [db/inner.rs] *)

Abbreviation AccessLog := (gmap (bytes * Z) Z).

(** [entry(..).and_modify(max).or_insert] *)
Definition log_access (table : bytes) (log : AccessLog) (e : AKey * Z) : AccessLog :=
  <[(table, e.1) := match log !! (table, e.1) with Some current => Z.max current e.2 | None => e.2 end]> log.

Definition deposit_access (table : bytes) (entries : list (AKey * Z)) (log : AccessLog) : AccessLog :=
  fold_left (log_access table) entries log.

(** The order is that of the hash map. *)
Definition drain_access_log (order : AccessLog → list ((bytes * Z) * Z)) (log : AccessLog) : list ((bytes * Z) * Z) * AccessLog :=
  (order log, ∅).

(** What a commit does with the drained batch. *)
Definition persist_access {I : Type} `{OrdKV I} (batch : list ((bytes * Z) * Z)) : SM I unit :=
  for_each batch (λ e, bump_access e.1.1 e.1.2 e.2).

Definition enforced (p : Principal) : bool := match p with Unrestricted => false | _ => true end.

Section reader.
Context `{Crypto} {DateTime : Type} (from_timestamp_millis : Z → option DateTime).
Context {T : Type} `{KV T Z bytes} {I : Type} `{OrdKV I} {M : Type} `{KV M bytes bytes}.
Context {P : Type} `{Lru P APath (Z * AKey)} {B : Type} `{Lru B (Z * AKey) bytes} {V : Type} `{Lru V (Z * AKey) unit}.
Context (table : bytes) (principal : Principal) (now : Z) (metadata : M).

(** The snapshot: its data and shared path and blob caches, the inode table ([None]:
    never written), the shared inode and tag caches, the memos and the access log. *)
Record PReadTxn := mkPRead {
  pr_base : ReadTxn T P B;
  pr_inodes : option I;
  pr_inode_cache : B;
  pr_macs : V;
  pr_paths : gmap APath AKey;
  pr_access : gset Z;
  pr_verified : gset Z;
  pr_log : gmap Z Z;
}.
Implicit Types (s : PReadTxn).

Definition INODE_CAPACITY : Z := 16 * 1024.

(** [ReadTxn::new], over a table's shared caches. *)
Definition PReadTxn_new (base : ReadTxn T P B) (inodes : option I) (inode_cache : B) (macs : V) : PReadTxn :=
  mkPRead base inodes inode_cache macs ∅ ∅ ∅ ∅.

Definition on_base {A} (m : SM (ReadTxn T P B) A) : SM PReadTxn A := λ s,
  let '(a, b) := m (pr_base s) in
  (a, mkPRead b (pr_inodes s) (pr_inode_cache s) (pr_macs s) (pr_paths s) (pr_access s) (pr_verified s) (pr_log s)).

Definition generation s : Z := rt_generation (pr_base s).

Definition access_memoed (akey : AKey) : SM PReadTxn bool := asks (λ s, Ok (bool_decide (akey ∈ pr_access s))).

Definition memo_access (akey : AKey) : SM PReadTxn unit := modify (λ s,
  mkPRead (pr_base s) (pr_inodes s) (pr_inode_cache s) (pr_macs s) (pr_paths s) ({[akey]} ∪ pr_access s) (pr_verified s) (pr_log s)).

Definition verify_memoed (akey : AKey) : SM PReadTxn bool := asks (λ s, Ok (bool_decide (akey ∈ pr_verified s))).

Definition memo_verified (akey : AKey) : SM PReadTxn unit := modify (λ s,
  mkPRead (pr_base s) (pr_inodes s) (pr_inode_cache s) (pr_macs s) (pr_paths s) (pr_access s) ({[akey]} ∪ pr_verified s) (pr_log s)).

Definition memo_path (path : APath) (akey : AKey) : SM PReadTxn unit := modify (λ s,
  mkPRead (pr_base s) (pr_inodes s) (pr_inode_cache s) (pr_macs s) (<[path := akey]> (pr_paths s)) (pr_access s) (pr_verified s) (pr_log s)).

Definition buffer_access (akey : AKey) : SM PReadTxn unit := modify (λ s,
  mkPRead (pr_base s) (pr_inodes s) (pr_inode_cache s) (pr_macs s) (pr_paths s) (pr_access s) (pr_verified s) (<[akey := now]> (pr_log s))).

(** ** [cache.rs]: the inode bytes and the checked tags *)

Definition get_inode (akey : AKey) : SM PReadTxn (option bytes) := λ s,
  let '(found, c) := lru_get (pr_inode_cache s) (generation s, akey) in
  (Ok found, mkPRead (pr_base s) (pr_inodes s) c (pr_macs s) (pr_paths s) (pr_access s) (pr_verified s) (pr_log s)).

Definition put_inode (akey : AKey) (bs : bytes) : SM PReadTxn unit := λ s,
  (Ok tt, mkPRead (pr_base s) (pr_inodes s) (lru_put (pr_inode_cache s) (generation s, akey) bs) (pr_macs s) (pr_paths s) (pr_access s) (pr_verified s) (pr_log s)).

Definition get_mac_verified (akey : AKey) : SM PReadTxn bool := λ s,
  let '(found, c) := lru_get (pr_macs s) (generation s, akey) in
  (Ok (bool_decide (is_Some found)), mkPRead (pr_base s) (pr_inodes s) (pr_inode_cache s) c (pr_paths s) (pr_access s) (pr_verified s) (pr_log s)).

Definition put_mac_verified (akey : AKey) : SM PReadTxn unit := λ s,
  (Ok tt, mkPRead (pr_base s) (pr_inodes s) (pr_inode_cache s) (lru_put (pr_macs s) (generation s, akey) tt) (pr_paths s) (pr_access s) (pr_verified s) (pr_log s)).

(** ** Metadata, authorization, verification *)

Definition meta (akey : AKey) : SM PReadTxn Inode.Meta :=
  let! cached := get_inode akey in
  match cached with
  | Some bs => asks (λ _, decode_meta bs)
  | None => λ s,
      match pr_inodes s with
      | None => (Ok ((None, None), None), s)
      | Some inodes =>
          (let! found := asks (λ _, read_inode_bytes table akey inodes) in
           match found with
           | Some bs => let! _ := put_inode akey bs in asks (λ _, decode_meta bs)
           | None => sret ((None, None), None)
           end) s
      end
  end.

Definition authorize_target (akey : AKey) (needed : Rights) : SM PReadTxn unit :=
  if negb (enforced principal) then sret tt
  else
    let! '((acl, _), _) := meta akey in
    asks (λ _, authorize principal akey acl needed).

Definition check_tag (akey : AKey) (blob : bytes) (acl : option Acl) (mac sig : option bytes) : SM PReadTxn unit :=
  match principal with
  | User session =>
      let! seen := get_mac_verified akey in
      if (seen : bool) then sret tt
      else
        let! expected := asks (λ _, mac_value (s_key session) table akey blob (acl_bytes_or_empty acl)) in
        match mac with
        | Some mac => if ct_eq mac expected then put_mac_verified akey else serr tampered
        | None => serr tampered
        end
  | Guest pubkey =>
      match sig with
      | Some sig => if verify_value pubkey table akey blob (acl_bytes_or_empty acl) sig then sret tt else serr tampered
      | None => serr tampered
      end
  | Unrestricted => sret tt
  end.

Definition r_verify_integrity (akey : AKey) (blob : bytes) : SM PReadTxn unit :=
  if negb (enforced principal) then sret tt
  else
    let! '((acl, mac), sig) := meta akey in
    check_tag akey blob acl mac sig.

Fixpoint resolve_enforced_from (data : T) (akey : AKey) (names : APath) : SM PReadTxn (option AKey) :=
  match names with
  | [] => sret (Some akey)
  | name :: rest =>
      let! '((acl, mac), sig) := meta akey in
      let! _ := asks (λ _, authorize principal akey acl RAccess) in
      let! blob := on_base (blob_at data akey) in
      match blob with
      | None => sret None
      | Some blob =>
          let! _ := check_tag akey blob acl mac sig in
          let! '(kind, payload) := asks (λ _, entry_split blob) in
          match kind with
          | KFile => sret None
          | KDir =>
              let! next := asks (λ _, let? d := ArchivedDir_new payload in dir_get d name) in
              match next with
              | Some child => resolve_enforced_from data child rest
              | None => sret None
              end
          end
      end
  end.

Definition resolve_enforced (data : T) (path : APath) : SM PReadTxn (option AKey) := resolve_enforced_from data ROOT path.

(** ** [Grab for ReadTxn] *)

Definition r_resolve (path : APath) : SM PReadTxn (option AKey) :=
  if enforced principal then λ s,
    match pr_paths s !! path with
    | Some akey => (Ok (Some akey), s)
    | None =>
        match rt_data (pr_base s) with
        | None => (Ok (match path with [] => Some ROOT | _ => None end), s)
        | Some data =>
            (let! resolved := resolve_enforced data path in
             let! _ := match resolved with Some akey => memo_path path akey | None => sret tt end in
             sret resolved) s
        end
    end
  else on_base (read_resolve path).

Definition r_authorize (akey : AKey) (needed : Rights) : SM PReadTxn unit :=
  if negb (enforced principal) then sret tt
  else if bool_decide (needed = RAccess) then
    let! seen := access_memoed akey in
    if (seen : bool) then sret tt
    else
      let! _ := authorize_target akey needed in
      memo_access akey
  else authorize_target akey needed.

Definition r_verify (akey : AKey) (blob : bytes) : SM PReadTxn unit :=
  if negb (enforced principal) then sret tt
  else
    let! seen := verify_memoed akey in
    if (seen : bool) then sret tt
    else
      let! _ := r_verify_integrity akey blob in
      memo_verified akey.

Definition r_acl_of (akey : AKey) : SM PReadTxn (option Acl) :=
  let! '((acl, _), _) := meta akey in sret acl.

Definition r_timestamps_of (akey : AKey) : SM PReadTxn (option (NodeTimestamps DateTime)) := asks (λ s,
  match pr_inodes s with
  | None => Ok None
  | Some inodes => read_timestamps from_timestamp_millis table akey inodes
  end).

#[export] Instance PReadTxn_PGrab : PGrab (DateTime := DateTime) PReadTxn := {
  pg_resolve := r_resolve;
  pg_entry_blob k := on_base (read_entry_blob k);
  pg_authorize := r_authorize;
  pg_verify := r_verify;
  pg_acl_of := r_acl_of;
  pg_gid_of name := asks (λ _, gid_of metadata name);
  pg_user_name uid := asks (λ _, name_of_user metadata uid);
  pg_group_name gid := asks (λ _, name_of_group metadata gid);
  pg_record_access := buffer_access;
  pg_timestamps_of := r_timestamps_of;
}.

(** [Drop for ReadTxn]: the buffered accesses go to the database's log. *)
Definition PReadTxn_drop (order : gmap Z Z → list (AKey * Z)) s (log : AccessLog) : AccessLog :=
  deposit_access table (order (pr_log s)) log.

(** ** A reader keeps the promises *)

Section laws.
Context `{!LruLaws P APath (Z * AKey), !LruLaws B (Z * AKey) bytes, !LruLaws V (Z * AKey) unit}.
Hypothesis Henforced : enforced principal = true.

(** The snapshot: data, inodes, generation. *)
Record snapshot := mkSnapshot { sn_data : option T; sn_inodes : option I; sn_generation : Z }.
Definition snapshot_of s : snapshot := mkSnapshot (rt_data (pr_base s)) (pr_inodes s) (generation s).

Implicit Types (w : snapshot).

Definition sn_meta w (k : AKey) : res Inode.Meta :=
  match sn_inodes w with None => Ok ((None, None), None) | Some i => read_meta table k i end.

Definition sn_acl w (k : AKey) : option Acl := match sn_meta w k with Ok ((a, _), _) => a | _ => None end.

(** The tag a user checks, the signature a guest checks. *)
Definition genuine_for w (k : AKey) (e : bytes) : Prop :=
  match principal with
  | Unrestricted => True
  | User session => ∃ a tag sg, sn_meta w k = Ok ((a, Some tag), sg) ∧ mac_value (s_key session) table k e (acl_bytes_or_empty a) = Ok tag
  | Guest pubkey => ∃ a tag sg, sn_meta w k = Ok ((a, tag), Some sg) ∧ verify_value pubkey table k e (acl_bytes_or_empty a) sg = true
  end.

Definition reader_world w : World := mkWorld (table_get (sn_data w)) (sn_acl w) principal (genuine_for w).

(** The caches and the memos say what the snapshot says. *)
Definition reader_ok w s : Prop :=
  snapshot_of s = w ∧
  (∀ k b, lru_find (blobs (rt_cache (pr_base s))) (sn_generation w, k) = Some b → table_get (sn_data w) k = Some b) ∧
  (∀ k bs, lru_find (pr_inode_cache s) (sn_generation w, k) = Some bs → sn_meta w k = decode_meta bs) ∧
  (∀ k e, lru_find (pr_macs s) (sn_generation w, k) = Some tt → table_get (sn_data w) k = Some e →
     match principal with User _ => genuine_for w k e | _ => True end) ∧
  (∀ p k, pr_paths s !! p = Some k → mediated_walk (reader_world w) ROOT p (Some k)) ∧
  (∀ k, k ∈ pr_access s → w_may (reader_world w) k RAccess) ∧
  (∀ k e, k ∈ pr_verified s → table_get (sn_data w) k = Some e → genuine_for w k e).

Context (w : snapshot).
Abbreviation reads := (triple (reader_ok w)).

Lemma get_inode_reads k : reads (get_inode k) (λ o, ∀ bs, o = Some bs → sn_meta w k = decode_meta bs).
Proof.
  intros s r s' (Hw & Hb & Hi & Hm & Hrest). unfold get_inode.
  pose proof (lru_get_find (pr_inode_cache s) (generation s, k)) as Hf. pose proof (lru_find_get (pr_inode_cache s) (generation s, k)) as Hs.
  destruct (lru_get (pr_inode_cache s) (generation s, k)) as [found c]. cbn [fst snd] in *. intros [= <- <-].
  assert (generation s = sn_generation w) as Eg by by rewrite <- Hw. split.
  - split; [done|]. split; [done|]. split; [|done]. intros j bs. cbn. rewrite Hs. apply Hi.
  - intros o [= <-] bs ->. apply Hi. by rewrite <- Eg.
Qed.

Lemma put_inode_reads k bs : sn_meta w k = decode_meta bs → reads (put_inode k bs) (λ _, True).
Proof.
  intros Hk s r s' (Hw & Hb & Hi & Hm & Hrest) [= <- <-]. split; [|done]. split; [done|]. split; [done|]. split; [|done].
  intros j bs'. cbn. assert (generation s = sn_generation w) as -> by by rewrite <- Hw. intros Hj%lru_find_put.
  case_decide as E; [|by apply Hi]. injection E as ->. by subst.
Qed.

Lemma meta_reads k : reads (meta k) (λ m, sn_meta w k = Ok m).
Proof.
  unfold meta. tbind ltac:(apply get_inode_reads). intros [bs|] Ho.
  { apply triple_const. intros m Hd. by rewrite (Ho bs). }
  apply triple_case. intros s Hs. pose proof (proj1 Hs) as Hw. destruct (pr_inodes s) as [i|] eqn:Ei.
  - eexists. split; [done|]. assert (sn_meta w k = read_meta table k i) as Em by (unfold sn_meta; rewrite <- Hw; cbn; by rewrite Ei).
    apply (triple_bind _ _ _ (λ o, o = kv_get i (inode_key table k))); [apply triple_const; by intros o [= <-]|].
    intros o ->. unfold read_meta in Em. destruct (kv_get i (inode_key table k)) as [bs|].
    + tbind ltac:(by apply put_inode_reads). intros _ _. apply triple_const. intros m. by rewrite Em.
    + by apply triple_ret.
  - eexists. split; [done|]. apply (triple_ret _ ((None, None), None)). unfold sn_meta. rewrite <- Hw. cbn. by rewrite Ei.
Qed.

Lemma authorize_reads k acl n : (∀ m, sn_meta w k = Ok m → m.1.1 = acl) → (∃ m, sn_meta w k = Ok m) →
  reads (asks (λ _, authorize principal k acl n)) (λ _, w_may (reader_world w) k n).
Proof.
  intros Ha [m Hm]. apply triple_const. intros [] E. unfold w_may. cbn. unfold sn_acl. rewrite Hm. rewrite <- (Ha m Hm) in E.
  destruct m as [[a t] sg]. cbn in *. destruct (authorize_decides principal k a n) as [[_ ?]|[E' _]]; [done|congruence].
Qed.

Lemma get_mac_reads k : reads (get_mac_verified k) (λ b, b = true → ∀ e, table_get (sn_data w) k = Some e →
  match principal with User _ => genuine_for w k e | _ => True end).
Proof.
  intros s r s' (Hw & Hb & Hi & Hm & Hrest). unfold get_mac_verified.
  pose proof (lru_get_find (pr_macs s) (generation s, k)) as Hf. pose proof (lru_find_get (pr_macs s) (generation s, k)) as Hs.
  destruct (lru_get (pr_macs s) (generation s, k)) as [found c]. cbn [fst snd] in *. intros [= <- <-].
  assert (generation s = sn_generation w) as Eg by by rewrite <- Hw. split.
  - split; [done|]. split; [done|]. split; [done|]. split; [|done]. intros j e. cbn. rewrite Hs. apply Hm.
  - intros b [= <-] Hsome%bool_decide_eq_true e He. destruct Hsome as [[] ->]. apply Hm; [|done]. by rewrite <- Eg.
Qed.

Lemma put_mac_reads k : (∀ e, table_get (sn_data w) k = Some e → match principal with User _ => genuine_for w k e | _ => True end) →
  reads (put_mac_verified k) (λ _, True).
Proof.
  intros Hk s r s' (Hw & Hb & Hi & Hm & Hrest) [= <- <-]. split; [|done]. split; [done|]. split; [done|]. split; [done|]. split; [|done].
  intros j e. cbn. assert (generation s = sn_generation w) as -> by by rewrite <- Hw. intros Hj%lru_find_put.
  case_decide as E; [|by apply Hm]. injection E as ->. apply Hk.
Qed.

Lemma check_tag_reads k e a m sg : table_get (sn_data w) k = Some e → sn_meta w k = Ok ((a, m), sg) →
  reads (check_tag k e a m sg) (λ _, genuine_for w k e).
Proof using All.
  intros He Hm. unfold check_tag. unfold genuine_for. destruct principal as [|pk|ses] eqn:Ep; [done| |].
  - destruct sg as [sg|]; [|apply triple_err]. destruct (verify_value _ _ _ _ _ _) eqn:Ev; [|apply triple_err].
    apply triple_ret. by exists a, m, sg.
  - tbind ltac:(apply get_mac_reads). rewrite Ep. intros [] Hseen; [apply triple_ret; unfold genuine_for in Hseen; rewrite Ep in Hseen; by apply Hseen|].
    apply (triple_bind _ _ _ (λ tag, mac_value (s_key ses) table k e (acl_bytes_or_empty a) = Ok tag)); [by apply triple_const|].
    intros tag Htag. destruct m as [m|]; [|apply triple_err]. destruct (ct_eq m tag) eqn:Ec; [|apply triple_err].
    rewrite ct_eq_spec in Ec. apply bool_decide_eq_true in Ec as ->.
    apply (triple_weaken _ _ (λ _, True)); [|intros _ _; by exists a, tag, sg]. apply put_mac_reads.
    intros e' He'. rewrite Ep. unfold genuine_for. rewrite Ep. assert (e' = e) as -> by congruence. by exists a, tag, sg.
Qed.

(** A step of the shared blob cache. *)
Lemma on_base_reads {A} (m : SM (ReadTxn T P B) A) (Q : A → Prop) :
  (∀ (b : ReadTxn T P B) r b', rt_data b = sn_data w → rt_generation b = sn_generation w →
     (∀ k e, lru_find (blobs (rt_cache b)) (sn_generation w, k) = Some e → table_get (sn_data w) k = Some e) →
     m b = (r, b') → rt_data b' = rt_data b ∧ rt_generation b' = rt_generation b ∧
     (∀ k e, lru_find (blobs (rt_cache b')) (sn_generation w, k) = Some e → table_get (sn_data w) k = Some e) ∧ ∀ a, r = Ok a → Q a) →
  reads (on_base m) Q.
Proof.
  intros Hm s r s' (Hw & Hb & Hrest) E. unfold on_base in E. destruct (m (pr_base s)) as [r1 b] eqn:E1. injection E as <- <-.
  destruct (Hm _ _ _ (f_equal sn_data Hw) (f_equal sn_generation Hw) Hb E1) as (Hd & Hg & Hb' & HQ). split; [|done].
  split; [|split; [done|done]]. rewrite <- Hw. unfold snapshot_of, generation. cbn. by rewrite Hd, Hg.
Qed.

Lemma get_blob_raw k (b : ReadTxn T P B) r b' : rt_generation b = sn_generation w →
  (∀ k e, lru_find (blobs (rt_cache b)) (sn_generation w, k) = Some e → table_get (sn_data w) k = Some e) →
  on_cache (λ g, get_blob g k) b = (r, b') → rt_data b' = rt_data b ∧ rt_generation b' = rt_generation b ∧
  (∀ k e, lru_find (blobs (rt_cache b')) (sn_generation w, k) = Some e → table_get (sn_data w) k = Some e) ∧
  ∃ o, r = Ok o ∧ ∀ e, o = Some e → table_get (sn_data w) k = Some e.
Proof.
  intros Hg Hb. unfold on_cache, get_blob.
  pose proof (lru_get_find (blobs (rt_cache b)) (rt_generation b, k)) as Hf. pose proof (lru_find_get (blobs (rt_cache b)) (rt_generation b, k)) as Hs.
  destruct (lru_get (blobs (rt_cache b)) (rt_generation b, k)) as [found c]. cbn [fst snd] in *. intros [= <- <-].
  split_and!; [done..| |].
  - intros j e. cbn. rewrite Hs. apply Hb.
  - exists found. split; [done|]. intros e ->. apply Hb. by rewrite <- Hg.
Qed.

Lemma blob_at_reads t k : sn_data w = Some t → reads (on_base (blob_at t k)) (λ o, o = table_get (sn_data w) k).
Proof.
  intros Ht. apply on_base_reads. intros b r b' Hd Hg Hb. unfold blob_at, sbind.
  destruct (on_cache (λ g, get_blob g k) b) as [r1 b1] eqn:E1.
  destruct (get_blob_raw k b r1 b1 Hg Hb E1) as (Hd1 & Hg1 & Hb1 & o & -> & Ho).
  destruct o as [e|]; [intros [= <- <-]; split_and!; [done..|]; intros a [= <-]; by rewrite (Ho e)|].
  assert (table_get (sn_data w) k = kv_get t k) as Et by (unfold table_get; by rewrite Ht).
  destruct (kv_get t k) as [e|] eqn:Ek.
  - intros [= <- <-]. cbn. split_and!; [done|done| |by intros a [= <-]].
    intros j e'. rewrite Hg1, Hg. intros Hj%lru_find_put. case_decide as E; [|by apply Hb1]. injection E as ->. by rewrite Et, Hj.
  - intros [= <- <-]. split_and!; [done..|]. by intros a [= <-].
Qed.

Lemma entry_blob_reads k : reads (on_base (read_entry_blob k)) (λ o, o = table_get (sn_data w) k).
Proof.
  intros s r s' Hs E. unfold on_base in E. destruct (read_entry_blob k (pr_base s)) as [r1 b] eqn:E1.
  assert (reads (on_base (on_cache (λ g, get_blob g k))) (λ o, ∀ e, o = Some e → table_get (sn_data w) k = Some e)) as Hg.
  { apply on_base_reads. intros b0 r0 b0' Hd Hgen Hb E0. destruct (get_blob_raw k b0 r0 b0' Hgen Hb E0) as (?&?&?&o&->&?). split_and!; [done..|]. by intros a [= <-]. }
  unfold read_entry_blob, sbind in E1. destruct (on_cache (λ g, get_blob g k) (pr_base s)) as [r2 b2] eqn:E2.
  assert (on_base (on_cache (λ g, get_blob g k)) s = (r2, mkPRead b2 (pr_inodes s) (pr_inode_cache s) (pr_macs s) (pr_paths s) (pr_access s) (pr_verified s) (pr_log s))) as E3.
  { unfold on_base. by rewrite E2. }
  destruct (Hg _ _ _ Hs E3) as [Hs2 Ho]. destruct r2 as [[e|]|e| |]; try (injection E1 as <- <-; injection E as <- <-; split; [done|done]).
  - injection E1 as <- <-. injection E as <- <-. split; [done|]. intros a [= <-]. by rewrite (Ho _ eq_refl e).
  - pose proof (f_equal sn_data (proj1 Hs2)) as Hd. cbn in Hd. destruct (rt_data b2) as [t|] eqn:Et.
    + destruct (blob_at_reads t k (eq_sym Hd)) with (1 := Hs2) (r := r1)
        (s' := mkPRead b (pr_inodes s) (pr_inode_cache s) (pr_macs s) (pr_paths s) (pr_access s) (pr_verified s) (pr_log s)) as [Hs3 Ha].
      { unfold on_base. cbn. by rewrite E1. }
      injection E as <- <-. done.
    + injection E1 as <- <-. injection E as <- <-. split; [done|]. intros a [= <-]. unfold table_get. by rewrite <- Hd.
Qed.

Lemma resolve_enforced_reads t names : sn_data w = Some t → ∀ k,
  reads (resolve_enforced_from t k names) (mediated_walk (reader_world w) k names).
Proof using All.
  intros Ht. induction names as [|n names IH]; intros k; cbn [resolve_enforced_from mediated_walk]; [by apply triple_ret|].
  tbind ltac:(apply meta_reads). intros [[a m] sg] Hm.
  tbind ltac:(apply authorize_reads; [intros m' Hm'; rewrite Hm in Hm'; by injection Hm' as <-|by eexists]). intros _ Hmay.
  tbind ltac:(by apply blob_at_reads). intros o ->. cbn [w_stored reader_world].
  destruct (table_get (sn_data w) k) as [e|] eqn:Ee; [|by apply triple_ret].
  tbind ltac:(by eapply check_tag_reads). intros _ Hg.
  apply (triple_bind _ _ _ (λ x, entry_split e = Ok x)); [by apply triple_const|]. intros [kd payload] Hsplit.
  cbn [w_genuine]. rewrite Hsplit. destruct kd; [|by apply triple_ret].
  apply (triple_bind _ _ _ (λ x, (let? d := ArchivedDir_new payload in dir_get d n) = Ok x)); [by apply triple_const|]. intros o Ho.
  rewrite Ho. destruct o as [ch|]; [|by apply triple_ret]. eapply triple_weaken; [apply IH|]. done.
Qed.

Lemma r_resolve_reads path : reads (r_resolve path) (mediated_walk (reader_world w) ROOT path).
Proof using All.
  unfold r_resolve. rewrite Henforced. apply triple_case. intros s Hs. pose proof Hs as (Hw & _ & _ & _ & Hp & _).
  destruct (pr_paths s !! path) as [k|] eqn:Ek; [eexists; split; [done|]; by apply triple_ret, Hp|].
  pose proof (f_equal sn_data Hw) as Hd. cbn in Hd. destruct (rt_data (pr_base s)) as [t|] eqn:Et.
  - eexists. split; [done|]. tbind ltac:(by apply resolve_enforced_reads). intros o Ho.
    apply (triple_bind _ _ _ (λ _, True)); [|intros _ _; by apply triple_ret].
    destruct o as [k|]; [|by apply triple_ret]. apply triple_modify. intros s0 (Hw0 & Hb & Hi & Hm & Hp0 & Hrest).
    split; [done|]. do 3 (split; [done|]). split; [|done]. intros p k'. cbn. rewrite lookup_insert. case_decide; [intros [= <-]; by subst|apply Hp0].
  - eexists. split; [done|]. apply triple_ret. destruct path as [|n path]; [done|]. cbn. split; [|by rewrite <- Hd].
    unfold w_may. cbn [w_principal reader_world]. destruct principal; by constructor.
Qed.

Lemma r_authorize_reads k : reads (r_authorize k RAccess) (λ _, w_may (reader_world w) k RAccess).
Proof using All.
  unfold r_authorize. rewrite Henforced. cbn [negb]. rewrite bool_decide_true by done.
  apply (triple_bind _ _ _ (λ b, b = true → w_may (reader_world w) k RAccess)).
  { apply triple_asks. intros s b (Hw & _ & _ & _ & _ & Ha & _) [= <-] Hin%bool_decide_eq_true. by apply Ha. }
  intros [] Hb; [by apply triple_ret, Hb|]. apply (triple_bind _ _ _ (λ _, w_may (reader_world w) k RAccess)).
  - unfold authorize_target. rewrite Henforced. cbn [negb]. tbind ltac:(apply meta_reads). intros [[a m] sg] Hm.
    apply authorize_reads; [intros m' Hm'; rewrite Hm in Hm'; by injection Hm' as <-|by eexists].
  - intros _ Hmay. intros s r s' (Hw & Hb' & Hi & Hm & Hp & Ha & Hv) [= <- <-]. split; [|done].
    split; [done|]. do 4 (split; [done|]). split; [|done]. intros j. cbn. intros [->%elem_of_singleton|Hj]%elem_of_union; [done|by apply Ha].
Qed.

Lemma r_verify_reads k e : table_get (sn_data w) k = Some e → reads (r_verify k e) (λ _, genuine_for w k e).
Proof using All.
  intros He. unfold r_verify. rewrite Henforced. cbn [negb]. apply (triple_bind _ _ _ (λ b, b = true → genuine_for w k e)).
  { apply triple_asks. intros s b (Hw & _ & _ & _ & _ & _ & Hv) [= <-] Hin%bool_decide_eq_true. by apply Hv. }
  intros [] Hb; [by apply triple_ret, Hb|]. apply (triple_bind _ _ _ (λ _, genuine_for w k e)).
  - unfold r_verify_integrity. rewrite Henforced. cbn [negb]. tbind ltac:(apply meta_reads). intros [[a m] sg] Hm. by apply check_tag_reads.
  - intros _ Hg. intros s r s' (Hw & Hb' & Hi & Hm & Hp & Ha & Hv) [= <- <-]. split; [|done].
    split; [done|]. do 5 (split; [done|]). intros j e'. cbn. intros [->%elem_of_singleton|Hj]%elem_of_union He'; [|by apply Hv].
    by assert (e' = e) as -> by congruence.
Qed.

Lemma r_acl_reads k : reads (r_acl_of k) (λ o, o = sn_acl w k).
Proof.
  unfold r_acl_of. tbind ltac:(apply meta_reads). intros [[a m] sg] Hm. apply triple_ret. unfold sn_acl. by rewrite Hm.
Qed.
End laws.

(** A call whose triple holds at every snapshot. *)
Lemma snapshot_law `{!LruLaws P APath (Z * AKey), !LruLaws B (Z * AKey) bytes, !LruLaws V (Z * AKey) unit}
    {A} (p : SM PReadTxn A) (Q : snapshot → A → Prop) s r s' :
  (∀ w, triple (reader_ok w) p (Q w)) → reader_ok (snapshot_of s) s → p s = (r, s') →
  (reader_ok (snapshot_of s') s' ∧ reader_world (snapshot_of s') = reader_world (snapshot_of s)) ∧ ∀ a, r = Ok a → Q (snapshot_of s) a.
Proof. intros Hp Hs E. destruct (Hp _ _ _ _ Hs E) as [Hs' HQ]. pose proof (proj1 Hs') as ->. done. Qed.

(** The reader's promises, for the guest and for users. *)
#[export] Instance reader_laws `{!LruLaws P APath (Z * AKey), !LruLaws B (Z * AKey) bytes, !LruLaws V (Z * AKey) unit}
  (Henforced : enforced principal = true) : PGrabLaws (DateTime := DateTime) PReadTxn.
Proof.
  refine {| pg_ok s := reader_ok (snapshot_of s) s; pg_world s := reader_world (snapshot_of s) |}.
  - intros s p r s' Hs E. eapply (snapshot_law _ (λ w, mediated_walk (reader_world w) ROOT p)); [|done|exact E]. intros w. by apply r_resolve_reads.
  - intros s k r s' Hs E. eapply (snapshot_law _ (λ w o, o = table_get (sn_data w) k)); [|done|exact E]. intros w. apply entry_blob_reads.
  - intros s k r s' Hs E. destruct (snapshot_law _ (λ w _, w_may (reader_world w) k RAccess) s r s' (λ w, r_authorize_reads Henforced w k) Hs E) as [? Hm].
    split; [done|]. intros ->. by eapply Hm.
  - intros s k e r s' Hs He E. assert (triple (reader_ok (snapshot_of s)) (r_verify k e) (λ _, genuine_for (snapshot_of s) k e)) as Ht by by apply r_verify_reads.
    destruct (Ht _ _ _ Hs E) as [Hs' Hg]. pose proof (proj1 Hs') as Hw. rewrite Hw. split; [done|]. intros ->. by eapply Hg.
  - intros s k r s' Hs E. eapply (snapshot_law _ (λ w o, o = sn_acl w k)); [|done|exact E]. intros w. apply r_acl_reads.
  - intros s k r s' Hs [= _ <-]. done.
Defined.

(** A reader opened on empty caches. *)
Lemma new_reader_ok `{!LruLaws P APath (Z * AKey), !LruLaws B (Z * AKey) bytes, !LruLaws V (Z * AKey) unit} data generation inodes :
  let s := PReadTxn_new (mkReadTxn data generation PathCache_new) inodes (lru_new INODE_CAPACITY) (lru_new INODE_CAPACITY) in
  reader_ok (snapshot_of s) s.
Proof.
  split; [done|]. cbn. split_and!; intros *; rewrite ?lru_find_new; try done; by intros ?%elem_of_empty.
Qed.
End reader.
