(* ===== verification/ProtectedWrite.v ===== *)
(** * The protected write transaction

    [txn/write.rs] for a table with [permissions] and no registered index: the reads
    over the transaction's own uncommitted state, which it trusts, the mutable
    accessor's unchecked resolution, every mutation under a context of its own, the
    public calls that change access control lists, the reaping of a removed user's
    values and the commit.  Its reads keep the promises of [ProtectedRead]. *)
From S2P Require Import Prelude Hoare BTree Codec Ext Scalar Path Value Archived Access Key Dir Engine Acl Integrity Inode PermStore WriteBuffer Ctx Fs Tree Grab Write Protected ProtectedRead ProtectedTxn.

(** The state: the data and inode tables of the engine transaction, the write-back cache
    and the key generator ([Ctx]), and the database's access log. *)
Record PWriteTxn (T I : Type) := mkPWrite { pw_ctx : Ctx T; pw_inodes : I; pw_log : AccessLog }.
Arguments mkPWrite {T I} _ _ _.
Arguments pw_ctx {T I} _.
Arguments pw_inodes {T I} _.
Arguments pw_log {T I} _.

(** [WriteBuffer::file_contains]. *)
Definition file_contains (b : WriteBuffer) (akey : AKey) : bool := files_dirty b && bool_decide (is_Some (files b !! akey)).

Section writer.
Context `{Ext} `{Crypto} {DateTime : Type} (from_timestamp_millis : Z → option DateTime).
Context {T : Type} `{KV T Z bytes} {I : Type} `{OrdKV I} {M : Type} `{KV M bytes bytes}.
Context (table : bytes) (principal : Principal) (now : Z) (metadata : M).
Abbreviation WM := (SM (PWriteTxn T I)) (only parsing).
Implicit Types (s : PWriteTxn T I).

(** [WriteTxn::new], over the tables the engine transaction opens. *)
Definition PWriteTxn_new (d : T) (i : I) (rng : Z) (log : AccessLog) (has_any_index : bool) : PWriteTxn T I :=
  mkPWrite (WriteTxn_new d rng has_any_index) i log.

(** A context over the transaction's tables: its memo of verified a-nodes starts empty
    and ends with it. *)
Definition in_context {A} (m : SM (PCtx T I) A) : WM A := λ s,
  let '(r, c) := m (PCtx_new (pw_ctx s) (pw_inodes s)) in (r, mkPWrite (p_ctx c) (p_inodes c) (pw_log s)).

(** ** Integrity of what is read back *)

Definition w_check_mac (akey : AKey) (entry : bytes) (acl : option Acl) (mac : option bytes) : res unit :=
  match principal with
  | User session =>
      let? expected := mac_value (s_key session) table akey entry (acl_bytes_or_empty acl) in
      match mac with
      | Some mac => if ct_eq mac expected then Ok tt else Err tampered
      | None => Err tampered
      end
  | _ => Ok tt
  end.

Definition w_verify_with (inodes : I) (akey : AKey) (entry : bytes) : res unit :=
  match principal with
  | User _ =>
      let? '((acl, mac), _) := read_meta table akey inodes in
      w_check_mac akey entry acl mac
  | _ => Ok tt
  end.

Definition w_verify_entry (akey : AKey) (entry : bytes) : WM unit :=
  match principal with
  | User _ => asks (λ s, w_verify_with (pw_inodes s) akey entry)
  | _ => sret tt
  end.

(** ** Resolution *)

Fixpoint w_resolve_enforced_from (akey : AKey) (names : APath) s : res (option AKey) :=
  match names with
  | [] => Ok (Some akey)
  | name :: rest =>
      let? '((acl, mac), _) := read_meta table akey (pw_inodes s) in
      let? _ := authorize principal akey acl RAccess in
      match buffered_children akey (pw_ctx s) with
      | Some children =>
          match bt_get children name with
          | Some child => w_resolve_enforced_from child rest s
          | None => Ok None
          end
      | None =>
          let? entry := read_entry (data (pw_ctx s)) akey in
          match entry with
          | None => Ok None
          | Some entry =>
              let? _ := w_check_mac akey entry acl mac in
              let? '(kind, payload) := entry_split entry in
              match kind with
              | KFile => Ok None
              | KDir =>
                  let? next := let? d := ArchivedDir_new payload in dir_get d name in
                  match next with
                  | Some child => w_resolve_enforced_from child rest s
                  | None => Ok None
                  end
              end
          end
      end
  end.

Definition w_resolve_enforced (path : APath) s : res (option AKey) := w_resolve_enforced_from ROOT path s.

(** ** [Grab for WriteTxn] *)

Definition w_resolve (path : APath) : WM (option AKey) :=
  if enforced principal then asks (w_resolve_enforced path) else asks (λ s, resolve_buffered path (pw_ctx s)).

Definition w_entry_blob (akey : AKey) : WM (option bytes) := asks (λ s, write_entry_blob akey (pw_ctx s)).

Definition w_authorize (akey : AKey) (needed : Rights) : WM unit :=
  if negb (enforced principal) then sret tt
  else
    let! acl := asks (λ s, read_acl table akey (pw_inodes s)) in
    asks (λ _, authorize principal akey acl needed).

Definition w_verify (akey : AKey) (blob : bytes) : WM unit := λ s,
  if buffered_dir akey (pw_ctx s) then (Ok tt, s)
  else if file_contains (wb (pw_ctx s)) akey then (Ok tt, s)
  else w_verify_entry akey blob s.

Definition w_acl_of (akey : AKey) : WM (option Acl) := asks (λ s, read_acl table akey (pw_inodes s)).

Definition w_record_access (akey : AKey) : WM unit :=
  modify (λ s, mkPWrite (pw_ctx s) (pw_inodes s) (deposit_access table [(akey, now)] (pw_log s))).

Definition w_timestamps_of (akey : AKey) : WM (option (NodeTimestamps DateTime)) :=
  asks (λ s, read_timestamps from_timestamp_millis table akey (pw_inodes s)).

#[export] Instance PWriteTxn_PGrab : PGrab (DateTime := DateTime) (PWriteTxn T I) := {
  pg_resolve := w_resolve;
  pg_entry_blob := w_entry_blob;
  pg_authorize := w_authorize;
  pg_verify := w_verify;
  pg_acl_of := w_acl_of;
  pg_gid_of name := asks (λ _, gid_of metadata name);
  pg_user_name uid := asks (λ _, name_of_user metadata uid);
  pg_group_name gid := asks (λ _, name_of_group metadata gid);
  pg_record_access := w_record_access;
  pg_timestamps_of := w_timestamps_of;
}.

(** ** The mutable accessor's reads: no access check *)

Definition w_load_value_at (fuel : nat) (path : APath) : WM (option Value) :=
  let! akey := asks (λ s, resolve_buffered path (pw_ctx s)) in
  match akey with
  | None => sret None
  | Some akey =>
      let! entry := λ s,
        match file_get (wb (pw_ctx s)) akey with
        | Some buffered => (Ok (Some buffered), s)
        | None =>
            (let! entry := asks (λ s, read_entry (data (pw_ctx s)) akey) in
             match entry with
             | None => sret None
             | Some entry => let! _ := w_verify_entry akey entry in sret (Some entry)
             end) s
        end in
      match entry with
      | None => sret None
      | Some entry => asks (λ _, loaded fuel entry)
      end
  end.

Definition w_fetch_mut (path : APath) : WM (option (AKey * Z)) := asks (λ s, fetch_mut path (pw_ctx s)).

(** ** Mutations: each runs in a context of its own *)

Section fuel.
Context (fuel : nat).

Definition w_store_value_at (path : APath) (value : Value) : WM unit :=
  in_context (p_store_value_at table now principal fuel path value).

Definition w_store_blob_at (path : APath) (value_blob : bytes) : WM unit :=
  if is_root path then serr (CannotAccess "cannot store a file at the root")
  else in_context (p_store_blob_into table now principal fuel path value_blob).

Definition w_put_scalar_at (path : APath) (at_path : VPath) (scalar : Scalar) : WM unit :=
  in_context (p_put_scalar_at table now principal fuel path at_path scalar).

Definition w_rm (path : APath) : WM bool := in_context (p_rm table now principal fuel path).

Definition w_mv (src dst : APath) : WM unit := in_context (p_mv table now principal fuel src dst).

Definition w_cp (src dst : APath) : WM unit := in_context (p_cp table now principal fuel src dst).

(** [reap_owned_in], over a table's own tables, the buffering off. *)
Definition reap_owned_in (uid : Z) (d : T) (i : I) (rng : Z) : res unit * PCtx T I :=
  reap_owned table now principal fuel uid (PCtx_new (mkCtx d (WriteBuffer_new false) rng) i).
End fuel.

Definition w_mkdir (path : APath) : WM unit := in_context (p_mkdir table now principal path).

(** ** Access control lists *)

Definition w_chown (path : APath) (owner : bytes) : WM unit :=
  let! uid := asks (λ _, uid_of metadata owner) in
  let! new_uid := asks (λ _, ok_or uid (CannotAccess "no user named '{owner}'")) in
  in_context (chown_into table principal path new_uid).

Definition require_gid (group : bytes) : res Z :=
  let? gid := gid_of metadata group in ok_or gid (CannotAccess "no group named '{group}'").

Definition w_set_acl (path : APath) (class : AclClass) (rights : Rights) : WM unit :=
  let! gid := match class with ClassGroup name => asks (λ _, require_gid name) | _ => sret 0 end in
  in_context (set_acl_into table principal path (class_rights class gid rights)).

Definition w_add_group (path : APath) (group : bytes) : WM unit :=
  let! gid := asks (λ _, require_gid group) in
  in_context (set_acl_into table principal path (acl_add_group gid)).

Definition w_del_group (path : APath) (group : bytes) : WM unit :=
  let! gid := asks (λ _, require_gid group) in
  in_context (set_acl_into table principal path (acl_remove_group gid)).

(** ** Commit: the flush and the buffered access times, before the engine's own commit *)

Section commit.
Context (order_dirs : gmap Z Children → list (Z * Children)) (order_files : gmap Z bytes → list (Z * bytes)).
Context (order_log : AccessLog → list ((bytes * Z) * Z)).

Definition w_commit : WM unit :=
  let! _ := in_context (p_commit_flush table now principal order_dirs order_files) in
  λ s,
    let '(batch, log) := drain_access_log order_log (pw_log s) in
    let '(r, i) := persist_access batch (pw_inodes s) in
    (r, mkPWrite (pw_ctx s) i log).
End commit.

(** ** The writer keeps the promises of its reads *)

(** What the writer trusts: its own buffer, as it writes it.  A buffered file never
    stands for a directory of the engine. *)
Definition own_buffer s : Prop :=
  let c := pw_ctx s in
  wb_ok (wb c) ∧
  (∀ k m, dirs (wb c) !! k = Some m → dir_ok m) ∧
  (∀ k e, files (wb c) !! k = Some e → (∃ b, e = file_entry b) ∧
     ∀ e' p, kv_get (data c) k = Some e' → entry_split e' ≠ Ok (KDir, p)).

Definition w_entry (c : Ctx T) (k : AKey) : option bytes :=
  match dirs (wb c) !! k with
  | Some m => Some (dir_entry (encode_dir m))
  | None => match files (wb c) !! k with Some e => Some e | None => kv_get (data c) k end
  end.

Definition w_list (i : I) (k : AKey) : option Acl := match read_meta table k i with Ok ((a, _), _) => a | _ => None end.

(** Buffered, or carrying the tag a user's key gives. *)
Definition w_trusted s (k : AKey) (e : bytes) : Prop :=
  is_Some (dirs (wb (pw_ctx s)) !! k) ∨ is_Some (files (wb (pw_ctx s)) !! k) ∨
  match principal with
  | User session => ∃ a tag sg, read_meta table k (pw_inodes s) = Ok ((a, Some tag), sg) ∧
      mac_value (s_key session) table k e (acl_bytes_or_empty a) = Ok tag
  | _ => True
  end.

Definition writer_world s : World := mkWorld (w_entry (pw_ctx s)) (w_list (pw_inodes s)) principal (w_trusted s).

(** The state a read may change: the access log alone. *)
Definition same_tables s s' : Prop := pw_ctx s' = pw_ctx s ∧ pw_inodes s' = pw_inodes s.

Lemma same_tables_world s s' : same_tables s s' → own_buffer s → own_buffer s' ∧ writer_world s' = writer_world s.
Proof. destruct s, s'. unfold own_buffer, writer_world, w_trusted. intros [Hc Hi]; cbn in *. by subst. Qed.

Lemma check_mac_ok k e a m : w_check_mac k e a m = Ok tt →
  match principal with
  | User session => ∃ tag, m = Some tag ∧ mac_value (s_key session) table k e (acl_bytes_or_empty a) = Ok tag
  | _ => True
  end.
Proof.
  unfold w_check_mac. destruct principal as [| |ses]; [done..|]. intros (tag & Htag & Hm)%rbind_Ok.
  destruct m as [m|]; [|done]. destruct (ct_eq m tag) eqn:Ec; [|done]. rewrite ct_eq_spec in Ec. apply bool_decide_eq_true in Ec as ->.
  by exists tag.
Qed.

Lemma checked_trusted s k e a m sg : read_meta table k (pw_inodes s) = Ok ((a, m), sg) → w_check_mac k e a m = Ok tt → w_trusted s k e.
Proof.
  intros Hm Hc%check_mac_ok. right; right. destruct principal as [| |ses]; [done..|]. destruct Hc as (tag & -> & Ht). by exists a, tag, sg.
Qed.

Lemma w_resolve_walks s names : own_buffer s → ∀ k o, w_resolve_enforced_from k names s = Ok o → mediated_walk (writer_world s) k names o.
Proof.
  intros (Hw & Hd & Hf). induction names as [|n names IH]; intros k o; cbn [w_resolve_enforced_from mediated_walk]; [by intros [= <-]|].
  intros ([[a m] sg] & Hm & ([] & Ha & E)%rbind_Ok)%rbind_Ok.
  assert (w_may (writer_world s) k RAccess) as Hmay.
  { unfold w_may. cbn. unfold w_list. rewrite Hm. destruct (authorize_decides principal k a RAccess) as [[_ ?]|[E' _]]; [done|congruence]. }
  split; [done|]. cbn [w_stored w_genuine writer_world]. unfold w_entry.
  assert (buffered_children k (pw_ctx s) = dirs (wb (pw_ctx s)) !! k) as Eb by (by apply gated_dirs). rewrite Eb in E.
  destruct (dirs (wb (pw_ctx s)) !! k) as [ch|] eqn:Ek.
  { split; [by left; rewrite Ek|]. unfold entry_split, dir_entry. cbn. rewrite ArchivedDir_new_ok by (by eapply Hd). cbn.
    rewrite dir_get_lemma by (by eapply Hd). destruct (bt_get ch n) as [c|]; [by apply IH|by injection E]. }
  destruct (files (wb (pw_ctx s)) !! k) as [e|] eqn:Ef.
  - destruct (Hf _ _ Ef) as [[b ->] He]. split; [by right; left; rewrite Ef|]. cbn.
    unfold read_entry in E. cbn [rbind] in E. destruct (kv_get (data (pw_ctx s)) k) as [e'|] eqn:Eg; [|by injection E].
    apply rbind_Ok in E as ([] & _ & ([kd p] & Hs & E)%rbind_Ok). destruct kd; [|by injection E].
    by destruct (He _ _ eq_refl Hs).
  - unfold read_entry in E. cbn [rbind] in E. destruct (kv_get (data (pw_ctx s)) k) as [e|] eqn:Eg; [|by injection E].
    apply rbind_Ok in E as ([] & Hc & ([kd p] & Hs & E)%rbind_Ok). split; [by eapply checked_trusted|]. rewrite Hs.
    destruct kd; [|by injection E]. apply rbind_Ok in E as (o' & -> & E). destruct o' as [c|]; [by apply IH|by injection E].
Qed.

Lemma write_entry_blob_world s k : own_buffer s → write_entry_blob k (pw_ctx s) = Ok (w_stored (writer_world s) k).
Proof.
  intros (Hw & _). cbn. unfold write_entry_blob, w_entry. rewrite (file_get_spec _ _ Hw). unfold wb_read, read_entry.
  assert ((if dirty (wb (pw_ctx s)) then (λ children, dir_entry (encode_dir children)) <$> dirs (wb (pw_ctx s)) !! k else None) =
          (λ children, dir_entry (encode_dir children)) <$> dirs (wb (pw_ctx s)) !! k) as ->.
  { destruct Hw as (Hw & _). unfold dirty. destruct (dirs_dirty _); [done|]. by rewrite Hw, lookup_empty. }
  destruct (dirs _ !! k); [done|]. cbn. by destruct (files _ !! k).
Qed.

Lemma w_verify_trusts s k e r s' : w_stored (writer_world s) k = Some e → w_verify k e s = (r, s') → s' = s ∧ (r = Ok tt → w_trusted s k e).
Proof.
  intros He. unfold w_verify, buffered_dir, wb_read, file_contains, w_verify_entry, w_verify_with.
  destruct (dirty _ && _) eqn:Ed; [intros [= <- <-]; split; [done|]; intros _; left; by apply andb_true_iff in Ed as [_ ?%bool_decide_eq_true]|].
  destruct (files_dirty _ && _) eqn:Ef; [intros [= <- <-]; split; [done|]; intros _; right; left; by apply andb_true_iff in Ef as [_ ?%bool_decide_eq_true]|].
  assert (∀ r, (let? '((acl, mac), _) := read_meta table k (pw_inodes s) in w_check_mac k e acl mac) = r → r = Ok tt → w_trusted s k e) as Hc.
  { intros r0 <- ([[a m] sg] & Hm & Hc)%rbind_Ok. by eapply checked_trusted. }
  destruct principal as [| |ses] eqn:Ep; [intros [= <- <-]; split; [done|]; intros _; right; right; by rewrite Ep..|].
  intros [= <- <-]. split; [done|]. by apply Hc.
Qed.

Lemma read_acl_list i k o : read_acl table k i = Ok o → o = w_list i k.
Proof.
  unfold read_acl, w_list, read_meta, decode_meta. destruct (kv_get i _) as [bs|]; [|by intros [= <-]].
  by intros (n & -> & [= <-])%rbind_Ok.
Qed.

Lemma w_authorize_may s k r s' : enforced principal = true → w_authorize k RAccess s = (r, s') →
  s' = s ∧ (r = Ok tt → w_may (writer_world s) k RAccess).
Proof.
  intros He. unfold w_authorize. rewrite He. unfold sbind, asks. cbn [negb].
  destruct (read_acl table k (pw_inodes s)) as [a|e| |] eqn:Ea; intros [= <- <-]; (split; [done|]); [|done..].
  intros Hok. unfold w_may. cbn. rewrite <- (read_acl_list _ _ _ Ea).
  destruct (authorize_decides principal k a RAccess) as [[_ ?]|[E _]]; [done|congruence].
Qed.

(** The writer's promises, for users (and for the guest the code never lets write). *)
#[export] Instance writer_laws (Henforced : enforced principal = true) : PGrabLaws (DateTime := DateTime) (PWriteTxn T I).
Proof.
  refine {| pg_ok := own_buffer; pg_world := writer_world |}.
  - intros s p r s' Hs. cbn. unfold w_resolve. rewrite Henforced. intros [= <- <-]. split; [done|]. intros o. by apply w_resolve_walks.
  - intros s k r s' Hs [= <- <-]. split; [done|]. intros o. rewrite write_entry_blob_world by done. by intros [= <-].
  - intros s k r s' Hs E. by destruct (w_authorize_may _ _ _ _ Henforced E) as [-> Hm].
  - intros s k e r s' Hs He E. by destruct (w_verify_trusts _ _ _ _ _ He E) as [-> Hm].
  - intros s k r s' Hs [= <- <-]. split; [done|]. intros o. apply read_acl_list.
  - intros s k r s' Hs [= _ <-]. by apply (same_tables_world s).
Defined.
End writer.
