(* ===== verification/Versions.v ===== *)
(** * Snapshots, generations and the shared cache

    The protocol of [Table::read] and the end of [WriteTxn::commit] around the
    version lock of [db/inner.rs], as a transition system whose steps interleave
    freely: readers take the lock shared, then the engine snapshot, then the
    generation; a commit takes it exclusively, commits the engine and bumps the
    generation.  Open readers share one cache. *)
From S2P Require Import Prelude BTree Codec Key Dir Engine Path Ctx Tree Grab Cache.

Section versions.
Context {T : Type} `{KV T Z bytes}.
Context {P : Type} `{Lru P APath (Z * AKey)}.
Context {B : Type} `{Lru B (Z * AKey) bytes}.

(** Where a [Table::read] call is: holding the lock, with its snapshot, or
    returned. *)
Inductive reader :=
| RLocked
| RSnap (d : option T)
| ROpen (d : option T) (g : Z).

(** Where a commit is: none, holding the lock with the state to commit, or between
    the engine commit and the bump. *)
Inductive committer := WIdle | WLocked (d : option T) | WCommitted.

Record Db := mkDb {
  db_committed : option T;
  db_generation : Z;
  db_cache : PathCache P B;
  db_readers : gmap nat reader;
  db_writer : committer;
}.

Definition set_reader (i : nat) (r : reader) (s : Db) : Db :=
  mkDb (db_committed s) (db_generation s) (db_cache s) (<[i := r]> (db_readers s)) (db_writer s).
Definition set_cache (c : PathCache P B) (s : Db) : Db :=
  mkDb (db_committed s) (db_generation s) c (db_readers s) (db_writer s).
Definition set_writer (w : committer) (s : Db) : Db :=
  mkDb (db_committed s) (db_generation s) (db_cache s) (db_readers s) w.

Definition bump_generation (g : Z) : Z := as_u64 (g + 1).

Definition read_locked (r : reader) : bool := match r with ROpen _ _ => false | _ => true end.

(** One atomic action; the boolean marks the bump. *)
Inductive step : bool → Db → Db → Prop :=
| step_read_lock s i :
    db_readers s !! i = None → db_writer s = WIdle → step false s (set_reader i RLocked s)
| step_read_snapshot s i :
    db_readers s !! i = Some RLocked → step false s (set_reader i (RSnap (db_committed s)) s)
| step_read_generation s i d :
    db_readers s !! i = Some (RSnap d) → step false s (set_reader i (ROpen d (db_generation s)) s)
| step_resolve s i d g p :
    db_readers s !! i = Some (ROpen d g) →
    step false s (set_cache (rt_cache (read_resolve p (mkReadTxn d g (db_cache s))).2) s)
| step_entry_blob s i d g k :
    db_readers s !! i = Some (ROpen d g) →
    step false s (set_cache (rt_cache (read_entry_blob k (mkReadTxn d g (db_cache s))).2) s)
| step_close s i d g :
    db_readers s !! i = Some (ROpen d g) →
    step false s (mkDb (db_committed s) (db_generation s) (db_cache s) (delete i (db_readers s)) (db_writer s))
| step_commit_lock s d :
    db_writer s = WIdle → (∀ i r, db_readers s !! i = Some r → read_locked r = false) → table_ok d →
    step false s (set_writer (WLocked d) s)
| step_commit_engine s d :
    db_writer s = WLocked d →
    step false s (mkDb d (db_generation s) (db_cache s) (db_readers s) WCommitted)
| step_commit_fails s d :
    db_writer s = WLocked d → step false s (set_writer WIdle s)
| step_bump s :
    db_writer s = WCommitted →
    step true s (mkDb (db_committed s) (bump_generation (db_generation s)) (db_cache s) (db_readers s) WIdle).

Definition db_init (d : option T) : Db := mkDb d 0 PathCache_new ∅ WIdle.

(** States reached from a database that was just opened, with the number of commits
    so far. *)
Inductive run (d : option T) : Z → Db → Prop :=
| run_init : run d 0 (db_init d)
| run_step n s b s' : run d n s → step b s s' → run d (if b then n + 1 else n) s'.

Context `{!LruLaws P APath (Z * AKey), !LruLaws B (Z * AKey) bytes}.

(** Every generation names one committed state ([hist]), and the cache, the open
    readers and the engine agree with it. *)
Record coherent_db (hist : Z → option (option T)) (n : Z) (s : Db) : Prop := {
  c_gen : db_generation s = n;
  c_n : 0 ≤ n;
  c_hist_ok : ∀ g d, hist g = Some d → g ≤ n ∧ table_ok d;
  c_current : db_writer s ≠ WCommitted → hist n = Some (db_committed s);
  c_pending : match db_writer s with WLocked d => table_ok d | WCommitted => table_ok (db_committed s) | WIdle => True end;
  c_locked : ∀ i r, db_readers s !! i = Some r → read_locked r = true → db_writer s = WIdle;
  c_snap : ∀ i d, db_readers s !! i = Some (RSnap d) → d = db_committed s;
  c_open : ∀ i d g, db_readers s !! i = Some (ROpen d g) → hist g = Some d;
  c_paths : ∀ p g k, lru_find (paths (db_cache s)) p = Some (g, k) →
    ∃ d, hist g = Some d ∧ vresolve (table_view d) ROOT p = Some k;
  c_blobs : ∀ g k b, lru_find (blobs (db_cache s)) (g, k) = Some b →
    ∃ d, hist g = Some d ∧ table_get d k = Some b;
}.

Lemma coherent_reader hist n s i d g :
  coherent_db hist n s → db_readers s !! i = Some (ROpen d g) → read_ok (mkReadTxn d g (db_cache s)).
Proof.
  intros Hc Hi. pose proof (c_open _ _ _ Hc i d g Hi) as Hg. split; [by apply (c_hist_ok _ _ _ Hc g)|].
  split; cbn.
  - intros p k (d' & Hd & Hv)%(c_paths _ _ _ Hc). congruence.
  - intros k b (d' & Hd & Hv)%(c_blobs _ _ _ Hc). assert (d' = d) as -> by congruence. done.
Qed.

(** A read keeps the cache coherent with the history. *)
Lemma coherent_read hist n s i d g r' :
  coherent_db hist n s → db_readers s !! i = Some (ROpen d g) →
  read_steps (mkReadTxn d g (db_cache s)) r' → coherent_db hist n (set_cache (rt_cache r') s).
Proof.
  intros Hc Hi (Hd & Hg & [_ [Hp Hb]] & Hgp & Hgb). cbn in *. rewrite Hd, Hg in *.
  pose proof (c_open _ _ _ Hc i d g Hi) as Hh. destruct Hc. split; try done; cbn.
  - intros p g' k Hf. destruct (decide (g' = g)) as [->|Hne]; [exists d; auto|]. by eapply c_paths0, Hgp.
  - intros g' k b Hf. destruct (decide (g' = g)) as [->|Hne]; [exists d; auto|]. by eapply c_blobs0, Hgb.
Qed.

Lemma step_coherent hist n s b s' :
  coherent_db hist n s → step b s s' → (if b then n + 1 else n) < 2 ^ 64 →
  ∃ hist', coherent_db hist' (if b then n + 1 else n) s'.
Proof.
  intros Hc Hs Hn. destruct Hs as [s i Hi Hw|s i Hi|s i d Hi|s i d g p Hi|s i d g k Hi|s i d g Hi|s d Hw Hl Hd|s d Hw|s d Hw|s Hw].
  - exists hist. destruct Hc. split; try done; cbn.
    + intros j d. rewrite lookup_insert_Some. intros [[<- [=]]|[_ Hj]]. by eapply c_snap0.
    + intros j d g. rewrite lookup_insert_Some. intros [[<- [=]]|[_ Hj]]. by eapply c_open0.
  - exists hist. destruct Hc. split; try done; cbn.
    + intros j r. rewrite lookup_insert_Some. intros [[<- <-]|[_ Hj]] Hr; [by eapply c_locked0|by eapply c_locked0].
    + intros j d. rewrite lookup_insert_Some. intros [[<- [= <-]]|[_ Hj]]; [done|]. by eapply c_snap0.
    + intros j d g. rewrite lookup_insert_Some. intros [[<- [=]]|[_ Hj]]. by eapply c_open0.
  - exists hist. destruct Hc. split; try done; cbn.
    + intros j r. rewrite lookup_insert_Some. intros [[<- <-]|[_ Hj]] Hr; [done|by eapply c_locked0].
    + intros j d'. rewrite lookup_insert_Some. intros [[<- [=]]|[_ Hj]]. by eapply c_snap0.
    + intros j d' g. rewrite lookup_insert_Some. intros [[<- [= <- <-]]|[_ Hj]]; [|by eapply c_open0].
      rewrite c_gen0, (c_snap0 _ _ Hi). apply c_current0. by rewrite (c_locked0 _ _ Hi eq_refl).
  - exists hist. destruct (read_resolve_spec _ p (coherent_reader _ _ _ _ _ _ Hc Hi)) as (r' & E & Hr).
    rewrite E. cbn [snd]. by eapply coherent_read.
  - exists hist. destruct (read_entry_blob_spec _ k (coherent_reader _ _ _ _ _ _ Hc Hi)) as (r' & E & Hr).
    rewrite E. cbn [snd]. by eapply coherent_read.
  - exists hist. destruct Hc. split; try done; cbn.
    + intros j r. rewrite lookup_delete_Some. intros [_ Hj]. by eapply c_locked0.
    + intros j d'. rewrite lookup_delete_Some. intros [_ Hj]. by eapply c_snap0.
    + intros j d' g'. rewrite lookup_delete_Some. intros [_ Hj]. by eapply c_open0.
  - exists hist. destruct Hc. split; try done; cbn.
    + intros _. apply c_current0. by rewrite Hw.
    + intros i r Hi Hr. by rewrite (Hl i r Hi) in Hr.
  - exists hist. destruct Hc. rewrite Hw in *. split; try done; cbn.
    + intros i r Hi Hr. by specialize (c_locked0 i r Hi Hr).
    + intros i d' Hi. by specialize (c_locked0 i _ Hi eq_refl).
  - exists hist. destruct Hc. rewrite Hw in *. split; try done; cbn; auto.
  - exists (λ g, if decide (g = n + 1) then Some (db_committed s) else hist g).
    destruct Hc. rewrite Hw in *.
    assert (∀ g d, hist g = Some d → (if decide (g = n + 1) then Some (db_committed s) else hist g) = Some d) as Hmono.
    { intros g d Hg. rewrite decide_False; [done|]. apply c_hist_ok0 in Hg. lia. }
    split; cbn; try done.
    + unfold bump_generation, as_u64. rewrite c_gen0. apply Z.mod_small. lia.
    + lia.
    + intros g d. case_decide; [intros [= <-]; split; [lia|done]|]. intros [? ?]%c_hist_ok0. split; [lia|done].
    + intros _. by rewrite decide_True.
    + intros i d g Hi. apply Hmono. by eapply c_open0.
    + intros p g k (d & Hd & Hv)%c_paths0. eauto.
    + intros g k b (d & Hd & Hv)%c_blobs0. eauto.
Qed.

Lemma run_bound d n s : run d n s → 0 ≤ n.
Proof. induction 1; [done|]. destruct b; lia. Qed.

Lemma run_coherent d n s : table_ok d → run d n s → n < 2 ^ 64 → ∃ hist, coherent_db hist n s.
Proof.
  intros Hd. induction 1 as [|n s b s' Hr IH Hs]; intros Hn.
  - exists (λ g, if decide (g = 0) then Some d else None). split; cbn; try done.
    + intros g d'. case_decide; [|done]. intros [= <-]. split; [lia|done].
    + intros p g k. by rewrite lru_find_new.
    + intros g k b. by rewrite lru_find_new.
  - destruct IH as [hist Hc]; [destruct b; lia|]. by eapply step_coherent.
Qed.

(** C17: Readers never mix versions. However reads, commits and cache fills of any
    number of transactions interleave (up to 2^64 commits), an open read
    transaction resolves every path and fetches every entry exactly as its own
    snapshot has them, whatever the shared cache holds. *)
Theorem readers_see_their_snapshot d0 n s i d g :
  table_ok d0 → run d0 n s → n < 2 ^ 64 → db_readers s !! i = Some (ROpen d g) →
  (∀ p, (read_resolve p (mkReadTxn d g (db_cache s))).1 = Ok (vresolve (table_view d) ROOT p)) ∧
  (∀ k, (read_entry_blob k (mkReadTxn d g (db_cache s))).1 = Ok (table_get d k)).
Proof.
  intros Hd Hr Hn Hi. destruct (run_coherent d0 n s Hd Hr Hn) as [hist Hc].
  pose proof (coherent_reader _ _ _ _ _ _ Hc Hi) as Hok. split.
  - intros p. by destruct (read_resolve_spec _ p Hok) as (r' & -> & _).
  - intros k. by destruct (read_entry_blob_spec _ k Hok) as (r' & -> & _).
Qed.

(** ** Every call that has begun can finish *)

(** A step of a read or a commit that has begun and not returned. *)
Inductive finishing : Db → Db → Prop :=
| fin_snapshot s i :
    db_readers s !! i = Some RLocked → finishing s (set_reader i (RSnap (db_committed s)) s)
| fin_generation s i d :
    db_readers s !! i = Some (RSnap d) → finishing s (set_reader i (ROpen d (db_generation s)) s)
| fin_commit s d :
    db_writer s = WLocked d → finishing s (mkDb d (db_generation s) (db_cache s) (db_readers s) WCommitted)
| fin_commit_fails s d :
    db_writer s = WLocked d → finishing s (set_writer WIdle s)
| fin_bump s :
    db_writer s = WCommitted → finishing s (mkDb (db_committed s) (bump_generation (db_generation s)) (db_cache s) (db_readers s) WIdle).

Lemma finishing_step s s' : finishing s s' → ∃ b, step b s s'.
Proof. destruct 1; eexists; econstructor; done. Qed.

(** The steps a call still has to take. *)
Definition reader_left (r : reader) : nat := match r with RLocked => 2 | RSnap _ => 1 | ROpen _ _ => 0 end.
Definition writer_left (w : committer) : nat := match w with WLocked _ => 2 | WCommitted => 1 | WIdle => 0 end.
Definition readers_left (m : gmap nat reader) : nat := map_fold (λ _ r n, reader_left r + n)%nat 0%nat m.
Definition steps_left s : nat := (readers_left (db_readers s) + writer_left (db_writer s))%nat.

Lemma readers_left_delete m i r : m !! i = Some r → readers_left m = (reader_left r + readers_left (delete i m))%nat.
Proof. intros Hi. unfold readers_left. rewrite (map_fold_delete_L _ _ i r m); [done| |done]. intros. lia. Qed.

Lemma readers_left_insert m i r r' : m !! i = Some r →
  (readers_left (<[i := r']> m) + reader_left r = readers_left m + reader_left r')%nat.
Proof.
  intros Hi. rewrite (readers_left_delete m i r Hi), (readers_left_delete (<[i := r']> m) i r') by apply lookup_insert_eq.
  rewrite delete_insert_eq. lia.
Qed.

Lemma finishing_left s s' : finishing s s' → (steps_left s' < steps_left s)%nat.
Proof.
  destruct 1 as [s i Hi|s i d Hi|s d Hw|s d Hw|s Hw]; unfold steps_left; cbn [db_readers db_writer set_reader set_writer].
  - pose proof (readers_left_insert _ i _ (RSnap (db_committed s)) Hi). cbn in *. lia.
  - pose proof (readers_left_insert _ i _ (ROpen d (db_generation s)) Hi). cbn in *. lia.
  - rewrite Hw. cbn. lia.
  - rewrite Hw. cbn. lia.
  - rewrite Hw. cbn. lia.
Qed.

Lemma readers_left_zero m : readers_left m = 0%nat ↔ ∀ i r, m !! i = Some r → read_locked r = false.
Proof.
  split.
  - intros Hz i r Hi. rewrite (readers_left_delete m i r Hi) in Hz. destruct r; cbn in *; done || lia.
  - induction m as [|i r m Hi Hf IH] using map_first_key_ind; intros Hm; [done|].
    rewrite (readers_left_delete (<[i := r]> m) i r) by apply lookup_insert_eq. rewrite delete_insert_id by done. rewrite IH.
    + specialize (Hm i r (lookup_insert_eq _ _ _)). destruct r; done.
    + intros j r' Hj. apply (Hm j r'). rewrite lookup_insert_ne; [done|]. by intros ->; congruence.
Qed.

Lemma finishing_enabled s : steps_left s ≠ 0%nat → ∃ s', finishing s s'.
Proof.
  intros Hn. destruct (db_writer s) as [|d|] eqn:Hw; [|by eexists; econstructor..].
  assert (readers_left (db_readers s) ≠ 0%nat) as Hr by (unfold steps_left in Hn; rewrite Hw in Hn; cbn in Hn; lia).
  destruct (decide (map_Forall (λ _ r, read_locked r = false) (db_readers s))) as [Hall|Hex].
  { destruct Hr. by apply readers_left_zero. }
  apply map_not_Forall in Hex as (i & r & Hi & Hl); [|apply _]. destruct r as [|d|d g]; [by eexists; econstructor..|done].
Qed.

End versions.
