(* ===== verification/Database.v ===== *)
(** * The database handle

    [db/database.rs], [db/inner.rs] and the transaction starts of [table.rs]: the shared
    state behind every handle, opening and promoting a database, the identity a handle
    acts as, the administrative calls and who may make them, and how a transaction
    begins on the shared state and commits to it. *)
From S2P Require Import Prelude Hoare BTree Codec Ext Scalar Ordered Path IndexDef Value Archived Access Key Dir Engine Acl Integrity Inode PermStore PermSpec PermAuth Registry WriteBuffer Ctx Fs Tree Grab Write Cache Protected ProtectedRead ProtectedTxn ProtectedWrite Versions.

(** [constants.rs]: a name that starts with ['$']. *)
Definition is_reserved_table_name (name : bytes) : bool := match name with c :: _ => c =? 36 | [] => false end.

(** ** The shared state *)

Section inner.
Context {T M I P B V : Type}.

(** One table's shared caches ([cache.rs], all of it). *)
Record TableCache := mkTableCache { tc_paths : PathCache P B; tc_inodes : B; tc_macs : V }.

(** What the engine holds (the user tables by name, [$metadata], [$inodes]; [None]: not
    created yet) and what the process keeps beside it. *)
Record DbInner := mkInner {
  di_tables : gmap bytes T;
  di_meta : M;
  di_inodes : option I;
  di_generation : Z;
  di_caches : gmap bytes TableCache;
  di_has_indexes : bool;
  di_access_log : AccessLog;
}.
Implicit Types (s : DbInner).

Definition set_tables (ts : gmap bytes T) s : DbInner :=
  mkInner ts (di_meta s) (di_inodes s) (di_generation s) (di_caches s) (di_has_indexes s) (di_access_log s).
Definition set_meta (meta : M) s : DbInner :=
  mkInner (di_tables s) meta (di_inodes s) (di_generation s) (di_caches s) (di_has_indexes s) (di_access_log s).
Definition set_inodes (i : option I) s : DbInner :=
  mkInner (di_tables s) (di_meta s) i (di_generation s) (di_caches s) (di_has_indexes s) (di_access_log s).
Definition set_caches (c : gmap bytes TableCache) s : DbInner :=
  mkInner (di_tables s) (di_meta s) (di_inodes s) (di_generation s) c (di_has_indexes s) (di_access_log s).
Definition set_access_log (log : AccessLog) s : DbInner :=
  mkInner (di_tables s) (di_meta s) (di_inodes s) (di_generation s) (di_caches s) (di_has_indexes s) log.

(** [DbInner::bump_generation]. *)
Definition db_bump_generation s : DbInner :=
  mkInner (di_tables s) (di_meta s) (di_inodes s) (bump_generation (di_generation s)) (di_caches s) (di_has_indexes s) (di_access_log s).

Definition has_any_index s : bool := di_has_indexes s.

(** [DbInner::new]. *)
Definition DbInner_new (ts : gmap bytes T) (meta : M) (i : option I) (has_indexes : bool) : DbInner :=
  mkInner ts meta i 0 ∅ has_indexes ∅.
End inner.
Arguments TableCache : clear implicits.
Arguments DbInner : clear implicits.

(** A handle: the shared state is the state of the calls, the identity its own.  Clones
    share both. *)
Record ArborDb := mkArborDb { principal : Principal }.

(** [Table]: a name and the identity of the handle that opened it; its caches are found
    in the shared state by its name. *)
Record Table := mkTable { t_name : bytes; t_principal : Principal }.

Definition admin_denied : AdbError := PermissionDenied "administration requires the master user or a master-group member".
Definition list_denied : AdbError := PermissionDenied "listing users and groups requires an administrator or a super-group member".

(** ** The identity of a handle *)

Definition is_readonly (db : ArborDb) : bool := match principal db with Guest _ => true | _ => false end.

Definition current_user (db : ArborDb) : option bytes :=
  match principal db with Unrestricted => None | Guest _ => Some GUEST_USER | User session => Some (s_name session) end.

Definition admin_key (db : ArborDb) : res bytes :=
  match principal db with
  | User session => if is_master session || in_master_group session then Ok (s_key session) else Err admin_denied
  | _ => Err admin_denied
  end.

Definition admin_creds (db : ArborDb) : res (bytes * bytes) :=
  match principal db with
  | User session => if is_master session || in_master_group session then Ok (s_key session, s_sign_seed session) else Err admin_denied
  | _ => Err admin_denied
  end.

Definition require_lister (db : ArborDb) : res unit :=
  match principal db with
  | User session => if is_master session || in_master_group session || in_super_group session then Ok tt else Err list_denied
  | _ => Err list_denied
  end.

Definition with_pubkey (db : ArborDb) (pubkey : bytes) : res ArborDb :=
  match principal db with
  | Guest _ => Ok (mkArborDb (Guest pubkey))
  | User _ => Err (PermissionDenied "an authenticated handle already verifies via its own key; pin only on a guest handle")
  | Unrestricted => Err NoPermissions
  end.

Definition open_table_name (db : ArborDb) (name : bytes) : res Table :=
  if bool_decide (name = []) then Err (InvalidTableName "a table name cannot be empty")
  else if is_reserved_table_name name then Err (InvalidTableName "'{name}' is reserved (a table name cannot start with '$')")
  else Ok (mkTable name (principal db)).

(** ** The calls of a handle *)

Section calls.
Context `{Ext} `{Crypto} {T : Type} `{KV T Z bytes} {M : Type} `{KV M bytes bytes} {I : Type} `{OrdKV I}.
Context {P : Type} `{Lru P APath (Z * AKey)} {B : Type} `{Lru B (Z * AKey) bytes} {V : Type} `{Lru V (Z * AKey) unit}.

(** The engine: tables it creates when a write transaction first opens them, the names
    of every table of the file, and the rows of a table. *)
Context (new_data : T) (new_inodes : I) (engine_tables : gmap bytes T → list bytes) (rows : T → list (AKey * bytes)).
Context (build : Build) (now : Z) (fuel : nat).
Context (order_dirs : gmap Z Children → list (Z * Children)) (order_files : gmap Z bytes → list (Z * bytes)).
Context (order_log : AccessLog → list ((bytes * Z) * Z)).
Abbreviation Inner := (DbInner T M I P B V) (only parsing).
Abbreviation DM := (SM Inner) (only parsing).
Implicit Types (s : DbInner T M I P B V).

(** One engine transaction over the metadata, committed when [f] succeeds. *)
Definition commit_meta (f : M → res M) : DM unit := λ s,
  match f (di_meta s) with
  | Ok meta => (Ok tt, set_meta meta s)
  | Err e => (Err e, s)
  | Panic => (Panic, s)
  | OutOfFuel => (OutOfFuel, s)
  end.

Definition read_only {A} (f : M → res A) : DM A := asks (λ s, f (di_meta s)).

Definition inodes_of s : I := default new_inodes (di_inodes s).

Definition user_tables s : list bytes := List.filter (λ name, negb (is_reserved_table_name name)) (engine_tables (di_tables s)).

(** *** Opening *)

(** [wrap], over what the file holds. *)
Definition wrap (ts : gmap bytes T) (meta : M) (i : option I) : res (ArborDb * Inner) :=
  let? meta := bootstrap_metadata build meta in
  let? has_indexes := registry_any meta in
  let? protected := is_protected meta in
  let? principal := if (protected : bool) then let? pubkey := load_pubkey meta in Ok (Guest pubkey) else Ok Unrestricted in
  Ok (mkArborDb principal, DbInner_new ts meta i has_indexes).

Definition db_is_protected : DM bool := read_only is_protected.

Definition pubkey : DM bytes :=
  let! protected := db_is_protected in
  if (protected : bool) then read_only load_pubkey else serr NoPermissions.

Definition with_authentication (db : ArborDb) (user password : bytes) : DM ArborDb :=
  match principal db with
  | Unrestricted => serr NoPermissions
  | _ =>
      let! session := read_only (λ meta, authenticate meta user password) in
      sret (mkArborDb (User session))
  end.

(** The draws of [promote_to_master]: key, signing seed, salt and nonce. *)
Record Entropy := mkEntropy { en_key : option bytes; en_seed : option bytes; en_salt : option bytes; en_nonce : option bytes }.

(** [perm::store::promote_to_master] on the whole database. *)
Definition promote (en : Entropy) (new_password : bytes) : DM Session := λ s,
  match promote_to_master (en_key en) (en_seed en) (en_salt en) (en_nonce en) new_password
          (map (λ name, (name, rows (default new_data (di_tables s !! name)))) (user_tables s)) (di_meta s) (inodes_of s) with
  | Ok (session, (meta, i)) => (Ok session, set_inodes (Some i) (set_meta meta s))
  | Err e => (Err e, s)
  | Panic => (Panic, s)
  | OutOfFuel => (OutOfFuel, s)
  end.

Definition change_password (db : ArborDb) (en : Entropy) (new_password : bytes) : DM ArborDb :=
  match principal db with
  | Guest _ => serr (PermissionDenied "the guest user has no password to change")
  | Unrestricted =>
      let! session := promote en new_password in
      sret (mkArborDb (User session))
  | User session =>
      let! _ := commit_meta (change_user_password session (en_salt en) (en_nonce en) new_password) in
      sret db
  end.

(** *** Tables *)

(** [DbInner::cache]: created on first use. *)
Definition db_cache_of (name : bytes) : DM (TableCache P B V) := λ s,
  match di_caches s !! name with
  | Some c => (Ok c, s)
  | None =>
      let c := mkTableCache PathCache_new (lru_new INODE_CAPACITY) (lru_new INODE_CAPACITY) in
      (Ok c, set_caches (<[name := c]> (di_caches s)) s)
  end.

Definition open_table (db : ArborDb) (name : bytes) : DM Table :=
  let! t := asks (λ _, open_table_name db name) in
  let! _ := db_cache_of name in
  sret t.

Definition list_tables : DM (list bytes) := asks (λ s, Ok (sort_names (user_tables s))).

Definition flush_access_times : DM unit := λ s,
  let '(batch, log) := drain_access_log order_log (di_access_log s) in
  let s := set_access_log log s in
  match batch with
  | [] => (Ok tt, s)
  | _ =>
      match persist_access batch (inodes_of s) with
      | (Ok _, i) => (Ok tt, db_bump_generation (set_inodes (Some i) s))
      | (Err e, _) => (Err e, s)
      | (Panic, _) => (Panic, s)
      | (OutOfFuel, _) => (OutOfFuel, s)
      end
  end.

(** *** Administration *)

Definition db_add_user (db : ArborDb) (salt nonce : option bytes) (name password : bytes) (create_group : bool) : DM unit :=
  let! '(key, seed) := asks (λ _, admin_creds db) in
  commit_meta (add_user key seed salt nonce name password create_group).

Definition db_add_group (db : ArborDb) (name : bytes) : DM unit :=
  let! key := asks (λ _, admin_key db) in commit_meta (add_group key name).

Definition db_rename_user (db : ArborDb) (old new : bytes) : DM unit :=
  let! key := asks (λ _, admin_key db) in commit_meta (rename_user key old new).

Definition db_rename_group (db : ArborDb) (old new : bytes) : DM unit :=
  let! key := asks (λ _, admin_key db) in commit_meta (rename_group key old new).

Definition assign_user_to_group (db : ArborDb) (user group : bytes) : DM unit :=
  let! key := asks (λ _, admin_key db) in commit_meta (assign key user group).

Definition remove_user_from_group (db : ArborDb) (user group : bytes) : DM unit :=
  let! key := asks (λ _, admin_key db) in commit_meta (unassign key user group).

Definition db_list_users (db : ArborDb) : DM (list bytes) :=
  let! _ := asks (λ _, require_lister db) in read_only list_users.

Definition db_list_groups (db : ArborDb) : DM (list bytes) :=
  let! _ := asks (λ _, require_lister db) in read_only list_groups.

Definition db_user_groups (db : ArborDb) (user : bytes) : DM (list bytes) :=
  let! _ := asks (λ _, require_lister db) in read_only (λ meta, user_groups meta user).

Definition db_group_members (db : ArborDb) (group : bytes) : DM (list bytes) :=
  let! _ := asks (λ _, require_lister db) in read_only (λ meta, group_members meta group).

Definition db_remove_group (db : ArborDb) (name : bytes) : DM unit :=
  let! key := asks (λ _, admin_key db) in
  λ s,
    match remove_group key name (di_meta s) (inodes_of s) with
    | Ok (meta, i) => (Ok tt, set_inodes (Some i) (set_meta meta s))
    | Err e => (Err e, s)
    | Panic => (Panic, s)
    | OutOfFuel => (OutOfFuel, s)
    end.

(** The sweep of [remove_user]: every user table in turn, within one transaction. *)
Fixpoint reap_tables (db : ArborDb) (uid rng : Z) (names : list bytes) (ts : gmap bytes T) (i : I) : res (gmap bytes T * I) :=
  match names with
  | [] => Ok (ts, i)
  | name :: names =>
      match reap_owned_in name (principal db) now fuel uid (default new_data (ts !! name)) i rng with
      | (Ok _, c) => reap_tables db uid (Ctx.rng (p_ctx c)) names (<[name := data (p_ctx c)]> ts) (p_inodes c)
      | (Err e, _) => Err e
      | (Panic, _) => Panic
      | (OutOfFuel, _) => OutOfFuel
      end
  end.

Definition remove_user (db : ArborDb) (rng : Z) (name : bytes) : DM unit :=
  let! key := asks (λ _, admin_key db) in
  let! uid := read_only (λ meta, let? uid := uid_of meta name in ok_or uid (CannotAccess "no user named '{name}'")) in
  if (uid =? MASTER_UID) || (uid =? GUEST_UID) then serr (PermissionDenied "the built-in user '{name}' cannot be removed")
  else λ s,
    match (let? '(ts, i) := reap_tables db uid rng (user_tables s) (di_tables s) (inodes_of s) in
           let? meta := forget_user key uid (di_meta s) in Ok (ts, i, meta)) with
    | Ok (ts, i, meta) => (Ok tt, db_bump_generation (set_tables ts (set_meta meta (set_inodes (Some i) s))))
    | Err e => (Err e, s)
    | Panic => (Panic, s)
    | OutOfFuel => (OutOfFuel, s)
    end.

(** *** Transactions *)

(** [Table::read], a whole snapshot [m] and its drop: the caches are the shared ones of
    the table, the accesses it buffered go to the log. *)
Definition with_read {A} (t : Table) (order : gmap Z Z → list (AKey * Z)) (m : SM (PReadTxn (T := T) (I := I) (P := P) (B := B) (V := V)) A) : DM A :=
  let! c := db_cache_of (t_name t) in
  λ s,
    let base := mkReadTxn (di_tables s !! t_name t) (di_generation s) (tc_paths c) in
    let '(r, x) := m (PReadTxn_new base (di_inodes s) (tc_inodes c) (tc_macs c)) in
    let s := set_caches (<[t_name t := mkTableCache (rt_cache (pr_base x)) (pr_inode_cache x) (pr_macs x)]> (di_caches s)) s in
    (r, set_access_log (PReadTxn_drop (t_name t) order x (di_access_log s)) s).

(** [Table::write]. *)
Definition write_begin (t : Table) (rng : Z) : DM (PWriteTxn T I) :=
  match t_principal t with
  | Guest _ => serr (PermissionDenied "the guest user is read-only")
  | _ => asks (λ s, Ok (PWriteTxn_new (default new_data (di_tables s !! t_name t)) (inodes_of s) rng (di_access_log s) (has_any_index s)))
  end.

(** [WriteTxn::commit]; [opened]: some call of the transaction opened the data table,
    which creates it. *)
Definition write_commit (t : Table) (opened : bool) (w : PWriteTxn T I) : DM unit := λ s,
  match w_commit (t_name t) (t_principal t) now order_dirs order_files order_log w with
  | (Ok _, w) =>
      let ts := if opened then <[t_name t := data (pw_ctx w)]> (di_tables s) else di_tables s in
      (Ok tt, db_bump_generation (set_access_log (pw_log w) (set_inodes (Some (pw_inodes w)) (set_tables ts s))))
  | (Err e, w) => (Err e, set_access_log (pw_log w) s)
  | (Panic, w) => (Panic, set_access_log (pw_log w) s)
  | (OutOfFuel, w) => (OutOfFuel, set_access_log (pw_log w) s)
  end.

(** A whole transaction: it begins, its calls [m] run, and it commits.  Dropping it
    without a commit leaves the accesses its reads logged. *)
Definition with_write {A} (t : Table) (rng : Z) (opened : bool) (m : SM (PWriteTxn T I) A) : DM A :=
  let! w := write_begin t rng in
  λ s,
    match m w with
    | (Ok a, w) => (let! _ := write_commit t opened w in sret a) (set_access_log (pw_log w) s)
    | (Err e, w) => (Err e, set_access_log (pw_log w) s)
    | (Panic, w) => (Panic, set_access_log (pw_log w) s)
    | (OutOfFuel, w) => (OutOfFuel, set_access_log (pw_log w) s)
    end.
End calls.

(** ** The calls that administer, as one machine *)

Inductive db_call :=
| CAddUser (salt nonce : option bytes) (name password : bytes) (create_group : bool)
| CAddGroup (name : bytes)
| CRenameUser (old new : bytes)
| CRenameGroup (old new : bytes)
| CAssign (user group : bytes)
| CUnassign (user group : bytes)
| CRemoveGroup (name : bytes)
| CRemoveUser (rng : Z) (name : bytes)
| CChangePassword (en : Entropy) (new_password : bytes)
| CFlush.

(** Every call but a change of one's own password and the flush of access times. *)
Definition administers (c : db_call) : bool := match c with CChangePassword _ _ | CFlush => false | _ => true end.

Definition may_administer (p : Principal) : bool :=
  match p with User session => is_master session || in_master_group session | _ => false end.

Section machine.
Context `{Ext} `{Crypto} {T : Type} `{KV T Z bytes} {M : Type} `{KV M bytes bytes} {I : Type} `{OrdKV I}.
Context {P : Type} `{Lru P APath (Z * AKey)} {B : Type} `{Lru B (Z * AKey) bytes} {V : Type} `{Lru V (Z * AKey) unit}.
Context (new_data : T) (new_inodes : I) (engine_tables : gmap bytes T → list bytes) (rows : T → list (AKey * bytes)).
Context (now : Z) (fuel : nat).
Context (order_dirs : gmap Z Children → list (Z * Children)) (order_files : gmap Z bytes → list (Z * bytes)).
Context (order_log : AccessLog → list ((bytes * Z) * Z)).
Implicit Types (s : DbInner T M I P B V).

Definition perform (db : ArborDb) (c : db_call) : SM (DbInner T M I P B V) unit :=
  match c with
  | CAddUser salt nonce name password create_group => db_add_user db salt nonce name password create_group
  | CAddGroup name => db_add_group db name
  | CRenameUser old new => db_rename_user db old new
  | CRenameGroup old new => db_rename_group db old new
  | CAssign user group => assign_user_to_group db user group
  | CUnassign user group => remove_user_from_group db user group
  | CRemoveGroup name => db_remove_group new_inodes db name
  | CRemoveUser rng name => remove_user new_data new_inodes engine_tables now fuel db rng name
  | CChangePassword en new_password => let! _ := change_password new_data new_inodes engine_tables rows db en new_password in sret tt
  | CFlush => flush_access_times new_inodes order_log
  end.
End machine.

(** ** What a call leaves alone *)

Section frames.
Context `{Crypto} {M : Type} `{KV M bytes bytes} `{!KVLaws M bytes bytes}.
Implicit Types (meta : M) (key : bytes).

(** The metadata entries of the permission store a call rewrites. *)
Definition store_keys : list bytes := [META_USERS_KEY; META_GROUPS_KEY; META_EPOCH_KEY; META_CONTROL_MAC_KEY].

Definition store_only (f : M → res M) : Prop :=
  ∀ meta meta', f meta = Ok meta' → ∀ k, k ∉ store_keys → kv_get meta' k = kv_get meta k.

Lemma store_only_same meta meta1 meta' : (∀ k, k ∉ store_keys → kv_get meta1 k = kv_get meta k) →
  (∀ k, k ∉ store_keys → kv_get meta' k = kv_get meta1 k) → ∀ k, k ∉ store_keys → kv_get meta' k = kv_get meta k.
Proof. intros H1 H2 k Hk. by rewrite H2, H1. Qed.

Lemma insert_store meta k v : k ∈ store_keys → ∀ j, j ∉ store_keys → kv_get (kv_insert meta k v) j = kv_get meta j.
Proof. intros Hk j Hj. rewrite kv_insert_ne; [done|]. by intros ->. Qed.

Lemma seal_control_only key : store_only (seal_control key).
Proof.
  intros meta meta' (e & _ & (tag & _ & [= <-])%rbind_Ok)%rbind_Ok k Hk.
  rewrite !insert_store; [done|by repeat constructor|done|by repeat constructor|done].
Qed.

Lemma users_only us meta k : k ∉ store_keys → kv_get (Users_store us meta) k = kv_get meta k.
Proof. intros Hk. by apply insert_store; [repeat constructor|]. Qed.

Lemma groups_only gs meta k : k ∉ store_keys → kv_get (Groups_store gs meta) k = kv_get meta k.
Proof. intros Hk. by apply insert_store; [repeat constructor|]. Qed.

Lemma new_group_only name meta gid meta' : new_group name meta = Ok (gid, meta') →
  ∀ k, k ∉ store_keys → kv_get meta' k = kv_get meta k.
Proof. intros (gs & _ & E)%rbind_Ok k Hk. destruct (existsb _ _); [done|]. injection E as _ <-. by apply groups_only. Qed.

Lemma sealed_users_only key us meta meta' : seal_control key (Users_store us meta) = Ok meta' →
  ∀ k, k ∉ store_keys → kv_get meta' k = kv_get meta k.
Proof. intros E k Hk. by rewrite (seal_control_only key _ _ E), users_only. Qed.

Lemma sealed_groups_only key gs meta meta' : seal_control key (Groups_store gs meta) = Ok meta' →
  ∀ k, k ∉ store_keys → kv_get meta' k = kv_get meta k.
Proof. intros E k Hk. by rewrite (seal_control_only key _ _ E), groups_only. Qed.

(** Peel a call down to its final write. *)
Local Ltac peel := repeat
  match goal with
  | E : rbind _ _ = Ok _ |- _ => apply rbind_Ok in E as (? & ? & E)
  | E : (let '(_, _) := ?x in _) = Ok _ |- _ => destruct x
  | E : (if ?b then _ else _) = Ok _ |- _ => destruct b; try done
  end.

Lemma remove_group_only key name meta gid meta' : remove_group_meta key name meta = Ok (gid, meta') →
  ∀ k, k ∉ store_keys → kv_get meta' k = kv_get meta k.
Proof. unfold remove_group_meta. intros E k Hk. peel. injection E as _ <-. erewrite sealed_groups_only by done. by apply users_only. Qed.

Lemma run_admin_only key op : store_only (run_admin key op).
Proof.
  intros meta meta' E k Hk.
  destruct op as [seed salt nonce name pw cg|name|old new|old new|user group|user group|name|uid|s salt nonce pw]; cbn [run_admin] in E.
  - unfold add_user in E. peel; erewrite sealed_users_only by done; [|by match goal with E : Ok _ = Ok _ |- _ => injection E as _ <- end].
    peel. match goal with E : Ok _ = Ok _ |- _ => injection E as _ <- end. by eapply new_group_only.
  - unfold add_group in E. peel. rewrite (seal_control_only key _ _ E) by done. by eapply new_group_only.
  - unfold rename_user in E. peel. by eapply sealed_users_only.
  - unfold rename_group in E. peel. by eapply sealed_groups_only.
  - unfold assign in E. peel; [by injection E as <-|]. by eapply sealed_users_only.
  - unfold unassign in E. peel; [by eapply sealed_users_only|by injection E as <-].
  - peel. injection E as <-. by eapply remove_group_only.
  - unfold forget_user in E. peel. by eapply sealed_users_only.
  - unfold change_user_password in E. peel. by eapply sealed_users_only.
Qed.
End frames.

(** ** The directory under the calls of handles *)

Definition allowed (p : Principal) (op : AdminOp) : Prop :=
  match op, p with
  | ChangePassword session _ _ _, User session' => session = session'
  | ChangePassword _ _ _ _, _ => False
  | _, _ => may_administer p = true
  end.

Section simulation.
Context `{Ext} `{Crypto} `{!CryptoLaws} {T : Type} `{KV T Z bytes} {M : Type} `{KV M bytes bytes} `{!KVLaws M bytes bytes}.
Context {I : Type} `{OrdKV I} `{!OrdKVLaws I}.
Context {P : Type} `{Lru P APath (Z * AKey)} {B : Type} `{Lru B (Z * AKey) bytes} {V : Type} `{Lru V (Z * AKey) unit}.
Context (new_data : T) (new_inodes : I) (engine_tables : gmap bytes T → list bytes) (rows : T → list (AKey * bytes)).
Context (now : Z) (fuel : nat).
Context (order_dirs : gmap Z Children → list (Z * Children)) (order_files : gmap Z bytes → list (Z * bytes)).
Context (order_log : AccessLog → list ((bytes * Z) * Z)).
Context (key pub : bytes).
Implicit Types (s : DbInner T M I P B V) (p : Principal).
Local Notation act := (perform new_data new_inodes engine_tables rows now fuel order_log).

Definition directory_step p (D D' : Directory) : Prop := D' = D ∨ ∃ op, allowed p op ∧ a_admin key op D = Ok D'.

(** A protected database: sealed under [key], [pub] stored beside the directory [D]. *)
Definition protected_db (D : Directory) s : Prop :=
  ∃ us gs, holds_store (di_meta s) key us gs ∧ dir_of us gs = D ∧ is_protected (di_meta s) = Ok true ∧ load_pubkey (di_meta s) = Ok pub.

(** Names and keyrings of the types the API gives them. *)
Definition call_ok (c : db_call) : Prop :=
  match c with
  | CAddUser salt nonce name pw _ => string_ok name ∧ ∀ seed k, wrap_secrets salt nonce pw key seed = Ok k → keyring_wf k
  | CAddGroup name => string_ok name
  | CRenameUser _ new | CRenameGroup _ new => string_ok new
  | CChangePassword en pw => ∀ seed k, wrap_secrets (en_salt en) (en_nonce en) pw key seed = Ok k → keyring_wf k
  | _ => True
  end.

(** A handle opened on that database: a guest, or a session with its secrets. *)
Definition handle_ok p : Prop :=
  match p with
  | Unrestricted => False
  | Guest _ => True
  | User session => s_key session = key ∧ blen (s_sign_seed session) = SEED_LEN ∧ s_uid session ≠ GUEST_UID
  end.

(** The ids and the stored lists have room left. *)
Definition roomy s : Prop :=
  ∀ us gs, holds_store (di_meta s) key us gs → sizes_ok us gs (2 ^ 36) 1 ∧ directory_room (dir_of us gs).

Lemma same_meta_protected D s s' : di_meta s' = di_meta s → protected_db D s → protected_db D s'.
Proof. unfold protected_db. by intros ->. Qed.

Lemma stored_frame meta meta' : (∀ k, k ∉ store_keys → kv_get meta' k = kv_get meta k) →
  is_protected meta' = is_protected meta ∧ load_pubkey meta' = load_pubkey meta.
Proof.
  intros Hf. unfold is_protected, features_list, load_pubkey, read_pubkey_bytes.
  rewrite !Hf; [done|..]; apply (bool_decide_eq_false (_ ∈ store_keys)); by vm_compute.
Qed.

Lemma admin_step D s op : protected_db D s → roomy s → admin_ok key op →
  match run_admin key op (di_meta s) with
  | Ok meta' => ∃ D', a_admin key op D = Ok D' ∧ ∀ s', di_meta s' = meta' → protected_db D' s'
  | Err e => a_admin key op D = Err e
  | _ => False
  end.
Proof.
  intros (us & gs & Hst & <- & Hp & Hk) Hroom Hok. destruct (Hroom us gs Hst) as [Hs Hr].
  pose proof (refines_op (di_meta s) key us gs Hst Hs Hr op Hok) as Href. unfold refines in Href.
  pose proof (run_admin_only key op (di_meta s)) as Hf.
  destruct (a_admin key op (dir_of us gs)) as [D'|e| |]; [|by rewrite Href|done..].
  destruct Href as (meta' & us' & gs' & E & Hst' & Hd). rewrite E in *. exists D'. split; [done|]. intros s' Es.
  destruct (stored_frame _ _ (Hf meta' eq_refl)) as [E1 E2].
  exists us', gs'. rewrite Es, E1, E2. done.
Qed.

(** *** One call *)

Lemma commit_meta_step D s op : protected_db D s → roomy s → admin_ok key op →
  match a_admin key op D with
  | Ok D' => ∃ s', commit_meta (run_admin key op) s = (Ok tt, s') ∧ protected_db D' s' ∧ (∀ meta, set_meta meta s' = set_meta meta s)
  | r => commit_meta (run_admin key op) s = (Err (match r with Err e => e | _ => Frozen end), s)
  end.
Proof.
  intros Hp Hr Hok. pose proof (admin_step D s op Hp Hr Hok) as Hs. unfold commit_meta.
  destruct (run_admin key op (di_meta s)) as [meta'|e| |]; [|by rewrite Hs|done..].
  destruct Hs as (D' & -> & Hs). eexists. split; [done|]. split; [by apply Hs|done].
Qed.

Lemma denied_step p c s : administers c = true → may_administer p = false → act (mkArborDb p) c s = (Err admin_denied, s).
Proof.
  intros Hc Hp. assert (admin_key (mkArborDb p) = Err admin_denied ∧ admin_creds (mkArborDb p) = Err admin_denied) as [E1 E2].
  { unfold admin_key, admin_creds. cbn. destruct p as [| |session]; [done..|]. unfold may_administer in Hp. by rewrite Hp. }
  destruct c; try done; cbn [perform]; unfold db_add_user, db_add_group, db_rename_user, db_rename_group, assign_user_to_group, remove_user_from_group,
    db_remove_group, remove_user, sbind, asks; by rewrite ?E1, ?E2.
Qed.

Lemma committed_step p D s op : protected_db D s → roomy s → admin_ok key op → allowed p op →
  ∃ D', protected_db D' (commit_meta (run_admin key op) s).2 ∧ directory_step p D D'.
Proof.
  intros Hp Hr Hok Ha. pose proof (commit_meta_step D s op Hp Hr Hok) as Hs. destruct (a_admin key op D) as [D'|e| |] eqn:E.
  - destruct Hs as (s' & -> & Hs & _). exists D'. split; [done|]. right. eauto.
  - rewrite Hs. exists D. split; [done|by left].
  - rewrite Hs. exists D. split; [done|by left].
  - rewrite Hs. exists D. split; [done|by left].
Qed.

Lemma remove_group_step session D s name : protected_db D s → roomy s → may_administer (User session) = true →
  ∃ D', protected_db D' (match remove_group key name (di_meta s) (inodes_of new_inodes s) with
      | Ok (meta, i) => (Ok tt, set_inodes (Some i) (set_meta meta s))
      | Err e => (Err e, s) | Panic => (Panic, s) | OutOfFuel => (OutOfFuel, s) end).2 ∧ directory_step (User session) D D'.
Proof.
  intros Hp Hr Ha. assert (∃ D', protected_db D' s ∧ directory_step (User session) D D') as Hsame by (exists D; split; [done|by left]).
  pose proof (admin_step D s (RemoveGroup name) Hp Hr Logic.I) as Hs. cbn [run_admin] in Hs. unfold remove_group.
  destruct (remove_group_meta key name (di_meta s)) as [[gid meta']|e| |]; cbn [rbind] in *; [|done..].
  destruct Hs as (D' & E & Hs). destruct (strip_group gid (inodes_of new_inodes s)) as [[[]|e| |] i]; [|done..].
  exists D'. split; [by apply Hs|]. right. by exists (RemoveGroup name).
Qed.

Lemma remove_user_step session D s rng name : protected_db D s → roomy s → may_administer (User session) = true → handle_ok (User session) →
  ∃ D', protected_db D' (remove_user new_data new_inodes engine_tables now fuel (mkArborDb (User session)) rng name s).2 ∧ directory_step (User session) D D'.
Proof.
  intros Hp Hr Ha [Hk _]. assert (∃ D', protected_db D' s ∧ directory_step (User session) D D') as Hsame by (exists D; split; [done|by left]).
  unfold remove_user, admin_key. cbn [principal]. change (is_master session || in_master_group session) with (may_administer (User session)).
  rewrite Ha. unfold sbind at 1. unfold asks at 1. rewrite Hk. unfold read_only, sbind, asks.
  destruct (rbind _ _) as [uid|e| |]; [|done..]. destruct ((uid =? MASTER_UID) || (uid =? GUEST_UID)) eqn:Eb; [done|].
  apply orb_false_iff in Eb as [Em%Z.eqb_neq Eg%Z.eqb_neq].
  pose proof (admin_step D s (ForgetUser uid) Hp Hr (conj Em Eg)) as Hs. cbn [run_admin] in Hs.
  destruct (reap_tables _ _ _ _ _ _ _ _ _) as [[ts i]|e| |]; cbn [rbind]; [|done..].
  destruct (forget_user key uid (di_meta s)) as [meta|e| |]; cbn [rbind]; [|done..].
  destruct Hs as (D' & E & Hs). exists D'. split; [by apply Hs|]. right. by exists (ForgetUser uid).
Qed.

Lemma call_step p c D s : protected_db D s → roomy s → handle_ok p → call_ok c →
  ∃ D', protected_db D' (act (mkArborDb p) c s).2 ∧ directory_step p D D'.
Proof.
  intros Hp Hr Hh Hc. assert (∃ D', protected_db D' s ∧ directory_step p D D') as Hsame by (exists D; split; [done|by left]).
  destruct (administers c) eqn:Ea.
  - destruct (may_administer p) eqn:Em; [|by rewrite denied_step]. destruct p as [| |session]; [done..|].
    destruct Hh as (Hk & Hseed & Hguest). assert (admin_key (mkArborDb (User session)) = Ok key) as Ek.
    { unfold admin_key. cbn. unfold may_administer in Em. by rewrite Em, Hk. }
    assert (admin_creds (mkArborDb (User session)) = Ok (key, s_sign_seed session)) as Ec.
    { unfold admin_creds. cbn. unfold may_administer in Em. by rewrite Em, Hk. }
    destruct c; try done; cbn [perform].
    + unfold db_add_user, sbind at 1, asks. rewrite Ec. destruct Hc as [Hn Hc].
      apply (committed_step _ _ _ (AddUser (s_sign_seed session) salt nonce name password create_group)); [done..|split_and!; eauto|done].
    + unfold db_add_group, sbind, asks. rewrite Ek. by apply (committed_step _ _ _ (AddGroup name)).
    + unfold db_rename_user, sbind, asks. rewrite Ek. by apply (committed_step _ _ _ (RenameUser old new)).
    + unfold db_rename_group, sbind, asks. rewrite Ek. by apply (committed_step _ _ _ (RenameGroup old new)).
    + unfold assign_user_to_group, sbind, asks. rewrite Ek. by apply (committed_step _ _ _ (Assign user group)).
    + unfold remove_user_from_group, sbind, asks. rewrite Ek. by apply (committed_step _ _ _ (Unassign user group)).
    + unfold db_remove_group, sbind, asks. rewrite Ek. by apply remove_group_step.
    + by apply remove_user_step.
  - destruct c; try done; cbn [perform].
    + unfold change_password. cbn [principal]. destruct p as [|pk|session]; [done|done|]. destruct Hh as (Hk & Hseed & Hguest).
      destruct (committed_step (User session) D s (ChangePassword session (en_salt en) (en_nonce en) new_password)) as (D' & HD & HDs); try done.
      { split_and!; try done. intros k. by apply Hc. }
      exists D'. split; [|done]. unfold sbind.
      change (run_admin key (ChangePassword session (en_salt en) (en_nonce en) new_password))
        with (change_user_password (M := M) session (en_salt en) (en_nonce en) new_password) in HD.
      by destruct (commit_meta (change_user_password session (en_salt en) (en_nonce en) new_password) s) as [[[]|e| |] s'].
    + exists D. split; [|by left]. eapply same_meta_protected; [|done]. unfold flush_access_times.
      destruct (drain_access_log order_log (di_access_log s)) as [[|e batch] log]; [done|].
      by destruct (persist_access (e :: batch) _) as [[[]|e'| |] i].
Qed.

(** *** Runs of many handles *)

(** Times and a-nodes of their widths in the access log. *)
Definition log_ok (log : AccessLog) : Prop := ∀ k when, log !! k = Some when → key_ok k ∧ signed_ok 64 when.

(** One step of a handle acting as [p]: a call above, a snapshot read by any program, a
    transaction written by any program and committed or not, the opening of a table. *)
Inductive db_step p : DbInner T M I P B V → DbInner T M I P B V → Prop :=
| step_call c s : call_ok c → db_step p s (act (mkArborDb p) c s).2
| step_read {A} t order (m : SM PReadTxn A) s : t_principal t = p → db_step p s (with_read t order m s).2
| step_write {A} t rng opened (m : SM (PWriteTxn T I) A) s :
    t_principal t = p → db_step p s (with_write new_data new_inodes now order_dirs order_files order_log t rng opened m s).2
| step_open name s : db_step p s (open_table (mkArborDb p) name s).2.

Inductive db_run : list Principal → DbInner T M I P B V → DbInner T M I P B V → Prop :=
| run_none s : db_run [] s s
| run_one p ps s s1 s2 : handle_ok p → roomy s → log_ok (di_access_log s) → db_step p s s1 → db_run ps s1 s2 → db_run (p :: ps) s s2.

Inductive directory_run : list Principal → Directory → Directory → Prop :=
| dir_none D : directory_run [] D D
| dir_one p ps D D1 D2 : directory_step p D D1 → directory_run ps D1 D2 → directory_run (p :: ps) D D2.

Lemma cache_of_same name s : ∃ c s', db_cache_of name s = (Ok c, s') ∧ di_tables s' = di_tables s ∧ di_meta s' = di_meta s ∧ di_inodes s' = di_inodes s.
Proof. unfold db_cache_of. destruct (di_caches s !! name); eauto 10. Qed.

Lemma read_same {A} t order (m : SM PReadTxn A) s : let s' := (with_read t order m s).2 in
  di_tables s' = di_tables s ∧ di_meta s' = di_meta s ∧ di_inodes s' = di_inodes s.
Proof.
  unfold with_read, sbind. destruct (cache_of_same (t_name t) s) as (c & s1 & -> & E1 & E2 & E3).
  by destruct (m _) as [r x].
Qed.

Lemma open_same db name s : let s' := (open_table db name s).2 in
  di_tables s' = di_tables s ∧ di_meta s' = di_meta s ∧ di_inodes s' = di_inodes s.
Proof.
  unfold open_table, sbind at 1, asks. destruct (open_table_name db name); [|done..].
  unfold sbind. by destruct (cache_of_same name s) as (c & s1 & -> & E1 & E2 & E3).
Qed.

Lemma write_meta {A} t rng opened (m : SM (PWriteTxn T I) A) s :
  di_meta (with_write new_data new_inodes now order_dirs order_files order_log t rng opened m s).2 = di_meta s.
Proof.
  assert ((write_begin new_data new_inodes t rng s).2 = s) as Eb by (unfold write_begin; by destruct (t_principal t)).
  unfold with_write, sbind at 1. destruct (write_begin new_data new_inodes t rng s) as [[w|e| |] s1]; cbn in Eb; subst s1; [|done..].
  destruct (m w) as [[a|e| |] w']; [|done..]. unfold sbind, write_commit.
  by destruct (w_commit _ _ _ _ _ _ w') as [[[]|e| |] w2].
Qed.

Lemma step_directory p D s s' : protected_db D s → roomy s → handle_ok p → db_step p s s' →
  ∃ D', protected_db D' s' ∧ directory_step p D D'.
Proof.
  intros Hp Hr Hh Hs. destruct Hs as [c s Hc|A t order m s Ht|A t rng opened m s Ht|name s].
  - by apply call_step.
  - exists D. split; [|by left]. eapply same_meta_protected; [|done]. apply read_same.
  - exists D. split; [|by left]. eapply same_meta_protected; [|done]. apply write_meta.
  - exists D. split; [|by left]. eapply same_meta_protected; [|done]. apply open_same.
Qed.

Lemma run_directory ps D s s' : protected_db D s → db_run ps s s' → ∃ D', protected_db D' s' ∧ directory_run ps D D'.
Proof.
  intros Hp Hr. revert D Hp. induction Hr as [s|p ps s s1 s2 Hh Hro Hl Hs _ IH]; intros D Hp.
  - exists D. split; [done|constructor].
  - destruct (step_directory p D s s1 Hp Hro Hh Hs) as (D1 & HD1 & Hd). destruct (IH D1 HD1) as (D2 & HD2 & Hd2).
    exists D2. split; [done|]. by econstructor.
Qed.

(** *** Guests *)

(** What the tags and the access decision depend on. *)
Definition seals (m : Inodes) : gmap (bytes * Z) (option Acl * option bytes * option bytes * list (Z * bytes)) :=
  (λ x, (acl x, mac x, sig x, extra x)) <$> m.

Definition only_times_change s s' : Prop :=
  di_tables s' = di_tables s ∧ di_meta s' = di_meta s ∧
  ∀ m, holds_inodes (inodes_of new_inodes s) m → ∃ m', holds_inodes (inodes_of new_inodes s') m' ∧ seals m' = seals m.

Lemma same_only_times s s' : di_tables s' = di_tables s → di_meta s' = di_meta s → di_inodes s' = di_inodes s → only_times_change s s'.
Proof. intros E1 E2 E3. split_and!; [done..|]. intros m Hm. exists m. unfold inodes_of. by rewrite E3. Qed.

Lemma seals_bumped when k m : seals (alter (bumped when) k m) = seals m.
Proof.
  apply map_eq. intros j. unfold seals. rewrite !lookup_fmap. destruct (decide (j = k)) as [->|Hne]; [|by rewrite lookup_alter_ne].
  rewrite lookup_alter_eq. destruct (m !! k) as [x|]; [|done]. cbn. f_equal. unfold bumped. destruct (timestamps x) as [t|]; [|done].
  by destruct (t_accessed t <? when).
Qed.

Lemma persist_access_keeps batch : ∀ i m, holds_inodes i m → (∀ e, e ∈ batch → key_ok e.1 ∧ signed_ok 64 e.2) →
  ∃ i' m', persist_access batch i = (Ok tt, i') ∧ holds_inodes i' m' ∧ seals m' = seals m.
Proof.
  unfold persist_access. induction batch as [|e batch IH]; intros i m Hm Hb; cbn [for_each]; [by exists i, m|].
  destruct (Hb e) as [Hk Hw]; [by left|]. destruct (bump_access_lemma i m e.1 e.2 Hm Hk Hw) as (i1 & E1 & Hm1).
  destruct (IH i1 _ Hm1) as (i2 & m2 & E2 & Hm2 & Es); [intros x Hx; apply Hb; by right|].
  exists i2, m2. unfold sbind at 1. rewrite E1. split_and!; [done..|]. by rewrite Es, seals_bumped.
Qed.

Hypothesis Horder : ∀ log e, e ∈ order_log log → log !! e.1 = Some e.2.

Lemma flush_only_times s : log_ok (di_access_log s) → only_times_change s (flush_access_times new_inodes order_log s).2.
Proof.
  intros Hl. unfold flush_access_times, drain_access_log. pose proof (Horder (di_access_log s)) as Ho.
  destruct (order_log (di_access_log s)) as [|e batch]; [by apply same_only_times|].
  assert (∀ x, x ∈ e :: batch → key_ok x.1 ∧ signed_ok 64 x.2) as Hb by (intros x Hx; by apply (Hl x.1 x.2), Ho).
  destruct (persist_access (e :: batch) _) as [[[]|e'| |] i] eqn:E; [|by apply same_only_times..].
  split_and!; [done..|]. intros m Hm. change (inodes_of new_inodes (set_access_log ∅ s)) with (inodes_of new_inodes s) in E.
  destruct (persist_access_keeps (e :: batch) _ m Hm Hb) as (i' & m' & E' & Hm' & Es). rewrite E in E'. injection E' as <-. by exists m'.
Qed.

Lemma guest_step p s s' : is_guest p = true → log_ok (di_access_log s) → db_step p s s' → only_times_change s s'.
Proof.
  intros Hg Hl Hs. destruct Hs as [c s Hc|A t order m s Ht|A t rng opened m s Ht|name s].
  - destruct (administers c) eqn:Ea; [rewrite denied_step by (done || by destruct p); by apply same_only_times|].
    destruct c; try done; cbn [perform]; [|by apply flush_only_times].
    unfold change_password, sbind. cbn [principal]. destruct p; try done. by apply same_only_times.
  - by apply same_only_times; apply read_same.
  - unfold with_write, sbind at 1, write_begin. rewrite Ht. destruct p; try done. by apply same_only_times.
  - by apply same_only_times; apply open_same.
Qed.

Lemma guest_run ps s s' : Forall (λ p, is_guest p = true) ps → db_run ps s s' → only_times_change s s'.
Proof.
  intros Hg Hr. induction Hr as [s|p ps s s1 s2 Hh Hro Hl Hs _ IH]; [by apply same_only_times|].
  apply Forall_cons in Hg as [Hp Hg]. destruct (guest_step p s s1 Hp Hl Hs) as (E1 & E2 & E3). destruct (IH Hg) as (E4 & E5 & E6).
  split_and!; [congruence..|]. intros m Hm. destruct (E3 m Hm) as (m1 & Hm1 & Es1). destruct (E6 m1 Hm1) as (m2 & Hm2 & Es2).
  exists m2. split; [done|congruence].
Qed.

(** *** Handles that do not administer *)

Definition uid_of_principal p : option Z := match p with User session => Some (s_uid session) | _ => None end.

(** An account as it was, but for its password if its user acted. *)
Definition same_account (ps : list Principal) (u u' : UserRecord) : Prop :=
  u_name u' = u_name u ∧ u_uid u' = u_uid u ∧ u_gids u' = u_gids u ∧ u_frozen u' = u_frozen u ∧
  (Some (u_uid u) ∉ map uid_of_principal ps → u_keyring u' = u_keyring u).

Definition same_directory (ps : list Principal) (D D' : Directory) : Prop :=
  a_groups D' = a_groups D ∧ a_next_uid D' = a_next_uid D ∧ a_next_gid D' = a_next_gid D ∧
  ∀ n, option_Forall2 (same_account ps) (a_users D !! n) (a_users D' !! n).

Lemma password_step p D D' : may_administer p = false → directory_step p D D' → same_directory [p] D D'.
Proof.
  intros Hm [->|(op & Ha & E)].
  { split_and!; [done..|]. intros n. destruct (a_users D !! n); by constructor. }
  destruct op as [| | | | | | | |session salt nonce pw]; try (cbn in Ha; congruence). destruct p as [| |session']; try done. cbn in Ha. subst session'.
  cbn [a_admin] in E. destruct (wrap_secrets _ _ _ _ _) as [k|e| |]; cbn [rbind] in E; [|done..]. destruct (decide _); [done|]. injection E as <-.
  split_and!; [done..|]. intros name. cbn. rewrite lookup_fmap. destruct (a_users D !! name) as [u|]; constructor.
  destruct (Z.eqb_spec (u_uid u) (s_uid session)) as [E|Hne]; [|done]. split_and!; try done. intros Hn. destruct Hn. rewrite E. by left.
Qed.

Lemma same_directory_trans p ps D D1 D2 : same_directory [p] D D1 → same_directory ps D1 D2 → same_directory (p :: ps) D D2.
Proof.
  intros (E1 & E2 & E3 & E4) (F1 & F2 & F3 & F4). split_and!; [congruence..|]. intros n. specialize (E4 n). specialize (F4 n). revert F4.
  destruct E4 as [u u1 (G1 & G2 & G3 & G4 & G5)|]; inversion 1 as [? u2 (L1 & L2 & L3 & L4 & L5)|]; subst; constructor.
  split_and!; [congruence..|]. intros Hn. rewrite L5, G5; [done|..]; intros Hin; apply Hn.
  - cbn [map] in *. apply list_elem_of_singleton in Hin as ->. by left.
  - rewrite G2 in Hin. by right.
Qed.

Lemma same_directory_run ps D D' : Forall (λ p, may_administer p = false) ps → directory_run ps D D' → same_directory ps D D'.
Proof.
  intros Hp Hr. induction Hr as [D|p ps D D1 D2 Hs _ IH].
  { split_and!; [done..|]. intros n. destruct (a_users D !! n); by constructor. }
  apply Forall_cons in Hp as [Hm Hp]. eapply same_directory_trans; [by apply password_step|by apply IH].
Qed.

End simulation.

(** ** From a plain database to a protected one *)

Section lifecycle.
Context `{Ext} `{Crypto} `{!CryptoLaws} {T : Type} `{KV T Z bytes} {M : Type} `{KV M bytes bytes} `{!KVLaws M bytes bytes}.
Context {I : Type} `{OrdKV I} `{!OrdKVLaws I}.
Context {P : Type} `{Lru P APath (Z * AKey)} {B : Type} `{Lru B (Z * AKey) bytes} {V : Type} `{Lru V (Z * AKey) unit}.
Context (new_data : T) (new_inodes : I) (engine_tables : gmap bytes T → list bytes) (rows : T → list (AKey * bytes)).
Context (build : Build).
Implicit Types (s : DbInner T M I P B V) (meta : M) (ts : gmap bytes T).
Local Notation change_password := (change_password new_data new_inodes engine_tables rows).

(** The engine lists every table once and reads every row of a table once. *)
Hypothesis Hnames : ∀ ts, NoDup (engine_tables ts) ∧
  ∀ name, is_reserved_table_name name = false → name ∈ engine_tables ts ↔ is_Some (ts !! name).
Hypothesis Hrows : ∀ t, NoDup (map fst (rows t)) ∧ ∀ k e, (k, e) ∈ rows t ↔ kv_get t k = Some e.

Definition all_tables s : list (bytes * list (AKey * bytes)) :=
  map (λ name, (name, rows (default new_data (di_tables s !! name)))) (user_tables engine_tables s).

Lemma user_table s name : name ∈ user_tables engine_tables s ↔ is_reserved_table_name name = false ∧ is_Some (di_tables s !! name).
Proof.
  unfold user_tables. rewrite list_elem_of_In, List.filter_In, <- list_elem_of_In, negb_true_iff. destruct (Hnames (di_tables s)) as [_ Hn].
  split; [intros [Hin Hr]; split; [done|by apply Hn]|intros [Hr Hin]; split; [by apply Hn|done]].
Qed.

Lemma user_tables_NoDup s : NoDup (user_tables engine_tables s).
Proof. apply NoDup_ListNoDup, List.NoDup_filter, NoDup_ListNoDup, (proj1 (Hnames _)). Qed.

Lemma all_rows_elem s name k e : (name, (k, e)) ∈ all_rows (all_tables s) ↔
  is_reserved_table_name name = false ∧ ∃ t, di_tables s !! name = Some t ∧ kv_get t k = Some e.
Proof.
  unfold all_rows, all_tables. rewrite map_map, list_elem_of_In, in_concat. setoid_rewrite in_map_iff. split.
  - intros (l & (n & <- & Hn%list_elem_of_In) & (row & [= -> ->] & Hrow%list_elem_of_In)%in_map_iff). cbn [fst snd] in *.
    apply user_table in Hn as [Hr [t Ht]]. split; [done|]. exists t. split; [done|]. rewrite Ht in Hrow. by apply Hrows.
  - intros [Hr (t & Ht & Hk)]. eexists. split; [exists name; split; [done|]|].
    + apply list_elem_of_In, user_table. by split.
    + cbn [fst snd]. rewrite Ht. apply in_map_iff. exists (k, e). split; [done|]. by apply list_elem_of_In, Hrows.
Qed.

Lemma all_rows_NoDup s : NoDup (map (λ r, (r.1, r.2.1)) (all_rows (all_tables s))).
Proof.
  unfold all_rows, all_tables. rewrite map_map. pose proof (user_tables_NoDup s) as Hnd. induction Hnd as [|name names Hnew _ IH]; [constructor|].
  cbn [map concat fst snd]. rewrite map_app. apply NoDup_app. split_and!; [| |done].
  - rewrite map_map. cbn [fst snd]. destruct (Hrows (default new_data (di_tables s !! name))) as [Hk _]. revert Hk.
    generalize (rows (default new_data (di_tables s !! name))) as l. induction l as [|[k e] l IHl]; cbn [map]; [constructor|].
    intros [Hk Hl]%NoDup_cons. apply NoDup_cons. split; [|by apply IHl]. intros (row & [= E] & Hin)%list_elem_of_fmap.
    apply Hk, list_elem_of_fmap. by exists row.
  - intros [n k] (x & [= -> ->] & (row & -> & Hrow)%list_elem_of_fmap)%list_elem_of_fmap (y & [= E1 E2] & Hy)%list_elem_of_fmap.
    apply list_elem_of_In, in_concat in Hy as (l & (n & <- & Hn%list_elem_of_In)%in_map_iff & (row' & <- & _)%in_map_iff).
    cbn [fst snd] in *. by subst.
Qed.

(** A metadata table with its version record, once promoted, opens with the same build
    and is turned away by one without the feature. *)
Lemma promoted_frame meta names meta' k : promoted_from meta names meta' → bool_decide (k ∈ promoted_keys) = false → kv_get meta' k = kv_get meta k.
Proof. intros [_ Hf] Hk%bool_decide_eq_false. by apply Hf. Qed.

Lemma promoted_opens b meta names meta' : permissions b = true → bootstrap_metadata b meta = Ok meta → features_list meta = Ok names →
  promoted_from meta names meta' → bootstrap_metadata b meta' = Ok meta'.
Proof.
  intros Hb Hm Hn Hf. destruct (bootstrap_metadata_spec b meta meta Hm) as ((bs & Hv & Hl & Hle) & (names' & Hn' & Hall) & _ & _).
  assert (names' = names) as -> by congruence. unfold bootstrap_metadata.
  rewrite (promoted_frame meta names meta' META_FORMAT_VERSION_KEY Hf) by (by vm_compute). rewrite Hv, Hl. cbn [rbind]. change (8 =? 8) with true. cbn [rbind].
  destruct (Z.ltb_spec DB_FORMAT_VERSION (of_be bs)); [lia|]. cbn [rbind]. unfold features_check. rewrite (proj1 Hf). cbn [rbind].
  assert (check_names b (if bool_decide (s_permissions ∈ names) then names else names ++ [s_permissions]) = Ok tt) as ->; [|done].
  apply check_names_Ok. case_bool_decide; [done|]. apply Forall_app. split; [done|]. apply Forall_singleton.
  unfold is_compiled. by rewrite decide_True.
Qed.


Lemma check_names_cases b names : check_names b names = Ok tt ∨ check_names b names = Err DatabaseProtected ∨ check_names b names = Err FeatureRequired.
Proof. induction names as [|n names IH]; cbn [check_names]; [by left|]. destruct (is_compiled b n); [done|]. right. case_decide; auto. Qed.

Lemma promoted_refused b b' meta names meta' : permissions b' = false → bootstrap_metadata b meta = Ok meta → features_list meta = Ok names →
  promoted_from meta names meta' → bootstrap_metadata b' meta' = Err DatabaseProtected ∨ bootstrap_metadata b' meta' = Err FeatureRequired.
Proof.
  intros Hb Hm Hn Hf. destruct (bootstrap_metadata_spec b meta meta Hm) as ((bs & Hv & Hl & Hle) & _ & _ & _). unfold bootstrap_metadata.
  rewrite (promoted_frame meta names meta' META_FORMAT_VERSION_KEY Hf) by (by vm_compute). rewrite Hv, Hl. cbn [rbind]. change (8 =? 8) with true. cbn [rbind].
  destruct (Z.ltb_spec DB_FORMAT_VERSION (of_be bs)); [lia|]. cbn [rbind]. unfold features_check. rewrite (proj1 Hf). cbn [rbind].
  destruct (check_names_cases b' (if bool_decide (s_permissions ∈ names) then names else names ++ [s_permissions])) as [E|[->| ->]]; auto.
  apply check_names_Ok in E. rewrite Forall_forall in E. assert (is_compiled b' s_permissions = true) as E'.
  { apply E. case_bool_decide; [done|]. apply elem_of_app. right. by left. }
  unfold is_compiled in E'. rewrite decide_True in E' by done. congruence.
Qed.

(** C33: The life of a protected database.  A handle on a database that has no permission
    store acts unrestricted until it changes the password: it then becomes the master, the
    new password being the master's, and every entry of every user table carries both tags
    under the master's keys and has an owner, the data itself untouched.  Reopened by a
    build with permissions the database gives a guest that verifies against the stored
    public key; from it the master's password opens the very session the promotion
    returned, and the guest has no password to open or to change one with; a build without
    permissions is turned away.  A second promotion, by a handle that was opened before the
    first, is refused and changes nothing. *)
Theorem protect_and_reopen ts meta0 i0 db s key seed salt nonce password m names k :
  wrap build ts meta0 i0 = Ok (db, s) → permissions build = true → s_permissions ∉ names →
  kv_get (di_meta s) META_USERS_KEY = None → features_list (di_meta s) = Ok names → features_fit names →
  (∃ e, read_epoch (di_meta s) = Ok e) → wrap_secrets (Some salt) (Some nonce) password key seed = Ok k → keyring_wf k →
  holds_inodes (inodes_of new_inodes s) m →
  (∀ name t akey e, ts !! name = Some t → kv_get t akey = Some e → key_ok (name, akey)) →
  let session := mkSession MASTER_USER MASTER_UID [MASTER_GID] key seed in
  let guest := mkArborDb (Guest (public_key seed)) in
  principal db = Unrestricted ∧
  ∃ s' m', change_password db (mkEntropy (Some key) (Some seed) (Some salt) (Some nonce)) password s = (Ok (mkArborDb (User session)), s') ∧
    protected_db key (public_key seed) (dir_of (first_users k) first_groups) s' ∧ di_tables s' = ts ∧
    holds_inodes (inodes_of new_inodes s') m' ∧
    (∀ name t akey e, is_reserved_table_name name = false → ts !! name = Some t → kv_get t akey = Some e →
       ∃ x, m' !! (name, akey) = Some x ∧ sealed_entry key (public_key seed) name akey e x ∧ acl x = promoted_acl akey (m !! (name, akey))) ∧
    (∃ s1, wrap build (di_tables s') (di_meta s') (di_inodes s') = Ok (guest, s1) ∧
       with_authentication guest MASTER_USER password s1 = (Ok (mkArborDb (User session)), s1) ∧
       (∀ pw, with_authentication guest GUEST_USER pw s1 = (Err AuthenticationFailed, s1)) ∧
       (∀ en pw, change_password guest en pw s1 = (Err (PermissionDenied "the guest user has no password to change"), s1))) ∧
    (∀ b, permissions b = false → let reopened := wrap (P := P) (B := B) (V := V) b (di_tables s') (di_meta s') (di_inodes s') in
       reopened = Err DatabaseProtected ∨ reopened = Err FeatureRequired) ∧
    (∀ key' seed' salt' nonce' pw k', wrap_secrets salt' nonce' pw key' seed' = Ok k' →
       change_password db (mkEntropy (Some key') (Some seed') salt' nonce') pw s' = (Err (CannotAccess "the database is already protected"), s')).
Proof using All.
  intros (meta & Hb & (has & Ha & (prot & Hp & (pr & Hpr & [= <- <-])%rbind_Ok)%rbind_Ok)%rbind_Ok)%rbind_Ok Hbuild Hnew Hnone Hf Hfit He Hw Hk Hm Hty session guest.
  cbn [di_meta di_tables DbInner_new inodes_of] in *. destruct (bootstrap_metadata_spec build meta0 meta Hb) as (_ & _ & _ & Hidem).
  assert (prot = false) as ->. { unfold is_protected in Hp. rewrite Hf in Hp. injection Hp as <-. by apply bool_decide_eq_false. }
  injection Hpr as <-. split; [done|]. set (s := DbInner_new ts meta i0 has : DbInner T M I P B V) in *.
  destruct (promote_spec key seed salt nonce password (all_tables s) meta (inodes_of new_inodes s) m names k Hnone Hf Hfit He Hw Hk Hm)
    as (meta' & i' & m' & E & Hst & Hprot & Hpub & Hauth & Hm' & Hback & Hfrom & Hagain).
  { apply all_rows_NoDup. }
  { apply Forall_forall. intros [name [akey e]] (_ & t & Ht & Hg)%all_rows_elem. by apply (Hty name t akey e). }
  assert (registry_any meta' = registry_any meta) as Ereg.
  { unfold registry_any. by rewrite (promoted_frame meta names meta' _ Hfrom) by (by vm_compute). }
  exists (set_inodes (Some i') (set_meta meta' s)), m'. split_and!; try done.
  - unfold Database.change_password, sbind, promote. cbn [principal en_key en_seed en_salt en_nonce]. change (di_meta s) with meta.
    unfold all_tables in E. by rewrite E.
  - exists (first_users k), first_groups. done.
  - intros name t akey e Hr Ht Hg. destruct (proj1 Hback name akey e) as (x & Hx & Hs & Hax & _); [|by exists x].
    apply all_rows_elem. split; [done|]. by exists t.
  - eexists. split; [|split_and!].
    + unfold wrap. cbn [di_meta di_tables di_inodes set_inodes set_meta]. rewrite (promoted_opens build meta names meta') by done. cbn [rbind].
      rewrite Ereg, Ha. cbn [rbind]. rewrite Hprot. cbn [rbind]. rewrite Hpub. done.
    + unfold with_authentication, sbind, read_only, asks. cbn [principal guest di_meta DbInner_new]. by rewrite Hauth.
    + intros pw. unfold with_authentication, sbind, read_only, asks. cbn [principal guest di_meta DbInner_new].
      by rewrite (guest_refused meta' key (first_users k) first_groups).
    + intros en pw. done.
  - intros b Hnb. cbv zeta. unfold wrap. cbn [di_meta set_inodes set_meta].
    destruct (promoted_refused build b meta names meta') as [-> | ->]; auto.
  - intros key' seed' salt' nonce' pw k' Hw'. unfold Database.change_password, sbind, promote. cbn [principal en_key en_seed en_salt en_nonce].
    change (di_meta (set_inodes (Some i') (set_meta meta' s))) with meta'.
    change (inodes_of new_inodes (set_inodes (Some i') (set_meta meta' s))) with i'. by rewrite (Hagain key' seed' salt' nonce' pw _ k' Hw').
Qed.
End lifecycle.
