(* ===== verification/Examples.v ===== *)
(** * The theorems at concrete inputs

    A small database built by running the model: two files, a nested directory and
    an empty one, kept in a [gmap].  Each lemma instantiates a theorem of the
    development there and evaluates its hypotheses. *)
From S2P Require Import Prelude BTree Codec Ext Scalar Path Value Archived Access Key Dir Engine WriteBuffer Ctx Fs Tree Refine FsSpec Move FsMove TreeLaws Grab Write Txn Program Cursor Edge Cache Rooted Versions.
Import ExtModel EngineModel.

(** ** The database *)

Abbreviation T := (gmap Z bytes).
Definition na : bytes := [97].
Definition nb : bytes := [98].
Definition nc : bytes := [99].
Definition nd : bytes := [100].
Definition doc1 : Value := Node [(na, Leaf (U8 7)); (nb, List [Leaf Null])].
Definition doc2 : Value := Leaf (Str [104; 105]).

Definition t0 : atree := ADir ROOT [].
Definition c0 : Ctx T := WriteTxn_new ∅ 1 false.
Definition ops1 : list op := [OStore [na; nb] doc1; OStore [nc] doc2; OMkdir [nd]].
Definition c1 : Ctx T := (run_ops 10 ops1 c0).2.
Definition t1 : atree := (t_ops t0 1 ops1).2.1.

Lemma unused_check t s n :
  Forall (λ i, nth_key s i ∉ tkeys t) (seqZ 0 n) → unused t s n.
Proof. intros Hf i Hi. rewrite Forall_forall in Hf. apply Hf. apply elem_of_seqZ. lia. Qed.

Ltac check_unused := apply unused_check; apply (bool_decide_unpack _); by vm_compute.

Lemma table0 : table_holds (∅ : T) t0.
Proof.
  split_and!; [by intros ??|repeat constructor; set_solver|done|done|by right|done].
Qed.

Lemma unused0 : unused t0 1 20.
Proof. check_unused. Qed.

(** The hypotheses are decidable. *)
#[export] Instance bytes_ok_dec b : Decision (bytes_ok b).
Proof. unfold bytes_ok, byte_ok. apply _. Defined.
#[export] Instance linkable_dec m n : Decision (linkable m n).
Proof. unfold linkable, dir_name_ok. apply _. Defined.
#[export] Instance path_fits_dec t p : Decision (path_fits t p).
Proof.
  revert t; induction p as [|n p IH]; intros [k b|k ch]; cbn; try apply _.
  destruct (bt_get ch n); apply _.
Defined.
#[export] Instance names_prefix_dec (p q : APath) : Decision (p `prefix_of` q) := _.
#[export] Instance op_ok_dec fuel t o : Decision (op_ok fuel t o).
Proof. destruct o; cbn; apply _. Defined.
#[export] Instance run_ok_dec fuel ops : ∀ t s n, Decision (run_ok fuel t s ops n).
Proof. induction ops as [|o ops IH]; intros t s n; cbn; apply _. Defined.

Ltac check := apply (bool_decide_unpack _); by vm_compute.

Lemma run1_ok : run_ok 10 t0 1 ops1 20.
Proof. check. Qed.

Lemma begin0 : txn c0 t0.
Proof. apply begin_txn; [exact table0|done]. Qed.

Lemma txn1 : txn c1 t1.
Proof.
  destruct (run_ops_lemma 10 ops1 c0 t0 20 begin0 run1_ok unused0) as (c & E & Ht); [done|].
  unfold c1. by rewrite E.
Qed.

Lemma unused1 : unused t1 (rng c1) 20.
Proof. check_unused. Qed.

Lemma txn_reads c t : txn c t → view c ROOT ≠ None → ctx_ok c ∧ holds (view c) t ∧ akey t = ROOT.
Proof. intros [(Hc & _ & Hk & _ & [Hh|[? _]]) _] Hv; done. Qed.

Lemma root1 : view c1 ROOT ≠ None.
Proof. intros Hv. by vm_compute in Hv. Qed.

(** ** Transactions *)

Definition ops2 : list op :=
  [OMv [na; nb] [nd; na]; OCp [nd] [nb]; OStore [nc; na] doc1; ORm [nc]; OMkdir [nc; nd]].



Lemma store_value_at_spec_witness :
  (∃ e, store_value_at 10 [] doc2 c1 = (Err (CannotAccess e), c1)) ∧
  (blocked t1 [na] → ∃ c' e, store_value_at 10 ([na] ++ [nb]) doc2 c1 = (Err (CannotAccess e), c') ∧ txn c' t1) ∧
  (¬ blocked t1 [na] → ∃ c' t', store_value_at 10 ([na] ++ [nb]) doc2 c1 = (Ok tt, c') ∧ txn c' t' ∧
     stored t1 t' ([na] ++ [nb]) (encode doc2)).
Proof.
  apply (store_value_at_spec 10 c1 t1 [na] nb doc2); [exact txn1|check|apply (unused_mono _ _ _ _ unused1)|..]; check.
Defined.

Lemma mkdir_spec_witness :
  (blocked t1 [na; nc] → ∃ c' e, mkdir [na; nc] c1 = (Err (CannotAccess e), c') ∧ txn c' t1) ∧
  (¬ blocked t1 [na; nc] → ∃ c' t', mkdir [na; nc] c1 = (Ok tt, c') ∧ txn c' t' ∧
     (∀ q, q `prefix_of` [na; nc] → ∃ k ch, tlookup t' q = Some (ADir k ch) ∧ ∀ x, tlookup t1 q = Some x → akey x = k) ∧
     (∀ q, ¬ q `prefix_of` [na; nc] → tlookup t' q = tlookup t1 q)).
Proof.
  apply (mkdir_spec c1 t1 [na; nc]); [exact txn1|check|apply (unused_mono _ _ _ _ unused1)|]; check.
Defined.

Lemma rm_spec_witness :
  (∃ e, rm 10 [] c1 = (Err (CannotAccess e), c1)) ∧
  ∃ c' t', rm 10 ([] ++ [na]) c1 = (Ok (bool_decide (is_Some (tlookup t1 ([] ++ [na])))), c') ∧ txn c' t' ∧
    match tlookup t1 ([] ++ [na]) with Some _ => removed t1 t' ([] ++ [na]) | None => t' = t1 end.
Proof. apply (rm_spec 10 c1 t1 [] na); [exact txn1|check]. Defined.

Lemma mv_spec_witness :
  (∃ c' t', mv 10 ([na] ++ [nb]) ([nd] ++ [nc]) c1 = (Ok tt, c') ∧ txn c' t' ∧ moved t1 t' ([na] ++ [nb]) ([nd] ++ [nc])).
Proof.
  apply (mv_spec 10 c1 t1 [na] nb [nd] nc); [exact txn1|check|check|apply (unused_mono _ _ _ _ unused1); check|done|check|check|check|].
  intros (q & k & b & Hq & Hl). destruct q as [|x [|y q]].
  - done.
  - apply prefix_cons_inv_1 in Hq as ->. done.
  - by apply prefix_length in Hq; cbn in Hq; lia.
Defined.


(** ** Reads *)

Lemma path_reads_agree_witness :
  (∃ s', same c1 s' ∧ grab_kind [na] c1 = (Ok (t_kind <$> tlookup t1 [na]), s')) ∧
  (∃ s', same c1 s' ∧ grab_exists [na] c1 = (Ok (bool_decide (is_Some (tlookup t1 [na]))), s')) ∧
  (∃ s', same c1 s' ∧ grab_ls [na] c1 =
     (match tlookup t1 [na] with
      | None => Err ValueNotFound
      | Some (AFile _ _) => Err (CannotAccess "'{path}' is a file, not a directory")
      | Some (ADir _ ch) => Ok (map (λ e, mkEntry e.1 (t_kind e.2)) ch)
      end, s')).
Proof. apply (path_reads_agree c1 t1 [na]); apply (txn_reads c1 t1 txn1 root1). Defined.

#[export] Instance str_ok_dec s : Decision (str_ok s).
Proof. unfold str_ok. apply _. Defined.
#[export] Instance seg_str_ok_dec s : Decision (seg_str_ok s).
Proof. destruct s; cbn; apply _. Defined.
#[export] Instance vpath_str_ok_dec p : Decision (vpath_str_ok p) := _.

Lemma value_ok1 : value_ok doc1.
Proof. vm_compute. repeat (split || constructor). all: done. Qed.

Definition key1 : AKey := match tlookup t1 [na; nb] with Some x => akey x | None => ROOT end.

Lemma value_reads_agree_witness :
  (∃ s', same c1 s' ∧ grab_load_value 10 [na; nb] c1 = (Ok (Some doc1), s')) ∧
  (∃ s', same c1 s' ∧ grab_get [na; nb] [Name na] c1 = (Ok (subtree doc1 [Name na] ≫= leaf), s')) ∧
  (∃ s' r, same c1 s' ∧ grab_fetch [na; nb] c1 = (Ok (Some r), s') ∧ reader_agrees r doc1 [Name na]).
Proof.
  destruct (txn_reads c1 t1 txn1 root1) as (Hc & Hh & Hk).
  pose proof (value_reads_agree 10 c1 t1 [na; nb] [Name na]) as Hr.
  assert (tlookup t1 [na; nb] = Some (AFile key1 (encode doc1))) as Hl by by vm_compute.
  rewrite Hl in Hr. apply Hr; [exact Hc|exact Hh|exact Hk|check|done|exact value_ok1|by vm_compute|check].
Defined.

(** ** Cursors *)

Lemma patch_scalar_spec_witness :
  let entry := file_entry (encode doc1) in
  if patchable doc1 [Name na] (U8 9) then
    patch_scalar entry [Name na] (U8 9) = Ok (true, file_entry (encode (set_in doc1 [Name na] (Leaf (U8 9))).1)) ∧
    blen (encode (set_in doc1 [Name na] (Leaf (U8 9))).1) = blen (encode doc1) ∧
    subtree (set_in doc1 [Name na] (Leaf (U8 9))).1 [Name na] = Some (Leaf (U8 9))
  else patch_scalar entry [Name na] (U8 9) = Ok (false, entry).
Proof. apply (patch_scalar_spec doc1 [Name na] (U8 9)); [exact value_ok1|check|by vm_compute]. Defined.

Definition edits1 : list (VPath * Scalar) := [([Name na], U8 9); ([Name nb; Index 0], Str [104; 105])].

Lemma cursor_edits_spec_witness :
  ∃ m c', MutCursor_open [na; nb] c1 = Ok (Some m) ∧ put_scalars 10 m edits1 c1 = (Ok tt, c') ∧
    txn c' (treplace t1 [na; nb] (AFile key1 (encode (edit doc1 edits1)))) ∧
    MutCursor_open [na; nb] c' = Ok (Some m) ∧
    ∀ q, mc_scalar_at 10 m q c' = Ok (subtree (edit doc1 edits1) q ≫= leaf).
Proof.
  apply (cursor_edits_spec 10 c1 t1 [na; nb] key1 doc1 edits1); [exact txn1|by vm_compute|exact value_ok1|].
  cbn -[encode set_in scalar_ok depth edit]. split_and!; try check; try done.
Defined.

(** ** Destinations above the source, and scalar writes where no file is *)

Lemma mv_onto_ancestor_witness :
  ∃ c', mv 10 (([] ++ [na]) ++ [] ++ [nb]) ([] ++ [na]) c1 = (Ok tt, c') ∧ resolve ([] ++ [na]) c' = Ok (Some key1) ∧
    read_verified key1 c' = Ok None ∧ ∀ j, j ∈ tkeys (AFile key1 (encode doc1)) → view c' j = None.
Proof. apply (mv_onto_ancestor 10 c1 t1 [] na [] nb (AFile key1 (encode doc1))); [exact txn1|by vm_compute|check]. Defined.

Lemma cp_onto_ancestor_witness :
  ∃ y c', cp 10 (([] ++ [na]) ++ [nb]) ([] ++ [na]) c1 = (Err (Corrupt "copying a missing a-node"), c') ∧
    ∀ j, j ∈ tkeys y → view c' j = None.
Proof.
  destruct (tlookup t1 ([] ++ [na])) as [y|] eqn:Hy; [|by vm_compute in Hy]. exists y.
  apply (cp_onto_ancestor 10 c1 t1 [] na [nb] (AFile key1 (encode doc1)) y); [exact txn1|done|by vm_compute|exact Hy|check].
Defined.

Lemma put_scalar_absent_witness :
  put_scalar_at 10 [nb] None [Name na] (U8 1) c1 = store_value_into 10 [nb] (Leaf Null) c1.
Proof. apply (put_scalar_absent 10 c1 t1 [nb] [Name na] (U8 1)); [exact txn1|by vm_compute]. Defined.

Definition keyd : AKey := match tlookup t1 [nd] with Some x => akey x | None => ROOT end.

Lemma put_scalar_on_directory_witness :
  put_scalar_at 10 [nd] None [Name na] (U8 1) c1 = store_value_into 10 [nd] (Leaf Null) c1 ∧
  load_value_at 10 [nd] c1 = Ok None.
Proof.
  assert (tlookup t1 [nd] = Some (ADir keyd [])) as Hl by by vm_compute.
  pose proof (put_scalar_on_directory 10 c1 t1 [nd] keyd [] [Name na] (U8 1) txn1 Hl root1) as Hp.
  assert (engine_view (data c1) keyd = None) as E by by vm_compute.
  rewrite E in Hp. exact Hp.
Defined.

(** ** Versions *)

Import CacheModel.
Abbreviation P := (Z * list (APath * (Z * AKey)))%type.
Abbreviation B := (Z * list ((Z * AKey) * bytes))%type.

Definition table1 : T := data (commit_flush map_to_list map_to_list c1).2.
Definition db1 : Db (T := T) (P := P) (B := B) :=
  set_reader 0 (ROpen (Some table1) 0) (db_init (Some table1)).

Lemma table1_ok : table_ok (Some table1).
Proof.
  destruct (commit_table map_to_list map_to_list c1 t1) as (c' & E & Ht); [done|done|exact txn1|].
  unfold table1. rewrite E. intros k e. apply Ht.
Qed.

Lemma open1 : run (Some table1) 0 db1.
Proof.
  set (s0 := db_init (Some table1) : Db (T := T) (P := P) (B := B)).
  assert (db1 = set_reader 0 (ROpen (Some table1) 0) (set_reader 0 (RSnap (Some table1)) (set_reader 0 RLocked s0))) as ->.
  { unfold db1, set_reader. cbn. by rewrite !insert_insert_eq. }
  eapply (run_step _ _ _ false); [|by apply step_read_generation].
  eapply (run_step _ _ _ false); [|by apply step_read_snapshot].
  eapply (run_step _ _ _ false); [apply run_init|by apply step_read_lock].
Qed.

Lemma readers_see_their_snapshot_witness :
  (∀ p, (read_resolve p (mkReadTxn (Some table1) 0 (db_cache db1))).1 = Ok (vresolve (table_view (Some table1)) ROOT p)) ∧
  (∀ k, (read_entry_blob k (mkReadTxn (Some table1) 0 (db_cache db1))).1 = Ok (table_get (Some table1) k)).
Proof. apply (readers_see_their_snapshot (Some table1) 0 db1 0 (Some table1) 0); [exact table1_ok|exact open1|done|done]. Defined.

(** A reader in the middle of its start. *)
Definition db2 : Db (T := T) (P := P) (B := B) := set_reader 0 RLocked (db_init (Some table1)).


(** ** Keys and paths *)

Lemma akey_bytes_roundtrip_witness :
  blen (into_bytes 7) = 16 ∧ try_from_bytes (into_bytes 7) = Ok 7.
Proof. apply (akey_bytes_roundtrip 7 []). by vm_compute. Defined.

Lemma path_parse_total_witness :
  vpath_ok [Name na; Index 3] ∧ VPath_parse (VPath_to_string [Name na; Index 3]) = Ok [Name na; Index 3].
Proof. apply (path_parse_total [97; 91; 51; 93]). by vm_compute. Defined.

(** ** A view of the directory [a] *)

Definition view_a : RootedWrite := write_rooted [na].
Definition sub_a : atree := default t0 (tlookup t1 [na]).
Definition ops_a : list op := [OMv [nb] [nc; nd]; OStore [nb; na] doc2; ORm [nd]; OCp [nc] [nd]].

Lemma sub_a_at : tlookup t1 [na] = Some sub_a.
Proof. assert (is_Some (tlookup t1 [na])) as [x Hx] by check. unfold sub_a. by rewrite Hx. Qed.

