(* ===== verification/IndexExamples.v ===== *)
(** * The index theorems at concrete inputs

    A registry with one index over the files directly below a directory, two
    columns, the second descending; the database of [Examples] with an index over the
    files of one directory; and two behaviours the specification leaves out: a
    unique index that loses an entry, and entries lost to a failed mutation. *)
From S2P Require Import Prelude BTree Codec Ext Scalar Path Ordered IndexDef Value Archived Access Key Dir Engine Registry WriteBuffer Ctx Fs Tree Refine FsSpec Move FsMove TreeLaws Grab Write Txn Program Pattern Maintenance IndexSync Reindex IndexScan Query IndexAdmin Cursor Edge Cache Versions Examples.
Import ExtModel EngineModel IndexTableModel.

Definition col1 : IndexColumn := mkIndexColumn [Name [97; 103; 101]] Asc.
Definition col2 : IndexColumn := mkIndexColumn [Name [97]; Index 2] Desc.
Definition def1 : IndexDef := mkIndexDef [105] [117; 47; 42] [col1; col2] false.
Definition tname : bytes := [116].

#[local] Instance string_ok_dec s : Decision (string_ok s).
Proof. unfold string_ok. apply _. Defined.
#[local] Instance segment_ok_dec s : Decision (segment_ok s).
Proof. destruct s; cbn; apply _. Defined.
#[local] Instance vpath_ok_dec p : Decision (vpath_ok p).
Proof. unfold vpath_ok. apply _. Defined.
#[local] Instance column_ok_dec c : Decision (column_ok c).
Proof. unfold column_ok. apply _. Defined.
#[local] Instance def_ok_dec d : Decision (def_ok d).
Proof. unfold def_ok. apply _. Defined.

Ltac check := apply (bool_decide_unpack _); by vm_compute.

Lemma def1_ok : def_ok def1.
Proof. check. Qed.

Lemma index_def_roundtrip_witness :
  let whole := IndexDef_encode def1 [7] ++ [9] in
  IndexDef_decode (mkReader whole (blen [7])) = Ok (def1, mkReader whole (blen (IndexDef_encode def1 [7]))) ∧
  IndexDef_decode_name (mkReader whole (blen [7])) = Ok (def_name def1, mkReader whole (blen (IndexDef_encode def1 [7]))).
Proof. apply (index_def_roundtrip def1 [7] [9]); [exact def1_ok|by vm_compute]. Defined.

Definition tuple1 : list Scalar := [Str [97; 0]; BigInt (-300)].
Definition tuple2 : list Scalar := [Str [97; 0]; BigInt 5].

Lemma column_key_order_witness :
  bytes_cmp (encode_columns def1 tuple1 ++ [1]) (encode_columns def1 tuple2 ++ []) =
    lex (tuple_cmp (def_columns def1) tuple1 tuple2) (bytes_cmp [1] []) ∧
  (encode_columns def1 tuple1 = encode_columns def1 tuple2 ↔ tuple_cmp (def_columns def1) tuple1 tuple2 = Eq).
Proof.
  apply (column_key_order def1 tuple1 tuple2 [1] []); [done|..]; repeat constructor; try check.
Defined.

Definition meta1 : gmap bytes bytes :=
  match registry_create (∅ : gmap bytes bytes) tname def1 with Ok (_, m) => m | _ => ∅ end.
Definition reg1 : Registry := mkRegistry 1 [mkIndexEntry tname 0 def1].

Lemma reg1_ok : holds_registry meta1 reg1.
Proof.
  split; [|split; [by vm_compute|]].
  - split; [check|repeat constructor; try check; exact def1_ok|check|check|check|by vm_compute|].
    apply Z.leb_le. by vm_compute.
  - destruct (kv_get meta1 META_INDEX_REGISTRY_KEY) as [bs|] eqn:E; [|by vm_compute in E].
    vm_compute in E. injection E as <-. by vm_compute.
Qed.

Lemma registry_reads_agree_witness :
  ∃ found, registry_lookup meta1 tname [105] = Ok found ∧
    (∀ e, found = Some e ↔ e ∈ entries reg1 ∧ e_table e = tname ∧ def_name (e_def e) = [105]) ∧
    registry_has meta1 tname [105] = Ok (bool_decide (is_Some found)) ∧
    (∃ es, registry_for_table meta1 tname = Ok es ∧ es `sublist_of` entries reg1 ∧
       ∀ e, e ∈ es ↔ e ∈ entries reg1 ∧ e_table e = tname) ∧
    registry_any meta1 = Ok (bool_decide (entries reg1 ≠ [])).
Proof. apply (registry_reads_agree meta1 reg1 tname [105]). exact reg1_ok. Defined.

Definition def2 : IndexDef := mkIndexDef [106] [] [] true.

Lemma registry_updates_spec_witness :
  ∃ meta', registry_create meta1 tname def2 = Ok (true, meta') ∧
    holds_registry meta' (mkRegistry 2 (entries reg1 ++ [mkIndexEntry tname 1 def2])).
Proof.
  pose proof (registry_updates_spec meta1 reg1 tname def2 [105] reg1_ok) as Hu.
  destruct Hu as [Hc _]; [check|check|].
  pose proof (@eq_refl (option IndexEntry) None <: List.find (is_index tname (def_name def2)) (entries reg1) = None) as E.
  rewrite E in Hc. specialize (Hc ltac:(by vm_compute) ltac:(by vm_compute) ltac:(by apply Z.leb_le; vm_compute)).
  destruct Hc as (meta' & E1 & Hh & _). exists meta'. split; [exact E1|exact Hh].
Defined.

(** ** An indexed table *)

Abbreviation M := (gmap bytes bytes).
Abbreviation WT := (WTxn T M sorted_table).

(** A unique index over the entries of [/a], by their field [a]. *)
Definition def3 : IndexDef := mkIndexDef [107] [97; 47; 42] [mkIndexColumn [Name na] Asc] true.
Definition ix3 : IndexEntry := mkIndexEntry tname 0 def3.
Definition meta3 : M := match registry_create (∅ : M) tname def3 with Ok (_, m) => m | _ => ∅ end.
Definition w0 : WT := mkWTxn (WriteTxn_new ∅ 1 true) meta3 empty_table.

Abbreviation run3 := (w_run_op (T := T) (M := M) (I := sorted_table) map_to_list map_to_list tname true 10).

Definition covers_b (e : IndexEntry) (q : APath) : bool :=
  match Pattern_parse (def_pattern (e_def e)) with Ok p => bool_decide (matches p q) | _ => false end.

Lemma usable3 : usable ix3.
Proof. split; [by split|]. split; [vm_compute; by eexists|check]. Qed.

(** The members of a concrete tree, by evaluation. *)
Lemma members t e l q y : tsorted t → touched e t [] = l → member t e q y → y ∈ l.
Proof. intros Hs <- Hm. apply touched_spec; [done|]. exists q. split; [done|apply on_line_nil]. Qed.

Lemma sorted0 : tsorted t0.
Proof. exact (proj1 (txn_sorted _ _ begin0)). Qed.

Lemma no_member0 q y : ¬ member t0 ix3 q y.
Proof. intros Hm. apply (members _ _ [] _ _ sorted0) in Hm; [by apply elem_of_nil in Hm|by vm_compute]. Qed.

Lemma synced0 : synced tname w0 t0 [ix3].
Proof.
  split.
  - apply begin_txn; [exact table0|done].
  - intros q k b Hl. by destruct q.
  - by vm_compute.
  - apply NoDup_singleton.
  - apply Forall_singleton, usable3.
  - intros e ->%list_elem_of_singleton. split; [intros k v Hk; by vm_compute in Hk|].
    intros q y Hm. by apply no_member0 in Hm.
Qed.

Lemma affected_entities_spec_witness :
  ∃ ks, affected_entities [Lit na; Star] table1 [na] = Ok ks ∧
    ∀ k, k ∈ ks ↔ ∃ q y, tlookup t1 q = Some y ∧ akey y = k ∧ matches [Lit na; Star] q ∧ on_line [na] q.
Proof.
  destruct (commit_table map_to_list map_to_list c1 t1) as (c' & E & Ht); [done|done|exact txn1|].
  apply (affected_entities_spec table1 t1 [Lit na; Star] [na]).
  - unfold table1. rewrite E. cbn [snd]. destruct Ht as (He & _ & _ & _ & [Hh|[_ Ht]] & _); split; [done|by left|done|]. by vm_compute in Ht.
  - exact (proj1 (txn_sorted _ _ txn1)).
  - by vm_compute.
Defined.

Definition op3 : op := OStore [na; nb] doc1.


(** The transaction after that store. *)
Definition w1 : WT := (run3 op3 w0).2.
Definition t3 : atree := (t_op t0 op3 1).2.1.

Lemma synced1 : synced tname w1 t3 [ix3].
Proof.
  assert (op_ok 10 t0 op3) as Hok by check.
  assert (op_doc op3) as Hdoc by (split; [exact value_ok1|by vm_compute]).
  assert (unused t0 (rng (w_ctx w0)) (cost t0 op3)) as Hu by (apply (unused_mono _ _ _ _ unused0); by vm_compute).
  assert (∀ e, e ∈ [ix3] → dirs_free t0 e (op_scopes op3)) as Hdirs.
  { intros e ->%list_elem_of_singleton _ q y Hm. by apply no_member0 in Hm. }
  pose proof (bracketed_spec map_to_list map_to_list (λ m, reflexivity _) (λ m, reflexivity _) 10 tname true w0 t0 [ix3] op3
    synced0 (or_introl eq_refl) Hdirs Hok Hdoc Hu ltac:(done) (store_value_into 10 [na; nb] doc1) (λ _, None)
    ltac:(done) ltac:(done)) as Ho.
  match type of Ho with index_outcome _ _ _ ?r _ => change r with (run3 op3 w0) in Ho end.
  assert ((run3 op3 w0).1 = Ok None) as Er by by vm_compute.
  assert ((t_op t0 op3 (rng (w_ctx w0))).1 = Ok None) as Et by by vm_compute.
  unfold w1, t3. change (rng (w_ctx w0)) with 1 in *. destruct (t_op t0 op3 1) as [r [t' s']]. cbn [fst snd] in *. subst r.
  destruct Ho as [(w' & E & Hs & _)|(w' & e & E & _)]; rewrite E in Er |- *; [exact Hs|done].
Qed.

Lemma sorted3 : tsorted t3.
Proof. exact (proj1 (txn_sorted _ _ (sy_txn _ _ _ _ synced1))). Qed.

(** What a type makes of a record: here, its field [a]. *)
Definition load1 (r : ArchivedReader) : res (option Scalar) := ar_scalar_at r [Name na].

#[export] Instance mag_ok_dec z : Decision (mag_ok z).
Proof. unfold mag_ok. apply _. Defined.

(** The only record the index covers holds 7 in its column. *)
Lemma columns3 q y : member t3 ix3 q y → Forall sortable (t_columns ix3 y).
Proof.
  assert (map (t_columns ix3) (touched ix3 t3 []) = [[U8 7]]) as E by vm_cast_no_check (@eq_refl (list (list Scalar)) [[U8 7]]).
  intros Hm. apply (members _ _ (touched ix3 t3 []) _ _ sorted3) in Hm; [|done].
  assert (t_columns ix3 y ∈ [[U8 7]]) as Hy by (rewrite <- E; apply list_elem_of_fmap; by exists y).
  apply list_elem_of_singleton in Hy. rewrite Hy. by repeat constructor.
Qed.

Lemma query_spec_witness :
  ∃ hits, execute_query tname load1 [107] [U8 7] true [na] w1 =
      (mapM_res (load_hit load1) (rev hits), w1) ∧ NoDup hits ∧
    ∀ q y, (q, y) ∈ hits ↔ member t3 ix3 q y ∧ is_dir y = false ∧ [na] `prefix_of` q ∧
      tuple_cmp (def_columns def3) [U8 7] (take 1 (t_columns ix3 y)) = Eq.
Proof.
  assert (buffering (wb (w_ctx w1)) = false) as Hb by by vm_compute.
  assert (registry_lookup (w_meta w1) tname [107] = Ok (Some ix3)) as Hl by by vm_compute.
  pose proof columns3 as Hm. pose proof synced1 as Hs. revert Hs Hb Hl Hm. generalize w1 t3. intros w t Hs Hb Hl Hm.
  pose proof (query_spec load1 tname [107] w t [ix3] [U8 7] true [na] Hs Hb) as [_ Hq].
  destruct (Hq ix3 (proj2 (list_elem_of_singleton _ _) eq_refl) Hl) as [_ Hh].
  destruct Hh as (hits & E & Hnd & _ & Hin); [done|by repeat constructor|exact Hm|by exists hits].
Defined.

(** The query does find the record. *)
Example query_finds : (execute_query tname load1 [107] [U8 7] true [na] w1).1 = Ok [Some (U8 7)].
Proof. vm_cast_no_check (@eq_refl (res (list (option Scalar))) (Ok [Some (U8 7)])). Qed.

(** ** Creating and dropping *)

Definition s1 : Tables T M sorted_table := mkTables table1 ∅ empty_table false.
Definition s3 : Tables T M sorted_table := (create_index tname def3 s1).2.

Lemma docs_ok_dir k ch : Forall (λ e, docs_ok e.2) ch → docs_ok (ADir k ch).
Proof.
  intros Hch q k' b Hl. destruct q as [|n q]; [done|]. cbn in Hl. destruct (bt_get ch n) as [x|] eqn:E; [|done].
  rewrite Forall_forall in Hch. apply bt_get_Some_in in E. by apply (Hch (n, x) E q k').
Qed.

Lemma docs_ok_file k v : value_ok v → blen (encode v) < 2 ^ 32 → docs_ok (AFile k (encode v)).
Proof. intros Hv Hb q k' b Hl. destruct q; [|done]. injection Hl as <- <-. by exists v. Qed.

Lemma reg0_ok : holds_registry (∅ : M) (mkRegistry 0 []).
Proof. split; [|by split]. split; cbn; try done; constructor. Qed.

Lemma reg3_ok : holds_registry meta3 (mkRegistry 1 [ix3]).
Proof.
  split; [|split; [by vm_compute|]].
  - split; [check|repeat constructor; try check|check|check|check|by vm_compute|]. apply Z.leb_le. by vm_compute.
  - destruct (kv_get meta3 META_INDEX_REGISTRY_KEY) as [bs|] eqn:E; [|by vm_compute in E].
    vm_compute in E. injection E as <-. by vm_compute.
Qed.

Lemma table1_holds : table_holds table1 t1.
Proof.
  destruct (commit_table map_to_list map_to_list c1 t1) as (c' & E & Ht); [done|done|exact txn1|].
  unfold table1. by rewrite E.
Qed.

Lemma docs1 : docs_ok t1.
Proof.
  assert (value_ok doc2) as Hv2 by (vm_compute; repeat (split || constructor); done).
  apply docs_ok_dir. repeat (apply Forall_cons; split); [| | |apply Forall_nil_2]; cbn [snd].
  - apply docs_ok_dir. apply Forall_singleton. apply (docs_ok_file _ doc1); [exact value_ok1|by vm_compute].
  - apply (docs_ok_file _ doc2); [exact Hv2|by vm_compute].
  - apply docs_ok_dir. constructor.
Qed.

Lemma create_index_spec_witness :
  ∃ s', create_index tname def3 s1 = (Ok tt, s') ∧ indexed t1 (d_index s') ix3.
Proof.
  pose proof (create_index_spec tname def3 s1 t1 (mkRegistry 0 []) reg0_ok ltac:(check) ltac:(check) table1_holds docs1) as Hc.
  cbn zeta in Hc. cbn [entries next_id List.find] in Hc.
  destruct Hc as [(s' & E & _ & _ & _ & Hix & _)|[E _]].
  - intros k v Hk. by vm_compute in Hk.
  - exact usable3.
  - done.
  - done.
  - apply Z.leb_le. by vm_compute.
  - exists s'. exact (conj E Hix).
  - assert ((create_index tname def3 s1).1 = Ok tt) as E2 by vm_cast_no_check (@eq_refl (res unit) (Ok tt)).
    rewrite E in E2. discriminate E2.
Defined.

Lemma delete_index_spec_witness :
  ∃ s', delete_index tname [107] s3 = (Ok true, s') ∧ holds_registry (d_meta s') (mkRegistry 1 []).
Proof.
  pose proof (delete_index_spec tname [107] s3 (mkRegistry 1 [ix3])) as Hd.
  assert (d_meta s3 = meta3) as E3 by vm_cast_no_check (@eq_refl M meta3).
  rewrite E3 in Hd. revert Hd E3. generalize s3. intros s Hd E3. destruct (Hd reg3_ok) as (s' & E & _ & _ & _ & _ & Hr & _).
  exists s'. exact (conj E Hr).
Defined.

(** ** What the maintenance loses *)

Definition after (ops : list op) : WT := fold_left (λ w o, (run3 o w).2) ops w0.
Definition query3 : WT → res (list (option Scalar)) :=
  λ w, (execute_query tname (λ r, ar_scalar_at r []) [107] [] false [] w).1.

(** A directory counts as an entity whose columns are all [Null]; under a unique index
    it shares the key of a record without the column.  Creating it is not reindexed,
    removing it is: the record's entry goes with it, while the record stays. *)
Definition made : list op := [OStore [na; nb] doc2; OMkdir [na; nc]].

Example mkdir_unique_index_loses_entry :
  query3 (after made) = Ok [Some (Str [104; 105])] ∧ query3 (after (made ++ [ORm [na; nc]])) = Ok [].
Proof.
  split; [vm_cast_no_check (@eq_refl (res (list (option Scalar))) (Ok [Some (Str [104; 105])]))|].
  vm_cast_no_check (@eq_refl (res (list (option Scalar))) (Ok [])).
Qed.

(** A store below a covered record fails, and is refused after the record's index entry
    was removed: the record stays, the transaction can commit, the query misses it. *)
Definition refused : list op := [OStore [na; nb] doc1; OStore [na; nb; nc] doc1].

Example failed_mutation_drops_entries :
  is_ok (run3 (OStore [na; nb; nc] doc1) (after [OStore [na; nb] doc1])).1 = false ∧
  query3 (after [OStore [na; nb] doc1]) = Ok [None] ∧ query3 (after refused) = Ok [].
Proof.
  split; [vm_cast_no_check (@eq_refl bool false)|split].
  - vm_cast_no_check (@eq_refl (res (list (option Scalar))) (Ok [None])).
  - vm_cast_no_check (@eq_refl (res (list (option Scalar))) (Ok [])).
Qed.
