(* ===== verification/PermExamples.v ===== *)
(** * The permission theorems at concrete inputs

    A database promoted under the toy primitives of [Integrity], its first users and
    groups, and one table with a root and a file. *)
From S2P Require Import Prelude BTree Codec IndexDef Key Dir Engine Acl Integrity Inode PermStore PermSpec PermAuth.
Import EngineModel IndexTableModel CryptoModel.

Abbreviation Meta0 := (gmap bytes bytes).

Ltac check := apply (bool_decide_unpack _); by vm_compute.

Definition key0 : bytes := repeat 1 32.
Definition seed0 : bytes := repeat 2 32.
Definition salt0 : bytes := repeat 3 16.
Definition nonce0 : bytes := repeat 4 24.
Definition password0 : bytes := str "secret".

Definition ring0 : KeyringEntry :=
  match wrap_secrets (Some salt0) (Some nonce0) password0 key0 seed0 with Ok k => k | _ => mkKeyring [] [] [] end.

Lemma ring0_wraps : wrap_secrets (Some salt0) (Some nonce0) password0 key0 seed0 = Ok ring0.
Proof. by vm_compute. Qed.

Lemma ring0_ok : keyring_wf ring0.
Proof. split_and!; by vm_compute. Qed.

(** The tables of the database when it is promoted: one table, its root and a file. *)
Definition rows0 : list (bytes * list (AKey * bytes)) := [(str "t", [(ROOT, [1; 0]); (5, [0; 7])])].

Lemma no_inodes : holds_inodes empty_table ∅.
Proof. split; [intros k x; by rewrite lookup_empty|done]. Qed.

(** The metadata of that database. *)
Definition meta0 : Meta0 :=
  match promote_to_master (Some key0) (Some seed0) (Some salt0) (Some nonce0) password0 rows0 (∅ : Meta0) empty_table with
  | Ok (_, (meta, _)) => meta
  | _ => ∅
  end.

Lemma meta0_holds : holds_store meta0 key0 (first_users ring0) first_groups.
Proof.
  split.
  - by vm_compute.
  - by vm_compute.
  - apply first_names.
  - apply first_sizes, ring0_ok.
  - apply first_directory, ring0_ok.
  - by vm_compute.
  - done.
Qed.

Lemma meta0_room : directory_room (dir_of (first_users ring0) first_groups).
Proof.
  split_and!; [done|done|]. intros n u Hu.
  destruct (do_users _ (first_directory ring0 ring0_ok) n u Hu) as [_ Hw _ _ _].
  apply by_name_lookup in Hu as [Hin _]; [|apply first_names].
  apply elem_of_cons in Hin as [E|E%list_elem_of_singleton]; by subst u.
Qed.

(** Adding a user with a group of its own. *)
Definition op0 : AdminOp := AddUser seed0 (Some (repeat 5 16)) (Some (repeat 6 24)) (str "ann") (str "pw") true.

Lemma op0_wraps k : wrap_secrets (Some (repeat 5 16)) (Some (repeat 6 24)) (str "pw") key0 seed0 = Ok k → keyring_wf k.
Proof.
  assert (match wrap_secrets (Some (repeat 5 16)) (Some (repeat 6 24)) (str "pw") key0 seed0 with
          | Ok k => bool_decide (blen (k_salt k) = SALT_LEN ∧ blen (k_nonce k) = NONCE_LEN ∧ blen (k_wrapped k) < 2 ^ 32)
          | _ => false end = true) as E by by vm_compute.
  intros Hk. rewrite Hk in E. by apply bool_decide_eq_true in E.
Qed.

Lemma admin_refines_witness :
  refines meta0 key0 (first_users ring0) first_groups op0 ∧
  match a_admin key0 op0 (dir_of (first_users ring0) first_groups) with Ok D => a_next_uid D = 3 ∧ a_next_gid D = 3 | _ => False end.
Proof.
  split; [|by vm_compute].
  apply (admin_refines meta0 key0 (first_users ring0) first_groups); [exact meta0_holds| |exact meta0_room|].
  - by vm_compute.
  - split_and!; [split; by vm_compute|done|exact op0_wraps].
Defined.

Lemma authenticate_spec_witness :
  authenticate meta0 MASTER_USER password0 = Ok (mkSession MASTER_USER MASTER_UID [MASTER_GID] key0 seed0) ∧
  authenticate meta0 GUEST_USER password0 = Err AuthenticationFailed ∧
  authenticate meta0 MASTER_USER (str "guess") = Err AuthenticationFailed.
Proof.
  destruct (authenticate_spec meta0 key0 (first_users ring0) first_groups MASTER_USER password0 meta0_holds) as (_ & Hg & Hp & _).
  split_and!; [|exact Hg|by vm_compute].
  eapply (Hp (mkUser MASTER_USER MASTER_UID false [MASTER_GID] (Some ring0))); [|done|exact ring0_wraps].
  apply by_name_lookup; [apply first_names|]. split; [by left|done].
Defined.


Lemma inode_updates_spec_witness :
  ∃ i', touch (str "t") 5 1000 empty_table = (Ok tt, i') ∧
    holds_inodes i' (<[(str "t", 5) := stamped 1000 default_inode]> ∅).
Proof.
  destruct (inode_updates_spec empty_table ∅ (str "t", 5) no_inodes) as [Ht _].
  - split; [done|check].
  - apply (Ht 1000). split; by vm_compute.
Defined.
