(* ===== verification/ProtectedExamples.v ===== *)
(** * The protected context at concrete inputs

    One table under the toy primitives of [Integrity]: ann makes the root and stores a
    file, reads it back and removes it; bob is refused; a changed byte and a stripped
    group both read as tampering. *)
From S2P Require Import Prelude BTree Codec Ext Scalar Path Value Archived Key Dir Engine Acl Integrity Inode PermStore PermSpec PermAuth WriteBuffer Ctx Fs Tree Grab Write Octets Cache Hoare Protected ProtectedRead ProtectedTxn ProtectedWrite ProtectedErase ProtectedGuard ProtectedSeal ProtectedKeep PermExamples.
Import ExtModel EngineModel IndexTableModel CryptoModel CacheModel.



Abbreviation T0 := (gmap Z bytes).
Abbreviation I0 := sorted_table.
Abbreviation S0 := (PCtx T0 I0).

Definition tab : bytes := str "t".
Definition ann : Session := mkSession (str "ann") 2 [2] (repeat 1 32) (repeat 2 32).
Definition bob : Session := mkSession (str "bob") 3 [3] (repeat 1 32) (repeat 2 32).

Definition bare : S0 := PCtx_new (mkCtx (∅ : T0) (WriteBuffer_new false) (seed 1)) empty_table.

Definition path_a : APath := [str "a"].

Definition setup : SM S0 unit :=
  let! _ := p_ensure_root tab 1000 (User ann) in
  p_store_value_at tab 1000 (User ann) 10 path_a (Leaf (U8 7)).

Definition stored : S0 := (setup bare).2.
Definition key_a : AKey := nth_key (seed 1) 0.

Lemma setup_ok : setup bare = (Ok tt, stored).
Proof. assert ((setup bare).1 = Ok tt) as E by by vm_compute. unfold stored. destruct (setup bare). cbn in *. by subst. Qed.

Lemma stored_data : data (p_ctx stored) =
  <[ROOT := dir_entry (encode_dir [(str "a", key_a)])]> {[key_a := file_entry (encode (Leaf (U8 7)))]}.
Proof. apply (bool_decide_unpack _). by vm_compute. Qed.

Lemma stored_empty : dirs (wb (p_ctx stored)) = ∅ ∧ files (wb (p_ctx stored)) = ∅.
Proof. apply (bool_decide_unpack _). by vm_compute. Qed.

#[local] Opaque stored.

Lemma nothing_buffered w : dirs w = ∅ → files w = ∅ → wb_ok w.
Proof. by intros Hd Hf. Qed.

Lemma stored_wb : wb_ok (wb (p_ctx stored)).
Proof. apply nothing_buffered; apply stored_empty. Qed.

Lemma stored_ctx_ok : ctx_ok (p_ctx stored).
Proof.
  destruct stored_empty as [Hd Hf]. split; [exact stored_wb|]. split; [by rewrite Hd|]. split; [by rewrite Hf|]. split; [|check].
  intros k e. rewrite stored_data. cbn [kv_get gmap_kv]. rewrite !lookup_insert. case_decide; [|rewrite lookup_singleton; case_decide; [|done]].
  - intros [= <-]. left. eexists. split; [|done]. split_and!; [repeat constructor|repeat constructor; check|check].
  - intros [= <-]. right. by eexists.
Qed.

Lemma stored_root : is_Some (view (p_ctx stored) ROOT).
Proof. destruct stored_empty as [Hd Hf]. unfold view. rewrite Hd, Hf, !lookup_empty. unfold engine_view. rewrite stored_data. by eexists. Qed.

(** Ann may remove her file; bob may not. *)
Lemma access_mediated_witness :
  ∃ s', p_rm tab 2000 (User ann) 10 path_a stored = (Ok true, s') ∧
    walked tab (User ann) stored ROOT path_a ∧
    (∃ k, vresolve (view (p_ctx stored)) ROOT path_a = Some k ∧ ∀ j, below (view (p_ctx stored)) k j → may tab (User ann) stored j RDelete) ∧
    (p_rm tab 2000 (User bob) 10 path_a stored).1 = Err denied.
Proof.
  assert ((p_rm tab 2000 (User ann) 10 path_a stored).1 = Ok true) as E by by vm_compute.
  destruct (p_rm tab 2000 (User ann) 10 path_a stored) as [r s'] eqn:Er. cbn [fst] in E. subst r. exists s'. split; [done|].
  destruct (access_mediated tab 2000 (User ann) 10 stored s' stored_ctx_ok stored_root) as [Hrm _].
  destruct (Hrm path_a Er) as [Hw Hk]. split_and!; [exact Hw|exact Hk|by vm_compute].
Defined.

(** The list and the tags of the file. *)
Definition meta_a : Inode.Meta := match read_meta tab key_a (p_inodes stored) with Ok m => m | _ => ((None, None), None) end.

Lemma meta_a_ok : read_meta tab key_a (p_inodes stored) = Ok meta_a.
Proof.
  assert (match read_meta tab key_a (p_inodes stored) with Ok _ => true | _ => false end = true) as E by by vm_compute.
  unfold meta_a. by destruct (read_meta tab key_a (p_inodes stored)).
Qed.

(** The same store, its file's byte changed on disk. *)
Definition changed_entry : bytes := file_entry (encode (Leaf (U8 8))).
Definition with_data (t : T0) : S0 := PCtx_new (mkCtx t (wb (p_ctx stored)) (rng (p_ctx stored))) (p_inodes stored).
Definition changed : S0 := with_data (<[key_a := changed_entry]> (data (p_ctx stored))).

Lemma tampering_detected_witness :
  p_read_verified tab (User ann) key_a changed = (Err tampered, changed) ∧
  (p_read_verified tab (User ann) key_a (with_data (data (p_ctx stored)))).1 = Ok (Some (file_entry (encode (Leaf (U8 7))))).
Proof.
  split; [|by vm_compute].
  destruct (tampering_detected tab ann eq_refl changed key_a changed_entry meta_a.1.1 meta_a.1.2 meta_a.2) as [Hr _].
  - exact stored_wb.
  - check.
  - check.
  - apply meta_a_ok.
  - destruct Hr as [Hr _]; [set_solver|]. rewrite Hr, bool_decide_false; [done|]. check.
Defined.

(** A deleted group: its rights leave every list that named it, and no tag is made anew. *)
Definition shared : S0 := (set_acl_into tab (User ann) path_a (set_group_rights 3 RAccess) stored).2.
Definition stripped_store : S0 := mkPCtx (p_ctx shared) (strip_group 3 (p_inodes shared)).2 ∅.

(** Removing a group leaves the a-nodes that named it unreadable: the stored tag covers
    the list the group was in. *)
Example strip_group_breaks_seals :
  (p_read_verified tab (User bob) key_a (mkPCtx (p_ctx shared) (p_inodes shared) ∅)).1 = Ok (Some (file_entry (encode (Leaf (U8 7))))) ∧
  (p_read_verified tab (User ann) key_a stripped_store).1 = Err tampered.
Proof. split; by vm_compute. Qed.

Lemma bare_inv : store_inv tab ann bare.
Proof. split; [|done]. exists ∅. split_and!; [exact no_inodes|done|done]. Qed.

Lemma seals_kept_witness :
  store_inv tab ann stored ∧ ∃ s', p_rm tab 2000 (User ann) 10 path_a stored = (Ok true, s') ∧ store_inv tab ann s'.
Proof.
  assert (unsigned_ok 32 2) as H2 by check. assert (signed_ok 64 1000 ∧ signed_ok 64 2000) as [Ht1 Ht2] by (split; check).
  assert (path_octets path_a) as Hp by (repeat constructor; check).
  destruct (seals_kept tab 1000 ann eq_refl Ht1 eq_refl H2 10 map_to_list map_to_list (λ _, reflexivity _) (λ _, reflexivity _)) as [Hst [_ [Hmk _]]].
  destruct (seals_kept tab 2000 ann eq_refl Ht2 eq_refl H2 10 map_to_list map_to_list (λ _, reflexivity _) (λ _, reflexivity _)) as [_ [_ [Hrm _]]].
  assert (store_inv tab ann stored) as Hs.
  { pose proof setup_ok as E. unfold setup in E. apply sbind_inv in E as ([] & s1 & E1 & E2).
    eapply (Hst path_a (Leaf (U8 7))); [done|check| |exact E2].
    destruct (Hmk []) as [Hroot _]; [constructor|]. eapply Hroot; [exact bare_inv|].
    unfold p_mkdir, p_ensure_dir. rewrite sbind_assoc, (sbind_Ok _ _ _ _ _ E1). done. }
  split; [exact Hs|]. assert ((p_rm tab 2000 (User ann) 10 path_a stored).1 = Ok true) as E by by vm_compute.
  destruct (p_rm tab 2000 (User ann) 10 path_a stored) as [r s'] eqn:Er. cbn [fst] in E. subst r. exists s'. split; [done|].
  destruct (Hrm path_a Hp) as [_ Hr]. eapply Hr; [exact Hs|exact Er].
Defined.

(** ** A reader of the store *)

Abbreviation Paths := (Z * list (APath * (Z * AKey)))%type.
Abbreviation Blobs := (Z * list ((Z * AKey) * bytes))%type.
Abbreviation Tags := (Z * list ((Z * AKey) * unit))%type.

(** Ann takes the others' rights away first. *)
Definition private : S0 := (set_acl_into tab (User ann) path_a (set_other_rights RNone) stored).2.

Definition reader : PReadTxn (T := T0) (I := I0) (P := Paths) (B := Blobs) (V := Tags) :=
  PReadTxn_new (mkReadTxn (Some (data (p_ctx private))) 1 PathCache_new) (Some (p_inodes private)) (lru_new (K := Z * AKey) (V := bytes) INODE_CAPACITY) (lru_new (K := Z * AKey) (V := unit) INODE_CAPACITY).

Definition as_reader (p : Principal) : PGrab (DateTime := Z) PReadTxn :=
  PReadTxn_PGrab (P := Paths) (B := Blobs) (V := Tags) (λ z, Some z) tab p 3000 (∅ : gmap bytes bytes).

Definition load_as (p : Principal) := pg_load_value (H0 := as_reader p) 10 path_a.
Definition ls_as (p : Principal) := pg_ls (H0 := as_reader p) path_a.

Lemma answered {A S} (x : A * S) a : x.1 = a → ∃ s', x = (a, s').
Proof. intros <-. exists x.2. by destruct x. Qed.

(** The octet a read answers, 0 for any other answer. *)
Definition octet_of (r : res (option Value)) : Z := match r with Ok (Some (Leaf (U8 n))) => n | _ => 0 end.

Lemma octet_of_inv r n : octet_of r = n → n ≠ 0 → r = Ok (Some (Leaf (U8 n))).
Proof. intros <-. unfold octet_of. by repeat case_match. Qed.

Definition ann_laws := reader_laws (P := Paths) (B := Blobs) (V := Tags) (λ z, Some z) tab (User ann) 3000 (∅ : gmap bytes bytes) (T := T0) (I := I0) eq_refl.
#[local] Opaque reader.


Definition refused {A} (r : res A) : bool := match r with Err (PermissionDenied _) => true | _ => false end.

Example bob_may_not_read : refused (load_as (User bob) reader).1 ∧ refused (ls_as (User bob) reader).1.
Proof. split; by vm_compute. Qed.

(** A writer over the same tables.  The mutable accessor's own reads check no right:
    bob, refused by every other read, is given ann's file. *)
Definition writer : PWriteTxn T0 I0 := mkPWrite (p_ctx private) (p_inodes private) ∅.
Definition as_writer (p : Principal) : PGrab (DateTime := Z) (PWriteTxn T0 I0) :=
  PWriteTxn_PGrab (λ z, Some z) tab p 3000 (∅ : gmap bytes bytes).
Definition writer_load (p : Principal) := pg_load_value (H0 := as_writer p) 10 path_a.
Definition writer_kind (p : Principal) := pg_kind (H0 := as_writer p) path_a.

Example mutable_accessor_unchecked :
  refused (writer_load (User bob) writer).1 ∧ refused (writer_kind (User bob) writer).1 ∧
  (w_fetch_mut path_a writer).1 = Ok (Some (key_a, 1)) ∧
  (w_load_value_at tab (User bob) 10 path_a writer).1 = Ok (Some (Leaf (U8 7))).
Proof. unfold writer_load. split_and!; [by vm_compute..|by apply octet_of_inv; [vm_compute|]]. Qed.
