(* ===== verification/DatabaseExamples.v ===== *)
(** * The database handle at concrete inputs

    The toy primitives of [Integrity] and a database of one table: it is promoted and
    reopened; then its master adds a group and a guest tries to. *)
From S2P Require Import Prelude BTree Codec Ext Scalar Ordered Path IndexDef Value Archived Key Dir Engine Acl Integrity Inode PermStore PermSpec PermAuth Ctx Cache Protected ProtectedRead ProtectedTxn ProtectedWrite Database PermExamples.
Import ExtModel EngineModel IndexTableModel CryptoModel CacheModel.

Abbreviation T0 := (gmap Z bytes).
Abbreviation I0 := sorted_table.
Abbreviation Paths := (Z * list (APath * (Z * AKey)))%type.
Abbreviation Blobs := (Z * list ((Z * AKey) * bytes))%type.
Abbreviation Tags := (Z * list ((Z * AKey) * unit))%type.
Abbreviation Inner0 := (DbInner T0 Meta0 I0 Paths Blobs Tags).

Definition engine0 (ts : gmap bytes T0) : list bytes := (map_to_list ts).*1.
Definition rows_of (t : T0) : list (AKey * bytes) := map_to_list t.

Lemma engine0_names ts : NoDup (engine0 ts) ∧
  ∀ name, is_reserved_table_name name = false → name ∈ engine0 ts ↔ is_Some (ts !! name).
Proof.
  split; [apply NoDup_fst_map_to_list|]. intros name _. unfold engine0. rewrite list_elem_of_fmap. split.
  - intros ([n t] & -> & Hin%elem_of_map_to_list). by exists t.
  - intros [t Ht]. exists (name, t). split; [done|]. by apply elem_of_map_to_list.
Qed.

Lemma rows_of_ok (t : T0) : NoDup (map fst (rows_of t)) ∧ ∀ k e, (k, e) ∈ rows_of t ↔ kv_get t k = Some e.
Proof. split; [apply NoDup_fst_map_to_list|]. intros k e. apply elem_of_map_to_list. Qed.

(** One table: its root and a file. *)
Definition table1 : T0 := {[ROOT := [1; 0]; 5 := [0; 7]]}.
Definition file1 : gmap bytes T0 := {[str "t" := table1]}.

Definition build0 : Build := {| permissions := true; entry_timestamps := true |}.

Definition opened : res (ArborDb * Inner0) := wrap build0 file1 ∅ None.

Lemma opened_ok : ∃ s : Inner0, opened = Ok (mkArborDb Unrestricted, s) ∧ kv_get (di_meta s) META_USERS_KEY = None ∧
  features_list (di_meta s) = Ok [] ∧ read_epoch (di_meta s) = Ok 0 ∧ inodes_of empty_table s = empty_table.
Proof. eexists. split; [reflexivity|]. split_and!; by vm_compute. Qed.

Lemma typed1 name (t : T0) akey e : file1 !! name = Some t → kv_get t akey = Some e → key_ok (name, akey).
Proof.
  unfold file1. intros [<- <-]%lookup_singleton_Some Hk. split; [done|]. cbn [snd]. unfold table1 in Hk. cbn in Hk.
  apply lookup_insert_Some in Hk as [[<- _]|[_ [<- _]%lookup_singleton_Some]]; check.
Qed.

Lemma protect_and_reopen_witness :
  ∃ (s s' s1 : Inner0) session, opened = Ok (mkArborDb Unrestricted, s) ∧
    change_password ∅ empty_table engine0 rows_of (mkArborDb Unrestricted) (mkEntropy (Some key0) (Some seed0) (Some salt0) (Some nonce0)) password0 s
      = (Ok (mkArborDb (User session)), s') ∧
    wrap build0 (di_tables s') (di_meta s') (di_inodes s') = Ok (mkArborDb (Guest (public_key seed0)), s1) ∧
    with_authentication (mkArborDb (Guest (public_key seed0))) MASTER_USER password0 s1 = (Ok (mkArborDb (User session)), s1).
Proof.
  destruct opened_ok as (s & Eo & Hn & Hf & He & Hi).
  destruct (protect_and_reopen (P := Paths) (B := Blobs) (V := Tags) ∅ empty_table engine0 rows_of build0 engine0_names rows_of_ok
    file1 ∅ None (mkArborDb Unrestricted) s key0 seed0 salt0 nonce0 password0 ∅ [] ring0) as (_ & s' & m' & Ec & _ & _ & _ & _ & (s1 & E1 & Ea & _) & _).
  - exact Eo.
  - done.
  - by intros ?%elem_of_nil.
  - exact Hn.
  - exact Hf.
  - split_and!; [constructor|done|by vm_compute].
  - by exists 0.
  - exact ring0_wraps.
  - exact ring0_ok.
  - rewrite Hi. exact no_inodes.
  - exact typed1.
  - exists s, s', s1, (mkSession MASTER_USER MASTER_UID [MASTER_GID] key0 seed0). split_and!; [exact Eo|exact Ec|exact E1|exact Ea].
Defined.

(** ** A run of two handles *)

Definition db0 : Inner0 := mkInner ∅ meta0 (Some empty_table) 0 ∅ false ∅.
Definition master0 : Principal := User (mkSession MASTER_USER MASTER_UID [MASTER_GID] key0 seed0).
Definition guest0 : Principal := Guest (public_key seed0).
Definition no_files (_ : gmap Z (list (bytes * Z))) : list (Z * list (bytes * Z)) := [].
Definition log_order (log : AccessLog) : list ((bytes * Z) * Z) := map_to_list log.

Definition act0 (p : Principal) (c : db_call) : Inner0 → res unit * Inner0 :=
  perform ∅ empty_table engine0 rows_of 1000 10 log_order (mkArborDb p) c.

Definition team : db_call := CAddGroup (str "team").
Definition db1 : Inner0 := (act0 master0 team db0).2.

Lemma db0_protected : protected_db key0 (public_key seed0) (dir_of (first_users ring0) first_groups) db0.
Proof. exists (first_users ring0), first_groups. split_and!; [exact meta0_holds|done|by vm_compute|by vm_compute]. Qed.

(** What the store of a state holds has room. *)
Definition room_check (meta : Meta0) : bool :=
  match Users_load meta, Groups_load meta with
  | Ok us, Ok gs =>
      bool_decide (sizes_ok us gs (2 ^ 36) 1) && (a_next_uid (dir_of us gs) <? U32_MAX) && (a_next_gid (dir_of us gs) <? U32_MAX) &&
      bool_decide (map_Forall (λ _ u, blen (u_gids u) + 1 < 2 ^ 32) (a_users (dir_of us gs)))
  | _, _ => false
  end.

Lemma room_checked (s : Inner0) : room_check (di_meta s) = true → roomy key0 s.
Proof.
  unfold room_check. intros Hc us gs Hst. destruct (holds_users _ _ _ _ Hst) as [Eu Eg]. rewrite Eu, Eg in Hc.
  apply andb_true_iff in Hc as [Hc Hg%bool_decide_eq_true]. apply andb_true_iff in Hc as [Hc H2%Z.ltb_lt].
  apply andb_true_iff in Hc as [Hs%bool_decide_eq_true H1%Z.ltb_lt]. split; [exact Hs|]. split_and!; [exact H1|exact H2|exact Hg].
Qed.

Lemma empty_log : log_ok ∅.
Proof. intros k w. by rewrite lookup_empty. Qed.

Lemma db1_log : di_access_log db1 = ∅.
Proof. by vm_compute. Qed.

Lemma run0 : db_run ∅ empty_table engine0 rows_of 1000 10 no_files map_to_list log_order key0 [master0; guest0] db0 db1.
Proof.
  eapply (run_one _ _ _ _ _ _ _ _ _ _ master0 _ db0 db1).
  - split_and!; done.
  - apply room_checked. by vm_compute.
  - exact empty_log.
  - apply (step_call _ _ _ _ _ _ _ _ _ _ master0 team db0). split; [by vm_compute|done].
  - eapply (run_one _ _ _ _ _ _ _ _ _ _ guest0 _ db1 db1).
    + done.
    + apply room_checked. by vm_compute.
    + rewrite db1_log. exact empty_log.
    + pose proof (step_call ∅ empty_table engine0 rows_of 1000 10 no_files map_to_list log_order key0 guest0 team db1) as Hs.
      rewrite (denied_step _ _ _ _ _ _ _ guest0 team db1 eq_refl eq_refl) in Hs. apply Hs. split; [by vm_compute|done].
    + constructor.
Qed.

Lemma order_elem (log : AccessLog) e : e ∈ log_order log → log !! e.1 = Some e.2.
Proof. destruct e as [k w]. by intros Hin%elem_of_map_to_list. Qed.


(** ** Promotion leaves the generation: what was cached before it is served after it *)

Definition tab1 : bytes := str "t".
Definition dir1 : T0 := {[ROOT := dir_entry (encode_dir [(str "a", 5)]); 5 := file_entry (Archived.encode (Value.Leaf (U8 7)))]}.
Definition inodes1 : I0 := (touch tab1 5 1000 empty_table).2.

Definition plain1 : Inner0 :=
  match wrap build0 {[tab1 := dir1]} (∅ : Meta0) (Some inodes1) with Ok (_, s) => s | _ => DbInner_new ∅ ∅ None false end.

Definition grab1 (p : Principal) (s : Inner0) : PGrab (DateTime := Z) PReadTxn :=
  PReadTxn_PGrab (P := Paths) (B := Blobs) (V := Tags) (λ z, Some z) tab1 p 3000 (di_meta s).

(** A snapshot read by [p] of the file [a]: its owner, or its scalar. *)
Definition owner_as (p : Principal) (s : Inner0) : res (option bytes) * Inner0 :=
  with_read (mkTable tab1 p) map_to_list (ProtectedRead.pg_owner (H0 := grab1 p s) [str "a"]) s.
Definition get_as (p : Principal) (s : Inner0) : res (option Scalar) * Inner0 :=
  with_read (mkTable tab1 p) map_to_list (ProtectedRead.pg_get (H0 := grab1 p s) [str "a"] []) s.

Definition promote1 (s : Inner0) : Inner0 :=
  (change_password ∅ empty_table engine0 rows_of (mkArborDb Unrestricted) (mkEntropy (Some key0) (Some seed0) (Some salt0) (Some nonce0)) password0 s).2.

Definition as_octet (r : res (option Scalar)) : Z := match r with Ok (Some (U8 n)) => n | Err (Tampered _) => -1 | _ => -2 end.

Example stale_inode_after_promotion :
  as_octet (get_as master0 (promote1 plain1)).1 = 7 ∧
  as_octet (get_as master0 (promote1 (owner_as Unrestricted plain1).2)).1 = -1.
Proof. split; by vm_compute. Qed.

(** ** A handle opened before the promotion stays unrestricted *)

Definition store_as (p : Principal) (n : Z) (s : Inner0) : res unit * Inner0 :=
  with_write ∅ empty_table 4000 map_to_list map_to_list log_order (mkTable tab1 p) (Key.seed 1) true
    (w_store_value_at tab1 p 4000 10 [str "a"] (Value.Leaf (U8 n))) s.

Definition answer (r : res unit) : Z := match r with Ok _ => 0 | Err (PermissionDenied _) => 1 | _ => 2 end.

Example old_handle_unrestricted :
  let s := promote1 plain1 in
  answer (store_as guest0 9 s).1 = 1 ∧
  answer (store_as Unrestricted 9 s).1 = 0 ∧
  as_octet (get_as master0 (store_as Unrestricted 9 s).2).1 = -1 ∧
  as_octet (get_as Unrestricted (store_as Unrestricted 9 s).2).1 = 9.
Proof. split_and!; by vm_compute. Qed.
