(* ===== verification/ExportExamples.v ===== *)
(** * Exports at concrete documents *)
From S2P Require Import Prelude BTree Codec Ext Scalar Path Value Archived Access Key Dir Engine WriteBuffer Ctx Tree Grab Write Text Export ExportSpec Examples.
Import ExtModel EngineModel TextModel.

#[export] Instance text_model_numbers : NumberLaws.
Proof.
  assert (∀ z k, 0 < k ≤ 10 ^ 38 → json_number (show_nat (z mod k)) = true) as Hn.
  { intros z k Hk. pose proof (Z.mod_pos_bound z k ltac:(lia)) as Hz. rewrite <- (app_nil_r (show_nat _)).
    apply (json_number_signed false), nat_number; [lia|done..]. }
  split; cbn; intros; try (apply Hn; lia). done.
Qed.

Lemma exports_read_back_witness :
  (∃ s' json, same c1 s' ∧ txn_export_to_json 10 [na; nb] (Some 2%nat) c1 = (Ok json, s') ∧ read_json 20 json = Some (view doc1)) ∧
  (∃ s' yaml, same c1 s' ∧ txn_export_to_yaml 10 [na; nb] c1 = (Ok yaml, s') ∧ read_yaml 20 yaml = Some (view doc1)).
Proof.
  destruct (txn_reads c1 t1 txn1 root1) as (Hc & Hh & Hk).
  pose proof (exports_read_back 10 c1 t1 [na; nb] (Some 2%nat)) as Hr.
  assert (tlookup t1 [na; nb] = Some (AFile key1 (encode doc1))) as Hl by by vm_compute.
  rewrite Hl in Hr. destruct (Hr Hc Hh Hk doc1 eq_refl value_ok1) as ((s1 & j & Hs1 & E1 & R1) & (s2 & y & Hs2 & E2 & R2) & _);
    [by vm_compute|check|].
  split; [exists s1, j|exists s2, y]; (split; [done|]; split; [done|]); [apply R1; check|apply R2; check].
Defined.

(** [{"a": 7, "b": [null]}] in the three layouts. *)
Example compact_text : to_json doc1 None = [123; 34; 97; 34; 58; 55; 44; 34; 98; 34; 58; 91; 110; 117; 108; 108; 93; 125].
Proof. by vm_compute. Qed.

Example pretty_text : to_json doc1 (Some 1%nat) =
  [123; 10; 32; 34; 97; 34; 58; 32; 55; 44; 10; 32; 34; 98; 34; 58; 32; 91; 10; 32; 32; 110; 117; 108; 108; 10; 32; 93; 10; 125].
Proof. by vm_compute. Qed.

Example yaml_text : to_yaml doc1 = [34; 97; 34; 58; 32; 55; 10; 34; 98; 34; 58; 10; 32; 32; 45; 32; 110; 117; 108; 108; 10].
Proof. by vm_compute. Qed.

(** A quote and a control character are escaped; two bytes take one pad character. *)
Example escapes : quote [] [34; 7] = [34; 92; 34; 92; 117; 48; 48; 48; 55; 34] ∧ base64_encode [255; 0] = [47; 119; 65; 61].
Proof. done. Qed.
